(* ===== verification/_CoqProject ===== *)
-Q . S2P
Prelude.v
Contract.v
Errors.v
Protocol.v
Sock.v
Frame.v
PlainCodec.v
FrameTests.v
Fd.v
Lock.v
Channel.v
Talking.v
Role.v
Bind.v
Crash.v
StateJournal.v
LockTests.v
Incumbent.v
SocketTests.v
IncumbentSafety.v
IncumbentAsked.v
IncumbentCommits.v
Primitive.v
PrimitiveSafety.v
PrimitiveCommits.v
Supervisor.v
SupervisorSafety.v
SupervisorTime.v
SupervisorCommits.v
Inheritance.v
Pair.v
SupervisorBin.v
SupervisorBinSafety.v
Harness.v
Probes.v
Crashed.v
CrashedPrimitive.v
TestDrainable.v
System.v
Handover.v
Fleet.v
