(* ===== verification/Prelude.v ===== *)
(** * Verification of the handoff library

    [handoff] (src/crates/handoff) lets a process replace itself without
    refusing a connection: a {e supervisor} starts a new version of a service
    (the {e successor}), hands it the listening sockets, and has the running
    version (the {e incumbent}) drain, seal its data and give up the lock of
    the data directory before the successor takes it.  The claim of the code is
    that no two versions ever own the data at once, that an incumbent whose
    replacement fails gets the service back, and that every wait ends.  This
    development models the three programs and the layers under them, and
    proves those claims.

    ** The parts and their files

    Every definition keeps the name it has in the code.  Files are listed in
    dependency order; "src/..." paths are relative to src/crates/.

    - [Prelude]: the result type, the program monad [prog] (a world, an
      outcome, [Exit] for [_exit]), its weakest-precondition rules, numbers as
      the code formats and parses them, machine widths, the tactics.
    - [Contract]: specifications as automata over a trace of events; [post] and
      its rules, used by every [...Safety] file.
    - [Errors] (handoff/src/error.rs): [Error], [IoError], [errno] and its
      [ErrorKind], the display strings.
    - [Protocol] (handoff/src/protocol.rs): [Message] and [negotiate_version].
    - [Sock] (handoff/src/sock.rs): descriptors as a kernel table [kernel] over
      open file descriptions; [send_all] against a script of what [send(2)]
      returns; path limits, [peer_uid_is_allowed], descriptor flags.
    - [Frame] (handoff/src/frame.rs): the encoding of a frame, [read_message],
      and the resumable [FrameAccumulator] over a stream of read events (bytes in
      any segmentation, [EINTR], time-outs, errors, end of file).  [PlainCodec] is
      a codec of the messages for the witnesses, not one of the program's.
    - [FrameTests], [LockTests], [SocketTests]: the [#[test]] functions of the
      library's files, each a definition that runs the model as the test runs the
      code, and theorems that they pass.
    - [Fd] (handoff/src/fd.rs): the child's environment and the descriptor
      shuffle between [fork] and [execve].
    - [Lock] (handoff/src/lock.rs): flock and pidfile, as sequential programs, and as
      the step relation [lstep] of several processes that may die anywhere.
    - [Channel]: the interface [ControlChannel] and its laws, which the state
      machines are proved against; instances [Stream.stream] (the bytes of
      [Frame]) and [Script.script] (whole messages, for examples).  [Talking]
      extends it to a channel whose peer says given messages, heartbeats between
      them, with laws for when a poll or a write succeeds; both instances have them,
      the byte stream with room for a number of frames in its socket.
    - [Role] (handoff/src/role.rs): [detect_role] over the process environment
      and the kernel table, listener adoption, [take], and the successor's
      typestate protocol.
    - [Bind] (sock.rs [bind_socket], incumbent.rs [bind_replacing]): publishing
      a socket by bind, chmod and rename over a name space.
    - [Crash] (handoff/src/crash.rs): [maybe_crash] and the point names.
    - [StateJournal] (handoff/src/state.rs): the journal and its atomic write.
    - [Incumbent] (handoff/src/incumbent.rs, drainable.rs): [serve], the session
      loop, one handler per message, abort and flock recovery.  The service's
      own hooks are the class [Drainable], with the crash points they pass.  While
      a hook works the heartbeat thread waits an interval, stamps a frame and writes
      it, again and again.  [IncumbentSafety] and
      [IncumbentAsked] have its theorems; [IncumbentCommits] shows that it hands
      over when it is led to [Commit].
    - [Primitive] (handoff-tests/src/bin/primitive.rs): both roles of the test
      service up to [serve], with [announce_and_bind] of role.rs;
      [PrimitiveSafety] its theorems, [PrimitiveCommits] that a successor that is
      told to begin comes to serve.
    - [Supervisor] (handoff/src/supervisor.rs): [spawn_successor] and
      [perform_handoff], phase by phase, the child guard, [resume_from_journal].
      [SupervisorSafety] has the order of what it does, [SupervisorTime] how long
      it takes, [SupervisorCommits] that it succeeds when the peers do their part.
    - [Inheritance]: [spawn_successor], the shuffle and [detect_role] composed.
    - [Pair] (supervisor.rs [make_socketpair]): the successor's control socket and
      the spawn over it, on the descriptor tables of both processes.
    - [SupervisorBin] (handoff-supervisor/src/main.rs): cold start, trigger
      socket, command line, reap.  [SupervisorBinSafety] has its theorems.
    - [Harness] (handoff-tests/src/lib.rs, handoff-tests/src/bin/supervisor.rs):
      the environments the test fixtures give to the three programs, and the
      test supervisor with its exit status.
    - [Probes] (handoff-tests/src/lib.rs): what a test reads of the lock, the
      journal, the markers and the logs, its assertions, and the life of its
      handles on child processes.
    - [Crashed], [CrashedPrimitive]: what a crash leaves behind, for every
      program, and what the assertions then say.
    - [TestDrainable] (handoff-tests/src/bin/primitive.rs): the test consumer,
      its hooks as programs and as the [Drainable] they make
      ([instance_is_hooks]).
    - [System]: one run of each program with the four message queues between
      them and the flock; a step is the next event of one of them, or a death.
    - [Fleet]: any number of runs of the primitive and of [perform_handoff] over one
      lock; the successor of one handoff is the incumbent of the next.
    - [Handover]: the three programs with one conversation between them, and the run
      of [System] they make together.

    ** How they interact

    The supervisor has a connection to the incumbent and a socket pair to the
    successor.  A program's world holds its end of each as a
    [ControlChannel]; what the peer, the kernel, the clock and the service
    decide is in an environment record ([Env], [SEnv], [PEnv], [MainAnswers]) that
    the theorems quantify over, so that a theorem about [perform_handoff] covers
    any peer, also a hostile one.  Each program writes what it does that
    others can see into its trace.  [System] replaces the arbitrary peers by each
    other: a message is received only after it was sent, the flock is
    granted only when it is free, and a dead process does nothing.

    ** What is proved

    - The system: [handoff_no_split_brain] (in every interleaving, with deaths
      and failed writes, incumbent and successor are never both in charge, and
      the data is sealed before the successor has it),
      [fleet_one_in_charge] (the same for any number of processes, and for
      handoffs that overlap or follow each other) and
      [handoff_verdicts_agree] (who is told what, and who is then alive).
      They follow from the three contracts below, not from the code of the
      peers.
    - The contracts: [perform_handoff_follows_contract],
      [serve_follows_contract], [successor_serves_with_flock].  Each says that
      every run of the program is accepted by an automaton that is stated
      without the code, that it terminates, and how the world is left; the
      [..._event_order] theorems spell the automata out as an ordering of events.
      The incumbent's automaton knows what the consumer last did
      ([consumer_after]: runs, paused, a failed drain, a failed resume), so that
      "not left paused" is told apart from "runs".
    - The unit tests: [frame_tests_pass], [lock_and_state_tests_pass],
      [socket_tests_pass], for every codec, directory, process and kernel they may
      meet.
    - Failure: [abort_undoes_handoff] (every branch, the failing [acquire] and
      the failing [resume_after_abort] included), [accept_failures],
      [bind_replacing_keeps_or_frees], [resume_from_journal_clears], and the
      edges that surprise, each for every run: [failed_drain_is_not_resumed],
      [second_seal_request_resumes_without_flock],
      [inherited_listen_pid_hides_listeners], [read_message_desynchronizes].
    - Success: [perform_handoff_commits], [serve_hands_over] and
      [successor_comes_to_serve] say of each program that it succeeds, in exactly
      which events, when its peers say what they should and its system calls
      work.  [handoff_completes] puts them together: with one conversation the
      handoff commits, the incumbent returns, the successor serves, and the three
      traces are one run of [System] that ends with the flock the successor's.
      [working_systems_hand_over]: on machines that work within the deadlines
      there is such a conversation.
    - Time and termination: [perform_handoff_in_time], [short_retry_bounds],
      [wait_child_bounded], [poll_read_total], [trigger_loop_survives].
    - The lock: [lock_mutual_exclusion], [acquire_outcomes], [break_stale_safe].
    - Bytes: [frames_survive_transport], [accumulator_equiv_read_message],
      [encode_bounded], [send_all_exact], [trigger_line_bounded].
    - The tests' own ground: [crash_points_do_not_leak] (each role crashes only
      where the test wants it to), [test_supervisor_exit_status];
      [crash_is_attributed] and [primitive_crash_is_attributed] (a process that
      ends at a crash point ends at the one its test named, and the assertion
      passes for that one only); [flock_probe_truthful], [wait_exit_reaps],
      [test_consumer_tallies].
    - Descriptors: [child_inherits_exactly], [successor_inherits],
      [cold_start_inherits], [pair_ends_apart] (the death of either side is an
      end of file for the other), [detect_role_consumes],
      [detect_role_touches_only_ours], [take_exactly], [bind_socket_atomic].
    - Who may do what: [trigger_runs_only_permitted],
      [client_is_told_the_outcome], [successor_ready_after_begin],
      [negotiate_version_highest], [journal_atomic].

    A theorem with hypotheses is followed by its [_witness], a run of the
    definitions at concrete values.

    ** Loops and their fuel

    A loop the code bounds by its input or by a clock has as fuel a number the
    theorems show to be enough; running out is [Stuck], or [None], and the
    contracts exclude it.  [fill] and [poll_loop] start from [S (reader_size r)],
    as each round takes an event off the stream; session loops start from
    [S (ch_size ...)], since each frame makes the stream smaller ([ChannelLaws]);
    the flock retry from [retry_fuel], one round per interval of the time-out;
    the supervisor's waits from the size of the streams.  [serve]'s accept loop
    and the trigger loop are endless in the code: they run over the list of
    connections that arrive, and end in [Accepting] when it is used up.
    Times are milliseconds in [Z], and the clock never goes back.  The clock of
    the supervisor moves with every call of it that may block: each poll, each
    frame it writes, the connect, the spawn, the wait for a killed child and
    each journal operation take what the environment's [delay] says.
    [perform_handoff_in_time] counts them: besides the two deadlines a handoff makes
    at most twenty-eight.  Lengths,
    versions, modes and descriptors are [Z] or [nat] with their bounds stated;
    the length and the version of a frame are little-endian, as in the code.

    ** Parameters

    The [postcard] codec is the class [PayloadCodec] (and [JournalCodec]) with
    the law that decoding inverts encoding; the service is the class [Drainable],
    whose one law is that its crash points have names; uuids, pids and the file system's and the kernel's answers are fields of
    the environments.  A kernel object the code shares between processes (a
    flock, an open file description, a name) is modelled as state.

    ** Not modelled

    - metrics.rs, util.rs and lib.rs: metric names, the wall clock, re-exports.
    - Parsing of the configuration file and of the command line in
      handoff-supervisor (serde and clap do it); log lines and metrics, which do not
      influence control flow.
    - Bytes inside the payload of a frame (postcard), and the contents of the
      listening sockets: what clients of the service send is the
      service's.
    - The temporary directory of a test and the files its children's output goes
      to: the operating system makes them.
    - Panics: [Instant + Duration] in [perform_handoff] and [read_until]
      overflows for a deadline like [Duration::MAX]; the clock in [Z] does not.
    - A crash marker that cannot be written: [maybe_crash] ignores the error in
      the code, and the theorems about crashes are for a directory of markers in
      which the write succeeds.  Of a consumer's hook that ends at its crash
      point, its other marker ("drain-called", "seal-called") is not in the world
      of [serve].
    - The run of the first primitive: [SupervisorBin.main] makes its command
      ([cold_start_command]) and the system answers with a pid or an error;
      [trigger_runs_only_permitted] is about the handoffs.
    - Of the tests, the integration tests under handoff/tests and
      handoff-tests/tests: they spawn processes, whose models they would run;
      [HandoffId::new] (a random uuid) and the test of its uniqueness; and the
      Rust [unwrap]s around files and sockets the operating system makes.

    ** What is left

    The runs of [System] have no heartbeats from a successor that initialises:
    [start_heartbeats] is in [Role] but the test primitive does not call it.
    [handoff_completes] is for runs in which nothing fails; which failures a
    handoff survives (a late [Drained], a journal that cannot be written) is in the
    theorems about each program, not in one about the system. *)
From Stdlib Require Import Strings.Ascii Strings.Byte.
From stdpp Require Import base tactics option list numbers strings gmap.
From Stdlib Require DecimalString DecimalN DecimalFacts.
Local Open Scope Z_scope.

Declare Scope handoff_scope.
Delimit Scope handoff_scope with handoff.

(** ** Results, and programs over a world

    [result E A] is Rust's [Result<A, E>].  A stateful operation of the
    library is a [prog W E A]: it takes the world [W] (the operation's own
    fields, the kernel objects it touches, the answers the environment will
    give, and the trace of what was done) and returns a result and the new
    world.  [Exit] is [libc::_exit]: no destructor and no [Err] handler runs
    after it.  [Stuck] is the model's own: a loop whose fuel ran out; the
    termination theorems exclude it. *)
Inductive result (E A : Type) : Type :=
| Ok (a : A)
| Err (e : E).
Arguments Ok {E A} a.
Arguments Err {E A} e.

#[export] Instance result_ret E : MRet (result E) := λ A a, Ok a.
#[export] Instance result_bind E : MBind (result E) := λ A B f m,
  match m with Ok a => f a | Err e => Err e end.
#[export] Instance result_fmap E : FMap (result E) := λ A B f m,
  match m with Ok a => Ok (f a) | Err e => Err e end.

Definition result_map_err {E F A} (f : E → F) (m : result E A) : result F A :=
  match m with Ok a => Ok a | Err e => Err (f e) end.

Definition is_ok {E A} (m : result E A) : bool :=
  match m with Ok _ => true | Err _ => false end.

Inductive exn (E : Type) : Type :=
| Raise (e : E)
| Exit (code : Z)
| Stuck.
Arguments Raise {E} e.
Arguments Exit {E} code.
Arguments Stuck {E}.

Definition prog (W E A : Type) : Type := W → result (exn E) A * W.

#[export] Instance prog_ret W E : MRet (prog W E) := λ A a w, (Ok a, w).
#[export] Instance prog_bind W E : MBind (prog W E) := λ A B f m w,
  match m w with
  | (Ok a, w') => f a w'
  | (Err e, w') => (Err e, w')
  end.

Definition raise {W E A} (e : E) : prog W E A := λ w, (Err (Raise e), w).
Definition exit_process {W E A} (code : Z) : prog W E A := λ w, (Err (Exit code), w).
Definition stuck {W E A} : prog W E A := λ w, (Err Stuck, w).
Definition gets {W E A} (f : W → A) : prog W E A := λ w, (Ok (f w), w).
Definition modify {W E} (f : W → W) : prog W E unit := λ w, (Ok tt, f w).

(** [lift r] is Rust's [r?]. *)
Definition lift {W E A} (r : result E A) : prog W E A := λ w,
  match r with Ok a => (Ok a, w) | Err e => (Err (Raise e), w) end.

(** [attempt m] is [match m { Ok(..) => .., Err(..) => .. }]: an [Err] becomes
    a value; a process exit is not caught. *)
Definition attempt {W E A} (m : prog W E A) : prog W E (result E A) := λ w,
  match m w with
  | (Ok a, w') => (Ok (Ok a), w')
  | (Err (Raise e), w') => (Ok (Err e), w')
  | (Err (Exit c), w') => (Err (Exit c), w')
  | (Err Stuck, w') => (Err Stuck, w')
  end.

(** Weakest preconditions: [wp m Q w] says that running [m] from [w] ends in a
    result and a world that satisfy [Q]. *)
Definition wp {W E A} (m : prog W E A) (Q : result (exn E) A → W → Prop) (w : W) : Prop :=
  Q (m w).1 (m w).2.

(** ** Bytes and little-endian integers *)
Abbreviation byte := Byte.byte.

#[export] Instance byte_eq_dec : EqDecision byte := Byte.byte_eq_dec.

Definition byte_of_Z (z : Z) : byte := default Byte.x00 (Byte.of_N (Z.to_N (z `mod` 256))).
Definition byte_to_Z (b : byte) : Z := Z.of_N (Byte.to_N b).

Fixpoint le_bytes (n : nat) (z : Z) : list byte :=
  match n with
  | O => []
  | S n => byte_of_Z z :: le_bytes n (z `div` 256)
  end.

Fixpoint le_Z (bs : list byte) : Z :=
  match bs with
  | [] => 0
  | b :: bs => byte_to_Z b + 256 * le_Z bs
  end.

(** ** Decimal numbers, as [ToString] prints and [FromStr] reads them *)
Definition print_dec (n : N) : string :=
  DecimalString.NilEmpty.string_of_uint (N.to_uint n).

Definition strip_plus (s : string) : string :=
  match s with String "+"%char s' => s' | _ => s end.

Definition parse_digits (s : string) : option N :=
  match s with
  | EmptyString => None
  | _ => N.of_uint <$> DecimalString.NilEmpty.uint_of_string s
  end.

(** [str::parse] for an unsigned type whose largest value is [max]. *)
Definition parse_unsigned (max : N) (s : string) : option N :=
  n ← parse_digits (strip_plus s);
  if decide (n ≤ max)%N then Some n else None.

(** [str::parse::<i32>]. *)
Definition i32_max : Z := 2147483647.
Definition i32_min : Z := -2147483648.
Definition parse_i32 (s : string) : option Z :=
  z ← match s with
      | String "-"%char s' => (λ n, - Z.of_N n) <$> parse_digits s'
      | _ => Z.of_N <$> parse_digits (strip_plus s)
      end;
  if decide (i32_min ≤ z ≤ i32_max) then Some z else None.

Definition u16_max : Z := 65535.
Definition u32_max : Z := 4294967295.
Definition u64_max : Z := 18446744073709551615.

(** [str::trim], on the ASCII white space of [char::is_whitespace]. *)
Definition is_space (c : Ascii.ascii) : bool :=
  let n := Ascii.N_of_ascii c in
  ((9 <=? n)%N && (n <=? 13)%N) || (n =? 32)%N.

Fixpoint trim_start (s : string) : string :=
  match s with
  | EmptyString => EmptyString
  | String c s' => if is_space c then trim_start s' else s
  end.

Fixpoint trim_end (s : string) : string :=
  match s with
  | EmptyString => EmptyString
  | String c s' =>
      match trim_end s' with
      | EmptyString => if is_space c then EmptyString else String c EmptyString
      | t => String c t
      end
  end.

Definition trim (s : string) : string := trim_end (trim_start s).

(** *** Paths: the characters, and [Path::join]. *)
Definition slash : Ascii.ascii := "/"%char.
Definition chars (s : string) : list Ascii.ascii := String.list_ascii_of_string s.
Definition of_chars (l : list Ascii.ascii) : string := String.string_of_list_ascii l.

(** [Path::join] of a relative file name. *)
Definition path_join (dir file : string) : string :=
  match rev (chars dir) with
  | [] => file
  | a :: _ => if decide (a = slash) then (dir +:+ file)%string
              else (dir +:+ String slash file)%string
  end.

(** [str::split(c)] and [[String]::join(c)]. *)
Fixpoint split_on (c : Ascii.ascii) (s : string) : list string :=
  match s with
  | EmptyString => [EmptyString]
  | String a s' =>
      if decide (a = c) then EmptyString :: split_on c s'
      else match split_on c s' with
           | t :: ts => String a t :: ts
           | [] => [String a EmptyString]
           end
  end.

Fixpoint join_with (c : Ascii.ascii) (l : list string) : string :=
  match l with
  | [] => EmptyString
  | [s] => s
  | s :: l' => (s +:+ String c (join_with c l'))%string
  end.

Fixpoint occurs (c : Ascii.ascii) (s : string) : bool :=
  match s with
  | EmptyString => false
  | String a s' => bool_decide (a = c) || occurs c s'
  end.

(** ** Lemmas *)

(** *** Hint databases and tactics of the development *)
Create HintDb handoff discriminated.
#[export] Hint Constants Transparent : handoff.
Create Rewrite HintDb handoff_wp.
Create Rewrite HintDb handoff_len.

(** Case on every [match] whose scrutinee is visible, keeping the equation. *)
Ltac split_matches :=
  repeat (case_match; simplify_eq/=; try done).

(** *** Weakest preconditions *)
Section wp_rules.
Context {W E A B : Type}.
Implicit Types w : W.

Lemma wp_bind (m : prog W E A) (f : A → prog W E B) Q w :
  wp (m ≫= f) Q w ↔
  wp m (λ r w', match r with Ok a => wp (f a) Q w' | Err e => Q (Err e) w' end) w.
Proof. unfold wp, mbind, prog_bind. by destruct (m w) as [[a|e] w']. Qed.

Lemma wp_ret (a : A) (Q : result (exn E) A → W → Prop) w : wp (mret a) Q w ↔ Q (Ok a) w.
Proof. done. Qed.

Lemma wp_raise (e : E) (Q : result (exn E) A → W → Prop) w :
  wp (raise e) Q w ↔ Q (Err (Raise e)) w.
Proof. done. Qed.

Lemma wp_exit c (Q : result (exn E) A → W → Prop) w :
  wp (exit_process c) Q w ↔ Q (Err (Exit c)) w.
Proof. done. Qed.

Lemma wp_stuck (Q : result (exn E) A → W → Prop) w : wp stuck Q w ↔ Q (Err Stuck) w.
Proof. done. Qed.

Lemma wp_gets (f : W → A) (Q : result (exn E) A → W → Prop) w :
  wp (gets f) Q w ↔ Q (Ok (f w)) w.
Proof. done. Qed.

Lemma wp_modify (f : W → W) (Q : result (exn E) unit → W → Prop) w :
  wp (modify f) Q w ↔ Q (Ok tt) (f w).
Proof. done. Qed.

Lemma wp_lift (r : result E A) (Q : result (exn E) A → W → Prop) w :
  wp (lift r) Q w ↔ match r with Ok a => Q (Ok a) w | Err e => Q (Err (Raise e)) w end.
Proof. by destruct r. Qed.

Lemma wp_attempt (m : prog W E A) Q w :
  wp (attempt m) Q w ↔
  wp m (λ r w', match r with
                | Ok a => Q (Ok (Ok a)) w'
                | Err (Raise e) => Q (Ok (Err e)) w'
                | Err (Exit c) => Q (Err (Exit c)) w'
                | Err Stuck => Q (Err Stuck) w'
                end) w.
Proof. unfold wp, attempt. by destruct (m w) as [[a|[e|c|]] w']. Qed.

Lemma wp_mono (m : prog W E A) (Q Q' : result (exn E) A → W → Prop) w :
  wp m Q w → (∀ r w', Q r w' → Q' r w') → wp m Q' w.
Proof. unfold wp. eauto. Qed.

Lemma wp_and (m : prog W E A) (Q Q' : result (exn E) A → W → Prop) w :
  wp m Q w → wp m Q' w → wp m (λ r w', Q r w' ∧ Q' r w') w.
Proof. unfold wp. eauto. Qed.

Lemma wp_run (m : prog W E A) (Q : result (exn E) A → W → Prop) w r w' :
  wp m Q w → m w = (r, w') → Q r w'.
Proof. unfold wp. intros ? Hm. by rewrite Hm in *. Qed.
End wp_rules.

(** [ends X Q F]: the program ends normally in [Q], with an error in [F], or
    exits the process in [X]; it does not run out of fuel.  The rules below are
    how the state machines are verified: a specification of each command, and
    one bind per command. *)
Definition ends {W E A} (X : Z → W → Prop) (Q : A → W → Prop) (F : E → W → Prop)
    (r : result (exn E) A) (w : W) : Prop :=
  match r with
  | Ok a => Q a w
  | Err (Raise e) => F e w
  | Err (Exit code) => X code w
  | Err Stuck => False
  end.

Section ends_rules.
Context {W E A B : Type} (X : Z → W → Prop).

Lemma wp_ends_bind (m : prog W E A) (f : A → prog W E B) Q1 Q2 F w :
  wp m (ends X Q1 F) w → (∀ a w', Q1 a w' → wp (f a) (ends X Q2 F) w') →
  wp (m ≫= f) (ends X Q2 F) w.
Proof.
  intros Hm Hf. rewrite wp_bind. eapply wp_mono; [exact Hm|]. intros [a|[e|x|]] w'; simpl; eauto.
Qed.

Lemma wp_ends_mono (m : prog W E A) Q Q' (F F' : E → W → Prop) w :
  wp m (ends X Q F) w → (∀ a w', Q a w' → Q' a w') → (∀ e w', F e w' → F' e w') →
  wp m (ends X Q' F') w.
Proof. intros Hm HQ HF. eapply wp_mono; [exact Hm|]. intros [a|[e|x|]] w'; simpl; eauto. Qed.

Lemma wp_ends_attempt (m : prog W E A) Q F F' w :
  wp m (ends X Q F) w →
  wp (attempt m) (ends X (λ r w', match r with Ok a => Q a w' | Err e => F e w' end) F') w.
Proof.
  intros Hm. rewrite wp_attempt. eapply wp_mono; [exact Hm|]. by intros [a|[e|x|]] w'; simpl.
Qed.
End ends_rules.

#[export] Hint Rewrite @wp_bind @wp_ret @wp_raise @wp_exit @wp_stuck @wp_gets @wp_modify
  @wp_lift @wp_attempt : handoff_wp.

(** Symbolic execution of the primitive commands. *)
Ltac wp_simpl := repeat (progress (autorewrite with handoff_wp; simpl)).

(** *** Bytes *)
Lemma byte_to_Z_bound b : 0 ≤ byte_to_Z b < 256.
Proof. unfold byte_to_Z. pose proof (Byte.to_N_bounded b). lia. Qed.

Lemma byte_to_of_Z z : byte_to_Z (byte_of_Z z) = z `mod` 256.
Proof.
  unfold byte_to_Z, byte_of_Z.
  pose proof (Z.mod_pos_bound z 256 ltac:(lia)).
  destruct (Byte.of_N _) as [b|] eqn:Hb; simpl.
  - apply Byte.to_of_N in Hb. rewrite Hb. lia.
  - apply Byte.of_N_None_iff in Hb. lia.
Qed.

Lemma byte_of_to_Z b : byte_of_Z (byte_to_Z b) = b.
Proof.
  unfold byte_of_Z. pose proof (byte_to_Z_bound b).
  rewrite Z.mod_small by done. unfold byte_to_Z. rewrite N2Z.id.
  by rewrite Byte.of_to_N.
Qed.

Lemma length_le_bytes n z : length (le_bytes n z) = n.
Proof. revert z; induction n as [|n IH]; intros z; simpl; auto. Qed.

Lemma le_Z_bound bs : 0 ≤ le_Z bs < 256 ^ Z.of_nat (length bs).
Proof.
  induction bs as [|b bs IH]; [done|].
  cbn [le_Z length]. rewrite Nat2Z.inj_succ, Z.pow_succ_r by lia.
  pose proof (byte_to_Z_bound b). lia.
Qed.

(** [from_le_bytes (to_le_bytes z)] is [z] at the width of the type. *)
Lemma le_Z_bytes n z : le_Z (le_bytes n z) = z `mod` 256 ^ Z.of_nat n.
Proof.
  revert z. induction n as [|n IH]; intros z.
  - simpl. by rewrite Z.mod_1_r.
  - cbn [le_Z le_bytes]. rewrite IH, byte_to_of_Z, Nat2Z.inj_succ, Z.pow_succ_r by lia.
    rewrite Z.rem_mul_r; [lia|lia|].
    apply Z.pow_pos_nonneg; lia.
Qed.

Lemma le_bytes_Z bs : le_bytes (length bs) (le_Z bs) = bs.
Proof.
  induction bs as [|b bs IH]; [done|]. cbn [length le_bytes le_Z].
  pose proof (byte_to_Z_bound b).
  assert (byte_of_Z (byte_to_Z b + 256 * le_Z bs) = b) as ->.
  { rewrite <- (byte_of_to_Z b) at 2. unfold byte_of_Z.
    by rewrite Z.mul_comm, Z.mod_add. }
  assert ((byte_to_Z b + 256 * le_Z bs) `div` 256 = le_Z bs) as ->.
  { rewrite Z.mul_comm, Z.div_add, Z.div_small by lia. lia. }
  by rewrite IH.
Qed.

Lemma le_Z_bytes_id n z : 0 ≤ z < 256 ^ Z.of_nat n → le_Z (le_bytes n z) = z.
Proof. intros. rewrite le_Z_bytes. by apply Z.mod_small. Qed.

(** *** Decimal numbers *)
Lemma parse_print_digits n :
  parse_digits (print_dec n) = Some n.
Proof.
  unfold parse_digits, print_dec.
  pose proof (DecimalN.Unsigned.of_to n) as Hof.
  pose proof (DecimalString.NilEmpty.usu (N.to_uint n)) as Hu.
  destruct (DecimalString.NilEmpty.string_of_uint (N.to_uint n)) eqn:Hs.
  - destruct n as [|p]; [done|].
    exfalso. simpl in Hs.
    pose proof (DecimalPos.Unsigned.to_uint_nonnil p) as Hn.
    by destruct (Pos.to_uint p).
  - rewrite Hu. simpl. by rewrite Hof.
Qed.

(** The first character of a printed number is a digit: not a sign. *)
Lemma print_dec_head n c s :
  print_dec n = String c s → c ≠ "+"%char ∧ c ≠ "-"%char ∧ is_space c = false.
Proof.
  unfold print_dec. destruct (N.to_uint n); simpl; intros; simplify_eq; done.
Qed.

Lemma strip_plus_print_dec n : strip_plus (print_dec n) = print_dec n.
Proof.
  destruct (print_dec n) as [|c s] eqn:H; [done|].
  apply print_dec_head in H as (H & _).
  unfold strip_plus. repeat case_match; simplify_eq/=; done.
Qed.

Lemma parse_print_unsigned max n :
  (n ≤ max)%N → parse_unsigned max (print_dec n) = Some n.
Proof.
  intros. unfold parse_unsigned. rewrite strip_plus_print_dec, parse_print_digits. simpl.
  by rewrite decide_True.
Qed.

Lemma parse_print_i32 n :
  Z.of_N n ≤ i32_max → parse_i32 (print_dec n) = Some (Z.of_N n).
Proof.
  intros Hn. unfold parse_i32.
  pose proof (strip_plus_print_dec n) as Hp. pose proof (parse_print_digits n) as Hd.
  assert (match print_dec n with
      | String "-"%char s' => (λ n, - Z.of_N n) <$> parse_digits s'
      | _ => Z.of_N <$> parse_digits (strip_plus (print_dec n))
      end = Some (Z.of_N n)) as ->.
  { destruct (print_dec n) as [|c s] eqn:H.
    - by rewrite Hp, Hd.
    - apply print_dec_head in H as (_ & H & _). rewrite Hp, Hd.
      repeat case_match; simplify_eq/=; done. }
  simpl. rewrite decide_True; [done|]. unfold i32_min. lia.
Qed.

Lemma parse_i32_bound s z : parse_i32 s = Some z → i32_min ≤ z ≤ i32_max.
Proof.
  unfold parse_i32. intros H. apply bind_Some in H as (z' & _ & H).
  case_decide; by simplify_eq.
Qed.

(** *** Strings *)
Definition newline : ascii := "010"%char.
Definition colon : ascii := ":"%char.

Fixpoint no_space (s : string) : bool :=
  match s with
  | EmptyString => true
  | String c s' => negb (is_space c) && no_space s'
  end.

Lemma string_of_uint_no_space d : no_space (DecimalString.NilEmpty.string_of_uint d) = true.
Proof. by induction d. Qed.

Lemma print_dec_no_space n : no_space (print_dec n) = true.
Proof. apply string_of_uint_no_space. Qed.

Lemma print_dec_nonempty n : print_dec n ≠ EmptyString.
Proof.
  intros H. pose proof (parse_print_digits n) as Hp. by rewrite H in Hp.
Qed.

Lemma trim_end_newline s :
  no_space s = true → trim_end (s +:+ String newline EmptyString)%string = s.
Proof.
  induction s as [|c s IH]; [done|]. simpl. intros [Hc Hs]%andb_prop.
  rewrite IH by done. destruct s; [|done]. by destruct (is_space c).
Qed.

Lemma trim_newline s :
  no_space s = true → s ≠ EmptyString → trim (s +:+ String newline EmptyString)%string = s.
Proof.
  intros Hs Hne. unfold trim. destruct s as [|c s]; [done|].
  simpl in Hs. apply andb_prop in Hs as [Hc Hs]. simpl.
  destruct (is_space c) eqn:Hsp; [done|].
  change (String c (s +:+ String newline EmptyString)%string)
    with (String c s +:+ String newline EmptyString)%string.
  apply trim_end_newline. simpl. by rewrite Hsp.
Qed.

Lemma split_on_absent c s : occurs c s = false → split_on c s = [s].
Proof.
  induction s as [|a s IH]; [done|]. simpl. intros [Ha Hs]%orb_false_iff.
  apply bool_decide_eq_false in Ha. rewrite decide_False by done. by rewrite IH.
Qed.

Lemma split_on_app c s t :
  occurs c s = false → split_on c (s +:+ String c t)%string = s :: split_on c t.
Proof.
  induction s as [|a s IH]; simpl.
  - intros _. by rewrite decide_True.
  - intros [Ha Hs]%orb_false_iff. apply bool_decide_eq_false in Ha.
    rewrite decide_False by done. by rewrite IH.
Qed.

Lemma split_join c l :
  l ≠ [] → Forall (λ s, occurs c s = false) l → split_on c (join_with c l) = l.
Proof.
  intros Hne Hl. induction Hl as [|s l Hs Hl IH]; [done|].
  destruct l as [|s' l].
  - by apply split_on_absent.
  - change (join_with c (s :: s' :: l)) with (s +:+ String c (join_with c (s' :: l)))%string.
    rewrite split_on_app by done. by rewrite IH.
Qed.

#[export] Hint Resolve byte_to_Z_bound le_Z_bound print_dec_no_space print_dec_nonempty : handoff.
#[export] Hint Rewrite length_le_bytes @length_app @length_take @length_drop : handoff_len.
