(* ===== verification/Contract.v ===== *)
(** * Contracts as automata over a trace

    The incumbent and the supervisor are specified the same way: an automaton
    that reads the trace of events and refuses a breach, and programs whose
    every end leaves a trace the automaton accepts.  This file has what the two
    proofs share. *)
From stdpp Require Import base tactics option list numbers strings sets.
From S2P Require Import Prelude.
Local Open Scope Z_scope.

(** ** Automata *)
Section automaton.
Context {C E : Type} {step : C → E → option C}.
Implicit Types (c : C) (es : list E).

Fixpoint runs c es : option C :=
  match es with
  | [] => Some c
  | e :: es => c' ← step c e; runs c' es
  end.

Lemma runs_app c es es' : runs c (es ++ es') = (c' ← runs c es; runs c' es').
Proof.
  revert c. induction es as [|e es IH]; intros c; simpl; [done|].
  destruct (step c e); simpl; auto.
Qed.

Lemma runs_emit c es e c' : runs c es = Some c' → runs c (es ++ [e]) = step c' e.
Proof. intros Hes. rewrite runs_app, Hes. simpl. by destruct (step c' e). Qed.

Lemma runs_split c es1 e es2 c' :
  runs c (es1 ++ e :: es2) = Some c' →
  ∃ c1 c2, runs c es1 = Some c1 ∧ step c1 e = Some c2 ∧ runs c2 es2 = Some c'.
Proof.
  rewrite runs_app. destruct (runs c es1) as [c1|]; [|done]. simpl.
  destruct (step c1 e) as [c2|] eqn:He; [|done]. simpl. eauto 6.
Qed.

(** What a flag of the state says about the trace: it was raised by a marked
    event ([raised]), and it stays up ([stays]). *)
Context (Q : C → bool) (S : E → bool).

Lemma raised start es c :
  (∀ c e c', step c e = Some c' → Q c' = true → Q c = true ∨ S e = true) →
  Q start = false → runs start es = Some c → Q c = true → ∃ e, e ∈ es ∧ S e = true.
Proof.
  intros Hstep H0. revert c. induction es as [|e es IH] using rev_ind; intros c Hes Hc.
  { simpl in Hes. simplify_eq. congruence. }
  apply runs_split in Hes as (c1 & c2 & H1 & H2 & Heq). simpl in Heq. simplify_eq.
  destruct (Hstep _ _ _ H2 Hc) as [Hc1|Hs]; [|exists e; set_solver].
  destruct (IH _ H1 Hc1) as (e' & He & Hs). exists e'. set_solver.
Qed.

Lemma stays start es c :
  (∀ c e c', step c e = Some c' → Q c = true ∨ S e = true → Q c' = true) →
  runs start es = Some c → (Q start = true ∨ ∃ e, e ∈ es ∧ S e = true) → Q c = true.
Proof.
  intros Hstep. revert start. induction es as [|e es IH]; intros c1 Hes Hc; simpl in Hes.
  { simplify_eq. destruct Hc as [|(e & He & _)]; [done|]. by apply not_elem_of_nil in He. }
  destruct (step c1 e) as [c2|] eqn:H2; [|done]. simpl in Hes. apply (IH c2 Hes).
  destruct Hc as [Hc|(e' & [->|He]%elem_of_cons & Hs)]; [left|left|right]; eauto.
Qed.
End automaton.
Arguments runs {C E} step c es.

(** A flag that is up exactly when the marked event has happened. *)
Lemma flag_iff {C E} `{EqDecision E} (step : C → E → option C) (Q : C → bool) e0 start es c :
  (∀ c e c', step c e = Some c' → Q c' = true ↔ Q c = true ∨ e = e0) →
  Q start = false → runs step start es = Some c → e0 ∈ es ↔ Q c = true.
Proof.
  intros Hstep H0 Hes. split; intros Hq.
  - eapply (stays (step := step) Q (λ e, bool_decide (e = e0))); [|exact Hes|right; exists e0].
    + intros c1 e c2 H1. rewrite (Hstep _ _ _ H1), bool_decide_eq_true. done.
    + by rewrite bool_decide_eq_true.
  - destruct (raised (step := step) Q (λ e, bool_decide (e = e0)) start es c) as (e & He & Hs); [|done|done|done|].
    + intros c1 e c2 H1. rewrite (Hstep _ _ _ H1), bool_decide_eq_true. done.
    + apply bool_decide_eq_true in Hs. by subst.
Qed.

(** ** Programs

    [post X Q F]: the program ends in [Q], fails in [F] whatever the error is,
    or exits the process in [X]; it does not run out of fuel. *)
Definition post {W E A} (X : Z → W → Prop) (Q : A → W → Prop) (F : W → Prop)
    : result (exn E) A → W → Prop := ends X Q (λ _, F).

Section post.
Context {W E : Type} {X : Z → W → Prop}.
Implicit Types w : W.

Lemma wp_post_bind {A B} (m : prog W E A) (f : A → prog W E B) Q1 Q2 F w :
  wp m (post X Q1 F) w → (∀ a w', Q1 a w' → wp (f a) (post X Q2 F) w') →
  wp (m ≫= f) (post X Q2 F) w.
Proof. apply wp_ends_bind. Qed.

Lemma wp_post_mono {A} (m : prog W E A) (Q Q' : A → W → Prop) (F F' : W → Prop) w :
  wp m (post X Q F) w → (∀ a w', Q a w' → Q' a w') → (∀ w', F w' → F' w') →
  wp m (post X Q' F') w.
Proof. intros Hm HQ HE. eapply wp_ends_mono; [exact Hm|exact HQ|]. by intros e w1; apply HE. Qed.

Lemma wp_post_attempt {A} (m : prog W E A) (Q : A → W → Prop) (F F' : W → Prop) w :
  wp m (post X Q F) w →
  wp (attempt m) (post X (λ r w', match r with Ok a => Q a w' | Err _ => F w' end) F') w.
Proof. apply wp_ends_attempt. Qed.

Lemma wp_post_modify (f : W → W) (Q : unit → W → Prop) F w :
  Q tt (f w) → wp (E := E) (modify f) (post X Q F) w.
Proof. done. Qed.
Lemma wp_post_gets {A} (f : W → A) (Q : A → W → Prop) F w :
  Q (f w) w → wp (E := E) (gets f) (post X Q F) w.
Proof. done. Qed.
Lemma wp_post_ret {A} (a : A) (Q : A → W → Prop) F w :
  Q a w → wp (E := E) (mret a) (post X Q F) w.
Proof. done. Qed.
Lemma wp_post_raise {A} (e : E) (Q : A → W → Prop) (F : W → Prop) w :
  F w → wp (raise e) (post X Q F) w.
Proof. done. Qed.
End post.
