(* ===== verification/Errors.v ===== *)
(** * Errors: [crates/handoff/src/error.rs]

    The error type of the library, and the part of [std::io] and of [errno]
    its other components look at. *)
From S2P Require Import Prelude.
From stdpp Require Import base tactics option list numbers strings.
Local Open Scope Z_scope.

(** [std::io::ErrorKind], the kinds the library matches on. *)
Inductive ErrorKind : Type :=
| Interrupted
| WouldBlock
| TimedOut
| UnexpectedEof
| ConnectionReset
| BrokenPipe
| WriteZero
| NotFound
| PermissionDenied
| OtherKind.

#[export] Instance ErrorKind_eq_dec : EqDecision ErrorKind.
Proof. solve_decision. Defined.

(** The [errno] values the library names. *)
Inductive Errno : Type :=
| EINTR | ECONNABORTED | EPROTO | EPERM | EMFILE | ENFILE | ENOBUFS | ENOMEM
| EAGAIN | EBADF | EINVAL | ENOTSOCK | EFAULT | ESRCH | ENOPROTOOPT
| EOPNOTSUPP | EPIPE | EOTHER.

#[export] Instance Errno_eq_dec : EqDecision Errno.
Proof. solve_decision. Defined.

(** An [std::io::Error]: the raw code when the system reported it, and the
    kind [std] derives from it. *)
Record IoError : Type := mkIoError {
  raw_os_error : option Errno;
  kind : ErrorKind
}.

#[export] Instance IoError_eq_dec : EqDecision IoError.
Proof. solve_decision. Defined.

(** [std]'s decoding of an [errno] into a kind ([EWOULDBLOCK] is [EAGAIN]). *)
Definition decode_error_kind (e : Errno) : ErrorKind :=
  match e with
  | EINTR => Interrupted
  | EAGAIN => WouldBlock
  | EPERM => PermissionDenied
  | EPIPE => BrokenPipe
  | _ => OtherKind
  end.

Definition io_from_errno (e : Errno) : IoError :=
  {| raw_os_error := Some e; kind := decode_error_kind e |}.
Definition io_from_kind (k : ErrorKind) : IoError :=
  {| raw_os_error := None; kind := k |}.

(** The errors of the library.  [Codec] carries no payload: the codec is not
    part of this repository, and no caller looks inside. *)
Inductive Error : Type :=
| Io (e : IoError)
| Codec
| Nix (e : Errno)
| Protocol (what : string)
| FrameTooLarge (n : Z)
| FrameMalformed (n : Z)
| PidMismatch (expected announced : Z)
| VersionMismatch (our_min our_max their_min their_max : Z)
| UnexpectedMessage (what : string)
| Timeout (awaiting : string)
| LockHeld (holder_pid : Z)
| StaleLockBreakRefused (holder_pid : Z)
| SocketPathTooLong (path : string) (len max : Z)
| PeerNotPermitted (peer_uid : Z)
| HandoffInProgress
| Aborted (reason : string)
| MissingEnv (var : string)
| BadEnv (var value : string)
| Channel.

#[export] Instance Error_eq_dec : EqDecision Error.
Proof. solve_decision. Defined.

Abbreviation Result := (result Error).

(** Channel conversions. *)
Inductive RecvTimeoutError : Type := RecvTimeout | RecvDisconnected.

Definition from_send_error : Error := Channel.
Definition from_recv_error : Error := Channel.
Definition from_recv_timeout_error (e : RecvTimeoutError) : Error :=
  match e with
  | RecvTimeout => Timeout "channel recv"
  | RecvDisconnected => Channel
  end.

(** [Display for Error], from the [#[error(..)]] attributes; what [std] and the
    two dependencies print for their own errors is a parameter. *)
Section display.
Context (io_display : IoError → string) (codec_display : string) (nix_display : Errno → string).
Local Open Scope string_scope.

Definition show_Z (z : Z) : string :=
  if decide (0 ≤ z)%Z then print_dec (Z.to_N z) else "-" +:+ print_dec (Z.to_N (- z)).

Definition display (e : Error) : string :=
  match e with
  | Io e => "io: " +:+ io_display e
  | Codec => "codec: " +:+ codec_display
  | Nix e => "nix: " +:+ nix_display e
  | Protocol s => "protocol violation: " +:+ s
  | FrameTooLarge n => "frame too large: " +:+ show_Z n +:+ " bytes exceeds cap"
  | FrameMalformed n =>
      "frame malformed: declared length " +:+ show_Z n +:+ " is below the protocol minimum"
  | PidMismatch expected announced =>
      "peer announced pid " +:+ show_Z announced +:+ " does not match expected pid "
        +:+ show_Z expected
  | VersionMismatch our_min our_max their_min their_max =>
      "protocol version mismatch: our range " +:+ show_Z our_min +:+ "..=" +:+ show_Z our_max
        +:+ ", peer range " +:+ show_Z their_min +:+ "..=" +:+ show_Z their_max
  | UnexpectedMessage s => "unexpected message for current state: " +:+ s
  | Timeout s => "timed out waiting for " +:+ s
  | LockHeld pid => "data-dir lock held by pid " +:+ show_Z pid
  | StaleLockBreakRefused pid => "refused to break lock held by live process " +:+ show_Z pid
  | SocketPathTooLong path len max =>
      "unix socket path " +:+ path +:+ " is " +:+ show_Z len +:+ " bytes, which exceeds the "
        +:+ show_Z max +:+ "-byte sun_path limit on this platform"
  | PeerNotPermitted uid => "control socket peer uid " +:+ show_Z uid +:+ " is not permitted"
  | HandoffInProgress => "handoff already in progress"
  | Aborted s => "handoff aborted by peer: " +:+ s
  | MissingEnv v => "required env var " +:+ v +:+ " not set"
  | BadEnv var value => "env var " +:+ var +:+ " has bad value: " +:+ value
  | Channel => "internal channel disconnected"
  end.
End display.
