(* ===== verification/Protocol.v ===== *)
(** * The wire protocol: [crates/handoff/src/protocol.rs]

    The message type, its variant names and version negotiation. *)
From S2P Require Import Prelude Errors.
From stdpp Require Import base tactics option list numbers strings.
Local Open Scope Z_scope.

(** ** Data *)

(** [ProtoVersion] is a [u16]. *)
Definition ProtoVersion : Type := Z.
Definition PROTO_MIN : ProtoVersion := 1.
Definition PROTO_MAX : ProtoVersion := 1.

Inductive Side : Type := Incumbent | Successor.
#[export] Instance Side_eq_dec : EqDecision Side.
Proof. solve_decision. Defined.

(** A [Uuid] is 128 opaque bits; nothing here but equality looks at them. *)
Record HandoffId : Type := mkHandoffId { uuid : N }.
#[export] Instance HandoffId_eq_dec : EqDecision HandoffId.
Proof. solve_decision. Defined.

Record Capabilities : Type := mkCapabilities { reserved : Z }.
#[export] Instance Capabilities_eq_dec : EqDecision Capabilities.
Proof. solve_decision. Defined.
Definition Capabilities_default : Capabilities := {| reserved := 0 |}.

Inductive Message : Type :=
| Hello (role : Side) (pid : Z) (build_id : list byte) (proto_min proto_max : ProtoVersion)
    (capabilities : Capabilities)
| HelloAck (proto_version_chosen : ProtoVersion) (handoff_id : HandoffId)
| PrepareHandoff (handoff_id : HandoffId) (successor_pid deadline_ms drain_grace_ms : Z)
| Drained (open_conns_remaining : Z) (accept_closed : bool)
| SealRequest (handoff_id : HandoffId)
| SealProgress (shards_sealed shards_total last_revision : Z)
| SealComplete (handoff_id : HandoffId) (last_revision_per_shard : list Z)
    (data_dir_fingerprint : list byte)
| SealFailed (handoff_id : HandoffId) (error partial_state : string)
| Begin (handoff_id : HandoffId)
| Ready (handoff_id : HandoffId) (listening_on : list string) (healthz_ok : bool)
    (advertised_revision_per_shard : list Z)
| Commit (handoff_id : HandoffId)
| Abort (handoff_id : HandoffId) (reason : string)
| ResumeAfterAbort (handoff_id : HandoffId)
| Heartbeat (ts_ms : Z).

#[export] Instance Message_eq_dec : EqDecision Message.
Proof. solve_decision. Defined.

(** The integer fields hold values of their Rust type. *)
Definition is_u16 (z : Z) : Prop := 0 ≤ z ≤ u16_max.
Definition is_u32 (z : Z) : Prop := 0 ≤ z ≤ u32_max.
Definition is_u64 (z : Z) : Prop := 0 ≤ z ≤ u64_max.

(** ** Operations *)
Definition short_name (msg : Message) : string :=
  match msg with
  | Hello _ _ _ _ _ _ => "Hello"
  | HelloAck _ _ => "HelloAck"
  | PrepareHandoff _ _ _ _ => "PrepareHandoff"
  | Drained _ _ => "Drained"
  | SealRequest _ => "SealRequest"
  | SealProgress _ _ _ => "SealProgress"
  | SealComplete _ _ _ => "SealComplete"
  | SealFailed _ _ _ => "SealFailed"
  | Begin _ => "Begin"
  | Ready _ _ _ _ => "Ready"
  | Commit _ => "Commit"
  | Abort _ _ => "Abort"
  | ResumeAfterAbort _ => "ResumeAfterAbort"
  | Heartbeat _ => "Heartbeat"
  end.

Definition negotiate_version (our_min our_max their_min their_max : ProtoVersion)
    : Result ProtoVersion :=
  let lo := our_min `max` their_min in
  let hi := our_max `min` their_max in
  if decide (lo > hi) then Err (VersionMismatch our_min our_max their_min their_max)
  else Ok hi.

(** ** What negotiation promises

    [speaks lo hi v]: a peer that announced [lo..=hi] can speak [v]. *)
Definition speaks (lo hi v : ProtoVersion) : Prop := lo ≤ v ≤ hi.

Lemma negotiate_ok_iff a b c d v :
  negotiate_version a b c d = Ok v ↔
  speaks a b v ∧ speaks c d v ∧ ∀ v', speaks a b v' → speaks c d v' → v' ≤ v.
Proof.
  unfold negotiate_version, speaks. case_decide as Hlt.
  - split; [done|]. intros (H1 & H2 & _). lia.
  - split.
    + intros [= <-]. repeat split; lia.
    + intros (H1 & H2 & H3). f_equal.
      enough (b `min` d ≤ v) by lia. apply H3; lia.
Qed.

(** [negotiate_version] returns a version exactly when the two announced
    ranges meet, the version it returns is one both peers speak, and it is the
    highest such version; otherwise it returns [VersionMismatch] with the four
    bounds it was given. *)
Theorem negotiate_version_highest a b c d :
  match negotiate_version a b c d with
  | Ok v => speaks a b v ∧ speaks c d v ∧ ∀ v', speaks a b v' → speaks c d v' → v' ≤ v
  | Err e => e = VersionMismatch a b c d ∧ ∀ v, ¬ (speaks a b v ∧ speaks c d v)
  end.
Proof.
  destruct (negotiate_version a b c d) as [v|e] eqn:H.
  - by apply negotiate_ok_iff.
  - unfold negotiate_version in H. case_decide; simplify_eq.
    unfold speaks. split; [done|]. lia.
Qed.

(** The version both ends of this build settle on. *)
Lemma negotiate_this_build v w :
  negotiate_version PROTO_MIN PROTO_MAX v v = Ok w ↔ v = 1 ∧ w = 1.
Proof.
  rewrite negotiate_ok_iff. unfold speaks, PROTO_MIN, PROTO_MAX.
  split; [lia|]. intros [-> ->]. repeat split; intros; lia.
Qed.

(** [short_name] tells variants apart. *)
Definition is_begin (m : Message) : bool := match m with Begin _ => true | _ => false end.
Definition is_ready (m : Message) : bool := match m with Ready _ _ _ _ => true | _ => false end.
Definition is_drained (m : Message) : bool := match m with Drained _ _ => true | _ => false end.
