(* ===== verification/Sock.v ===== *)
(** * Socket mechanics: [crates/handoff/src/sock.rs] *)
From S2P Require Import Prelude Errors.
From stdpp Require Import base tactics option list numbers strings gmap.
Local Open Scope Z_scope.

(** What the successive [send(2)] calls on a socket report.  An empty script is
    the write timeout: [SO_SNDTIMEO] makes the call fail with [EAGAIN]. *)
Inductive send_ret : Type :=
| Sent (n : nat)
| SendFailed (e : Errno).

Definition send_script : Type := list send_ret.

(** [send_all]: the result, the rest of the script, and the bytes the kernel
    accepted.  The argument is [buf[sent..]]. *)
Fixpoint send_all (sock : send_script) (rest : list byte)
    : result IoError unit * send_script * list byte :=
  match rest with
  | [] => (Ok tt, sock, [])
  | _ =>
      match sock with
      | [] => (Err (io_from_errno EAGAIN), [], [])
      | SendFailed e :: sock' =>
          if decide (decode_error_kind e = Interrupted) then send_all sock' rest
          else (Err (io_from_errno e), sock', [])
      | Sent n :: sock' =>
          let n := (n `min` length rest)%nat in
          if decide (n = 0%nat) then (Err (io_from_kind WriteZero), sock', [])
          else
            let '(res, sock'', wire) := send_all sock' (drop n rest) in
            (res, sock'', take n rest ++ wire)
      end
  end.

(** ** Paths *)

(** [sun_path] has [sun_path_size] bytes: 108 on Linux, 104 on macOS and the
    BSDs; one is the terminator. *)
Definition max_socket_path_len (sun_path_size : Z) : Z := sun_path_size - 1.

Definition validate_socket_path (sun_path_size : Z) (path : string) : Result unit :=
  let len := Z.of_nat (String.length path) in
  let max := max_socket_path_len sun_path_size in
  if decide (len > max) then Err (SocketPathTooLong path len max) else Ok tt.

(** ** Peer authentication *)
Definition peer_uid_is_allowed (euid uid : Z) (extra_allowed : list Z) : bool :=
  bool_decide (uid = euid) || bool_decide (uid = 0) || bool_decide (uid ∈ extra_allowed).

(** ** Descriptors

    A process's descriptor table and the open file descriptions behind it:
    [fd_flags] ([FD_CLOEXEC]) belong to a descriptor, [status_flags]
    ([O_NONBLOCK]) to the description that descriptors share. *)
Record description : Type := mkDesc {
  status_flags : Z;
  st_mode : Z;
  sockname_family : option Z;
  acceptconn : result Errno bool;
  stream_type : bool;
  connected : bool
}.

Record fd_entry : Type := mkFd { ofd : nat; fd_flags : Z }.
#[export] Instance fd_entry_eq_dec : EqDecision fd_entry.
Proof. solve_decision. Defined.

Record kernel : Type := mkKernel {
  fdtab : gmap Z fd_entry;
  descs : gmap nat description;
  nofile : Z
}.

Definition FD_CLOEXEC : Z := 1.
Definition O_NONBLOCK : Z := 2048.
Definition S_IFMT : Z := 61440.
Definition S_IFSOCK : Z := 49152.
Definition AF_UNIX : Z := 1.
Definition AF_INET : Z := 2.
Definition AF_INET6 : Z := 10.

Abbreviation sys := (prog kernel IoError).

Definition set_fdtab (t : gmap Z fd_entry) (k : kernel) : kernel :=
  {| fdtab := t; descs := descs k; nofile := nofile k |}.
Definition set_descs (d : gmap nat description) (k : kernel) : kernel :=
  {| fdtab := fdtab k; descs := d; nofile := nofile k |}.

(** The description behind a descriptor. *)
Definition desc_of (k : kernel) (fd : Z) : option description :=
  e ← fdtab k !! fd; descs k !! ofd e.

(** A system call that reads through a descriptor, or fails with [EBADF]. *)
Definition with_fd {A} (fd : Z) (f : fd_entry → sys A) : sys A :=
  k ← gets id;
  match fdtab k !! fd with
  | Some e => f e
  | None => raise (io_from_errno EBADF)
  end.

Definition with_desc {A} (fd : Z) (f : nat → description → sys A) : sys A :=
  with_fd fd (λ e, k ← gets id;
    match descs k !! ofd e with
    | Some d => f (ofd e) d
    | None => raise (io_from_errno EBADF)
    end).

Definition fcntl_getfd (fd : Z) : sys Z := with_fd fd (λ e, mret (fd_flags e)).
Definition fcntl_setfd (fd flags : Z) : sys unit :=
  with_fd fd (λ e, modify (λ k, set_fdtab (<[fd := mkFd (ofd e) flags]> (fdtab k)) k)).
Definition fcntl_getfl (fd : Z) : sys Z := with_desc fd (λ _ d, mret (status_flags d)).
Definition fcntl_setfl (fd flags : Z) : sys unit :=
  with_desc fd (λ o d, modify (λ k, set_descs
    (<[o := mkDesc flags (st_mode d) (sockname_family d) (acceptconn d) (stream_type d)
              (connected d)]> (descs k)) k)).

Definition set_cloexec (fd : Z) : sys unit :=
  flags ← fcntl_getfd fd;
  if decide (Z.land flags FD_CLOEXEC ≠ 0) then mret tt
  else fcntl_setfd fd (Z.lor flags FD_CLOEXEC).

Definition clear_nonblocking (fd : Z) : sys unit :=
  flags ← fcntl_getfl fd;
  if decide (Z.land flags O_NONBLOCK = 0) then mret tt
  else fcntl_setfl fd (Z.land flags (Z.lnot O_NONBLOCK)).

Definition fd_is_socket (k : kernel) (fd : Z) : bool :=
  match desc_of k fd with
  | Some d => bool_decide (Z.land (st_mode d) S_IFMT = S_IFSOCK)
  | None => false
  end.

Definition socket_family (k : kernel) (fd : Z) : option Z :=
  d ← desc_of k fd; sockname_family d.

Definition accept_conn_opt (k : kernel) (fd : Z) : option bool :=
  match desc_of k fd with
  | None => Some false
  | Some d =>
      match acceptconn d with
      | Ok val => Some val
      | Err ENOPROTOOPT | Err EOPNOTSUPP => None
      | Err _ => Some false
      end
  end.

(** [fd_is_listening] on Linux, and on the other platforms. *)
Definition fd_is_listening (k : kernel) (fd : Z) : bool :=
  default false (accept_conn_opt k fd).

Definition socket_type (k : kernel) (fd : Z) : option bool := stream_type <$> desc_of k fd.
Definition socket_is_connected (k : kernel) (fd : Z) : bool :=
  match desc_of k fd with Some d => connected d | None => false end.
Definition fd_is_listening_bsd (k : kernel) (fd : Z) : bool :=
  default false (accept_conn_opt k fd) ||
  (bool_decide (socket_type k fd = Some true) && negb (socket_is_connected k fd)).

(** [configure_control_stream]: [write_timeout_result] is what
    [set_write_timeout] reports; [SO_NOSIGPIPE] has no counterpart on Linux. *)
Definition configure_control_stream (fd : Z) (write_timeout_result : result IoError unit)
    : sys unit :=
  _ ← set_cloexec fd;
  match write_timeout_result with
  | Ok _ => mret tt
  | Err e => if decide (raw_os_error e = Some EINVAL) then mret tt else raise e
  end.

(** ** Lemmas *)
Lemma send_all_ok sock bs sock' wire :
  send_all sock bs = (Ok tt, sock', wire) → wire = bs.
Proof.
  revert bs sock' wire. induction sock as [|[n|e] sock IH]; intros [|b bs] sock' wire; simpl;
    try (intros; simplify_eq; done).
  - case_decide; [done|].
    destruct (send_all sock _) as [[res s] w] eqn:Hs. intros; simplify_eq.
    apply IH in Hs as ->. change (b :: bs) with (id (b :: bs)) at 3. unfold id.
    apply take_drop.
  - case_decide; [|done]. apply IH.
Qed.

Lemma send_all_prefix sock bs :
  let '(res, _, wire) := send_all sock bs in
  match res with
  | Ok _ => wire = bs
  | Err e => kind e ≠ Interrupted ∧ ∃ rest, rest ≠ [] ∧ bs = wire ++ rest
  end.
Proof.
  revert bs. induction sock as [|[n|e] sock IH]; intros [|b bs]; simpl; try done.
  - split; [done|]. by exists (b :: bs).
  - case_decide; [split; [done|]; by exists (b :: bs)|]. specialize (IH (drop (n `min` S (length bs)) (b :: bs))).
    destruct (send_all sock _) as [[[u|e] s] w]; simpl in *.
    + rewrite IH. apply (take_drop _ (b :: bs)).
    + destruct IH as (He & rest & Hr & Heq). split; [done|]. exists rest. split; [done|].
      rewrite <- (take_drop (n `min` S (length bs)) (b :: bs)) at 1.
      by rewrite Heq, app_assoc.
  - case_decide; [apply IH|]. simpl. split; [done|]. by exists (b :: bs).
Qed.

(** *** Flag words *)
Lemma lor_one_id f : Z.land f 1 ≠ 0 → Z.lor f 1 = f.
Proof.
  intros Hf. apply Z.bits_inj'. intros n Hn. rewrite Z.lor_spec.
  destruct (decide (n = 0)) as [->|Hne].
  - destruct (Z.testbit f 0) eqn:Hb; [done|]. exfalso. apply Hf.
    apply Z.bits_inj'. intros m Hm. rewrite Z.land_spec, Z.bits_0.
    destruct (decide (m = 0)) as [->|]; [by rewrite Hb|].
    change 1 with (2 ^ 0). rewrite Z.pow2_bits_false by lia. by rewrite andb_false_r.
  - change 1 with (2 ^ 0). rewrite Z.pow2_bits_false by lia. by rewrite orb_false_r.
Qed.

Lemma land_lnot_id f g : Z.land f g = 0 → Z.land f (Z.lnot g) = f.
Proof.
  intros Hf. apply Z.bits_inj'. intros n Hn. rewrite Z.land_spec, Z.lnot_spec by done.
  assert (Z.testbit (Z.land f g) n = false) as Hb by (by rewrite Hf, Z.bits_0).
  rewrite Z.land_spec in Hb. by destruct (Z.testbit f n), (Z.testbit g n).
Qed.

Lemma fd_entry_eta e : mkFd (ofd e) (fd_flags e) = e.
Proof. by destruct e. Qed.
Lemma kernel_eta k : mkKernel (fdtab k) (descs k) (nofile k) = k.
Proof. by destruct k. Qed.

Lemma set_cloexec_run k fd e :
  fdtab k !! fd = Some e →
  set_cloexec fd k =
    (Ok tt, set_fdtab (<[fd := mkFd (ofd e) (Z.lor (fd_flags e) FD_CLOEXEC)]> (fdtab k)) k).
Proof.
  intros He. unfold set_cloexec, fcntl_getfd, with_fd, gets, mbind, prog_bind, mret, prog_ret.
  simpl. rewrite He. case_decide as Hf; unfold FD_CLOEXEC in *.
  - rewrite lor_one_id by done. rewrite fd_entry_eta, insert_id by done.
    unfold set_fdtab. by rewrite kernel_eta.
  - unfold fcntl_setfd, with_fd, gets, mbind, prog_bind. simpl. by rewrite He.
Qed.

Lemma set_cloexec_closed k fd :
  fdtab k !! fd = None → set_cloexec fd k = (Err (Raise (io_from_errno EBADF)), k).
Proof.
  intros He. unfold set_cloexec, fcntl_getfd, with_fd, gets, mbind, prog_bind. simpl. by rewrite He.
Qed.

Definition with_status (f : Z) (d : description) : description :=
  mkDesc f (st_mode d) (sockname_family d) (acceptconn d) (stream_type d) (connected d).

Lemma clear_nonblocking_run k fd e d :
  fdtab k !! fd = Some e → descs k !! ofd e = Some d →
  clear_nonblocking fd k =
    (Ok tt, set_descs (<[ofd e := with_status (Z.land (status_flags d) (Z.lnot O_NONBLOCK)) d]>
              (descs k)) k).
Proof.
  intros He Hd.
  unfold clear_nonblocking, fcntl_getfl, with_desc, with_fd, gets, mbind, prog_bind, mret, prog_ret.
  simpl. rewrite He, Hd. case_decide as Hf.
  - rewrite land_lnot_id by done. rewrite insert_id by (rewrite Hd; by destruct d).
    unfold set_descs. by rewrite kernel_eta.
  - unfold fcntl_setfl, with_desc, with_fd, gets, mbind, prog_bind. simpl. by rewrite He, Hd.
Qed.

(** ** Theorems *)

(** [send_all] never reports success early and never corrupts the stream:
    on [Ok] the kernel accepted exactly the buffer, once and in order, across
    partial writes and interruptions; on [Err] it accepted a proper prefix,
    and the error is never [EINTR]. *)
Theorem send_all_exact sock bs :
  let '(res, _, wire) := send_all sock bs in
  match res with
  | Ok _ => wire = bs
  | Err e => kind e ≠ Interrupted ∧ ∃ rest, rest ≠ [] ∧ bs = wire ++ rest
  end.
Proof. apply send_all_prefix. Qed.
