(* ===== verification/Frame.v ===== *)
(** * Framing: [crates/handoff/src/frame.rs]

    The length-prefixed frames, the one-shot reader [read_message] and the
    resumable reader [FrameAccumulator].  The payload codec ([postcard]) is a
    dependency: it is the class [PayloadCodec], and what the library relies on — that
    decoding inverts encoding — is the class [CodecLaws]. *)
From S2P Require Import Prelude Errors Protocol Sock.
From stdpp Require Import base tactics option list numbers strings.
Local Open Scope Z_scope.

(** ** The codec the frames carry *)
Class PayloadCodec : Type := {
  to_allocvec : Message → result unit (list byte);
  from_bytes : list byte → result unit Message
}.

Class CodecLaws `{PayloadCodec} : Prop := {
  codec_roundtrip m bs : to_allocvec m = Ok bs → from_bytes bs = Ok m
}.

(** ** Byte sources

    What the successive [read(2)] calls on a stream will report: some bytes,
    or an error.  An empty list, like an empty segment, is end of file. *)
Inductive read_event : Type :=
| RData (bs : list byte)
| RFail (e : IoError).

Definition reader : Type := list read_event.

(** One [Read::read] into a buffer of [k] bytes; [Ok []] is [Ok(0)]. *)
Definition read (r : reader) (k : nat) : result IoError (list byte) * reader :=
  match r with
  | [] => (Ok [], [])
  | RFail e :: r' => (Err e, r')
  | RData bs :: r' =>
      (Ok (take k bs), match drop k bs with [] => r' | bs' => RData bs' :: r' end)
  end.

(** [Read::read_exact]: bytes consumed before a failure are lost. *)
Fixpoint read_exact (r : reader) (k : nat) : result IoError (list byte) * reader :=
  if decide (k = 0%nat) then (Ok [], r) else
  match r with
  | [] => (Err (io_from_kind UnexpectedEof), [])
  | RFail e :: r' => if decide (kind e = Interrupted) then read_exact r' k else (Err e, r')
  | RData [] :: r' => (Err (io_from_kind UnexpectedEof), r')
  | RData bs :: r' =>
      if decide (length bs ≤ k)%nat then
        let '(res, r'') := read_exact r' (k - length bs) in ((bs ++.) <$> res, r'')
      else (Ok (take k bs), RData (drop k bs) :: r')
  end.

Definition reader_size (r : reader) : nat :=
  sum_list_with (λ e, match e with RData bs => S (length bs) | RFail _ => 1%nat end) r.

(** ** Constants *)
Definition MAX_FRAME_BYTES : Z := Z.shiftl 1 20.
Definition LEN_PREFIX : nat := 4.
Definition VERSION_FIELD : nat := 2.
Definition usize_max : Z := u64_max.

(** ** Writing *)
Section frames.
Context `{PayloadCodec}.

Definition encode (version : ProtoVersion) (msg : Message) : Result (list byte) :=
  payload ← result_map_err (λ _, Codec) (to_allocvec msg);
  let inner_len := Z.of_nat VERSION_FIELD + Z.of_nat (length payload) in
  if decide (inner_len > usize_max) then Err (FrameTooLarge u32_max)
  else if decide (inner_len > MAX_FRAME_BYTES) then
    Err (FrameTooLarge (inner_len `mod` (u32_max + 1)))
  else Ok (le_bytes LEN_PREFIX inner_len ++ le_bytes VERSION_FIELD version ++ payload).

(** [write_message] on an in-memory sink ([write_all] appends, [flush] does
    nothing), and on the control socket. *)
Definition write_message (w : list byte) (version : ProtoVersion) (msg : Message)
    : Result (list byte) :=
  bs ← encode version msg; Ok (w ++ bs).

Definition write_frame (sock : send_script) (version : ProtoVersion) (msg : Message)
    : Result unit * send_script * list byte :=
  match encode version msg with
  | Err e => (Err e, sock, [])
  | Ok bs =>
      let '(res, sock', wire) := send_all sock bs in
      (result_map_err Io res, sock', wire)
  end.

(** ** Reading in one shot *)
Definition read_message (r : reader) : Result (ProtoVersion * Message) * reader :=
  let '(len_buf, r) := read_exact r LEN_PREFIX in
  match len_buf with
  | Err e => (Err (Io e), r)
  | Ok len_buf =>
      let frame_len := le_Z len_buf in
      if decide (frame_len < Z.of_nat VERSION_FIELD) then (Err (FrameMalformed frame_len), r)
      else if decide (frame_len > MAX_FRAME_BYTES) then (Err (FrameTooLarge frame_len), r)
      else
        let '(ver_buf, r) := read_exact r VERSION_FIELD in
        match ver_buf with
        | Err e => (Err (Io e), r)
        | Ok ver_buf =>
            let '(payload, r) := read_exact r (Z.to_nat frame_len - VERSION_FIELD) in
            match payload with
            | Err e => (Err (Io e), r)
            | Ok payload =>
                match from_bytes payload with
                | Err _ => (Err Codec, r)
                | Ok msg => (Ok (le_Z ver_buf, msg), r)
                end
            end
        end
  end.

(** ** The resumable reader *)
Record FrameAccumulator : Type := mkAcc { buf : list byte; want : nat }.

Definition acc_new : FrameAccumulator := {| buf := []; want := LEN_PREFIX |}.
Definition acc_default : FrameAccumulator := {| buf := []; want := 0 |}.
Definition has_partial (acc : FrameAccumulator) : bool :=
  match buf acc with [] => false | _ => true end.
Definition acc_reset (acc : FrameAccumulator) : FrameAccumulator :=
  {| buf := []; want := LEN_PREFIX |}.

(** How the inner [while self.buf.len() < self.want] loop leaves. *)
Inductive fill_exit : Type :=
| Filled
| FillTimedOut
| FillFailed (e : IoError).

(** The inner loop.  [None] is running out of [fuel], which [fill_total] shows
    does not happen from [S (reader_size r)]. *)
Fixpoint fill (fuel : nat) (b : list byte) (w : nat) (r : reader)
    : option (fill_exit * list byte * reader) :=
  if decide (w ≤ length b)%nat then Some (Filled, b, r) else
  match fuel with
  | O => None
  | S fuel =>
      match read r (w - length b) with
      | (Ok [], r') => Some (FillFailed (io_from_kind UnexpectedEof), b, r')
      | (Ok bs, r') => fill fuel (b ++ bs) w r'
      | (Err e, r') =>
          if decide (kind e = Interrupted) then fill fuel b w r'
          else if decide (kind e = WouldBlock ∨ kind e = TimedOut) then Some (FillTimedOut, b, r')
          else Some (FillFailed e, b, r')
      end
  end.

(** The outer [loop].  [None] is a panic (an index outside the buffer) or
    running out of fuel; [poll_read_total] shows that neither happens. *)
Fixpoint poll_loop (fuel : nat) (acc : FrameAccumulator) (r : reader)
    : option (Result (option (ProtoVersion * Message)) * FrameAccumulator * reader) :=
  match fuel with
  | O => None
  | S fuel =>
      '(exit, b, r) ← fill (S (reader_size r)) (buf acc) (want acc) r;
      let acc := {| buf := b; want := want acc |} in
      match exit with
      | FillTimedOut => Some (Ok None, acc, r)
      | FillFailed e => Some (Err (Io e), acc, r)
      | Filled =>
          if decide (want acc = LEN_PREFIX) then
            b0 ← buf acc !! 0%nat; b1 ← buf acc !! 1%nat;
            b2 ← buf acc !! 2%nat; b3 ← buf acc !! 3%nat;
            let frame_len := le_Z [b0; b1; b2; b3] in
            if decide (frame_len < Z.of_nat VERSION_FIELD) then
              Some (Err (FrameMalformed frame_len), acc_reset acc, r)
            else if decide (frame_len > MAX_FRAME_BYTES) then
              Some (Err (FrameTooLarge frame_len), acc_reset acc, r)
            else
              poll_loop fuel {| buf := buf acc; want := LEN_PREFIX + Z.to_nat frame_len |} r
          else
            b4 ← buf acc !! 4%nat; b5 ← buf acc !! 5%nat;
            let version := le_Z [b4; b5] in
            if decide (LEN_PREFIX + VERSION_FIELD ≤ length (buf acc))%nat then
              let decoded := from_bytes (drop (LEN_PREFIX + VERSION_FIELD) (buf acc)) in
              Some (match decoded with
                    | Ok msg => Ok (Some (version, msg))
                    | Err _ => Err Codec
                    end, acc_reset acc, r)
            else None
      end
  end.

Definition poll_read (acc : FrameAccumulator) (r : reader)
    : option (Result (option (ProtoVersion * Message)) * FrameAccumulator * reader) :=
  let acc := if decide (want acc = 0)%nat then {| buf := buf acc; want := LEN_PREFIX |} else acc in
  poll_loop 2 acc r.

End frames.

(** ** Specification: parsing a byte string

    [frame_at bs] is the frame at the head of [bs], and [spec_parse] the
    messages of [bs] with the error that ends them: the meaning of a byte
    stream, whatever the way it arrives. *)
Inductive frame_status : Type :=
| Incomplete
| BadLength (e : Error)
| Complete (version : ProtoVersion) (payload rest : list byte).

Definition frame_at (bs : list byte) : frame_status :=
  if decide (length bs < 4)%nat then Incomplete else
  let n := le_Z (take 4 bs) in
  if decide (n < 2) then BadLength (FrameMalformed n)
  else if decide (n > MAX_FRAME_BYTES) then BadLength (FrameTooLarge n)
  else if decide (length bs < 4 + Z.to_nat n)%nat then Incomplete
  else Complete (le_Z (take 2 (drop 4 bs))) (take (Z.to_nat n - 2) (drop 6 bs))
         (drop (4 + Z.to_nat n) bs).

Definition eof : Error := Io (io_from_kind UnexpectedEof).

Section spec.
Context `{PayloadCodec}.

Fixpoint spec_parse (fuel : nat) (bs : list byte) : list (ProtoVersion * Message) * Error :=
  match fuel with
  | O => ([], eof)
  | S fuel =>
      match frame_at bs with
      | Incomplete => ([], eof)
      | BadLength e => ([], e)
      | Complete v p rest =>
          match from_bytes p with
          | Err _ => ([], Codec)
          | Ok m => let '(ms, e) := spec_parse fuel rest in ((v, m) :: ms, e)
          end
      end
  end.

(** What a caller that polls until an error gets, time-outs being resumed:
    the accumulator's clients ([run_session_loop], [read_until], the seal
    loop) are such callers. *)
Fixpoint deliver (fuel : nat) (acc : FrameAccumulator) (r : reader)
    : list (ProtoVersion * Message) * option Error :=
  match fuel with
  | O => ([], None)
  | S fuel =>
      match poll_read acc r with
      | None => ([], None)
      | Some (Ok None, acc, r) => deliver fuel acc r
      | Some (Ok (Some vm), acc, r) => let '(ms, e) := deliver fuel acc r in (vm :: ms, e)
      | Some (Err e, _, _) => ([], Some e)
      end
  end.

(** The same for a caller of [read_message]. *)
Fixpoint deliver_oneshot (fuel : nat) (r : reader)
    : list (ProtoVersion * Message) * option Error :=
  match fuel with
  | O => ([], None)
  | S fuel =>
      match read_message r with
      | (Ok vm, r) => let '(ms, e) := deliver_oneshot fuel r in (vm :: ms, e)
      | (Err e, _) => ([], Some e)
      end
  end.
End spec.

(** The bytes a stream carries, and the streams whose only errors are
    interruptions and (for [benign]) receive time-outs. *)
Definition stream_bytes (r : reader) : list byte :=
  r ≫= λ e, match e with RData bs => bs | RFail _ => [] end.

Arguments stream_bytes : simpl never.
Arguments reader_size : simpl never.

Definition is_timeout (k : ErrorKind) : bool :=
  bool_decide (k = WouldBlock) || bool_decide (k = TimedOut).

Definition benign_event (e : read_event) : Prop :=
  match e with
  | RData bs => bs ≠ []
  | RFail e => kind e = Interrupted ∨ is_timeout (kind e) = true
  end.
Definition blocking_event (e : read_event) : Prop :=
  match e with RData bs => bs ≠ [] | RFail e => kind e = Interrupted end.

Abbreviation benign := (Forall benign_event).
Abbreviation blocking := (Forall blocking_event).

(** The accumulator's invariant: what it holds is an incomplete frame, and
    [want] is the length its bytes announce. *)
Definition wf_acc (acc : FrameAccumulator) : Prop :=
  (want acc = 0%nat ∧ buf acc = []) ∨
  (want acc = 4%nat ∧ (length (buf acc) < 4)%nat) ∨
  ((4 ≤ length (buf acc) < want acc)%nat ∧ 2 ≤ le_Z (take 4 (buf acc)) ≤ MAX_FRAME_BYTES ∧
   want acc = (4 + Z.to_nat (le_Z (take 4 (buf acc))))%nat).

(** ** Lemmas: reading *)
Lemma blocking_benign r : blocking r → benign r.
Proof. intros Hr. apply (Forall_impl _ _ _ Hr). intros [bs|e]; simpl; auto. Qed.

Lemma stream_bytes_cons e r :
  stream_bytes (e :: r) = match e with RData bs => bs | RFail _ => [] end ++ stream_bytes r.
Proof. done. Qed.

Lemma reader_size_cons e r :
  reader_size (e :: r) =
    (match e with RData bs => S (length bs) | RFail _ => 1 end + reader_size r)%nat.
Proof. done. Qed.

Lemma stream_bytes_app r r' : stream_bytes (r ++ r') = stream_bytes r ++ stream_bytes r'.
Proof. unfold stream_bytes. by rewrite bind_app. Qed.

Lemma benign_nil_bytes r : benign r → stream_bytes r = [] → Forall (λ e, ∃ x, e = RFail x) r.
Proof.
  induction 1 as [|[bs|e] r He Hr IH]; rewrite ?stream_bytes_cons; simpl in *.
  - constructor.
  - by intros [-> _]%app_nil.
  - intros. constructor; eauto.
Qed.

(** A read never invents, drops or reorders bytes. *)
Lemma read_data r k bs r' :
  read r k = (Ok bs, r') → stream_bytes r = bs ++ stream_bytes r' ∧ (length bs ≤ k)%nat.
Proof.
  destruct r as [|[ds|e] r]; simpl; intros Hr; simplify_eq; [split; [done|simpl; lia]|].
  rewrite stream_bytes_cons, length_take. split; [|lia].
  rewrite <- (take_drop k ds) at 1. destruct (drop k ds) eqn:Hd.
  - by rewrite app_nil_r.
  - by rewrite stream_bytes_cons, <- app_assoc.
Qed.

Lemma read_size r k bs r' :
  read r k = (Ok bs, r') → bs ≠ [] → (reader_size r' < reader_size r)%nat.
Proof.
  destruct r as [|[ds|e] r]; simpl; intros Hr Hne; simplify_eq.
  assert (length ds = length (take k ds) + length (drop k ds))%nat as Hl
    by (by rewrite <- length_app, take_drop).
  destruct (take k ds); [done|].
  destruct (drop k ds); rewrite !reader_size_cons; simpl in *; lia.
Qed.

Lemma read_err_size r k e r' : read r k = (Err e, r') → (reader_size r' < reader_size r)%nat.
Proof.
  destruct r as [|[ds|x] r]; simpl; intros; simplify_eq. rewrite reader_size_cons. lia.
Qed.

Lemma read_size_le r k res r' : read r k = (res, r') → (reader_size r' ≤ reader_size r)%nat.
Proof.
  destruct r as [|[ds|x] r]; simpl; intros; simplify_eq; [done| |].
  - assert (length ds = length (take k ds) + length (drop k ds))%nat as Hl
      by (by rewrite <- length_app, take_drop).
    destruct (drop k ds); rewrite !reader_size_cons; simpl in *; lia.
  - rewrite reader_size_cons. lia.
Qed.

Lemma read_benign r k res r' : benign r → read r k = (res, r') → benign r'.
Proof.
  intros Hr. destruct r as [|[ds|e] r]; simpl; intros; simplify_eq/=; [done| |].
  - inversion Hr; subst. case_match; [done|]. by constructor.
  - by inversion Hr.
Qed.

Lemma read_benign_err r k e r' :
  benign r → read r k = (Err e, r') →
  (kind e = Interrupted ∨ is_timeout (kind e) = true) ∧ stream_bytes r' = stream_bytes r.
Proof.
  intros Hr. destruct r as [|[ds|x] r]; simpl; intros; simplify_eq/=.
  by inversion Hr.
Qed.

Lemma read_benign_eof r k r' :
  (0 < k)%nat → benign r → read r k = (Ok [], r') → stream_bytes r = [].
Proof.
  intros Hk Hr. destruct r as [|[ds|x] r]; simpl; intros; simplify_eq/=; [done|].
  inversion Hr; subst. destruct ds, k; simplify_eq/=; try lia; done.
Qed.

(** *** The inner loop *)
Lemma fill_total fuel b w r : (reader_size r < fuel)%nat → is_Some (fill fuel b w r).
Proof.
  revert b r. induction fuel as [|fuel IH]; intros b r Hf; [lia|]. simpl.
  case_decide; [by eauto|].
  destruct (read r (w - length b)) as [[[|x bs]|e] r'] eqn:Hread; [by eauto| |].
  - apply IH. apply read_size in Hread; [lia|done].
  - apply read_err_size in Hread. repeat case_decide; eauto. apply IH. lia.
Qed.

Lemma fill_spec fuel b w r ex b' r' :
  fill fuel b w r = Some (ex, b', r') → (length b ≤ w)%nat →
  (∃ more, b' = b ++ more) ∧ (length b' ≤ w)%nat ∧ (reader_size r' ≤ reader_size r)%nat ∧
  match ex with
  | Filled => length b' = w ∧ ((length b < w)%nat → (reader_size r' < reader_size r)%nat)
  | FillTimedOut => (length b' < w ∧ reader_size r' < reader_size r)%nat
  | FillFailed e => (length b' < w)%nat
  end ∧
  (benign r →
   benign r' ∧ b' ++ stream_bytes r' = b ++ stream_bytes r ∧
   match ex with FillFailed e => e = io_from_kind UnexpectedEof ∧ stream_bytes r = drop (length b) b' | _ => True end).
Proof.
  revert b r. induction fuel as [|fuel IH]; intros b r; simpl.
  { case_decide; [|done]. intros [= <- <- <-] Hle. split_and!; try lia; [|done].
    exists []. by rewrite app_nil_r. }
  case_decide as Hdone.
  { intros [= <- <- <-] Hle. split_and!; try lia; [|done]. exists []. by rewrite app_nil_r. }
  destruct (read r (w - length b)) as [[[|x bs]|e] r1] eqn:Hread.
  - intros [= <- <- <-] Hle.
    pose proof (read_size_le _ _ _ _ Hread) as Hsz.
    split_and!; try lia; [exists []; by rewrite app_nil_r|].
    intros Hb. assert (He : stream_bytes r = []) by (eapply (read_benign_eof r (w - length b)); [lia|done|done]).
    pose proof (read_data _ _ _ _ Hread) as [Hd _]. rewrite He in Hd. simpl in Hd.
    split_and!; [by eapply read_benign|by rewrite <- Hd, He|done|].
    by rewrite drop_all.
  - intros Hfill Hle. pose proof (read_data _ _ _ _ Hread) as [Hd Hlen].
    pose proof (read_size _ _ _ _ Hread ltac:(done)) as Hsz.
    apply IH in Hfill as ([more ->] & H1 & H2 & H3 & H4).
    2:{ rewrite length_app. simpl in *. lia. }
    split_and!; [by exists ((x :: bs) ++ more); rewrite app_assoc|done|lia| |].
    + destruct ex; [destruct H3; split; [done|lia]|lia|done].
    + intros Hb. destruct H4 as (H4 & H5 & H6); [by eapply read_benign|].
      split_and!; [done|by rewrite H5, Hd, <- app_assoc|].
      destruct ex; [done|done|]. destruct H6 as [-> H6]. split; [done|].
      rewrite Hd, H6, <- !app_assoc, drop_app_length.
      rewrite app_assoc, drop_app_length. done.
  - pose proof (read_err_size _ _ _ _ Hread) as Hsz.
    case_decide as Hi; [|case_decide as Ht].
    + intros Hfill Hle. apply IH in Hfill as (Hm & H1 & H2 & H3 & H4); [|done].
      split_and!; [done|done|lia| |].
      * destruct ex; [destruct H3; split; [done|lia]|lia|done].
      * intros Hb. pose proof (read_benign_err _ _ _ _ Hb Hread) as [_ Hs].
        rewrite <- Hs. apply H4. by eapply read_benign.
    + intros [= <- <- <-] Hle. split_and!; try lia; [exists []; by rewrite app_nil_r|].
      intros Hb. pose proof (read_benign_err _ _ _ _ Hb Hread) as [_ Hs].
      split_and!; [by eapply read_benign|by rewrite Hs|done].
    + intros [= <- <- <-] Hle. split_and!; try lia; [exists []; by rewrite app_nil_r|].
      intros Hb. pose proof (read_benign_err _ _ _ _ Hb Hread) as [Hk Hs].
      exfalso. destruct Hk as [Hk|Hk]; [done|]. unfold is_timeout in Hk.
      apply orb_prop in Hk as [Hk%bool_decide_eq_true|Hk%bool_decide_eq_true]; tauto.
Qed.

(** Without receive time-outs the accumulator waits for a whole frame. *)
Lemma read_blocking r k res r' :
  blocking r → read r k = (res, r') →
  blocking r' ∧ match res with Err e => kind e = Interrupted | Ok _ => True end.
Proof.
  intros Hr. destruct Hr as [|[bs|e] r He Hr]; simpl; intros; simplify_eq; [done| |done].
  split; [|done]. destruct (drop k bs) eqn:Hd; [done|]. by constructor.
Qed.

Lemma fill_blocking fuel b w r ex b' r' :
  blocking r → fill fuel b w r = Some (ex, b', r') → blocking r' ∧ ex ≠ FillTimedOut.
Proof.
  revert b r. induction fuel as [|fuel IH]; intros b r Hr; simpl; (case_decide; [by intros; simplify_eq|]); [done|].
  destruct (read r (w - length b)) as [[[|x bs]|e] r1] eqn:Hread;
    apply (read_blocking _ _ _ _ Hr) in Hread as [Hr1 He].
  - by intros [= <- <- <-].
  - by apply IH.
  - rewrite decide_True by done. by apply IH.
Qed.

Arguments fill : simpl never.
#[local] Arguments le_Z : simpl never.
#[local] Arguments Z.of_nat : simpl never.

(** *** Frames at the head of a byte string *)
Lemma frame_at_short bs : (length bs < 4)%nat → frame_at bs = Incomplete.
Proof. intros. unfold frame_at. by rewrite decide_True. Qed.

Lemma frame_at_incomplete bs :
  (4 ≤ length bs)%nat → 2 ≤ le_Z (take 4 bs) ≤ MAX_FRAME_BYTES →
  (length bs < 4 + Z.to_nat (le_Z (take 4 bs)))%nat → frame_at bs = Incomplete.
Proof.
  intros H1 [H2 H3] H4. unfold frame_at.
  rewrite decide_False by lia. rewrite decide_False by lia. rewrite decide_False by lia.
  by rewrite decide_True.
Qed.

Lemma frame_at_complete b rest :
  (length b = 4 + Z.to_nat (le_Z (take 4 b)))%nat → 2 ≤ le_Z (take 4 b) ≤ MAX_FRAME_BYTES →
  frame_at (b ++ rest) = Complete (le_Z (take 2 (drop 4 b))) (drop 6 b) rest.
Proof.
  intros Hl [H1 H2]. unfold frame_at.
  rewrite take_app_le by lia. set (n := le_Z (take 4 b)) in *.
  rewrite length_app. rewrite decide_False by lia. rewrite decide_False by lia.
  rewrite decide_False by lia. rewrite decide_False by lia. f_equal.
  - rewrite drop_app_le by lia. rewrite take_app_le; [done|]. rewrite length_drop. lia.
  - rewrite drop_app_le by lia. rewrite take_app_le by (rewrite length_drop; lia).
    apply take_ge. rewrite length_drop. lia.
  - by rewrite drop_app_length'.
Qed.

Lemma frame_at_bad b rest e :
  length b = 4%nat →
  (le_Z b < 2 ∧ e = FrameMalformed (le_Z b)) ∨
  (le_Z b > MAX_FRAME_BYTES ∧ e = FrameTooLarge (le_Z b)) →
  frame_at (b ++ rest) = BadLength e.
Proof.
  intros Hl He. unfold frame_at. rewrite length_app, take_app_length' by done.
  rewrite decide_False by lia.
  destruct He as [[H ->]|[H ->]]; [by rewrite decide_True|].
  assert (MAX_FRAME_BYTES = 1048576) by reflexivity.
  rewrite decide_False by lia. by rewrite decide_True.
Qed.

(** ** Lemmas: the resumable reader *)
Section poll.
Context `{PayloadCodec}.

(** What one poll does to the bytes [B] still to be parsed. *)
Definition poll_post (B : list byte) (r : reader) (res : Result (option (ProtoVersion * Message)))
    (acc' : FrameAccumulator) (r' : reader) : Prop :=
  wf_acc acc' ∧ (reader_size r' ≤ reader_size r)%nat ∧
  match res with Ok _ => (reader_size r' < reader_size r)%nat | Err _ => True end ∧
  (benign r → benign r' ∧
   match res with
   | Ok None => buf acc' ++ stream_bytes r' = B
   | Ok (Some (v, m)) =>
       ∃ p, frame_at B = Complete v p (stream_bytes r') ∧ from_bytes p = Ok m ∧ buf acc' = []
   | Err e =>
       (e = eof ∧ frame_at B = Incomplete) ∨ frame_at B = BadLength e ∨
       (e = Codec ∧ ∃ v p rest, frame_at B = Complete v p rest ∧ from_bytes p = Err tt)
   end).

Lemma wf_acc_new : wf_acc acc_new.
Proof. right. left. split; [done|simpl; lia]. Qed.

(** The second turn of the loop: the length is known. *)
Lemma poll_body fuel acc r :
  (4 ≤ length (buf acc) < want acc)%nat → 2 ≤ le_Z (take 4 (buf acc)) ≤ MAX_FRAME_BYTES →
  want acc = (4 + Z.to_nat (le_Z (take 4 (buf acc))))%nat →
  ∃ res acc' r', poll_loop (S fuel) acc r = Some (res, acc', r') ∧
    poll_post (buf acc ++ stream_bytes r) r res acc' r'.
Proof.
  intros Hlen Hn Hw. simpl.
  destruct (fill_total (S (reader_size r)) (buf acc) (want acc) r) as [[[ex b] r'] Hfill]; [lia|].
  rewrite Hfill. simpl.
  apply fill_spec in Hfill as ([more ->] & Hle & Hsz & Hex & Hben); [|lia].
  assert (Htake : take 4 (buf acc ++ more) = take 4 (buf acc)) by (apply take_app_le; lia).
  destruct ex as [| |e].
  - destruct Hex as [Hfull Hlt]. specialize (Hlt ltac:(lia)).
    rewrite decide_False by (unfold LEN_PREFIX; lia).
    destruct (buf acc ++ more) as [|c0 [|c1 [|c2 [|c3 [|c4 [|c5 cs]]]]]] eqn:Hb;
      simpl in Hfull; try lia. simpl.
    eexists _, _, _. split; [done|]. split_and!; [apply wf_acc_new|done|by case_match|].
    intros Hr. destruct (Hben Hr) as (Hr' & Hbytes & _). split; [done|].
    assert (Hframe : frame_at (buf acc ++ stream_bytes r) =
                     Complete (le_Z [c4; c5]) cs (stream_bytes r')).
    { rewrite <- Hbytes. rewrite (frame_at_complete (c0 :: c1 :: c2 :: c3 :: c4 :: c5 :: cs)); [done| |].
      - rewrite Htake. simpl in *. lia.
      - by rewrite Htake. }
    rewrite drop_0. destruct (from_bytes cs) as [m|[]] eqn:Hdec; [eauto|].
    right. right. eauto 7.
  - eexists _, _, _. split; [done|]. split_and!; [|done|tauto|].
    + right. right. simpl. rewrite Htake, length_app in *. split_and!; try tauto; lia.
    + intros Hr. destruct (Hben Hr) as (Hr' & Hbytes & _). done.
  - eexists _, _, _. split; [done|]. split_and!; [|done|done|].
    + right. right. simpl. rewrite Htake, length_app in *. split_and!; try tauto; lia.
    + intros Hr. destruct (Hben Hr) as (Hr' & Hbytes & -> & Hs). split; [done|]. left.
      split; [done|]. rewrite drop_app_length in Hs. subst more.
      apply frame_at_incomplete; rewrite ?Htake; rewrite ?length_app in *; try lia; done.
Qed.

Lemma poll_read_spec acc r :
  wf_acc acc →
  ∃ res acc' r', poll_read acc r = Some (res, acc', r') ∧
    poll_post (buf acc ++ stream_bytes r) r res acc' r'.
Proof.
  intros Hwf. unfold poll_read.
  assert (∃ acc1, (if decide (want acc = 0)%nat then {| buf := buf acc; want := LEN_PREFIX |} else acc) = acc1
    ∧ buf acc1 = buf acc ∧
    ((want acc1 = 4%nat ∧ (length (buf acc1) < 4)%nat) ∨
     ((4 ≤ length (buf acc1) < want acc1)%nat ∧ 2 ≤ le_Z (take 4 (buf acc1)) ≤ MAX_FRAME_BYTES ∧
      want acc1 = (4 + Z.to_nat (le_Z (take 4 (buf acc1))))%nat))) as (acc1 & -> & <- & Hacc).
  { eexists. split; [done|]. destruct Hwf as [[H0 H1]|[[H0 H1]|(H0 & H1 & H2)]].
    - rewrite decide_True by done. simpl. rewrite H1. split; [done|]. left. split; [done|simpl; lia].
    - rewrite decide_False by lia. eauto.
    - rewrite decide_False by lia. auto. }
  clear Hwf. destruct Hacc as [[Hw Hlen]|(H0 & H1 & H2)]; [|by apply poll_body].
  change 2%nat with (S 1). set (f := 1%nat). assert (f = 1%nat) as Hf by done. clearbody f. simpl.
  destruct (fill_total (S (reader_size r)) (buf acc1) (want acc1) r) as [[[ex b] r'] Hfill]; [lia|].
  rewrite Hfill. simpl.
  apply fill_spec in Hfill as ([more Hb] & Hle & Hsz & Hex & Hben); [|lia].
  destruct ex as [| |e].
  - destruct Hex as [Hfull Hlt]. specialize (Hlt ltac:(lia)).
    rewrite Hw, decide_True by done.
    destruct b as [|c0 [|c1 [|c2 [|c3 [|c4 cs]]]]]; simpl in Hfull; try lia. simpl.
    set (n := le_Z [c0; c1; c2; c3]).
    assert (Hn : 0 ≤ n) by apply le_Z_bound.
    case_decide as Hsmall; [|case_decide as Hlarge].
    + eexists _, _, _. split; [done|]. split_and!; [apply wf_acc_new|done|done|].
      intros Hr. destruct (Hben Hr) as (Hr' & Hbytes & _). split; [done|].
      right. left. rewrite <- Hbytes. apply frame_at_bad; [done|]. left. done.
    + eexists _, _, _. split; [done|]. split_and!; [apply wf_acc_new|done|done|].
      intros Hr. destruct (Hben Hr) as (Hr' & Hbytes & _). split; [done|].
      right. left. rewrite <- Hbytes. apply frame_at_bad; [done|]. right. done.
    + rewrite Hf. destruct (poll_body 0 {| buf := [c0; c1; c2; c3]; want := LEN_PREFIX + Z.to_nat n |} r')
        as (res & acc' & r'' & Hpoll & Hwf' & Hsz' & Hres & Hben').
      { simpl. unfold VERSION_FIELD, LEN_PREFIX in *. lia. }
      { simpl. fold n. unfold VERSION_FIELD in *. lia. }
      { done. }
      exists res, acc', r''. split; [done|]. split_and!; [done|lia|case_match; [lia|done]|].
      intros Hr. destruct (Hben Hr) as (Hr' & Hbytes & _). rewrite <- Hbytes. auto.
  - eexists _, _, _. split; [done|]. split_and!; [|done|tauto|].
    + right. left. simpl. lia.
    + intros Hr. destruct (Hben Hr) as (Hr' & Hbytes & _). done.
  - eexists _, _, _. split; [done|]. split_and!; [|done|done|].
    + right. left. simpl. lia.
    + intros Hr. destruct (Hben Hr) as (Hr' & Hbytes & -> & Hs). split; [done|]. left.
      split; [done|]. rewrite Hb, drop_app_length in Hs. subst more.
      rewrite <- Hb. apply frame_at_short. lia.
Qed.

Lemma poll_read_blocking acc r res acc' r' :
  blocking r → poll_read acc r = Some (res, acc', r') → blocking r' ∧ res ≠ Ok None.
Proof.
  intros Hr. unfold poll_read. set (acc1 := if decide (want acc = 0%nat) then _ else _).
  assert (∀ fuel acc r, blocking r → poll_loop fuel acc r = Some (res, acc', r') →
    blocking r' ∧ res ≠ Ok None) as Hloop; [|by apply Hloop].
  clear. induction fuel as [|fuel IH]; intros acc r Hr; [done|]. cbn [poll_loop].
  destruct (fill (S (reader_size r)) (buf acc) (want acc) r) as [[[ex b] r1]|] eqn:Hf; [|done].
  apply (fill_blocking _ _ _ _ _ _ _ Hr) in Hf as [Hr1 Hex]. cbn [mbind option_bind buf want].
  destruct ex as [| |e]; [|done|by intros [= <- <- <-]]. case_decide.
  - intros (b0 & _ & Hp)%bind_Some. apply bind_Some in Hp as (b1 & _ & Hp).
    apply bind_Some in Hp as (b2 & _ & Hp). apply bind_Some in Hp as (b3 & _ & Hp). cbv zeta in Hp.
    case_decide; [by injection Hp as <- <- <-|]. case_decide; [by injection Hp as <- <- <-|].
    by apply IH in Hp.
  - intros (b4 & _ & Hp)%bind_Some. apply bind_Some in Hp as (b5 & _ & Hp). cbv zeta in Hp.
    case_decide; [|done]. injection Hp as <- <- <-. split; [done|]. by destruct (from_bytes _).
Qed.
End poll.

(** *** Encoding *)
Section encode.
Context `{PayloadCodec}.

Lemma encode_ok_inv v m bs :
  encode v m = Ok bs →
  ∃ p, to_allocvec m = Ok p ∧ 2 + Z.of_nat (length p) ≤ MAX_FRAME_BYTES ∧
    bs = le_bytes 4 (2 + Z.of_nat (length p)) ++ le_bytes 2 v ++ p.
Proof.
  unfold encode. destruct (to_allocvec m) as [p|[]]; simpl; [|done].
  unfold VERSION_FIELD. repeat case_decide; intros; simplify_eq.
  exists p. split_and!; [done|lia|done].
Qed.

Lemma frame_at_encoded v p rest :
  is_u16 v → 2 + Z.of_nat (length p) ≤ MAX_FRAME_BYTES →
  frame_at (le_bytes 4 (2 + Z.of_nat (length p)) ++ le_bytes 2 v ++ p ++ rest) = Complete v p rest.
Proof.
  intros Hv Hmax. assert (MAX_FRAME_BYTES = 1048576) as Hm by reflexivity.
  set (n := 2 + Z.of_nat (length p)) in *.
  assert (Hn : le_Z (le_bytes 4 n) = n).
  { apply le_Z_bytes_id. change (256 ^ Z.of_nat 4) with 4294967296. lia. }
  assert (Htake : ∀ x, take 4 (le_bytes 4 n ++ x) = le_bytes 4 n).
  { intros. apply take_app_length'. by rewrite length_le_bytes. }
  assert (Hdrop : ∀ x, drop 4 (le_bytes 4 n ++ x) = x).
  { intros. apply drop_app_length'. by rewrite length_le_bytes. }
  rewrite (app_assoc (le_bytes 2 v)), (app_assoc (le_bytes 4 n)).
  rewrite frame_at_complete.
  - f_equal. rewrite Hdrop. rewrite take_app_length' by (by rewrite length_le_bytes).
    apply le_Z_bytes_id. unfold is_u16, u16_max in Hv. change (256 ^ Z.of_nat 2) with 65536. lia.
  - rewrite Htake, Hn, !length_app, !length_le_bytes. lia.
  - rewrite Htake, Hn. lia.
Qed.

Lemma encode_frame v m bs rest :
  CodecLaws → is_u16 v → encode v m = Ok bs →
  ∃ p, frame_at (bs ++ rest) = Complete v p rest ∧ from_bytes p = Ok m.
Proof.
  intros Hlaws Hv (p & Hp & Hlen & ->)%encode_ok_inv. exists p.
  rewrite <- !app_assoc. split; [by apply frame_at_encoded|by apply codec_roundtrip].
Qed.

(** A sequence of frames, as a sender writes them. *)
Fixpoint encode_all (vms : list (ProtoVersion * Message)) : Result (list byte) :=
  match vms with
  | [] => Ok []
  | (v, m) :: vms => b ← encode v m; bs ← encode_all vms; Ok (b ++ bs)
  end.

Fixpoint write_frames (sock : send_script) (vms : list (ProtoVersion * Message))
    : Result unit * list byte :=
  match vms with
  | [] => (Ok tt, [])
  | (v, m) :: vms =>
      match write_frame sock v m with
      | (Err e, _, wire) => (Err e, wire)
      | (Ok _, sock, wire) =>
          let '(res, wires) := write_frames sock vms in (res, wire ++ wires)
      end
  end.

Lemma write_frame_ok sock v m sock' wire :
  write_frame sock v m = (Ok tt, sock', wire) → encode v m = Ok wire.
Proof.
  unfold write_frame. destruct (encode v m) as [bs|e]; [|done].
  destruct (send_all sock bs) as [[[[]|e] s] w] eqn:Hs; simpl; intros; simplify_eq.
  by apply send_all_ok in Hs as ->.
Qed.

Lemma write_frames_ok sock vms wire :
  write_frames sock vms = (Ok tt, wire) → encode_all vms = Ok wire.
Proof.
  revert sock wire. induction vms as [|[v m] vms IH]; intros sock wire; simpl; [by intros [= ->]|].
  destruct (write_frame sock v m) as [[[[]|e] s] w] eqn:Hw; [|done].
  destruct (write_frames s vms) as [res ws] eqn:Hws. intros [= -> <-].
  apply write_frame_ok in Hw as ->. apply IH in Hws as ->. done.
Qed.

Lemma spec_parse_encoded fuel vms bs :
  CodecLaws → Forall (λ vm, is_u16 vm.1) vms → encode_all vms = Ok bs →
  (length bs < fuel)%nat → spec_parse fuel bs = (vms, eof).
Proof.
  intros Hlaws Hv. revert fuel bs. induction Hv as [|[v m] vms Hvm Hvms IH]; intros fuel bs; simpl.
  { intros [= <-] Hf. destruct fuel; [simpl in Hf; lia|done]. }
  destruct (encode v m) as [b|] eqn:Hb; simpl; [|done].
  destruct (encode_all vms) as [bs'|] eqn:Hbs; simpl; [|done].
  intros [= <-] Hf. destruct fuel as [|fuel]; [lia|]. simpl.
  destruct (encode_frame v m b bs' Hlaws Hvm Hb) as (p & -> & ->).
  rewrite (IH fuel bs' eq_refl); [done|].
  apply encode_ok_inv in Hb as (p' & _ & _ & ->).
  rewrite !length_app, !length_le_bytes in Hf. lia.
Qed.

(** *** Polling until an error *)
Lemma deliver_spec fuel fuel' acc r :
  wf_acc acc → benign r → (reader_size r < fuel)%nat →
  (length (buf acc ++ stream_bytes r) < fuel')%nat →
  deliver fuel acc r =
    let '(ms, e) := spec_parse fuel' (buf acc ++ stream_bytes r) in (ms, Some e).
Proof.
  revert fuel' acc r. induction fuel as [|fuel IH]; intros fuel' acc r Hwf Hr Hf Hf'; [lia|].
  destruct fuel' as [|fuel']; [lia|]. cbn [deliver].
  destruct (poll_read_spec acc r Hwf) as (res & acc' & r' & -> & Hwf' & Hsz & Hlt & Hben).
  destruct (Hben Hr) as [Hr' Hres]. clear Hben. set (B := buf acc ++ stream_bytes r) in *.
  destruct res as [[[v m]|]|e].
  - destruct Hres as (p & Hframe & Hdec & Hbuf). cbn [spec_parse]. rewrite Hframe, Hdec.
    assert (length (stream_bytes r') < fuel')%nat.
    { unfold frame_at in Hframe. repeat case_decide; try done. injection Hframe as _ _ <-.
      rewrite length_drop. lia. }
    rewrite (IH fuel' acc' r'); rewrite ?Hbuf; simpl; [|done|done|lia|done].
    by destruct (spec_parse fuel' (stream_bytes r')).
  - rewrite (IH (S fuel') acc' r'); rewrite ?Hres; [done|done|done|lia|done].
  - cbn [spec_parse]. destruct Hres as [[-> ->]|[->|[-> (v & p & rest & -> & ->)]]]; done.
Qed.

(** *** One-shot reads of a stream without time-outs *)
Lemma read_exact_spec r k res r' :
  blocking r → read_exact r k = (res, r') →
  blocking r' ∧
  match res with
  | Ok bs => length bs = k ∧ stream_bytes r = bs ++ stream_bytes r'
  | Err e => e = io_from_kind UnexpectedEof ∧ (length (stream_bytes r) < k)%nat
  end.
Proof.
  intros Hr. revert k res r'.
  induction Hr as [|e r He Hr IH]; intros k res r'; simpl; case_decide as Hk.
  - intros [= <- <-]. split; [constructor|]. done.
  - intros [= <- <-]. split; [constructor|]. split; [done|]. unfold stream_bytes. simpl. lia.
  - intros [= <- <-]. split; [by constructor|]. done.
  - destruct e as [[|x bs]|e]; simpl in He; [done| |].
    + rewrite stream_bytes_cons. case_decide as Hle.
      * destruct (read_exact r (k - length (x :: bs))) as [res1 r1] eqn:Hread.
        intros [= <- <-]. apply IH in Hread as [Hr1 Hres]. split; [done|].
        destruct res1 as [bs1|e1]; simpl in *.
        -- destruct Hres as [Hl ->]. rewrite length_app. split; [simpl; lia|].
           by rewrite <- app_assoc.
        -- destruct Hres as [-> Hl]. rewrite length_app. simpl in *. split; [done|lia].
      * intros [= <- <-]. split.
        { constructor; [|done]. simpl. intros Hn%(f_equal length). rewrite length_drop in Hn.
          simpl in *. lia. }
        rewrite length_take. split; [lia|].
        by rewrite stream_bytes_cons, app_assoc, take_drop.
    + rewrite stream_bytes_cons, decide_True by done. simpl. apply IH.
Qed.
End encode.

Section oneshot.
Context `{PayloadCodec}.

Lemma frame_at_split lb vb p rest :
  length lb = 4%nat → length vb = 2%nat → 2 ≤ le_Z lb ≤ MAX_FRAME_BYTES →
  length p = (Z.to_nat (le_Z lb) - 2)%nat →
  frame_at (lb ++ vb ++ p ++ rest) = Complete (le_Z vb) p rest.
Proof.
  intros Hlb Hvb Hn Hp.
  assert (Htake : ∀ x, take 4 (lb ++ x) = lb) by (intros; by apply take_app_length').
  rewrite (app_assoc vb), (app_assoc lb). rewrite frame_at_complete.
  - rewrite !drop_app_length' by done. rewrite take_app_length' by done.
    replace 6%nat with (4 + 2)%nat by done.
    rewrite <- drop_drop, drop_app_length' by done. by rewrite drop_app_length'.
  - rewrite Htake, !length_app. lia.
  - by rewrite Htake.
Qed.

Lemma frame_at_truncated lb rest :
  length lb = 4%nat → 2 ≤ le_Z lb ≤ MAX_FRAME_BYTES →
  (length rest < Z.to_nat (le_Z lb))%nat → frame_at (lb ++ rest) = Incomplete.
Proof.
  intros Hlb Hn Hl. assert (Htake : take 4 (lb ++ rest) = lb) by by apply take_app_length'.
  apply frame_at_incomplete; rewrite ?Htake, ?length_app; [lia|done|lia].
Qed.

Lemma read_message_spec r res r' :
  blocking r → read_message r = (res, r') →
  match res with
  | Ok (v, m) => blocking r' ∧
      ∃ p, frame_at (stream_bytes r) = Complete v p (stream_bytes r') ∧ from_bytes p = Ok m
  | Err e =>
      (e = eof ∧ frame_at (stream_bytes r) = Incomplete) ∨
      frame_at (stream_bytes r) = BadLength e ∨
      (e = Codec ∧ ∃ v p rest,
         frame_at (stream_bytes r) = Complete v p rest ∧ from_bytes p = Err tt)
  end.
Proof.
  intros Hr. unfold read_message.
  destruct (read_exact r LEN_PREFIX) as [[lb|e] r1] eqn:H1;
    apply read_exact_spec in H1 as [Hr1 H1]; [|done| |done].
  2:{ destruct H1 as [-> Hl]. intros [= <- <-]. left. split; [done|]. by apply frame_at_short. }
  destruct H1 as [Hlb ->]. unfold VERSION_FIELD, LEN_PREFIX in *.
  case_decide as Hsmall; [|case_decide as Hlarge].
  { intros [= <- <-]. right. left. apply frame_at_bad; [done|]. by left. }
  { intros [= <- <-]. right. left. apply frame_at_bad; [done|]. by right. }
  assert (Hn : 2 ≤ le_Z lb ≤ MAX_FRAME_BYTES) by (change (Z.of_nat 2) with 2 in *; lia).
  destruct (read_exact r1 2) as [[vb|e] r2] eqn:H2;
    apply read_exact_spec in H2 as [Hr2 H2]; [|done| |done].
  2:{ destruct H2 as [-> Hl]. intros [= <- <-]. left. split; [done|].
      apply frame_at_truncated; [done|done|lia]. }
  destruct H2 as [Hvb ->].
  destruct (read_exact r2 _) as [[p|e] r3] eqn:H3;
    apply read_exact_spec in H3 as [Hr3 H3]; [|done| |done].
  2:{ destruct H3 as [-> Hl]. intros [= <- <-]. left. split; [done|].
      apply frame_at_truncated; [done|done|]. rewrite length_app. lia. }
  destruct H3 as [Hp ->]. rewrite frame_at_split by done.
  destruct (from_bytes p) as [m|[]] eqn:Hdec; intros [= <- <-]; [eauto|].
  right. right. eauto 7.
Qed.

Lemma deliver_oneshot_spec fuel r :
  blocking r → (length (stream_bytes r) < fuel)%nat →
  deliver_oneshot fuel r =
    let '(ms, e) := spec_parse fuel (stream_bytes r) in (ms, Some e).
Proof.
  revert r. induction fuel as [|fuel IH]; intros r Hr Hf; [lia|]. cbn [deliver_oneshot spec_parse].
  destruct (read_message r) as [res r'] eqn:Hread. apply read_message_spec in Hread; [|done].
  destruct res as [[v m]|e].
  - destruct Hread as (Hr' & p & Hframe & Hdec). rewrite Hframe, Hdec.
    rewrite (IH r'); [by destruct (spec_parse fuel (stream_bytes r'))|done|].
    unfold frame_at in Hframe. repeat case_decide; try done. injection Hframe as _ _ <-.
    rewrite length_drop. lia.
  - destruct Hread as [[-> ->]|[->|[-> (v & p & rest & -> & ->)]]]; done.
Qed.
End oneshot.

(** ** A codec to run the readers with: heartbeats only *)
Module Demo.
#[export] Instance heartbeat_codec : PayloadCodec := {|
  to_allocvec m :=
    match m with
    | Heartbeat ts => if decide (is_u64 ts) then Ok (le_bytes 8 ts) else Err tt
    | _ => Err tt
    end;
  from_bytes bs :=
    if decide (length bs = 8%nat) then Ok (Heartbeat (le_Z bs)) else Err tt
|}.

#[export] Instance heartbeat_codec_laws : CodecLaws.
Proof.
  constructor. intros [] bs; cbn [to_allocvec from_bytes heartbeat_codec]; try done.
  case_decide as Hts; [|done]. intros Heq.
  assert (bs = le_bytes 8 ts_ms) as -> by congruence. rewrite decide_True by apply length_le_bytes.
  rewrite le_Z_bytes_id; [done|]. unfold is_u64, u64_max in Hts.
  change (256 ^ Z.of_nat 8) with 18446744073709551616. lia.
Qed.

(** A frame cut in three by two receive time-outs. *)
Definition frame1 : list byte :=
  match encode 1 (Heartbeat 7) with Ok bs => bs | Err _ => [] end.
Definition timeout_event : read_event := RFail (io_from_errno EAGAIN).
Definition split_stream : reader :=
  [RData (take 2 frame1); timeout_event; RData (take 1 (drop 2 frame1)); timeout_event;
   RData (drop 3 frame1)].
End Demo.

(** Decides the side conditions of the witnesses. *)
Ltac solve_events :=
  repeat (apply List.Forall_nil || apply List.Forall_cons); vm_compute;
  first [done | discriminate | by left | by right].

(** ** Theorems *)

(** C14: frames written by [write_frame] and read back through a
    [FrameAccumulator] arrive intact and in order, then end of file, whatever
    way the sending kernel splits the writes and the receiving kernel splits,
    interrupts or times out the reads. *)
Theorem frames_survive_transport `{PayloadCodec} sock vms wire r :
  CodecLaws →
  Forall (λ vm, is_u16 vm.1) vms →
  write_frames sock vms = (Ok tt, wire) →
  benign r → stream_bytes r = wire →
  deliver (S (reader_size r)) acc_new r = (vms, Some eof).
Proof.
  intros Hlaws Hv Hw Hr Hbytes. apply write_frames_ok in Hw.
  rewrite (deliver_spec _ (S (length wire))); [|apply wf_acc_new|done|lia|simpl; rewrite Hbytes; lia].
  simpl app. rewrite Hbytes. by rewrite (spec_parse_encoded _ vms) by (done || lia).
Qed.

Lemma frames_survive_transport_witness :
  @deliver Demo.heartbeat_codec (S (reader_size Demo.split_stream)) acc_new Demo.split_stream
  = ([(1, Heartbeat 7)], Some eof).
Proof.
  apply (frames_survive_transport [Sent 5; SendFailed EINTR; Sent 100]
           [(1, Heartbeat 7)] Demo.frame1).
  - apply Demo.heartbeat_codec_laws.
  - solve_events.
  - vm_compute. reflexivity.
  - solve_events.
  - vm_compute. reflexivity.
Defined.

(** [FrameAccumulator::poll_read] always returns — it neither panics nor
    loops — on any accumulator reachable through its own methods and any
    stream whatsoever, and leaves such an accumulator. *)
Theorem poll_read_total `{PayloadCodec} acc r :
  wf_acc acc → ∃ res acc' r', poll_read acc r = Some (res, acc', r') ∧ wf_acc acc'.
Proof.
  intros Hwf. destruct (poll_read_spec acc r Hwf) as (res & acc' & r' & Hp & Hwf' & _). eauto.
Qed.

Lemma poll_read_total_witness :
  wf_acc acc_default ∧
  ∃ res acc' r', @poll_read Demo.heartbeat_codec acc_default [RData (le_bytes 4 1); RFail (io_from_errno EPIPE)]
                 = Some (res, acc', r') ∧ wf_acc acc'.
Proof.
  assert (Hwf : wf_acc acc_default) by (left; done).
  split; [exact Hwf|].
  apply (poll_read_total acc_default [RData (le_bytes 4 1); RFail (io_from_errno EPIPE)] Hwf).
Defined.

(** C27: the resumable reader is equivalent to the one-shot reader: on any
    stream with interruptions and receive time-outs it delivers exactly the
    messages and the final error [read_message] gives on a time-out-free
    stream of the same bytes, however the two are segmented. *)
Theorem accumulator_equiv_read_message `{PayloadCodec} r r2 :
  benign r → blocking r2 → stream_bytes r = stream_bytes r2 →
  deliver (S (reader_size r)) acc_new r =
  deliver_oneshot (S (length (stream_bytes r2))) r2.
Proof.
  intros Hr Hr2 Hb.
  rewrite (deliver_spec _ (S (length (stream_bytes r2)))); [|apply wf_acc_new|done|lia|simpl; rewrite Hb; lia].
  rewrite deliver_oneshot_spec by (done || lia). simpl app. by rewrite Hb.
Qed.

Lemma accumulator_equiv_read_message_witness :
  @deliver Demo.heartbeat_codec (S (reader_size Demo.split_stream)) acc_new Demo.split_stream =
  @deliver_oneshot Demo.heartbeat_codec (S (length (stream_bytes [RData Demo.frame1]))) [RData Demo.frame1].
Proof.
  apply accumulator_equiv_read_message.
  - solve_events.
  - solve_events.
  - vm_compute. reflexivity.
Defined.

(** Without the accumulator a time-out loses the stream: on a frame cut by
    two receive time-outs, [read_message] retried after each time-out reports
    an absurd frame length, while the accumulator delivers the message. *)
Theorem read_message_desynchronizes :
  let '(e1, r1) := @read_message Demo.heartbeat_codec Demo.split_stream in
  let '(e2, r2) := @read_message Demo.heartbeat_codec r1 in
  let '(e3, _) := @read_message Demo.heartbeat_codec r2 in
  e1 = Err (Io (io_from_errno EAGAIN)) ∧ e2 = Err (Io (io_from_errno EAGAIN)) ∧
  e3 = Err (FrameTooLarge 117440768) ∧
  (@deliver Demo.heartbeat_codec 10 acc_new Demo.split_stream).1 = [(1, Heartbeat 7)].
Proof. vm_compute. done. Qed.

(** C33: [encode] bounds the frame: it succeeds exactly when the payload and
    the version field fit in [MAX_FRAME_BYTES], the frame is then the length
    of its announced body plus four, and [read_message] and the accumulator
    read the same bound. *)
Theorem encode_bounded `{PayloadCodec} v m p :
  to_allocvec m = Ok p →
  (is_ok (encode v m) = true ↔ 2 + Z.of_nat (length p) ≤ MAX_FRAME_BYTES) ∧
  (∀ bs, encode v m = Ok bs →
     Z.of_nat (length bs) = 6 + Z.of_nat (length p) ∧ le_Z (take 4 bs) = 2 + Z.of_nat (length p) ∧
     Z.of_nat (length bs) ≤ 4 + MAX_FRAME_BYTES).
Proof.
  intros Hp. assert (MAX_FRAME_BYTES = 1048576) as Hm by reflexivity. split.
  - unfold encode. rewrite Hp. simpl. unfold VERSION_FIELD, usize_max, u64_max.
    change (Z.of_nat 2) with 2. repeat case_decide; simpl; split; intros; try done; lia.
  - intros bs (p' & Hp' & Hlen & ->)%encode_ok_inv. rewrite Hp in Hp'. injection Hp' as <-.
    rewrite !length_app, !length_le_bytes. split_and!; [lia| |lia].
    rewrite take_app_length' by (by rewrite length_le_bytes).
    apply le_Z_bytes_id. change (256 ^ Z.of_nat 4) with 4294967296. lia.
Qed.

Lemma encode_bounded_witness :
  is_ok (encode (H := Demo.heartbeat_codec) 1 (Heartbeat 7)) = true.
Proof.
  apply (encode_bounded 1 (Heartbeat 7) (le_bytes 8 7)); vm_compute; done.
Defined.
