(* ===== verification/PlainCodec.v ===== *)
(** * A codec of the messages, for the witnesses

    [postcard] is a dependency, so the development is generic in the codec;
    this one, fixed-width integers and length prefixes, shows that the laws
    and the totality the theorems ask of it can hold together.  Nothing of the
    program is modelled here. *)
From stdpp Require Import base tactics option list numbers strings.
From S2P Require Import Prelude Errors Protocol Sock Frame.
Local Open Scope Z_scope.

(** ** Formats: a printer and the parser that undoes it *)
Class Format (A : Type) : Type := {
  put : A → option (list byte);
  get : list byte → option (A * list byte);
  get_put x bs rest : put x = Some bs → get (bs ++ rest) = Some (x, rest)
}.

Definition get_width (w : nat) (bs : list byte) : option (Z * list byte) :=
  if decide (w ≤ length bs)%nat then Some (le_Z (take w bs), drop w bs) else None.

Lemma get_width_put w z rest :
  0 ≤ z < 256 ^ Z.of_nat w → get_width w (le_bytes w z ++ rest) = Some (z, rest).
Proof.
  intros Hz. unfold get_width. rewrite decide_True by (rewrite length_app, length_le_bytes; lia).
  rewrite take_app_length', drop_app_length' by (by rewrite length_le_bytes). by rewrite le_Z_bytes_id.
Qed.

#[local] Obligation Tactic := idtac.

(** Integers of [w] bytes. *)
Program Definition format_width (w : nat) : Format Z := {|
  put z := if decide (0 ≤ z < 256 ^ Z.of_nat w) then Some (le_bytes w z) else None;
  get := get_width w
|}.
Next Obligation.
  intros w z bs rest Hput. cbv beta in Hput. case_decide; [|done]. injection Hput as <-.
  by apply get_width_put.
Qed.

(** A format through a partial retraction. *)
Program Definition format_via {A B} (F : Format B) (f : A → B) (g : B → A) (gf : ∀ x, g (f x) = x)
    : Format A := {|
  put x := put (f x);
  get bs := '(y, rest) ← get bs; Some (g y, rest)
|}.
Next Obligation.
  intros A B F f g gf x bs rest Hput. cbv beta in *. rewrite (get_put _ _ _ Hput). simpl. by rewrite gf.
Qed.

#[export] Instance format_u64 : Format Z := format_width 8.
#[export] Program Instance format_id : Format HandoffId :=
  format_via (format_width 16) (λ id, Z.of_N (uuid id)) (λ z, mkHandoffId (Z.to_N z)) _.
Next Obligation. intros [n]. simpl. by rewrite N2Z.id. Qed.

#[export] Program Instance format_byte : Format byte := {|
  put b := Some [b];
  get bs := match bs with b :: rest => Some (b, rest) | [] => None end
|}.
Next Obligation. by intros b bs rest [= <-]. Qed.

#[export] Program Instance format_bool : Format bool :=
  format_via format_byte (λ b, if b : bool then Byte.x01 else Byte.x00) (λ y, bool_decide (y = Byte.x01)) _.
Next Obligation. by intros []. Qed.

#[export] Program Instance format_side : Format Side :=
  format_via format_bool (λ s, bool_decide (s = Incumbent)) (λ b, if b : bool then Incumbent else Successor) _.
Next Obligation. by intros []. Qed.

#[export] Program Instance format_pair {A B} `{Format A, Format B} : Format (A * B) := {|
  put p := a ← put p.1; b ← put p.2; Some (a ++ b);
  get bs := '(x, bs) ← get bs; '(y, bs) ← get bs; Some ((x, y), bs)
|}.
Next Obligation.
  intros A B FA FB [x y] bs rest. simpl. intros (a & Ha & (b & Hb & [= <-])%bind_Some)%bind_Some.
  rewrite <- app_assoc, (get_put _ _ _ Ha). simpl. by rewrite (get_put _ _ _ Hb).
Qed.

(** Lists are prefixed with their length. *)
Section lists.
Context `{Format A}.

Fixpoint put_all (l : list A) : option (list byte) :=
  match l with [] => Some [] | x :: l => a ← put x; b ← put_all l; Some (a ++ b) end.
Fixpoint get_all (n : nat) (bs : list byte) : option (list A * list byte) :=
  match n with
  | O => Some ([], bs)
  | S n => '(x, bs) ← get bs; '(l, bs) ← get_all n bs; Some (x :: l, bs)
  end.

Lemma get_put_all l bs rest : put_all l = Some bs → get_all (length l) (bs ++ rest) = Some (l, rest).
Proof.
  revert bs. induction l as [|x l IH]; intros bs; simpl; [by intros [= <-]|].
  intros (a & Ha & (b & Hb & [= <-])%bind_Some)%bind_Some.
  rewrite <- app_assoc, (get_put _ _ _ Ha). simpl. by rewrite (IH _ Hb).
Qed.

#[export] Program Instance format_list : Format (list A) := {|
  put l := n ← put (Z.of_nat (length l)); bs ← put_all l; Some (n ++ bs);
  get bs := '(n, bs) ← get bs; get_all (Z.to_nat n) bs
|}.
Next Obligation.
  intros l bs rest. cbv beta. intros (n & Hn & (b & Hb & [= <-])%bind_Some)%bind_Some.
  rewrite <- app_assoc, (get_put _ _ _ Hn). simpl. rewrite Nat2Z.id. by apply get_put_all.
Qed.
End lists.

#[export] Program Instance format_string : Format string :=
  format_via format_list (λ s, Ascii.byte_of_ascii <$> chars s)
    (λ bs, of_chars (Ascii.ascii_of_byte <$> bs)) _.
Next Obligation.
  intros s. cbv beta. rewrite <- list_fmap_compose.
  rewrite (list_fmap_ext _ id); [|intros; apply Ascii.ascii_of_byte_of_ascii].
  rewrite list_fmap_id. apply String.string_of_list_ascii_of_string.
Qed.

(** A capability set is its reserved word. *)
#[export] Program Instance format_caps : Format Capabilities :=
  format_via format_u64 reserved (λ z, {| reserved := z |}) _.
Next Obligation. by intros []. Qed.

(** ** Sizes *)
Definition fits {A} `{Format A} (n : Z) (x : A) : Prop :=
  ∃ bs, put x = Some bs ∧ Z.of_nat (length bs) ≤ n.

Lemma fits_u64 (z : Z) : is_u64 z → fits 8 z.
Proof.
  intros Hz. exists (le_bytes 8 z). split; [|by rewrite length_le_bytes].
  cbn. rewrite decide_True; [done|]. unfold is_u64, u64_max in Hz.
  change (256 ^ Z.of_nat 8) with 18446744073709551616. lia.
Qed.
Lemma fits_byte (b : byte) : fits 1 b.
Proof. by exists [b]. Qed.
Lemma fits_bool (b : bool) : fits 1 b.
Proof. by exists [if b then Byte.x01 else Byte.x00]. Qed.
Lemma fits_side (s : Side) : fits 1 s.
Proof. apply (fits_bool (bool_decide (s = Incumbent))). Qed.
Lemma fits_pair `{Format A, Format B} a b (x : A) (y : B) : fits a x → fits b y → fits (a + b) (x, y).
Proof.
  intros (bx & Hx & Hlx) (by_ & Hy & Hly). exists (bx ++ by_). simpl. rewrite Hx. simpl. rewrite Hy.
  rewrite length_app. split; [done|lia].
Qed.
Lemma fits_list `{Format A} n k (l : list A) :
  0 ≤ n → (length l ≤ k)%nat → Z.of_nat k < 2 ^ 64 → Forall (fits n) l → fits (8 + Z.of_nat k * n) l.
Proof.
  intros Hn Hk Hmax Hl.
  destruct (fits_u64 (Z.of_nat (length l))) as (bn & Hbn & Hln); [unfold is_u64, u64_max; lia|].
  assert (∃ bs, put_all l = Some bs ∧ Z.of_nat (length bs) ≤ Z.of_nat (length l) * n) as (bs & Hbs & Hlb).
  { clear -Hl Hn. induction Hl as [|x l (a & Ha & Hla) _ (b & Hb & Hlb)]; [by exists []|].
    exists (a ++ b). simpl. rewrite Ha. simpl. rewrite Hb, length_app. split; [done|]. lia. }
  exists (bn ++ bs). rewrite length_app. split; [|nia].
  change (put l) with (n ← put (Z.of_nat (length l)); b ← put_all l; Some (n ++ b)).
  rewrite Hbn. simpl. by rewrite Hbs.
Qed.
Lemma fits_le `{Format A} m n (x : A) : fits m x → m ≤ n → fits n x.
Proof. intros (b & Hb & Hl) Hn. exists b. split; [done|lia]. Qed.

(** ** The messages *)
Definition fields (m : Message) : byte * option (list byte) :=
  match m with
  | Hello role pid build_id lo hi caps => (Byte.x00, put (role, (pid, (build_id, (lo, (hi, caps))))))
  | HelloAck v id => (Byte.x01, put (v, id))
  | PrepareHandoff id pid dl dg => (Byte.x02, put (id, (pid, (dl, dg))))
  | Drained n c => (Byte.x03, put (n, c))
  | SealRequest id => (Byte.x04, put id)
  | SealProgress s t r => (Byte.x05, put (s, (t, r)))
  | SealComplete id revs fp => (Byte.x06, put (id, (revs, fp)))
  | SealFailed id e p => (Byte.x07, put (id, (e, p)))
  | Begin id => (Byte.x08, put id)
  | Ready id lo hz revs => (Byte.x09, put (id, (lo, (hz, revs))))
  | Commit id => (Byte.x0a, put id)
  | Abort id r => (Byte.x0b, put (id, r))
  | ResumeAfterAbort id => (Byte.x0c, put id)
  | Heartbeat ts => (Byte.x0d, put ts)
  end.

(** The parser of a variant's fields; the payload must end with them. *)
Definition whole {A} `{Format A} (f : A → Message) (bs : list byte) : option Message :=
  '(x, rest) ← get bs; match rest with [] => Some (f x) | _ => None end.

Definition parse_fields (tag : byte) : list byte → option Message :=
  match tag with
  | Byte.x00 => whole (λ '(role, (pid, (build_id, (lo, (hi, caps))))), Hello role pid build_id lo hi caps)
  | Byte.x01 => whole (λ '(v, id), HelloAck v id)
  | Byte.x02 => whole (λ '(id, (pid, (dl, dg))), PrepareHandoff id pid dl dg)
  | Byte.x03 => whole (λ '(n, c), Drained n c)
  | Byte.x04 => whole SealRequest
  | Byte.x05 => whole (λ '(s, (t, r)), SealProgress s t r)
  | Byte.x06 => whole (λ '(id, (revs, fp)), SealComplete id revs fp)
  | Byte.x07 => whole (λ '(id, (e, p)), SealFailed id e p)
  | Byte.x08 => whole Begin
  | Byte.x09 => whole (λ '(id, (lo, (hz, revs))), Ready id lo hz revs)
  | Byte.x0a => whole Commit
  | Byte.x0b => whole (λ '(id, r), Abort id r)
  | Byte.x0c => whole ResumeAfterAbort
  | Byte.x0d => whole Heartbeat
  | _ => λ _, None
  end.

Lemma whole_put {A} `{Format A} (f : A → Message) x bs : put x = Some bs → whole f bs = Some (f x).
Proof.
  intros Hput. pose proof (get_put x bs [] Hput) as Hget. rewrite app_nil_r in Hget.
  unfold whole. by rewrite Hget.
Qed.

#[export] Instance plain_codec : PayloadCodec := {|
  to_allocvec m := match (fields m).2 with Some bs => Ok ((fields m).1 :: bs) | None => Err tt end;
  from_bytes bs :=
    match bs with
    | tag :: bs => match parse_fields tag bs with Some m => Ok m | None => Err tt end
    | [] => Err tt
    end
|}.

#[export] Instance plain_codec_laws : CodecLaws.
Proof.
  constructor. intros m bs. cbn [to_allocvec from_bytes plain_codec].
  destruct (fields m).2 as [p|] eqn:Hp; [|done]. intros [= <-].
  assert (parse_fields (fields m).1 p = Some m) as ->; [|done].
  destruct m; exact (whole_put _ _ _ Hp).
Qed.

Lemma fits_encodes m n : (∃ bs, (fields m).2 = Some bs ∧ Z.of_nat (length bs) ≤ n) →
  n + 3 ≤ MAX_FRAME_BYTES → ∃ bs, to_allocvec m = Ok bs ∧ 2 + Z.of_nat (length bs) ≤ MAX_FRAME_BYTES.
Proof.
  intros (bs & Hbs & Hlen) Hn. exists ((fields m).1 :: bs). cbn [to_allocvec plain_codec].
  rewrite Hbs. split; [done|]. cbn [length]. lia.
Qed.
