(* ===== verification/FrameTests.v ===== *)
(** * The unit tests of [crates/handoff/src/frame.rs], on the model

    Each [#[test]] is a definition that runs the model the way the test runs
    the code: [true] is a test that passes, [false] one that panics.  They
    pass for every codec that is lawful and encodes the test's messages. *)
From stdpp Require Import base tactics option list numbers strings.
From S2P Require Import Prelude Errors Protocol Sock Frame PlainCodec.
Local Open Scope Z_scope.

(** [Cursor<Vec<u8>>] *)
Definition cursor (bs : list byte) : reader := [RData bs].

Definition is_too_large (r : Result (ProtoVersion * Message)) : bool :=
  match r with Err (FrameTooLarge _) => true | _ => false end.

Section tests.
Context `{PayloadCodec}.

(** The bytes [write_message] appends to an empty [Vec]; [None] is the
    [unwrap] that panics. *)
Definition written (msg : Message) : option (list byte) :=
  match write_message [] PROTO_MAX msg with Ok buf => Some buf | Err _ => None end.

Definition roundtrip (msg : Message) : option Message :=
  buf ← written msg;
  match (read_message (cursor buf)).1 with
  | Ok (ver, decoded) => if decide (ver = PROTO_MAX) then Some decoded else None
  | Err _ => None
  end.

Definition hello_msg : Message :=
  Hello Incumbent 1234 (replicate 20 (byte_of_Z 171)) PROTO_MIN PROTO_MAX Capabilities_default.
Definition roundtrip_hello : bool :=
  match roundtrip hello_msg with Some (Hello _ b _ _ _ _) => bool_decide (1234 = b) | _ => false end.

Definition seal_msg (id : HandoffId) (revs : list Z) (fill : Z) : Message :=
  SealComplete id revs (replicate 32 (byte_of_Z fill)).
Definition roundtrip_seal_complete (id : HandoffId) : bool :=
  match roundtrip (seal_msg id [10; 20; 30] 7) with
  | Some (SealComplete handoff_id last_revision_per_shard data_dir_fingerprint) =>
      bool_decide (handoff_id = id) && bool_decide (last_revision_per_shard = [10; 20; 30]) &&
      bool_decide (data_dir_fingerprint = replicate 32 (byte_of_Z 7))
  | _ => false
  end.

(** *** Refused lengths and truncated frames *)
Definition rejects_oversize_frame_on_read : bool :=
  is_too_large (read_message (cursor (le_bytes 4 (MAX_FRAME_BYTES + 1)))).1.
Definition rejects_undersize_frame_on_read : bool :=
  match (read_message (cursor (le_bytes 4 1))).1 with Err (FrameMalformed _) => true | _ => false end.
Definition rejects_frame_exactly_at_max_plus_one : bool :=
  match (read_message (cursor (le_bytes 4 (MAX_FRAME_BYTES + 1)))).1 with
  | Err (FrameTooLarge n) => bool_decide (n = MAX_FRAME_BYTES + 1)
  | _ => false
  end.
Definition truncated_frame_after_len_is_err_not_panic : bool :=
  negb (is_ok (read_message (cursor (le_bytes 4 128))).1).
Definition truncated_frame_after_version_is_err_not_panic : bool :=
  negb (is_ok (read_message (cursor (le_bytes 4 128 ++ le_bytes 2 1))).1).

(** *** A reader that times out after every chunk *)
Record ChunkedTimeoutReader : Type := mkChunked { chunks : list (list byte); pending_timeout : bool }.
Definition chunked_new (cs : list (list byte)) : ChunkedTimeoutReader := mkChunked cs false.
Definition timed_out : IoError := io_from_kind TimedOut.

Definition chunked_read (r : ChunkedTimeoutReader) (k : nat)
    : result IoError (list byte) * ChunkedTimeoutReader :=
  match pending_timeout r, chunks r with
  | true, cs | _, ([] as cs) => (Err timed_out, mkChunked cs false)
  | false, chunk :: cs =>
      let n := (length chunk `min` k)%nat in
      if decide (n < length chunk)%nat then (Ok (take n chunk), mkChunked (drop n chunk :: cs) false)
      else (Ok (take n chunk), mkChunked cs true)
  end.

(** As the events of [Frame.reader]: [n] more time-outs after the last chunk. *)
Definition chunked_events (r : ChunkedTimeoutReader) (n : nat) : reader :=
  (if pending_timeout r then [RFail timed_out] else []) ++
  (chunks r ≫= λ c, [RData c; RFail timed_out]) ++ replicate n (RFail timed_out).

(** What the four polls of the test see. *)
Definition accumulator_resumes_a_frame_split_across_timeouts (id : HandoffId) : bool :=
  match written (seal_msg id [1; 2; 3] 9) with
  | None => false
  | Some bytes =>
      let r := chunked_events (chunked_new [take 2 bytes; take 5 (drop 2 bytes); drop 7 bytes]) 1 in
      match poll_read acc_new r with
      | Some (Ok None, acc, r) =>
          has_partial acc &&
          match poll_read acc r with
          | Some (Ok None, acc, r) =>
              has_partial acc &&
              match poll_read acc r with
              | Some (Ok (Some (ver, SealComplete _ _ _)), acc, r) =>
                  bool_decide (ver = PROTO_MAX) && negb (has_partial acc) &&
                  match poll_read acc r with
                  | Some (Ok None, acc, _) => negb (has_partial acc)
                  | _ => false
                  end
              | _ => false
              end
          | _ => false
          end
      | _ => false
      end
  end.

(** [match acc.poll_read(..) { Some((_, Heartbeat { ts_ms })) => assert_eq!(ts_ms, expected), .. }] *)
Definition expect_heartbeat (expected : Z) (acc : FrameAccumulator) (r : reader)
    : option (FrameAccumulator * reader) :=
  match poll_read acc r with
  | Some (Ok (Some (_, Heartbeat ts_ms)), acc, r) => if decide (ts_ms = expected) then Some (acc, r) else None
  | _ => None
  end.
Definition accumulator_decodes_back_to_back_frames_from_one_chunk : bool :=
  match b1 ← written (Heartbeat 1); b2 ← written (Heartbeat 2);
        '(acc, r) ← expect_heartbeat 1 acc_new (cursor (b1 ++ b2)); expect_heartbeat 2 acc r
  with Some _ => true | None => false end.

Definition accumulator_rejects_malformed_length_and_resets : bool :=
  match poll_read acc_new (cursor (le_bytes 4 (MAX_FRAME_BYTES + 1) ++ le_bytes 4 1)) with
  | Some (Err (FrameTooLarge _), acc, _) => negb (has_partial acc)
  | _ => false
  end.

Definition accumulator_reports_eof_mid_frame : bool :=
  match written (Heartbeat 1) with
  | Some bytes =>
      match poll_read acc_new (cursor (take (length bytes - 1) bytes)) with
      | Some (Err (Io e), _, _) => bool_decide (kind e = UnexpectedEof)
      | _ => false
      end
  | None => false
  end.

(** *** The property tests

    [read_message] is total here; what can panic is an index in [poll_read]. *)
Definition read_message_never_panics_on_arbitrary_bytes (bytes : list byte) : bool :=
  match poll_read acc_new (cursor bytes) with Some _ => true | None => false end.

(** What [declared_length_is_honored] reads. *)
Definition declared_buf (declared : Z) (body : list byte) : list byte :=
  le_bytes 4 declared ++ take (Z.to_nat declared `min` length body) body.

Definition declared_length_is_honored (declared : Z) (body : list byte)
    : Result (ProtoVersion * Message) := (read_message (cursor (declared_buf declared body))).1.

Definition roundtrip_all_variants (msg : Message) : bool :=
  match written msg with
  | Some buf =>
      match (read_message (cursor buf)).1 with
      | Ok (ver, decoded) =>
          bool_decide (ver = PROTO_MAX) && bool_decide (written decoded = Some buf)
      | Err _ => false
      end
  | None => false
  end.
End tests.

(** The strategy: every variant, with arbitrary payloads. *)
Definition lower (a : Ascii.ascii) : bool := (97 <=? Ascii.nat_of_ascii a)%nat && (Ascii.nat_of_ascii a <=? 122)%nat.
Definition reason_char (a : Ascii.ascii) : bool :=
  let n := Ascii.nat_of_ascii a in
  lower a || ((65 <=? n)%nat && (n <=? 90)%nat) || ((48 <=? n)%nat && (n <=? 57)%nat) ||
  bool_decide (n ∈ [32; 95; 45]%nat).
Definition reason_string (s : string) : Prop :=
  (String.length s ≤ 64)%nat ∧ Forall (λ a, reason_char a = true) (chars s).
Definition any_revisions (revs : list Z) : Prop := (length revs < 16)%nat ∧ Forall is_u64 revs.
Definition any_id (id : HandoffId) : Prop := (uuid id < 2 ^ 128)%N.
Definition listener_name (s : string) : Prop :=
  (1 ≤ String.length s ≤ 8)%nat ∧ Forall (λ a, lower a = true) (chars s).

Definition arb_message (m : Message) : Prop :=
  match m with
  | Hello _ pid build_id lo hi caps =>
      is_u32 pid ∧ (length build_id < 64)%nat ∧ lo = PROTO_MIN ∧ hi = PROTO_MAX ∧ caps = Capabilities_default
  | HelloAck v id => v = PROTO_MAX ∧ any_id id
  | PrepareHandoff id pid dl dg => any_id id ∧ is_u32 pid ∧ is_u64 dl ∧ is_u64 dg
  | Drained n _ => is_u32 n
  | SealRequest id | Begin id | Commit id | ResumeAfterAbort id => any_id id
  | SealProgress s t r => is_u32 s ∧ is_u32 t ∧ is_u64 r
  | SealComplete id revs fp => any_id id ∧ any_revisions revs ∧ length fp = 32%nat
  | SealFailed id e p => any_id id ∧ reason_string e ∧ reason_string p
  | Ready id listening_on _ revs =>
      any_id id ∧ (length listening_on < 4)%nat ∧ Forall listener_name listening_on ∧ any_revisions revs
  | Abort id reason => any_id id ∧ reason_string reason
  | Heartbeat ts => is_u64 ts
  end.

(** ** Lemmas *)
Lemma cursor_blocking bs : bs ≠ [] → blocking (cursor bs).
Proof. intros Hbs. apply Forall_singleton. exact Hbs. Qed.
Lemma stream_bytes_cursor bs : stream_bytes (cursor bs) = bs.
Proof. unfold cursor. rewrite stream_bytes_cons. by rewrite app_nil_r. Qed.

(** The events stand for the reader: a read of one is a read of the other. *)
Lemma chunked_read_events r n k :
  ∃ n', (n ≤ n')%nat ∧
    read (chunked_events r (S n)) k = ((chunked_read r k).1, chunked_events (chunked_read r k).2 n').
Proof.
  destruct r as [[|chunk cs] []]; unfold chunked_events, chunked_read; simpl;
    [by exists (S n); split; [lia|]|by exists n|by exists (S n); split; [lia|]|].
  exists (S n). split; [lia|]. case_decide as Hk; simpl.
  - rewrite Nat.min_r by lia. rewrite Nat.min_r in Hk by lia.
    destruct (drop k chunk) eqn:Hd; [|done].
    apply (f_equal length) in Hd. rewrite length_drop in Hd. simpl in Hd. lia.
  - rewrite Nat.min_l by lia. by rewrite take_ge, (take_ge chunk), drop_ge by lia.
Qed.

Section lemmas.
Context `{PayloadCodec}.

(** The one-shot reader on a written frame. *)
Lemma roundtrip_written m :
  CodecLaws → is_Some (written m) → roundtrip m = Some m.
Proof.
  intros Hlaws [b Hb]. unfold roundtrip. rewrite Hb. simpl.
  unfold written, write_message in Hb. destruct (encode PROTO_MAX m) as [bs|] eqn:Henc; [|done].
  injection Hb as <-.
  destruct (encode_frame PROTO_MAX m bs [] Hlaws ltac:(done) Henc) as (p & Hframe & Hdec).
  rewrite app_nil_r in Hframe.
  assert (bs ≠ []) as Hne by (intros ->; done).
  destruct (read_message (cursor bs)) as [res r'] eqn:Hread.
  apply read_message_spec in Hread; [|by apply cursor_blocking]. rewrite stream_bytes_cursor in Hread.
  destruct res as [[v m']|e].
  - destruct Hread as (_ & p' & Hf & Hd). rewrite Hframe in Hf. simplify_eq. simpl.
    rewrite Hdec in Hd. by simplify_eq.
  - destruct Hread as [[_ Hf]|[Hf|[_ (v & q & rest & Hf & Hq)]]]; congruence.
Qed.

Lemma written_inv m bs :
  written m = Some bs →
  ∃ p, to_allocvec m = Ok p ∧ 2 + Z.of_nat (length p) ≤ MAX_FRAME_BYTES ∧
    bs = le_bytes 4 (2 + Z.of_nat (length p)) ++ le_bytes 2 PROTO_MAX ++ p.
Proof.
  unfold written, write_message. destruct (encode PROTO_MAX m) as [b|] eqn:Henc; [|done].
  intros [= <-]. by apply encode_ok_inv in Henc.
Qed.

(** A poll that meets a written frame, whole or cut short. *)
Lemma poll_written m bs acc r rest :
  CodecLaws → written m = Some bs → wf_acc acc → blocking r →
  buf acc ++ stream_bytes r = bs ++ rest →
  ∃ acc' r', poll_read acc r = Some (Ok (Some (PROTO_MAX, m)), acc', r') ∧
    wf_acc acc' ∧ blocking r' ∧ buf acc' = [] ∧ stream_bytes r' = rest.
Proof.
  intros Hlaws (p & Hp & Hlen & ->)%written_inv Hwf Hr Hbytes.
  destruct (poll_read_spec acc r Hwf) as (res & acc' & r' & Hpoll & Hwf' & _ & _ & Hben).
  destruct (Hben (blocking_benign _ Hr)) as [_ Hres].
  destruct (poll_read_blocking _ _ _ _ _ Hr Hpoll) as [Hr' Hno].
  rewrite Hbytes, <- !app_assoc, frame_at_encoded in Hres by done.
  apply codec_roundtrip in Hp. destruct res as [[[v m']|]|e]; [|done|].
  - destruct Hres as (q & Hq & Hdec & Hbuf). injection Hq as <- <- ->.
    rewrite Hp in Hdec. injection Hdec as <-. eauto 10.
  - destruct Hres as [[_ Hf]|[Hf|[_ (v & q & qs & Hf & Hd)]]]; congruence.
Qed.

(** One read of the inner loop. *)
Lemma fill_data fuel b w c r :
  (length b < w)%nat → c ≠ [] →
  fill (S fuel) b w (RData c :: r) =
  fill fuel (b ++ take (w - length b) c) w
    match drop (w - length b) c with [] => r | c' => RData c' :: r end.
Proof.
  intros Hw Hc. unfold fill at 1. fold fill. rewrite decide_False by lia. simpl.
  destruct (w - length b)%nat as [|k] eqn:Hk; [lia|]. by destruct c.
Qed.
Lemma fill_timeout fuel b w r :
  (length b < w)%nat → fill (S fuel) b w (RFail timed_out :: r) = Some (FillTimedOut, b, r).
Proof. intros Hw. unfold fill. by rewrite decide_False by lia. Qed.
Lemma fill_done fuel b w r : (w ≤ length b)%nat → fill fuel b w r = Some (Filled, b, r).
Proof. intros Hw. destruct fuel; unfold fill; by rewrite decide_True by lia. Qed.
Lemma fill_short fuel b w c r :
  (length b + length c < w)%nat → c ≠ [] → (2 ≤ fuel)%nat →
  fill fuel b w (RData c :: RFail timed_out :: r) = Some (FillTimedOut, b ++ c, r).
Proof.
  intros Hw Hc Hf. destruct fuel as [|[|fuel]]; [lia..|].
  rewrite fill_data, take_ge, drop_ge, fill_timeout by (done || rewrite ?length_app; lia). done.
Qed.
Lemma fill_exact fuel b w c r :
  (length b + length c = w)%nat → c ≠ [] → (1 ≤ fuel)%nat →
  fill fuel b w (RData c :: r) = Some (Filled, b ++ c, r).
Proof.
  intros Hw Hc Hf. destruct fuel as [|fuel]; [lia|]. destruct c; [done|]. simpl in Hw.
  rewrite fill_data, take_ge, drop_ge, fill_done by (done || rewrite ?length_app; simpl; lia). done.
Qed.
End lemmas.

(** *** The polls of a frame in three chunks *)
Section chunked.
Context `{PayloadCodec}.
Local Abbreviation timeout := (RFail timed_out).
#[local] Arguments le_Z : simpl never.
#[local] Arguments fill : simpl never.
#[local] Arguments Z.to_nat : simpl never.
#[local] Arguments Z.of_nat : simpl never.

Lemma poll_within_length b0 b1 r :
  poll_read acc_new (RData [b0; b1] :: timeout :: r) = Some (Ok None, mkAcc [b0; b1] 4, r).
Proof. unfold poll_read. done. Qed.

Lemma poll_within_payload b0 b1 b2 b3 c n r :
  le_Z [b0; b1; b2; b3] = n → 2 ≤ n ≤ MAX_FRAME_BYTES → c ≠ [] → (length c < Z.to_nat n)%nat →
  poll_read (mkAcc [b0; b1] 4) (RData (b2 :: b3 :: c) :: timeout :: r) =
  Some (Ok None, mkAcc ([b0; b1; b2; b3] ++ c) (4 + Z.to_nat n), r).
Proof.
  intros Hn Hmax Hc Hlen. destruct c as [|x c]; [done|].
  unfold poll_read. simpl. rewrite Hn, !decide_False by (unfold VERSION_FIELD; lia).
  rewrite fill_short; [done|simpl in *; lia|done|unfold reader_size; simpl; lia].
Qed.

Lemma poll_to_the_end b0 b1 b2 b3 b4 b5 c c' n r :
  (6 + length (c ++ c') = 4 + Z.to_nat n)%nat → 2 ≤ n → c' ≠ [] →
  poll_read (mkAcc (b0 :: b1 :: b2 :: b3 :: b4 :: b5 :: c) (4 + Z.to_nat n)) (RData c' :: r) =
  Some (match from_bytes (c ++ c') with
        | Ok m => Ok (Some (le_Z [b4; b5], m)) | Err _ => Err Codec end, acc_new, r).
Proof.
  intros Hlen Hn Hc'. rewrite length_app in Hlen. unfold poll_read. rewrite decide_False by done.
  change 2%nat with (S 1). cbn [poll_loop buf want].
  rewrite fill_exact by (done || simpl; lia). simpl.
  rewrite decide_False by (unfold LEN_PREFIX; lia). simpl.
  by rewrite drop_0.
Qed.
End chunked.

(** ** The codec the tests run on

    [Vec]-backed [postcard] encodes every message the strategy makes, and a
    byte array takes its own bytes. *)
Class TestCodec `{PayloadCodec} : Prop := {
  test_codec_laws :: CodecLaws;
  encodes m : arb_message m → is_Some (written m);
  fingerprint_encoded id revs fp p : to_allocvec (SealComplete id revs fp) = Ok p → (length fp ≤ length p)%nat
}.

(** *** [plain_codec] is one *)
Lemma fits_id id : any_id id → fits 16 id.
Proof.
  intros Hid. exists (le_bytes 16 (Z.of_N (uuid id))). split; [|by rewrite length_le_bytes].
  change (put id) with (if decide (0 ≤ Z.of_N (uuid id) < 256 ^ Z.of_nat 16)
    then Some (le_bytes 16 (Z.of_N (uuid id))) else None).
  rewrite decide_True; [done|]. unfold any_id in Hid. split; [lia|]. change (256 ^ Z.of_nat 16) with (Z.of_N (2 ^ 128)). lia.
Qed.
Lemma fits_u32 z : is_u32 z → fits 8 z.
Proof. intros Hz. apply fits_u64. unfold is_u32, is_u64, u32_max, u64_max in *. lia. Qed.
Lemma fits_bytes n (l : list byte) : (length l ≤ n)%nat → Z.of_nat n < 2 ^ 64 → fits (8 + Z.of_nat n * 1) l.
Proof. intros. apply fits_list; [lia|done|done|]. apply Forall_true, fits_byte. Qed.
Lemma length_chars s : length (chars s) = String.length s.
Proof. induction s as [|a s IH]; [done|]. simpl. by rewrite <- IH. Qed.
Lemma fits_string n (s : string) :
  (String.length s ≤ n)%nat → Z.of_nat n < 2 ^ 64 → fits (8 + Z.of_nat n * 1) s.
Proof.
  intros Hs Hn. apply (fits_bytes n (Ascii.byte_of_ascii <$> chars s)); [|done].
  rewrite length_fmap. by rewrite length_chars.
Qed.
Lemma fits_revisions revs : any_revisions revs → fits (8 + Z.of_nat 16 * 8) revs.
Proof.
  intros [Hlen Hr]. apply fits_list; [lia|lia|done|]. apply (Forall_impl _ _ _ Hr). apply fits_u64.
Qed.
Lemma fits_names lo :
  (length lo < 4)%nat → Forall listener_name lo → fits (8 + Z.of_nat 4 * (8 + Z.of_nat 8 * 1)) lo.
Proof.
  intros Hlen Hlo. apply fits_list; [lia|lia|done|]. apply (Forall_impl _ _ _ Hlo).
  intros s [Hs _]. apply fits_string; [lia|done].
Qed.

Lemma fits_reason s : reason_string s → fits (8 + Z.of_nat 64 * 1) s.
Proof. intros [Hs _]. by apply fits_string. Qed.
Lemma fits_proto_min : fits 8 PROTO_MIN.
Proof. by apply fits_u64. Qed.
Lemma fits_proto_max : fits 8 PROTO_MAX.
Proof. by apply fits_u64. Qed.
Lemma fits_caps_default : fits 8 Capabilities_default.
Proof. by apply (fits_u64 0). Qed.

Create HintDb sizes.
#[local] Hint Resolve fits_id fits_u32 fits_u64 fits_bool fits_side fits_revisions fits_names fits_reason
  fits_proto_min fits_proto_max fits_caps_default : sizes.
#[local] Hint Extern 1 (fits _ (_, _)) => eapply fits_pair : sizes.
#[local] Hint Extern 1 (fits _ (_ : list byte)) => (apply (fits_bytes 64); [lia|done]) : sizes.

Lemma plain_codec_encodes m : arb_message m → is_Some (written m).
Proof.
  intros Hm. assert (∃ n bs, (fields m).2 = Some bs ∧ Z.of_nat (length bs) ≤ n ∧ n + 3 ≤ MAX_FRAME_BYTES)
    as (n & bs & Hbs & Hlen & Hn).
  { assert (∃ n, (∃ bs, (fields m).2 = Some bs ∧ Z.of_nat (length bs) ≤ n) ∧ n + 3 ≤ MAX_FRAME_BYTES)
      as (n & (bs & Hbs & Hlen) & Hn); [|by exists n, bs].
    destruct m; cbn [arb_message fields snd] in *; destruct_and?; subst; eexists; (split;
      [match goal with |- ∃ bs, put ?x = Some bs ∧ _ ≤ ?n => change (fits n x) end; eauto 20 with sizes|]).
    all: done. }
  unfold written, write_message, encode. cbn [to_allocvec plain_codec]. rewrite Hbs.
  cbn [result_map_err mbind result_bind]. change MAX_FRAME_BYTES with 1048576 in *.
  unfold VERSION_FIELD, usize_max, u64_max. cbn [length]. by rewrite !decide_False by lia.
Qed.

Lemma put_bytes_length (l bs : list byte) : put l = Some bs → (length l ≤ length bs)%nat.
Proof.
  assert (put_all l = Some l) as Hl by (induction l as [|b l IH]; [done|]; simpl; by rewrite IH).
  change (put l) with (n ← put (Z.of_nat (length l)); b ← put_all l; Some (n ++ b)). rewrite Hl.
  intros (n & _ & [= <-])%bind_Some. rewrite length_app. lia.
Qed.

#[export] Instance plain_codec_tests : TestCodec.
Proof.
  refine (Build_TestCodec _ _ plain_codec_encodes _).
  intros id revs fp p. cbn [to_allocvec plain_codec fields fst snd].
  destruct (put _) as [bs|] eqn:Hput; [|done]. intros [= <-]. cbn [put format_pair fst snd] in Hput.
  apply bind_Some in Hput as (a & _ & Hput). apply bind_Some in Hput as (b & Hput & [= <-]).
  apply bind_Some in Hput as (c & _ & Hput). apply bind_Some in Hput as (d & Hput & [= <-]).
  apply put_bytes_length in Hput. cbn [length]. rewrite !length_app. lia.
Qed.

(** ** The tests pass *)
Section pass.
Context `{TestCodec}.

Lemma hello_is_arbitrary : arb_message hello_msg.
Proof. split_and!; try done. simpl. lia. Qed.
Lemma seal_is_arbitrary id a b c fill :
  any_id id → is_u64 a → is_u64 b → is_u64 c → arb_message (seal_msg id [a; b; c] fill).
Proof. intros. unfold arb_message, seal_msg, any_revisions. split_and!; [done| |by rewrite !Forall_cons, Forall_nil|done].
  cbn. lia.
Qed.

Lemma expect_polled v ts acc r acc' r' :
  poll_read acc r = Some (Ok (Some (v, Heartbeat ts)), acc', r') →
  expect_heartbeat ts acc r = Some (acc', r').
Proof. intros Hpoll. unfold expect_heartbeat. by rewrite Hpoll, decide_True. Qed.

Lemma back_to_back_passes : accumulator_decodes_back_to_back_frames_from_one_chunk = true.
Proof.
  destruct (encodes (Heartbeat 1)) as [b1 Hb1]; [done|]. destruct (encodes (Heartbeat 2)) as [b2 Hb2]; [done|].
  unfold accumulator_decodes_back_to_back_frames_from_one_chunk. rewrite Hb1, Hb2. cbn [mbind option_bind].
  assert (b1 ++ b2 ≠ []) as Hne.
  { apply written_inv in Hb1 as (p & _ & _ & ->). done. }
  destruct (poll_written (Heartbeat 1) b1 acc_new (cursor (b1 ++ b2)) b2 _ Hb1 wf_acc_new)
    as (acc & r & Hpoll & Hwf & Hr & Hbuf & Hrest);
    [by apply cursor_blocking|by rewrite stream_bytes_cursor|].
  rewrite (expect_polled _ _ _ _ _ _ Hpoll). cbn [mbind option_bind].
  destruct (poll_written (Heartbeat 2) b2 acc r [] _ Hb2 Hwf Hr) as (acc' & r' & Hpoll' & _);
    [by rewrite Hbuf, Hrest, app_nil_r|].
  by rewrite (expect_polled _ _ _ _ _ _ Hpoll').
Qed.

Lemma eof_mid_frame_passes : accumulator_reports_eof_mid_frame = true.
Proof.
  destruct (encodes (Heartbeat 1)) as [bs Hbs]; [done|]. unfold accumulator_reports_eof_mid_frame.
  rewrite Hbs. pose proof (written_inv _ _ Hbs) as (p & _ & Hlen & ->).
  set (bs := _ ++ _ ++ p). assert (length bs = 6 + length p)%nat as Hl.
  { unfold bs. by rewrite !length_app, !length_le_bytes. }
  set (cut := take (length bs - 1) bs).
  assert (frame_at cut = Incomplete) as Hcut.
  { unfold cut. unfold bs at 2. rewrite take_app_ge by (rewrite length_le_bytes; lia).
    assert (le_Z (le_bytes 4 (2 + Z.of_nat (length p))) = 2 + Z.of_nat (length p)) as Hn.
    { apply le_Z_bytes_id. change MAX_FRAME_BYTES with 1048576 in Hlen.
      change (256 ^ Z.of_nat 4) with 4294967296. lia. }
    apply frame_at_truncated; [by rewrite length_le_bytes|rewrite Hn; lia|].
    rewrite Hn, length_take, length_app, !length_le_bytes. lia. }
  assert (cut ≠ []) as Hne.
  { intros Hnil%(f_equal length). unfold cut in Hnil. rewrite length_take in Hnil. simpl in Hnil. lia. }
  destruct (poll_read_spec acc_new (cursor cut) wf_acc_new) as (res & acc' & r' & Hpoll & _ & _ & _ & Hben).
  pose proof (cursor_blocking _ Hne) as Hb. destruct (Hben (blocking_benign _ Hb)) as [_ Hres].
  destruct (poll_read_blocking _ _ _ _ _ Hb Hpoll) as [_ Hno]. rewrite Hpoll.
  rewrite stream_bytes_cursor in Hres. simpl app in Hres. rewrite Hcut in Hres.
  destruct res as [[[v m]|]|e]; [by destruct Hres as (q & Hq & _)|done|].
  destruct Hres as [[-> _]|[Hf|[_ (v & q & qs & Hf & _)]]]; done.
Qed.

Lemma split_across_timeouts_passes id :
  any_id id → accumulator_resumes_a_frame_split_across_timeouts id = true.
Proof.
  intros Hid. destruct (encodes (seal_msg id [1; 2; 3] 9)) as [bs Hbs]; [by apply seal_is_arbitrary|].
  unfold accumulator_resumes_a_frame_split_across_timeouts. rewrite Hbs.
  destruct (written_inv _ _ Hbs) as (p & Hp & Hmax & ->).
  pose proof (fingerprint_encoded _ _ _ _ Hp) as Hlong. rewrite length_replicate in Hlong.
  apply codec_roundtrip in Hp. destruct p as [|b6 t]; [simpl in Hlong; lia|].
  assert (t ≠ []) as Ht by (intros ->; simpl in Hlong; lia).
  set (n := 2 + Z.of_nat (length (b6 :: t))) in *.
  assert (∃ a0 a1 a2 a3, le_bytes 4 n = [a0; a1; a2; a3] ∧ le_Z [a0; a1; a2; a3] = n)
    as (a0 & a1 & a2 & a3 & -> & Hn).
  { eexists _, _, _, _. split; [done|]. apply (le_Z_bytes_id 4). change MAX_FRAME_BYTES with 1048576 in Hmax.
    change (256 ^ Z.of_nat 4) with 4294967296. lia. }
  assert (∃ v0 v1, le_bytes 2 PROTO_MAX = [v0; v1] ∧ le_Z [v0; v1] = PROTO_MAX) as (v0 & v1 & -> & Hv)
    by (by eexists _, _).
  cbv zeta. change (chunked_events _ 1) with
    [RData [a0; a1]; RFail timed_out; RData [a2; a3; v0; v1; b6]; RFail timed_out;
     RData t; RFail timed_out; RFail timed_out].
  rewrite poll_within_length. cbn [has_partial buf andb].
  rewrite (poll_within_payload a0 a1 a2 a3 [v0; v1; b6] n) by (done || (simpl in *; lia)).
  cbn [has_partial buf andb app].
  rewrite (poll_to_the_end a0 a1 a2 a3 v0 v1 [b6] t n) by (done || (simpl in *; lia)).
  simpl app. rewrite Hp, Hv. vm_compute. done.
Qed.
End pass.

(** ** The suite *)
Definition frame_unit_tests `{PayloadCodec} (id : HandoffId) : list bool :=
  [roundtrip_hello; roundtrip_seal_complete id; rejects_oversize_frame_on_read;
   rejects_undersize_frame_on_read; rejects_frame_exactly_at_max_plus_one;
   truncated_frame_after_len_is_err_not_panic; truncated_frame_after_version_is_err_not_panic;
   accumulator_resumes_a_frame_split_across_timeouts id;
   accumulator_decodes_back_to_back_frames_from_one_chunk;
   accumulator_rejects_malformed_length_and_resets; accumulator_reports_eof_mid_frame].

(** What [declared_length_is_honored] comes to: the declared length decides. *)
Definition declared_outcome `{PayloadCodec} (declared : Z) (body : list byte)
    : Result (ProtoVersion * Message) :=
  if decide (declared < 2) then Err (FrameMalformed declared)
  else if decide (declared > MAX_FRAME_BYTES) then Err (FrameTooLarge declared)
  else if decide (Z.of_nat (length body) < declared) then Err eof
  else match from_bytes (take (Z.to_nat declared - 2) (drop 2 body)) with
       | Ok m => Ok (le_Z (take 2 body), m)
       | Err _ => Err Codec
       end.

Section suite.
Context `{TestCodec}.

Lemma roundtrip_all_passes m : arb_message m → roundtrip_all_variants m = true.
Proof.
  intros Hm%encodes. pose proof (roundtrip_written m _ Hm) as Hr. destruct Hm as [buf Hbuf].
  unfold roundtrip in Hr. unfold roundtrip_all_variants. rewrite Hbuf in *. cbn [mbind option_bind] in Hr.
  destruct (read_message (cursor buf)).1 as [[v m']|e]; [|done]. case_decide as Hv; [|done].
  injection Hr as ->. subst v. rewrite !bool_decide_eq_true_2 by done. done.
Qed.

Lemma declared_is_outcome declared body :
  is_u32 declared → declared_length_is_honored declared body = declared_outcome declared body.
Proof.
  intros Hd. unfold declared_length_is_honored, declared_buf.
  set (d := take _ body). assert (le_Z (le_bytes 4 declared) = declared) as Hle.
  { apply le_Z_bytes_id. unfold is_u32, u32_max in Hd. change (256 ^ Z.of_nat 4) with 4294967296. lia. }
  pose proof (length_le_bytes 4 declared) as Hl4.
  destruct (read_message (cursor (le_bytes 4 declared ++ d))) as [res r'] eqn:Hread.
  apply read_message_spec in Hread; [|by apply cursor_blocking]. rewrite stream_bytes_cursor in Hread.
  set (bs := le_bytes 4 declared) in *. clearbody bs. cbn [fst]. unfold declared_outcome.
  assert (∃ s, frame_at (bs ++ d) = s ∧
    s = if decide (declared < 2) then BadLength (FrameMalformed declared)
        else if decide (declared > MAX_FRAME_BYTES) then BadLength (FrameTooLarge declared)
        else if decide (Z.of_nat (length body) < declared) then Incomplete
        else Complete (le_Z (take 2 body)) (take (Z.to_nat declared - 2) (drop 2 body)) [])
    as (s & Hs & Hcase).
  { eexists. split; [done|]. unfold frame_at. 
    rewrite length_app, Hl4, take_app_length', Hle by done. rewrite decide_False by lia.
    case_decide; [done|]. case_decide; [done|]. unfold d. rewrite length_take.
    case_decide; case_decide; try lia; [done|].
    set (n := Z.to_nat declared) in *. 
    assert (length d = n) as Hld by (unfold d; rewrite length_take; lia).
    fold d. assert (d = take n body) as Hdt by (unfold d; by rewrite Nat.min_l by lia). clearbody d.
    rewrite drop_app_length' by done. change 6%nat with (4 + 2)%nat.
    rewrite <- drop_drop, drop_app_length' by done. f_equal.
    - by rewrite Hdt, take_take, Nat.min_l by lia.
    - rewrite take_ge by (rewrite length_drop; lia). rewrite take_drop_commute, Hdt. do 2 f_equal. lia.
    - apply drop_ge. rewrite length_app. lia. }
  rewrite Hs in Hread. clear Hs. subst s.
  repeat case_decide; (destruct res as [[v m]|e];
    [destruct Hread as (_ & q & Hq & Hdec)|destruct Hread as [[-> Hf]|[Hf|[-> (v & q & rest & Hf & Hdec)]]]]);
    try done; try congruence.
  - injection Hq as <- <- _. by rewrite Hdec.
  - injection Hf as <- <- _. by rewrite Hdec.
Qed.
End suite.

(** ** Theorem *)

(** C40: the unit and property tests of [frame.rs] pass on the model, for
    every codec that encodes the messages they write: round trips of every
    variant, refused lengths, truncated frames, a frame delivered through
    time-outs, two frames in one chunk, end of file inside a frame; on any
    bytes neither reader panics, and a declared length decides the outcome.
    The events the time-out test reads are its reader's: a read of one is a
    read of the other, whatever the chunks and the buffer. *)
Theorem frame_tests_pass `{TestCodec} :
  (∀ id, any_id id → Forall (λ passed, passed = true) (frame_unit_tests id)) ∧
  (∀ bytes, read_message_never_panics_on_arbitrary_bytes bytes = true) ∧
  (∀ declared body, is_u32 declared → declared_length_is_honored declared body = declared_outcome declared body) ∧
  (∀ msg, arb_message msg → roundtrip_all_variants msg = true) ∧
  (∀ r n k, ∃ n', (n ≤ n')%nat ∧
     Frame.read (chunked_events r (S n)) k = ((chunked_read r k).1, chunked_events (chunked_read r k).2 n')).
Proof.
  split_and!; [|intros bytes|apply declared_is_outcome|apply roundtrip_all_passes|apply chunked_read_events].
  - intros id Hid. unfold frame_unit_tests.
    rewrite back_to_back_passes, eof_mid_frame_passes, split_across_timeouts_passes by done.
    assert (roundtrip hello_msg = Some hello_msg) as Hh.
    { apply roundtrip_written; [apply _|]. apply encodes, hello_is_arbitrary. }
    assert (roundtrip (seal_msg id [10; 20; 30] 7) = Some (seal_msg id [10; 20; 30] 7)) as Hs.
    { apply roundtrip_written; [apply _|]. by apply encodes, seal_is_arbitrary. }
    unfold roundtrip_hello, roundtrip_seal_complete. rewrite Hh, Hs. cbn [hello_msg seal_msg].
    rewrite !bool_decide_eq_true_2 by done. repeat apply Forall_cons_2; try apply Forall_nil_2; done.
  - unfold read_message_never_panics_on_arbitrary_bytes.
    by destruct (poll_read_spec acc_new (cursor bytes) wf_acc_new) as (res & acc & r & -> & _).
Qed.

Lemma frame_tests_pass_witness :
  @roundtrip_all_variants plain_codec (Ready (mkHandoffId 7) ["http"; "resp"] true [1; 2]) = true.
Proof.
  apply frame_tests_pass. split_and!; try done; try (cbn; lia).
  all: repeat (apply Forall_cons_2 || apply Forall_nil_2); try done.
  all: split; [cbn; lia|]; repeat (apply Forall_cons_2 || apply Forall_nil_2); done.
Defined.
