(* ===== verification/Fd.v ===== *)
(** * Descriptor inheritance: [crates/handoff/src/fd.rs]

    Placing a list of descriptors at [3, 4, ...] of a forked child, and the
    environment that names them. *)
From S2P Require Import Prelude Errors Sock.
From stdpp Require Import base tactics option list numbers strings gmap.
Local Open Scope Z_scope.

(** ** System calls *)

(** [fcntl(fd, F_DUPFD, min)]: the lowest free descriptor at or above [min],
    below the limit, with [FD_CLOEXEC] clear. *)
Definition free_fds (k : kernel) (min : Z) : list Z :=
  filter (λ fd, fdtab k !! fd = None) (seqZ min (nofile k - min)).

Definition fcntl_dupfd (fd min : Z) : sys Z :=
  with_fd fd (λ e, k ← gets id;
    if decide (min < 0 ∨ nofile k ≤ min) then raise (io_from_errno EINVAL)
    else match free_fds k min with
         | [] => raise (io_from_errno EMFILE)
         | new_fd :: _ =>
             _ ← modify (λ k, set_fdtab (<[new_fd := mkFd (ofd e) 0]> (fdtab k)) k);
             mret new_fd
         end).

(** [dup2(old, new)]: [new] is closed and becomes a duplicate with
    [FD_CLOEXEC] clear; nothing happens when the two are equal. *)
Definition dup2 (old new : Z) : sys unit :=
  with_fd old (λ e, k ← gets id;
    if decide (new < 0 ∨ nofile k ≤ new) then raise (io_from_errno EBADF)
    else if decide (old = new) then mret tt
    else modify (λ k, set_fdtab (<[new := mkFd (ofd e) 0]> (fdtab k)) k)).

Definition close (fd : Z) : sys unit := modify (λ k, set_fdtab (delete fd (fdtab k)) k).

(** ** [install_inherited_fds] *)
Fixpoint stage1 (staging_min : Z) (slots : list Z) : sys (list Z) :=
  match slots with
  | [] => mret []
  | slot :: slots =>
      new_fd ← fcntl_dupfd slot staging_min;
      rest ← stage1 staging_min slots;
      mret (new_fd :: rest)
  end.

Fixpoint stage2 (dst : Z) (staged : list Z) : sys unit :=
  match staged with
  | [] => mret tt
  | staged_fd :: staged => _ ← dup2 staged_fd dst; stage2 (dst + 1) staged
  end.

Fixpoint stage3 (staged : list Z) : sys unit :=
  match staged with
  | [] => mret tt
  | staged_fd :: staged => _ ← close staged_fd; stage3 staged
  end.

Definition SD_LISTEN_FDS_START : Z := 3.

Definition install_inherited_fds (working : list Z) : sys unit :=
  let n := Z.of_nat (length working) in
  if decide (n = 0) then mret tt
  else
    let staging_min := SD_LISTEN_FDS_START + n in
    staged ← stage1 staging_min working;
    _ ← stage2 SD_LISTEN_FDS_START staged;
    stage3 staged.

(** ** Building the command *)
Definition ENV_LISTEN_FDS : string := "LISTEN_FDS".
Definition ENV_LISTEN_FDNAMES : string := "LISTEN_FDNAMES".

(** What a [std::process::Command] accumulates: the variables it sets, and the
    descriptors of the registered [pre_exec] closure. *)
Record Command : Type := mkCommand {
  program : string;
  args : list string;
  envs : gmap string string;
  inherited_fds : option (list Z)
}.

Definition command_new (p : string) : Command :=
  {| program := p; args := []; envs := ∅; inherited_fds := None |}.
Definition command_args (l : list string) (c : Command) : Command :=
  {| program := program c; args := args c ++ l; envs := envs c; inherited_fds := inherited_fds c |}.
Definition command_env (k v : string) (c : Command) : Command :=
  {| program := program c; args := args c; envs := <[k := v]> (envs c);
     inherited_fds := inherited_fds c |}.

Definition arrange_inherited_fds_on_spawn (c : Command) (sources : list Z) : Command :=
  {| program := program c; args := args c; envs := envs c; inherited_fds := Some sources |}.


Definition pass_listener_fds_on_spawn (c : Command) (listeners : list (string * Z))
    (extra_fd : option Z) : Command :=
  let names := listeners.*1 in
  let c := command_env ENV_LISTEN_FDS (print_dec (N.of_nat (length listeners))) c in
  let c := command_env ENV_LISTEN_FDNAMES (join_with colon names) c in
  let fds := listeners.*2 ++ option_list extra_fd in
  arrange_inherited_fds_on_spawn c fds.

(** [Command::spawn] in the child, up to [execve]: the environment is the
    parent's, overridden by the command's, and the [pre_exec] closure runs on
    the child's copy of the descriptor table.  [execve] then closes every
    descriptor whose [FD_CLOEXEC] is set. *)
Definition child_env (parent : gmap string string) (c : Command) : gmap string string :=
  envs c ∪ parent.

Definition close_on_exec (k : kernel) : kernel :=
  set_fdtab (filter (λ '(_, e), Z.land (fd_flags e) FD_CLOEXEC = 0) (fdtab k)) k.

Definition child_exec (c : Command) (k : kernel) : result (exn IoError) unit * kernel :=
  match match inherited_fds c with
        | None => (Ok tt, k)
        | Some fds => install_inherited_fds fds k
        end with
  | (Ok _, k') => (Ok tt, close_on_exec k')
  | (Err e, k') => (Err e, k')
  end.

(** ** Lemmas *)
Lemma elem_of_free_fds k min fd :
  fd ∈ free_fds k min ↔ fdtab k !! fd = None ∧ min ≤ fd < nofile k.
Proof.
  unfold free_fds. rewrite list_elem_of_filter, elem_of_seqZ.
  split; intros (? & ? & ?); split_and!; auto; lia.
Qed.

Lemma NoDup_free_fds k min : NoDup (free_fds k min).
Proof. apply NoDup_filter, NoDup_seqZ. Qed.

(** Taking the lowest free descriptor leaves the others. *)
Lemma free_fds_insert k min fd l e :
  free_fds k min = fd :: l → free_fds (set_fdtab (<[fd := e]> (fdtab k)) k) min = l.
Proof.
  unfold free_fds. simpl. generalize (NoDup_seqZ min (nofile k - min)).
  generalize (seqZ min (nofile k - min)). intros s.
  induction s as [|x s IH]; intros Hnd; simpl; [done|].
  apply NoDup_cons in Hnd as [Hx Hnd]. rewrite !filter_cons.
  case_decide as Hd.
  - intros [= -> <-]. rewrite decide_False by (by rewrite lookup_insert_eq).
    clear IH Hd Hnd. induction s as [|y s IH]; [done|].
    apply not_elem_of_cons in Hx as [Hne Hx]. rewrite !filter_cons, IH by done.
    repeat case_decide; try done; exfalso; rewrite lookup_insert_ne in *; done.
  - intros Hf. rewrite (IH Hnd Hf). rewrite decide_False; [done|].
    destruct (decide (x = fd)) as [->|]; [by rewrite lookup_insert_eq|by rewrite lookup_insert_ne].
Qed.

(** The table after staging [slots] at [fds]. *)
Fixpoint staged_tab (t : gmap Z fd_entry) (slots fds : list Z) : gmap Z fd_entry :=
  match slots, fds with
  | slot :: slots, fd :: fds =>
      match t !! slot with
      | Some e => staged_tab (<[fd := mkFd (ofd e) 0]> t) slots fds
      | None => t
      end
  | _, _ => t
  end.

Lemma set_fdtab_fdtab k : set_fdtab (fdtab k) k = k.
Proof. by destruct k. Qed.

Lemma stage1_run k min slots fds rest :
  0 ≤ min → free_fds k min = fds ++ rest → length fds = length slots →
  Forall (λ s, is_Some (fdtab k !! s)) slots →
  stage1 min slots k = (Ok fds, set_fdtab (staged_tab (fdtab k) slots fds) k).
Proof.
  intros Hmin. revert k fds. induction slots as [|s slots IH]; intros k [|fd fds] Hfree Hlen Hopen;
    simplify_eq/=.
  { by rewrite set_fdtab_fdtab. }
  apply Forall_cons in Hopen as [[e He] Hopen].
  assert (Hfd : fdtab k !! fd = None ∧ min ≤ fd < nofile k).
  { apply elem_of_free_fds. rewrite Hfree. apply elem_of_cons; by left. }
  unfold fcntl_dupfd, with_fd, gets, modify, mbind, prog_bind, mret, prog_ret. simpl.
  rewrite He, decide_False by lia. rewrite Hfree. simpl.
  rewrite (IH (set_fdtab (<[fd := mkFd (ofd e) 0]> (fdtab k)) k) fds); simpl; [done| | |].
  - by eapply free_fds_insert.
  - done.
  - eapply Forall_impl; [exact Hopen|]. intros x [ex Hx]. simpl.
    destruct (decide (x = fd)) as [->|]; [rewrite lookup_insert_eq|rewrite lookup_insert_ne]; eauto.
Qed.

Lemma staged_tab_lookup t slots fds :
  length fds = length slots → NoDup fds → Forall (λ fd, t !! fd = None) fds →
  Forall (λ s, is_Some (t !! s)) slots →
  (∀ i s fd, slots !! i = Some s → fds !! i = Some fd →
     ∃ e, t !! s = Some e ∧ staged_tab t slots fds !! fd = Some (mkFd (ofd e) 0)) ∧
  (∀ fd, fd ∉ fds → staged_tab t slots fds !! fd = t !! fd).
Proof.
  revert t fds. induction slots as [|s slots IH]; intros t [|fd fds] Hlen Hnd Hfree Hopen;
    simplify_eq/=; [done|].
  apply NoDup_cons in Hnd as [Hfd Hnd].
  apply Forall_cons in Hfree as [Hfd0 Hfree]. apply Forall_cons in Hopen as [[e He] Hopen].
  rewrite He. set (t' := <[fd := mkFd (ofd e) 0]> t).
  assert (Hne : ∀ x, is_Some (t !! x) → x ≠ fd) by (intros x [? ?] ->; congruence).
  destruct (IH t' fds) as [IH1 IH2]; [done|done| | |].
  { apply Forall_forall. intros x Hx. unfold t'. rewrite lookup_insert_ne by (intros ->; done).
    rewrite Forall_forall in Hfree. auto. }
  { eapply Forall_impl; [exact Hopen|]. intros x Hx. unfold t'. by rewrite lookup_insert_ne by (symmetry; auto). }
  split.
  - intros [|i] s' fd' Hs Hf; simplify_eq/=.
    + exists e. split; [done|]. rewrite IH2 by done. apply lookup_insert_eq.
    + destruct (IH1 i s' fd' Hs Hf) as (e' & He' & Hl). exists e'. split; [|done].
      unfold t' in He'. rewrite lookup_insert_ne in He'; [done|].
      symmetry. apply Hne. rewrite Forall_forall in Hopen. apply Hopen.
      by eapply list_elem_of_lookup_2.
  - intros x Hx. rewrite not_elem_of_cons in Hx. rewrite IH2 by tauto.
    unfold t'. rewrite lookup_insert_ne by (apply not_eq_sym; tauto). done.
Qed.

Lemma stage2_run k dst staged :
  0 ≤ dst → dst + Z.of_nat (length staged) ≤ nofile k →
  Forall (λ s, dst + Z.of_nat (length staged) ≤ s ∧ is_Some (fdtab k !! s)) staged →
  ∃ t, stage2 dst staged k = (Ok tt, set_fdtab t k) ∧
    (∀ i s e, staged !! i = Some s → fdtab k !! s = Some e →
       t !! (dst + Z.of_nat i) = Some (mkFd (ofd e) 0)) ∧
    (∀ fd, fd < dst ∨ dst + Z.of_nat (length staged) ≤ fd → t !! fd = fdtab k !! fd).
Proof.
  revert k dst. induction staged as [|s staged IH]; intros k dst Hdst Hlim Hst.
  { exists (fdtab k). simpl. by rewrite set_fdtab_fdtab. }
  cbn [length] in *. apply Forall_cons in Hst as [[Hs [e He]] Hst].
  set (k1 := set_fdtab (<[dst := mkFd (ofd e) 0]> (fdtab k)) k).
  assert (Hdup : dup2 s dst k = (Ok tt, k1)).
  { unfold dup2, with_fd, gets, modify, mbind, prog_bind. simpl. rewrite He.
    rewrite decide_False by lia. by rewrite decide_False by lia. }
  destruct (IH k1 (dst + 1)) as (t & Ht & H1 & H2); [lia|simpl; lia| |].
  { eapply Forall_impl; [exact Hst|]. intros x [Hx1 Hx2]. split; [lia|].
    simpl. by rewrite lookup_insert_ne by lia. }
  exists t. split_and!.
  - cbn [stage2]. unfold mbind, prog_bind. by rewrite Hdup, Ht.
  - intros [|i] s' e' Hi He'; simplify_eq/=.
    + rewrite Z.add_0_r. rewrite H2 by lia. rewrite lookup_insert_eq. congruence.
    + replace (dst + Z.of_nat (S i)) with (dst + 1 + Z.of_nat i) by lia.
      apply (H1 i s' e' Hi). simpl. rewrite lookup_insert_ne; [done|].
      rewrite Forall_forall in Hst. specialize (Hst s' (list_elem_of_lookup_2 _ _ _ Hi)). lia.
  - intros fd Hfd. rewrite H2 by lia. simpl. by rewrite lookup_insert_ne by lia.
Qed.

Lemma stage3_run k staged :
  ∃ t, stage3 staged k = (Ok tt, set_fdtab t k) ∧
    (∀ fd, t !! fd = if decide (fd ∈ staged) then None else fdtab k !! fd).
Proof.
  revert k. induction staged as [|s staged IH]; intros k.
  { exists (fdtab k). simpl. by rewrite set_fdtab_fdtab. }
  destruct (IH (set_fdtab (delete s (fdtab k)) k)) as (t & Ht & Hl).
  exists t. split; [by cbn [stage3]; unfold mbind, prog_bind|].
  intros fd. rewrite Hl. simpl. destruct (decide (fd = s)) as [->|Hne].
  - rewrite lookup_delete_eq. repeat case_decide; try done; exfalso; rewrite elem_of_cons in *; tauto.
  - rewrite lookup_delete_ne by done. repeat case_decide; try done; exfalso; rewrite elem_of_cons in *; tauto.
Qed.

(** What the closure does to a table with room for the staging copies. *)
Lemma install_spec k srcs :
  Forall (λ s, is_Some (fdtab k !! s)) srcs →
  (length srcs ≤ length (free_fds k (SD_LISTEN_FDS_START + Z.of_nat (length srcs))))%nat →
  ∃ t, install_inherited_fds srcs k = (Ok tt, set_fdtab t k) ∧
    (∀ i s e, srcs !! i = Some s → fdtab k !! s = Some e →
       t !! (SD_LISTEN_FDS_START + Z.of_nat i) = Some (mkFd (ofd e) 0)) ∧
    (∀ fd, fd < SD_LISTEN_FDS_START ∨ SD_LISTEN_FDS_START + Z.of_nat (length srcs) ≤ fd →
       t !! fd = fdtab k !! fd).
Proof.
  intros Hopen Hroom. unfold install_inherited_fds, SD_LISTEN_FDS_START in *.
  case_decide as Hz.
  { destruct srcs; [|simpl in *; lia]. exists (fdtab k). rewrite set_fdtab_fdtab. by split_and!. }
  set (n := length srcs) in *. set (min := 3 + Z.of_nat n) in *.
  set (fds := take n (free_fds k min)).
  assert (Hlen : length fds = n) by (unfold fds; rewrite length_take; lia).
  assert (Hsplit : free_fds k min = fds ++ drop n (free_fds k min)) by (unfold fds; by rewrite take_drop).
  assert (Hin : ∀ fd, fd ∈ fds → fdtab k !! fd = None ∧ min ≤ fd < nofile k).
  { intros fd Hfd. apply elem_of_free_fds. rewrite Hsplit. apply elem_of_app. by left. }
  assert (Hnd : NoDup fds).
  { pose proof (NoDup_free_fds k min) as H. rewrite Hsplit in H. by apply NoDup_app in H as [? _]. }
  destruct (staged_tab_lookup (fdtab k) srcs fds) as [Hst1 Hst2]; [done|done| |done|].
  { apply Forall_forall. intros x Hx. by apply Hin in Hx as [? _]. }
  set (k1 := set_fdtab (staged_tab (fdtab k) srcs fds) k).
  assert (Hlookup : ∀ i fd, fds !! i = Some fd →
    ∃ s e, srcs !! i = Some s ∧ fdtab k !! s = Some e ∧ fdtab k1 !! fd = Some (mkFd (ofd e) 0)).
  { intros i fd Hi. destruct (lookup_lt_is_Some_2 srcs i) as [s Hs].
    { apply lookup_lt_Some in Hi. fold n. lia. }
    destruct (Hst1 i s fd Hs Hi) as (e & He & Hl). eauto. }
  destruct (stage2_run k1 3 fds) as (t2 & Ht2 & H21 & H22); [lia| | |].
  { simpl. destruct fds as [|f fs]; [simpl in *; lia|].
    destruct (Hin f) as [_ Hf]; [by left|]. simpl in *. lia. }
  { apply Forall_forall. intros fd Hfd. destruct (Hin fd Hfd) as [_ ?].
    apply list_elem_of_lookup_1 in Hfd as [i Hi]. destruct (Hlookup i fd Hi) as (s & e & _ & _ & ?).
    rewrite Hlen. split; [lia|eauto]. }
  destruct (stage3_run (set_fdtab t2 k1) fds) as (t3 & Ht3 & H3).
  exists t3. split_and!.
  - unfold mbind, prog_bind.
    rewrite (stage1_run k min srcs fds _ ltac:(lia) Hsplit ltac:(done) Hopen).
    fold k1. by rewrite Ht2, Ht3.
  - intros i s e Hs He. destruct (lookup_lt_is_Some_2 fds i) as [fd Hfd].
    { apply lookup_lt_Some in Hs. lia. }
    destruct (Hst1 i s fd Hs Hfd) as (e' & He' & Hl).
    rewrite H3, decide_False.
    + rewrite He in He'. injection He' as <-. simpl. rewrite (H21 i fd _ Hfd Hl). done.
    + intros Hx. apply Hin in Hx as [_ ?]. apply lookup_lt_Some in Hs. lia.
  - intros fd Hfd. rewrite H3. simpl. rewrite H22 by lia. case_decide as Hx.
    + by apply Hin in Hx as [-> _].
    + simpl. by apply Hst2.
Qed.

Lemma close_on_exec_lookup k fd :
  fdtab (close_on_exec k) !! fd =
    (e ← fdtab k !! fd; if decide (Z.land (fd_flags e) FD_CLOEXEC = 0) then Some e else None).
Proof.
  unfold close_on_exec. simpl. rewrite map_lookup_filter.
  destruct (fdtab k !! fd) as [e|]; simpl; [|done]. unfold guard. by repeat case_decide.
Qed.

(** What a spawned command's process holds. *)
Lemma child_exec_run c k fds :
  inherited_fds c = Some fds →
  Forall (λ s, is_Some (fdtab k !! s)) fds →
  (length fds ≤ length (free_fds k (SD_LISTEN_FDS_START + Z.of_nat (length fds))))%nat →
  ∃ k', child_exec c k = (Ok tt, k') ∧ descs k' = descs k ∧
    (∀ i s e, fds !! i = Some s → fdtab k !! s = Some e →
       fdtab k' !! (SD_LISTEN_FDS_START + Z.of_nat i) = Some (mkFd (ofd e) 0)) ∧
    (∀ fd, fd < SD_LISTEN_FDS_START ∨ SD_LISTEN_FDS_START + Z.of_nat (length fds) ≤ fd →
       fdtab k' !! fd = fdtab (close_on_exec k) !! fd).
Proof.
  intros Hc Hopen Hroom. destruct (install_spec k fds Hopen Hroom) as (t & Ht & H1 & H2).
  exists (close_on_exec (set_fdtab t k)). unfold child_exec. rewrite Hc, Ht. split_and!; [done|done| |].
  - intros i s e Hs He. rewrite close_on_exec_lookup. simpl. by rewrite (H1 i s e Hs He).
  - intros fd Hfd. rewrite !close_on_exec_lookup. simpl. by rewrite H2.
Qed.

(** ** Theorems *)

(** C22: the child a command spawns has, after [execve], exactly the inherited
    descriptors at [3, 4, ...] in the order given — whatever their numbers in
    the parent, overlaps with the target range and repetitions included — with
    [FD_CLOEXEC] clear; every other descriptor is one of the parent's that was
    not close-on-exec, so no staging copy leaks.  The caller's descriptors must
    be open and the table have room for as many staging copies. *)
Theorem child_inherits_exactly c k fds :
  inherited_fds c = Some fds →
  Forall (λ s, is_Some (fdtab k !! s)) fds →
  (length fds ≤ length (free_fds k (SD_LISTEN_FDS_START + Z.of_nat (length fds))))%nat →
  ∃ k', child_exec c k = (Ok tt, k') ∧
    (∀ i s e, fds !! i = Some s → fdtab k !! s = Some e →
       fdtab k' !! (SD_LISTEN_FDS_START + Z.of_nat i) = Some (mkFd (ofd e) 0)) ∧
    (∀ fd, fd < SD_LISTEN_FDS_START ∨ SD_LISTEN_FDS_START + Z.of_nat (length fds) ≤ fd →
       fdtab k' !! fd = fdtab (close_on_exec k) !! fd).
Proof.
  intros Hc Hopen Hroom. destruct (child_exec_run c k fds Hc Hopen Hroom) as (k' & Hk & _ & H1 & H2).
  by exists k'.
Qed.

(** Two sources that sit in each other's target slot. *)
Definition crossed_kernel : kernel := {|
  fdtab := {[ 3 := mkFd 30 1; 4 := mkFd 40 1; 7 := mkFd 70 0 ]};
  descs := ∅;
  nofile := 64
|}.

Lemma child_inherits_exactly_witness :
  ∃ k', child_exec (arrange_inherited_fds_on_spawn (command_new "daemon") [4; 3]) crossed_kernel
        = (Ok tt, k') ∧ fdtab k' !! 3 = Some (mkFd 40 0) ∧ fdtab k' !! 4 = Some (mkFd 30 0).
Proof.
  destruct (child_inherits_exactly
    (arrange_inherited_fds_on_spawn (command_new "daemon") [4; 3]) crossed_kernel [4; 3])
    as (k' & Hk & H1 & _).
  - reflexivity.
  - repeat constructor; vm_compute; by eexists.
  - vm_compute. lia.
  - exists k'. split; [exact Hk|]. split.
    + exact (H1 0%nat 4 (mkFd 40 1) eq_refl eq_refl).
    + exact (H1 1%nat 3 (mkFd 30 1) eq_refl eq_refl).
Defined.
