(* ===== verification/Lock.v ===== *)
(** * The data-directory lock: [crates/handoff/src/lock.rs]

    One data directory: the kernel's flock on its lock file, and the advisory
    pidfile.  [acquire], [acquire_or_break_stale] and [Drop] are programs over
    that state; the interleavings of several processes, crashes included, are
    a step relation whose steps are the system calls of those programs. *)
From S2P Require Import Prelude Errors.
From stdpp Require Import base tactics option list numbers strings gmap.
Local Open Scope Z_scope.

(** ** State *)
Definition LOCK_FILE : string := ".handoff.lock".
Definition PID_FILE : string := ".handoff.pidfile".

(** [flock_holder] is the process whose open file description has the
    exclusive flock; [pid_tmp] the temporary files of [write_pid_atomic], by
    the pid in their name. *)
Record LockDir : Type := mkLockDir {
  flock_holder : option Z;
  pid_file : option string;
  pid_tmp : gmap Z string
}.

Definition set_holder (h : option Z) (w : LockDir) : LockDir :=
  {| flock_holder := h; pid_file := pid_file w; pid_tmp := pid_tmp w |}.
Definition set_pid_file (c : option string) (w : LockDir) : LockDir :=
  {| flock_holder := flock_holder w; pid_file := c; pid_tmp := pid_tmp w |}.
Definition set_pid_tmp (m : gmap Z string) (w : LockDir) : LockDir :=
  {| flock_holder := flock_holder w; pid_file := pid_file w; pid_tmp := m |}.

Record DataDirLock : Type := mkDataDirLock {
  owner : Z;
  data_dir : string;
  pid_path : string
}.

(** The failures of [flock(2)] other than "held by someone else". *)
Inductive FlockFailure : Type := FlockInterrupted | FlockBadFd | FlockNoLocks.
Definition flock_errno (f : FlockFailure) : Errno :=
  match f with FlockInterrupted => EINTR | FlockBadFd => EBADF | FlockNoLocks => EOTHER end.

(** What the file system answers during one [acquire]. *)
Record FsAnswers : Type := mkFs {
  create_dir_all : result IoError unit;
  open_lock_file : result IoError unit;
  flock_failure : option FlockFailure;
  open_tmp : result IoError unit;
  write_tmp : result IoError unit;
  sync_tmp : result IoError unit;
  rename_tmp : result IoError unit;
  sync_dir : result IoError unit
}.

Definition fs_ok : FsAnswers := {|
  create_dir_all := Ok tt; open_lock_file := Ok tt; flock_failure := None; open_tmp := Ok tt;
  write_tmp := Ok tt; sync_tmp := Ok tt; rename_tmp := Ok tt; sync_dir := Ok tt
|}.

Abbreviation lockM := (prog LockDir Error).

(** [?] on an [io::Result]. *)
Definition io {W A} (r : result IoError A) : prog W Error A := lift (result_map_err Io r).

(** ** Operations *)
Definition pid_text (pid : Z) : string :=
  (print_dec (Z.to_N pid) +:+ String newline EmptyString)%string.

Definition read_pidfile (w : LockDir) : option Z :=
  c ← pid_file w; parse_i32 (trim c).

(** [publish me]: the rename that puts the temporary file in place. *)
Definition publish (me : Z) (w : LockDir) : LockDir :=
  set_pid_tmp (delete me (pid_tmp w)) (set_pid_file (pid_tmp w !! me) w).

Definition write_pid_atomic (fs : FsAnswers) (me : Z) : lockM unit :=
  _ ← io (open_tmp fs);
  _ ← modify (λ w, set_pid_tmp (<[me := EmptyString]> (pid_tmp w)) w);
  _ ← io (write_tmp fs);
  _ ← modify (λ w, set_pid_tmp (<[me := pid_text me]> (pid_tmp w)) w);
  _ ← io (sync_tmp fs);
  match rename_tmp fs with
  | Err e =>
      _ ← modify (λ w, set_pid_tmp (delete me (pid_tmp w)) w);
      raise (Io e)
  | Ok _ =>
      _ ← modify (publish me);
      io (sync_dir fs)
  end.

(** [Flock::lock(.., LockExclusiveNonblock)]. *)
Definition flock_exclusive_nonblock (fs : FsAnswers) (me : Z) (w : LockDir)
    : result Errno unit * LockDir :=
  match flock_failure fs with
  | Some f => (Err (flock_errno f), w)
  | None =>
      match flock_holder w with
      | Some _ => (Err EAGAIN, w)
      | None => (Ok tt, set_holder (Some me) w)
      end
  end.

Definition acquire (fs : FsAnswers) (me : Z) (dir : string) : lockM DataDirLock :=
  _ ← io (create_dir_all fs);
  _ ← io (open_lock_file fs);
  w ← gets id;
  match flock_exclusive_nonblock fs me w with
  | (Err EAGAIN, _) => raise (LockHeld (default 0 (read_pidfile w)))
  | (Err errno, _) => raise (Nix errno)
  | (Ok _, w') =>
      _ ← modify (λ _, w');
      (* an error here drops the [Flock], which unlocks *)
      r ← attempt (write_pid_atomic fs me);
      match r with
      | Err e => _ ← modify (set_holder None); raise e
      | Ok _ => mret {| owner := me; data_dir := dir; pid_path := path_join dir PID_FILE |}
      end
  end.

(** [kill(pid, 0)]. *)
Definition is_pid_alive (kill : Z → result Errno unit) (pid : Z) : bool :=
  if decide (pid ≤ 0) then false
  else match kill pid with Err ESRCH => false | _ => true end.

(** Between the two attempts other processes run: [interference] is what they
    do to the directory. *)
Definition acquire_or_break_stale (fs1 fs2 : FsAnswers) (kill : Z → result Errno unit)
    (interference : LockDir → LockDir) (me : Z) (dir : string) : lockM DataDirLock :=
  r ← attempt (acquire fs1 me dir);
  match r with
  | Ok lock => mret lock
  | Err (LockHeld holder_pid) =>
      if bool_decide (holder_pid ≠ 0) && is_pid_alive kill holder_pid then
        raise (StaleLockBreakRefused holder_pid)
      else
        _ ← modify interference;
        r ← attempt (acquire fs2 me dir);
        match r with
        | Ok lock => mret lock
        | Err (LockHeld holder_pid) => raise (StaleLockBreakRefused holder_pid)
        | Err e => raise e
        end
  | Err e => raise e
  end.

(** [Drop for DataDirLock]: the body of [drop] runs first, then the fields are
    dropped and the flock goes.  [removed] is whether [remove_file] worked. *)
Definition drop_body (removed : bool) (w : LockDir) : LockDir :=
  if removed then set_pid_file None w else w.
Definition drop_flock (w : LockDir) : LockDir := set_holder None w.
Definition drop_lock (removed : bool) (w : LockDir) : LockDir := drop_flock (drop_body removed w).

(** ** Several processes

    How far each process that has the flock has got. *)
Inductive Stage : Type := Locked | Published | Holding | Dropping.

Record Ensemble : Type := mkEnsemble { dir : LockDir; stages : gmap Z Stage }.

Inductive lstep : Ensemble → Ensemble → Prop :=
| step_flock me w st :
    flock_holder w = None → st !! me = None →
    lstep (mkEnsemble w st) (mkEnsemble (set_holder (Some me) w) (<[me := Locked]> st))
| step_write_tmp me c w st :
    st !! me = Some Locked →
    lstep (mkEnsemble w st) (mkEnsemble (set_pid_tmp (<[me := c]> (pid_tmp w)) w) st)
| step_remove_tmp me w st :
    st !! me = Some Locked →
    lstep (mkEnsemble w st) (mkEnsemble (set_pid_tmp (delete me (pid_tmp w)) w) st)
| step_publish me w st :
    st !! me = Some Locked → pid_tmp w !! me = Some (pid_text me) →
    lstep (mkEnsemble w st) (mkEnsemble (publish me w) (<[me := Published]> st))
| step_acquired me w st :
    st !! me = Some Published →
    lstep (mkEnsemble w st) (mkEnsemble w (<[me := Holding]> st))
| step_give_up me s w st :
    st !! me = Some s → s = Locked ∨ s = Published →
    lstep (mkEnsemble w st) (mkEnsemble (set_holder None w) (delete me st))
| step_drop_body me removed w st :
    st !! me = Some Holding →
    lstep (mkEnsemble w st) (mkEnsemble (drop_body removed w) (<[me := Dropping]> st))
| step_drop_flock me w st :
    st !! me = Some Dropping →
    lstep (mkEnsemble w st) (mkEnsemble (drop_flock w) (delete me st))
| step_crash me s w st :
    st !! me = Some s →
    lstep (mkEnsemble w st) (mkEnsemble (set_holder None w) (delete me st)).

(** A directory no process has the flock on, whatever files a previous crash
    left in it. *)
Definition initial (e : Ensemble) : Prop := flock_holder (dir e) = None ∧ stages e = ∅.
Definition reachable (e : Ensemble) : Prop := ∃ e0, initial e0 ∧ rtc lstep e0 e.

(** The invariant of the ensemble. *)
Definition lock_inv (e : Ensemble) : Prop :=
  (∀ p, is_Some (stages e !! p) ↔ flock_holder (dir e) = Some p) ∧
  (∀ p, stages e !! p = Some Published ∨ stages e !! p = Some Holding →
        pid_file (dir e) = Some (pid_text p)).

(** ** Lemmas *)
Lemma read_pid_text w me :
  0 ≤ me ≤ i32_max → pid_file w = Some (pid_text me) → read_pidfile w = Some me.
Proof.
  intros Hme Hp. unfold read_pidfile, pid_text in *. rewrite Hp. simpl.
  rewrite trim_newline by auto with handoff.
  rewrite parse_print_i32 by lia. f_equal. lia.
Qed.

(** The ways [write_pid_atomic] can end. *)
Lemma write_pid_cases fs me w :
  let w0 := set_pid_tmp (<[me := EmptyString]> (pid_tmp w)) w in
  let w1 := set_pid_tmp (<[me := pid_text me]> (pid_tmp w0)) w0 in
  (∃ x, write_pid_atomic fs me w = (Err (Raise (Io x)), w)) ∨
  (∃ x, write_pid_atomic fs me w = (Err (Raise (Io x)), w0)) ∨
  (∃ x, write_pid_atomic fs me w = (Err (Raise (Io x)), w1)) ∨
  (∃ x, write_pid_atomic fs me w =
          (Err (Raise (Io x)), set_pid_tmp (delete me (pid_tmp w1)) w1)) ∨
  (∃ x, write_pid_atomic fs me w = (Err (Raise (Io x)), publish me w1)) ∨
  write_pid_atomic fs me w = (Ok tt, publish me w1).
Proof.
  intros w0 w1. unfold write_pid_atomic, io, lift, mbind, prog_bind, modify, raise.
  destruct (open_tmp fs) as [[]|x1]; simpl; [|eauto].
  destruct (write_tmp fs) as [[]|x2]; simpl; [|eauto].
  destruct (sync_tmp fs) as [[]|x3]; simpl; [|eauto 6].
  destruct (rename_tmp fs) as [[]|x4]; simpl; [|eauto 7].
  destruct (sync_dir fs) as [[]|x5]; simpl; eauto 9.
Qed.

Lemma publish_file me w : pid_file (publish me w) = pid_tmp w !! me.
Proof. done. Qed.
Lemma publish_holder me w : flock_holder (publish me w) = flock_holder w.
Proof. done. Qed.

Lemma write_pid_spec fs me w :
  match write_pid_atomic fs me w with
  | (Ok _, w') => flock_holder w' = flock_holder w ∧ pid_file w' = Some (pid_text me)
  | (Err (Raise e), w') => flock_holder w' = flock_holder w ∧ ∃ x, e = Io x
  | (Err _, _) => False
  end.
Proof.
  destruct (write_pid_cases fs me w) as [[x ->]|[[x ->]|[[x ->]|[[x ->]|[[x ->]| ->]]]]]; simpl; eauto.
  rewrite lookup_insert_eq. eauto.
Qed.

Lemma acquire_spec fs me d w :
  match acquire fs me d w with
  | (Ok g, w') =>
      g = mkDataDirLock me d (path_join d PID_FILE) ∧
      flock_holder w = None ∧ flock_holder w' = Some me ∧ pid_file w' = Some (pid_text me)
  | (Err (Raise e), w') =>
      flock_holder w' = flock_holder w ∧
      match e with
      | Io _ | Nix _ => True
      | LockHeld h => w' = w ∧ is_Some (flock_holder w) ∧ h = default 0 (read_pidfile w)
      | _ => False
      end
  | (Err _, _) => False
  end.
Proof.
  unfold acquire, io, lift, gets, mbind, prog_bind, modify, raise, attempt, mret, prog_ret.
  destruct (create_dir_all fs) as [[]|x1]; simpl; [|done].
  destruct (open_lock_file fs) as [[]|x2]; simpl; [|done].
  unfold flock_exclusive_nonblock. destruct (flock_failure fs) as [e|] eqn:Hff.
  { by destruct e. }
  destruct (flock_holder w) as [h|] eqn:Hh; simpl.
  { eauto. }
  pose proof (write_pid_spec fs me (set_holder (Some me) w)) as Hw.
  destruct (write_pid_atomic fs me (set_holder (Some me) w)) as [[[]|[e|c|]] w'] eqn:Hwr; simpl in *.
  - destruct Hw as [-> ->]. eauto.
  - destruct Hw as [_ [x ->]]. by split.
  - done.
  - done.
Qed.

(** *** Programs as sequences of steps *)
Lemma rtc_one e e' : lstep e e' → rtc lstep e e'.
Proof. apply rtc_once. Qed.

Lemma write_pid_steps fs me w st :
  st !! me = Some Locked →
  match write_pid_atomic fs me w with
  | (Ok _, w') => rtc lstep (mkEnsemble w st) (mkEnsemble w' (<[me := Published]> st))
  | (Err _, w') =>
      ∃ s, (s = Locked ∨ s = Published) ∧
        rtc lstep (mkEnsemble w st) (mkEnsemble w' (<[me := s]> st))
  end.
Proof.
  intros Hst. set (w0 := set_pid_tmp (<[me := EmptyString]> (pid_tmp w)) w).
  set (w1 := set_pid_tmp (<[me := pid_text me]> (pid_tmp w0)) w0).
  assert (H0 : rtc lstep (mkEnsemble w st) (mkEnsemble w0 st)) by (by apply rtc_once, step_write_tmp).
  assert (H1 : rtc lstep (mkEnsemble w st) (mkEnsemble w1 st)).
  { eapply rtc_r; [exact H0|]. by apply step_write_tmp. }
  assert (H2 : rtc lstep (mkEnsemble w st) (mkEnsemble (publish me w1) (<[me := Published]> st))).
  { eapply rtc_r; [exact H1|]. apply step_publish; [done|]. simpl. apply lookup_insert_eq. }
  assert (Hid : <[me := Locked]> st = st) by (by apply insert_id).
  destruct (write_pid_cases fs me w) as [[x ->]|[[x ->]|[[x ->]|[[x ->]|[[x ->]| ->]]]]]; [..|done];
    fold w0; fold w1.
  - exists Locked. rewrite Hid. split; [by left|done].
  - exists Locked. rewrite Hid. split; [by left|done].
  - exists Locked. rewrite Hid. split; [by left|done].
  - exists Locked. rewrite Hid. split; [by left|]. eapply rtc_r; [exact H1|]. by apply step_remove_tmp.
  - exists Published. split; [by right|done].
Qed.

Lemma acquire_steps fs me d w st :
  st !! me = None →
  match acquire fs me d w with
  | (Ok _, w') => rtc lstep (mkEnsemble w st) (mkEnsemble w' (<[me := Holding]> st))
  | (Err _, w') => rtc lstep (mkEnsemble w st) (mkEnsemble w' st)
  end.
Proof.
  intros Hst.
  unfold acquire, io, lift, gets, mbind, prog_bind, modify, raise, attempt, mret, prog_ret.
  destruct (create_dir_all fs) as [[]|x1]; simpl; [|reflexivity].
  destruct (open_lock_file fs) as [[]|x2]; simpl; [|reflexivity].
  unfold flock_exclusive_nonblock. destruct (flock_failure fs) as [e|]; [destruct e; simpl; reflexivity|].
  destruct (flock_holder w) as [h|] eqn:Hh; simpl; [reflexivity|].
  set (w1 := set_holder (Some me) w). set (st1 := <[me := Locked]> st).
  assert (H1 : lstep (mkEnsemble w st) (mkEnsemble w1 st1)) by (by apply step_flock).
  pose proof (write_pid_steps fs me w1 st1 (lookup_insert_eq _ _ _)) as Hw.
  pose proof (write_pid_spec fs me w1) as Hspec.
  destruct (write_pid_atomic fs me w1) as [[[]|[e|c|]] w'] eqn:Hwr; simpl in *; [| |done|done].
  - unfold st1 in Hw. rewrite insert_insert_eq in Hw. eapply rtc_l; [exact H1|].
    eapply rtc_r; [exact Hw|]. rewrite <- (insert_insert_eq st me Holding Published).
    apply step_acquired, lookup_insert_eq.
  - destruct Hw as (s & Hs & Hw). unfold st1 in Hw. rewrite insert_insert_eq in Hw.
    eapply rtc_l; [exact H1|]. eapply rtc_r; [exact Hw|].
    replace st with (delete me (<[me := s]> st)) at 2 by (by rewrite delete_insert_id).
    eapply step_give_up; [apply lookup_insert_eq|done].
Qed.

Lemma drop_steps removed me w st :
  st !! me = Some Holding →
  rtc lstep (mkEnsemble w st) (mkEnsemble (drop_lock removed w) (delete me st)).
Proof.
  intros Hst. eapply rtc_l; [by eapply (step_drop_body me removed)|].
  apply rtc_once. rewrite <- (delete_insert_eq st me Dropping).
  apply step_drop_flock, lookup_insert_eq.
Qed.

(** *** The ensemble's invariant *)
Lemma initial_inv e : initial e → lock_inv e.
Proof.
  intros [Hf Hs]. split; intros p; rewrite Hs, lookup_empty.
  - rewrite Hf. split; [by intros [? ?]|done].
  - by intros [?|?].
Qed.

Lemma stage_of_holder e p q s :
  lock_inv e → stages e !! p = Some s → stages e !! q = None → q ≠ p ∧ flock_holder (dir e) = Some p.
Proof. intros [H1 _] Hp Hq. split; [congruence|]. apply H1. eauto. Qed.

(** No process has a stage once the flock is free. *)
Lemma lock_inv_release e me s w' :
  lock_inv e → stages e !! me = Some s → lock_inv (mkEnsemble (set_holder None w') (delete me (stages e))).
Proof.
  intros [H1 H2] Hme.
  assert (flock_holder (dir e) = Some me) as Hh by (apply H1; eauto).
  assert (∀ p, delete me (stages e) !! p = None) as Hnone.
  { intros p. destruct (decide (p = me)) as [->|Hp]; [by rewrite lookup_delete_eq|].
    rewrite lookup_delete_ne by done. destruct (stages e !! p) as [s'|] eqn:Hs; [|done].
    assert (flock_holder (dir e) = Some p) by (apply H1; eauto). congruence. }
  split; intros p; simpl; rewrite Hnone; [split; [by intros [? ?]|done]|by intros [?|?]].
Qed.

(** A process that keeps its flock and moves to another stage. *)
Lemma lock_inv_move e me s s' w' :
  lock_inv e → stages e !! me = Some s → flock_holder w' = flock_holder (dir e) →
  (s' = Published ∨ s' = Holding → pid_file w' = Some (pid_text me)) →
  lock_inv (mkEnsemble w' (<[me := s']> (stages e))).
Proof.
  intros [H1 H2] Hme Hw Hpf.
  assert (flock_holder (dir e) = Some me) as Hh by (apply H1; eauto).
  assert (∀ p x, <[me := s']> (stages e) !! p = Some x → p = me ∧ x = s') as Honly.
  { intros p x. destruct (decide (p = me)) as [->|Hp].
    - rewrite lookup_insert_eq. intros [= <-]. done.
    - rewrite lookup_insert_ne by done. intros Hs.
      assert (flock_holder (dir e) = Some p) by (apply H1; eauto). congruence. }
  split; intros p; simpl.
  - rewrite Hw, Hh. split.
    + intros [x Hx]. apply Honly in Hx as [-> _]. done.
    + intros [= <-]. rewrite lookup_insert_eq. eauto.
  - intros [Hx|Hx]; apply Honly in Hx as [-> <-]; auto.
Qed.

Lemma lock_inv_step e e' : lock_inv e → lstep e e' → lock_inv e'.
Proof.
  intros Hinv Hstep.
  destruct Hstep as [me w st Hf Hs|me c w st Hs|me w st Hs|me w st Hs Ht|me w st Hs
    |me s w st Hs _|me removed w st Hs|me w st Hs|me s w st Hs].
  - destruct Hinv as [H1 H2]; simpl in *.
    assert (∀ p, st !! p = None) as Hnone.
    { intros p. destruct (st !! p) as [x|] eqn:Hp; [|done].
      assert (flock_holder w = Some p) by (apply H1; eauto). congruence. }
    split; intros p; simpl; (destruct (decide (p = me)) as [->|Hp];
      [rewrite lookup_insert_eq|rewrite lookup_insert_ne, Hnone by done]).
    + split; [done|]. intros _. by eexists.
    + split; [by intros [? ?]|]. intros [= ?]. congruence.
    + by intros [?|?].
    + by intros [?|?].
  - destruct Hinv as [H1 H2]. by split.
  - destruct Hinv as [H1 H2]. by split.
  - eapply (lock_inv_move _ me Locked Published (publish me w)) in Hinv; try done.
  - pose proof (proj2 Hinv me (or_introl Hs)) as Hp.
    eapply (lock_inv_move _ me Published Holding w) in Hinv; done.
  - by eapply (lock_inv_release _ me s w) in Hinv.
  - eapply (lock_inv_move _ me Holding Dropping (drop_body removed w)) in Hinv; try done.
    + by destruct removed.
    + by intros [?|?].
  - by eapply (lock_inv_release _ me Dropping w) in Hinv.
  - by eapply (lock_inv_release _ me s w) in Hinv.
Qed.

Lemma reachable_inv e : reachable e → lock_inv e.
Proof.
  intros (e0 & Hi & Hr). apply initial_inv in Hi.
  induction Hr as [|e1 e2 e3 Hs _ IH]; [done|]. apply IH. by eapply lock_inv_step.
Qed.

(** ** Properties *)

(** C28: one attempt at the lock, on every branch.  [acquire] succeeds only
    when nobody had the flock; then this process has it and the pidfile reads
    back as this process.  It reports [LockHeld] exactly when the lock file
    could be opened, [flock] answered and somebody has the flock: the pid
    reported is the pidfile's, 0 when it is missing or malformed, and nothing
    was changed.  After any other error the flock is as it was: a failure to
    publish the pid gives the flock back. *)
Theorem acquire_outcomes fs me d w (Hme : 0 ≤ me ≤ i32_max) :
  match acquire fs me d w with
  | (Ok g, w') =>
      flock_holder w = None ∧ flock_holder w' = Some me ∧ read_pidfile w' = Some me ∧
      owner g = me ∧ data_dir g = d
  | (Err (Raise (LockHeld h)), w') =>
      w' = w ∧ is_Some (flock_holder w) ∧ h = default 0 (read_pidfile w)
  | (Err (Raise _), w') => flock_holder w' = flock_holder w
  | (Err _, _) => False
  end ∧
  (fs = fs_ok → is_ok (acquire fs me d w).1 = bool_decide (flock_holder w = None)).
Proof.
  split.
  - pose proof (acquire_spec fs me d w) as H.
    destruct (acquire fs me d w) as [[g|[e|c|]] w']; [| |done|done].
    + destruct H as (-> & ? & ? & ?). repeat split; eauto using read_pid_text.
    + destruct H as [Hw H]. by destruct e.
  - intros ->. case_bool_decide as Hh.
    + unfold acquire. simpl. unfold mbind, prog_bind. simpl.
      unfold flock_exclusive_nonblock. simpl. by rewrite Hh.
    + unfold acquire. simpl. unfold mbind, prog_bind. simpl.
      unfold flock_exclusive_nonblock. simpl. destruct (flock_holder w); done.
Qed.

(** The pidfile a crash left behind does not matter. *)
Lemma acquire_outcomes_witness :
  let w := mkLockDir None (Some (pid_text 17)) ∅ in
  0 ≤ 42 ≤ i32_max ∧ is_ok (acquire fs_ok 42 "/d" w).1 = true.
Proof.
  intros w. assert (0 ≤ 42 ≤ i32_max) as H by (unfold i32_max; lia). split; [exact H|].
  pose proof (proj2 (acquire_outcomes fs_ok 42 "/d" w H) eq_refl) as Hr. exact Hr.
Defined.

(** C31: [acquire_or_break_stale] never takes a lock somebody has: if it
    succeeds, the flock was free at one of its two attempts.  It never
    surfaces [LockHeld]: a lock that is held is [StaleLockBreakRefused], and
    then either the holder the pidfile names is alive or the flock was still
    held at the second attempt.  And whatever a crashed holder left in the
    pidfile, it recovers at the first attempt once the kernel has released
    the flock. *)
Theorem break_stale_safe fs1 fs2 kill interference me d w :
  match acquire_or_break_stale fs1 fs2 kill interference me d w with
  | (Ok g, w') =>
      (flock_holder w = None ∨ flock_holder (interference w) = None) ∧
      flock_holder w' = Some me ∧ pid_file w' = Some (pid_text me) ∧ owner g = me
  | (Err (Raise (StaleLockBreakRefused p)), w') =>
      is_Some (flock_holder w) ∧
      ((p ≠ 0 ∧ read_pidfile w = Some p ∧ is_pid_alive kill p = true ∧ w' = w) ∨
       (is_Some (flock_holder (interference w)) ∧ w' = interference w ∧
        p = default 0 (read_pidfile w')))
  | (Err (Raise e), _) => ∀ p, e ≠ LockHeld p
  | (Err _, _) => False
  end ∧
  (fs1 = fs_ok → flock_holder w = None →
   is_ok (acquire_or_break_stale fs1 fs2 kill interference me d w).1 = true).
Proof.
  unfold acquire_or_break_stale, mbind, prog_bind, attempt, mret, prog_ret, raise, modify.
  split.
  - pose proof (acquire_spec fs1 me d w) as H.
    destruct (acquire fs1 me d w) as [[g|[e|c|]] w1]; simpl in *; [| |done|done].
    { destruct H as (-> & ? & ? & ?). eauto. }
    destruct H as [Hw H]. destruct e; try done.
    destruct H as (-> & Hheld & ->).
    destruct (_ && _) eqn:Hal; simpl.
    { apply andb_true_iff in Hal as [Hne Hal]. apply bool_decide_eq_true in Hne.
      split; [done|]. left. destruct (read_pidfile w) as [p|]; done. }
    pose proof (acquire_spec fs2 me d (interference w)) as H.
    destruct (acquire fs2 me d (interference w)) as [[g|[e|c|]] w2]; simpl in *; [| |done|done].
    { destruct H as (-> & ? & ? & ?). eauto. }
    destruct H as [Hw2 H]. destruct e; try done.
    destruct H as (-> & ? & ->). eauto.
  - intros -> Hh. pose proof (acquire_spec fs_ok me d w) as H.
    unfold acquire, mbind, prog_bind in *. simpl in *.
    unfold flock_exclusive_nonblock in *. simpl in *. by rewrite Hh.
Qed.

Lemma break_stale_safe_witness :
  let w := mkLockDir None (Some (pid_text 999999)) ∅ in
  flock_holder w = None ∧
  is_ok (acquire_or_break_stale fs_ok fs_ok (λ _, Ok tt) id 42 "/d" w).1 = true.
Proof.
  intros w. split; [reflexivity|].
  exact (proj2 (break_stale_safe fs_ok fs_ok (λ _, Ok tt) id 42 "/d" w) eq_refl eq_refl).
Defined.

(** C13: in every state any number of processes can reach by interleaving the
    system calls of [acquire] and [Drop], with crashes anywhere, at most one
    process has the lock, the kernel agrees on which, and from the moment it
    published its pid until its guard is dropped the pidfile names it.  The
    executable [acquire], [Drop] and the crash of a holder are runs of that
    system. *)
Theorem lock_mutual_exclusion e (He : reachable e) :
  (∀ p q, is_Some (stages e !! p) → is_Some (stages e !! q) → p = q) ∧
  (∀ p, stages e !! p = Some Holding →
     flock_holder (dir e) = Some p ∧ pid_file (dir e) = Some (pid_text p)) ∧
  (∀ fs p d, stages e !! p = None →
     reachable (match acquire fs p d (dir e) with
                | (Ok _, w') => mkEnsemble w' (<[p := Holding]> (stages e))
                | (Err _, w') => mkEnsemble w' (stages e)
                end)) ∧
  (∀ removed p, stages e !! p = Some Holding →
     reachable (mkEnsemble (drop_lock removed (dir e)) (delete p (stages e)))).
Proof.
  pose proof (reachable_inv e He) as [H1 H2]. destruct He as (e0 & Hi & Hr).
  assert (e = mkEnsemble (dir e) (stages e)) as Heta by (by destruct e).
  repeat split.
  - intros p q Hp%H1 Hq%H1. congruence.
  - apply H1. eauto.
  - apply H2. eauto.
  - intros fs p d Hp. exists e0. split; [done|].
    pose proof (acquire_steps fs p d (dir e) (stages e) Hp) as Ha. rewrite <- Heta in Ha.
    destruct (acquire fs p d (dir e)) as [[g|x] w']; by etransitivity.
  - intros removed p Hp. exists e0. split; [done|].
    pose proof (drop_steps removed p (dir e) (stages e) Hp) as Ha. rewrite <- Heta in Ha.
    by etransitivity.
Qed.

Lemma lock_mutual_exclusion_witness :
  let e := mkEnsemble (mkLockDir None (Some "junk"%string) ∅) ∅ in
  reachable e ∧
  reachable (mkEnsemble (acquire fs_ok 42 "/d" (dir e)).2 {[ 42 := Holding ]}).
Proof.
  intros e. assert (reachable e) as He by (exists e; split; [done|reflexivity]).
  split; [exact He|].
  exact (proj1 (proj2 (proj2 (lock_mutual_exclusion e He))) fs_ok 42 "/d"%string eq_refl).
Defined.
