(* ===== verification/Channel.v ===== *)
(** * Control channels

    What the two state machines ([incumbent.rs], [supervisor.rs]) and the
    successor ([role.rs]) use of a control stream: one frame read through the
    stream's accumulator, one frame written, the receive time-out and
    [try_clone].  The class [ControlChannel] is that interface and [ChannelLaws] what
    its clients rely on; the two instances are the stream of [Frame] (bytes,
    accumulator, send script) and a script of messages, which the witnesses
    run. *)
From S2P Require Import Prelude Errors Protocol Sock Frame.
From stdpp Require Import base tactics option list numbers strings.
Local Open Scope Z_scope.

Class ControlChannel (T : Type) : Type := {
  ch_poll : T → Result (option (ProtoVersion * Message)) * T;
  ch_has_partial : T → bool;
  ch_read_message : T → Result (ProtoVersion * Message) * T;
  ch_write : ProtoVersion → Message → T → Result unit * T;
  ch_set_read_timeout : option Z → T → result IoError unit * T;
  ch_try_clone : T → result IoError unit
}.

(** A poll that delivers a frame or a time-out has consumed something;
    nothing else adds input. *)
Class ChannelLaws (T : Type) `{ControlChannel T} : Type := {
  ch_valid : T → Prop;
  ch_size : T → nat;
  ch_poll_valid t : ch_valid t → ch_valid (ch_poll t).2;
  ch_poll_size t : ch_valid t →
    if is_ok (ch_poll t).1 then (ch_size (ch_poll t).2 < ch_size t)%nat
    else (ch_size (ch_poll t).2 ≤ ch_size t)%nat;
  ch_read_valid t : ch_valid t → ch_valid (ch_read_message t).2;
  ch_read_size t :
    if is_ok (ch_read_message t).1 then (ch_size (ch_read_message t).2 < ch_size t)%nat
    else (ch_size (ch_read_message t).2 ≤ ch_size t)%nat;
  ch_write_valid v m t : ch_valid t → ch_valid (ch_write v m t).2;
  ch_write_size v m t : ch_size (ch_write v m t).2 = ch_size t;
  ch_timeout_valid d t : ch_valid t → ch_valid (ch_set_read_timeout d t).2;
  ch_timeout_size d t : ch_size (ch_set_read_timeout d t).2 = ch_size t
}.

(** ** Reading in one shot consumes input *)
Lemma read_exact_size r k :
  (reader_size (read_exact r k).2 ≤ reader_size r)%nat ∧
  (k ≠ 0%nat → is_ok (read_exact r k).1 = true → (reader_size (read_exact r k).2 < reader_size r)%nat).
Proof.
  revert k. induction r as [|[[|b bs]|e] r IH]; intros k; cbn [read_exact];
    (destruct (decide (k = 0%nat)) as [->|Hk]; [by split|]).
  - by split.
  - rewrite reader_size_cons. simpl. split; [lia|done].
  - destruct (decide (length (b :: bs) ≤ k)%nat) as [Hle|Hgt].
    + destruct (IH (k - length (b :: bs))%nat) as [IH1 _]. rewrite reader_size_cons.
      destruct (read_exact r _) as [[x|e] r']; simpl in *; split; intros; lia.
    + cbn [fst snd]. rewrite !reader_size_cons, length_drop. cbn [length] in *. split; intros; lia.
  - destruct (IH k) as [H1 H2]. rewrite reader_size_cons. case_decide; simpl; split; intros; lia.
Qed.

Lemma read_message_size `{PayloadCodec} r :
  if is_ok (read_message r).1 then (reader_size (read_message r).2 < reader_size r)%nat
  else (reader_size (read_message r).2 ≤ reader_size r)%nat.
Proof.
  unfold read_message. destruct (read_exact_size r LEN_PREFIX) as [H1 H2].
  destruct (read_exact r LEN_PREFIX) as [[len|e] r1]; simpl in *; [|done].
  specialize (H2 ltac:(done) eq_refl). repeat case_decide; simpl; try lia.
  destruct (read_exact_size r1 VERSION_FIELD) as [Hv _].
  destruct (read_exact r1 VERSION_FIELD) as [[ver|e] r2]; simpl in *; [|lia].
  destruct (read_exact_size r2 (Z.to_nat (le_Z len) - VERSION_FIELD)) as [Hp _].
  destruct (read_exact r2 _) as [[p|e] r3]; simpl in *; [|lia].
  destruct (from_bytes p); simpl; lia.
Qed.

(** ** A stream with its accumulator *)
Module Stream.
Record stream : Type := mkStream {
  acc : FrameAccumulator;
  input : reader;
  output : send_script;
  wire : list byte;
  timeout_results : list (result IoError unit);
  clone_result : result IoError unit
}.

Section stream.
Context `{PayloadCodec}.

(** [poll_read] does not panic on the accumulators that occur
    ([stream_valid]); the [None] branch is never taken. *)
Definition poll (s : stream) : Result (option (ProtoVersion * Message)) * stream :=
  match poll_read (acc s) (input s) with
  | Some (res, a, r) => (res, mkStream a r (output s) (wire s) (timeout_results s) (clone_result s))
  | None => (Err Errors.Channel, s)
  end.

Definition read_one (s : stream) : Result (ProtoVersion * Message) * stream :=
  let '(res, r) := read_message (input s) in
  (res, mkStream (acc s) r (output s) (wire s) (timeout_results s) (clone_result s)).

Definition write (v : ProtoVersion) (m : Message) (s : stream) : Result unit * stream :=
  let '(res, out, bs) := write_frame (output s) v m in
  (res, mkStream (acc s) (input s) out (wire s ++ bs) (timeout_results s) (clone_result s)).

Definition set_read_timeout (d : option Z) (s : stream) : result IoError unit * stream :=
  match timeout_results s with
  | [] => (Ok tt, s)
  | r :: rs => (r, mkStream (acc s) (input s) (output s) (wire s) rs (clone_result s))
  end.

#[global] Instance stream_channel : ControlChannel stream := {|
  ch_poll := poll;
  ch_has_partial s := has_partial (acc s);
  ch_read_message := read_one;
  ch_write := write;
  ch_set_read_timeout := set_read_timeout;
  ch_try_clone := clone_result
|}.

#[global] Instance stream_laws : ChannelLaws stream.
Proof.
  refine {| ch_valid s := wf_acc (acc s); ch_size s := reader_size (input s) |};
    intros; simpl in *.
  1,2: unfold poll;
    destruct (poll_read_spec (acc t) (input t)) as (res & a & r & -> & Hwf & Hle & Hlt & _); [done|].
  - done.
  - simpl. by destruct res.
  - unfold read_one. by destruct (read_message _).
  - unfold read_one. pose proof (read_message_size (input t)).
    by destruct (read_message (input t)) as [res r].
  - unfold write. by destruct (write_frame _ _ _) as [[??]?].
  - unfold write. by destruct (write_frame _ _ _) as [[??]?].
  - unfold set_read_timeout. by destruct (timeout_results t).
  - unfold set_read_timeout. by destruct (timeout_results t).
Defined.
End stream.
End Stream.

(** ** A script of messages *)
Module Script.
Record script : Type := mkScript {
  inbox : list (Result (option Message));
  write_results : list (Result unit);
  sent : list Message;
  clone_fails : bool
}.

(** [read_message] skips no time-outs: the script's [None] entries are the
    receive time-outs of a stream read through an accumulator. *)
Definition read_one (msgs : list (Result (option Message)))
    : Result (ProtoVersion * Message) * list (Result (option Message)) :=
  match msgs with
  | [] => (Err eof, [])
  | Ok None :: msgs => (Err (Io (io_from_errno EAGAIN)), msgs)
  | Ok (Some m) :: msgs => (Ok (1, m), msgs)
  | Err e :: msgs => (Err e, msgs)
  end.

(** An exhausted inbox is the peer's disconnection; writes succeed by
    default. *)
Definition poll (s : script) : Result (option (ProtoVersion * Message)) * script :=
  match inbox s with
  | [] => (Err eof, s)
  | r :: rs => (fmap (M := result Error) (fmap (M := option) (pair 1)) r,
                mkScript rs (write_results s) (sent s) (clone_fails s))
  end.

Definition write (v : ProtoVersion) (m : Message) (s : script) : Result unit * script :=
  match write_results s with
  | Err e :: rs => (Err e, mkScript (inbox s) rs (sent s) (clone_fails s))
  | rs => (Ok tt, mkScript (inbox s) (tail rs) (sent s ++ [m]) (clone_fails s))
  end.

#[global] Instance script_channel : ControlChannel script := {|
  ch_poll := poll;
  ch_has_partial _ := false;
  ch_read_message s :=
    let '(r, msgs) := read_one (inbox s) in
    (r, mkScript msgs (write_results s) (sent s) (clone_fails s));
  ch_write := write;
  ch_set_read_timeout _ s := (Ok tt, s);
  ch_try_clone s := if clone_fails s then Err (io_from_errno EMFILE) else Ok tt
|}.

#[global] Instance script_laws : ChannelLaws script.
Proof.
  refine {| ch_valid _ := True; ch_size s := length (inbox s) |}; intros; simpl in *; try done.
  all: unfold poll, write, read_one in *;
    repeat (case_match; simplify_eq/=); try done;
    repeat match goal with Hi : inbox _ = _ |- _ => rewrite Hi end; simpl; lia.
Defined.

(** A peer that sends [ms] and then closes, and reads everything. *)
Definition says (ms : list Message) : script :=
  mkScript ((λ m, Ok (Some m)) <$> ms) [] [] false.
End Script.
