(* ===== verification/Talking.v ===== *)
(** * Peers that do their part

    The liveness theorems are about conversations in which every frame
    arrives and every write succeeds.  [Talking] is what they need of a
    channel for that, with an instance for the scripts of messages and one for
    the bytes of [Frame]; [succeeds] are the rules for programs that return. *)
From stdpp Require Import base tactics option list numbers strings.
From S2P Require Import Prelude Errors Protocol Sock Frame Channel.
Local Open Scope Z_scope.

(** [pending t ms n]: the peer's next frames are [ms], they arrive whole, and
    the next [n] writes of messages that fit in a frame succeed. *)
Class Talking (T : Type) `{ControlChannel T} `{!ChannelLaws T} : Type := {
  pending : T → list Message → nat → Prop;
  fits : ProtoVersion → Message → Prop;
  pending_valid t ms n : pending t ms n → ch_valid t;
  pending_poll t m ms n :
    pending t (m :: ms) n → ∃ v t', ch_poll t = (Ok (Some (v, m)), t') ∧ pending t' ms n;
  pending_read t m ms n :
    pending t (m :: ms) n → ∃ v t', ch_read_message t = (Ok (v, m), t') ∧ pending t' ms n;
  pending_write t ms n v m :
    fits v m → pending t ms (S n) → ∃ t', ch_write v m t = (Ok tt, t') ∧ pending t' ms n;
  pending_timeout t ms n d :
    pending t ms n → ∃ t', ch_set_read_timeout d t = (Ok tt, t') ∧ pending t' ms n;
  pending_clone t ms n : pending t ms n → ch_try_clone t = Ok tt
}.

Lemma pending_size {T} `{Talking T} t ms n : pending t ms n → (length ms ≤ ch_size t)%nat.
Proof.
  revert t. induction ms as [|m ms IH]; intros t Ht; simpl; [lia|].
  destruct (pending_poll t m ms n Ht) as (v & t' & Hp & Ht'). specialize (IH _ Ht').
  pose proof (ch_poll_size t) as Hs. rewrite Hp in Hs. simpl in Hs.
  specialize (Hs (pending_valid _ _ _ Ht)). lia.
Qed.

(** Frames that only keep the connection alive. *)
Definition chatter (m : Message) : bool :=
  match m with Heartbeat _ | SealProgress _ _ _ => true | _ => false end.
Abbreviation chats hs := (Forall (λ h, chatter h = true) hs).
Abbreviation all_heartbeats hs := (Forall (λ h, ∃ ts, h = Heartbeat ts) hs).

Lemma heartbeats_chat hs : all_heartbeats hs → chats hs.
Proof. intros Hh. eapply Forall_impl; [exact Hh|]. by intros m [ts ->]. Qed.

(** ** A script of messages *)
#[export] Instance script_talking : Talking Script.script.
Proof.
  refine {| pending s ms n :=
              Script.inbox s = (λ m, Ok (Some m)) <$> ms ∧ Script.write_results s = [] ∧
              Script.clone_fails s = false;
            fits v m := True |}.
  - done.
  - intros s m ms n (Hi & Hw & Hc). exists 1. simpl. unfold Script.poll. rewrite Hi. simpl. eexists. by split.
  - intros s m ms n (Hi & Hw & Hc). exists 1. simpl. rewrite Hi. simpl. eexists. by split.
  - intros s ms n v m _ (Hi & Hw & Hc). simpl. unfold Script.write. rewrite Hw. eexists. by split.
  - intros s ms n d Hp. by exists s.
  - intros s ms n (_ & _ & Hc). simpl. by rewrite Hc.
Defined.

Lemma says_pending ms n : pending (Script.says ms) ms n.
Proof. done. Qed.

(** ** The bytes of [Frame] *)

(** The kernel takes something at every [send(2)], or the call is
    interrupted; [capacity] calls are left. *)
Definition willing (r : send_ret) : Prop :=
  match r with Sent k => (0 < k)%nat | SendFailed e => decode_error_kind e = Interrupted end.
Definition capacity (out : send_script) : nat :=
  length (List.filter (λ r, match r with Sent _ => true | SendFailed _ => false end) out).

Lemma send_all_willing out bs :
  Forall willing out → (length bs ≤ capacity out)%nat →
  ∃ out', send_all out bs = (Ok tt, out', bs) ∧ Forall willing out' ∧
    (capacity out ≤ capacity out' + length bs)%nat.
Proof.
  intros Hw. revert bs.
  assert (∀ out, Forall willing out → ∃ out', send_all out [] = (Ok tt, out', []) ∧ Forall willing out' ∧
    (capacity out ≤ capacity out' + 0)%nat) as Hnil.
  { intros o Ho. exists o. split; [by destruct o|]. split; [done|lia]. }
  induction Hw as [|r out Hr Hw IH]; intros [|b bs] Hc; [by apply Hnil|unfold capacity in Hc; simpl in Hc; lia|by apply Hnil; constructor|].
  destruct r as [k|e]; simpl in Hr; simpl.
  - unfold capacity in Hc. simpl in Hc. fold (capacity out) in Hc. rewrite decide_False by lia.
    destruct (IH (drop (k `min` S (length bs)) (b :: bs))) as (out' & -> & Hw' & Hc').
    { rewrite length_drop. simpl. lia. }
    eexists. rewrite length_drop in Hc'. simpl in Hc'. split; [by rewrite take_drop|]. split; [done|].
    unfold capacity in *. simpl. lia.
  - rewrite decide_True by done. by apply IH.
Qed.

Section bytes.
Context `{PayloadCodec} `{!CodecLaws}.

Definition largest_frame : nat := 4 + Z.to_nat MAX_FRAME_BYTES.

(** The peer's frames are [ms], in some segmentation without time-outs, and
    there is room for [n] frames of the largest size. *)
Record pending_bytes (s : Stream.stream) (ms : list Message) (n : nat) : Prop := {
  pb_acc : wf_acc (Stream.acc s) ∧ buf (Stream.acc s) = [];
  pb_reader : blocking (Stream.input s);
  pb_bytes : ∃ vms bs rest, vms.*2 = ms ∧ Forall (λ vm, is_u16 vm.1) vms ∧
    encode_all vms = Ok bs ∧ stream_bytes (Stream.input s) = bs ++ rest;
  pb_room : Forall willing (Stream.output s) ∧ (n * largest_frame ≤ capacity (Stream.output s))%nat;
  pb_timeouts : Forall (λ r, r = Ok tt) (Stream.timeout_results s);
  pb_clone : Stream.clone_result s = Ok tt
}.

Lemma bytes_head s m ms n :
  pending_bytes s (m :: ms) n →
  ∃ v p rest, frame_at (stream_bytes (Stream.input s)) = Complete v p rest ∧ from_bytes p = Ok m ∧
    ∃ vms bs rest', vms.*2 = ms ∧ Forall (λ vm, is_u16 vm.1) vms ∧ encode_all vms = Ok bs ∧ rest = bs ++ rest'.
Proof.
  intros [_ _ (vms & bs & rest & Hms & Hv & Hb & ->) _ _ _].
  destruct vms as [|[v m'] vms]; [done|]. injection Hms as -> Hms. inversion Hv as [|?? Hv1 Hv2]. subst.
  simpl in Hb. destruct (encode v m) as [b|] eqn:He; [|done].
  destruct (encode_all vms) as [bs'|] eqn:Hbs; [|done]. injection Hb as <-. rewrite <- app_assoc.
  destruct (encode_frame v m b (bs' ++ rest) _ Hv1 He) as (p & Hf & Hp). eauto 12.
Qed.

Lemma pending_bytes_poll s m ms n :
  pending_bytes s (m :: ms) n → ∃ v s', Stream.poll s = (Ok (Some (v, m)), s') ∧ pending_bytes s' ms n.
Proof.
  intros Hp. destruct (bytes_head _ _ _ _ Hp) as (v & p & rest & Hf & Hm & Hrest).
  destruct Hp as [[Hwf Hbuf] Hr _ Ho Ht Hc]. unfold Stream.poll.
  destruct (poll_read_spec (Stream.acc s) (Stream.input s) Hwf) as (res & a & r & Hpr & Hwf' & _ & _ & Hben).
  rewrite Hpr. apply poll_read_blocking in Hpr as [Hr' Hnone]; [|done].
  destruct (Hben (blocking_benign _ Hr)) as [_ Hres]. rewrite Hbuf in Hres. simpl in Hres.
  rewrite Hf in Hres. destruct res as [[[v' m']|]|e]; [|done|].
  - destruct Hres as (p' & [= -> -> ->] & Hm' & Hb). rewrite Hm in Hm'. simplify_eq.
    exists v'. eexists. split; [done|]. by split.
  - destruct Hres as [[_ ?]|[?|(_ & v' & p' & rest' & [= -> -> ->] & Hm')]]; [done|done|congruence].
Qed.

Lemma pending_bytes_read s m ms n :
  pending_bytes s (m :: ms) n → ∃ v s', Stream.read_one s = (Ok (v, m), s') ∧ pending_bytes s' ms n.
Proof.
  intros Hp. destruct (bytes_head _ _ _ _ Hp) as (v & p & rest & Hf & Hm & Hrest).
  destruct Hp as [Ha Hr _ Ho Ht Hc]. unfold Stream.read_one.
  destruct (read_message (Stream.input s)) as [res r] eqn:Hread.
  apply read_message_spec in Hread; [|done]. rewrite Hf in Hread. destruct res as [[v' m']|e].
  - destruct Hread as (Hr' & p' & [= -> -> ->] & Hm'). rewrite Hm in Hm'. simplify_eq.
    exists v'. eexists. split; [done|]. by split.
  - destruct Hread as [[_ ?]|[?|(_ & v' & p' & rest' & [= -> -> ->] & Hm')]]; [done|done|congruence].
Qed.

Lemma pending_bytes_write s ms n v m :
  is_ok (encode v m) = true → pending_bytes s ms (S n) →
  ∃ s', Stream.write v m s = (Ok tt, s') ∧ pending_bytes s' ms n.
Proof.
  intros Hfit [Ha Hr Hb [Hw Hn] Ht Hc]. unfold Stream.write, write_frame.
  destruct (encode v m) as [bs|] eqn:He; [|done].
  apply encode_ok_inv in He as (p & _ & Hlen & ->). set (bs := _ ++ _).
  assert (length bs ≤ largest_frame)%nat as Hbs.
  { unfold bs, largest_frame. rewrite !length_app, !length_le_bytes. lia. }
  destruct (send_all_willing (Stream.output s) bs Hw) as (out' & -> & Hw' & Hc').
  { rewrite Nat.mul_succ_l in Hn. lia. }
  simpl. eexists. split; [done|]. split; try done. split; [done|]. simpl. rewrite Nat.mul_succ_l in Hn. lia.
Qed.

#[export] Instance stream_talking : Talking Stream.stream.
Proof.
  refine {| pending := pending_bytes; fits v m := is_ok (encode v m) = true |}.
  - intros s ms n [[Ha _] _ _ _ _ _]. exact Ha.
  - apply pending_bytes_poll.
  - apply pending_bytes_read.
  - apply pending_bytes_write.
  - intros s ms n d [Ha Hr Hb Ho Ht Hc]. simpl. unfold Stream.set_read_timeout.
    destruct (Stream.timeout_results s) as [|r rs] eqn:Heq.
    + exists s. split; [done|]. split; try done. by rewrite Heq.
    + apply Forall_cons in Ht as [-> Hrs]. eexists. split; [done|]. by split.
  - intros s ms n Hp. apply Hp.
Defined.
End bytes.

(** ** Runs that succeed *)
Definition succeeds {W E A} (m : prog W E A) (Q : A → W → Prop) (w : W) : Prop :=
  match m w with (Ok a, w') => Q a w' | _ => False end.

Section succeeds.
Context {W E : Type}.
Implicit Types w : W.

Lemma succeeds_bind {A B} (m : prog W E A) (f : A → prog W E B) P Q w :
  succeeds m P w → (∀ a w', P a w' → succeeds (f a) Q w') → succeeds (m ≫= f) Q w.
Proof.
  unfold succeeds, mbind, prog_bind. destruct (m w) as [[a|e] w']; [|done]. intros HP Hf. by apply Hf.
Qed.
Lemma succeeds_mono {A} (m : prog W E A) (P Q : A → W → Prop) w :
  succeeds m P w → (∀ a w', P a w' → Q a w') → succeeds m Q w.
Proof. unfold succeeds. destruct (m w) as [[a|e] w']; [|done]. auto. Qed.
Lemma succeeds_ret {A} (a : A) (Q : A → W → Prop) w : Q a w → succeeds (E := E) (mret a) Q w.
Proof. done. Qed.
Lemma succeeds_gets {A} (f : W → A) (Q : A → W → Prop) w : Q (f w) w → succeeds (E := E) (gets f) Q w.
Proof. done. Qed.
Lemma succeeds_modify (f : W → W) (Q : unit → W → Prop) w :
  Q tt (f w) → succeeds (E := E) (modify f) Q w.
Proof. done. Qed.
Lemma succeeds_lift {A} (r : result E A) a (Q : A → W → Prop) w :
  r = Ok a → Q a w → succeeds (lift r) Q w.
Proof. by intros ->. Qed.
Lemma succeeds_attempt {A} (m : prog W E A) (Q : A → W → Prop) w :
  succeeds m Q w → succeeds (E := E) (attempt m) (λ r w', ∃ a, r = Ok a ∧ Q a w') w.
Proof. unfold succeeds, attempt. destruct (m w) as [[a|e] w']; [|done]. eauto. Qed.

(** A program that reads the world and goes on. *)
Lemma wp_bind_gets {A B} (f : W → A) (k : A → prog W E B) (Q : result (exn E) B → W → Prop) w :
  wp (k (f w)) Q w → wp (gets f ≫= k) Q w.
Proof. done. Qed.
Lemma wp_bind_modify {B} (f : W → W) (k : unit → prog W E B) (Q : result (exn E) B → W → Prop) w :
  wp (k tt) Q (f w) → wp (modify f ≫= k) Q w.
Proof. done. Qed.
Lemma succeeds_bind_gets {A B} (f : W → A) (k : A → prog W E B) Q w :
  succeeds (k (f w)) Q w → succeeds (gets f ≫= k) Q w.
Proof. done. Qed.
Lemma succeeds_bind_modify {B} (f : W → W) (k : unit → prog W E B) Q w :
  succeeds (k tt) Q (f w) → succeeds (modify f ≫= k) Q w.
Proof. done. Qed.
Lemma succeeds_bind_ret {A B} (a : A) (k : A → prog W E B) Q w :
  succeeds (k a) Q w → succeeds (mret a ≫= k) Q w.
Proof. done. Qed.
Lemma succeeds_assoc {A B C} (m : prog W E A) (f : A → prog W E B) (g : B → prog W E C) Q w :
  succeeds (m ≫= λ a, f a ≫= g) Q w → succeeds ((m ≫= f) ≫= g) Q w.
Proof. unfold succeeds, mbind, prog_bind. by destruct (m w) as [[a|e] w']. Qed.
Lemma succeeds_bind_lift {A B} (r : result E A) a (f : A → prog W E B) Q w :
  r = Ok a → succeeds (f a) Q w → succeeds (lift r ≫= f) Q w.
Proof. by intros ->. Qed.
Lemma succeeds_bind_ret_r {A} (m : prog W E A) (Q : A → W → Prop) w :
  succeeds (m ≫= mret) Q w → succeeds m Q w.
Proof. unfold succeeds, mbind, prog_bind. by destruct (m w) as [[a|e] w']. Qed.
Lemma succeeds_run {A} (m : prog W E A) (Q : A → W → Prop) w :
  succeeds m Q w ↔ ∃ a w', m w = (Ok a, w') ∧ Q a w'.
Proof. unfold succeeds. destruct (m w) as [[a|e] w']; naive_solver. Qed.
End succeeds.

(** ** A conversation

    Everything that is said in a handoff that commits, with the heartbeats and
    progress frames that may come in between. *)
Record Conversation : Type := mkConversation {
  c_id : HandoffId;
  o_pid : Z; o_build : list byte; o_lo : Z; o_hi : Z; o_caps : Capabilities;
  n_pid : Z; n_build : list byte; n_lo : Z; n_hi : Z; n_caps : Capabilities;
  v_o : ProtoVersion; v_n : ProtoVersion;
  c_deadline_ms : Z; c_drain_grace_ms : Z;
  c_conns : Z; c_closed : bool;
  c_revs : list Z; c_fingerprint : list byte;
  c_listening : list string; c_healthy : bool; c_ready_revs : list Z;
  drain_chat : list Message; seal_chat : list Message; ready_chat : list Message;
  before_prepare : list Message; before_seal : list Message; before_commit : list Message;
  before_begin : list Message
}.

Section conversation.
Context (c : Conversation).

Definition hello_o : Message := Hello Incumbent (o_pid c) (o_build c) (o_lo c) (o_hi c) (o_caps c).
Definition hello_n : Message := Hello Protocol.Successor (n_pid c) (n_build c) (n_lo c) (n_hi c) (n_caps c).
Definition prepare : Message := PrepareHandoff (c_id c) (n_pid c) (c_deadline_ms c) (c_drain_grace_ms c).
Definition drained_report : Message := Drained (c_conns c) (c_closed c).
Definition complete : Message := SealComplete (c_id c) (c_revs c) (c_fingerprint c).
Definition ready : Message := Ready (c_id c) (c_listening c) (c_healthy c) (c_ready_revs c).

(** What each side says. *)
Definition from_o : list Message := hello_o :: drain_chat c ++ drained_report :: seal_chat c ++ [complete].
Definition from_n : list Message := hello_n :: ready_chat c ++ [ready].
Definition to_o : list Message :=
  HelloAck (v_o c) (c_id c) :: before_prepare c ++ prepare ::
    before_seal c ++ SealRequest (c_id c) :: before_commit c ++ [Commit (c_id c)].
Definition to_n : list Message := HelloAck (v_n c) (c_id c) :: before_begin c ++ [Begin (c_id c)].

(** The supervisor of the library says nothing in between. *)
Definition terse : Prop :=
  before_prepare c = [] ∧ before_seal c = [] ∧ before_commit c = [] ∧ before_begin c = [].
Definition compatible : Prop :=
  negotiate_version PROTO_MIN PROTO_MAX (o_lo c) (o_hi c) = Ok (v_o c) ∧
  negotiate_version PROTO_MIN PROTO_MAX (n_lo c) (n_hi c) = Ok (v_n c).
Definition only_chat : Prop := chats (drain_chat c) ∧ chats (seal_chat c) ∧ chats (ready_chat c).
End conversation.
