(* ===== verification/Role.v ===== *)
(** * The successor: [crates/handoff/src/role.rs]

    Role detection from the environment, adoption of inherited descriptors,
    and the successor's typestate protocol up to [Ready]. *)
From stdpp Require Import base tactics option list numbers strings gmap.
From S2P Require Import Prelude Errors Protocol Sock Frame Fd Channel.
Local Open Scope Z_scope.

Definition ENV_HANDOFF_ROLE : string := "HANDOFF_ROLE".
Definition ENV_HANDOFF_SOCK_FD : string := "HANDOFF_SOCK_FD".
Definition ENV_LISTEN_PID : string := "LISTEN_PID".
Definition SUCCESSOR_HEARTBEAT_INTERVAL : Z := 2000.

(** ** Inherited listeners *)

(** The map of an [InheritedListeners]. *)
Abbreviation InheritedListeners := (gmap string Z).
Definition no_listeners : InheritedListeners := ∅.

Definition take_validated (listeners : InheritedListeners) (k : kernel) (name : string)
    (families : list Z) : option Z * InheritedListeners :=
  match listeners !! name with
  | None => (None, listeners)
  | Some fd =>
      if negb (fd_is_listening k fd) then (None, listeners)
      else match socket_family k fd with
           | Some f => if decide (f ∈ families) then (Some fd, delete name listeners)
                       else (None, listeners)
           | None => (None, listeners)
           end
  end.

Definition take (listeners : InheritedListeners) (k : kernel) (name : string) :=
  take_validated listeners k name [AF_INET; AF_INET6].
Definition take_unix (listeners : InheritedListeners) (k : kernel) (name : string) :=
  take_validated listeners k name [AF_UNIX].

Definition names (listeners : InheritedListeners) : gset string := dom listeners.
Definition is_empty (listeners : InheritedListeners) : bool := bool_decide (listeners = ∅).

(** ** Role detection

    [proc_env] holds the variables as [std::env::var] reads them: one whose
    value is not UTF-8 is absent for it, and is absent here. *)
Record Process : Type := mkProcess {
  pid : Z;
  proc_env : gmap string string;
  kern : kernel
}.

Record Successor : Type := mkSuccessor { control_fd : Z; inherited : InheritedListeners }.

Inductive Role : Type :=
| ColdStart (inherited : InheritedListeners)
| AsSuccessor (successor : Successor).

Abbreviation roleM := (prog Process Error).

Definition var (name : string) (p : Process) : option string := proc_env p !! name.
Definition remove_var (name : string) : roleM unit :=
  modify (λ p, mkProcess (pid p) (delete name (proc_env p)) (kern p)).

(** A system call of this process, its error as a value. *)
Definition syscall {A} (m : sys A) : roleM (result IoError A) := λ p,
  let '(r, k) := m (kern p) in
  let p := mkProcess (pid p) (proc_env p) k in
  match r with
  | Ok a => (Ok (Ok a), p)
  | Err (Raise e) => (Ok (Err e), p)
  | Err (Exit c) => (Err (Exit c), p)
  | Err Stuck => (Err Stuck, p)
  end.

Definition normalize_inherited_fd (fd : Z) : roleM unit :=
  _ ← syscall (set_cloexec fd);
  _ ← syscall (clear_nonblocking fd);
  mret tt.

(** The [for i in 0..count] loop, from [i] on for [n] turns. *)
Fixpoint adopt (n : nat) (i : Z) (fdnames : list string) (map : InheritedListeners)
    : roleM InheritedListeners :=
  match n with
  | O => mret map
  | S n =>
      let fd := SD_LISTEN_FDS_START + i in
      let name := default (print_dec (Z.to_N i)) (fdnames !! Z.to_nat i) in
      k ← gets kern;
      if negb (fd_is_socket k fd) then adopt n (i + 1) fdnames map
      else
        _ ← normalize_inherited_fd fd;
        adopt n (i + 1) fdnames (<[name := fd]> map)
  end.

(** Is the block of descriptors addressed to this process? *)
Definition listen_pid_ok (own_pid : Z) (listen_pid : option string) : bool :=
  match listen_pid with
  | None => true
  | Some raw => bool_decide (parse_unsigned (Z.to_N u32_max) (trim raw) = Some (Z.to_N own_pid))
  end.

(** [RawFd] is an [i32]: a count whose descriptors would overflow it, or whose
    map cannot be allocated, ends the process. *)
Definition read_inherited_listeners : roleM InheritedListeners :=
  p ← gets id;
  let count := default 0%N (s ← var ENV_LISTEN_FDS p; parse_unsigned (Z.to_N u64_max) s) in
  if decide (count = 0%N) then mret no_listeners
  else if negb (listen_pid_ok (pid p) (var ENV_LISTEN_PID p)) then mret no_listeners
  else if decide (i32_max < SD_LISTEN_FDS_START + Z.of_N count) then stuck
  else
    let fdnames := match var ENV_LISTEN_FDNAMES p with
                   | Some s => split_on colon s
                   | None => []
                   end in
    adopt (N.to_nat count) 0 fdnames ∅.

(** [write_timeout] is what [set_write_timeout] on the control socket reports. *)
Definition detect_role (write_timeout : result IoError unit) : roleM Role :=
  inherited ← read_inherited_listeners;
  _ ← remove_var ENV_LISTEN_PID;
  _ ← remove_var ENV_LISTEN_FDS;
  _ ← remove_var ENV_LISTEN_FDNAMES;
  role ← gets (var ENV_HANDOFF_ROLE);
  if decide (role ≠ Some "successor"%string) then mret (ColdStart inherited) else
  sock_raw ← gets (var ENV_HANDOFF_SOCK_FD);
  match sock_raw with
  | None => raise (MissingEnv ENV_HANDOFF_SOCK_FD)
  | Some sock_raw =>
      match parse_i32 sock_raw with
      | None => raise (BadEnv ENV_HANDOFF_SOCK_FD sock_raw)
      | Some sock_fd =>
          _ ← remove_var ENV_HANDOFF_ROLE;
          _ ← remove_var ENV_HANDOFF_SOCK_FD;
          k ← gets kern;
          if negb (fd_is_socket k sock_fd) then
            raise (BadEnv ENV_HANDOFF_SOCK_FD ("fd " +:+ show_Z sock_fd +:+ " is not an open socket"))
          else
            _ ← normalize_inherited_fd sock_fd;
            _ ← syscall (configure_control_stream sock_fd write_timeout);
            mret (AsSuccessor (mkSuccessor sock_fd inherited))
      end
  end.

(** ** The successor's protocol

    [T] is the control stream.  Each phase consumes the value of the previous
    one, so a caller cannot reach [announce_ready] without [wait_for_begin]
    nor [wait_for_begin] without [handshake]. *)
Record ReadinessSnapshot : Type := mkReadiness {
  listening_on : list string;
  healthz_ok : bool;
  advertised_revision_per_shard : list Z
}.

Section protocol.
Context {T : Type} `{ControlChannel T}.

Record HandshookSuccessor : Type := mkHandshook {
  hs_handoff_id : HandoffId;
  hs_proto_version : ProtoVersion;
  hs_inherited : InheritedListeners
}.
Record BegunSuccessor : Type := mkBegun {
  bg_handoff_id : HandoffId;
  bg_proto_version : ProtoVersion;
  bg_inherited : InheritedListeners
}.

Abbreviation M := (prog T Error).

Definition write_frame_to (v : ProtoVersion) (m : Message) : M unit := λ t,
  let '(r, t) := ch_write v m t in (lift r) t.
Definition read_message_from : M (ProtoVersion * Message) := λ t,
  let '(r, t) := ch_read_message t in (lift r) t.

Definition handshake (own_pid : Z) (build_id : list byte) (inherited : InheritedListeners)
    : M HandshookSuccessor :=
  _ ← write_frame_to PROTO_MAX
        (Hello Protocol.Successor own_pid build_id PROTO_MIN PROTO_MAX Capabilities_default);
  '(_, ack) ← read_message_from;
  match ack with
  | HelloAck proto_version_chosen handoff_id =>
      mret (mkHandshook handoff_id proto_version_chosen inherited)
  | other => raise (UnexpectedMessage (short_name other))
  end.

(** [show_id] prints a [Uuid]. *)
Fixpoint wait_for_begin (show_id : HandoffId → string) (fuel : nat) (s : HandshookSuccessor)
    : M BegunSuccessor :=
  match fuel with
  | O => stuck
  | S fuel =>
      '(_, msg) ← read_message_from;
      match msg with
      | Begin handoff_id =>
          if decide (handoff_id = hs_handoff_id s) then
            mret (mkBegun handoff_id (hs_proto_version s) (hs_inherited s))
          else raise (Protocol ("Begin handoff_id " +:+ show_id handoff_id
                         +:+ " does not match handshake id " +:+ show_id (hs_handoff_id s)))
      | Abort _ reason => raise (Aborted reason)
      | Heartbeat _ => wait_for_begin show_id fuel s
      | other => raise (UnexpectedMessage (short_name other))
      end
  end.

Definition announce_ready (s : BegunSuccessor) (snapshot : ReadinessSnapshot) : M unit :=
  write_frame_to (bg_proto_version s)
    (Ready (bg_handoff_id s) (listening_on snapshot) (healthz_ok snapshot)
       (advertised_revision_per_shard snapshot)).

(** [start_heartbeats] until its guard is dropped: [n] intervals. *)
Fixpoint successor_heartbeat_loop (n : nat) (ts : nat → Z) (v : ProtoVersion) : M unit :=
  match n with
  | O => mret tt
  | S n =>
      r ← attempt (write_frame_to v (Heartbeat (ts n)));
      match r with Err _ => mret tt | Ok _ => successor_heartbeat_loop n ts v end
  end.

Definition start_heartbeats (n : nat) (ts : nat → Z) (s : BegunSuccessor) : M unit :=
  c ← gets ch_try_clone;
  match c with
  | Err _ => mret tt
  | Ok _ => successor_heartbeat_loop n ts (bg_proto_version s)
  end.
End protocol.

(** ** Lemmas: what adoption does to the descriptor table *)
Definition set_kern (k : kernel) (p : Process) : Process := mkProcess (pid p) (proc_env p) k.

Definition blocking_flags (f : Z) : Z := Z.land f (Z.lnot O_NONBLOCK).

(** [normalize_inherited_fd] on the kernel. *)
Definition norm_fd (k : kernel) (fd : Z) : kernel :=
  match fdtab k !! fd with
  | None => k
  | Some e =>
      mkKernel (<[fd := mkFd (ofd e) (Z.lor (fd_flags e) FD_CLOEXEC)]> (fdtab k))
        (alter (λ d, with_status (blocking_flags (status_flags d)) d) (ofd e) (descs k)) (nofile k)
  end.

Lemma socket_desc k fd :
  fd_is_socket k fd = true →
  ∃ e d, fdtab k !! fd = Some e ∧ descs k !! ofd e = Some d ∧ Z.land (st_mode d) S_IFMT = S_IFSOCK.
Proof.
  unfold fd_is_socket, desc_of. destruct (fdtab k !! fd) as [e|]; simpl; [|done].
  destruct (descs k !! ofd e) as [d|] eqn:Hd; [|done]. intros H%bool_decide_eq_true. eauto.
Qed.

Lemma normalize_run p fd :
  fd_is_socket (kern p) fd = true →
  normalize_inherited_fd fd p = (Ok tt, set_kern (norm_fd (kern p) fd) p).
Proof.
  intros (e & d & He & Hd & _)%socket_desc.
  unfold normalize_inherited_fd, syscall, norm_fd, mbind, prog_bind, mret, prog_ret.
  rewrite (set_cloexec_run _ _ _ He). simpl.
  rewrite (clear_nonblocking_run _ fd (mkFd (ofd e) (Z.lor (fd_flags e) FD_CLOEXEC)) d);
    [|simpl; apply lookup_insert_eq|done].
  rewrite He. simpl. unfold set_kern, set_descs, set_fdtab. simpl. do 3 f_equal.
  by rewrite (alter_alt_Some _ _ _ d).
Qed.

Lemma norm_fdtab k fd x :
  fdtab (norm_fd k fd) !! x =
    (if decide (x = fd)
     then (λ e, mkFd (ofd e) (Z.lor (fd_flags e) FD_CLOEXEC)) <$> fdtab k !! x
     else fdtab k !! x).
Proof.
  unfold norm_fd. destruct (fdtab k !! fd) as [e|] eqn:He; simpl.
  - case_decide as Hx; [subst; by rewrite lookup_insert_eq, He|by rewrite lookup_insert_ne].
  - case_decide as Hx; [subst; by rewrite He|done].
Qed.

Definition cloexec_entry (e : fd_entry) : fd_entry := mkFd (ofd e) (Z.lor (fd_flags e) FD_CLOEXEC).
Definition blocking_desc (d : description) : description :=
  with_status (blocking_flags (status_flags d)) d.

Lemma cloexec_entry_idemp e : cloexec_entry (cloexec_entry e) = cloexec_entry e.
Proof. unfold cloexec_entry. simpl. by rewrite <- Z.lor_assoc, Z.lor_diag. Qed.
Lemma blocking_desc_idemp d : blocking_desc (blocking_desc d) = blocking_desc d.
Proof.
  unfold blocking_desc, blocking_flags, with_status. simpl.
  by rewrite <- Z.land_assoc, Z.land_diag.
Qed.

Lemma norm_desc k fd o :
  descs (norm_fd k fd) !! o =
    (if decide (ofd <$> fdtab k !! fd = Some o) then blocking_desc <$> descs k !! o
     else descs k !! o).
Proof.
  unfold norm_fd. destruct (fdtab k !! fd) as [e|] eqn:He; simpl.
  - case_decide as Ho; simplify_eq.
    + by rewrite lookup_alter_eq.
    + rewrite lookup_alter_ne by congruence. done.
  - done.
Qed.

(** Several descriptors. *)
Definition norm_fds (k : kernel) (fds : list Z) : kernel := foldl norm_fd k fds.

Lemma norm_fds_tab k fds x :
  fdtab (norm_fds k fds) !! x =
    (if decide (x ∈ fds) then cloexec_entry <$> fdtab k !! x else fdtab k !! x).
Proof.
  unfold norm_fds. revert k. induction fds as [|fd fds IH]; intros k; simpl; [done|].
  rewrite IH, norm_fdtab. fold (cloexec_entry).
  destruct (decide (x = fd)) as [->|Hne].
  - rewrite (decide_True (P := fd ∈ fd :: fds)) by set_solver.
    case_decide; [|done]. destruct (fdtab k !! fd); simpl; [|done]. f_equal. apply cloexec_entry_idemp.
  - destruct (decide (x ∈ fds)); [rewrite decide_True by set_solver|rewrite decide_False by set_solver];
      done.
Qed.

Fixpoint fd_ofds (k : kernel) (fds : list Z) : list nat :=
  match fds with
  | [] => []
  | fd :: fds => match fdtab k !! fd with Some e => ofd e :: fd_ofds k fds | None => fd_ofds k fds end
  end.

Lemma norm_fd_ofds k fd fds : fd_ofds (norm_fd k fd) fds = fd_ofds k fds.
Proof.
  induction fds as [|x fds IH]; simpl; [done|]. rewrite norm_fdtab, IH.
  case_decide; [|done]. by destruct (fdtab k !! x).
Qed.

Lemma norm_fds_desc k fds o :
  descs (norm_fds k fds) !! o =
    (if decide (o ∈ fd_ofds k fds) then blocking_desc <$> descs k !! o else descs k !! o).
Proof.
  unfold norm_fds. revert k. induction fds as [|fd fds IH]; intros k; simpl; [done|].
  rewrite IH, norm_fd_ofds, norm_desc.
  destruct (fdtab k !! fd) as [e|]; simpl.
  - destruct (decide (ofd e = o)) as [<-|Hne].
    + rewrite (decide_True (P := Some (ofd e) = Some (ofd e))) by done.
      rewrite (decide_True (P := ofd e ∈ ofd e :: fd_ofds k fds)) by set_solver.
      case_decide; [|done]. destruct (descs k !! ofd e); simpl; [|done].
      f_equal. apply blocking_desc_idemp.
    + rewrite (decide_False (P := Some (ofd e) = Some o)) by congruence.
      destruct (decide (o ∈ fd_ofds k fds)); [rewrite decide_True by set_solver|rewrite decide_False by set_solver];
        done.
  - done.
Qed.

(** What is behind a descriptor. *)
Lemma norm_fds_desc_of k fds x :
  desc_of (norm_fds k fds) x =
    (d ← desc_of k x;
     o ← ofd <$> fdtab k !! x;
     Some (if decide (o ∈ fd_ofds k fds) then blocking_desc d else d)).
Proof.
  unfold desc_of. rewrite norm_fds_tab. destruct (fdtab k !! x) as [e|]; simpl; [|by case_decide].
  assert ((if decide (x ∈ fds) then Some (cloexec_entry e) else Some e) ≫=
    (λ e0, descs (norm_fds k fds) !! ofd e0) = descs (norm_fds k fds) !! ofd e) as ->
    by (by case_decide).
  rewrite norm_fds_desc. by case_decide; destruct (descs k !! ofd e).
Qed.

Lemma norm_fds_socket k fds x : fd_is_socket (norm_fds k fds) x = fd_is_socket k x.
Proof.
  unfold fd_is_socket. rewrite norm_fds_desc_of. unfold desc_of.
  destruct (fdtab k !! x) as [e|]; simpl; [|done]. destruct (descs k !! ofd e); simpl; [|done].
  by case_decide.
Qed.

Lemma norm_fds_listening k fds x : fd_is_listening (norm_fds k fds) x = fd_is_listening k x.
Proof.
  unfold fd_is_listening, accept_conn_opt. rewrite norm_fds_desc_of. unfold desc_of.
  destruct (fdtab k !! x) as [e|]; simpl; [|done]. destruct (descs k !! ofd e); simpl; [|done].
  by case_decide.
Qed.

Lemma norm_fds_family k fds x : socket_family (norm_fds k fds) x = socket_family k x.
Proof.
  unfold socket_family. rewrite norm_fds_desc_of. unfold desc_of.
  destruct (fdtab k !! x) as [e|]; simpl; [|done]. destruct (descs k !! ofd e); simpl; [|done].
  by case_decide.
Qed.

(** *** The adoption loop *)
Definition block_fds (n : nat) (i : Z) : list Z := seqZ (SD_LISTEN_FDS_START + i) (Z.of_nat n).

Definition slot_name (fdnames : list string) (fd : Z) : string :=
  default (print_dec (Z.to_N (fd - SD_LISTEN_FDS_START))) (fdnames !! Z.to_nat (fd - SD_LISTEN_FDS_START)).

Definition socket_fds (k : kernel) (fds : list Z) : list Z :=
  filter (λ fd, fd_is_socket k fd = true) fds.

Lemma socket_fds_norm k fd fds : socket_fds (norm_fd k fd) fds = socket_fds k fds.
Proof.
  apply list_filter_iff. intros x. by rewrite (norm_fds_socket k [fd]).
Qed.

Lemma adopt_run n i fdnames map p :
  adopt n i fdnames map p =
    (Ok (foldl (λ m fd, <[slot_name fdnames fd := fd]> m) map (socket_fds (kern p) (block_fds n i))),
     set_kern (norm_fds (kern p) (socket_fds (kern p) (block_fds n i))) p).
Proof.
  revert i map p. induction n as [|n IH]; intros i map p.
  { by destruct p. }
  unfold block_fds. rewrite Nat2Z.inj_succ, seqZ_cons by lia.
  replace (Z.pred (Z.succ (Z.of_nat n))) with (Z.of_nat n) by lia.
  replace (Z.succ (SD_LISTEN_FDS_START + i)) with (SD_LISTEN_FDS_START + (i + 1)) by lia.
  fold (block_fds n (i + 1)). cbn [adopt]. unfold mbind at 1, prog_bind at 1, gets.
  unfold socket_fds. rewrite filter_cons. fold (socket_fds (kern p) (block_fds n (i + 1))).
  destruct (fd_is_socket (kern p) (SD_LISTEN_FDS_START + i)) eqn:Hs; cbn [negb].
  - rewrite decide_True by done. unfold mbind, prog_bind. rewrite normalize_run by done.
    rewrite IH. simpl. rewrite socket_fds_norm. f_equal.
    do 3 f_equal. unfold slot_name.
    by replace (SD_LISTEN_FDS_START + i - SD_LISTEN_FDS_START) with i by lia.
  - rewrite decide_False by done. apply IH.
Qed.

(** *** Role detection *)
Definition listen_count (p : Process) : N :=
  default 0%N (s ← var ENV_LISTEN_FDS p; parse_unsigned (Z.to_N u64_max) s).

(** The descriptors the environment announces to this process. *)
Definition announced_fds (p : Process) : list Z :=
  if listen_pid_ok (pid p) (var ENV_LISTEN_PID p)
  then block_fds (N.to_nat (listen_count p)) 0 else [].

Definition count_in_range (p : Process) : Prop :=
  SD_LISTEN_FDS_START + Z.of_N (listen_count p) ≤ i32_max.

Definition announced_names (p : Process) : list string :=
  match var ENV_LISTEN_FDNAMES p with Some s => split_on colon s | None => [] end.

Definition adopted_fds (p : Process) : list Z := socket_fds (kern p) (announced_fds p).
Definition adopted_map (p : Process) : InheritedListeners :=
  foldl (λ m fd, <[slot_name (announced_names p) fd := fd]> m) ∅ (adopted_fds p).

Lemma read_listeners_run p :
  count_in_range p →
  read_inherited_listeners p = (Ok (adopted_map p), set_kern (norm_fds (kern p) (adopted_fds p)) p).
Proof.
  intros Hrange. unfold read_inherited_listeners, adopted_map, adopted_fds, announced_fds.
  unfold mbind at 1, prog_bind at 1, gets. cbn beta iota zeta.
  change (id p) with p. fold (listen_count p).
  destruct (decide (listen_count p = 0%N)) as [Hz|Hz].
  { rewrite Hz. replace (block_fds (N.to_nat 0) 0) with (@nil Z) by done.
    assert ((if listen_pid_ok (pid p) (var ENV_LISTEN_PID p) then [] else []) = (@nil Z)) as ->
      by (by destruct (listen_pid_ok _ _)).
    by destruct p. }
  destruct (listen_pid_ok _ _); cbn [negb]; [|by destruct p].
  rewrite decide_False by (unfold count_in_range in Hrange; lia). apply adopt_run.
Qed.

Definition clean_listen (e : gmap string string) : gmap string string :=
  delete ENV_LISTEN_FDNAMES (delete ENV_LISTEN_FDS (delete ENV_LISTEN_PID e)).
Definition clean_handoff (e : gmap string string) : gmap string string :=
  delete ENV_HANDOFF_SOCK_FD (delete ENV_HANDOFF_ROLE (clean_listen e)).

Lemma configure_after_norm k fd wt :
  fd_is_socket k fd = true →
  (configure_control_stream fd wt (norm_fd k fd)).2 = norm_fd k fd ∧
  ∀ c, (configure_control_stream fd wt (norm_fd k fd)).1 ≠ Err (Exit c) ∧
       (configure_control_stream fd wt (norm_fd k fd)).1 ≠ Err Stuck.
Proof.
  intros (e & d & He & Hd & _)%socket_desc.
  unfold configure_control_stream, mbind, prog_bind.
  assert (fdtab (norm_fd k fd) !! fd = Some (cloexec_entry e)) as Hn.
  { rewrite norm_fdtab, decide_True by done. by rewrite He. }
  rewrite (set_cloexec_run _ _ _ Hn). fold (cloexec_entry (cloexec_entry e)).
  rewrite cloexec_entry_idemp, insert_id by done.
  unfold set_fdtab. rewrite kernel_eta. destruct wt as [|x]; [done|].
  case_decide; done.
Qed.

(** Everything [detect_role] does, by cases of the environment. *)
Lemma detect_role_run wt p :
  count_in_range p →
  let k := norm_fds (kern p) (adopted_fds p) in
  detect_role wt p =
    if decide (var ENV_HANDOFF_ROLE p = Some "successor"%string) then
        match var ENV_HANDOFF_SOCK_FD p with
        | None => (Err (Raise (MissingEnv ENV_HANDOFF_SOCK_FD)),
                   mkProcess (pid p) (clean_listen (proc_env p)) k)
        | Some raw =>
            match parse_i32 raw with
            | None => (Err (Raise (BadEnv ENV_HANDOFF_SOCK_FD raw)),
                       mkProcess (pid p) (clean_listen (proc_env p)) k)
            | Some fd =>
                if fd_is_socket (kern p) fd then
                  (Ok (AsSuccessor (mkSuccessor fd (adopted_map p))),
                   mkProcess (pid p) (clean_handoff (proc_env p)) (norm_fd k fd))
                else
                  (Err (Raise (BadEnv ENV_HANDOFF_SOCK_FD
                     ("fd " +:+ show_Z fd +:+ " is not an open socket"))),
                   mkProcess (pid p) (clean_handoff (proc_env p)) k)
            end
        end
    else (Ok (ColdStart (adopted_map p)), mkProcess (pid p) (clean_listen (proc_env p)) k).
Proof.
  intros Hrange k. unfold detect_role, remove_var, mbind, prog_bind, modify, gets, raise.
  rewrite read_listeners_run by done. fold k. cbn [set_kern pid proc_env kern]. unfold var. simpl.
  fold (clean_listen (proc_env p)).
  assert (∀ x, x ≠ ENV_LISTEN_PID → x ≠ ENV_LISTEN_FDS → x ≠ ENV_LISTEN_FDNAMES →
    clean_listen (proc_env p) !! x = proc_env p !! x) as Hclean.
  { intros x ???. unfold clean_listen. by rewrite !lookup_delete_ne. }
  rewrite (Hclean ENV_HANDOFF_ROLE) by done.
  destruct (decide (proc_env p !! ENV_HANDOFF_ROLE = Some "successor"%string)) as [Hrole|Hne];
    [rewrite decide_False by tauto|by rewrite decide_True by done]. cbn [proc_env]. rewrite (Hclean ENV_HANDOFF_SOCK_FD) by done.
  destruct (proc_env p !! ENV_HANDOFF_SOCK_FD) as [raw|]; [|done].
  destruct (parse_i32 raw) as [fd|]; [|done]. cbn [pid proc_env kern].
  fold (clean_handoff (proc_env p)).
  assert (fd_is_socket k fd = fd_is_socket (kern p) fd) as Hsk by apply norm_fds_socket.
  rewrite Hsk. destruct (fd_is_socket (kern p) fd) eqn:Hs; cbn [negb]; [|done].
  rewrite normalize_run by done. unfold syscall. cbn [set_kern pid proc_env kern].
  destruct (configure_after_norm k fd wt Hsk) as [H2 H3].
  destruct (configure_control_stream fd wt (norm_fd k fd)) as [[u|[e|c|]] k2]; simpl in *; subst k2;
    [done|done|by destruct (H3 c)|by destruct (H3 0)].
Qed.

Lemma adopted_map_lookup p name fd :
  adopted_map p !! name = Some fd → fd ∈ adopted_fds p ∧ slot_name (announced_names p) fd = name.
Proof.
  unfold adopted_map.
  assert (∀ fds (m : InheritedListeners),
    foldl (λ m fd, <[slot_name (announced_names p) fd := fd]> m) m fds !! name = Some fd →
    m !! name = Some fd ∨ (fd ∈ fds ∧ slot_name (announced_names p) fd = name)) as Hgen.
  { induction fds as [|x fds IH]; intros m; simpl; [by left|]. intros [Hm|[Hin Hn]]%IH.
    - destruct (decide (slot_name (announced_names p) x = name)) as [Heq|Hne].
      + rewrite Heq, lookup_insert_eq in Hm. simplify_eq. right. split; [left|done].
      + rewrite lookup_insert_ne in Hm by done. by left.
    - right. split; [by right|done]. }
  intros [Hl|Hl]%Hgen; [by rewrite lookup_empty in Hl|done].
Qed.

Lemma adopted_fds_spec p fd :
  fd ∈ adopted_fds p ↔ fd ∈ announced_fds p ∧ fd_is_socket (kern p) fd = true.
Proof. unfold adopted_fds, socket_fds. rewrite list_elem_of_filter. tauto. Qed.

(** A descriptor ready for use: close-on-exec, and its socket blocking. *)
Definition normalized (k : kernel) (fd : Z) : Prop :=
  ∃ e d, fdtab k !! fd = Some e ∧ descs k !! ofd e = Some d ∧
    Z.land (fd_flags e) FD_CLOEXEC = FD_CLOEXEC ∧ Z.land (status_flags d) O_NONBLOCK = 0.

Lemma cloexec_entry_set e : Z.land (fd_flags (cloexec_entry e)) FD_CLOEXEC = FD_CLOEXEC.
Proof.
  unfold cloexec_entry. cbn [fd_flags]. apply Z.bits_inj'. intros n Hn.
  rewrite Z.land_spec, Z.lor_spec. by destruct (Z.testbit FD_CLOEXEC n), (Z.testbit (fd_flags e) n).
Qed.

Lemma blocking_desc_clear d : Z.land (status_flags (blocking_desc d)) O_NONBLOCK = 0.
Proof.
  unfold blocking_desc, blocking_flags, with_status. cbn [status_flags].
  rewrite <- Z.land_assoc, (Z.land_comm _ O_NONBLOCK), Z.land_lnot_diag. apply Z.land_0_r.
Qed.

Lemma norm_fds_normalized k fds fd :
  fd ∈ fds → fd_is_socket k fd = true → normalized (norm_fds k fds) fd.
Proof.
  intros Hin (e & d & He & Hd & _)%socket_desc. exists (cloexec_entry e), (blocking_desc d).
  split_and!; [|simpl|apply cloexec_entry_set|apply blocking_desc_clear].
  - by rewrite norm_fds_tab, decide_True, He.
  - rewrite norm_fds_desc, decide_True, Hd; [done|].
    induction fds as [|x fds IH]; [by apply elem_of_nil in Hin|]. simpl.
    apply elem_of_cons in Hin as [->|Hin].
    + rewrite He. left.
    + destruct (fdtab k !! x); [right|]; auto.
Qed.

Lemma norm_fds_snoc k fds fd : norm_fd (norm_fds k fds) fd = norm_fds k (fds ++ [fd]).
Proof. unfold norm_fds. by rewrite foldl_app. Qed.

(** The descriptors [detect_role] may change. *)
Definition our_fds (p : Process) : list Z :=
  adopted_fds p ++
  (if decide (var ENV_HANDOFF_ROLE p = Some "successor"%string) then
     match var ENV_HANDOFF_SOCK_FD p ≫= parse_i32 with
     | Some fd => if fd_is_socket (kern p) fd then [fd] else []
     | None => []
     end
   else []).

Lemma detect_role_kernel wt p :
  count_in_range p → kern (detect_role wt p).2 = norm_fds (kern p) (our_fds p).
Proof.
  intros Hr. rewrite detect_role_run by done. unfold our_fds. case_decide; [|by rewrite app_nil_r].
  destruct (var ENV_HANDOFF_SOCK_FD p) as [raw|]; simpl; [|by rewrite app_nil_r].
  destruct (parse_i32 raw) as [fd|]; simpl; [|by rewrite app_nil_r].
  destruct (fd_is_socket (kern p) fd); simpl; [by rewrite norm_fds_snoc|by rewrite app_nil_r].
Qed.

(** ** Theorems *)

(** C30: [detect_role] changes no descriptor that is not its own.  A slot of
    the descriptor table changes only if it is an open socket and either one
    of the [LISTEN_FDS] slots, announced to this very process, or the control
    socket of a successor; an open file description changes only if it is
    behind such a slot.  A [LISTEN_PID] that names another process, or does
    not parse, announces nothing. *)
Theorem detect_role_touches_only_ours wt p :
  count_in_range p →
  let k' := kern (detect_role wt p).2 in
  (∀ fd, fdtab k' !! fd ≠ fdtab (kern p) !! fd →
     fd_is_socket (kern p) fd = true ∧
     ((listen_pid_ok (pid p) (var ENV_LISTEN_PID p) = true ∧
       SD_LISTEN_FDS_START ≤ fd < SD_LISTEN_FDS_START + Z.of_N (listen_count p)) ∨
      (var ENV_HANDOFF_ROLE p = Some "successor"%string ∧
       (var ENV_HANDOFF_SOCK_FD p ≫= parse_i32) = Some fd))) ∧
  (∀ o, descs k' !! o ≠ descs (kern p) !! o →
     ∃ fd e, fd ∈ our_fds p ∧ fdtab (kern p) !! fd = Some e ∧ ofd e = o).
Proof.
  intros Hr. simpl. rewrite detect_role_kernel by done. split.
  - intros fd. rewrite norm_fds_tab. case_decide as Hin; [|done]. intros _.
    unfold our_fds in Hin. apply elem_of_app in Hin as [Hin|Hin].
    + apply adopted_fds_spec in Hin as [Hin Hs]. split; [done|]. left. unfold announced_fds in Hin.
      destruct (listen_pid_ok _ _); [|by apply elem_of_nil in Hin]. split; [done|].
      unfold block_fds in Hin. apply elem_of_seqZ in Hin. lia.
    + case_decide; [|by apply elem_of_nil in Hin].
      destruct (var ENV_HANDOFF_SOCK_FD p ≫= parse_i32) as [x|]; [|by apply elem_of_nil in Hin].
      destruct (fd_is_socket (kern p) x) eqn:Hs; [|by apply elem_of_nil in Hin].
      apply list_elem_of_singleton in Hin as ->. auto.
  - intros o. rewrite norm_fds_desc. case_decide as Hin; [|done]. intros _. clear Hr.
    induction (our_fds p) as [|x fds IH]; simpl in Hin; [by apply elem_of_nil in Hin|].
    destruct (fdtab (kern p) !! x) as [e|] eqn:He.
    + apply elem_of_cons in Hin as [->|Hin].
      * exists x, e. split_and!; [left|done|done].
      * destruct (IH Hin) as (fd & e' & ? & ?). exists fd, e'. split; [by right|done].
    + destruct (IH Hin) as (fd & e' & ? & ?). exists fd, e'. split; [by right|done].
Qed.

(** C29: what [detect_role] returns is ready to use, and used up.  Every
    listener it hands out is an announced open socket, now close-on-exec and
    blocking; so is the control socket of a successor.  The variables it read
    are gone: a second call answers [ColdStart] with no listeners and changes
    nothing more, unless the role was not [successor] to begin with. *)
Theorem detect_role_consumes wt p role p' :
  count_in_range p → detect_role wt p = (Ok role, p') →
  let listeners := match role with ColdStart l => l | AsSuccessor s => inherited s end in
  (∀ name fd, listeners !! name = Some fd →
     fd ∈ announced_fds p ∧ fd_is_socket (kern p) fd = true ∧ normalized (kern p') fd) ∧
  (∀ s, role = AsSuccessor s →
     fd_is_socket (kern p) (control_fd s) = true ∧ normalized (kern p') (control_fd s)) ∧
  detect_role wt p' = (Ok (ColdStart ∅), p').
Proof.
  intros Hr Hd. pose proof (detect_role_kernel wt p Hr) as Hk. rewrite Hd in Hk. simpl in Hk.
  pose proof (detect_role_run wt p Hr) as Hrun. rewrite Hd in Hrun. simpl in Hrun.
  assert (∀ name fd, adopted_map p !! name = Some fd →
     fd ∈ announced_fds p ∧ fd_is_socket (kern p) fd = true ∧ normalized (kern p') fd) as Hmap.
  { intros name fd [Hin _]%adopted_map_lookup. pose proof Hin as [Ha Hs]%adopted_fds_spec.
    split_and!; [done|done|]. rewrite Hk. apply norm_fds_normalized; [|done].
    unfold our_fds. apply elem_of_app. by left. }
  assert (∀ p2, var ENV_LISTEN_FDS p2 = None → var ENV_LISTEN_FDNAMES p2 = None →
    var ENV_LISTEN_PID p2 = None → var ENV_HANDOFF_ROLE p2 ≠ Some "successor"%string →
    detect_role wt p2 = (Ok (ColdStart ∅), p2)) as Hagain.
  { intros p2 H1 H2 H3 H4.
    assert (listen_count p2 = 0%N) as Hc by (unfold listen_count; by rewrite H1).
    assert (adopted_fds p2 = []) as Hfds.
    { unfold adopted_fds, announced_fds. rewrite Hc. by destruct (listen_pid_ok _ _). }
    rewrite detect_role_run by (unfold count_in_range; rewrite Hc; done).
    assert (adopted_map p2 = ∅) as -> by (unfold adopted_map; by rewrite Hfds).
    rewrite Hfds. unfold var in *.
    assert (clean_listen (proc_env p2) = proc_env p2) as ->
      by (unfold clean_listen; by rewrite !delete_id by (rewrite ?lookup_delete_ne; done)).
    rewrite decide_False by done. by destruct p2. }
  assert (∀ e x, x = ENV_LISTEN_FDS ∨ x = ENV_LISTEN_FDNAMES ∨ x = ENV_LISTEN_PID →
    clean_listen e !! x = None) as Hcl.
  { intros e x Hx. unfold clean_listen.
    destruct Hx as [->|[->| ->]]; rewrite ?lookup_delete_eq, ?lookup_delete_ne, ?lookup_delete_eq,
      ?lookup_delete_ne, ?lookup_delete_eq by done; done. }
  case_decide as Hrole.
  - destruct (var ENV_HANDOFF_SOCK_FD p) as [raw|] eqn:Hraw; [|done].
    destruct (parse_i32 raw) as [fd|] eqn:Hfd; [|done].
    destruct (fd_is_socket (kern p) fd) eqn:Hs; [|done]. simplify_eq Hrun. intros -> ->.
    split_and!; [exact Hmap| |].
    + intros s [= <-]. simpl. split; [done|]. rewrite norm_fds_snoc.
      apply norm_fds_normalized; [|done]. apply elem_of_app. right. left.
    + apply Hagain; unfold var; simpl; unfold clean_handoff;
        rewrite ?lookup_delete_ne by done; [apply Hcl; tauto..|].
      by rewrite lookup_delete_eq.
  - simplify_eq Hrun. intros -> ->. split_and!; [exact Hmap|done|].
    apply Hagain; unfold var; simpl; [apply Hcl; tauto..|].
    unfold clean_listen. by rewrite !lookup_delete_ne.
Qed.

(** *** A process to run detection in *)
Module RoleDemo.
Definition listener : description :=
  mkDesc O_NONBLOCK S_IFSOCK (Some AF_INET) (Ok true) true false.
Definition pair_end : description := mkDesc 0 S_IFSOCK (Some AF_UNIX) (Ok false) true true.
Definition log_file : description := mkDesc 1 32768 None (Ok false) false false.

(** Descriptor 3 is a listener, 4 a log file, 5 the control socket. *)
Definition k : kernel := {|
  fdtab := {[ 3 := mkFd 30 0; 4 := mkFd 40 0; 5 := mkFd 50 0 ]};
  descs := {[ 30%nat := listener; 40%nat := log_file; 50%nat := pair_end ]};
  nofile := 64
|}.
Definition p : Process := {|
  pid := 77;
  proc_env := <[ENV_LISTEN_FDS := "2"%string]> (<[ENV_LISTEN_FDNAMES := "http:log"%string]>
    (<[ENV_HANDOFF_ROLE := "successor"%string]> (<[ENV_HANDOFF_SOCK_FD := "5"%string]> ∅)));
  kern := k
|}.
Definition after : Process := (detect_role (Ok tt) p).2.

Lemma in_range : count_in_range p.
Proof. vm_compute. discriminate. Qed.
End RoleDemo.

Lemma detect_role_touches_only_ours_witness :
  count_in_range RoleDemo.p ∧ fdtab (kern RoleDemo.after) !! 4 = fdtab RoleDemo.k !! 4.
Proof.
  split; [exact RoleDemo.in_range|].
  destruct (detect_role_touches_only_ours (Ok tt) RoleDemo.p RoleDemo.in_range) as [Ht _].
  fold RoleDemo.after in Ht.
  destruct (decide (fdtab (kern RoleDemo.after) !! 4 = fdtab RoleDemo.k !! 4)) as [He|Hne];
    [exact He|].
  destruct (Ht 4 Hne) as [Hs _]. vm_compute in Hs. discriminate Hs.
Defined.

Lemma detect_role_consumes_witness :
  let s := mkSuccessor 5 {[ "http"%string := 3 ]} in
  detect_role (Ok tt) RoleDemo.p = (Ok (AsSuccessor s), RoleDemo.after) ∧
  normalized (kern RoleDemo.after) 3 ∧
  detect_role (Ok tt) RoleDemo.after = (Ok (ColdStart ∅), RoleDemo.after).
Proof.
  intros s.
  assert (detect_role (Ok tt) RoleDemo.p = (Ok (AsSuccessor s), RoleDemo.after)) as Hd
    by (vm_compute; reflexivity).
  destruct (detect_role_consumes (Ok tt) RoleDemo.p _ _ RoleDemo.in_range Hd) as (Hl & _ & Hagain).
  split; [exact Hd|]. split; [|exact Hagain].
  exact (proj2 (proj2 (Hl "http"%string 3 eq_refl))).
Defined.

(** [take] and [take_unix] give a listener out at most once and only
    under the right type: exactly the entries whose descriptor is a listening
    socket of the asked family, which then are gone from the map; anything
    else leaves the map as it was.  No entry satisfies both accessors. *)
Theorem take_exactly listeners k name families :
  (let '(r, listeners') := take_validated listeners k name families in
   match r with
   | Some fd =>
       listeners !! name = Some fd ∧ fd_is_listening k fd = true ∧
       (∃ f, socket_family k fd = Some f ∧ f ∈ families) ∧ listeners' = delete name listeners ∧
       (take_validated listeners' k name families).1 = None
   | None =>
       listeners' = listeners ∧
       ∀ fd, listeners !! name = Some fd →
         fd_is_listening k fd = false ∨ ∀ f, socket_family k fd = Some f → f ∉ families
   end) ∧
  ((take listeners k name).1 = None ∨ (take_unix listeners k name).1 = None).
Proof.
  split.
  - unfold take_validated. destruct (listeners !! name) as [fd|] eqn:Hn; [|by split].
    destruct (fd_is_listening k fd) eqn:Hl; simpl; [|split; [done|]; intros ? [= <-]; by left].
    destruct (socket_family k fd) as [f|] eqn:Hf.
    + case_decide as Hin.
      * split_and!; eauto. by rewrite lookup_delete_eq.
      * split; [done|]. intros ? [= <-]. right. intros f' Hf'. congruence.
    + split; [done|]. intros ? [= <-]. right. intros f' Hf'. congruence.
  - unfold take, take_unix, take_validated. destruct (listeners !! name) as [fd|]; [|by left].
    destruct (fd_is_listening k fd); simpl; [|by left].
    destruct (socket_family k fd) as [f|]; [|by left].
    destruct (decide (f ∈ [AF_UNIX])) as [Hu|]; [|by right].
    apply list_elem_of_singleton in Hu as ->. left. rewrite decide_False; [done|].
    unfold AF_UNIX, AF_INET, AF_INET6. intros Hin.
    repeat (apply elem_of_cons in Hin as [?|Hin]; [done|]). by apply elem_of_nil in Hin.
Qed.

(** *** The successor's side of the protocol *)

(** [handshake], [wait_for_begin], some heartbeats, [announce_ready]. *)
Definition successor_run {T} `{ControlChannel T} (fuel own_pid : _) (build_id : list byte)
    (listeners : InheritedListeners) (show_id : HandoffId → string) (beats : nat) (ts : nat → Z)
    (snapshot : ReadinessSnapshot) : prog T Error unit :=
  hs ← handshake own_pid build_id listeners;
  bg ← wait_for_begin show_id fuel hs;
  _ ← start_heartbeats beats ts bg;
  announce_ready bg snapshot.

Definition is_heartbeat (m : Message) : bool := match m with Heartbeat _ => true | _ => false end.

(** What a script still holds once [wait_for_begin] answered. *)
Lemma wait_for_begin_script show_id fuel hs (s : Script.script) :
  (length (Script.inbox s) < fuel)%nat →
  match wait_for_begin show_id fuel hs s with
  | (Ok bg, s') =>
      ∃ hbs, Script.inbox s = ((λ m, Ok (Some m)) <$> hbs) ++
                Ok (Some (Begin (hs_handoff_id hs))) :: Script.inbox s' ∧
        Forall (λ m, is_heartbeat m = true) hbs ∧ bg_handoff_id bg = hs_handoff_id hs ∧
        Script.sent s' = Script.sent s ∧ Script.write_results s' = Script.write_results s
  | (Err (Raise _), s') => Script.sent s' = Script.sent s
  | (Err _, _) => False
  end.
Proof.
  revert s. induction fuel as [|fuel IH]; intros [ib wr se cf] Hf; simpl in *; [lia|].
  unfold mbind, prog_bind, read_message_from. simpl.
  destruct ib as [|[[m|]|e] ib]; simpl in *; [done| |done|done].
  destruct m; simpl; try done.
  - case_decide as Hid; [|done]. subst. simpl. exists []. by split_and!.
  - specialize (IH (Script.mkScript ib wr se cf) ltac:(simpl; lia)). simpl in IH.
    destruct (wait_for_begin _ _ _ _) as [[bg|[e|c|]] s']; try done.
    destruct IH as (hbs & -> & Hhb & Hid & Hs). exists (Heartbeat ts_ms :: hbs).
    split_and!; [done|by constructor|done|by destruct Hs|by destruct Hs].
Qed.

Lemma script_write v m (s : Script.script) :
  ∃ r s', ch_write v m s = (r, s') ∧ Script.inbox s' = Script.inbox s ∧
    Script.sent s' = Script.sent s ++ (if is_ok r then [m] else []).
Proof.
  destruct s as [ib wr se cf]. simpl. unfold Script.write. simpl.
  destruct wr as [|[[]|e] wr]; do 2 eexists; (split; [done|]); simpl; by rewrite ?app_nil_r.
Qed.

Lemma heartbeats_script n ts v (s : Script.script) :
  ∃ s' hbs, successor_heartbeat_loop n ts v s = (Ok tt, s') ∧ Script.inbox s' = Script.inbox s ∧
    Script.sent s' = Script.sent s ++ hbs ∧ Forall (λ m, is_heartbeat m = true) hbs.
Proof.
  revert s. induction n as [|n IH]; intros s; cbn [successor_heartbeat_loop].
  { exists s, []. by rewrite app_nil_r. }
  unfold mbind, prog_bind, attempt, write_frame_to.
  destruct (script_write v (Heartbeat (ts n)) s) as (r & s1 & -> & Hi & Hs).
  destruct r as [[]|e]; simpl in *.
  - destruct (IH s1) as (s2 & hbs & -> & Hi2 & Hs2 & Hh). exists s2, (Heartbeat (ts n) :: hbs).
    split_and!; [done|congruence| |by constructor]. by rewrite Hs2, Hs, <- app_assoc.
  - exists s1, []. split_and!; done.
Qed.

(** Whatever the supervisor sends and whichever writes fail, a successor
    terminates, its first frame is its [Hello], and it announces [Ready] only
    after the supervisor answered with [HelloAck] and then, with nothing but
    heartbeats between, sent the [Begin] of that same handoff; the [Ready]
    carries that handoff's id and only heartbeats precede it. *)
Theorem successor_ready_after_begin own_pid build_id listeners show_id beats ts snapshot
    (s : Script.script) :
  Script.sent s = [] →
  let '(r, s') := successor_run (S (length (Script.inbox s))) own_pid build_id listeners show_id
                    beats ts snapshot s in
  let hello := Hello Protocol.Successor own_pid build_id PROTO_MIN PROTO_MAX Capabilities_default in
  match r with
  | Ok _ => ∃ v id hbs rest hbs',
      Script.inbox s = Ok (Some (HelloAck v id)) :: ((λ m, Ok (Some m)) <$> hbs) ++
                       Ok (Some (Begin id)) :: rest ∧
      Forall (λ m, is_heartbeat m = true) hbs ∧ Forall (λ m, is_heartbeat m = true) hbs' ∧
      Script.sent s' = hello :: hbs' ++ [Ready id (listening_on snapshot) (healthz_ok snapshot)
                                           (advertised_revision_per_shard snapshot)]
  | Err (Raise _) => Forall (λ m, is_ready m = false) (Script.sent s')
  | Err _ => False
  end.
Proof.
  intros Hsent. set (fuel := S (length (Script.inbox s))).
  assert (Hf : (length (Script.inbox s) < fuel)%nat) by (unfold fuel; lia). clearbody fuel.
  unfold successor_run, handshake, mbind, prog_bind, write_frame_to.
  destruct (script_write PROTO_MAX (Hello Protocol.Successor own_pid build_id PROTO_MIN PROTO_MAX
    Capabilities_default) s) as (r1 & s1 & -> & Hi1 & Hs1).
  rewrite Hsent in Hs1. destruct r1 as [[]|e]; simpl in *; [|by rewrite Hs1].
  unfold read_message_from. destruct s1 as [ib wr se cf]. simpl in *. subst se.
  rewrite <- Hi1 in Hf |- *.
  destruct ib as [|[[m|]|e] ib]; simpl; try (repeat constructor; done).
  destruct m; simpl; try (repeat constructor; done).
  pose proof (wait_for_begin_script show_id fuel
    (mkHandshook handoff_id proto_version_chosen listeners)
    (Script.mkScript ib wr [Hello Protocol.Successor own_pid build_id PROTO_MIN PROTO_MAX
       Capabilities_default] cf) ltac:(simpl in *; lia)) as Hw.
  destruct (wait_for_begin _ _ _ _) as [[bg|[e|c|]] s2]; simpl in *; try done;
    [|rewrite Hw; repeat constructor; done].
  destruct Hw as (hbs & -> & Hh & Hid & Hs2 & _).
  assert (∃ s3 hbs', start_heartbeats beats ts bg s2 = (Ok tt, s3) ∧
    Script.sent s3 = Script.sent s2 ++ hbs' ∧ Forall (λ m, is_heartbeat m = true) hbs')
    as (s3 & hbs' & Hst & Hs3 & Hh').
  { unfold start_heartbeats, mbind, prog_bind, gets.
    destruct (ch_try_clone s2) as [[]|e].
    - destruct (heartbeats_script beats ts (bg_proto_version bg) s2) as (s3 & hbs' & ? & _ & ? & ?). eauto.
    - exists s2, []. by rewrite app_nil_r. }
  rewrite Hst. unfold announce_ready, write_frame_to. rewrite Hid.
  destruct (script_write (bg_proto_version bg) (Ready handoff_id (listening_on snapshot)
    (healthz_ok snapshot) (advertised_revision_per_shard snapshot)) s3) as (r4 & s4 & -> & _ & Hs4).
  rewrite Hs3, Hs2 in Hs4. destruct r4 as [[]|e]; simpl in *.
  - exists proto_version_chosen, handoff_id, hbs, (Script.inbox s2), hbs'. done.
  - rewrite Hs4, app_nil_r. constructor; [done|]. eapply Forall_impl; [exact Hh'|]. by intros [].
Qed.

Lemma successor_ready_after_begin_witness :
  let id := mkHandoffId 5 in
  let s := Script.says [HelloAck 1 id; Heartbeat 1; Begin id] in
  Script.sent s = [] ∧
  (successor_run (S (length (Script.inbox s))) 77 [] ∅ (λ _, EmptyString) 1 (λ _, 0)
     (mkReadiness ["http"%string] true [7]) s).1 = Ok tt.
Proof.
  intros id s. assert (Script.sent s = []) as Hs by reflexivity. split; [exact Hs|].
  pose proof (successor_ready_after_begin 77 [] ∅ (λ _, EmptyString) 1 (λ _, 0)
    (mkReadiness ["http"%string] true [7]) s Hs) as Hrun.
  destruct (successor_run _ _ _ _ _ _ _ _ s) as [r s'] eqn:Hr. vm_compute in Hr.
  injection Hr as <- _. reflexivity.
Defined.
