(* ===== verification/Bind.v ===== *)
(** * Publishing a control socket: [bind_socket] of [sock.rs], [bind_replacing] of [incumbent.rs]

    The staging name, the bind, the mode and the rename, over a name space and
    the process's descriptor table.  Every state the name space goes through
    is recorded, for what a client that connects in between can see. *)
From Stdlib Require Import Strings.Ascii.
From stdpp Require Import base tactics option list numbers strings gmap.
From S2P Require Import Prelude Errors Sock Fd Lock Channel Role.
Local Open Scope Z_scope.

(** ** Paths, as [std::path] parses them (Unix) *)
Definition dot : ascii := "."%char.

(** On the reversed path: the trailing [/] and [/.] that [Components] skips. *)
Fixpoint trim_rev (fuel : nat) (r : list ascii) : list ascii :=
  match fuel with
  | O => r
  | S fuel =>
      match r with
      | a :: (b :: r') as r1 =>
          if decide (a = slash) then trim_rev fuel r1
          else if decide (a = dot ∧ b = slash) then trim_rev fuel r1
          else r
      | _ => r
      end
  end.

Fixpoint drop_name (r : list ascii) : list ascii :=
  match r with
  | [] => []
  | a :: r' => if decide (a = slash) then r else drop_name r'
  end.

(** [Path::parent]. *)
Definition parent (path : string) : option string :=
  let r := rev (chars path) in
  let r := trim_rev (length r) r in
  if decide (r = [] ∨ r = [slash]) then None
  else
    let d := drop_name r in
    Some (of_chars (rev (trim_rev (length d) d))).

Definition staging_parent (path : string) : string :=
  let p := default "."%string (parent path) in
  if decide (p = ""%string) then "."%string else p.

(** [seq] is the value of the process's counter. *)
Definition staging_name (pid seq : Z) : string :=
  (".ho-" +:+ print_dec (Z.to_N pid) +:+ "-" +:+ print_dec (Z.to_N seq) +:+ ".tmp")%string.

Definition staging_path (pid seq : Z) (path : string) : string :=
  path_join (staging_parent path) (staging_name pid seq).

(** ** The world *)
Definition SOCKET_MODE : Z := 384.  (* 0o600 *)

(** A name: its mode, and the open file description a client that connects
    to it reaches. *)
Record Node : Type := mkNode { mode : Z; serves : nat }.
#[export] Instance Node_eq_dec : EqDecision Node.
Proof. solve_decision. Defined.

Record Names : Type := mkNames {
  names : gmap string Node;
  bind_kernel : kernel;
  history : list (gmap string Node)  (* what [names] has been, oldest first *)
}.

(** What the system answers during one [bind_socket].  [bind(2)] creates the
    socket [new_fd], whose description is [new_ofd], under the mode the umask
    leaves. *)
Record BindAnswers : Type := mkBindAnswers {
  b_create_dir : result IoError unit;
  b_remove_stale : result IoError unit;
  b_bind : result IoError unit;
  new_fd : Z;
  new_ofd : nat;
  umask_mode : Z;
  b_chmod : result IoError unit;
  b_rename : result IoError unit;
  b_remove_staging : result IoError unit
}.

Abbreviation bindM := (prog Names Error).

Definition set_names (m : gmap string Node) (w : Names) : Names :=
  mkNames m (bind_kernel w) (history w ++ [m]).
Definition set_bind_kernel (k : kernel) (w : Names) : Names := mkNames (names w) k (history w).

(** A listening Unix socket as [UnixListener::bind] makes it. *)
Definition listening : description := mkDesc 0 S_IFSOCK (Some AF_UNIX) (Ok true) true false.

(** [std::fs::remove_file], its result ignored. *)
Definition remove_file (r : result IoError unit) (p : string) : bindM unit :=
  match r with Ok _ => modify (λ w, set_names (delete p (names w)) w) | Err _ => mret tt end.

Definition unix_bind (a : BindAnswers) (p : string) : bindM unit :=
  taken ← gets (λ w, names w !! p);
  match taken, b_bind a with
  | Some _, _ => raise (Io (io_from_errno EOTHER))
  | None, Err e => raise (Io e)
  | None, Ok _ =>
      _ ← modify (λ w, set_bind_kernel
            (mkKernel (<[new_fd a := mkFd (new_ofd a) FD_CLOEXEC]> (fdtab (bind_kernel w)))
               (<[new_ofd a := listening]> (descs (bind_kernel w))) (nofile (bind_kernel w))) w);
      modify (λ w, set_names (<[p := mkNode (umask_mode a) (new_ofd a)]> (names w)) w)
  end.

Definition set_permissions (a : BindAnswers) (p : string) : bindM unit :=
  _ ← io (b_chmod a);
  modify (λ w, set_names (alter (λ n, mkNode SOCKET_MODE (serves n)) p (names w)) w).

Definition rename (a : BindAnswers) (from to : string) : bindM unit :=
  _ ← io (b_rename a);
  n ← gets (λ w, names w !! from);
  match n with
  | None => raise (Io (io_from_kind NotFound))
  | Some n => modify (λ w, set_names (<[to := n]> (delete from (names w))) w)
  end.

(** Closing the listener leaves its name behind. *)
Definition drop_listener (a : BindAnswers) : bindM unit :=
  modify (λ w, set_bind_kernel (set_fdtab (delete (new_fd a) (fdtab (bind_kernel w))) (bind_kernel w)) w).

(** A system call on the descriptor table. *)
Definition kernel_call {A} (m : sys A) : bindM A := λ w,
  let '(r, k) := m (bind_kernel w) in
  (match r with
   | Ok x => Ok x
   | Err (Raise e) => Err (Raise (Io e))
   | Err (Exit c) => Err (Exit c)
   | Err Stuck => Err Stuck
   end, set_bind_kernel k w).

(** ** [bind_socket] *)
Definition bind_socket (sun_path_size pid seq : Z) (a : BindAnswers) (path : string) : bindM Z :=
  _ ← lift (validate_socket_path sun_path_size path);
  _ ← match parent path with
      | Some p => if decide (p = ""%string) then mret tt else io (b_create_dir a)
      | None => mret tt
      end;
  let staging := staging_path pid seq path in
  _ ← lift (validate_socket_path sun_path_size staging);
  _ ← remove_file (b_remove_stale a) staging;
  _ ← unix_bind a staging;
  bind_result ← attempt (_ ← set_permissions a staging; rename a staging path);
  match bind_result with
  | Err e =>
      _ ← drop_listener a;
      _ ← remove_file (b_remove_staging a) staging;
      raise e
  | Ok _ =>
      _ ← kernel_call (set_cloexec (new_fd a));
      mret (new_fd a)
  end.

(** ** Lemmas *)

(** What a client that looks up [path] may find, when the binding that was
    there serves [old] and the new one [new]. *)
Definition old_or_new (path : string) (old : option Node) (new : nat) (m : gmap string Node) : Prop :=
  m !! path = old ∨ m !! path = Some (mkNode SOCKET_MODE new).

Section bind.
Context (sz pid seq : Z) (a : BindAnswers) (path : string) (w0 : Names).
Abbreviation staging := (staging_path pid seq path).
Hypothesis apart : staging ≠ path.

(** [hs] has been seen since [w0]; only [path] and [staging] changed. *)
Definition seen (w : Names) : Prop :=
  ∃ hs, history w = history w0 ++ hs ∧
    Forall (old_or_new path (names w0 !! path) (new_ofd a)) hs ∧
    ∀ m, m ∈ names w :: hs → ∀ x, x ≠ path → x ≠ staging → m !! x = names w0 !! x.

Lemma seen_start : seen w0.
Proof. exists []. rewrite app_nil_r. split_and!; [done|done|]. set_solver. Qed.

Lemma seen_set m w :
  seen w → old_or_new path (names w0 !! path) (new_ofd a) m →
  (∀ x, x ≠ path → x ≠ staging → m !! x = names w0 !! x) → seen (set_names m w).
Proof.
  intros (hs & Hh & Hp & Ho) Hm Hx. exists (hs ++ [m]). simpl. rewrite Hh, <- app_assoc.
  split_and!; [done|apply Forall_app; auto|]. intros m' Hm'.
  assert (m' = m ∨ m' ∈ names w :: hs) as [->|Hin] by set_solver; eauto.
Qed.

Lemma seen_kernel k w : seen w → seen (set_bind_kernel k w).
Proof. done. Qed.

(** [path] is as it was; [staging] is [st]. *)
Definition before_rename (st : option Node) (w : Names) : Prop :=
  seen w ∧ names w !! path = names w0 !! path ∧ names w !! staging = st.

Lemma before_set st st' m w :
  before_rename st w → m !! staging = st' → (∀ x, x ≠ staging → m !! x = names w !! x) →
  before_rename st' (set_names m w).
Proof using apart.
  intros (Hs & Hp & _) Hm Hx. assert (m !! path = names w0 !! path) as Hmp by (by rewrite Hx).
  split; [|done]. apply seen_set; [done|by left|]. intros x Hxp Hxs. rewrite Hx by done.
  destruct Hs as (hs & _ & _ & Ho). apply Ho; [set_solver|done|done].
Qed.

Lemma remove_before r st w (F : Error → Names → Prop) :
  before_rename st w →
  wp (remove_file r staging) (ends (λ _ _, False)
    (λ _ w', before_rename (if is_ok r then None else st) w' ∧ bind_kernel w' = bind_kernel w) F) w.
Proof using apart.
  intros Hb. unfold remove_file, wp. destruct r as [[]|e]; simpl; [|done]. split; [|done].
  eapply before_set; [done|apply lookup_delete_eq|]. intros x Hx. by apply lookup_delete_ne.
Qed.

(** After [bind(2)]. *)
Definition bound_kernel : kernel :=
  mkKernel (<[new_fd a := mkFd (new_ofd a) FD_CLOEXEC]> (fdtab (bind_kernel w0)))
    (<[new_ofd a := listening]> (descs (bind_kernel w0))) (nofile (bind_kernel w0)).

Definition unbound (w : Names) : Prop :=
  seen w ∧ names w !! path = names w0 !! path ∧
  (names w !! staging = None ∨ names w !! staging = names w0 !! staging ∨
   is_ok (b_remove_staging a) = false) ∧
  fdtab (bind_kernel w) = delete (new_fd a) (fdtab (bind_kernel w0)).

Definition published (w : Names) : Prop :=
  seen w ∧ names w !! path = Some (mkNode SOCKET_MODE (new_ofd a)) ∧ names w !! staging = None ∧
  bind_kernel w = bound_kernel.

Lemma unix_bind_before st w :
  fdtab (bind_kernel w0) !! new_fd a = None →
  before_rename st w → bind_kernel w = bind_kernel w0 → (st = None ∨ st = names w0 !! staging) →
  wp (unix_bind a staging) (ends (λ _ _, False)
    (λ _ w', before_rename (Some (mkNode (umask_mode a) (new_ofd a))) w' ∧ bind_kernel w' = bound_kernel)
    (λ _, unbound)) w.
Proof using apart.
  intros Hfresh Hb Hk Hst. pose proof Hb as (Hs & Hp & Hstg).
  assert (unbound w) as Hun.
  { split; [done|]. split; [done|]. split; [|by rewrite Hk, delete_id].
    destruct Hst as [->| ->]; [by left|right; by left]. }
  unfold unix_bind, wp, mbind, prog_bind, gets. rewrite Hstg.
  destruct st as [n|]; [done|]. destruct (b_bind a); simpl; [|done].
  split; [|by unfold bound_kernel; rewrite Hk].
  eapply (before_set None); [done|apply lookup_insert_eq|]. intros x Hx. by apply lookup_insert_ne.
Qed.

Lemma publish_spec w :
  before_rename (Some (mkNode (umask_mode a) (new_ofd a))) w → bind_kernel w = bound_kernel →
  wp (_ ← set_permissions a staging; rename a staging path) (ends (λ _ _, False)
    (λ _, published)
    (λ _ w', ∃ st, before_rename (Some st) w' ∧ bind_kernel w' = bound_kernel)) w.
Proof using apart.
  intros Hb Hk. unfold set_permissions, rename, io, wp, mbind, prog_bind, gets, modify.
  destruct (b_chmod a) as [[]|e]; simpl; [|by eexists].
  set (w1 := set_names _ w).
  assert (before_rename (Some (mkNode SOCKET_MODE (new_ofd a))) w1) as Hb1.
  { eapply before_set; [done| |].
    - destruct Hb as (_ & _ & Hst). by rewrite lookup_alter_eq, Hst.
    - intros x Hx. by apply lookup_alter_ne. }
  destruct (b_rename a) as [[]|e]; simpl; [|by eexists].
  destruct Hb1 as (Hs1 & Hp1 & Hst1). simpl in Hst1. rewrite Hst1. simpl.
  split; [|split; [simpl; by rewrite lookup_insert_eq|split; [simpl|done]]].
  - apply (seen_set _ w1 Hs1); [right; by rewrite lookup_insert_eq|].
    intros x Hxp Hxs. rewrite lookup_insert_ne, lookup_delete_ne by done.
    destruct Hs1 as (hs & _ & _ & Ho). apply (Ho (names w1)); [set_solver|done|done].
  - by rewrite lookup_insert_ne, lookup_delete_eq.
Qed.

Lemma bind_socket_spec :
  fdtab (bind_kernel w0) !! new_fd a = None →
  wp (bind_socket sz pid seq a path) (ends (λ _ _, False)
    (λ fd w', fd = new_fd a ∧ published w') (λ _, unbound)) w0.
Proof using apart.
  intros Hfresh.
  assert (∀ st, st = names w0 !! staging → before_rename st w0) as Hstart
    by (intros st ->; split; [apply seen_start|done]).
  assert (unbound w0) as Hun.
  { split; [apply seen_start|]. split; [done|]. split; [right; by left|by rewrite delete_id]. }
  unfold bind_socket.
  eapply wp_ends_bind with (Q1 := λ _ w, w = w0);
    [unfold wp; by destruct (validate_socket_path sz path)|intros _ w ->].
  eapply wp_ends_bind with (Q1 := λ _ w, w = w0).
  { unfold wp. destruct (parent path); [case_decide; [done|]|done]. by destruct (b_create_dir a). }
  intros _ w ->. cbv zeta.
  eapply wp_ends_bind with (Q1 := λ _ w, w = w0);
    [unfold wp; by destruct (validate_socket_path sz staging)|intros _ w ->].
  eapply wp_ends_bind; [by apply remove_before, Hstart|]. cbn beta. intros _ w1 [Hb1 Hk1].
  eapply wp_ends_bind; [eapply unix_bind_before; [done|done|done|]|].
  { destruct (b_remove_stale a); simpl; auto. }
  cbn beta. intros _ w2 [Hb2 Hk2].
  eapply wp_ends_bind; [by eapply wp_ends_attempt, publish_spec|]. cbn beta. intros [u|e] w3 Hw3.
  - destruct Hw3 as (Hs & Hp & Hst & Hk). unfold wp, mbind, prog_bind, kernel_call.
    rewrite Hk. erewrite set_cloexec_run by apply lookup_insert_eq. simpl. split; [done|].
    split; [done|]. split; [done|]. split; [done|]. simpl. unfold bound_kernel, set_fdtab. simpl.
    by rewrite insert_insert_eq.
  - destruct Hw3 as (st & Hb3 & Hk3).
    eapply wp_ends_bind with (Q1 := λ _ w, before_rename (Some st) w ∧
        fdtab (bind_kernel w) = delete (new_fd a) (fdtab (bind_kernel w0))).
    { split; [done|]. simpl. rewrite Hk3. simpl. by rewrite delete_insert_eq. }
    cbn beta. intros _ w4 [Hb4 Hk4].
    eapply wp_ends_bind; [by apply remove_before|]. cbn beta. intros _ w5 [(Hs5 & Hp5 & Hst5) Hk5].
    change (unbound w5). split; [done|]. split; [done|]. split; [|by rewrite Hk5].
    destruct (b_remove_staging a); simpl in *; auto.
Qed.
End bind.

(** ** [Incumbent::bind_cold_start], [bind_after_ready] *)
Record Incumbent : Type := mkIncumbent {
  listener : Z;
  inc_lock : option DataDirLock;
  inc_data_dir : string;
  inc_build_id : list byte
}.

(** The data directory and the name space.  [lock] is owned: an error drops
    it, and the flock goes with it. *)
Definition bind_replacing (sun_path_size pid seq : Z) (a : BindAnswers) (pidfile_removed : bool)
    (socket_path : string) (lock : DataDirLock) : prog (LockDir * Names) Error Incumbent := λ '(d, n),
  match bind_socket sun_path_size pid seq a socket_path n with
  | (Ok fd, n) => (Ok (mkIncumbent fd (Some lock) (data_dir lock) []), (d, n))
  | (Err (Raise e), n) => (Err (Raise e), (drop_lock pidfile_removed d, n))
  | (Err e, n) => (Err e, (d, n))
  end.

Definition bind_cold_start := bind_replacing.
Definition bind_after_ready := bind_replacing.

Definition with_build_id (build_id : list byte) (i : Incumbent) : Incumbent :=
  mkIncumbent (listener i) (inc_lock i) (inc_data_dir i) build_id.

Lemma bind_replacing_run sz pid seq a removed path lock (d : LockDir) (n : Names) :
  staging_path pid seq path ≠ path → fdtab (bind_kernel n) !! new_fd a = None →
  let '(r, (d', n')) := bind_replacing sz pid seq a removed path lock (d, n) in
  match r with
  | Ok i =>
      d' = d ∧ inc_lock i = Some lock ∧ inc_data_dir i = data_dir lock ∧
      names n' !! path = Some (mkNode SOCKET_MODE (new_ofd a)) ∧
      fd_is_listening (bind_kernel n') (listener i) = true
  | Err (Raise _) =>
      flock_holder d' = None ∧ names n' !! path = names n !! path
  | Err _ => False
  end.
Proof.
  intros Hap Hfresh. pose proof (bind_socket_spec sz pid seq a path n Hap Hfresh) as Hpost.
  unfold wp in Hpost. unfold bind_replacing.
  destruct (bind_socket sz pid seq a path n) as [[fd|[e|x|]] n']; simpl in Hpost; try done.
  - destruct Hpost as (-> & _ & Hp & _ & Hk). repeat split; [done|].
    unfold fd_is_listening, accept_conn_opt, desc_of. simpl. rewrite Hk. simpl.
    rewrite lookup_insert_eq. simpl. by rewrite lookup_insert_eq.
  - by destruct Hpost as (_ & Hp & _).
Qed.

(** ** A name space to bind in *)
Module BindDemo.
Definition answers : BindAnswers :=
  mkBindAnswers (Ok tt) (Ok tt) (Ok tt) 5 50 493 (Ok tt) (Ok tt) (Ok tt).
Definition start : Names :=
  mkNames {[ "/run/h.sock"%string := mkNode SOCKET_MODE 7 ]} (mkKernel ∅ ∅ 64) [].
Definition guard : DataDirLock := mkDataDirLock 42 "/d" "/d/.handoff.pidfile".
Definition locked : LockDir := mkLockDir (Some 42) (Some (pid_text 42)) ∅.
Lemma apart : staging_path 42 0 "/run/h.sock" ≠ "/run/h.sock"%string.
Proof. vm_compute. discriminate. Qed.
End BindDemo.

(** ** Properties *)

(** C23: [bind_socket] replaces a binding atomically and privately.  In every
    state the name space goes through, the path is bound to what it was bound
    to before or to the new socket with mode 0600 — never unbound if it was
    bound, never with another mode — and no name but the path and the staging
    name changes.  [Ok] means that the path serves the new close-on-exec
    listening socket and the staging name is gone; [Err] means that the path is
    as it was, that the listener is closed, and that no staging file was left
    unless removing it failed. *)
Theorem bind_socket_atomic sz pid seq a path (w : Names) :
  staging_path pid seq path ≠ path → fdtab (bind_kernel w) !! new_fd a = None →
  let '(r, w') := bind_socket sz pid seq a path w in
  let staging := staging_path pid seq path in
  (∃ hs, history w' = history w ++ hs ∧
     ∀ m, m ∈ hs →
       (m !! path = names w !! path ∨ m !! path = Some (mkNode SOCKET_MODE (new_ofd a))) ∧
       ∀ x, x ≠ path → x ≠ staging → m !! x = names w !! x) ∧
  match r with
  | Ok fd =>
      names w' !! path = Some (mkNode SOCKET_MODE (new_ofd a)) ∧ names w' !! staging = None ∧
      fdtab (bind_kernel w') !! fd = Some (mkFd (new_ofd a) FD_CLOEXEC) ∧
      fd_is_listening (bind_kernel w') fd = true
  | Err (Raise e) =>
      names w' !! path = names w !! path ∧ fdtab (bind_kernel w') = fdtab (bind_kernel w) ∧
      (names w' !! staging = None ∨ names w' !! staging = names w !! staging ∨
       is_ok (b_remove_staging a) = false)
  | Err _ => False
  end.
Proof.
  intros Hap Hfresh. pose proof (bind_socket_spec sz pid seq a path w Hap Hfresh) as Hpost.
  unfold wp in Hpost.
  assert (∀ w', seen pid seq a path w w' → ∃ hs, history w' = history w ++ hs ∧
     ∀ m, m ∈ hs →
       (m !! path = names w !! path ∨ m !! path = Some (mkNode SOCKET_MODE (new_ofd a))) ∧
       ∀ x, x ≠ path → x ≠ staging_path pid seq path → m !! x = names w !! x) as Hseen.
  { intros w' (hs & Hh & Hp & Ho). exists hs. split; [done|]. intros m Hm. split.
    - exact (proj1 (Forall_forall _ _) Hp m Hm).
    - apply Ho. by right. }
  destruct (bind_socket sz pid seq a path w) as [[fd|[e|x|]] w']; simpl in Hpost; try done.
  - destruct Hpost as (-> & Hs & Hp & Hst & Hk). split; [by apply Hseen|]. rewrite Hk.
    split; [done|]. split; [done|]. simpl. rewrite lookup_insert_eq. split; [done|].
    unfold fd_is_listening, accept_conn_opt, desc_of. simpl. rewrite lookup_insert_eq. simpl.
    by rewrite lookup_insert_eq.
  - destruct Hpost as (Hs & Hp & Hst & Hk). split; [by apply Hseen|].
    split; [done|]. split; [by rewrite Hk, delete_id|done].
Qed.

Lemma bind_socket_atomic_witness :
  let '(r, w') := bind_socket 108 42 0 BindDemo.answers "/run/h.sock" BindDemo.start in
  r = Ok 5 ∧ names w' !! "/run/h.sock"%string = Some (mkNode SOCKET_MODE 50).
Proof.
  pose proof (bind_socket_atomic 108 42 0 BindDemo.answers "/run/h.sock" BindDemo.start
    BindDemo.apart eq_refl) as Hb.
  assert ((bind_socket 108 42 0 BindDemo.answers "/run/h.sock" BindDemo.start).1 = Ok 5) as Hr
    by (vm_compute; reflexivity).
  destruct (bind_socket 108 42 0 BindDemo.answers "/run/h.sock" BindDemo.start) as [r w'].
  simpl in Hr. subst r. destruct Hb as (_ & Hp & _). split; [reflexivity|exact Hp].
Defined.

(** Binding an incumbent takes the lock over or frees it.  [Ok] leaves
    the data directory untouched and the incumbent in possession of the guard
    it was given, serving the path; [Err] drops the guard, so the flock is
    free again, and the path still serves whoever served it. *)
Theorem bind_replacing_keeps_or_frees sz pid seq a removed path lock (d : LockDir) (n : Names) :
  staging_path pid seq path ≠ path → fdtab (bind_kernel n) !! new_fd a = None →
  let '(r, (d', n')) := bind_replacing sz pid seq a removed path lock (d, n) in
  match r with
  | Ok i =>
      d' = d ∧ inc_lock i = Some lock ∧ inc_data_dir i = data_dir lock ∧
      names n' !! path = Some (mkNode SOCKET_MODE (new_ofd a)) ∧
      fd_is_listening (bind_kernel n') (listener i) = true
  | Err (Raise _) =>
      flock_holder d' = None ∧ names n' !! path = names n !! path
  | Err _ => False
  end.
Proof. apply bind_replacing_run. Qed.

Lemma bind_replacing_keeps_or_frees_witness :
  let '(r, (d', n')) := bind_replacing 108 42 0 BindDemo.answers true "/run/h.sock" BindDemo.guard
                          (BindDemo.locked, BindDemo.start) in
  match r with Ok i => inc_lock i = Some BindDemo.guard ∧ d' = BindDemo.locked | Err _ => False end.
Proof.
  pose proof (bind_replacing_keeps_or_frees 108 42 0 BindDemo.answers true "/run/h.sock" BindDemo.guard
    BindDemo.locked BindDemo.start BindDemo.apart eq_refl) as Hb.
  assert (is_ok (bind_replacing 108 42 0 BindDemo.answers true "/run/h.sock" BindDemo.guard
                   (BindDemo.locked, BindDemo.start)).1 = true) as Hr by (vm_compute; reflexivity).
  destruct (bind_replacing 108 42 0 BindDemo.answers true "/run/h.sock" BindDemo.guard
              (BindDemo.locked, BindDemo.start)) as [[i|e] [d' n']]; [|discriminate Hr].
  destruct Hb as (Hd & Hl & _). split; [exact Hl|exact Hd].
Defined.

(** A path that fits is refused all the same when its file name is shorter
    than the staging name and its directory is near the limit. *)
Example short_name_is_refused :
  let dir := of_chars (slash :: replicate 100 "d"%char) in
  let path := path_join dir "s" in
  validate_socket_path 108 path = Ok tt ∧
  (bind_socket 108 42 0 BindDemo.answers path BindDemo.start).1 =
    Err (Raise (SocketPathTooLong (staging_path 42 0 path) 114 107)).
Proof. vm_compute. split; reflexivity. Qed.
