(* ===== verification/Crash.v ===== *)
(** * Crash injection: [crates/handoff/src/crash.rs]

    [maybe_crash] ends the process with [_exit(99)] at a named point when the
    build has the [crash-points] feature and [HANDOFF_CRASH_AT] names it. *)
From S2P Require Import Prelude Errors.
From stdpp Require Import base tactics option list numbers strings.
Local Open Scope Z_scope.

Module points.
Definition S_AFTER_O_HELLO : string := "s-after-o-hello".
Definition S_AFTER_SPAWN_SUCCESSOR : string := "s-after-spawn-successor".
Definition S_AFTER_N_HELLO : string := "s-after-n-hello".
Definition S_AFTER_PREPARE_SENT : string := "s-after-prepare-sent".
Definition S_AFTER_DRAINED_RECV : string := "s-after-drained-recv".
Definition S_AFTER_SEAL_REQUEST_SENT : string := "s-after-seal-request-sent".
Definition S_AFTER_SEAL_COMPLETE_RECV : string := "s-after-seal-complete-recv".
Definition S_AFTER_BEGIN_SENT : string := "s-after-begin-sent".
Definition S_AFTER_READY_RECV : string := "s-after-ready-recv".
Definition S_AFTER_COMMIT_SENT : string := "s-after-commit-sent".
Definition S_AFTER_JOURNAL_CLEAR : string := "s-after-journal-clear".
Definition O_AFTER_DRAINED_SENT : string := "o-after-drained-sent".
Definition O_AFTER_SEAL_FLOCK_RELEASED : string := "o-after-seal-flock-released".
Definition O_AFTER_SEAL_COMPLETE_SENT : string := "o-after-seal-complete-sent".
Definition O_AFTER_COMMIT_RECV : string := "o-after-commit-recv".
End points.

(** The build's feature and the environment variables of the process. *)
Record CrashEnv : Type := mkCrashEnv {
  crash_points : bool;
  HANDOFF_CRASH_AT : option string;
  HANDOFF_CRASH_MARKER_DIR : option string;
  HANDOFF_CRASH_ROLE : option string
}.

Definition no_crash : CrashEnv := mkCrashEnv false None None None.

(** [write_marker path contents] is [std::fs::write], whose result is
    ignored. *)
Definition maybe_crash {W E} (env : CrashEnv) (write_marker : string → string → W → W)
    (point : string) : prog W E unit :=
  if negb (crash_points env) then mret tt else
  match HANDOFF_CRASH_AT env with
  | None => mret tt
  | Some want =>
      if decide (want ≠ point) then mret tt else
      _ ← match HANDOFF_CRASH_MARKER_DIR env with
          | Some dir =>
              let role := default "unknown"%string (HANDOFF_CRASH_ROLE env) in
              modify (write_marker (path_join dir ("crashed-" +:+ role +:+ ".marker")%string) point)
          | None => mret tt
          end;
      exit_process 99
  end.

Definition crashes_at (env : CrashEnv) (point : string) : bool :=
  crash_points env && bool_decide (HANDOFF_CRASH_AT env = Some point).

(** A crash point either does nothing or ends the process, and then only the
    marker was written. *)
Lemma maybe_crash_run {W E} env wm point (w : W) :
  maybe_crash (E := E) env wm point w = (Ok tt, w) ∨
  ∃ w', maybe_crash (E := E) env wm point w = (Err (Exit 99), w') ∧ crashes_at env point = true ∧
        (w' = w ∨ ∃ path, w' = wm path point w).
Proof.
  unfold maybe_crash, crashes_at. destruct (crash_points env); simpl; [|by left].
  destruct (HANDOFF_CRASH_AT env) as [want|]; [|by left].
  case_decide as Hw; [by left|]. right. subst want.
  rewrite bool_decide_eq_true_2 by done.
  destruct (HANDOFF_CRASH_MARKER_DIR env); eexists; (split; [reflexivity|]); eauto.
Qed.

Lemma no_crash_run {W E} wm point (w : W) :
  maybe_crash (E := E) no_crash wm point w = (Ok tt, w).
Proof. done. Qed.
