(* ===== verification/StateJournal.v ===== *)
(** * The supervisor's journal: [crates/handoff/src/state.rs]

    One journal file and its temporary file.  The payload codec ([postcard])
    is a parameter, as in [Frame]. *)
From stdpp Require Import base tactics option list numbers strings.
From S2P Require Import Prelude Errors Protocol Lock.
Local Open Scope Z_scope.

Inductive Phase : Type :=
| Negotiating
| Draining
| Sealing
| AwaitingReady
| Committed
| ResumingAfterAbort.
#[export] Instance Phase_eq_dec : EqDecision Phase.
Proof. solve_decision. Defined.

Record StateJournal : Type := mkStateJournal {
  handoff_id : HandoffId;
  phase : Phase;
  incumbent_pid : Z;
  successor_pid : option Z;
  started_at_unix_ms : Z
}.

#[export] Instance StateJournal_eq_dec : EqDecision StateJournal.
Proof. solve_decision. Defined.

Class JournalCodec : Type := {
  journal_to_allocvec : StateJournal → result unit (list byte);
  journal_from_bytes : list byte → result unit StateJournal
}.
Class JournalLaws `{JournalCodec} : Prop := {
  journal_roundtrip j bs : journal_to_allocvec j = Ok bs → journal_from_bytes bs = Ok j
}.

(** The two files. *)
Record JournalFs : Type := mkJournalFs {
  journal_file : option (list byte);
  journal_tmp : option (list byte)
}.

(** What the file system answers during one operation.  [written] is how many
    bytes [write_all] wrote before it failed. *)
Record JournalAnswers : Type := mkJournalAnswers {
  j_create_dir : result IoError unit;
  j_open_tmp : result IoError unit;
  j_write : result IoError unit;
  j_written : nat;
  j_sync : result IoError unit;
  j_rename : result IoError unit;
  j_fsync_dir : result IoError unit;
  j_read : result IoError unit;
  j_remove : result IoError unit
}.
Definition journal_ok : JournalAnswers :=
  mkJournalAnswers (Ok tt) (Ok tt) (Ok tt) 0 (Ok tt) (Ok tt) (Ok tt) (Ok tt) (Ok tt).

Abbreviation journalM := (prog JournalFs Error).

Definition set_tmp (c : option (list byte)) (w : JournalFs) : JournalFs :=
  mkJournalFs (journal_file w) c.

Section journal.
Context `{JournalCodec}.

Definition fsync_dir (a : JournalAnswers) : result IoError unit := j_fsync_dir a.

Definition write_atomic (a : JournalAnswers) (self : StateJournal) : journalM unit :=
  _ ← io (j_create_dir a);
  bytes ← lift (result_map_err (λ _, Codec) (journal_to_allocvec self));
  _ ← io (j_open_tmp a);
  _ ← modify (set_tmp (Some []));
  _ ← match j_write a with
      | Ok _ => modify (set_tmp (Some bytes))
      | Err e => _ ← modify (set_tmp (Some (take (j_written a) bytes))); raise (Io e)
      end;
  _ ← io (j_sync a);
  _ ← io (j_rename a);
  _ ← modify (λ w, mkJournalFs (journal_tmp w) None);
  io (fsync_dir a).

Definition read (a : JournalAnswers) : journalM (option StateJournal) :=
  file ← gets journal_file;
  match j_read a, file with
  | Err e, _ => if decide (kind e = NotFound) then mret None else raise (Io e)
  | Ok _, None => mret None
  | Ok _, Some bytes =>
      j ← lift (result_map_err (λ _, Codec) (journal_from_bytes bytes)); mret (Some j)
  end.

Definition delete (a : JournalAnswers) : journalM unit :=
  file ← gets journal_file;
  match j_remove a, file with
  | Err e, _ => if decide (kind e = NotFound) then mret tt else raise (Io e)
  | Ok _, None => mret tt
  | Ok _, Some _ => modify (λ w, mkJournalFs None (journal_tmp w))
  end.

(** *** Lemmas *)

(** Every way [write_atomic] ends. *)
Lemma write_atomic_cases a j w :
  let '(r, w') := write_atomic a j w in
  (journal_file w' = journal_file w ∧ is_ok r = false ∧
   (∃ e, r = Err (Raise e))) ∨
  (∃ bytes, journal_to_allocvec j = Ok bytes ∧ journal_file w' = Some bytes ∧ journal_tmp w' = None ∧
     (r = Ok tt ∨ ∃ e, r = Err (Raise (Io e)))).
Proof.
  unfold write_atomic, io, lift, fsync_dir, mbind, prog_bind, modify, raise.
  destruct (j_create_dir a) as [[]|x1]; simpl; [|left; eauto].
  destruct (journal_to_allocvec j) as [bytes|[]]; simpl; [|left; eauto].
  destruct (j_open_tmp a) as [[]|x2]; simpl; [|left; eauto].
  destruct (j_write a) as [[]|x3]; simpl; [|left; eauto].
  destruct (j_sync a) as [[]|x4]; simpl; [|left; eauto].
  destruct (j_rename a) as [[]|x5]; simpl; [|left; eauto].
  destruct (j_fsync_dir a) as [[]|x6]; simpl; right; exists bytes; eauto 8.
Qed.
End journal.

(** C26: a journal write is atomic and durable in content: whatever fails, the
    journal file holds either exactly what it held before or the complete
    encoding of the new entry, [Ok] means the new entry, and a reader gets
    that entry back; a reader that finds no file gets [None], and deleting
    twice is harmless. *)
Theorem journal_atomic `{JournalCodec} a j w :
  JournalLaws →
  let '(r, w') := write_atomic a j w in
  (journal_file w' = journal_file w ∨
   (read journal_ok w').1 = Ok (Some j)) ∧
  (r = Ok tt → (read journal_ok w').1 = Ok (Some j)) ∧
  (let '(rd, w1) := delete journal_ok w' in
   rd = Ok tt ∧ (read journal_ok w1).1 = Ok None ∧ delete journal_ok w1 = (Ok tt, w1)).
Proof.
  intros Hlaws. pose proof (write_atomic_cases a j w) as Hc.
  destruct (write_atomic a j w) as [r w'].
  assert (∀ bytes, journal_to_allocvec j = Ok bytes → journal_file w' = Some bytes →
          (read journal_ok w').1 = Ok (Some j)) as Hread.
  { intros bytes Hb Hf. unfold read, mbind, prog_bind, gets, lift. simpl. rewrite Hf.
    by rewrite (journal_roundtrip _ _ Hb). }
  assert (let '(rd, w1) := delete journal_ok w' in
    rd = Ok tt ∧ (read journal_ok w1).1 = Ok None ∧ delete journal_ok w1 = (Ok tt, w1)) as Hdel.
  { unfold delete, read, mbind, prog_bind, gets, modify. simpl.
    destruct (journal_file w') eqn:Hf; simpl; rewrite ?Hf; done. }
  destruct Hc as [(Hf & Hr & e & ->)|(bytes & Hb & Hf & _ & _)].
  - split_and!; [by left|done|done].
  - split_and!; eauto.
Qed.

(** A codec for one entry, to run the journal with. *)
Module JournalDemo.
Definition entry : StateJournal := mkStateJournal (mkHandoffId 1) Sealing 10 (Some 11) 5.
#[global] Instance codec : JournalCodec := {|
  journal_to_allocvec j := if decide (j = entry) then Ok (le_bytes 4 7) else Err tt;
  journal_from_bytes bs := if decide (bs = le_bytes 4 7) then Ok entry else Err tt
|}.
#[global] Instance laws : JournalLaws.
Proof.
  constructor. intros j bs. simpl. case_decide as Hj; [|done]. intros [= <-]. by rewrite Hj.
Qed.
End JournalDemo.

Lemma journal_atomic_witness :
  let w := mkJournalFs (Some (le_bytes 4 9)) None in
  let '(r, w') := write_atomic journal_ok JournalDemo.entry w in
  r = Ok tt ∧ (read journal_ok w').1 = Ok (Some JournalDemo.entry).
Proof.
  intros w. pose proof (journal_atomic journal_ok JournalDemo.entry w JournalDemo.laws) as Hj.
  assert ((write_atomic journal_ok JournalDemo.entry w).1 = Ok tt) as Hr
    by (vm_compute; reflexivity).
  destruct (write_atomic journal_ok JournalDemo.entry w) as [r w']. simpl in Hr. subst r.
  destruct Hj as (_ & Hok & _). split; [reflexivity|exact (Hok eq_refl)].
Defined.
