(* ===== verification/LockTests.v ===== *)
(** * The unit tests of [lock.rs], [state.rs] and [protocol.rs], on the model

    Each [#[test]] is a definition that runs the model the way the test runs
    the code, on a fresh temporary directory whose file system works: [true]
    is a test that passes. *)
From stdpp Require Import base tactics option list numbers strings gmap.
From S2P Require Import Prelude Errors Protocol Lock StateJournal.
Local Open Scope Z_scope.

(** ** [lock.rs] *)
Definition tempdir : LockDir := mkLockDir None None ∅.
Definition no_interference : LockDir → LockDir := id.

(** [kill(pid, 0)] as the tests need it: this process and [init] exist,
    whether or not they may be signalled, and no process has the pid
    [i32::MAX]. *)
Record KillWorks (me : Z) (kill : Z → result Errno unit) : Prop := {
  kill_self : kill me ≠ Err ESRCH;
  kill_init : kill 1 ≠ Err ESRCH;
  kill_nobody : kill i32_max = Err ESRCH
}.

Section lock.
Context (me : Z) (d : string) (kill : Z → result Errno unit).

Definition acquire_succeeds_on_empty_dir : bool :=
  let '(lock, w) := acquire fs_ok me d tempdir in
  is_ok lock && bool_decide (flock_holder (drop_lock true w) = None).

Definition second_acquire_returns_lock_held : bool :=
  let '(lock, w) := acquire fs_ok me d tempdir in
  is_ok lock &&
  match (acquire fs_ok me d w).1 with
  | Err (Raise (LockHeld holder_pid)) => bool_decide (holder_pid = me)
  | _ => false
  end.

Definition release_on_drop_allows_reacquire : bool :=
  let '(lock, w) := acquire fs_ok me d tempdir in
  is_ok lock && is_ok (acquire fs_ok me d (drop_lock true w)).1.

Definition break_stale (w : LockDir) : result (exn Error) DataDirLock :=
  (acquire_or_break_stale fs_ok fs_ok kill no_interference me d w).1.

Definition stale_break_refuses_for_live_pid : bool :=
  let '(held, w) := acquire fs_ok me d tempdir in
  is_ok held &&
  match break_stale w with
  | Err (Raise (StaleLockBreakRefused holder_pid)) => bool_decide (holder_pid = me)
  | _ => false
  end.

(** The crashed holder's pidfile: [format!("{}", i32::MAX)]. *)
Definition dead_pidfile : string := print_dec (Z.to_N i32_max).
Definition stale_break_succeeds_when_kernel_released_flock : bool :=
  is_ok (break_stale (mkLockDir None (Some dead_pidfile) ∅)).

(** [other] holds the flock through a file description of its own. *)
Definition stale_break_refuses_when_pidfile_lies_but_flock_held (other : Z) : bool :=
  match break_stale (mkLockDir (Some other) (Some dead_pidfile) ∅) with
  | Err (Raise (StaleLockBreakRefused _)) => true
  | _ => false
  end.

Definition a_process_we_may_not_signal_still_counts_as_alive : bool :=
  is_pid_alive kill 1 && negb (is_pid_alive kill i32_max) && negb (is_pid_alive kill 0) &&
  negb (is_pid_alive kill (-1)).

Definition pidfile_temp_path_is_writer_specific : bool :=
  let '(r, w) := write_pid_atomic fs_ok 4242 tempdir in
  is_ok r && bool_decide (trim <$> pid_file w = Some "4242"%string) && bool_decide (pid_tmp w = ∅).
End lock.

(** ** [state.rs] *)
Definition state_dir : JournalFs := mkJournalFs None None.

Section state.
Context `{JournalCodec}.

Definition original (id : HandoffId) : StateJournal := {|
  handoff_id := id; phase := Sealing; incumbent_pid := 1234; successor_pid := Some 5678;
  started_at_unix_ms := 1700000000000
|}.

Definition roundtrip_persists_phase_and_pids (id : HandoffId) : bool :=
  let '(written, w) := write_atomic journal_ok (original id) state_dir in
  is_ok written &&
  match (read journal_ok w).1 with
  | Ok (Some loaded) =>
      bool_decide (phase loaded = Sealing) && bool_decide (incumbent_pid loaded = 1234) &&
      bool_decide (successor_pid loaded = Some 5678) &&
      bool_decide (handoff_id loaded = handoff_id (original id))
  | _ => false
  end.

Definition read_missing_returns_none : bool :=
  match (read journal_ok state_dir).1 with Ok None => true | _ => false end.

Definition delete_missing_is_idempotent : bool :=
  let '(first, w) := delete journal_ok state_dir in is_ok first && is_ok (delete journal_ok w).1.
End state.

(** ** [protocol.rs] *)
Definition negotiates (a b c d v : ProtoVersion) : bool :=
  match negotiate_version a b c d with Ok chosen => bool_decide (chosen = v) | Err _ => false end.
Definition negotiate_picks_highest_overlap : bool :=
  negotiates 1 3 2 5 3 && negotiates 1 1 1 1 1 && negotiates 1 5 3 4 4.
Definition negotiate_rejects_disjoint : bool :=
  match negotiate_version 1 1 2 2 with Err (VersionMismatch _ _ _ _) => true | _ => false end.

(** ** The suites *)
Definition lock_tests (me other : Z) (d : string) (kill : Z → result Errno unit) : list bool :=
  [acquire_succeeds_on_empty_dir me d; second_acquire_returns_lock_held me d;
   release_on_drop_allows_reacquire me d; stale_break_refuses_for_live_pid me d kill;
   stale_break_succeeds_when_kernel_released_flock me d kill;
   stale_break_refuses_when_pidfile_lies_but_flock_held me d kill other;
   a_process_we_may_not_signal_still_counts_as_alive kill; pidfile_temp_path_is_writer_specific].
Definition state_tests `{JournalCodec} (id : HandoffId) : list bool :=
  [roundtrip_persists_phase_and_pids id; read_missing_returns_none; delete_missing_is_idempotent].
Definition protocol_tests : list bool := [negotiate_picks_highest_overlap; negotiate_rejects_disjoint].

Abbreviation all_pass := (Forall (λ passed : bool, passed = true)).

(** ** Lemmas *)

(** The first acquisition of a fresh directory. *)
Lemma acquire_tempdir me d :
  acquire fs_ok me d tempdir =
  (Ok (mkDataDirLock me d (path_join d PID_FILE)), mkLockDir (Some me) (Some (pid_text me)) ∅).
Proof.
  unfold acquire, mbind, prog_bind, write_pid_atomic, attempt, publish. simpl.
  unfold publish. simpl. rewrite insert_insert_eq, lookup_insert_eq, delete_insert_eq. done.
Qed.

Lemma held_by_us me d :
  0 ≤ me ≤ i32_max →
  acquire fs_ok me d (mkLockDir (Some me) (Some (pid_text me)) ∅) =
  (Err (Raise (LockHeld me)), mkLockDir (Some me) (Some (pid_text me)) ∅).
Proof.
  intros Hme. assert (read_pidfile (mkLockDir (Some me) (Some (pid_text me)) ∅) = Some me) as Hr
    by (by apply read_pid_text).
  unfold acquire, mbind, prog_bind. simpl. unfold flock_exclusive_nonblock. simpl. by rewrite Hr.
Qed.

Lemma alive_iff kill pid : 0 < pid → is_pid_alive kill pid = true ↔ kill pid ≠ Err ESRCH.
Proof.
  intros Hp. unfold is_pid_alive. rewrite decide_False by lia.
  destruct (kill pid) as [[]|[]]; split; congruence.
Qed.

Lemma dead_pidfile_read w : pid_file w = Some dead_pidfile → read_pidfile w = Some i32_max.
Proof. intros Hw. unfold read_pidfile. rewrite Hw. vm_compute. done. Qed.

Lemma break_stale_free me d kill c :
  is_ok (break_stale me d kill (mkLockDir None c ∅)) = true.
Proof.
  unfold break_stale. by apply (break_stale_safe fs_ok fs_ok kill no_interference me d).
Qed.

(** A flock that is held is refused, whoever the pidfile names. *)
Lemma break_stale_held me d kill h c :
  ∃ p, break_stale me d kill (mkLockDir (Some h) c ∅) = Err (Raise (StaleLockBreakRefused p)).
Proof.
  unfold break_stale, acquire_or_break_stale, acquire, mbind, prog_bind, attempt, modify, raise. simpl.
  unfold flock_exclusive_nonblock. simpl. destruct (_ && _); simpl; eauto.
Qed.

Section pass.
Context (me other : Z) (d : string) (kill : Z → result Errno unit).
Hypothesis Hme : 0 < me ≤ i32_max.
Hypothesis Hkill : KillWorks me kill.

Lemma live_pid_refused : stale_break_refuses_for_live_pid me d kill = true.
Proof.
  unfold stale_break_refuses_for_live_pid. rewrite acquire_tempdir. cbn [is_ok andb].
  unfold break_stale, acquire_or_break_stale, mbind, prog_bind, attempt.
  rewrite held_by_us by lia. rewrite bool_decide_eq_true_2 by lia.
  rewrite (proj2 (alive_iff kill me ltac:(lia)) (kill_self _ _ Hkill)). simpl.
  by rewrite bool_decide_eq_true_2.
Qed.

Lemma signals_pass : a_process_we_may_not_signal_still_counts_as_alive kill = true.
Proof.
  unfold a_process_we_may_not_signal_still_counts_as_alive.
  rewrite (proj2 (alive_iff kill 1 ltac:(lia)) (kill_init _ _ Hkill)).
  unfold is_pid_alive at 1. rewrite (kill_nobody _ _ Hkill). done.
Qed.

Lemma lock_tests_run : all_pass (lock_tests me other d kill).
Proof.
  unfold lock_tests. rewrite live_pid_refused, signals_pass.
  unfold acquire_succeeds_on_empty_dir, second_acquire_returns_lock_held, release_on_drop_allows_reacquire,
    stale_break_succeeds_when_kernel_released_flock, stale_break_refuses_when_pidfile_lies_but_flock_held.
  rewrite acquire_tempdir, held_by_us, break_stale_free by lia.
  destruct (break_stale_held me d kill other (Some dead_pidfile)) as [p ->].
  repeat apply Forall_cons_2; try apply Forall_nil_2; try done; simpl.
  by rewrite bool_decide_eq_true_2.
Qed.
End pass.

Lemma state_tests_run `{JournalLaws} id :
  is_ok (journal_to_allocvec (original id)) = true → all_pass (state_tests id).
Proof.
  intros Henc. destruct (journal_to_allocvec (original id)) as [bytes|] eqn:Hb; [|done].
  repeat apply Forall_cons_2; try apply Forall_nil_2; try done.
  unfold roundtrip_persists_phase_and_pids, write_atomic, read, mbind, prog_bind. simpl.
  rewrite Hb. simpl. unfold lift, mbind, prog_bind. simpl. rewrite (journal_roundtrip _ _ Hb). simpl.
  by rewrite !bool_decide_eq_true_2.
Qed.

(** ** Theorem *)

(** The unit tests of [lock.rs], [state.rs] and [protocol.rs] pass on the
    model, whoever runs them: for every pid that can be this process's, every
    foreign holder of the flock, every directory, every [kill] that tells the
    living from the dead, and every lawful codec that encodes the entry. *)
Theorem lock_and_state_tests_pass `{JournalLaws} me other d kill id :
  0 < me ≤ i32_max → KillWorks me kill → is_ok (journal_to_allocvec (original id)) = true →
  all_pass (lock_tests me other d kill ++ state_tests id ++ protocol_tests).
Proof.
  intros Hme Hkill Henc. apply Forall_app_2; [by apply lock_tests_run|].
  apply Forall_app_2; [by apply state_tests_run|]. by repeat constructor.
Qed.

(** A codec for the entry, and a machine where this process is 42. *)
Module LockTestDemo.
Definition entry : StateJournal := original (mkHandoffId 1).
#[global] Instance codec : JournalCodec := {|
  journal_to_allocvec j := if decide (j = entry) then Ok (le_bytes 4 7) else Err tt;
  journal_from_bytes bs := if decide (bs = le_bytes 4 7) then Ok entry else Err tt
|}.
#[global] Instance laws : JournalLaws.
Proof.
  constructor. intros j bs. simpl. case_decide as Hj; [|done]. intros [= <-]. by rewrite Hj.
Qed.
Definition kill (pid : Z) : result Errno unit :=
  if decide (pid = i32_max) then Err ESRCH else if decide (pid = 1) then Err EPERM else Ok tt.
Lemma kill_works : KillWorks 42 kill.
Proof. split; vm_compute; done. Qed.
End LockTestDemo.

Lemma lock_and_state_tests_pass_witness :
  acquire_succeeds_on_empty_dir 42 "/d" = true.
Proof.
  pose proof (lock_and_state_tests_pass (H := LockTestDemo.codec) 42 7 "/d" LockTestDemo.kill (mkHandoffId 1)
    ltac:(unfold i32_max; lia) LockTestDemo.kill_works ltac:(vm_compute; reflexivity)) as Hall.
  exact (Forall_inv (proj1 (proj1 (Forall_app _ _ _) Hall))).
Defined.
