(* ===== verification/Incumbent.v ===== *)
(** * The incumbent: [crates/handoff/src/incumbent.rs], [drainable.rs]

    The session state machine, the serve loop, its recovery and its accept
    backoff, as programs over a world that holds the incumbent's fields, the
    consumer's state, the data directory, the current control stream and a
    trace of what was done.  Everything other processes and the system decide
    is in [Env]. *)
From S2P Require Import Prelude Errors Protocol Sock Lock Channel Crash.
From stdpp Require Import base tactics option list numbers strings gmap.
Local Open Scope Z_scope.

(** ** The consumer *)
Record DrainReport : Type := mkDrainReport { open_conns_remaining : Z; accept_closed : bool }.
Record SealReport : Type := mkSealReport {
  last_revision_per_shard : list Z;
  data_dir_fingerprint : list byte
}.
Record StateSnapshot : Type := mkStateSnapshot {
  shard_count : Z;
  open_conns : Z;
  snapshot_revisions : list Z
}.

(** The hooks over the consumer's state [C].  A hook may pass crash points of
    its own ([crash_here!]) before it returns: [drain_points] and
    [seal_points] are their names, in order; a consumer that has none gives
    the empty lists. *)
Class Drainable (C : Type) : Type := {
  drain : Z → C → Result DrainReport * C;
  seal : C → Result SealReport * C;
  resume_after_abort : C → Result unit * C;
  snapshot_state : C → StateSnapshot;
  drain_points : list string;
  seal_points : list string;
  points_named : Forall (λ p, p ≠ EmptyString) (drain_points ++ seal_points)
}.
Arguments drain_points C {_}.
Arguments seal_points C {_}.

(** ** Constants (milliseconds) *)
Definition RESUME_FLOCK_TIMEOUT : Z := 2000.
Definition HEARTBEAT_INTERVAL : Z := 2000.
Definition HELLO_READ_TIMEOUT : Z := 5000.
Definition ACCEPT_BACKOFF_MIN : Z := 5.
Definition ACCEPT_BACKOFF_MAX : Z := 1000.
Definition RETRY_INTERVAL : Z := 25.

(** ** State *)
Record SessionState : Type := mkSession {
  active : option HandoffId;
  sealed : bool;
  drained : bool
}.
Definition SessionState_default : SessionState := mkSession None false false.

Inductive SessionOutcome : Type := Committed | Closed.
Inductive AcceptFailure : Type := Retry | Exhausted | Fatal.

(** What the incumbent does, in order. *)
Inductive event : Type :=
| EvAccept
| EvSleep (d : Z)
| EvRecv (m : Message)
| EvSend (m : Message) (ok : bool)
| EvDrain (deadline : Z) (ok : bool)
| EvSeal (ok : bool)
| EvResume (ok : bool)
| EvUnlock
| EvLock
| EvReturn.

(** What others decide.  The functions of a [nat] answer the [n]-th
    question. *)
Record Env : Type := mkEnv {
  me : Z;
  data_dir : string;
  build_id : list byte;
  euid : Z;
  fs_answers : nat → FsAnswers;
  others : nat → LockDir → LockDir;
  pidfile_removed : nat → bool;
  delay : nat → Z;
  heartbeats : nat → nat;
  unix_ms : Z → Z;
  show_error : Error → string;
  crash : CrashEnv
}.

Record World (T C : Type) : Type := mkWorld {
  lock : option DataDirLock;
  fs : LockDir;
  consumer : C;
  stream : T;
  session : SessionState;
  clock : Z;
  calls : nat;
  markers : list (string * string);
  trace : list event
}.
Arguments mkWorld {T C}.
Arguments lock {T C}. Arguments fs {T C}. Arguments consumer {T C}. Arguments stream {T C}.
Arguments session {T C}. Arguments clock {T C}. Arguments calls {T C}.
Arguments markers {T C}. Arguments trace {T C}.

(** ** Functions of the environment's answers only *)
Definition classify_accept_error (e : IoError) : AcceptFailure :=
  if decide (kind e = Interrupted) then Retry else
  match raw_os_error e with
  | Some ECONNABORTED | Some EPROTO | Some EPERM => Retry
  | Some EMFILE | Some ENFILE | Some ENOBUFS | Some ENOMEM | Some EAGAIN => Exhausted
  | _ => Fatal
  end.

Definition next_backoff (backoff : Z) : Z := (backoff * 2) `min` ACCEPT_BACKOFF_MAX.

(** An [accept] that returned, with what the new socket will report. *)
Record Connection (T : Type) : Type := mkConnection {
  conn_fd : Z;
  conn_kernel : kernel;
  conn_peer_uid : result IoError Z;
  conn_write_timeout : result IoError unit;
  conn_stream : T
}.
Arguments mkConnection {T}.
Arguments conn_fd {T}. Arguments conn_kernel {T}. Arguments conn_peer_uid {T}.
Arguments conn_write_timeout {T}. Arguments conn_stream {T}.

Definition prepare_session_stream {T} (env : Env) (c : Connection T) : Result unit :=
  uid ← result_map_err Io (conn_peer_uid c);
  if negb (peer_uid_is_allowed (euid env) uid []) then Err (PeerNotPermitted uid)
  else match (configure_control_stream (conn_fd c) (conn_write_timeout c) (conn_kernel c)).1 with
       | Ok _ => Ok tt
       | Err (Raise e) => Err (Io e)
       | Err _ => Ok tt
       end.

(** ** Operations *)
Section incumbent.
Context {T C : Type} `{ControlChannel T} `{Drainable C} (env : Env).
Abbreviation world := (World T C).
Abbreviation M := (prog world Error).
Implicit Types w : world.

Definition set_lock (l : option DataDirLock) w : world :=
  mkWorld l (fs w) (consumer w) (stream w) (session w) (clock w) (calls w) (markers w) (trace w).
Definition set_fs (d : LockDir) w : world :=
  mkWorld (lock w) d (consumer w) (stream w) (session w) (clock w) (calls w) (markers w) (trace w).
Definition set_consumer (c : C) w : world :=
  mkWorld (lock w) (fs w) c (stream w) (session w) (clock w) (calls w) (markers w) (trace w).
Definition set_stream (t : T) w : world :=
  mkWorld (lock w) (fs w) (consumer w) t (session w) (clock w) (calls w) (markers w) (trace w).
Definition set_session (s : SessionState) w : world :=
  mkWorld (lock w) (fs w) (consumer w) (stream w) s (clock w) (calls w) (markers w) (trace w).
Definition emit (e : event) w : world :=
  mkWorld (lock w) (fs w) (consumer w) (stream w) (session w) (clock w) (calls w) (markers w)
    (trace w ++ [e]).
Definition mark (path text : string) w : world :=
  mkWorld (lock w) (fs w) (consumer w) (stream w) (session w) (clock w) (calls w)
    (markers w ++ [(path, text)]) (trace w).
(** Time passes: [d] milliseconds, and the next question to the environment. *)
Definition pass (d : Z) w : world :=
  mkWorld (lock w) (fs w) (consumer w) (stream w) (session w) (clock w + d) (S (calls w))
    (markers w) (trace w).

Definition set_active (a : option HandoffId) w : world :=
  set_session (mkSession a (sealed (session w)) (drained (session w))) w.
Definition set_sealed (b : bool) w : world :=
  set_session (mkSession (active (session w)) b (drained (session w))) w.
Definition set_drained (b : bool) w : world :=
  set_session (mkSession (active (session w)) (sealed (session w)) b) w.

(** [write_frame(stream, v, &m)?] *)
Definition send (v : ProtoVersion) (m : Message) : M unit := λ w,
  let '(r, t) := ch_write v m (stream w) in
  lift r (emit (EvSend m (is_ok r)) (set_stream t w)).

(** [acc.poll_read(stream)], the result as a value. *)
Definition poll : M (Result (option (ProtoVersion * Message))) := λ w,
  let '(r, t) := ch_poll (stream w) in
  let w := set_stream t w in
  (Ok r, match r with Ok (Some (_, m)) => emit (EvRecv m) w | _ => w end).

Definition set_read_timeout (d : option Z) : M (result IoError unit) := λ w,
  let '(r, t) := ch_set_read_timeout d (stream w) in (Ok r, set_stream t w).

Definition crash_here (point : string) : M unit := maybe_crash (crash env) mark point.

(** The crash points a hook passes. *)
Fixpoint pass_points (points : list string) : M unit :=
  match points with [] => mret tt | p :: points => _ ← crash_here p; pass_points points end.

(** A hook that returns: its result is [r]. *)
Definition hook_returns {A} (e : bool → event) (hook : C → Result A * C) : M A := λ w,
  let '(r, c) := hook (consumer w) in lift r (emit (e (is_ok r)) (set_consumer c w)).

(** The consumer's hooks: they end the process at a crash point of theirs, or
    return. *)
Definition call_drain (deadline : Z) : M DrainReport :=
  _ ← pass_points (drain_points C); hook_returns (EvDrain deadline) (drain deadline).
Definition call_seal : M SealReport :=
  _ ← pass_points (seal_points C); hook_returns EvSeal seal.
Definition call_resume : M unit := hook_returns EvResume resume_after_abort.

(** [self.lock.take()], dropping the guard. *)
Definition take_lock : M unit := λ w,
  match lock w with
  | None => (Ok tt, w)
  | Some _ =>
      (Ok tt, emit EvUnlock (set_lock None
                (set_fs (drop_lock (pidfile_removed env (calls w)) (fs w)) (pass 0 w))))
  end.

(** [DataDirLock::acquire(&self.data_dir)]; before it runs, other processes
    have changed the directory and some time has passed. *)
Definition acquire : M DataDirLock := λ w,
  let n := calls w in
  let '(r, d) := Lock.acquire (fs_answers env n) (me env) (data_dir env) (others env n (fs w)) in
  (r, set_fs d (pass (delay env n) w)).

(** [self.lock = Some(lock)]: a guard already there would be dropped, taking
    the pidfile with it ([lock] is [None] whenever this runs). *)
Definition put_lock (g : DataDirLock) : M unit := λ w,
  let w := match lock w with
           | None => w
           | Some _ => set_fs (drop_body (pidfile_removed env (calls w)) (fs w)) (pass 0 w)
           end in
  (Ok tt, emit EvLock (set_lock (Some g) w)).

(** *** Heartbeats *)
Fixpoint heartbeat_loop (n : nat) (v : ProtoVersion) : M unit :=
  match n with
  | O => mret tt
  | S n =>
      _ ← modify (pass HEARTBEAT_INTERVAL);
      now ← gets clock;
      r ← attempt (send v (Heartbeat (unix_ms env now)));
      match r with Err _ => mret tt | Ok _ => heartbeat_loop n v end
  end.

(** The heartbeat thread: [recv_timeout] waits an interval, then the frame is
    stamped and written.  The thread only writes to the stream and [work]
    never touches it, so the thread's turns all come first here; [heartbeats]
    says how many whole intervals [work] lasts. *)
Definition run_with_heartbeats {A} (v : ProtoVersion) (work : M A) : M A :=
  c ← gets (λ w, ch_try_clone (stream w));
  match c with
  | Err _ => work
  | Ok _ => n ← gets calls; _ ← heartbeat_loop (heartbeats env n) v; work
  end.

(** *** The messages of a session *)
Definition on_prepare (v : ProtoVersion) (handoff_id : HandoffId) (deadline_ms drain_grace_ms : Z)
    : M unit :=
  existing ← gets (λ w, active (session w));
  _ ← match existing with
      | Some e => if decide (e ≠ handoff_id) then raise HandoffInProgress else mret tt
      | None => mret tt
      end;
  _ ← modify (set_active (Some handoff_id));
  now ← gets clock;
  let deadline := now + (drain_grace_ms `min` deadline_ms) in
  report ← run_with_heartbeats v (call_drain deadline);
  _ ← modify (set_drained true);
  _ ← send v (Drained (open_conns_remaining report) (accept_closed report));
  crash_here points.O_AFTER_DRAINED_SENT.

Definition check_active (handoff_id : HandoffId) (what : string) : M unit :=
  a ← gets (λ w, active (session w));
  if decide (a ≠ Some handoff_id) then raise (UnexpectedMessage what) else mret tt.

Definition on_seal_request (v : ProtoVersion) (handoff_id : HandoffId) : M unit :=
  _ ← check_active handoff_id "SealRequest for unknown id";
  seal_outcome ← attempt (run_with_heartbeats v call_seal);
  match seal_outcome with
  | Ok report =>
      _ ← take_lock;
      _ ← modify (set_sealed true);
      _ ← crash_here points.O_AFTER_SEAL_FLOCK_RELEASED;
      _ ← send v (SealComplete handoff_id (last_revision_per_shard report)
                    (data_dir_fingerprint report));
      crash_here points.O_AFTER_SEAL_COMPLETE_SENT
  | Err e =>
      _ ← send v (SealFailed handoff_id (show_error env e) EmptyString);
      _ ← call_resume;
      _ ← modify (set_drained false);
      modify (set_active None)
  end.

Definition on_commit (handoff_id : HandoffId) : M SessionOutcome :=
  _ ← check_active handoff_id "Commit for unknown id";
  s ← gets (λ w, sealed (session w));
  if negb s then raise (Protocol "Commit before SealComplete") else
  _ ← crash_here points.O_AFTER_COMMIT_RECV;
  mret Committed.

(** The body the [ResumeAfterAbort] and [Abort] arms share. *)
Definition undo_handoff : M unit :=
  s ← gets session;
  _ ← if sealed s then
        lock ← acquire;
        _ ← put_lock lock;
        _ ← call_resume;
        _ ← modify (set_sealed false);
        modify (set_drained false)
      else if drained s then
        _ ← call_resume;
        modify (set_drained false)
      else mret tt;
  modify (set_active None).

Definition on_resume_after_abort (handoff_id : HandoffId) : M unit :=
  _ ← check_active handoff_id "Resume for unknown id"; undo_handoff.

Definition on_abort (handoff_id : HandoffId) : M unit :=
  _ ← check_active handoff_id "Abort for unknown id"; undo_handoff.

Definition on_heartbeat (v : ProtoVersion) : M unit :=
  now ← gets clock; send v (Heartbeat (unix_ms env now)).

(** The [match msg]: [None] is another turn of the loop. *)
Definition dispatch (v : ProtoVersion) (msg : Message) : M (option SessionOutcome) :=
  match msg with
  | PrepareHandoff handoff_id _ deadline_ms drain_grace_ms =>
      _ ← on_prepare v handoff_id deadline_ms drain_grace_ms; mret None
  | SealRequest handoff_id => _ ← on_seal_request v handoff_id; mret None
  | Commit handoff_id => o ← on_commit handoff_id; mret (Some o)
  | ResumeAfterAbort handoff_id => _ ← on_resume_after_abort handoff_id; mret None
  | Abort handoff_id _ => _ ← on_abort handoff_id; mret None
  | Heartbeat _ => _ ← on_heartbeat v; mret None
  | other => raise (UnexpectedMessage (short_name other))
  end.

Definition is_disconnect (e : Error) : bool :=
  match e with
  | Io e => bool_decide (kind e = UnexpectedEof ∨ kind e = ConnectionReset)
  | _ => false
  end.

Fixpoint run_session_loop (fuel : nat) (v : ProtoVersion) : M SessionOutcome :=
  match fuel with
  | O => stuck
  | S fuel =>
      r ← poll;
      match r with
      | Ok (Some (_, msg)) =>
          o ← dispatch v msg;
          match o with Some outcome => mret outcome | None => run_session_loop fuel v end
      | Ok None => run_session_loop fuel v
      | Err e =>
          if is_disconnect e then
            s ← gets (λ w, sealed (session w));
            if s : bool then raise (Protocol "supervisor disconnected after seal; resuming")
            else mret Closed
          else raise e
      end
  end.

(** *** Recovery *)

(** [thread::sleep] sleeps at least [d]. *)
Definition sleep (d : Z) : M unit := λ w,
  (Ok tt, emit (EvSleep d) (pass (d + delay env (calls w)) w)).

Fixpoint retry_loop (fuel : nat) (deadline : Z) : M DataDirLock :=
  match fuel with
  | O => stuck
  | S fuel =>
      r ← attempt acquire;
      match r with
      | Ok lock => mret lock
      | Err (LockHeld p) =>
          now ← gets clock;
          if decide (now < deadline) then _ ← sleep RETRY_INTERVAL; retry_loop fuel deadline
          else raise (LockHeld p)
      | Err e => raise e
      end
  end.

(** Enough turns: each one but the last sleeps [RETRY_INTERVAL]. *)
Definition retry_fuel (timeout : Z) : nat := S (S (Z.to_nat (timeout / RETRY_INTERVAL))).

Definition acquire_with_short_retry (timeout : Z) : M DataDirLock :=
  now ← gets clock;
  retry_loop (retry_fuel timeout) (now + timeout).

(** *** Sessions *)
Context `{!ChannelLaws T}.

(** [handle_session] up to the negotiated version. *)
Definition hello_exchange : M ProtoVersion :=
  _ ← send PROTO_MAX (Hello Incumbent (me env) (build_id env) PROTO_MIN PROTO_MAX
                        Capabilities_default);
  r ← set_read_timeout (Some HELLO_READ_TIMEOUT);
  _ ← io r;
  read_result ← poll;
  _ ← set_read_timeout None;
  match read_result with
  | Ok (Some (_, HelloAck proto_version_chosen _)) =>
      lift (negotiate_version PROTO_MIN PROTO_MAX proto_version_chosen proto_version_chosen)
  | Ok (Some (_, other)) => raise (UnexpectedMessage (short_name other))
  | Ok None => raise (Timeout "HelloAck")
  | Err e => raise e
  end.

Definition is_committed (r : Result SessionOutcome) : bool :=
  match r with Ok Committed => true | _ => false end.

Definition handle_session : M SessionOutcome :=
  chosen ← hello_exchange;
  _ ← modify (set_session SessionState_default);
  fuel ← gets (λ w, S (ch_size (stream w)));
  outcome ← attempt (run_session_loop fuel chosen);
  s ← gets session;
  _ ← (if drained s && negb (sealed s) && negb (is_committed outcome)
       then _ ← attempt call_resume; mret tt else mret tt);
  lift outcome.

(** The recovery of a session that ended with an error while the lock was
    given up: [None] is to go on accepting. *)
Definition recover : M (option Error) :=
  l ← gets lock;
  match l with
  | Some _ => mret None
  | None =>
      r ← attempt (acquire_with_short_retry RESUME_FLOCK_TIMEOUT);
      match r with
      | Ok lock => _ ← put_lock lock; _ ← attempt call_resume; mret None
      | Err e2 => mret (Some e2)
      end
  end.

(** [serve] on the results [accept] gives in turn; [Accepting] is still
    waiting in [accept] when they are used up. *)
Inductive served : Type := Returned (r : Result unit) | Accepting.

(** [serve] returns; [self] and the guard it may hold are dropped. *)
Definition finish (r : Result unit) : M served :=
  _ ← modify (emit EvReturn); _ ← take_lock; mret (Returned r).

Fixpoint serve_loop (backoff : Z) (accepts : list (result IoError (Connection T))) : M served :=
  _ ← modify (emit EvAccept);
  match accepts with
  | [] => mret Accepting
  | Err e :: accepts =>
      match classify_accept_error e with
      | Retry => serve_loop backoff accepts
      | Exhausted => _ ← sleep backoff; serve_loop (next_backoff backoff) accepts
      | Fatal => finish (Err (Io e))
      end
  | Ok c :: accepts =>
      match prepare_session_stream env c with
      | Err _ => serve_loop ACCEPT_BACKOFF_MIN accepts
      | Ok _ =>
          _ ← modify (set_stream (conn_stream c));
          r ← attempt handle_session;
          match r with
          | Ok Committed => finish (Ok tt)
          | Ok Closed => serve_loop ACCEPT_BACKOFF_MIN accepts
          | Err _ =>
              o ← recover;
              match o with
              | None => serve_loop ACCEPT_BACKOFF_MIN accepts
              | Some e2 => finish (Err e2)
              end
          end
      end
  end.

Definition serve (accepts : list (result IoError (Connection T))) : M served :=
  serve_loop ACCEPT_BACKOFF_MIN accepts.
End incumbent.
