(* ===== verification/SocketTests.v ===== *)
(** * The unit tests of [sock.rs], [fd.rs], [role.rs] and [incumbent.rs], on the model

    As in [LockTests]: each [#[test]] is a definition, [true] when it passes.
    The sockets, files and processes the tests create are arguments. *)
From Stdlib Require Import Strings.Ascii.
From stdpp Require Import base tactics option list numbers strings gmap.
From S2P Require Import Prelude Errors Protocol Sock Frame Fd Lock Channel Role Incumbent Bind.
Local Open Scope Z_scope.

Abbreviation all_pass := (Forall (λ passed : bool, passed = true)).

(** ** [sock.rs] *)
Definition rejects_over_long_socket_path (sun_path_size : Z) : bool :=
  let x := of_chars (replicate (Z.to_nat (max_socket_path_len sun_path_size)) "x"%char) in
  match validate_socket_path sun_path_size (path_join "/tmp" x) with
  | Err (SocketPathTooLong _ len max) =>
      bool_decide (len > max) && bool_decide (max = max_socket_path_len sun_path_size)
  | _ => false
  end.

(** A [bind_socket] whose system calls all work, and makes the descriptor
    [fd] and the description (and inode) [o]. *)
Definition bind_works (fd : Z) (o : nat) (umask : Z) : BindAnswers :=
  mkBindAnswers (Ok tt) (Ok tt) (Ok tt) fd o umask (Ok tt) (Ok tt) (Ok tt).

Definition ends_with (suffix s : string) : bool :=
  bool_decide (list.take (String.length suffix) (rev (chars s)) = rev (chars suffix)).

Section bound.
Context (sz pid seq : Z) (tempdir : string).

Definition bind_produces_owner_only_socket (a : BindAnswers) (w : Names) : bool :=
  let path := path_join tempdir "ctl.sock" in
  let '(listener, w) := bind_socket sz pid seq a path w in
  is_ok listener && bool_decide (mode <$> names w !! path = Some SOCKET_MODE) &&
  bool_decide (filter (λ n, ends_with ".tmp" n = true) (map_to_list (names w)).*1 = []).

(** [inode_of]: the inode is the socket's. *)
Definition inode_of (w : Names) (path : string) : option nat := serves <$> names w !! path.

Definition rebind_replaces_path_without_a_missing_window (a b : BindAnswers) (w : Names) : bool :=
  let path := path_join tempdir "ctl.sock" in
  let '(first, w1) := bind_socket sz pid seq a path w in
  let '(second, w2) := bind_socket sz pid (seq + 1) b path w1 in
  match first, second with
  | Ok first, Ok second =>
      bool_decide (is_Some (names w2 !! path)) &&
      negb (bool_decide (inode_of w1 path = inode_of w2 path)) &&
      fd_is_listening (bind_kernel w2) first
  | _, _ => false
  end.
End bound.

(** [UnixListener::set_nonblocking(true)]. *)
Definition set_nonblocking (fd : Z) : sys unit :=
  flags ← fcntl_getfl fd; fcntl_setfl fd (Z.lor flags O_NONBLOCK).

Definition cloexec_and_blocking_normalization_are_idempotent (fd : Z) (k : kernel) : bool :=
  let probe : sys bool :=
    (_ ← set_nonblocking fd;
     _ ← clear_nonblocking fd; _ ← set_cloexec fd;
     _ ← clear_nonblocking fd; _ ← set_cloexec fd;
     fl ← fcntl_getfl fd; fd_flags ← fcntl_getfd fd;
     mret (bool_decide (Z.land fl O_NONBLOCK = 0) && negb (bool_decide (Z.land fd_flags FD_CLOEXEC = 0)))) in
  match (probe k).1 with Ok b => b | Err _ => false end.

(** A listener, a plain file and a connection, as the kernel has them. *)
Definition plain_file (d : description) : Prop :=
  Z.land (st_mode d) S_IFMT ≠ S_IFSOCK ∧ acceptconn d = Err ENOTSOCK.
Definition connection (d : description) : Prop :=
  Z.land (st_mode d) S_IFMT = S_IFSOCK ∧ acceptconn d = Ok false.
Definition listener_of (family : Z) (d : description) : Prop :=
  Z.land (st_mode d) S_IFMT = S_IFSOCK ∧ acceptconn d = Ok true ∧ sockname_family d = Some family.

Definition socket_introspection_distinguishes_kinds (listener file conn : Z) (k : kernel) : bool :=
  fd_is_socket k listener && fd_is_listening k listener &&
  bool_decide (socket_family k listener = Some AF_UNIX) &&
  negb (fd_is_socket k file) && negb (fd_is_listening k file) &&
  fd_is_socket k conn && negb (fd_is_listening k conn).

(** [peer_uid] is what the kernel reports for the local connection;
    [wrapping_add] is on [u32]. *)
Definition peer_uid_matches_our_own_for_a_local_connection (peer_uid : result IoError Z) (euid : Z) : bool :=
  let next := (euid + 1) `mod` (u32_max + 1) in
  match peer_uid with Ok uid => bool_decide (uid = euid) | Err _ => false end &&
  peer_uid_is_allowed euid euid [] &&
  negb (peer_uid_is_allowed euid next []) && peer_uid_is_allowed euid next [euid + 1].

(** ** [fd.rs] *)
Definition zero_sources_is_noop (k : kernel) : bool := is_ok (install_inherited_fds [] k).1.

(** The child's exit code. *)
Definition child_code (sources : list Z) (k : kernel) : Z :=
  match install_inherited_fds sources k with
  | (Err _, _) => 1
  | (Ok _, k) =>
      if forallb (λ i, match (fcntl_getfd (3 + i) k).1 with
                       | Ok flags => bool_decide (Z.land flags FD_CLOEXEC = 0)
                       | Err _ => false
                       end) (seqZ 0 3) then 0 else 2
  end.
Definition install_in_forked_child_settles_targets_and_clears_cloexec (s0 s1 s2 : Z) (k : kernel) : bool :=
  bool_decide (child_code [s0; s1; s2] k = 0).

(** ** [role.rs] *)
Definition set_var (name value : string) (p : Process) : Process :=
  mkProcess (Role.pid p) (<[name := value]> (proc_env p)) (kern p).
Definition unset_var (name : string) (p : Process) : Process :=
  mkProcess (Role.pid p) (base.delete name (proc_env p)) (kern p).

(** [detect_role().unwrap()] as a [ColdStart] whose listeners satisfy [check]. *)
Definition cold_start (check : Process → InheritedListeners → bool) (p : Process) : bool * Process :=
  match detect_role (Ok tt) p with
  | (Ok (ColdStart l), p) => (check p l, p)
  | (_, p) => (false, p)
  end.

Definition detect_env_branches (p : Process) : bool :=
  let id_text pid := print_dec (Z.to_N pid) in
  let p := unset_var ENV_LISTEN_FDNAMES (unset_var ENV_LISTEN_FDS
             (unset_var ENV_HANDOFF_SOCK_FD (unset_var ENV_HANDOFF_ROLE p))) in
  let '(clean, p) := cold_start (λ _ _, true) p in
  let p := set_var ENV_HANDOFF_ROLE "other" p in
  let '(other, p) := cold_start (λ _ _, true) p in
  let p := unset_var ENV_HANDOFF_ROLE p in
  let p := set_var ENV_LISTEN_PID (id_text (Role.pid p + 1))
             (set_var ENV_LISTEN_FDNAMES "http:grpc:admin" (set_var ENV_LISTEN_FDS "3" p)) in
  let '(foreign, p) := cold_start (λ _ l, is_empty l) p in
  let p := set_var ENV_LISTEN_PID (id_text (Role.pid p))
             (unset_var ENV_LISTEN_FDNAMES (set_var ENV_LISTEN_FDS "3" p)) in
  let '(ours, p) := cold_start (λ p l, forallb (λ '(_, fd), fd_is_socket (kern p) fd) (map_to_list l)) p in
  clean && other && foreign && ours.

Definition take_and_take_unix_are_family_checked (unix tcp : Z) (k : kernel) : bool :=
  let inherited : InheritedListeners := <["unix"%string := unix]> {["tcp"%string := tcp]} in
  let '(r1, inherited) := Role.take inherited k "unix" in
  let '(r2, inherited) := take_unix inherited k "tcp" in
  let '(adopted_tcp, inherited) := Role.take inherited k "tcp" in
  let '(adopted_unix, inherited) := take_unix inherited k "unix" in
  bool_decide (r1 = None) && bool_decide (r2 = None) && bool_decide (is_Some adopted_tcp) &&
  bool_decide (is_Some adopted_unix) && is_empty inherited.

Definition take_refuses_a_connected_socket (client : Z) (k : kernel) : bool :=
  bool_decide ((Role.take {["http"%string := client]} k "http").1 = None).

(** ** [incumbent.rs] *)
Definition classified (f : AcceptFailure) (errno : Errno) : bool :=
  match classify_accept_error (io_from_errno errno), f with
  | Retry, Retry | Exhausted, Exhausted | Fatal, Fatal => true
  | _, _ => false
  end.
Definition transient_accept_errors_do_not_end_the_serve_loop : bool :=
  forallb (classified Retry) [ECONNABORTED; EPROTO; EPERM; EINTR] &&
  forallb (classified Exhausted) [EMFILE; ENFILE; ENOBUFS; ENOMEM; EAGAIN] &&
  forallb (classified Fatal) [EBADF; EINVAL; ENOTSOCK; EFAULT].

(** [stale] is the socket file the crashed predecessor left; [connect] finds
    the listener of the description the name serves. *)
Definition cold_start_bind_is_private_and_replaces_a_stale_path (sz pid seq : Z) (tempdir : string)
    (a : BindAnswers) (stale : Node) (k : kernel) : bool :=
  let sock_path := path_join (path_join tempdir "nested") "ctl.sock" in
  let w := mkNames {[sock_path := stale]} k [] in
  match Lock.acquire fs_ok pid tempdir (mkLockDir None None ∅) with
  | (Ok lock, d) =>
      match bind_cold_start sz pid seq a true sock_path lock (d, w) with
      | (Ok incumbent, (_, w)) =>
          bool_decide (mode <$> names w !! sock_path = Some SOCKET_MODE) &&
          bool_decide (inode_of w sock_path = ofd <$> fdtab (bind_kernel w) !! listener incumbent) &&
          fd_is_listening (bind_kernel w) (listener incumbent)
      | _ => false
      end
  | _ => false
  end.

(** ** The suite

    What a run of the tests has at hand: a process, a temporary directory,
    two fresh sockets for the binds, and open descriptors of every kind. *)
Record TestHost : Type := mkHost {
  sun_path_size : Z;
  process : Process;
  tempdir : string;
  counter : Z;          (* the staging counter *)
  umask : Z;
  fresh1 : Z * nat;     (* the descriptors and inodes of two new sockets *)
  fresh2 : Z * nat;
  stale : Node;
  fx_euid : Z;
  unix_fd : Z;
  tcp_fd : Z;
  file_fd : Z;
  conn_fd : Z;
  socks : Z * Z * Z     (* the socketpair ends *)
}.

Definition fx_kernel (x : TestHost) : kernel := kern (process x).
Definition bind1 (x : TestHost) : BindAnswers := bind_works (fresh1 x).1 (fresh1 x).2 (umask x).
Definition bind2 (x : TestHost) : BindAnswers := bind_works (fresh2 x).1 (fresh2 x).2 (umask x).
Definition empty_names (x : TestHost) : Names := mkNames ∅ (fx_kernel x) [].

Definition sock_tests (x : TestHost) : list bool :=
  let pid := Role.pid (process x) in
  [rejects_over_long_socket_path (sun_path_size x);
   bind_produces_owner_only_socket (sun_path_size x) pid (counter x) (tempdir x) (bind1 x) (empty_names x);
   rebind_replaces_path_without_a_missing_window (sun_path_size x) pid (counter x) (tempdir x)
     (bind1 x) (bind2 x) (empty_names x);
   cloexec_and_blocking_normalization_are_idempotent (unix_fd x) (fx_kernel x);
   socket_introspection_distinguishes_kinds (unix_fd x) (file_fd x) (conn_fd x) (fx_kernel x);
   peer_uid_matches_our_own_for_a_local_connection (Ok (fx_euid x)) (fx_euid x)].
Definition fd_tests (x : TestHost) : list bool :=
  [zero_sources_is_noop (fx_kernel x);
   install_in_forked_child_settles_targets_and_clears_cloexec (socks x).1.1 (socks x).1.2 (socks x).2 (fx_kernel x)].
Definition role_tests (x : TestHost) : list bool :=
  [detect_env_branches (process x); take_and_take_unix_are_family_checked (unix_fd x) (tcp_fd x) (fx_kernel x);
   take_refuses_a_connected_socket (conn_fd x) (fx_kernel x)].
Definition incumbent_tests (x : TestHost) : list bool :=
  [transient_accept_errors_do_not_end_the_serve_loop;
   cold_start_bind_is_private_and_replaces_a_stale_path (sun_path_size x) (Role.pid (process x)) (counter x)
     (tempdir x) (bind1 x) (stale x) (fx_kernel x)].

(** The paths of a test fit and differ from their staging names. *)
Record PathFits (sz pid seq : Z) (path : string) : Prop := {
  path_valid : validate_socket_path sz path = Ok tt;
  staging_valid : validate_socket_path sz (staging_path pid seq path) = Ok tt;
  staging_apart : staging_path pid seq path ≠ path
}.

(** [fd] is open, with its entry and its description. *)
Definition open_as (k : kernel) (fd : Z) (e : fd_entry) (d : description) : Prop :=
  fdtab k !! fd = Some e ∧ descs k !! ofd e = Some d.
Definition open_kind (k : kernel) (fd : Z) (kind : description → Prop) : Prop :=
  ∃ e d, open_as k fd e d ∧ kind d.

Record HostOk (x : TestHost) : Prop := {
  ok_platform : sun_path_size x = 108 ∨ sun_path_size x = 104;
  ok_pid : 0 ≤ Role.pid (process x) < u32_max;
  ok_paths seq : seq = counter x ∨ seq = counter x + 1 →
    PathFits (sun_path_size x) (Role.pid (process x)) seq (path_join (tempdir x) "ctl.sock");
  ok_nested : PathFits (sun_path_size x) (Role.pid (process x)) (counter x)
    (path_join (path_join (tempdir x) "nested") "ctl.sock");
  ok_fresh : fdtab (fx_kernel x) !! (fresh1 x).1 = None ∧ fdtab (fx_kernel x) !! (fresh2 x).1 = None ∧
    (fresh1 x).1 ≠ (fresh2 x).1 ∧ (fresh1 x).2 ≠ (fresh2 x).2;
  ok_euid : 0 ≤ fx_euid x < u32_max;
  ok_unix : open_kind (fx_kernel x) (unix_fd x) (listener_of AF_UNIX);
  ok_tcp : open_kind (fx_kernel x) (tcp_fd x) (listener_of AF_INET);
  ok_file : open_kind (fx_kernel x) (file_fd x) plain_file;
  ok_conn : open_kind (fx_kernel x) (conn_fd x) connection;
  ok_socks : Forall (λ s, is_Some (fdtab (fx_kernel x) !! s)) [(socks x).1.1; (socks x).1.2; (socks x).2];
  ok_room : (3 ≤ length (free_fds (fx_kernel x) 6))%nat
}.

(** ** Lemmas *)

(** *** Binding *)
Lemma bind_socket_succeeds sz pid seq fd o umask path w :
  validate_socket_path sz path = Ok tt → validate_socket_path sz (staging_path pid seq path) = Ok tt →
  (bind_socket sz pid seq (bind_works fd o umask) path w).1 = Ok fd.
Proof.
  intros Hp Hs. unfold bind_socket, unix_bind, set_permissions, Bind.rename, remove_file, kernel_call,
    mbind, prog_bind, lift, gets, modify, attempt, io. rewrite Hp, Hs. simpl.
  assert ((match parent path with
    | Some p => if decide (p = EmptyString) then mret tt else lift (Ok tt)
    | None => mret tt end : bindM unit) w = (Ok tt, w)) as Hpar
    by (destruct (parent path); [by case_decide|done]).
  rewrite Hpar. simpl. rewrite lookup_delete_eq. simpl. rewrite lookup_alter_eq, lookup_insert_eq. simpl.
  by erewrite set_cloexec_run by apply lookup_insert_eq.
Qed.

Lemma bind_works_run sz pid seq fd o umask path w :
  PathFits sz pid seq path → fdtab (bind_kernel w) !! fd = None →
  ∃ w', bind_socket sz pid seq (bind_works fd o umask) path w = (Ok fd, w') ∧
    names w' !! path = Some (mkNode SOCKET_MODE o) ∧ names w' !! staging_path pid seq path = None ∧
    (∀ x, x ≠ path → x ≠ staging_path pid seq path → names w' !! x = names w !! x) ∧
    bind_kernel w' = bound_kernel (bind_works fd o umask) w.
Proof.
  intros [Hp Hs Hap] Hfresh. set (a := bind_works fd o umask).
  pose proof (bind_socket_spec sz pid seq a path w Hap Hfresh) as Hpost.
  pose proof (bind_socket_succeeds sz pid seq fd o umask path w Hp Hs) as Hok. fold a in Hok.
  unfold wp in Hpost. destruct (bind_socket sz pid seq a path w) as [r w']. simpl in Hok. subst r.
  destruct Hpost as (_ & (hs & _ & _ & Ho) & Hn & Hst & Hk). exists w'. split_and!; [done..| |done].
  intros x ??. apply Ho; [left|done|done].
Qed.

Lemma bound_listening a w fd :
  fd = new_fd a → fd_is_listening (bound_kernel a w) fd = true.
Proof.
  intros ->. unfold fd_is_listening, accept_conn_opt, desc_of, bound_kernel. simpl.
  rewrite lookup_insert_eq. simpl. by rewrite lookup_insert_eq.
Qed.

Section bind_tests.
Context (sz pid seq : Z) (tempdir : string).
Local Abbreviation path := (path_join tempdir "ctl.sock").

Lemma ctl_sock_not_tmp : ends_with ".tmp" path = false.
Proof.
  unfold ends_with. apply bool_decide_eq_false_2. unfold path_join.
  assert (∀ d x, rev (chars (d +:+ x)%string) = rev (chars x) ++ rev (chars d)) as Happ.
  { intros d x. unfold chars. rewrite <- rev_app_distr. f_equal. induction d as [|c d IH]; [done|].
    simpl. by rewrite IH. }
  destruct (rev (chars tempdir)); [by vm_compute|]. case_decide; rewrite Happ; by vm_compute.
Qed.

Lemma owner_only_passes fd o umask k :
  PathFits sz pid seq path → fdtab k !! fd = None →
  bind_produces_owner_only_socket sz pid seq tempdir (bind_works fd o umask) (mkNames ∅ k []) = true.
Proof.
  intros Hfit Hfresh. unfold bind_produces_owner_only_socket.
  destruct (bind_works_run sz pid seq fd o umask path (mkNames ∅ k []) Hfit Hfresh)
    as (w' & -> & Hp & Hst & Ho & _).
  assert (names w' = {[path := mkNode SOCKET_MODE o]}) as ->.
  { apply map_eq. intros x. destruct (decide (x = path)) as [->|Hx]; [by rewrite lookup_singleton_eq|].
    rewrite lookup_singleton_ne by done.
    destruct (decide (x = staging_path pid seq path)) as [->|Hx']; [done|]. by rewrite Ho. }
  rewrite lookup_singleton_eq, map_to_list_singleton. apply andb_true_iff.
  split; apply bool_decide_eq_true_2; [done|]. cbn [fmap list_fmap fst].
  by rewrite filter_cons, ctl_sock_not_tmp.
Qed.

Lemma rebind_passes fd1 o1 fd2 o2 umask k :
  PathFits sz pid seq path → PathFits sz pid (seq + 1) path →
  fdtab k !! fd1 = None → fdtab k !! fd2 = None → fd1 ≠ fd2 → o1 ≠ o2 →
  rebind_replaces_path_without_a_missing_window sz pid seq tempdir (bind_works fd1 o1 umask)
    (bind_works fd2 o2 umask) (mkNames ∅ k []) = true.
Proof.
  intros Hfit Hfit2 H1 H2 Hfd Ho12. unfold rebind_replaces_path_without_a_missing_window, inode_of.
  destruct (bind_works_run sz pid seq fd1 o1 umask path (mkNames ∅ k []) Hfit H1)
    as (w1 & -> & Hp1 & _ & _ & Hk1).
  destruct (bind_works_run sz pid (seq + 1) fd2 o2 umask path w1 Hfit2) as (w2 & -> & Hp2 & _ & _ & Hk2).
  { rewrite Hk1. simpl. by rewrite lookup_insert_ne. }
  rewrite Hp1, Hp2, Hk2. rewrite bool_decide_eq_true_2 by eauto.
  rewrite bool_decide_eq_false_2 by (simpl; congruence). simpl.
  unfold fd_is_listening, accept_conn_opt, desc_of, bound_kernel. simpl.
  rewrite lookup_insert_ne, Hk1 by done. simpl. rewrite lookup_insert_eq. simpl.
  by rewrite lookup_insert_ne, lookup_insert_eq by done.
Qed.
End bind_tests.

Lemma cold_start_bind_passes sz pid seq tempdir fd o umask stale k :
  PathFits sz pid seq (path_join (path_join tempdir "nested") "ctl.sock") → fdtab k !! fd = None →
  cold_start_bind_is_private_and_replaces_a_stale_path sz pid seq tempdir (bind_works fd o umask) stale k = true.
Proof.
  intros Hfit Hfresh. unfold cold_start_bind_is_private_and_replaces_a_stale_path, inode_of.
  set (path := path_join (path_join _ _) _) in *.
  destruct (Lock.acquire fs_ok pid tempdir (mkLockDir None None ∅)) as [r d] eqn:Hl.
  assert (∃ lock, r = Ok lock) as [lock ->].
  { apply (f_equal fst) in Hl. simpl in Hl. rewrite <- Hl. eexists. vm_compute. reflexivity. }
  unfold bind_cold_start, bind_replacing.
  destruct (bind_works_run sz pid seq fd o umask path (mkNames {[path := stale]} k []) Hfit Hfresh)
    as (w' & -> & Hp & _ & _ & Hk).
  simpl. rewrite Hp, Hk. simpl. rewrite lookup_insert_eq, (bound_listening _ _ fd) by done. simpl.
  by rewrite !bool_decide_eq_true_2.
Qed.

(** *** Descriptors *)
Lemma land_mode_le (f : Z) : Z.land (Z.lor f FD_CLOEXEC) FD_CLOEXEC ≠ 0.
Proof.
  assert (Z.land (Z.lor f FD_CLOEXEC) FD_CLOEXEC = FD_CLOEXEC) as ->; [|done].
  apply Z.bits_inj'. intros n Hn. rewrite Z.land_spec, Z.lor_spec.
  by destruct (Z.testbit FD_CLOEXEC n), (Z.testbit f n).
Qed.

Lemma blocking_flags_clear f : Z.land (Z.land f (Z.lnot O_NONBLOCK)) O_NONBLOCK = 0.
Proof. rewrite <- Z.land_assoc, (Z.land_comm _ O_NONBLOCK), Z.land_lnot_diag. apply Z.land_0_r. Qed.

Lemma run_bind {W E A B} (m : prog W E A) (f : A → prog W E B) w a w' :
  m w = (Ok a, w') → (m ≫= f) w = f a w'.
Proof. intros Hm. unfold mbind, prog_bind. by rewrite Hm. Qed.

Lemma set_nonblocking_open k fd e d :
  open_as k fd e d → ∃ k' d', set_nonblocking fd k = (Ok tt, k') ∧ open_as k' fd e d'.
Proof.
  intros [He Hd]. unfold set_nonblocking. eexists _, _. split.
  - erewrite run_bind; [|unfold fcntl_getfl, with_desc, with_fd, mbind, prog_bind, gets; simpl;
      rewrite He; simpl; by rewrite Hd].
    unfold fcntl_setfl, with_desc, with_fd, mbind, prog_bind, gets. simpl. rewrite He. simpl. by rewrite Hd.
  - split; [done|]. simpl. apply lookup_insert_eq.
Qed.

Lemma clear_nonblocking_open k fd e d :
  open_as k fd e d → ∃ k', clear_nonblocking fd k = (Ok tt, k') ∧ open_as k' fd e (blocking_desc d).
Proof.
  intros [He Hd]. rewrite (clear_nonblocking_run _ _ _ _ He Hd). eexists. split; [done|].
  split; [done|]. simpl. apply lookup_insert_eq.
Qed.

Lemma set_cloexec_open k fd e d :
  open_as k fd e d → ∃ k', set_cloexec fd k = (Ok tt, k') ∧ open_as k' fd (cloexec_entry e) d.
Proof.
  intros [He Hd]. rewrite (set_cloexec_run _ _ _ He). eexists. split; [done|].
  split; [|done]. simpl. apply lookup_insert_eq.
Qed.

Lemma flags_open k fd e d :
  open_as k fd e d →
  fcntl_getfl fd k = (Ok (status_flags d), k) ∧ fcntl_getfd fd k = (Ok (fd_flags e), k).
Proof.
  intros [He Hd]. unfold fcntl_getfl, fcntl_getfd, with_desc, with_fd, mbind, prog_bind, gets. simpl.
  rewrite He. simpl. by rewrite Hd.
Qed.

Lemma normalization_passes fd k e d :
  open_as k fd e d → cloexec_and_blocking_normalization_are_idempotent fd k = true.
Proof.
  intros H0. unfold cloexec_and_blocking_normalization_are_idempotent.
  apply set_nonblocking_open in H0 as (k1 & d1 & Hr1 & H1). rewrite (run_bind _ _ _ _ _ Hr1).
  apply clear_nonblocking_open in H1 as (k2 & Hr2 & H2). rewrite (run_bind _ _ _ _ _ Hr2).
  apply set_cloexec_open in H2 as (k3 & Hr3 & H3). rewrite (run_bind _ _ _ _ _ Hr3).
  apply clear_nonblocking_open in H3 as (k4 & Hr4 & H4). rewrite (run_bind _ _ _ _ _ Hr4).
  apply set_cloexec_open in H4 as (k5 & Hr5 & H5). rewrite (run_bind _ _ _ _ _ Hr5).
  apply flags_open in H5 as [Hfl Hfd]. rewrite (run_bind _ _ _ _ _ Hfl), (run_bind _ _ _ _ _ Hfd). cbn [fst mret prog_ret].
  rewrite cloexec_entry_set, bool_decide_eq_true_2 by apply blocking_desc_clear. done.
Qed.

Lemma introspection_passes listener file conn k el dl ef df ec dc :
  open_as k listener el dl → listener_of AF_UNIX dl → open_as k file ef df → plain_file df →
  open_as k conn ec dc → connection dc →
  socket_introspection_distinguishes_kinds listener file conn k = true.
Proof.
  intros [Hl1 Hl2] (Hl3 & Hl4 & Hl5) [Hf1 Hf2] [Hf3 Hf4] [Hc1 Hc2] [Hc3 Hc4].
  unfold socket_introspection_distinguishes_kinds, fd_is_socket, fd_is_listening, accept_conn_opt,
    socket_family, desc_of.
  rewrite Hl1, Hf1, Hc1. simpl. rewrite Hl2, Hf2, Hc2. simpl. rewrite Hl4, Hf4, Hc4, Hl5. simpl.
  rewrite (bool_decide_eq_true_2 _ Hl3), (bool_decide_eq_false_2 _ Hf3), (bool_decide_eq_true_2 _ Hc3).
  done.
Qed.

Lemma peer_uid_passes euid :
  0 ≤ euid < u32_max → peer_uid_matches_our_own_for_a_local_connection (Ok euid) euid = true.
Proof.
  intros He. unfold peer_uid_matches_our_own_for_a_local_connection, peer_uid_is_allowed.
  rewrite Z.mod_small by (unfold u32_max in *; lia).
  rewrite !(bool_decide_eq_true_2 (euid = euid)) by done. simpl.
  rewrite (bool_decide_eq_false_2 (euid + 1 = euid)), (bool_decide_eq_false_2 (euid + 1 = 0)) by lia. simpl.
  rewrite bool_decide_eq_true_2 by apply list_elem_of_singleton, eq_refl. done.
Qed.

Lemma forked_child_passes s0 s1 s2 k :
  Forall (λ s, is_Some (fdtab k !! s)) [s0; s1; s2] → (3 ≤ length (free_fds k 6))%nat →
  install_in_forked_child_settles_targets_and_clears_cloexec s0 s1 s2 k = true.
Proof.
  intros Hopen Hroom. unfold install_in_forked_child_settles_targets_and_clears_cloexec, child_code.
  destruct (install_spec k [s0; s1; s2] Hopen Hroom) as (t & -> & Ht & _).
  assert (∀ i, 0 ≤ i < 3 → ∃ e, t !! (3 + i) = Some (mkFd (ofd e) 0)) as Hslot.
  { intros i Hi. destruct ([s0; s1; s2] !! Z.to_nat i) as [s|] eqn:Hs;
      [|apply lookup_ge_None in Hs; simpl in Hs; lia].
    destruct (proj1 (Forall_lookup _ _) Hopen _ _ Hs) as [e He]. exists e.
    pose proof (Ht _ _ _ Hs He) as Hget. by rewrite Z2Nat.id in Hget by lia. }
  change (seqZ 0 3) with [0; 1; 2]. unfold fcntl_getfd, with_fd, mbind, prog_bind, gets. simpl.
  destruct (Hslot 0) as [e0 H0]; [lia|]. destruct (Hslot 1) as [e1 H1]; [lia|].
  destruct (Hslot 2) as [e2 H2]; [lia|]. simpl in H0, H1, H2. by rewrite H0, H1, H2.
Qed.

(** *** Roles *)
Lemma cold_start_run check p :
  count_in_range p → var ENV_HANDOFF_ROLE p ≠ Some "successor"%string →
  cold_start check p =
  let p' := mkProcess (Role.pid p) (clean_listen (proc_env p)) (norm_fds (kern p) (adopted_fds p)) in
  (check p' (adopted_map p), p').
Proof. intros Hr Hrole. unfold cold_start. rewrite detect_role_run by done. by rewrite decide_False. Qed.

(** Nothing is adopted from a block that is not this process's. *)
Lemma adopts_nothing p : announced_fds p = [] → adopted_map p = ∅ ∧ adopted_fds p = [].
Proof. intros Ha. unfold adopted_map, adopted_fds. by rewrite Ha. Qed.

Lemma var_set_eq name value p : var name (set_var name value p) = Some value.
Proof. apply lookup_insert_eq. Qed.
Lemma var_set_ne name value p x : x ≠ name → var x (set_var name value p) = var x p.
Proof. intros. by apply lookup_insert_ne. Qed.
Lemma var_unset_eq name p : var name (unset_var name p) = None.
Proof. apply lookup_delete_eq. Qed.
Lemma var_unset_ne name p x : x ≠ name → var x (unset_var name p) = var x p.
Proof. intros. by apply lookup_delete_ne. Qed.
Lemma var_after i p k x :
  x ≠ ENV_LISTEN_FDNAMES → x ≠ ENV_LISTEN_FDS → x ≠ ENV_LISTEN_PID →
  var x (mkProcess i (clean_listen (proc_env p)) k) = var x p.
Proof. intros. unfold var, clean_listen. simpl. by rewrite !lookup_delete_ne. Qed.
Lemma var_after_count i p k : var ENV_LISTEN_FDS (mkProcess i (clean_listen (proc_env p)) k) = None.
Proof. unfold var, clean_listen. simpl. by rewrite lookup_delete_ne, lookup_delete_eq. Qed.

Lemma no_count p : var ENV_LISTEN_FDS p = None → listen_count p = 0%N.
Proof. intros Hv. unfold listen_count. by rewrite Hv. Qed.
Lemma count_three p : var ENV_LISTEN_FDS p = Some "3"%string → listen_count p = 3%N.
Proof. intros Hv. unfold listen_count. rewrite Hv. vm_compute. done. Qed.
Lemma count_small p n : listen_count p = n → (n ≤ 3)%N → count_in_range p.
Proof. unfold count_in_range, SD_LISTEN_FDS_START, i32_max. lia. Qed.

Lemma trim_no_space s : no_space s = true → trim s = s.
Proof.
  intros Hs. assert (trim_end s = s) as He.
  { clear -Hs. induction s as [|c s IH]; [done|]. simpl in *. apply andb_prop in Hs as [Hc Hs].
    rewrite IH by done. destruct s; [|done]. by destruct (is_space c). }
  unfold trim. destruct s as [|c s]; [done|]. simpl in Hs. apply andb_prop in Hs as [Hc _]. simpl.
  by destruct (is_space c).
Qed.

Lemma pid_listened own pid :
  0 ≤ own ≤ u32_max → 0 ≤ pid ≤ u32_max →
  listen_pid_ok own (Some (print_dec (Z.to_N pid))) = bool_decide (pid = own).
Proof.
  intros Ho Hp. unfold listen_pid_ok. rewrite trim_no_space by apply print_dec_no_space.
  rewrite parse_print_unsigned by lia. apply bool_decide_ext. split; [|by intros ->].
  intros [= Heq]. lia.
Qed.

(** One variable of a process, through the tests' changes. *)
Ltac env := repeat first
  [ rewrite var_set_eq | rewrite var_unset_eq | rewrite var_after_count
  | rewrite var_set_ne by done | rewrite var_unset_ne by done | rewrite var_after by done ].
Ltac run_detect Hcount p :=
  rewrite (cold_start_run _ p (count_small _ _ Hcount ltac:(done)));
    cbv beta iota zeta.

Lemma detect_env_passes p :
  0 ≤ Role.pid p < u32_max → detect_env_branches p = true.
Proof.
  intros Hpid. unfold detect_env_branches. cbv beta iota zeta.
  set (p1 := unset_var ENV_LISTEN_FDNAMES _).
  assert (listen_count p1 = 0%N) as Hc1 by (apply no_count; unfold p1; by env).
  run_detect Hc1 p1; [|unfold p1; by env].
  set (q1 := mkProcess (Role.pid p1) _ _). set (p2 := set_var ENV_HANDOFF_ROLE "other" q1).
  assert (listen_count p2 = 0%N) as Hc2 by (apply no_count; unfold p2, q1; by env).
  run_detect Hc2 p2; [|unfold p2; by env].
  set (q2 := mkProcess (Role.pid p2) _ _). set (p3 := set_var ENV_LISTEN_PID _ _).
  assert (listen_count p3 = 3%N) as Hc3 by (apply count_three; unfold p3; by env).
  run_detect Hc3 p3; [|unfold p3; by env].
  set (q3 := mkProcess (Role.pid p3) _ _). set (p4 := set_var ENV_LISTEN_PID _ _).
  assert (listen_count p4 = 3%N) as Hc4 by (apply count_three; unfold p4; by env).
  run_detect Hc4 p4; [|unfold p4, q3, p3; by env].
  assert (announced_fds p3 = []) as Hforeign.
  { unfold announced_fds. assert (var ENV_LISTEN_PID p3 = Some (print_dec (Z.to_N (Role.pid p + 1)))) as ->
      by (unfold p3; by env).
    change (Role.pid p3) with (Role.pid p). rewrite pid_listened by lia.
    by rewrite bool_decide_eq_false_2 by lia. }
  destruct (adopts_nothing _ Hforeign) as [-> _].
  assert (is_empty ∅ = true) as -> by (by apply bool_decide_eq_true_2). cbn [andb kern].
  apply Is_true_true, forallb_True, Forall_forall. intros [name fd] Hin%elem_of_map_to_list.
  apply adopted_map_lookup in Hin as [[_ Hs]%adopted_fds_spec _]. apply Is_true_true.
  by rewrite norm_fds_socket.
Qed.

Lemma family_checks_pass unix tcp k eu du et dt :
  open_as k unix eu du → listener_of AF_UNIX du → open_as k tcp et dt → listener_of AF_INET dt →
  take_and_take_unix_are_family_checked unix tcp k = true.
Proof.
  intros [Hu1 Hu2] (_ & Hu3 & Hu4) [Ht1 Ht2] (_ & Ht3 & Ht4).
  assert (fd_is_listening k unix = true ∧ socket_family k unix = Some AF_UNIX) as [Lu Fu].
  { unfold fd_is_listening, accept_conn_opt, socket_family, desc_of. rewrite Hu1. simpl. rewrite Hu2. simpl.
    by rewrite Hu3. }
  assert (fd_is_listening k tcp = true ∧ socket_family k tcp = Some AF_INET) as [Lt Ft].
  { unfold fd_is_listening, accept_conn_opt, socket_family, desc_of. rewrite Ht1. simpl. rewrite Ht2. simpl.
    by rewrite Ht3. }
  unfold take_and_take_unix_are_family_checked, Role.take, take_unix, take_validated.
  rewrite lookup_insert_eq, Lu, Fu. simpl.
  rewrite lookup_insert_ne, lookup_singleton_eq, Lt, Ft by done. simpl.
  rewrite lookup_insert_ne, lookup_singleton_eq, Lt, Ft by done. simpl.
  rewrite delete_insert_ne, lookup_insert_eq, Lu, Fu by done. simpl.
  rewrite delete_singleton_eq, delete_insert_eq. by vm_compute.
Qed.

Lemma connected_refused client k e d :
  open_as k client e d → connection d → take_refuses_a_connected_socket client k = true.
Proof.
  intros [He Hd] [_ Ha]. unfold take_refuses_a_connected_socket, Role.take, take_validated.
  rewrite lookup_singleton_eq. unfold fd_is_listening, accept_conn_opt, desc_of. rewrite He. simpl.
  rewrite Hd, Ha. done.
Qed.

(** ** Theorem *)

(** The unit tests of [sock.rs], [fd.rs], [role.rs] and [incumbent.rs] pass on
    the model, whoever runs them and where: for every process, temporary
    directory whose paths fit, kernel with the descriptors the tests open and
    room for three more, and stale binding. *)
Theorem socket_tests_pass x :
  HostOk x → all_pass (sock_tests x ++ fd_tests x ++ role_tests x ++ incumbent_tests x).
Proof.
  intros [Hsz Hpid Hpath Hnest (Hf1 & Hf2 & Hfd & Hino) Heuid (eu & du & Hu & Hdu) (et & dt & Ht & Hdt)
    (ef & df & Hf & Hdf) (ec & dc & Hc & Hdc) Hsocks Hroom].
  rewrite !Forall_app. split_and!; repeat apply Forall_cons_2; try apply Forall_nil_2.
  - by destruct Hsz as [-> | ->]; vm_compute.
  - apply owner_only_passes; eauto.
  - apply rebind_passes; eauto.
  - by eapply normalization_passes.
  - by eapply introspection_passes.
  - by apply peer_uid_passes.
  - done.
  - by apply forked_child_passes.
  - by apply detect_env_passes.
  - by eapply family_checks_pass.
  - by eapply connected_refused.
  - by vm_compute.
  - by apply cold_start_bind_passes.
Qed.

(** A machine to run them on. *)
Module SocketTestDemo.
Definition unix_listener : description := mkDesc 0 S_IFSOCK (Some AF_UNIX) (Ok true) true false.
Definition tcp_listener : description := mkDesc 0 S_IFSOCK (Some AF_INET) (Ok true) true false.
Definition regular : description := mkDesc 1 33188 None (Err ENOTSOCK) false false.
Definition stream : description := mkDesc 0 S_IFSOCK (Some AF_UNIX) (Ok false) true true.
Definition k : kernel := {|
  fdtab := {[ 3 := mkFd 30 0; 4 := mkFd 40 0; 5 := mkFd 50 0; 6 := mkFd 60 1 ]};
  descs := {[ 30%nat := unix_listener; 40%nat := tcp_listener; 50%nat := regular; 60%nat := stream ]};
  nofile := 64
|}.
Definition machine : TestHost :=
  mkHost 108 (mkProcess 77 (<[ENV_LISTEN_PID := "12"%string]> ∅) k) "/tmp/t" 0 493 (7, 70%nat) (8, 80%nat)
    (mkNode 493 9) 1000 3 4 5 6 (6, 6, 5).
End SocketTestDemo.

Lemma socket_tests_pass_witness :
  detect_env_branches (process SocketTestDemo.machine) = true.
Proof.
  assert (HostOk SocketTestDemo.machine) as Hok.
  { constructor.
    - by left.
    - by vm_compute.
    - intros seq [-> | ->]; split; [reflexivity|reflexivity|vm_compute; discriminate
        |reflexivity|reflexivity|vm_compute; discriminate].
    - split; [reflexivity|reflexivity|vm_compute; discriminate].
    - repeat split; try reflexivity; vm_compute; discriminate.
    - by vm_compute.
    - by exists (mkFd 30 0), SocketTestDemo.unix_listener.
    - by exists (mkFd 40 0), SocketTestDemo.tcp_listener.
    - by exists (mkFd 50 0), SocketTestDemo.regular.
    - by exists (mkFd 60 1), SocketTestDemo.stream.
    - repeat apply Forall_cons_2; try apply Forall_nil_2; vm_compute; by eexists.
    - vm_compute. lia. }
  pose proof (socket_tests_pass _ Hok) as Hall.
  rewrite !Forall_app in Hall. destruct Hall as (_ & _ & Hrole & _).
  exact (Forall_inv Hrole).
Defined.
