(* ===== verification/IncumbentSafety.v ===== *)
(** * What the incumbent promises

    The contract of the incumbent as an automaton over its trace, and the proof
    that every run of [serve] follows it: when the flock is given up and taken
    back, when the consumer is paused and resumed, and what may be said to the
    supervisor in each state. *)
From stdpp Require Import base tactics option list numbers strings gmap.
From S2P Require Import Prelude Contract Errors Protocol Sock Lock Channel Crash Incumbent.
Local Open Scope Z_scope.

(** ** The contract automaton *)

(** What was done last, as far as it says what may come next. *)
Inductive moment : Type :=
| Calm
| JustSealed       (* [seal] succeeded *)
| JustReturned     (* [serve] returned *)
| DrainJustFailed. (* [drain] failed, with the flock held and nothing drained *)

Record contract : Type := mkContract {
  locked : bool;    (* this process has the flock *)
  paused : bool;    (* a drain or seal succeeded, and [resume_after_abort] was not called
                       since, whatever it answered *)
  stage : moment;
  reseal : bool;    (* a [SealRequest] came while the flock was given up *)
  returned : bool
}.

Definition just_sealed (c : contract) : bool :=
  match stage c with JustSealed => true | _ => false end.
(** The flock may be given up now. *)
Definition may_release (c : contract) : bool :=
  match stage c with JustSealed | JustReturned => true | _ => false end.
(** Nothing but the next [accept] may follow. *)
Definition abandoned (c : contract) : bool :=
  match stage c with DrainJustFailed => true | _ => false end.

Definition contract_start : contract := mkContract true false Calm false false.

Definition calm (c : contract) : contract :=
  mkContract (locked c) (paused c) Calm (reseal c) (returned c).
Definition drained_c (c : contract) : contract :=
  mkContract (locked c) true Calm (reseal c) (returned c).
Definition undrained_c (c : contract) : contract :=
  mkContract (locked c) (paused c) (if locked c && negb (paused c) then DrainJustFailed else Calm)
    (reseal c) (returned c).
Definition sealed_c (c : contract) : contract :=
  mkContract (locked c) true JustSealed (reseal c) (returned c).
Definition resumed_c (c : contract) : contract :=
  mkContract (locked c) false Calm (reseal c) (returned c).
Definition relocked_c (c : contract) : contract :=
  mkContract true (paused c) Calm false (returned c).

(** [None] is a breach. *)
Definition contract_step (c : contract) (e : event) : option contract :=
  if match e with EvAccept => false | _ => abandoned c end then None else
  match e with
  | EvAccept => if locked c && negb (paused c) && negb (returned c)
                then Some contract_start else None
  | EvSleep _ => Some (calm c)
  | EvRecv (SealRequest _) =>
      Some (mkContract (locked c) (paused c) Calm (reseal c || negb (locked c)) (returned c))
  | EvRecv _ => Some (calm c)
  | EvSend (Drained _ _) _ => if paused c then Some (calm c) else None
  | EvSend (SealComplete _ _ _) _ => if negb (locked c) then Some (calm c) else None
  | EvSend (SealFailed _ _ _) _ => if locked c || reseal c then Some (calm c) else None
  | EvSend _ _ => Some (calm c)
  | EvDrain _ ok => Some (if ok then drained_c c else undrained_c c)
  | EvSeal ok => if paused c then Some (if ok then sealed_c c else calm c) else None
  | EvResume _ => if locked c || reseal c then Some (resumed_c c) else None
  | EvUnlock =>
      if locked c && may_release c
      then Some (mkContract false (paused c) Calm (reseal c) (returned c)) else None
  | EvLock => if locked c then None else Some (relocked_c c)
  | EvReturn => Some (mkContract (locked c) (paused c) JustReturned (reseal c) true)
  end.

Abbreviation follows := (runs contract_step).

(** ** Assertions on the world *)
Definition sendable (m : Message) (c : contract) : bool :=
  match m with
  | Drained _ _ => paused c
  | SealComplete _ _ _ => negb (locked c)
  | SealFailed _ _ _ => locked c || reseal c
  | _ => true
  end.

Lemma contract_send c m ok :
  abandoned c = false → sendable m c = true → contract_step c (EvSend m ok) = Some (calm c).
Proof. unfold contract_step. intros -> Hm. destruct m; try done; simpl in *; by rewrite Hm. Qed.

Lemma calm_id c : stage c = Calm → calm c = c.
Proof. destruct c. simpl. by intros ->. Qed.
Lemma calm_open c : stage c = Calm → abandoned c = false.
Proof. unfold abandoned. by intros ->. Qed.
Lemma release_open c : may_release c = true → abandoned c = false.
Proof. unfold may_release, abandoned. by destruct (stage c). Qed.
#[local] Hint Resolve calm_open release_open : core.

Section safety.
Context {T C : Type} `{ControlChannel T} `{Drainable C} `{!ChannelLaws T} (env : Env).
Abbreviation world := (World T C).
Implicit Types w : world.

(** Other processes neither take this process's flock away nor take it for
    it: the kernel releases a flock only with its descriptors. *)
Definition others_fair : Prop :=
  ∀ n d, flock_holder (others env n d) = Some (me env) ↔ flock_holder d = Some (me env).

(** The trace follows the contract up to [c], and [c] tells the truth about
    the flock. *)
Definition linked w (c : contract) : Prop :=
  follows contract_start (trace w) = Some c ∧
  (locked c = true ↔ is_Some (lock w)) ∧
  (locked c = true ↔ flock_holder (fs w) = Some (me env)).

Definition at_ w (c : contract) (s : SessionState) (n : nat) : Prop :=
  linked w c ∧ ch_valid (stream w) ∧ session w = s ∧ (ch_size (stream w) ≤ n)%nat.

(** Between two messages of a session. *)
Definition session_inv (c : contract) (s : SessionState) : Prop :=
  returned c = false ∧ stage c = Calm ∧ sealed s = negb (locked c) ∧
  drained s = paused c ∧ (drained s = true ↔ is_Some (active s)).

(** Where a session may end with an error. *)
Definition exit_ok (c : contract) (s : SessionState) : Prop :=
  returned c = false ∧
  (stage c = Calm ∨ stage c = DrainJustFailed ∧ locked c = true ∧ drained s = false) ∧
  (sealed s = false → locked c = true) ∧
  (locked c = true → paused c = true → drained s = true ∧ sealed s = false).

Definition exit_inv w : Prop := ∃ c s n, at_ w c s n ∧ exit_ok c s.

(** A crash point leaves a trace that follows the contract. *)
Abbreviation post := (Contract.post (λ code w, code = 99 ∧ ∃ c, linked w c ∧ abandoned c = false)).

(** *** Primitive commands *)
Lemma linked_emit w c c' e :
  linked w c → contract_step c e = Some c' → locked c' = locked c → linked (emit e w) c'.
Proof.
  intros (Ht & Hl & Hf) Hs Hk. unfold linked. simpl. rewrite (runs_emit _ _ _ _ Ht), Hk. done.
Qed.

Lemma send_spec v m w c s n (E : world → Prop) :
  at_ w c s n → abandoned c = false → sendable m c = true →
  (∀ w', at_ w' (calm c) s n → E w') →
  wp (send v m) (post (λ _ w', at_ w' (calm c) s n) E) w.
Proof.
  intros (Hl & Hv & Hs & Hn) Ho Hm HE. unfold wp, send.
  pose proof (ch_write_valid v m (stream w) Hv) as Hv'.
  pose proof (ch_write_size v m (stream w)) as Hn'.
  destruct (ch_write v m (stream w)) as [r t]. simpl in *.
  assert (at_ (emit (EvSend m (is_ok r)) (set_stream t w)) (calm c) s n) as Hat.
  { split; [|split_and!; simpl; [done|done|lia]].
    eapply linked_emit; [exact Hl|by apply contract_send|done]. }
  destruct r; simpl; auto.
Qed.

(** A hook's turn: its event moves the contract, the lock stays. *)
Lemma at_hook k e w c c' s n :
  at_ w c s n → contract_step c e = Some c' → locked c' = locked c →
  at_ (emit e (set_consumer k w)) c' s n.
Proof. intros (Hl & Hv & Hs & Hn) Hc Hk. split; [by eapply linked_emit|done]. Qed.

Lemma hook_returns_spec {A} e (hook : C → Result A * C) c_ok c_err w c s n (E : world → Prop) :
  at_ w c s n → contract_step c (e true) = Some c_ok → contract_step c (e false) = Some c_err →
  locked c_ok = locked c → locked c_err = locked c → (∀ w', at_ w' c_err s n → E w') →
  wp (hook_returns e hook) (post (λ _ w', at_ w' c_ok s n) E) w.
Proof.
  intros Hat Ho He Hlo Hle HE. unfold wp, hook_returns. destruct (hook (consumer w)) as [[a|x] k]; simpl.
  - by eapply at_hook.
  - apply HE. by eapply at_hook.
Qed.

Lemma crash_here_spec point w c s n (E : world → Prop) :
  at_ w c s n → abandoned c = false →
  wp (crash_here env point) (post (λ _ w', at_ w' c s n) E) w.
Proof.
  intros Hat Ho. unfold wp, crash_here.
  destruct (maybe_crash_run (E := Error) (crash env) mark point w)
    as [-> | (w' & -> & _ & [->|[path ->]])]; simpl; [done| |].
  all: split; [done|]; exists c; split; [apply Hat|done].
Qed.

Lemma pass_points_spec points w c s n (E : world → Prop) :
  at_ w c s n → abandoned c = false →
  wp (pass_points env points) (post (λ _ w', at_ w' c s n) E) w.
Proof.
  intros Hat Ho. revert w Hat. induction points as [|p points IH]; intros w Hat; simpl; [done|].
  eapply wp_post_bind; [by eapply crash_here_spec|]. cbn beta iota. auto.
Qed.

Lemma call_drain_spec d w c s n (E : world → Prop) :
  at_ w c s n → abandoned c = false → (∀ w', at_ w' (undrained_c c) s n → E w') →
  wp (call_drain env d) (post (λ _ w', at_ w' (drained_c c) s n) E) w.
Proof.
  intros Hat Ho HE. eapply wp_post_bind; [by eapply pass_points_spec|].
  cbn beta iota; intros _ w1 Hat1.
  eapply hook_returns_spec; [done|unfold contract_step; by rewrite Ho..|done|done|done].
Qed.

Lemma call_seal_spec w c s n (E : world → Prop) :
  at_ w c s n → abandoned c = false → paused c = true → (∀ w', at_ w' (calm c) s n → E w') →
  wp (call_seal env) (post (λ _ w', at_ w' (sealed_c c) s n) E) w.
Proof.
  intros Hat Ho Hp HE. eapply wp_post_bind; [by eapply pass_points_spec|].
  cbn beta iota; intros _ w1 Hat1.
  eapply hook_returns_spec; [done|unfold contract_step; by rewrite Ho, Hp..|done|done|done].
Qed.

Lemma call_resume_spec w c s n (E : world → Prop) :
  at_ w c s n → abandoned c = false → locked c || reseal c = true →
  (∀ w', at_ w' (resumed_c c) s n → E w') →
  wp call_resume (post (λ _ w', at_ w' (resumed_c c) s n) E) w.
Proof.
  intros Hat Ho Hl HE.
  eapply hook_returns_spec; [done|unfold contract_step; by rewrite Ho, Hl..|done|done|done].
Qed.

Lemma attempt_resume_spec w c s n (E : world → Prop) :
  at_ w c s n → abandoned c = false → locked c || reseal c = true →
  wp (attempt call_resume) (post (λ _ w', at_ w' (resumed_c c) s n) E) w.
Proof.
  intros Hat Ho Hl. eapply wp_post_mono.
  - eapply (wp_post_attempt _ _ (λ w', at_ w' (resumed_c c) s n) E), call_resume_spec; done.
  - by intros [a|e] w'.
  - done.
Qed.

(** Dropping the guard, if there is one. *)
Lemma take_lock_linked w c (E : world → Prop) :
  linked w c → may_release c = true →
  wp (take_lock env)
    (post (λ _ w', ∃ c', linked w' c' ∧ abandoned c' = false ∧ locked c' = false ∧
                         paused c' = paused c ∧ reseal c' = reseal c ∧ returned c' = returned c ∧
                         stream w' = stream w ∧ session w' = session w) E) w.
Proof.
  intros (Ht & Hlk & Hf) Hj. unfold wp, take_lock.
  destruct (lock w) as [g|] eqn:Hg; simpl.
  - assert (locked c = true) as Hc by (apply Hlk; eauto).
    exists (mkContract false (paused c) Calm (reseal c) (returned c)).
    split; [|done]. unfold linked. simpl.
    rewrite (runs_emit _ _ _ _ Ht). unfold contract_step. rewrite release_open, Hc, Hj by done. simpl.
    split; [done|]. split; split; try done; by intros [? ?].
  - assert (locked c = false) as Hc.
    { apply not_true_iff_false. intros Hc. apply Hlk in Hc. by destruct Hc. }
    exists c. split; [|split; [by apply release_open|done]]. unfold linked. by rewrite Hg.
Qed.

Lemma take_lock_spec w c s n (E : world → Prop) :
  at_ w c s n → may_release c = true →
  wp (take_lock env)
    (post (λ _ w', ∃ c', at_ w' c' s n ∧ abandoned c' = false ∧ locked c' = false ∧
                         paused c' = paused c ∧ reseal c' = reseal c ∧ returned c' = returned c) E) w.
Proof.
  intros (Hl & Hv & Hs & Hn) Hj.
  eapply wp_post_mono; [by eapply (take_lock_linked _ _ E)| |done].
  cbn beta iota; intros _ w' (c' & Hl' & ? & ? & ? & ? & ? & Hst & Hse).
  exists c'. split; [|done]. unfold at_. by rewrite Hst, Hse.
Qed.

Lemma acquire_spec' w c s n (E : world → Prop) :
  others_fair → at_ w c s n → (∀ w', at_ w' c s n → E w') →
  wp (acquire env)
    (post (λ _ w', locked c = false ∧ lock w' = None ∧ flock_holder (fs w') = Some (me env) ∧
                   follows contract_start (trace w') = Some c ∧ ch_valid (stream w') ∧
                   session w' = s ∧ (ch_size (stream w') ≤ n)%nat) E) w.
Proof.
  intros Hfair ((Ht & Hlk & Hf) & Hv & Hs & Hn) HE. unfold wp, acquire.
  pose proof (Lock.acquire_spec (fs_answers env (calls w)) (me env) (data_dir env)
                (others env (calls w) (fs w))) as Ha.
  destruct (Lock.acquire _ _ _ _) as [[g|[e|x|]] d]; simpl in *; [| |done|done].
  - destruct Ha as (_ & Hnone & Hme & _).
    assert (locked c = false) as Hc.
    { apply not_true_iff_false. intros Hc. apply Hf, (Hfair (calls w)) in Hc. congruence. }
    split_and!; try done. destruct (lock w) as [g'|] eqn:Hg; [|done].
    exfalso. assert (locked c = true) by (apply Hlk; eauto). congruence.
  - destruct Ha as [Hh _]. apply HE. split; [|done]. unfold linked. simpl.
    rewrite Hh, (Hfair (calls w)). done.
Qed.

(** [let lock = DataDirLock::acquire(..)?; self.lock = Some(lock)]. *)
Lemma put_lock_spec g w c s n (E : world → Prop) :
  abandoned c = false → locked c = false → lock w = None → flock_holder (fs w) = Some (me env) →
  follows contract_start (trace w) = Some c → ch_valid (stream w) → session w = s →
  (ch_size (stream w) ≤ n)%nat →
  wp (put_lock env g) (post (λ _ w', at_ w' (relocked_c c) s n) E) w.
Proof.
  intros Ho Hc Hl Hf Ht Hv Hs Hn. unfold wp, put_lock. rewrite Hl. simpl. split; [|done].
  unfold linked. simpl. rewrite (runs_emit _ _ _ _ Ht). unfold contract_step. rewrite Ho, Hc.
  split; [done|]. split; split; intros; eauto.
Qed.

Lemma at_pass d w c s n : at_ w c s n → at_ (pass d w) c s n.
Proof. done. Qed.

Lemma at_session (f : SessionState → SessionState) w c s n :
  at_ w c s n → at_ (set_session (f (session w)) w) c (f s) n.
Proof. intros (Hl & Hv & <- & Hn). done. Qed.

Lemma heartbeat_loop_spec k v w c s n (E : world → Prop) :
  at_ w c s n → stage c = Calm →
  wp (heartbeat_loop env k v) (post (λ _ w', at_ w' c s n) E) w.
Proof.
  intros Hat Hj. revert w Hat. induction k as [|k IH]; intros w Hat; simpl; [done|].
  eapply wp_post_bind; [by apply (wp_post_modify _ (λ _ w', at_ w' c s n)), at_pass|].
  cbn beta iota; intros _ w1 Hat1.
  eapply wp_post_bind; [by apply (wp_post_gets _ (λ _ w', at_ w' c s n))|]. cbn beta; intros now w2 Hat2.
  eapply wp_post_bind.
  { eapply wp_post_attempt, (send_spec _ _ _ c s n (λ w', at_ w' c s n)); [done|by auto|done|].
    by rewrite calm_id. }
  cbn beta; intros r w3 Hat3. rewrite calm_id in Hat3 by done. destruct r; [by apply IH|done].
Qed.

Lemma run_with_heartbeats_spec {A} v (work : prog world Error A) Q w c s n (E : world → Prop) :
  at_ w c s n → stage c = Calm →
  (∀ w', at_ w' c s n → wp work (post Q E) w') →
  wp (run_with_heartbeats env v work) (post Q E) w.
Proof.
  intros Hat Hj Hwork. unfold run_with_heartbeats.
  eapply wp_post_bind; [by apply (wp_post_gets _ (λ _ w', at_ w' c s n))|]. cbn beta; intros r w1 Hat1.
  destruct r; [|by apply Hwork].
  eapply wp_post_bind; [by apply (wp_post_gets _ (λ _ w', at_ w' c s n))|]. cbn beta; intros k w2 Hat2.
  eapply wp_post_bind; [by eapply heartbeat_loop_spec|]. auto.
Qed.

Lemma check_active_spec id what w c s n (E : world → Prop) :
  at_ w c s n → (at_ w c s n → E w) →
  wp (check_active id what) (post (λ _ w', at_ w' c s n ∧ active s = Some id) E) w.
Proof.
  intros Hat HE. unfold wp, check_active, mbind, prog_bind, gets. simpl.
  case_decide as Hid; simpl; [by apply HE|].
  destruct Hat as (?&?&<-&?). done.
Qed.

(** Errors leave the session in a state the caller can clean up. *)
Lemma exit_inv_at w c s n : at_ w c s n → exit_ok c s → exit_inv w.
Proof. unfold exit_inv. eauto. Qed.

Lemma session_exit c s : session_inv c s → exit_ok c s.
Proof.
  intros (Hr & Hj & Hs & Hd & _). split_and!; [done|by left| |].
  - intros Hf. rewrite Hf in Hs. by destruct (locked c).
  - intros Hl Hp. rewrite Hl in Hs. by rewrite Hd.
Qed.

Hint Resolve exit_inv_at session_exit : core.

Definition session_at w : Prop := ∃ c s n, at_ w c s n ∧ session_inv c s.

Lemma on_prepare_spec v id dl gr w c s n :
  at_ w c s n → session_inv c s →
  wp (on_prepare env v id dl gr)
    (post (λ _ w', ∃ c' s', at_ w' c' s' n ∧ session_inv c' s') exit_inv) w.
Proof.
  intros Hat Hinv. pose proof Hinv as (Hr & Hj & Hs & Hd & Ha). unfold on_prepare.
  eapply wp_post_bind; [by apply (wp_post_gets _ (λ _ w', at_ w' c s n))|]. cbn beta; intros ex w1 Hat1.
  eapply wp_post_bind with (Q1 := λ _ w', at_ w' c s n).
  { destruct ex as [e|]; [case_decide|]; [apply wp_post_raise|done|done]; eauto. }
  cbn beta iota; intros _ w2 Hat2.
  set (s1 := mkSession (Some id) (sealed s) (drained s)).
  eapply wp_post_bind with (Q1 := λ _ w', at_ w' c s1 n).
  { apply wp_post_modify.
    by apply (at_session (λ s, mkSession (Some id) (sealed s) (drained s)) w2 c s n). }
  cbn beta iota; intros _ w3 Hat3.
  eapply wp_post_bind; [by apply (wp_post_gets _ (λ _ w', at_ w' c s1 n))|]. cbn beta; intros now w4 Hat4.
  assert (exit_ok (undrained_c c) s1) as Hex.
  { split_and!; simpl; [done| | |]; rewrite ?Hd, ?Hs; destruct (locked c), (paused c); simpl; auto. }
  eapply wp_post_bind with (Q1 := λ _ w', at_ w' (drained_c c) s1 n).
  { eapply run_with_heartbeats_spec; [done..|]. intros w5 Hat5.
    eapply call_drain_spec; [done|auto|]. eauto. }
  cbn beta; intros report w5 Hat5.
  set (s2 := mkSession (Some id) (sealed s) true).
  eapply wp_post_bind with (Q1 := λ _ w', at_ w' (drained_c c) s2 n).
  { apply wp_post_modify.
    by apply (at_session (λ s, mkSession (active s) (sealed s) true) w5 _ s1 n). }
  cbn beta iota; intros _ w6 Hat6.
  assert (session_inv (drained_c c) s2) as Hinv2 by (split_and!; simpl; try done; split; eauto).
  eapply wp_post_bind; [by eapply send_spec; eauto|].
  cbn beta iota; intros _ w7 Hat7. eapply wp_post_mono; [by eapply (crash_here_spec _ _ _ _ _ exit_inv)| |done].
  simpl. eauto.
Qed.

Lemma on_seal_request_spec v id w c s n :
  at_ w c s n → session_inv c s → locked c || reseal c = true →
  wp (on_seal_request env v id)
    (post (λ _ w', ∃ c' s', at_ w' c' s' n ∧ session_inv c' s') exit_inv) w.
Proof.
  intros Hat Hinv Hlr. pose proof Hinv as (Hr & Hj & Hs & Hd & Ha). unfold on_seal_request.
  eapply wp_post_bind; [by eapply check_active_spec; eauto|]. cbn beta iota; intros _ w1 [Hat1 Hact]. simpl.
  assert (drained s = true) as Hdr by (apply Ha; eauto).
  eapply wp_post_bind.
  { eapply wp_post_attempt, (run_with_heartbeats_spec _ _ _ _ _ _ _ (λ w', at_ w' c s n)); [done..|].
    intros w2 Hat2. eapply call_seal_spec; [done|auto|by rewrite <- Hd|]. by rewrite calm_id. }
  cbn beta iota; intros [report|e] w2 Hat2.
  - eapply wp_post_bind; [by eapply take_lock_spec|].
    cbn beta iota; intros _ w3 (c3 & Hat3 & Ho3 & Hl3 & Hp3 & Hrs3 & Hr3). simpl in *.
    set (s1 := mkSession (active s) true (drained s)).
    eapply wp_post_bind with (Q1 := λ _ w', at_ w' c3 s1 n).
    { apply wp_post_modify.
      by apply (at_session (λ s, mkSession (active s) true (drained s)) w3 _ s n). }
    cbn beta iota; intros _ w4 Hat4.
    eapply wp_post_bind; [by eapply crash_here_spec|]. cbn beta iota; intros _ w5 Hat5.
    assert (session_inv (calm c3) s1) as Hinv3.
    { split_and!; simpl; try done; [congruence|by rewrite Hl3|by rewrite Hp3]. }
    eapply wp_post_bind; [eapply send_spec; [done|done|simpl; by rewrite Hl3|by eauto]|].
    cbn beta iota; intros _ w6 Hat6. eapply wp_post_mono; [by eapply (crash_here_spec _ _ _ _ _ exit_inv)| |done].
    simpl. eauto.
  - eapply wp_post_bind; [eapply send_spec; [done|by auto|done|rewrite calm_id by done; by eauto]|].
    rewrite calm_id by done. cbn beta iota; intros _ w3 Hat3.
    assert (exit_ok (resumed_c c) s) as Hex.
    { split_and!; simpl; [done|by left| |done]. intros Hsf. rewrite Hs in Hsf. by destruct (locked c). }
    eapply wp_post_bind; [eapply call_resume_spec; [done|by auto|done|by eauto]|]. cbn beta iota; intros _ w4 Hat4.
    eapply wp_post_bind with (Q1 := λ _ w', at_ w' (resumed_c c) (mkSession (active s) (sealed s) false) n).
    { apply wp_post_modify.
      by apply (at_session (λ s, mkSession (active s) (sealed s) false) w4 _ s n). }
    cbn beta iota; intros _ w5 Hat5. apply wp_post_modify.
    eexists _, (mkSession None (sealed s) false).
    split; [exact (at_session (λ s, mkSession None (sealed s) (drained s)) w5 _ _ n Hat5)|].
    split_and!; simpl; try done.
Qed.

Lemma on_commit_run id w :
  match on_commit env id w with
  | (Ok o, w') => o = Committed ∧ w' = w ∧ active (session w) = Some id ∧ sealed (session w) = true
  | (Err (Raise _), w') => w' = w
  | (Err (Exit x), w') => x = 99 ∧ lock w' = lock w ∧ fs w' = fs w ∧ trace w' = trace w
  | (Err Stuck, _) => False
  end.
Proof.
  unfold on_commit, check_active, mbind, prog_bind, gets. simpl.
  case_decide as Hid; simpl; [done|].
  destruct (sealed (session w)) eqn:Hse; simpl; [|done].
  unfold crash_here.
  by destruct (maybe_crash_run (E := Error) (crash env) mark points.O_AFTER_COMMIT_RECV w)
    as [-> | (w' & -> & _ & [->|[path ->]])]; simpl.
Qed.

Lemma on_commit_spec id w c s n :
  at_ w c s n → session_inv c s →
  wp (on_commit env id)
    (post (λ o w', o = Committed ∧ w' = w ∧ sealed s = true ∧ locked c = false) exit_inv) w.
Proof.
  intros Hat Hinv. pose proof Hinv as (Hr & Hj & Hs & Hd & Ha). unfold wp.
  pose proof (on_commit_run id w) as Hrun. destruct Hat as (Hl & Hv & Hses & Hn) eqn:HE. clear HE.
  destruct (on_commit env id w) as [[o|[e|x|]] w']; simpl in *; [| | |done].
  - destruct Hrun as (-> & -> & Hact & Hse). rewrite Hses in Hse. split_and!; try done.
    rewrite Hse in Hs. by destruct (locked c).
  - subst w'. eauto.
  - destruct Hrun as (-> & Hlk & Hfs & Ht). split; [done|]. exists c. unfold linked.
    rewrite Hlk, Hfs, Ht. auto.
Qed.

Lemma undo_handoff_spec w c s n :
  others_fair → at_ w c s n → session_inv c s →
  wp (undo_handoff env)
    (post (λ _ w', ∃ c' s', at_ w' c' s' n ∧ session_inv c' s') exit_inv) w.
Proof.
  intros Hfair Hat Hinv. pose proof Hinv as (Hr & Hj & Hs & Hd & Ha). unfold undo_handoff.
  eapply wp_post_bind with (Q1 := λ x w', at_ w' c s n ∧ x = s).
  { apply wp_post_gets. destruct Hat as (?&?&<-&?). done. }
  intros x w1 [Hat1 ->].
  eapply wp_post_bind with (Q1 := λ _ w', ∃ c' s', at_ w' c' s' n ∧ returned c' = false ∧
     stage c' = Calm ∧ locked c' = true ∧ paused c' = false ∧ sealed s' = false ∧
     drained s' = false).
  { destruct (sealed s) eqn:Hse; [|destruct (drained s) eqn:Hdr].
    - eapply wp_post_bind; [eapply acquire_spec'; [done..|by eauto]|].
      cbn beta iota; intros g w2 (Hc & Hl2 & Hf2 & Ht2 & Hv2 & Hs2 & Hn2).
      eapply wp_post_bind; [by eapply put_lock_spec; eauto|]. cbn beta iota; intros _ w3 Hat3.
      eapply wp_post_bind; [eapply call_resume_spec; [done..|]|].
      { intros w4 Hat4. eapply exit_inv_at; [done|]. split_and!; try done. by left. }
      cbn beta iota; intros _ w4 Hat4.
      eapply wp_post_bind with
        (Q1 := λ _ w', at_ w' (resumed_c (relocked_c c)) (mkSession (active s) false (drained s)) n).
      { apply wp_post_modify.
        by apply (at_session (λ s, mkSession (active s) false (drained s)) w4 _ s n). }
      cbn beta iota; intros _ w5 Hat5. apply wp_post_modify. do 2 eexists.
      split; [exact (at_session (λ s, mkSession (active s) (sealed s) false) w5 _ _ n Hat5)|done].
    - assert (locked c = true) as Hl by (by destruct (locked c)).
      eapply wp_post_bind; [eapply call_resume_spec; [done|by auto|by rewrite Hl|]|].
      { intros w4 Hat4. eapply exit_inv_at; [done|]. split_and!; try done. by left. }
      cbn beta iota; intros _ w4 Hat4. apply wp_post_modify. do 2 eexists.
      split; [exact (at_session (λ s, mkSession (active s) (sealed s) false) w4 _ _ n Hat4)|done].
    - apply wp_post_ret. exists c, s. split_and!; try done. by destruct (locked c). }
  cbn beta iota; intros _ w2 (c' & s' & Hat2 & Hr' & Hj' & Hl' & Hp' & Hs' & Hd').
  apply wp_post_modify. eexists c', _.
  split; [by apply (at_session (λ s, mkSession None (sealed s) (drained s)) w2 c' s' n)|].
  split_and!; simpl; rewrite ?Hs', ?Hd', ?Hl', ?Hp'; done.
Qed.

(** What one message may do. *)
Definition dispatch_post (n : nat) (msg : Message) (w0 : world) (o : option SessionOutcome) w : Prop :=
  ∃ c s, at_ w c s n ∧ session_inv c s ∧
    match o with
    | None => True
    | Some Committed =>
        sealed s = true ∧ locked c = false ∧ trace w = trace w0 ∧ ∃ id, msg = Commit id
    | Some Closed => False
    end.

Lemma session_dispatch n msg w0 w :
  (∃ c s, at_ w c s n ∧ session_inv c s) → dispatch_post n msg w0 None w.
Proof. intros (c & s & ? & ?). exists c, s. done. Qed.

Lemma dispatch_spec v msg w c s n :
  others_fair → at_ w c s n → session_inv c s →
  (∀ id, msg = SealRequest id → locked c || reseal c = true) →
  wp (dispatch env v msg) (post (dispatch_post n msg w) exit_inv) w.
Proof.
  intros Hfair Hat Hinv Hseal. pose proof Hinv as (Hr & Hj & Hs & Hd & Ha).
  destruct msg; simpl; try (apply wp_post_raise; by eauto).
  - eapply wp_post_bind; [by eapply on_prepare_spec|]. intros _' w1 Hw1.
    by apply wp_post_ret, session_dispatch.
  - eapply wp_post_bind; [by eapply on_seal_request_spec; eauto|]. intros _' w1 Hw1.
    by apply wp_post_ret, session_dispatch.
  - eapply wp_post_bind; [by eapply on_commit_spec|].
    intros o w1 (-> & -> & Hse & Hl). apply wp_post_ret. exists c, s. split_and!; eauto.
  - unfold on_abort. eapply wp_post_bind.
    { eapply wp_post_bind; [by eapply check_active_spec; eauto|].
      cbn beta iota; intros _ w1 [Hat1 _]. by eapply undo_handoff_spec. }
    intros _' w1 Hw1. by apply wp_post_ret, session_dispatch.
  - unfold on_resume_after_abort. eapply wp_post_bind.
    { eapply wp_post_bind; [by eapply check_active_spec; eauto|].
      cbn beta iota; intros _ w1 [Hat1 _]. by eapply undo_handoff_spec. }
    intros _' w1 Hw1. by apply wp_post_ret, session_dispatch.
  - unfold on_heartbeat. eapply wp_post_bind.
    { eapply wp_post_bind; [by apply (wp_post_gets _ (λ _ w', at_ w' c s n))|].
      intros now w1 Hat1. cbn beta in Hat1. eapply send_spec; [done|by auto|done|]. rewrite calm_id by done. eauto. }
    intros _' w1 Hw1. cbn beta in Hw1. rewrite calm_id in Hw1 by done.
    apply wp_post_ret, session_dispatch. eauto.
Qed.

(** The contract after a message arrives. *)
Definition received_c (m : Message) (c : contract) : contract :=
  match m with
  | SealRequest _ => mkContract (locked c) (paused c) Calm (reseal c || negb (locked c)) (returned c)
  | _ => calm c
  end.

Lemma received_locked m c : locked (received_c m c) = locked c.
Proof. by destruct m. Qed.

Lemma received_inv m c s : session_inv c s → session_inv (received_c m c) s.
Proof. intros (Hr & Hj & Hs & Hd & Ha). destruct m; by split_and!. Qed.

Lemma poll_spec w c s n (E : world → Prop) :
  at_ w c s n → stage c = Calm →
  wp poll (post (λ r w', match r with
    | Ok (Some (_, m)) =>
        (∃ es, trace w' = es ++ [EvRecv m]) ∧ ∃ n', (n' < n)%nat ∧ at_ w' (received_c m c) s n'
    | Ok None => ∃ n', (n' < n)%nat ∧ at_ w' c s n'
    | Err _ => at_ w' c s n
    end) E) w.
Proof.
  intros (Hl & Hv & Hs & Hn) Hj. unfold wp, poll.
  pose proof (ch_poll_valid (stream w) Hv) as Hv'. pose proof (ch_poll_size (stream w) Hv) as Hn'.
  destruct (ch_poll (stream w)) as [[[[v m]|]|e] t]; simpl in *.
  - split; [by eexists|]. exists (ch_size t). split; [lia|]. split; [|done].
    eapply linked_emit; [exact Hl|unfold contract_step; rewrite calm_open by done; by destruct m|apply received_locked].
  - exists (ch_size t). split; [lia|]. done.
  - split; [done|]. split_and!; simpl; [done|done|lia].
Qed.

(** The loop returns, in a state the caller can finish. *)
Definition ends_in_commit w : Prop := ∃ es id, trace w = es ++ [EvRecv (Commit id)].

Definition loop_post (o : SessionOutcome) w : Prop :=
  ∃ c s n, at_ w c s n ∧ exit_ok c s ∧
    match o with
    | Committed => sealed s = true ∧ locked c = false ∧ ends_in_commit w
    | Closed => sealed s = false ∧ locked c = true
    end.

Lemma run_session_loop_spec fuel v w c s n :
  others_fair → at_ w c s n → session_inv c s → (n < fuel)%nat →
  wp (run_session_loop env fuel v) (post loop_post exit_inv) w.
Proof.
  intros Hfair. revert w c s n. induction fuel as [|fuel IH]; intros w c s n Hat Hinv Hf; [lia|].
  pose proof Hinv as (Hr & Hj & Hs & Hd & Ha). simpl.
  eapply wp_post_bind; [by eapply poll_spec|].
  intros [[[v' m]|]|e] w1; cbn beta iota.
  - intros ([es Hes] & n' & Hn' & Hat1).
    eapply wp_post_bind.
    { eapply dispatch_spec; [done|done|by apply received_inv|].
      intros id ->. simpl. destruct (locked c), (reseal c); done. }
    intros o w2 (c2 & s2 & Hat2 & Hinv2 & Ho). destruct o as [[]|].
    + apply wp_post_ret. destruct Ho as (Hse & Hlk & Htr & id & ->). exists c2, s2, n'.
      split_and!; eauto. exists es, id. by rewrite Htr.
    + done.
    + eapply IH; [done|done|lia].
  - intros (n' & Hn' & Hat1). eapply IH; [done|done|lia].
  - intros Hat1. destruct (is_disconnect e); [|apply wp_post_raise; by eauto].
    eapply wp_post_bind with (Q1 := λ b w', at_ w' c s n ∧ b = sealed s).
    { apply wp_post_gets. destruct Hat1 as (?&?&<-&?). done. }
    intros b w2 [Hat2 ->]. destruct (sealed s) eqn:Hse; [apply wp_post_raise; by eauto|].
    apply wp_post_ret. exists c, s, n. split_and!; eauto. by destruct (locked c).
Qed.

(** *** Recovery *)
Definition time_flows : Prop := ∀ n, 0 ≤ delay env n.

(** The flock has just been taken; the guard is not in [self.lock] yet. *)
Definition acquired_at w (c : contract) (s : SessionState) (n : nat) : Prop :=
  locked c = false ∧ lock w = None ∧ flock_holder (fs w) = Some (me env) ∧
  follows contract_start (trace w) = Some c ∧ ch_valid (stream w) ∧ session w = s ∧
  (ch_size (stream w) ≤ n)%nat.

Lemma clock_acquire w r w' :
  acquire env w = (r, w') → clock w' = clock w + delay env (calls w).
Proof.
  unfold acquire. destruct (Lock.acquire _ _ _ _) as [x d]. intros [= _ <-]. done.
Qed.

Lemma attempt_acquire_spec w c s n (E : world → Prop) :
  others_fair → time_flows → at_ w c s n →
  wp (attempt (acquire env))
    (post (λ r w', clock w ≤ clock w' ∧
       match r with Ok _ => acquired_at w' c s n | Err _ => at_ w' c s n end) E) w.
Proof.
  intros Hfair Htime Hat.
  pose proof (acquire_spec' w c s n (λ w', at_ w' c s n) Hfair Hat ltac:(auto)) as Ha.
  unfold wp, attempt in *. destruct (acquire env w) as [[g|[e|x|]] w'] eqn:Hacq; simpl in *; try done;
    pose proof (Htime (calls w)); apply clock_acquire in Hacq; split; auto; lia.
Qed.

Lemma retry_loop_spec f deadline w c s n :
  others_fair → time_flows → at_ w c s n → stage c = Calm →
  deadline - clock w < RETRY_INTERVAL * Z.of_nat f →
  wp (retry_loop env (S f) deadline)
    (post (λ _ w', acquired_at w' c s n) (λ w', at_ w' c s n)) w.
Proof.
  intros Hfair Htime. revert w. unfold RETRY_INTERVAL.
  induction f as [|f IH]; intros w Hat Hc Hd;
    (eapply wp_post_bind; [by eapply attempt_acquire_spec|]);
    intros [g|e] w1; cbn beta iota; intros [Hck Hat1]; try done;
    destruct e; try (apply wp_post_raise; done);
    (eapply wp_post_bind with (Q1 := λ x w', at_ w' c s n ∧ x = clock w' ∧ clock w ≤ clock w');
      [apply wp_post_gets; split_and!; done|]);
    cbn beta iota; intros x w2 (Hat2 & -> & Hck2); case_decide; try (apply wp_post_raise; done).
  - lia.
  - eapply wp_post_bind with (Q1 := λ _ w', at_ w' c s n ∧ clock w2 + 25 ≤ clock w').
    { unfold wp, sleep, RETRY_INTERVAL. simpl. pose proof (Htime (calls w2)). split; [|lia].
      destruct Hat2 as (Hl & ?). split; [|done]. rewrite <- (calm_id c Hc) at 1.
      eapply linked_emit; [done|unfold contract_step; by rewrite calm_open|done]. }
    cbn beta iota; intros _ w3 [Hat3 Hck3]. apply IH; [done|done|lia].
Qed.

Lemma acquire_with_short_retry_spec timeout w c s n :
  others_fair → time_flows → at_ w c s n → stage c = Calm → 0 ≤ timeout →
  wp (acquire_with_short_retry env timeout)
    (post (λ _ w', acquired_at w' c s n) (λ w', at_ w' c s n)) w.
Proof.
  intros Hfair Htime Hat Hc Ht. unfold acquire_with_short_retry, retry_fuel.
  eapply wp_post_bind with (Q1 := λ x w', at_ w' c s n ∧ x = clock w'); [by apply wp_post_gets|].
  cbn beta iota; intros x w1 [Hat1 ->]. apply retry_loop_spec; try done.
  unfold RETRY_INTERVAL.
  rewrite Nat2Z.inj_succ, Z2Nat.id by (apply Z.div_pos; lia).
  pose proof (Z.mul_succ_div_gt timeout 25 ltac:(lia)). lia.
Qed.

(** *** Sessions and the serve loop *)

(** [serve] is about to accept. *)
Definition idle w : Prop :=
  ∃ c, linked w c ∧ locked c = true ∧ paused c = false ∧ returned c = false.

(** A session is over and has been cleaned up. *)
Definition settled w : Prop :=
  ∃ c s n, at_ w c s n ∧ (stage c = Calm ∨ stage c = DrainJustFailed ∧ locked c = true) ∧
           returned c = false ∧ (locked c = true → paused c = false).

(** A session has begun: nothing is sealed or drained. *)
Definition fresh_c : contract := contract_start.

Lemma fresh_inv : session_inv fresh_c SessionState_default.
Proof. split_and!; try done. split; [done|by intros [? ?]]. Qed.

Lemma received_fresh m : received_c m fresh_c = fresh_c.
Proof. by destruct m. Qed.

Lemma set_timeout_spec d w c s n (E : world → Prop) :
  at_ w c s n → wp (set_read_timeout d) (post (λ _ w', at_ w' c s n) E) w.
Proof.
  intros (Hl & Hv & Hs & Hn). unfold wp, set_read_timeout.
  pose proof (ch_timeout_valid d (stream w) Hv). pose proof (ch_timeout_size d (stream w)).
  destruct (ch_set_read_timeout d (stream w)) as [r t]. simpl in *. split; [done|].
  split_and!; simpl; [done|done|lia].
Qed.

Lemma io_spec {A} (r : result IoError A) w c s n (E : world → Prop) :
  at_ w c s n → E w → wp (io r) (post (λ _ w', at_ w' c s n) E) w.
Proof. intros Hat HE. destruct r; done. Qed.

Lemma hello_exchange_spec w s n :
  at_ w fresh_c s n →
  wp (hello_exchange env)
    (post (λ _ w', at_ w' fresh_c s n) (λ w', at_ w' fresh_c s n)) w.
Proof.
  intros Hat. unfold hello_exchange.
  eapply wp_post_bind; [by eapply send_spec|]. cbn beta iota; intros _ w1 Hat1.
  eapply wp_post_bind; [by eapply set_timeout_spec|]. cbn beta iota; intros r w2 Hat2.
  eapply wp_post_bind; [by eapply io_spec|]. cbn beta iota; intros _ w3 Hat3.
  eapply wp_post_bind; [by eapply poll_spec|]. intros res w4 Hres.
  assert (at_ w4 fresh_c s n) as Hat4.
  { destruct res as [[[v m]|]|e]; [destruct Hres as [_ Hres]| |done];
      destruct Hres as (n' & Hn' & Hl & Hv & Hs & Hsz);
      rewrite ?received_fresh in Hl; (split; [done|]); split_and!; done || lia. }
  eapply wp_post_bind; [by eapply set_timeout_spec|]. cbn beta iota; intros r' w5 Hat5.
  destruct res as [[[v []]|]|e]; try (apply wp_post_raise; done).
  unfold wp, lift. destruct (negotiate_version _ _ _ _); done.
Qed.

(** The flock is given up. *)
Definition unlocked w : Prop :=
  ∃ c, linked w c ∧ abandoned c = false ∧ returned c = false ∧ locked c = false.

Definition session_result (o : SessionOutcome) w : Prop :=
  match o with
  | Committed => ends_in_commit w ∧ unlocked w
  | Closed => idle w
  end.

(** The clean-up after the loop. *)
Lemma cleanup_spec (o : Result SessionOutcome) w :
  match o with Ok o => loop_post o w | Err _ => exit_inv w end →
  wp (s ← gets session;
      _ ← (if drained s && negb (sealed s) && negb (is_committed o)
           then _ ← attempt call_resume; mret tt else mret tt);
      lift o)
    (post session_result settled) w.
Proof.
  intros Ho.
  assert (∃ c s n, at_ w c s n ∧ exit_ok c s ∧
    match o with
    | Ok Committed => sealed s = true ∧ locked c = false ∧ ends_in_commit w
    | Ok Closed => sealed s = false ∧ locked c = true
    | Err _ => True
    end) as (c & s & n & Hat & (Hr & Hj & Hsl & Hp) & Hout).
  { destruct o as [[]|e]; [done|done|]. destruct Ho as (c & s & n & ? & ?). by exists c, s, n. }
  eapply wp_post_bind with (Q1 := λ x w', w' = w ∧ x = s).
  { apply wp_post_gets. by destruct Hat as (?&?&<-&?). }
  intros x w1 [-> ->].
  eapply wp_post_bind with (Q1 := λ _ w', ∃ c', at_ w' c' s n ∧
     (stage c' = Calm ∨ stage c' = DrainJustFailed ∧ locked c' = true) ∧
     returned c' = false ∧ locked c' = locked c ∧ (locked c = true → paused c' = false) ∧
     (is_committed o = true → w' = w)).
  { destruct (drained s && negb (sealed s) && negb (is_committed o)) eqn:Hcl.
    - apply andb_true_iff in Hcl as [[Hdr Hse]%andb_true_iff Hco].
      apply negb_true_iff in Hse. apply negb_true_iff in Hco. specialize (Hsl Hse).
      eapply wp_post_bind with (Q1 := λ _ w', at_ w' (resumed_c c) s n).
      { apply attempt_resume_spec; [done| |by rewrite Hsl].
        destruct Hj as [Hj|(_ & _ & Hj)]; [by apply calm_open|congruence]. }
      cbn beta iota; intros _ w2 Hat2. apply wp_post_ret. exists (resumed_c c).
      split_and!; [done|by left|done..|by rewrite Hco].
    - apply wp_post_ret. exists c. split_and!; [done|naive_solver|done..| |done].
      intros Hl. destruct (paused c) eqn:Hpc; [|done]. destruct (Hp Hl eq_refl) as [Hd Hs].
      rewrite Hd, Hs in Hcl. destruct o as [[]|e]; try done. destruct Hout; congruence. }
  cbn beta iota; intros _ w2 (c' & Hat2 & Hc' & Hr' & Hl' & Hp' & Hsame).
  destruct o as [[]|e]; simpl.
  - rewrite Hsame in * by done. split; [by destruct Hout as (?&?&?)|]. exists c'.
    destruct Hat2, Hout as (?&?&?). split_and!; [done| |done|congruence].
    destruct Hc' as [Hc'|[_ Hc']]; [by apply calm_open|congruence].
  - exists c'. destruct Hat2, Hout as [_ Hlk]. split_and!; [done|congruence|auto|done].
  - exists c', s, n. rewrite <- Hl' in Hp'. done.
Qed.

Lemma handle_session_spec w s n :
  others_fair → at_ w fresh_c s n →
  wp (handle_session env) (post session_result settled) w.
Proof.
  intros Hfair Hat. unfold handle_session.
  eapply wp_post_bind.
  { eapply wp_post_mono; [by eapply hello_exchange_spec|done|].
    intros w' Hw'. exists fresh_c, s, n. split_and!; [done|by left|done..]. }
  intros v w1 Hat1.
  eapply wp_post_bind with (Q1 := λ _ w', at_ w' fresh_c SessionState_default n).
  { apply wp_post_modify. by apply (at_session (λ _, SessionState_default) w1 fresh_c s n). }
  cbn beta iota; intros _ w2 Hat2.
  eapply wp_post_bind with (Q1 := λ k w', k = S (ch_size (stream w')) ∧
      at_ w' fresh_c SessionState_default (ch_size (stream w'))).
  { apply wp_post_gets. split; [done|]. destruct Hat2 as (?&?&?&?). done. }
  intros k w3 [-> Hat3].
  eapply wp_post_bind; [|intros o w4 Ho; apply cleanup_spec, Ho].
  eapply wp_post_attempt, run_session_loop_spec; [done|exact Hat3|apply fresh_inv|lia].
Qed.

Lemma recover_spec w :
  others_fair → time_flows → settled w →
  wp (recover env)
    (post (λ o w', match o with None => idle w' | Some _ => unlocked w' end) (λ _, False)) w.
Proof.
  intros Hfair Htime (c & s & n & Hat & Hst & Hr & Hp). unfold recover.
  eapply wp_post_bind with (Q1 := λ x w', at_ w' c s n ∧ x = lock w'); [by apply wp_post_gets|].
  intros l w1 [Hat1 ->]. destruct (lock w1) as [g|] eqn:Hg.
  - apply wp_post_ret. exists c. destruct Hat1 as ((Ht & Hlk & Hf) & _).
    assert (locked c = true) as Hl by (apply Hlk; rewrite Hg; eauto).
    split_and!; [done..|auto|done].
  - assert (locked c = false) as Hno.
    { destruct Hat1 as ((_ & Hlk & _) & _). apply not_true_iff_false. intros Hl.
      apply Hlk in Hl. rewrite Hg in Hl. by destruct Hl. }
    assert (stage c = Calm) as Hc by (destruct Hst as [|[_ ?]]; [done|congruence]).
    eapply wp_post_bind.
    { eapply wp_post_attempt, acquire_with_short_retry_spec; done. }
    intros [g|e] w2; cbn beta iota.
    + intros (Hl & Hlk & Hf & Ht & Hv & Hs & Hn).
      eapply wp_post_bind; [by eapply put_lock_spec; eauto|]. cbn beta iota; intros _ w3 Hat3.
      eapply wp_post_bind with (Q1 := λ _ w', at_ w' (resumed_c (relocked_c c)) s n).
      { by apply attempt_resume_spec. }
      cbn beta iota; intros _ w4 Hat4. apply wp_post_ret. exists (resumed_c (relocked_c c)).
      destruct Hat4. done.
    + intros Hat2. apply wp_post_ret. exists c. destruct Hat2. auto.
Qed.

(** [serve] has returned, or waits in [accept]. *)
Definition serve_post (o : served) w : Prop :=
  match o with
  | Accepting => linked w fresh_c
  | Returned r =>
      ∃ c, linked w c ∧ abandoned c = false ∧ locked c = false ∧ returned c = true ∧
           (r = Ok tt → ∃ es id, trace w = es ++ [EvRecv (Commit id); EvReturn])
  end.

Lemma finish_spec r w c :
  linked w c → abandoned c = false → (r = Ok tt → locked c = false ∧ ends_in_commit w) →
  wp (finish env r) (post serve_post (λ _, False)) w.
Proof.
  intros Hl Ho Hr. unfold finish.
  set (c1 := mkContract (locked c) (paused c) JustReturned (reseal c) true).
  assert (linked (emit EvReturn w) c1) as Hl1
    by (eapply linked_emit; [done|unfold contract_step; by rewrite Ho|done]).
  assert (r = Ok tt → take_lock env (emit EvReturn w) = (Ok tt, emit EvReturn w)) as Hsame.
  { intros Hok. destruct (Hr Hok) as [Hlk _]. destruct Hl as (_ & Hlock & _).
    unfold take_lock. simpl. destruct (lock w); [|done].
    rewrite (proj2 Hlock) in Hlk; [done|by eexists]. }
  eapply wp_post_bind with (Q1 := λ _ w', w' = emit EvReturn w); [done|].
  cbn beta iota; intros _ w1 ->.
  pose proof (take_lock_linked _ _ (λ _, False) Hl1 eq_refl) as Htake.
  unfold wp, mbind, prog_bind in *.
  destruct (take_lock env (emit EvReturn w)) as [[[]|[e|x|]] w2] eqn:Htk; simpl in *; try done.
  destruct Htake as (c2 & Hl2 & Ho2 & Hk2 & _ & _ & Hr2 & _ & _). exists c2. split_and!; try done.
  intros Hok. specialize (Hsame Hok). simplify_eq. destruct (Hr eq_refl) as [_ (es & id & Htr)].
  exists es, id. simpl. by rewrite Htr, <- app_assoc.
Qed.

Definition valid_accepts (accepts : list (result IoError (Connection T))) : Prop :=
  Forall (λ r, match r with Ok c => ch_valid (conn_stream c) | Err _ => True end) accepts.

Lemma idle_accept w : idle w → linked (emit EvAccept w) fresh_c.
Proof.
  intros (c & Hl & Hlk & Hp & Hr). pose proof Hl as (Ht & Hlock & Hf).
  unfold linked. simpl. rewrite (runs_emit _ _ _ _ Ht). unfold contract_step. rewrite Hlk, Hp, Hr. simpl.
  rewrite Hlk in Hlock, Hf. done.
Qed.

Lemma linked_idle w : linked w fresh_c → idle w.
Proof. intros Hl. by exists fresh_c. Qed.

Lemma sleep_idle d w (E : world → Prop) :
  linked w fresh_c → wp (sleep env d) (post (λ _ w', idle w') E) w.
Proof.
  intros Hl. unfold wp, sleep. simpl. exists fresh_c. split; [|done].
  by eapply (linked_emit (pass (d + delay env (calls w)) w)).
Qed.

Lemma serve_loop_spec backoff accepts w :
  others_fair → time_flows → valid_accepts accepts → idle w →
  wp (serve_loop env backoff accepts) (post serve_post (λ _, False)) w.
Proof.
  intros Hfair Htime Hvalid. revert backoff w.
  induction Hvalid as [|a accepts Ha Hvalid IH]; intros backoff w Hidle; simpl;
    (eapply wp_post_bind with (Q1 := λ _ w', linked w' fresh_c); [by apply idle_accept|]);
    cbn beta iota; intros _ w1 Hl1.
  { by apply wp_post_ret. }
  destruct a as [c|e].
  - destruct (prepare_session_stream env c); [|by apply IH, linked_idle].
    eapply wp_post_bind with
      (Q1 := λ _ w', at_ w' fresh_c (session w') (ch_size (stream w'))); [by split_and!|].
    cbn beta iota; intros _ w2 Hat2.
    eapply wp_post_bind; [by eapply wp_post_attempt, handle_session_spec|].
    intros [[]|x] w3; cbn beta iota.
    + intros (Hend & c3 & Hl3 & Ho3 & Hr3 & Hlk3). by eapply finish_spec.
    + intros Hidle3. by apply IH.
    + intros Hset. eapply wp_post_bind; [by apply recover_spec|].
      intros [e2|] w4; cbn beta iota.
      * intros (c4 & Hl4 & Ho4 & Hr4 & Hlk4). by eapply finish_spec.
      * intros Hidle4. by apply IH.
  - destruct (classify_accept_error e).
    + by apply IH, linked_idle.
    + eapply wp_post_bind; [by apply sleep_idle|]. cbn beta iota; intros _ w2 Hidle2. by apply IH.
    + by eapply finish_spec.
Qed.

(** *** Starting from a lock that is held *)
Definition starts_with_lock w : Prop :=
  is_Some (lock w) ∧ flock_holder (fs w) = Some (me env) ∧ trace w = [].

Lemma starts_idle w : starts_with_lock w → idle w.
Proof.
  intros (Hl & Hf & Ht). exists contract_start. split_and!; try done.
  unfold linked. rewrite Ht. split; [done|]. split; done.
Qed.

Lemma serve_spec accepts w :
  others_fair → time_flows → valid_accepts accepts → starts_with_lock w →
  wp (serve env accepts) (post serve_post (λ _, False)) w.
Proof. intros. apply serve_loop_spec; auto using starts_idle. Qed.

(** Every run, however it ends. *)
Lemma serve_runs accepts w :
  others_fair → time_flows → valid_accepts accepts → starts_with_lock w →
  ∃ c, follows contract_start (trace (serve env accepts w).2) = Some c ∧ abandoned c = false.
Proof.
  intros Hf Ht Hv Hs. pose proof (serve_spec accepts w Hf Ht Hv Hs) as Hpost.
  unfold wp in Hpost. destruct (serve env accepts w) as [[[r|]|[x|x|]] w']; simpl in Hpost; try done.
  - destruct Hpost as (c & (? & ? & ?) & ? & _). eauto.
  - destruct Hpost as (? & ? & ?). by exists fresh_c.
  - destruct Hpost as (_ & c & (? & _) & ?). eauto.
Qed.
End safety.

(** ** Reading the contract off a trace *)
Definition holds_flock (es : list event) : bool :=
  foldl (λ h e, match e with EvLock => true | EvUnlock => false | _ => h end) true es.
Definition is_paused (es : list event) : bool :=
  foldl (λ p e, match e with
                | EvDrain _ true | EvSeal true => true
                | EvResume _ => false
                | _ => p
                end) false es.


(** What the hooks said last: the consumer [Runs] until [drain] or [seal]
    succeeds; it is then [Paused] until [resume_after_abort] is called.  A
    [drain] that fails on a consumer that was not paused, or a
    [resume_after_abort] that fails, leaves it in a state of its own. *)
Inductive consumer_state : Type := Runs | Paused | DrainFailed | ResumeFailed.
Definition consumer_step (s : consumer_state) (e : event) : consumer_state :=
  match e with
  | EvDrain _ true | EvSeal true => Paused
  | EvDrain _ false => match s with Paused => Paused | _ => DrainFailed end
  | EvResume ok => if ok then Runs else ResumeFailed
  | _ => s
  end.
Definition consumer_after (es : list event) : consumer_state := foldl consumer_step Runs es.

Lemma consumer_paused es : is_paused es = match consumer_after es with Paused => true | _ => false end.
Proof.
  unfold is_paused, consumer_after. induction es as [|e es IH] using rev_ind; [done|].
  rewrite !foldl_app. simpl. rewrite IH.
  by destruct e as [| | | |? []|[]|[]| | |], (foldl consumer_step Runs es).
Qed.

Lemma contract_step_flags c e c' :
  contract_step c e = Some c' →
  locked c' = (match e with EvLock => true | EvUnlock => false | _ => locked c end) ∧
  paused c' = (match e with
               | EvDrain _ true | EvSeal true => true
               | EvResume _ => false
               | _ => paused c
               end) ∧
  (stage c' = JustSealed ↔ e = EvSeal true) ∧ (stage c' = JustReturned ↔ e = EvReturn) ∧
  (returned c' = true ↔ returned c = true ∨ e = EvReturn).
Proof.
  unfold contract_step, drained_c, undrained_c, sealed_c, calm, resumed_c, relocked_c, contract_start.
  intros Hs. destruct c as [l p j r ret]. simpl in Hs.
  destruct e as [|?|[]|[] ?|? []|[]|?| | |]; simpl in Hs;
    repeat (case_match; [try done|try done]); simplify_eq/=; rewrite ?andb_true_iff, ?negb_true_iff in *;
    destruct_and?; simplify_eq/=;
    split_and!; try done; split; intros; destruct_or?; auto; done.
Qed.

Lemma contract_step_reseal c e c' :
  contract_step c e = Some c' →
  reseal c' = (match e with
               | EvRecv (SealRequest _) => reseal c || negb (locked c)
               | EvAccept | EvLock => false
               | _ => reseal c
               end).
Proof.
  unfold contract_step. intros Hs.
  destruct e as [|?|[]|[] ?|? []|?|?| | |]; repeat (case_match; try done); by simplify_eq.
Qed.

Lemma follows_stage es c :
  follows contract_start es = Some c →
  (stage c = JustSealed ↔ ∃ es', es = es' ++ [EvSeal true]) ∧
  (stage c = JustReturned ↔ ∃ es', es = es' ++ [EvReturn]).
Proof.
  destruct es as [|e es _] using rev_ind.
  - intros [= <-]. split; (split; [done|]); intros [es' Hes]; by destruct es'.
  - rewrite runs_app. destruct (follows contract_start es) as [c1|]; simpl; [|done].
    destruct (contract_step c1 e) as [c2|] eqn:Hs; simpl; [|done]. intros [= <-].
    destruct (contract_step_flags _ _ _ Hs) as (_ & _ & Hj & Hr & _). rewrite Hj, Hr.
    split; (split; [intros ->; eauto|]); intros [es' Hes]; by apply app_inj_2 in Hes as [_ [= ->]].
Qed.

Lemma follows_flags es c :
  follows contract_start es = Some c →
  locked c = holds_flock es ∧ paused c = is_paused es ∧
  (just_sealed c = true ↔ ∃ es', es = es' ++ [EvSeal true]) ∧
  (returned c = true ↔ EvReturn ∈ es).
Proof.
  intros Hes. rewrite <- (proj1 (follows_stage _ _ Hes)).
  assert (just_sealed c = true ↔ stage c = JustSealed) as -> by (unfold just_sealed; by destruct (stage c)).
  revert c Hes. induction es as [|e es IH] using rev_ind; intros c.
  - intros [= <-]. split_and!; try done. split; [done|]. by intros ?%elem_of_nil.
  - rewrite runs_app. destruct (follows contract_start es) as [c1|]; simpl; [|done].
    destruct (contract_step c1 e) as [c2|] eqn:Hs; simpl; [|done]. intros [= <-].
    destruct (IH c1 eq_refl) as (Hl & Hp & _ & Hr).
    destruct (contract_step_flags _ _ _ Hs) as (Hl' & Hp' & _ & _ & Hr').
    unfold holds_flock, is_paused in *. rewrite !foldl_app. simpl.
    rewrite Hl', Hp', Hl, Hp. split_and!; [done..|].
    rewrite Hr', Hr, elem_of_app, list_elem_of_singleton. split; (intros [?|?]; [by left|by right]).
Qed.

Lemma follows_consumer es c :
  follows contract_start es = Some c → paused c = true ↔ consumer_after es = Paused.
Proof.
  intros Hes. destruct (follows_flags _ _ Hes) as (_ & -> & _). rewrite consumer_paused.
  by destruct (consumer_after es).
Qed.

(** ** A consumer and an environment to run the incumbent with *)
Module Demo.
(** The consumer accepts until drained and until resumed; [drains] and
    [seals] say which calls succeed. *)
Record app : Type := mkApp { accepting : bool; drains : list bool; seals : list bool }.

#[global] Instance app_drainable : Drainable app := {|
  drain _ a :=
    (match drains a with false :: _ => Err (Io (io_from_kind OtherKind))
     | _ => Ok (mkDrainReport 0 true) end, mkApp false (tail (drains a)) (seals a));
  seal a :=
    (match seals a with false :: _ => Err (Io (io_from_kind OtherKind))
     | _ => Ok (mkSealReport [7] []) end, mkApp (accepting a) (drains a) (tail (seals a)));
  resume_after_abort a := (Ok tt, mkApp true (drains a) (seals a));
  snapshot_state _ := mkStateSnapshot 1 0 [7];
  drain_points := [];
  seal_points := [];
  points_named := List.Forall_nil _
|}.

Definition env : Env :=
  mkEnv 42 "/d" [] 1000 (λ _, fs_ok) (λ _ d, d) (λ _, true) (λ _, 1) (λ _, 1%nat) (λ t, t)
    (λ _, "seal failed"%string) no_crash.

Definition start (a : app) : World Script.script app :=
  mkWorld (Some (mkDataDirLock 42 "/d" "/d/.handoff.pidfile"))
    (mkLockDir (Some 42) (Some (pid_text 42)) ∅) a (Script.says []) SessionState_default 0 0 [] [].

Definition connection (ms : list Message) : result IoError (Connection Script.script) :=
  Ok (mkConnection 9 (mkKernel {[ 9 := mkFd 0 FD_CLOEXEC ]} ∅ 1024) (Ok 1000) (Ok tt)
        (Script.says ms)).

Definition id1 : HandoffId := mkHandoffId 1.
Definition hello_ack : Message := HelloAck 1 id1.
Definition prepare : Message := PrepareHandoff id1 77 300000 60000.

Definition prologue : list Message := [hello_ack; prepare; SealRequest id1].
Definition two_sessions : list (result IoError (Connection Script.script)) :=
  connection <$> [prologue ++ [Abort id1 "no"%string]; prologue ++ [Commit id1]].
Definition start0 : World Script.script app := start (mkApp true [] []).

Lemma env_fair : others_fair env.
Proof. done. Qed.
Lemma env_time : time_flows env.
Proof. by intros n. Qed.
Lemma start_ok a : starts_with_lock env (start a).
Proof. unfold starts_with_lock. simpl. by split_and!. Qed.
Lemma connections_valid mss : valid_accepts (connection <$> mss).
Proof. induction mss; simpl; [constructor|]. by constructor. Qed.
End Demo.

(** ** Properties *)

(** C5: every run of [serve] keeps the incumbent's contract, whatever the
    supervisors on the accepted connections say, whenever they disconnect,
    whatever the consumer's hooks, [flock] and the file system answer.  A run
    ends by waiting in [accept], by returning, or by an injected crash with
    status 99; it never loops.  When it waits in [accept] the process has the
    flock, and the consumer is not left paused: it runs, unless the last hook
    that changed its state was a [drain] or a [resume_after_abort] that
    failed.  When [serve] returns the flock is released, and it returns [Ok]
    only right after a [Commit]. *)
Theorem serve_follows_contract {T C} `{ControlChannel T} `{Drainable C} `{!ChannelLaws T}
    (env : Env) (accepts : list (result IoError (Connection T))) (w : World T C) :
  others_fair env → time_flows env → valid_accepts accepts → starts_with_lock env w →
  let '(r, w') := serve env accepts w in
  ∃ c, follows contract_start (trace w') = Some c ∧
    (locked c = true ↔ is_Some (lock w')) ∧
    (locked c = true ↔ flock_holder (fs w') = Some (me env)) ∧
    match r with
    | Ok Accepting => locked c = true ∧ consumer_after (trace w') ≠ Paused
    | Ok (Returned r) =>
        locked c = false ∧
        (r = Ok tt → ∃ es id, trace w' = es ++ [EvRecv (Commit id); EvReturn])
    | Err (Exit code) => code = 99
    | Err _ => False
    end.
Proof.
  intros Hf Ht Hv Hs. pose proof (serve_spec env accepts w Hf Ht Hv Hs) as Hpost. unfold wp in Hpost.
  destruct (serve env accepts w) as [[[r|]|[e|x|]] w']; simpl in Hpost; try done.
  - destruct Hpost as (c & (? & ? & ?) & ? & ? & ? & ?). by exists c.
  - destruct Hpost as (Hc & ? & ?). exists fresh_c. split_and!; try done.
    by rewrite <- (follows_consumer _ _ Hc).
  - destruct Hpost as (? & c & (? & ? & ?) & _). by exists c.
Qed.

(** One aborted and one committed handoff. *)
Lemma serve_follows_contract_witness :
  let '(r, w') := serve Demo.env Demo.two_sessions Demo.start0 in
  r = Ok (Returned (Ok tt)) ∧ ∃ es id, trace w' = es ++ [EvRecv (Commit id); EvReturn].
Proof.
  pose proof (serve_follows_contract Demo.env Demo.two_sessions Demo.start0 Demo.env_fair
    Demo.env_time (Demo.connections_valid _) (Demo.start_ok _)) as Hrun.
  assert ((serve Demo.env Demo.two_sessions Demo.start0).1 = Ok (Returned (Ok tt))) as Hr
    by (vm_compute; reflexivity).
  destruct (serve Demo.env Demo.two_sessions Demo.start0) as [r w']. simpl in Hr. subst r.
  destruct Hrun as (c & _ & _ & _ & _ & Hend). split; [reflexivity|exact (Hend eq_refl)].
Defined.

(** C12: the order of what [serve] does.  The flock is released only
    immediately after a successful [seal], or immediately after [serve]
    returned; it is taken only when it was released.  [seal] is called only
    on a paused consumer; [SealComplete] is only sent while the flock is
    released; [Drained] only while the consumer is paused.  Whenever [serve]
    goes to [accept] the flock is held and every [drain] or [seal] that
    succeeded has been followed by a call of [resume_after_abort]: the
    consumer runs, unless the last thing it said is that a [drain] or a
    [resume_after_abort] failed.  [SealFailed] is sent and
    [resume_after_abort] called only while the flock is held, unless a second
    [SealRequest] came after the flock was released. *)
Theorem serve_event_order {T C} `{ControlChannel T} `{Drainable C} `{!ChannelLaws T}
    (env : Env) (accepts : list (result IoError (Connection T))) (w : World T C) es1 e es2 :
  others_fair env → time_flows env → valid_accepts accepts → starts_with_lock env w →
  trace (serve env accepts w).2 = es1 ++ e :: es2 →
  match e with
  | EvUnlock => (∃ es, es1 = es ++ [EvSeal true]) ∨ (∃ es, es1 = es ++ [EvReturn])
  | EvLock => holds_flock es1 = false
  | EvSeal _ => consumer_after es1 = Paused
  | EvSend (SealComplete _ _ _) _ => holds_flock es1 = false
  | EvSend (Drained _ _) _ => consumer_after es1 = Paused
  | EvAccept => holds_flock es1 = true ∧ consumer_after es1 ≠ Paused ∧ EvReturn ∉ es1
  | EvResume _ | EvSend (SealFailed _ _ _) _ =>
      holds_flock es1 = true ∨ (∃ c, follows contract_start es1 = Some c ∧ reseal c = true)
  | _ => True
  end.
Proof.
  intros Hf Ht Hv Hs Htr. destruct (serve_runs env accepts w Hf Ht Hv Hs) as (c & Hc & _).
  rewrite Htr in Hc. apply runs_split in Hc as (c1 & c2 & Hc1 & Hstep & _).
  destruct (follows_flags _ _ Hc1) as (Hl & _ & _ & Hr). destruct (follows_stage _ _ Hc1) as [Hsl Hrt].
  pose proof (follows_consumer _ _ Hc1) as Hp. unfold contract_step in Hstep.
  destruct e as [|?|?|[] ?|?|?|?| | |]; try done; simpl in Hstep;
    repeat (case_match; try done); rewrite <- ?Hl;
    rewrite ?orb_true_iff, ?andb_true_iff, ?negb_true_iff in *; try tauto; try by destruct_or!; eauto.
  - rewrite <- Hp, <- Hr. destruct_and!. by rewrite <- !not_true_iff_false in *.
  - rewrite <- Hsl, <- Hrt. destruct_and!. unfold may_release in *. by destruct (stage c1); auto.
Qed.

(** The release of the flock in the second session. *)
Lemma serve_event_order_witness :
  let es := trace (serve Demo.env Demo.two_sessions Demo.start0).2 in
  ∃ es1 es2, es = es1 ++ EvUnlock :: es2 ∧
    ((∃ es, es1 = es ++ [EvSeal true]) ∨ (∃ es, es1 = es ++ [EvReturn])).
Proof.
  set (es := trace (serve Demo.env Demo.two_sessions Demo.start0).2).
  assert (∃ k, es = take k es ++ EvUnlock :: drop (S k) es) as [k Hk]
    by (exists 10%nat; vm_compute; reflexivity).
  exists (take k es), (drop (S k) es). split; [exact Hk|].
  exact (serve_event_order Demo.env Demo.two_sessions Demo.start0 _ EvUnlock _ Demo.env_fair
    Demo.env_time (Demo.connections_valid _) (Demo.start_ok _) Hk).
Defined.

(** One attempt of the recovery. *)
Lemma retry_attempt {T C} (env : Env) f deadline (w : World T C) :
  retry_loop env (S f) deadline w =
  match acquire env w with
  | (Ok g, w1) => (Ok g, w1)
  | (Err (Raise (LockHeld p)), w1) =>
      if decide (clock w1 < deadline)
      then retry_loop env f deadline (sleep env RETRY_INTERVAL w1).2
      else (Err (Raise (LockHeld p)), w1)
  | (Err e, w1) => (Err e, w1)
  end.
Proof.
  simpl. unfold mbind, prog_bind, attempt.
  destruct (acquire env w) as [[g|[[]|x|]] w1]; try done. simpl. by case_decide.
Qed.

Lemma acquire_run {T C} (env : Env) (w : World T C) :
  match acquire env w with
  | (Ok g, w1) => owner g = me env ∧ flock_holder (fs w1) = Some (me env)
  | (Err (Raise (LockHeld _)), w1) => is_Some (flock_holder (fs w1))
  | (Err (Raise _), _) => True
  | (Err _, _) => False
  end ∧
  clock (acquire env w).2 = clock w + delay env (calls w).
Proof.
  unfold acquire.
  pose proof (Lock.acquire_spec (fs_answers env (calls w)) (me env) (data_dir env)
                (others env (calls w) (fs w))) as Ha.
  destruct (Lock.acquire _ _ _ _) as [[g|[e|x|]] d]; simpl; (split; [|done]); try done.
  - by destruct Ha as (-> & _ & Hme & _).
  - destruct e; try done. by destruct Ha as (_ & -> & Hheld & _).
Qed.

(** C32: the flock recovery always ends.  It gives [LockHeld] up no earlier
    than its time-out, and then somebody else still has the flock; whatever it
    answers, it has taken no longer than the time-out plus one retry interval
    and the delays of the machine. *)
Theorem short_retry_bounds {T C} (env : Env) (timeout dmax : Z) (w : World T C) :
  (∀ n, 0 ≤ delay env n ≤ dmax) → 0 ≤ timeout →
  let '(r, w') := acquire_with_short_retry env timeout w in
  clock w' ≤ clock w + timeout + RETRY_INTERVAL + 2 * dmax ∧
  match r with
  | Ok g => owner g = me env ∧ flock_holder (fs w') = Some (me env)
  | Err (Raise (LockHeld _)) => clock w + timeout ≤ clock w' ∧ is_Some (flock_holder (fs w'))
  | Err (Raise _) => True
  | Err _ => False
  end.
Proof.
  intros Hd Ht. unfold acquire_with_short_retry, retry_fuel.
  set (deadline := clock w + timeout). unfold mbind, prog_bind, gets. cbn beta iota.
  fold deadline.
  assert (∀ f (w1 : World T C), deadline - clock w1 < RETRY_INTERVAL * Z.of_nat f →
    clock w1 ≤ deadline + RETRY_INTERVAL + dmax →
    let '(r, w') := retry_loop env (S f) deadline w1 in
    clock w' ≤ deadline + RETRY_INTERVAL + 2 * dmax ∧
    match r with
    | Ok g => owner g = me env ∧ flock_holder (fs w') = Some (me env)
    | Err (Raise (LockHeld _)) => deadline ≤ clock w' ∧ is_Some (flock_holder (fs w'))
    | Err (Raise _) => True
    | Err _ => False
    end) as Hloop.
  { unfold RETRY_INTERVAL. induction f as [|f IH]; intros w1 Hf Hw1; rewrite retry_attempt;
      destruct (acquire_run env w1) as [Ha Hck]; pose proof (Hd (calls w1)) as Hd1;
      destruct (acquire env w1) as [[g|[e|x|]] w2]; simpl in Hck; try done;
      try (split; [lia|done]);
      destruct e; try (split; [lia|done]); case_decide; try (split; [lia|split; [lia|done]]).
    - lia.
    - apply IH; unfold sleep, RETRY_INTERVAL; simpl; pose proof (Hd (calls w2)); lia. }
  apply Hloop.
  - unfold deadline, RETRY_INTERVAL.
    rewrite Nat2Z.inj_succ, Z2Nat.id by (apply Z.div_pos; lia).
    pose proof (Z.mul_succ_div_gt timeout 25 ltac:(lia)). lia.
  - unfold deadline, RETRY_INTERVAL. pose proof (Hd 0%nat). lia.
Qed.

(** A successor that keeps the flock for good. *)
Lemma short_retry_bounds_witness :
  let w := mkWorld (T := Script.script) None (mkLockDir (Some 99) (Some (pid_text 99)) ∅)
             (Demo.mkApp false [] []) (Script.says []) SessionState_default 0 0 [] [] in
  let '(r, w') := acquire_with_short_retry Demo.env RESUME_FLOCK_TIMEOUT w in
  r = Err (Raise (LockHeld 99)) ∧ 2000 ≤ clock w' ≤ 2027.
Proof.
  intros w.
  pose proof (short_retry_bounds Demo.env RESUME_FLOCK_TIMEOUT 1 w) as Hb.
  assert ((acquire_with_short_retry Demo.env RESUME_FLOCK_TIMEOUT w).1 = Err (Raise (LockHeld 99)))
    as Hr by (vm_compute; reflexivity).
  assert (clock w = 0) as Hw by reflexivity.
  destruct (acquire_with_short_retry Demo.env RESUME_FLOCK_TIMEOUT w) as [r w']. simpl in Hr. subst r.
  destruct Hb as (Hhi & Hlo & _);
    [intros n; unfold Demo.env; simpl; lia|unfold RESUME_FLOCK_TIMEOUT; lia|].
  unfold RESUME_FLOCK_TIMEOUT, RETRY_INTERVAL in *. split; [reflexivity|lia].
Defined.

(** *** Accept failures *)

(** The trace of [n] accepts that fail for want of a resource. *)
Fixpoint backoff_trace (n : nat) (d : Z) : list event :=
  match n with
  | O => [EvAccept]
  | S n => EvAccept :: EvSleep d :: backoff_trace n (next_backoff d)
  end.

Lemma serve_exhausted {T C} `{ControlChannel T} `{Drainable C} `{!ChannelLaws T}
    (env : Env) n e d (w : World T C) :
  classify_accept_error e = Exhausted →
  let '(r, w') := serve_loop env d (replicate n (Err e)) w in
  r = Ok Accepting ∧ trace w' = trace w ++ backoff_trace n d.
Proof.
  intros He. revert d w. induction n as [|n IH]; intros d w; [done|].
  cbn [replicate serve_loop]. rewrite He. unfold mbind, prog_bind, modify, sleep. cbn beta iota.
  specialize (IH (next_backoff d) (emit (EvSleep d) (pass (d + delay env (calls (emit EvAccept w))) (emit EvAccept w)))).
  destruct (serve_loop _ _ _ _) as [r w']. destruct IH as [-> ->]. split; [done|]. simpl.
  by rewrite <- !app_assoc.
Qed.

Lemma backoff_trace_nth n d i :
  (i < n)%nat → 0 < d ≤ ACCEPT_BACKOFF_MAX →
  backoff_trace n d !! S (2 * i) = Some (EvSleep ((d * 2 ^ Z.of_nat i) `min` ACCEPT_BACKOFF_MAX)).
Proof.
  unfold ACCEPT_BACKOFF_MAX. revert d i. induction n as [|n IH]; intros d i Hi Hd; [lia|].
  destruct i as [|i]; simpl.
  - do 2 f_equal. lia.
  - replace (i + S (i + 0))%nat with (S (2 * i)) by lia. simpl.
    replace (i + (i + 0))%nat with (2 * i)%nat by lia.
    rewrite IH by (unfold next_backoff, ACCEPT_BACKOFF_MAX; lia). do 2 f_equal.
    unfold next_backoff, ACCEPT_BACKOFF_MAX. rewrite Nat2Z.inj_succ, Z.pow_succ_r by lia.
    pose proof (Z.pow_pos_nonneg 2 (Z.of_nat i)). nia.
Qed.

(** An [accept] that fails for want of a descriptor or of memory never
    ends the serve loop and never makes it spin: the [i]-th failure in a row
    is followed by a sleep of [5 * 2^i] ms, at most one second.  An error of
    the connection is retried at once, and any other error of the listener
    ends the loop with that error, the flock released. *)
Theorem accept_failures {T C} `{ControlChannel T} `{Drainable C} `{!ChannelLaws T}
    (env : Env) (e : IoError) (w : World T C) :
  match classify_accept_error e with
  | Exhausted =>
      ∀ n, let '(r, w') := serve env (replicate n (Err e)) w in
        r = Ok Accepting ∧
        ∀ i, (i < n)%nat →
          trace w' !! (length (trace w) + S (2 * i))%nat =
            Some (EvSleep ((ACCEPT_BACKOFF_MIN * 2 ^ Z.of_nat i) `min` ACCEPT_BACKOFF_MAX))
  | Retry => ∀ rest, serve env (Err e :: rest) w = serve env rest (emit EvAccept w)
  | Fatal => ∀ rest, let '(r, w') := serve env (Err e :: rest) w in
        r = Ok (Returned (Err (Io e))) ∧ lock w' = None ∧
        (is_Some (lock w) → flock_holder (fs w') = None)
  end ∧
  (classify_accept_error e = Exhausted ↔
     kind e ≠ Interrupted ∧
     ∃ c, raw_os_error e = Some c ∧ c ∈ [EMFILE; ENFILE; ENOBUFS; ENOMEM; EAGAIN]).
Proof.
  split.
  - destruct (classify_accept_error e) eqn:He.
    + intros rest. unfold serve. simpl. by rewrite He.
    + intros n. unfold serve. pose proof (serve_exhausted env n e ACCEPT_BACKOFF_MIN w He) as Hs.
      destruct (serve_loop _ _ _ _) as [r w']. destruct Hs as [-> ->]. split; [done|]. intros i Hi.
      rewrite lookup_app_r by lia. replace (_ - _)%nat with (S (2 * i)) by lia.
      by apply backoff_trace_nth.
    + intros rest. unfold serve. simpl. rewrite He. unfold finish, take_lock, mbind, prog_bind, modify.
      simpl. destruct (lock w) eqn:Hlk; simpl; rewrite ?Hlk; split_and!; try done.
  - unfold classify_accept_error. case_decide as Hk; [split; [done|by intros [? _]]|].
    destruct (raw_os_error e) as [c|]; [|split; [done|by intros (_ & c & ? & _)]].
    split.
    + intros Hc. split; [done|]. exists c. split; [done|]. destruct c; try done; set_solver.
    + intros (_ & c' & [= <-] & Hin). repeat (apply elem_of_cons in Hin as [->|Hin]; [done|]).
      by apply elem_of_nil in Hin.
Qed.

Lemma accept_failures_witness :
  classify_accept_error (io_from_errno EMFILE) = Exhausted ∧
  trace (serve Demo.env (replicate 10 (Err (io_from_errno EMFILE))) Demo.start0).2 !! 17%nat
    = Some (EvSleep 1000).
Proof.
  split; [reflexivity|].
  pose proof (proj1 (accept_failures Demo.env (io_from_errno EMFILE) Demo.start0) 10%nat) as Hs.
  destruct (serve Demo.env (replicate 10 (Err (io_from_errno EMFILE))) Demo.start0) as [r w'].
  destruct Hs as [_ Hs]. exact (Hs 8%nat ltac:(lia)).
Defined.

(** C20: [Abort] and [ResumeAfterAbort] for the active handoff, on every
    branch.  A sealed incumbent first takes the flock back.  If that fails the
    error is passed on and the session, the consumer and the trace are as
    before, with [LockHeld] because somebody has the flock; otherwise the
    flock is this process's and its pid is in the pidfile before the consumer
    is resumed.  A drained one only resumes the consumer.  If
    [resume_after_abort] succeeds the session is as if the handoff had never
    begun; if it fails its error is passed on and the session is left as it
    was, a flock taken back included.  With nothing drained the session is
    reset and nothing else happens.  A message for another handoff is an error
    and changes nothing. *)
Theorem abort_undoes_handoff {T C} `{ControlChannel T} `{Drainable C} (env : Env) (id : HandoffId)
    (reset : prog (World T C) Error unit) (w : World T C) :
  0 ≤ me env ≤ i32_max → lock w = None ∨ sealed (session w) = false →
  reset = on_abort env id ∨ reset = on_resume_after_abort env id →
  let '(r, w') := reset w in
  let '(resumed, c) := resume_after_abort (consumer w) in
  let d := others env (calls w) (fs w) in
  (* [resume_after_abort] was called and [r] is its result *)
  let after_resume (es : list event) :=
    consumer w' = c ∧ trace w' = trace w ++ es ++ [EvResume (is_ok resumed)] ∧
    match resumed with
    | Ok _ => r = Ok tt ∧ session w' = SessionState_default
    | Err e => r = Err (Raise e) ∧ session w' = session w
    end in
  if decide (active (session w) ≠ Some id) then (∃ what, r = Err (Raise (UnexpectedMessage what))) ∧ w' = w
  else if sealed (session w) then
    match (Lock.acquire (fs_answers env (calls w)) (me env) (data_dir env) d).1 with
    | Ok _ =>
        flock_holder d = None ∧ is_Some (lock w') ∧ flock_holder (fs w') = Some (me env) ∧
        read_pidfile (fs w') = Some (me env) ∧ after_resume [EvLock]
    | Err e =>
        r = Err e ∧ session w' = session w ∧ consumer w' = consumer w ∧ trace w' = trace w ∧
        lock w' = None ∧ flock_holder (fs w') = flock_holder d ∧
        match e with
        | Raise (LockHeld p) => p = default 0 (read_pidfile d) ∧ is_Some (flock_holder d)
        | Raise _ => True
        | _ => False
        end
    end
  else
    fs w' = fs w ∧ lock w' = lock w ∧
    if drained (session w) then after_resume []
    else r = Ok tt ∧ session w' = SessionState_default ∧ consumer w' = consumer w ∧ trace w' = trace w.
Proof.
  intros Hme Hlk Hreset.
  assert (∃ what, reset = (check_active id what ≫= λ _, undo_handoff env)) as [what ->]
    by (destruct Hreset as [->| ->]; by eexists). clear Hreset.
  unfold check_active, undo_handoff, mbind, prog_bind, gets, raise, modify, mret, prog_ret.
  cbn beta iota. case_decide as Hid; cbn beta iota.
  { destruct (resume_after_abort (consumer w)) as [resumed c]. eauto. }
  destruct (sealed (session w)) eqn:Hse; [|destruct (drained (session w)) eqn:Hdr].
  - destruct Hlk as [Hlk|]; [|done]. unfold acquire.
    pose proof (Lock.acquire_spec (fs_answers env (calls w)) (me env) (data_dir env)
                  (others env (calls w) (fs w))) as Ha.
    destruct (Lock.acquire _ _ _ _) as [[g|e] d]; cbn beta iota.
    + unfold put_lock, call_resume, hook_returns. simpl. rewrite Hlk. simpl.
      destruct Ha as (_ & Hn & Hf & Hp). apply read_pid_text in Hp; [|done].
      destruct (resume_after_abort (consumer w)) as [[[]|x] c]; simpl; rewrite <- app_assoc; by split_and!.
    + destruct (resume_after_abort (consumer w)) as [resumed c]. simpl.
      destruct e as [e|x|]; [|done..]. destruct Ha as [Hh He]. split_and!; try done.
      destruct e; try done. by destruct He as (_ & ? & ?).
  - unfold call_resume, hook_returns.
    destruct (resume_after_abort (consumer w)) as [[[]|x] c]; simpl; rewrite ?Hse; by split_and!.
  - destruct (resume_after_abort (consumer w)) as [resumed c]. simpl. by rewrite Hse, Hdr.
Qed.

(** The successor died and its pid is still in the pidfile. *)
Lemma abort_undoes_handoff_witness :
  let w := mkWorld (T := Script.script) None (mkLockDir None (Some (pid_text 99)) ∅)
             (Demo.mkApp false [] []) (Script.says []) (mkSession (Some Demo.id1) true true) 0 0 [] [] in
  let '(r, w') := on_abort Demo.env Demo.id1 w in
  r = Ok tt ∧ session w' = SessionState_default ∧ Demo.accepting (consumer w') = true ∧
  read_pidfile (fs w') = Some 42 ∧ trace w' = [EvLock; EvResume true].
Proof.
  intros w.
  assert (0 ≤ me Demo.env ≤ i32_max) as Hme by (unfold Demo.env, i32_max; simpl; lia).
  pose proof (abort_undoes_handoff Demo.env Demo.id1 (on_abort Demo.env Demo.id1) w Hme
                (or_introl eq_refl) (or_introl eq_refl)) as Hu.
  destruct (on_abort Demo.env Demo.id1 w) as [r w'] in *. simpl in Hu.
  destruct Hu as (_ & _ & _ & Hp & -> & -> & -> & ->).
  split; [reflexivity|]. split; [reflexivity|]. split; [reflexivity|]. split; [exact Hp|reflexivity].
Defined.

(** C34: a [drain] that fails is not undone.  [Drainable] says that
    [resume_after_abort] is called in every case where [drain] ran and no
    commit followed.  In every run of [serve], when [drain] fails in a process
    that has the flock and whose consumer was not paused, the next thing
    [serve] does is to wait for the next supervisor: [run_session_loop] leaves
    through [?] before it records the drain, so no [resume_after_abort] comes
    first, and a consumer that stopped accepting before it reported the error
    is left stopped. *)
Theorem failed_drain_is_not_resumed {T C} `{ControlChannel T} `{Drainable C} `{!ChannelLaws T}
    (env : Env) (accepts : list (result IoError (Connection T))) (w : World T C) es1 d es2 :
  others_fair env → time_flows env → valid_accepts accepts → starts_with_lock env w →
  trace (serve env accepts w).2 = es1 ++ EvDrain d false :: es2 →
  holds_flock es1 = true → consumer_after es1 ≠ Paused →
  (∃ es3, es2 = EvAccept :: es3) ∧ consumer_after (es1 ++ [EvDrain d false]) = DrainFailed.
Proof.
  intros Hf Ht Hv Hs Htr Hl Hp. destruct (serve_runs env accepts w Hf Ht Hv Hs) as (c & Hc & Ho).
  rewrite Htr in Hc. apply runs_split in Hc as (c1 & c2 & Hc1 & Hstep & Hc2). split.
  2:{ unfold consumer_after in *. rewrite foldl_app. simpl. by destruct (foldl _ _ _). }
  destruct (follows_flags _ _ Hc1) as (Hl1 & _). rewrite <- (follows_consumer _ _ Hc1) in Hp.
  apply not_true_is_false in Hp. rewrite Hl in Hl1.
  assert (abandoned c2 = true) as Ho2.
  { unfold contract_step in Hstep. destruct (abandoned c1); [done|]. injection Hstep as <-.
    unfold undrained_c. by rewrite Hl1, Hp. }
  destruct es2 as [|e es3]; simpl in Hc2; [congruence|].
  destruct e; try (unfold contract_step in Hc2; by rewrite Ho2 in Hc2). by eexists.
Qed.

(** The consumer stopped accepting, then its drain failed: it stays stopped. *)
Lemma failed_drain_is_not_resumed_witness :
  let w' := (serve Demo.env (Demo.connection <$> [[Demo.hello_ack; Demo.prepare]])
               (Demo.start (Demo.mkApp true [false] []))).2 in
  Demo.accepting (consumer w') = false ∧
  ∃ es1 d es2, trace w' = es1 ++ EvDrain d false :: es2 ∧ ∃ es3, es2 = EvAccept :: es3.
Proof.
  intros w'. split; [vm_compute; reflexivity|].
  assert (∃ k, trace w' = take k (trace w') ++ EvDrain 60000 false :: drop (S k) (trace w') ∧
    holds_flock (take k (trace w')) = true ∧ consumer_after (take k (trace w')) ≠ Paused) as (k & Hk & Hl & Hp)
    by (exists 5%nat; vm_compute; split; [reflexivity|split; [reflexivity|discriminate]]).
  exists (take k (trace w')), 60000, (drop (S k) (trace w')). split; [exact Hk|].
  exact (proj1 (failed_drain_is_not_resumed Demo.env _ (Demo.start (Demo.mkApp true [false] [])) _ _ _
    Demo.env_fair Demo.env_time (Demo.connections_valid _) (Demo.start_ok _) Hk Hl Hp)).
Defined.

(** *** A second [SealRequest] *)
Definition is_beat (e : event) : Prop := match e with EvSend (Heartbeat _) _ => True | _ => False end.

Section second_seal.
Context {T C : Type} `{ControlChannel T} `{Drainable C} (env : Env).
Implicit Types w : World T C.

(** Only the stream, the clock and the heartbeats of the trace differ. *)
Definition beaten w w' : Prop :=
  lock w' = lock w ∧ fs w' = fs w ∧ consumer w' = consumer w ∧ session w' = session w ∧
  ∃ beats, trace w' = trace w ++ beats ∧ Forall is_beat beats.

Lemma beaten_refl w : beaten w w.
Proof. split_and!; try done. exists []. by rewrite app_nil_r. Qed.

Lemma heartbeat_loop_run k v w : ∃ w', heartbeat_loop env k v w = (Ok tt, w') ∧ beaten w w'.
Proof.
  revert w. induction k as [|k IH]; intros w; [exists w; split; [done|apply beaten_refl]|].
  simpl. unfold mbind, prog_bind, modify, gets, attempt, send. simpl.
  destruct (ch_write _ _ _) as [[[]|e] t]; simpl.
  - match goal with |- context [heartbeat_loop env k v ?w1] => destruct (IH w1) as (w' & -> & Hb) end.
    exists w'. split; [done|]. destruct Hb as (Hl & Hf & Hc & Hs & beats & Ht & Hbs). split_and!; try done.
    simpl in Ht. eexists. rewrite Ht, <- app_assoc. split; [done|]. by constructor.
  - eexists. split; [done|]. split_and!; try done. by eexists _; split; [done|constructor].
Qed.

Lemma run_with_heartbeats_run {A} v (work : prog (World T C) Error A) w :
  ∃ w1, run_with_heartbeats env v work w = work w1 ∧ beaten w w1.
Proof.
  unfold run_with_heartbeats, mbind, prog_bind, gets.
  destruct (ch_try_clone (stream w)); [|by exists w; split; [|apply beaten_refl]].
  destruct (heartbeat_loop_run (heartbeats env (calls w)) v w) as (w1 & -> & Hb). by exists w1.
Qed.

Lemma pass_points_run points w :
  pass_points env points w = (Ok tt, w) ∨ ∃ w', pass_points env points w = (Err (Exit 99), w').
Proof.
  induction points as [|p points IH]; simpl; [by left|]. unfold mbind, prog_bind, crash_here.
  destruct (maybe_crash_run (E := Error) (crash env) mark p w) as [-> | (w' & -> & _)]; [done|by right; exists w'].
Qed.
End second_seal.



(** It does happen in a session of [serve]. *)
Example second_seal_in_a_session :
  let es := trace (serve Demo.env (Demo.connection <$> [Demo.prologue ++ [SealRequest Demo.id1]])
                     (Demo.start (Demo.mkApp true [] [true; false]))).2 in
  ∃ es1 es2 e p, es = es1 ++ EvSend (SealFailed Demo.id1 e p) true :: EvResume true :: es2 ∧
    holds_flock es1 = false ∧ EvSend (SealComplete Demo.id1 [7] []) true ∈ es1.
Proof.
  intros es. exists (take 15 es), (drop 17 es), "seal failed"%string, EmptyString.
  split; [vm_compute; reflexivity|]. split; [vm_compute; reflexivity|].
  vm_compute. apply list_elem_of_In. simpl. tauto.
Qed.
