(* ===== verification/IncumbentAsked.v ===== *)
(** * The incumbent seals only when asked

    A second, smaller automaton over the incumbent's trace: [EvSeal] needs a
    [SealRequest] of its own.  Nearly every command is [quiet], it emits
    nothing this automaton looks at. *)
From stdpp Require Import base tactics option list numbers strings gmap.
From S2P Require Import Prelude Contract Errors Protocol Sock Lock Channel Crash Incumbent.
Local Open Scope Z_scope.

(** A [SealRequest] was received and not used. *)
Definition asked_step (b : bool) (e : event) : option bool :=
  match e with
  | EvRecv (SealRequest _) => Some true
  | EvSeal _ => if b then Some false else None
  | EvAccept => Some false
  | _ => Some b
  end.
Abbreviation asking := (runs asked_step).

Definition neutral (e : event) : Prop := ∀ b, asked_step b e = Some b.

Lemma asking_neutral b es : Forall neutral es → asking b es = Some b.
Proof. induction 1 as [|e es He _ IH]; simpl; [done|]. by rewrite He. Qed.

Section asked.
Context {T C : Type} `{ControlChannel T} `{Drainable C} (env : Env).
Abbreviation world := (World T C).
Abbreviation M := (prog world Error).
Implicit Types w : world.

Definition quiet {A} (m : M A) : Prop :=
  ∀ w, ∃ es, trace (m w).2 = trace w ++ es ∧ Forall neutral es.

(** The trace so far is accepted. *)
Definition tame w : Prop := is_Some (asking false (trace w)).
Definition tracked {A} (m : M A) : Prop := ∀ w, tame w → tame (m w).2.

(** *** Quiet commands *)
Lemma quiet_none {A} (m : M A) : (∀ w, trace (m w).2 = trace w) → quiet m.
Proof. intros Hm w. exists []. by rewrite app_nil_r. Qed.
Lemma quiet_one {A} (m : M A) :
  (∀ w, ∃ e, trace (m w).2 = trace w ++ [e] ∧ neutral e) → quiet m.
Proof. intros Hm w. destruct (Hm w) as (e & -> & He). exists [e]. split; [done|]. by constructor. Qed.

Lemma quiet_ret {A} (a : A) : quiet (mret a).
Proof. by apply quiet_none. Qed.
Lemma quiet_raise {A} e : quiet (A := A) (raise e).
Proof. by apply quiet_none. Qed.
Lemma quiet_stuck {A} : quiet (A := A) stuck.
Proof. by apply quiet_none. Qed.
Lemma quiet_gets {A} (f : world → A) : quiet (gets f).
Proof. by apply quiet_none. Qed.
Lemma quiet_lift {A} (r : result Error A) : quiet (lift r).
Proof. apply quiet_none. by destruct r. Qed.
Lemma quiet_io {A} (r : result IoError A) : quiet (io r).
Proof. apply quiet_none. by destruct r. Qed.
Lemma quiet_modify f : (∀ w, trace (f w) = trace w) → quiet (modify f).
Proof. intros Hf. by apply quiet_none. Qed.

Lemma quiet_bind {A B} (m : M A) (f : A → M B) : quiet m → (∀ a, quiet (f a)) → quiet (m ≫= f).
Proof.
  intros Hm Hf w. unfold mbind, prog_bind. destruct (Hm w) as (es & He & Hes).
  destruct (m w) as [[a|e] w1]; simpl in *; [|by exists es].
  destruct (Hf a w1) as (es' & -> & Hes'). exists (es ++ es'). rewrite He, app_assoc.
  split; [done|]. by apply Forall_app.
Qed.

Lemma quiet_attempt {A} (m : M A) : quiet m → quiet (attempt m).
Proof. intros Hm w. destruct (Hm w) as (es & He & Hes). exists es. unfold attempt. by destruct (m w) as [[|[]]]. Qed.

Lemma quiet_if {A} (b : bool) (m m' : M A) : quiet m → quiet m' → quiet (if b then m else m').
Proof. by destruct b. Qed.

Lemma quiet_crash p : quiet (crash_here env p).
Proof.
  apply quiet_none. intros w. unfold crash_here.
  by destruct (maybe_crash_run (E := Error) (crash env) mark p w) as [->|(w' & -> & _ & [->|[path ->]])].
Qed.

Lemma quiet_send v m : quiet (send v m).
Proof.
  apply quiet_one. intros w. unfold send. destruct (ch_write v m (stream w)) as [[]]; by eexists.
Qed.
Lemma quiet_timeout d : quiet (set_read_timeout d).
Proof. apply quiet_none. intros w. unfold set_read_timeout. by destruct (ch_set_read_timeout _ _). Qed.
Lemma quiet_points points : quiet (pass_points env points).
Proof.
  induction points as [|p points IH]; [apply quiet_ret|]. apply quiet_bind; [apply quiet_crash|done].
Qed.
Lemma quiet_hook {A} e (hook : C → Result A * C) :
  (∀ ok, neutral (e ok)) → quiet (hook_returns e hook).
Proof.
  intros He. apply quiet_one. intros w. unfold hook_returns.
  destruct (hook (consumer w)) as [[]]; eexists; (split; [reflexivity|apply He]).
Qed.
Lemma quiet_drain d : quiet (call_drain env d).
Proof. apply quiet_bind; [apply quiet_points|]. intros _. by apply quiet_hook. Qed.
Lemma quiet_resume : quiet call_resume.
Proof. by apply quiet_hook. Qed.
Lemma quiet_acquire : quiet (acquire env).
Proof. apply quiet_none. intros w. unfold acquire. by destruct (Lock.acquire _ _ _ _). Qed.
Lemma quiet_put g : quiet (put_lock env g).
Proof. apply quiet_one. intros w. unfold put_lock. exists EvLock. by destruct (lock w). Qed.
Lemma quiet_take : quiet (take_lock env).
Proof.
  intros w. unfold take_lock. destruct (lock w); [exists [EvUnlock]|exists []]; simpl.
  - split; [done|]. by constructor.
  - by rewrite app_nil_r.
Qed.
Lemma quiet_sleep d : quiet (sleep env d).
Proof. apply quiet_one. by eexists. Qed.

Create HintDb quiet discriminated.
#[local] Hint Constants Transparent : quiet.
#[local] Hint Variables Transparent : quiet.
#[local] Hint Opaque quiet : quiet.
#[local] Hint Resolve quiet_ret quiet_raise quiet_stuck quiet_gets quiet_lift quiet_io quiet_attempt
  quiet_crash quiet_send quiet_timeout quiet_drain quiet_resume quiet_acquire quiet_put quiet_take
  quiet_sleep : quiet.

(** Through binds, branches and hints. *)
Ltac quiet :=
  repeat lazymatch goal with
    | |- ∀ _, _ => intro
    | |- quiet (mbind _ _) => apply quiet_bind
    | |- quiet (attempt _) => apply quiet_attempt
    | |- quiet (modify _) => apply quiet_modify; done
    | |- quiet (match _ with _ => _ end) => case_match
    | |- quiet _ => solve [eauto with quiet]
    end.

Lemma quiet_heartbeats n v : quiet (heartbeat_loop env n v).
Proof. induction n as [|n IH]; simpl; quiet. Qed.
Lemma quiet_with_heartbeats {A} v (work : M A) : quiet work → quiet (run_with_heartbeats env v work).
Proof. intros. unfold run_with_heartbeats. quiet. apply quiet_heartbeats. Qed.

Lemma quiet_prepare v id d g : quiet (on_prepare env v id d g).
Proof. unfold on_prepare. quiet. apply quiet_with_heartbeats. quiet. Qed.
Lemma quiet_check id s : quiet (check_active (T := T) (C := C) id s).
Proof. unfold check_active. quiet. Qed.
Lemma quiet_commit id : quiet (on_commit (T := T) (C := C) env id).
Proof. unfold on_commit. quiet. apply quiet_check. Qed.
Lemma quiet_undo : quiet (undo_handoff env).
Proof. unfold undo_handoff. quiet. Qed.
Lemma quiet_retry fuel d : quiet (retry_loop (T := T) (C := C) env fuel d).
Proof. induction fuel as [|fuel IH]; simpl; quiet. Qed.
Lemma quiet_recover : quiet (recover (T := T) (C := C) env).
Proof. unfold recover, acquire_with_short_retry. quiet; apply quiet_retry. Qed.
Lemma quiet_heartbeat v : quiet (on_heartbeat env v).
Proof. unfold on_heartbeat. quiet. Qed.

(** *** Tracked programs *)
Lemma quiet_keeps {A} (m : M A) b w :
  quiet m → asking false (trace w) = Some b → asking false (trace (m w).2) = Some b.
Proof.
  intros Hm Hw. destruct (Hm w) as (es & -> & Hes). rewrite runs_app, Hw. simpl. by apply asking_neutral.
Qed.
Lemma tracked_quiet {A} (m : M A) : quiet m → tracked m.
Proof. intros Hm w [b Hb]. exists b. by apply quiet_keeps. Qed.

Lemma tracked_bind {A B} (m : M A) (f : A → M B) : tracked m → (∀ a, tracked (f a)) → tracked (m ≫= f).
Proof.
  intros Hm Hf w Hw. unfold mbind, prog_bind. specialize (Hm w Hw).
  destruct (m w) as [[a|e] w1]; simpl in *; [by apply Hf|done].
Qed.
Lemma tracked_attempt {A} (m : M A) : tracked m → tracked (attempt m).
Proof. intros Hm w Hw. specialize (Hm w Hw). unfold attempt. by destruct (m w) as [[|[]]]. Qed.

Lemma tame_bind {A B} (m : M A) (f : A → M B) w :
  tame (m w).2 → (∀ a, tracked (f a)) → tame ((m ≫= f) w).2.
Proof.
  intros Hm Hf. unfold mbind, prog_bind. destruct (m w) as [[a|e] w1]; simpl in *; [by apply Hf|done].
Qed.
Lemma tame_quiet_bind {A B} (m : M A) (f : A → M B) b w :
  quiet m → asking false (trace w) = Some b →
  (∀ a w', asking false (trace w') = Some b → tame (f a w').2) → tame ((m ≫= f) w).2.
Proof.
  intros Hm Hw Hf. pose proof (quiet_keeps m b w Hm Hw) as H1. unfold mbind, prog_bind.
  destruct (m w) as [[a|e] w1]; simpl in *; [by apply Hf|by exists b].
Qed.
Lemma tame_attempt {A} (m : M A) w : tame (m w).2 → tame (attempt m w).2.
Proof. unfold attempt. by destruct (m w) as [[|[]]]. Qed.

Lemma seal_uses_request w : asking false (trace w) = Some true → tame (call_seal env w).2.
Proof.
  intros Hw. apply (tame_quiet_bind _ _ true); [apply quiet_points|done|]. intros _ w1 H1.
  unfold hook_returns, tame. destruct (seal (consumer w1)) as [[]]; simpl;
    rewrite (runs_emit _ _ _ _ H1); by eexists.
Qed.

Lemma on_seal_tame v id w :
  asking false (trace w) = Some true → tame (on_seal_request env v id w).2.
Proof.
  intros Hw. apply (tame_quiet_bind _ _ true); [apply quiet_check|done|]. intros _ w1 H1.
  apply tame_bind; [apply tame_attempt|].
  - unfold run_with_heartbeats. apply (tame_quiet_bind _ _ true); [quiet|done|]. intros c w2 H2.
    destruct c; [|by apply seal_uses_request].
    apply (tame_quiet_bind _ _ true); [quiet|done|]. intros n w3 H3.
    apply (tame_quiet_bind _ _ true); [apply quiet_heartbeats|done|]. intros _ w4 H4.
    by apply seal_uses_request.
  - intros [r|e]; apply tracked_quiet; quiet.
Qed.

#[local] Hint Resolve quiet_prepare quiet_commit quiet_undo quiet_check quiet_heartbeat quiet_recover : quiet.

Lemma tracked_dispatch v msg w :
  tame w → (∀ id, msg = SealRequest id → asking false (trace w) = Some true) →
  tame (dispatch env v msg w).2.
Proof.
  intros Hw Hask. destruct msg;
    try solve [apply tracked_quiet; [|exact Hw]; simpl; unfold on_resume_after_abort, on_abort; quiet].
  apply tame_bind; [by eapply on_seal_tame, Hask|]. intros _. apply tracked_quiet. quiet.
Qed.

(** What a poll leaves: a received [SealRequest] is unused. *)
Lemma poll_tame w : tame w →
  tame (poll w).2 ∧ ∀ v id, (poll w).1 = Ok (Ok (Some (v, SealRequest id))) →
                            asking false (trace (poll w).2) = Some true.
Proof.
  intros [b Hb]. unfold poll, tame. destruct (ch_poll (stream w)) as [[[[v m]|]|e] t]; simpl; [|by eauto..].
  rewrite (runs_emit _ _ _ _ Hb). split; [destruct m; by eexists|]. by intros ?? [= _ ->].
Qed.

Lemma tracked_poll : tracked poll.
Proof. intros w Hw. by apply poll_tame. Qed.

Lemma tracked_session fuel v : tracked (run_session_loop env fuel v).
Proof.
  induction fuel as [|fuel IH]; intros w Hw; simpl; [done|].
  destruct (poll_tame w Hw) as [H1 H2]. unfold mbind at 1, prog_bind at 1.
  destruct (poll w) as [[[[[ver m]|]|e]|e] w1]; simpl in *; [| |..|done].
  - apply tame_bind; [apply tracked_dispatch; [done|]; intros id ->; by eapply H2|].
    intros [o|]; [apply tracked_quiet; quiet|done].
  - by apply IH.
  - revert H1. apply tracked_quiet. quiet.
Qed.

Lemma tracked_hello : tracked (hello_exchange env).
Proof.
  unfold hello_exchange. repeat first
    [ apply tracked_bind; [first [apply tracked_poll | apply tracked_quiet; quiet]|intros ?]
    | apply tracked_quiet; quiet ].
Qed.

Context `{!ChannelLaws T}.

Lemma tracked_handle : tracked (handle_session env).
Proof.
  unfold handle_session. apply tracked_bind; [apply tracked_hello|intros v].
  repeat first
    [ apply tracked_bind; [first [apply tracked_attempt, tracked_session | apply tracked_quiet; quiet]|intros ?]
    | apply tracked_quiet; quiet ].
Qed.

Lemma tracked_accept : tracked (modify (emit EvAccept)).
Proof. intros w [b Hb]. unfold tame. simpl. rewrite (runs_emit _ _ _ _ Hb). by eexists. Qed.

Lemma tracked_finish r : tracked (finish env r).
Proof.
  apply tracked_quiet. unfold finish. quiet. apply quiet_one. by eexists.
Qed.

Lemma tracked_serve accepts backoff : tracked (serve_loop env backoff accepts).
Proof.
  revert backoff. induction accepts as [|[c|e] accepts IH]; intros backoff; simpl;
    (apply tracked_bind; [apply tracked_accept|intros _]).
  - apply tracked_quiet. quiet.
  - destruct (prepare_session_stream env c); [|done]. apply tracked_bind; [apply tracked_quiet; quiet|intros _].
    apply tracked_bind; [apply tracked_attempt, tracked_handle|]. intros [[]|e]; [apply tracked_finish|done|].
    apply tracked_bind; [apply tracked_quiet; quiet|]. intros [e2|]; [apply tracked_finish|done].
  - destruct (classify_accept_error e); [done| |apply tracked_finish].
    apply tracked_bind; [apply tracked_quiet; quiet|done].
Qed.
End asked.

(** Every [seal] of a run of [serve] used a [SealRequest] of its own. *)
Lemma serve_asked {T C} `{ControlChannel T} `{Drainable C} `{!ChannelLaws T} (env : Env)
    (accepts : list (result IoError (Connection T))) (w : World T C) :
  trace w = [] → is_Some (asking false (trace (serve env accepts w).2)).
Proof. intros Hw. apply tracked_serve. unfold tame. by rewrite Hw. Qed.
