(* ===== verification/IncumbentCommits.v ===== *)
(** * When an incumbent hands over

    [IncumbentSafety] says what [serve] never does; this file says that it
    does hand over: led by a supervisor from [HelloAck] to [Commit], with a
    consumer that drains and seals, it gives up the flock and returns, having
    done exactly what the protocol asks. *)
From stdpp Require Import base tactics option list numbers strings gmap.
From S2P Require Import Prelude Contract Errors Protocol Sock Frame Lock Channel Talking Crash Incumbent IncumbentSafety.
Local Open Scope Z_scope.

(** A connection that [serve] gives up at once, without a pause. *)
Definition skipped {T} (env : Env) (a : result IoError (Connection T)) : bool :=
  match a with
  | Err e => match classify_accept_error e with Retry => true | _ => false end
  | Ok c => negb (is_ok (prepare_session_stream env c))
  end.

Section commits.
Context {T C : Type} `{Talking T} `{Drainable C} (env : Env).
Implicit Types w : World T C.
Abbreviation M := (prog (World T C) Error).
Hypothesis no_crash_here : ∀ p, crashes_at (crash env) p = false.

(** ** What is sent by itself *)

(** The heartbeats of [n] intervals, the first of which begins at [d]: each is
    stamped when its interval is over. *)
Fixpoint beats (d : Z) (n : nat) : list Message :=
  match n with
  | O => []
  | S n => Heartbeat (unix_ms env (d + HEARTBEAT_INTERVAL)) :: beats (d + HEARTBEAT_INTERVAL) n
  end.
Abbreviation sends ms := (map (λ m, EvSend m true) ms).
(** Every heartbeat of the supervisor is answered. *)
Definition echoes (d : Z) (hs : list Message) : list event :=
  hs ≫= λ h, [EvRecv h; EvSend (Heartbeat (unix_ms env d)) true].
Definition answers (d : Z) (hs : list Message) : list Message := map (λ _, Heartbeat (unix_ms env d)) hs.

(** ** Commands, on a world whose fields are known *)
Section commands.
Context (l : option DataDirLock) (f : LockDir) (mk : list (string * string)).
Abbreviation at_ cs t s d k es := (mkWorld l f cs t s d k mk es).

Lemma o_crash_ok {B} p (g : unit → M B) Q w : succeeds (g tt) Q w → succeeds (crash_here env p ≫= g) Q w.
Proof.
  intros HQ. eapply succeeds_bind with (P := λ _ w', w' = w); [|by intros [] ? ->].
  unfold succeeds, crash_here.
  destruct (maybe_crash_run (E := Error) (crash env) mark p w) as [->|(w' & _ & Hc & _)]; [done|].
  by rewrite no_crash_here in Hc.
Qed.

Lemma o_points_ok {B} points (g : unit → M B) Q w :
  succeeds (g tt) Q w → succeeds (pass_points env points ≫= g) Q w.
Proof.
  intros HQ. induction points as [|p points IH]; cbn [pass_points]; [by apply succeeds_bind_ret|].
  by apply succeeds_assoc, o_crash_ok.
Qed.

Lemma o_send_ok {B} v m ms n cs t s d k es (g : unit → M B) Q :
  fits v m → pending t ms (S n) →
  (∀ t', pending t' ms n → succeeds (g tt) Q (at_ cs t' s d k (es ++ [EvSend m true]))) →
  succeeds (send v m ≫= g) Q (at_ cs t s d k es).
Proof.
  intros Hf Hp Hg. destruct (pending_write t ms n v m Hf Hp) as (t' & Hw & Hp').
  unfold succeeds, send, mbind, prog_bind, lift. simpl. rewrite Hw. by apply Hg.
Qed.

Lemma o_set_timeout_ok {B} dl ms n cs t s d k es (g : result IoError unit → M B) Q :
  pending t ms n → (∀ t', pending t' ms n → succeeds (g (Ok tt)) Q (at_ cs t' s d k es)) →
  succeeds (set_read_timeout dl ≫= g) Q (at_ cs t s d k es).
Proof.
  intros Hp Hg. destruct (pending_timeout t ms n dl Hp) as (t' & Hw & Hp').
  unfold succeeds, set_read_timeout, mbind, prog_bind. simpl. rewrite Hw. by apply Hg.
Qed.

Lemma o_poll_ok {B} m ms n cs t s d k es (g : _ → M B) Q :
  pending t (m :: ms) n →
  (∀ v t', pending t' ms n → succeeds (g (Ok (Some (v, m)))) Q (at_ cs t' s d k (es ++ [EvRecv m]))) →
  succeeds (poll ≫= g) Q (at_ cs t s d k es).
Proof.
  intros Hp Hg. destruct (pending_poll t m ms n Hp) as (v & t' & Hpo & Hp').
  unfold succeeds, poll, mbind, prog_bind. simpl. rewrite Hpo. by apply Hg.
Qed.

Lemma o_heartbeats_ok {B} v ms r cs s (g : unit → M B) Q n :
  ∀ t d k es, Forall (fits v) (beats d n) → pending t ms (n + r) →
  (∀ t', pending t' ms r →
     succeeds (g tt) Q (at_ cs t' s (d + HEARTBEAT_INTERVAL * Z.of_nat n) (k + n) (es ++ sends (beats d n)))) →
  succeeds (heartbeat_loop env n v ≫= g) Q (at_ cs t s d k es).
Proof.
  induction n as [|n IH]; intros t d k es Hf Hp Hg.
  - rewrite Nat.add_0_r, app_nil_r in Hg. replace (d + _) with d in Hg by lia. by apply Hg.
  - apply Forall_cons in Hf as [Hf1 Hf]. cbn [heartbeat_loop].
    apply succeeds_assoc, succeeds_bind_modify, succeeds_assoc, succeeds_bind_gets, succeeds_assoc.
    unfold pass. simpl.
    destruct (pending_write t ms (n + r) v _ Hf1 Hp) as (t' & Hw & Hp').
    eapply succeeds_bind with (P := λ a w', a = Ok tt ∧ w' = at_ cs t' s (d + HEARTBEAT_INTERVAL) (S k)
      (es ++ [EvSend (Heartbeat (unix_ms env (d + HEARTBEAT_INTERVAL))) true])).
    { unfold succeeds, attempt, send. simpl. by rewrite Hw. }
    intros ? ? [-> ->]. apply (IH t'); [done|done|]. intros t2 Hp2. specialize (Hg t2 Hp2). simpl in Hg.
    rewrite <- app_assoc. simpl.
    replace (d + HEARTBEAT_INTERVAL + HEARTBEAT_INTERVAL * Z.of_nat n)
      with (d + HEARTBEAT_INTERVAL * Z.of_nat (S n)) by lia.
    by rewrite Nat.add_succ_r in Hg.
Qed.

(** [work], with the heartbeats that its duration takes. *)
Lemma o_with_heartbeats_ok {A B} v (work : M A) ms r cs t s d k es (g : A → M B) Q :
  let n := heartbeats env k in
  Forall (fits v) (beats d n) → pending t ms (n + r) →
  (∀ t', pending t' ms r →
     succeeds (work ≫= g) Q (at_ cs t' s (d + HEARTBEAT_INTERVAL * Z.of_nat n) (k + n) (es ++ sends (beats d n)))) →
  succeeds (run_with_heartbeats env v work ≫= g) Q (at_ cs t s d k es).
Proof.
  intros n Hf Hp Hg. unfold run_with_heartbeats. apply succeeds_assoc, succeeds_bind_gets. simpl.
  rewrite (pending_clone _ _ _ Hp). apply succeeds_assoc, succeeds_bind_gets, succeeds_assoc. simpl. fold n.
  by apply (o_heartbeats_ok v ms r).
Qed.

(** The loop answers the supervisor's heartbeats. *)
Lemma o_chat_ok v m rest r cs s d k Q hs :
  all_heartbeats hs → Forall (fits v) (answers d hs) → ∀ t es fuel,
  pending t (hs ++ m :: rest) (length hs + r) → (length (hs ++ m :: rest) < fuel)%nat →
  (∀ t' fuel', pending t' (m :: rest) r → (length (m :: rest) < fuel')%nat →
     succeeds (run_session_loop env fuel' v) Q (at_ cs t' s d k (es ++ echoes d hs))) →
  succeeds (run_session_loop env fuel v) Q (at_ cs t s d k es).
Proof.
  intros Hh Hf. induction Hh as [|h hs [ts ->] Hh IH]; intros t es fuel Hp Hfuel Hg.
  - rewrite app_nil_r in Hg. by apply Hg.
  - apply Forall_cons in Hf as [Hf1 Hf]. destruct fuel as [|fuel]; [simpl in Hfuel; lia|].
    cbn [run_session_loop]. eapply o_poll_ok; [exact Hp|]. intros v' t1 Hp1.
    cbn [dispatch]. unfold on_heartbeat. apply succeeds_assoc, succeeds_assoc, succeeds_bind_gets.
    eapply o_send_ok; [exact Hf1|exact Hp1|]. intros t2 Hp2. apply succeeds_bind_ret.
    apply (IH Hf); [done|simpl in Hfuel; lia|]. intros t3 fuel' Hp3 Hfuel'. rewrite <- !app_assoc. by apply Hg.
Qed.
End commands.

(** ** The conversation *)
Context (c : Conversation) (conn : Connection T) (rest : list Message).
Context (l0 : DataDirLock) (f0 : LockDir) (cs0 cs1 cs2 : C) (d0 : Z) (k0 : nat).
Abbreviation v := (v_o c).

(** The heartbeats of the drain and of the seal, and when each begins. *)
Definition drain_beats : nat := heartbeats env k0.
Definition d1 : Z := d0 + HEARTBEAT_INTERVAL * Z.of_nat drain_beats.
Definition k1 : nat := k0 + drain_beats.
Definition seal_beats : nat := heartbeats env k1.
Definition d2 : Z := d1 + HEARTBEAT_INTERVAL * Z.of_nat seal_beats.
Definition k2 : nat := k1 + seal_beats.
Definition drain_deadline : Z := d0 + (c_drain_grace_ms c `min` c_deadline_ms c).

(** The supervisor leads the conversation; the consumer drains and seals; what
    the incumbent says in the meantime is what its environment makes it say. *)
Record led : Prop := {
  l_hello : o_pid c = me env ∧ o_build c = build_id env ∧ o_lo c = PROTO_MIN ∧ o_hi c = PROTO_MAX ∧
    o_caps c = Capabilities_default;
  l_version : negotiate_version PROTO_MIN PROTO_MAX v v = Ok v;
  l_permitted : prepare_session_stream env conn = Ok tt;
  l_says : pending (conn_stream conn) (to_o c ++ rest) (length (from_o c ++ before_commit c));
  l_heartbeats : all_heartbeats (before_prepare c) ∧ all_heartbeats (before_seal c) ∧
    all_heartbeats (before_commit c);
  l_drains : drain drain_deadline cs0 = (Ok (mkDrainReport (c_conns c) (c_closed c)), cs1);
  l_seals : seal cs1 = (Ok (mkSealReport (c_revs c) (c_fingerprint c)), cs2);
  l_drain_chat : drain_chat c = answers d0 (before_prepare c) ++ beats d0 drain_beats;
  l_seal_chat : seal_chat c = answers d1 (before_seal c) ++ beats d1 seal_beats;
  l_fits_hello : fits PROTO_MAX (hello_o c);
  l_fits : Forall (fits v) (tail (from_o c) ++ answers d2 (before_commit c))
}.
Hypothesis Hled : led.

(** What the session does. *)
Definition hello_events : list event := [EvSend (hello_o c) true; EvRecv (HelloAck v (c_id c))].
Definition prepare_events : list event :=
  echoes d0 (before_prepare c) ++ EvRecv (prepare c) :: sends (beats d0 drain_beats) ++
  [EvDrain drain_deadline true; EvSend (drained_report c) true].
Definition sealing_events : list event :=
  echoes d1 (before_seal c) ++ EvRecv (SealRequest (c_id c)) :: sends (beats d1 seal_beats) ++
  [EvSeal true; EvUnlock; EvSend (complete c) true].
Definition o_commit_events : list event := echoes d2 (before_commit c) ++ [EvRecv (Commit (c_id c))].
Definition session_events : list event :=
  hello_events ++ prepare_events ++ sealing_events ++ o_commit_events.

Context (mk : list (string * string)).
Abbreviation after_prepare := (before_seal c ++ SealRequest (c_id c) :: before_commit c ++ Commit (c_id c) :: rest).
Abbreviation after_seal := (before_commit c ++ Commit (c_id c) :: rest).
Abbreviation n_commit := (length (before_commit c)).
Abbreviation n_seal := (length (before_seal c) + (seal_beats + S n_commit))%nat.
Abbreviation n_prepare := (length (before_prepare c) + (drain_beats + S n_seal))%nat.

Lemma led_fits :
  Forall (fits v) (answers d0 (before_prepare c)) ∧ Forall (fits v) (beats d0 drain_beats) ∧
  fits v (drained_report c) ∧ Forall (fits v) (answers d1 (before_seal c)) ∧
  Forall (fits v) (beats d1 seal_beats) ∧ fits v (complete c) ∧ Forall (fits v) (answers d2 (before_commit c)).
Proof.
  pose proof (l_fits Hled) as Hf. unfold from_o in Hf. simpl in Hf.
  rewrite (l_drain_chat Hled), (l_seal_chat Hled) in Hf.
  rewrite !Forall_app, !Forall_cons, !Forall_app, !Forall_cons in Hf. tauto.
Qed.

Lemma beats_length d n : length (beats d n) = n.
Proof. revert d. induction n as [|n IH]; intros d; simpl; [done|by rewrite IH]. Qed.
Lemma says_length : length (from_o c ++ before_commit c) = S n_prepare.
Proof.
  unfold from_o. rewrite (l_drain_chat Hled), (l_seal_chat Hled). simpl.
  rewrite !length_app. simpl. rewrite !length_app. simpl. unfold answers.
  rewrite !length_map, !beats_length. lia.
Qed.

Lemma o_prepare_ok t es fuel Q :
  pending t (before_prepare c ++ prepare c :: after_prepare) n_prepare →
  (length (before_prepare c ++ prepare c :: after_prepare) < fuel)%nat →
  (∀ t' fuel', pending t' after_prepare n_seal → (length after_prepare < fuel')%nat →
     succeeds (run_session_loop env fuel' v) Q
       (mkWorld (Some l0) f0 cs1 t' (mkSession (Some (c_id c)) false true) d1 k1 mk (es ++ prepare_events))) →
  succeeds (run_session_loop env fuel v) Q (mkWorld (Some l0) f0 cs0 t SessionState_default d0 k0 mk es).
Proof.
  intros Hp Hfuel HQ. destruct led_fits as (F1 & F2 & F3 & _).
  eapply o_chat_ok with (hs := before_prepare c); [apply Hled|exact F1|exact Hp|exact Hfuel|]. intros t1 [|fuel1] Hp1 Hf1; [simpl in Hf1; lia|].
  cbn [run_session_loop]. eapply o_poll_ok; [exact Hp1|]. intros v1 t2 Hp2. cbn [dispatch].
  unfold prepare, on_prepare. apply succeeds_assoc, succeeds_assoc, succeeds_bind_gets. cbn [active session SessionState_default].
  apply succeeds_assoc, succeeds_bind_ret, succeeds_assoc, succeeds_bind_modify.
  apply succeeds_assoc, succeeds_bind_gets, succeeds_assoc. cbv zeta.
  apply (o_with_heartbeats_ok (Some l0) f0 mk v _ after_prepare (S n_seal) cs0 t2 _ d0 k0); [exact F2|exact Hp2|].
  intros t3 Hp3. eapply succeeds_bind with (P := λ r w', r = mkDrainReport (c_conns c) (c_closed c) ∧
    w' = mkWorld (Some l0) f0 cs1 t3 (mkSession (Some (c_id c)) false false) d1 k1 mk
      ((((es ++ echoes d0 (before_prepare c)) ++ [EvRecv (prepare c)]) ++ sends (beats d0 drain_beats)) ++
         [EvDrain drain_deadline true])).
  { unfold call_drain. apply o_points_ok. unfold succeeds, hook_returns, lift. simpl. fold drain_deadline.
    by rewrite (l_drains Hled). }
  intros ? ? [-> ->]. apply succeeds_assoc, succeeds_bind_modify, succeeds_assoc.
  eapply o_send_ok; [exact F3|exact Hp3|]. intros t4 Hp4. apply o_crash_ok. apply succeeds_bind_ret.
  assert (length after_prepare < fuel1)%nat as Hf by (simpl in Hf1; lia).
  specialize (HQ t4 fuel1 Hp4 Hf). unfold prepare_events in HQ. simpl in *. rewrite <- !app_assoc. simpl.
  exact HQ.
Qed.

Lemma o_sealing_ok t es fuel Q :
  pending t after_prepare n_seal → (length after_prepare < fuel)%nat →
  (∀ t' fuel', pending t' after_seal n_commit → (length after_seal < fuel')%nat →
     succeeds (run_session_loop env fuel' v) Q
       (mkWorld None (drop_lock (pidfile_removed env k2) f0) cs2 t' (mkSession (Some (c_id c)) true true) d2 (S k2)
          mk (es ++ sealing_events))) →
  succeeds (run_session_loop env fuel v) Q
    (mkWorld (Some l0) f0 cs1 t (mkSession (Some (c_id c)) false true) d1 k1 mk es).
Proof.
  intros Hp Hfuel HQ. destruct led_fits as (_ & _ & _ & F1 & F2 & F3 & _).
  eapply o_chat_ok with (hs := before_seal c); [apply Hled|exact F1|exact Hp|exact Hfuel|]. intros t1 [|fuel1] Hp1 Hf1; [simpl in Hf1; lia|].
  cbn [run_session_loop]. eapply o_poll_ok; [exact Hp1|]. intros v1 t2 Hp2. cbn [dispatch].
  unfold on_seal_request, check_active. apply succeeds_assoc, succeeds_assoc, succeeds_assoc, succeeds_bind_gets.
  cbn [active session]. rewrite decide_False by (intros Hne; by apply Hne). apply succeeds_bind_ret, succeeds_assoc.
  set (after := λ t3 : T, mkWorld (Some l0) f0 cs2 t3 (mkSession (Some (c_id c)) false true) d2 k2 mk
      ((((es ++ echoes d1 (before_seal c)) ++ [EvRecv (SealRequest (c_id c))]) ++ sends (beats d1 seal_beats)) ++
         [EvSeal true])).
  set (report := mkSealReport (c_revs c) (c_fingerprint c)).
  eapply succeeds_bind with (P := λ r w', r = Ok report ∧ ∃ t3, pending t3 after_seal (S n_commit) ∧ w' = after t3).
  { eapply succeeds_mono; [apply succeeds_attempt with
      (Q := λ a w', a = report ∧ ∃ t3, pending t3 after_seal (S n_commit) ∧ w' = after t3)|naive_solver].
    apply succeeds_bind_ret_r.
    apply (o_with_heartbeats_ok (Some l0) f0 mk v _ after_seal (S n_commit) cs1 t2 _ d1 k1); [exact F2|exact Hp2|].
    intros t3 Hp3. unfold call_seal. apply succeeds_assoc, o_points_ok.
    unfold succeeds, hook_returns, lift, mbind, prog_bind. simpl. rewrite (l_seals Hled). simpl.
    split; [done|]. by exists t3. }
  intros ? ? (-> & t3 & Hp3 & ->). apply succeeds_assoc.
  eapply succeeds_bind with (P := λ _ w', w' = mkWorld None (drop_lock (pidfile_removed env k2) f0) cs2 t3
    (mkSession (Some (c_id c)) false true) d2 (S k2) mk
      (((((es ++ echoes d1 (before_seal c)) ++ [EvRecv (SealRequest (c_id c))]) ++ sends (beats d1 seal_beats)) ++
         [EvSeal true]) ++ [EvUnlock])).
  { unfold succeeds, take_lock, emit, set_lock, set_fs, pass. simpl. by rewrite Z.add_0_r. }
  intros _ ? ->. apply succeeds_assoc, succeeds_bind_modify, succeeds_assoc. apply o_crash_ok.
  apply succeeds_assoc. eapply o_send_ok; [exact F3|exact Hp3|]. intros t4 Hp4.
  apply o_crash_ok. apply succeeds_bind_ret.
  assert (length after_seal < fuel1)%nat as Hf by (simpl in Hf1; lia).
  specialize (HQ t4 fuel1 Hp4 Hf). unfold sealing_events in HQ. simpl in *. rewrite <- !app_assoc. simpl.
  exact HQ.
Qed.

Lemma o_commit_ok t f k es fuel :
  pending t after_seal n_commit → (length after_seal < fuel)%nat →
  succeeds (run_session_loop env fuel v) (λ o w', o = Committed ∧ ∃ t',
    w' = mkWorld None f cs2 t' (mkSession (Some (c_id c)) true true) d2 k mk (es ++ o_commit_events))
    (mkWorld None f cs2 t (mkSession (Some (c_id c)) true true) d2 k mk es).
Proof.
  intros Hp Hfuel. destruct led_fits as (_ & _ & _ & _ & _ & _ & F1).
  eapply o_chat_ok with (hs := before_commit c) (r := 0%nat); [apply Hled|exact F1|by rewrite Nat.add_0_r|exact Hfuel|].
  intros t1 [|fuel1] Hp1 Hf1; [simpl in Hf1; lia|].
  cbn [run_session_loop]. eapply o_poll_ok; [exact Hp1|]. intros v1 t2 Hp2. cbn [dispatch].
  unfold on_commit, check_active. apply succeeds_assoc, succeeds_assoc, succeeds_assoc, succeeds_bind_gets.
  cbn [active session]. rewrite decide_False by (intros Hne; by apply Hne). apply succeeds_bind_ret, succeeds_assoc.
  apply succeeds_bind_gets. cbn [sealed session negb]. apply succeeds_assoc. apply o_crash_ok.
  apply succeeds_bind_ret, succeeds_bind_ret, succeeds_ret. split; [done|]. exists t2.
  unfold o_commit_events. by rewrite app_assoc.
Qed.

Lemma to_o_app : to_o c ++ rest = HelloAck v (c_id c) :: before_prepare c ++ prepare c :: after_prepare.
Proof. unfold to_o. simpl. by rewrite <- !app_assoc; simpl; rewrite <- !app_assoc; simpl; rewrite <- !app_assoc. Qed.

Lemma o_session_ok s es0 :
  succeeds (handle_session env) (λ o w', o = Committed ∧ ∃ t',
    w' = mkWorld None (drop_lock (pidfile_removed env k2) f0) cs2 t' (mkSession (Some (c_id c)) true true) d2 (S k2)
           mk (es0 ++ session_events))
    (mkWorld (Some l0) f0 cs0 (conn_stream conn) s d0 k0 mk es0).
Proof.
  pose proof (l_says Hled) as Hp. rewrite to_o_app, says_length in Hp.
  assert (Hello Incumbent (me env) (build_id env) PROTO_MIN PROTO_MAX Capabilities_default = hello_o c) as Hh.
  { destruct (l_hello Hled) as (E1 & E2 & E3 & E4 & E5). unfold hello_o. by rewrite E1, E2, E3, E4, E5. }
  unfold handle_session, hello_exchange. rewrite Hh. apply succeeds_assoc.
  eapply o_send_ok; [apply Hled|exact Hp|]. intros t1 Hp1. apply succeeds_assoc.
  eapply o_set_timeout_ok; [exact Hp1|]. intros t2 Hp2. apply succeeds_assoc, succeeds_bind_ret, succeeds_assoc.
  eapply o_poll_ok; [exact Hp2|]. intros v3 t3 Hp3. apply succeeds_assoc.
  eapply o_set_timeout_ok; [exact Hp3|]. intros t4 Hp4. eapply succeeds_bind_lift; [apply Hled|].
  apply succeeds_bind_modify, succeeds_bind_gets.
  pose proof (pending_size _ _ _ Hp4) as Hsize. unfold set_session. cbn -[run_session_loop call_resume ch_size].
  eapply succeeds_bind.
  { apply succeeds_attempt. eapply o_prepare_ok; [exact Hp4|lia|]. intros t5 fuel5 Hp5 Hf5.
    eapply o_sealing_ok; [exact Hp5|exact Hf5|]. intros t6 fuel6 Hp6 Hf6. by eapply o_commit_ok. }
  cbn beta. intros o w' (a & -> & -> & t' & ->). apply succeeds_bind_gets. simpl.
  apply succeeds_bind_ret, succeeds_ret. split; [done|]. exists t'. unfold session_events, hello_events.
  by rewrite <- !app_assoc.
Qed.

(** *** [serve] *)
Lemma o_serve_ok post pre : ∀ backoff t s es,
  forallb (skipped env) pre = true →
  succeeds (serve_loop env backoff (pre ++ Ok conn :: post)) (λ o w', o = Returned (Ok tt) ∧ ∃ t',
    w' = mkWorld None (drop_lock (pidfile_removed env k2) f0) cs2 t' (mkSession (Some (c_id c)) true true) d2 (S k2)
           mk (es ++ replicate (S (length pre)) EvAccept ++ session_events ++ [EvReturn]))
    (mkWorld (Some l0) f0 cs0 t s d0 k0 mk es).
Proof.
  induction pre as [|a pre IH]; intros backoff t s es Hpre; cbn [serve_loop app]; apply succeeds_bind_modify.
  - rewrite (l_permitted Hled). apply succeeds_bind_modify.
    eapply succeeds_bind; [apply succeeds_attempt, o_session_ok|]. cbn beta. intros r w' (a & -> & -> & t' & ->).
    generalize dependent session_events. intros events.
    unfold finish. apply succeeds_bind_modify. unfold succeeds, mbind, prog_bind, take_lock. simpl.
    split; [done|]. exists t'. unfold emit. simpl. by rewrite <- !app_assoc.
  - simpl in Hpre. apply andb_true_iff in Hpre as [Ha Hpre].
    assert (∀ b, succeeds (serve_loop env b (pre ++ Ok conn :: post)) (λ o w', o = Returned (Ok tt) ∧ ∃ t',
      w' = mkWorld None (drop_lock (pidfile_removed env k2) f0) cs2 t' (mkSession (Some (c_id c)) true true) d2 (S k2)
             mk (es ++ replicate (S (length (a :: pre))) EvAccept ++ session_events ++ [EvReturn]))
      (emit EvAccept (mkWorld (Some l0) f0 cs0 t s d0 k0 mk es))) as Hrest.
    { intros b. eapply succeeds_mono; [apply (IH b t s (es ++ [EvAccept]) Hpre)|]. cbn beta.
      intros o w' [-> [t' ->]]. split; [done|]. exists t'. by rewrite <- app_assoc. }
    destruct a as [conn'|e]; simpl in Ha; [|by destruct (classify_accept_error e)].
    by destruct (prepare_session_stream env conn').
Qed.
End commits.

(** The run of [serve] and what it leaves. *)
Lemma hands_over_run {T C} `{Talking T} `{Drainable C} (env : Env) (c : Conversation)
    (conn : Connection T) (rest : list Message) (pre post : list (result IoError (Connection T)))
    (g : DataDirLock) (cs1 cs2 : C) (w : World T C) :
  (∀ p, crashes_at (crash env) p = false) →
  lock w = Some g →
  forallb (skipped env) pre = true →
  led env c conn rest (consumer w) cs1 cs2 (clock w) (calls w) →
  ∃ w', serve env (pre ++ Ok conn :: post) w = (Ok (Returned (Ok tt)), w') ∧
    lock w' = None ∧ flock_holder (fs w') = None ∧ consumer w' = cs2 ∧
    trace w' = trace w ++ replicate (S (length pre)) EvAccept ++
                 session_events env c (clock w) (calls w) ++ [EvReturn].
Proof.
  intros Hc Hl Hpre Hled. destruct w as [l f cs t s d k mk es]. simpl in *. subst.
  pose proof (o_serve_ok env Hc c conn rest g f cs cs1 cs2 d k Hled mk post pre ACCEPT_BACKOFF_MIN t
    s es Hpre) as Hserve.
  apply succeeds_run in Hserve as (o & w' & Hr & -> & t' & ->). eexists. split; [exact Hr|]. done.
Qed.

(** ** Properties *)

(** An incumbent to lead through a handoff: two connections that are turned
    away, then the supervisor, who sends two heartbeats. *)
Module IncumbentCommitDemo.
Definition conversation : Conversation :=
  mkConversation Demo.id1 42 [] 1 1 Capabilities_default 77 [] 1 1 Capabilities_default 1 1
    300000 60000 0 true [7] [] ["http"%string] true [5]
    [Heartbeat 2000] [Heartbeat 2000; Heartbeat 4000] [] [] [Heartbeat 5] [Heartbeat 6] [].
Definition stranger : Connection Script.script :=
  mkConnection 9 (mkKernel {[ 9 := mkFd 0 FD_CLOEXEC ]} ∅ 1024) (Ok 2000) (Ok tt) (Script.says []).
Definition supervisor : Connection Script.script :=
  mkConnection 9 (mkKernel {[ 9 := mkFd 0 FD_CLOEXEC ]} ∅ 1024) (Ok 1000) (Ok tt)
    (Script.says (to_o conversation)).
Definition pre : list (result IoError (Connection Script.script)) :=
  [Ok stranger; Err (io_from_errno ECONNABORTED)].
Lemma leads :
  led Demo.env conversation supervisor [] (Demo.mkApp true [] []) (Demo.mkApp false [] []) (Demo.mkApp false [] []) 0 0.
Proof.
  split; try done; try (repeat split; done).
  - split; [constructor|]. split; repeat constructor; by eexists.
  - repeat constructor.
Qed.
End IncumbentCommitDemo.


