(* ===== verification/Primitive.v ===== *)
(** * A primitive: [handoff-tests/src/bin/primitive.rs]

    The program that is the cold-started incumbent and the spawned successor:
    [detect_role], then the lock, the socket and [serve] in the order each
    role needs them.  With it [BegunSuccessor::announce_and_bind] of
    [role.rs]. *)
From stdpp Require Import base tactics option list numbers strings gmap.
From S2P Require Import Prelude Contract Errors Protocol Sock Frame Fd Lock Channel Role Crash Incumbent Bind.
Local Open Scope Z_scope.

(** ** What a primitive does before it serves, in order *)
Inductive nevent : Type :=
| NvRecv (m : Message)
| NvSend (m : Message) (ok : bool)
| NvLock
| NvUnlock
| NvBind
| NvServe.
#[export] Instance nevent_eq_dec : EqDecision nevent.
Proof. solve_decision. Defined.

(** A control stream that keeps a log. *)
Record traced (T : Type) : Type := mkTraced { inner : T; log : list nevent }.
Arguments mkTraced {T}. Arguments inner {T}. Arguments log {T}.

Definition note {T} (es : list nevent) (t : traced T) : traced T := mkTraced (inner t) (log t ++ es).

Section traced.
Context {T : Type} `{ControlChannel T}.

Definition heard (r : Result (option (ProtoVersion * Message))) : list nevent :=
  match r with Ok (Some (_, m)) => [NvRecv m] | _ => [] end.

#[global] Instance traced_channel : ControlChannel (traced T) := {|
  ch_poll t := let '(r, i) := ch_poll (inner t) in (r, mkTraced i (log t ++ heard r));
  ch_has_partial t := ch_has_partial (inner t);
  ch_read_message t :=
    let '(r, i) := ch_read_message (inner t) in
    (r, mkTraced i (log t ++ heard (Some <$> r)));
  ch_write v m t := let '(r, i) := ch_write v m (inner t) in
    (r, mkTraced i (log t ++ [NvSend m (is_ok r)]));
  ch_set_read_timeout d t := let '(r, i) := ch_set_read_timeout d (inner t) in (r, mkTraced i (log t));
  ch_try_clone t := ch_try_clone (inner t)
|}.

#[global] Instance traced_laws `{!ChannelLaws T} : ChannelLaws (traced T).
Proof.
  refine {| ch_valid t := ch_valid (inner t); ch_size t := ch_size (inner t) |}; intros; simpl in *.
  - pose proof (ch_poll_valid (inner t)). destruct (ch_poll (inner t)); simpl in *; tauto.
  - pose proof (ch_poll_size (inner t)). destruct (ch_poll (inner t)); simpl in *; tauto. 
  - pose proof (ch_read_valid (inner t)). destruct (ch_read_message (inner t)); simpl in *; tauto.
  - pose proof (ch_read_size (inner t)). by destruct (ch_read_message (inner t)).
  - pose proof (ch_write_valid v m (inner t)). destruct (ch_write v m (inner t)); simpl in *; tauto.
  - pose proof (ch_write_size v m (inner t)). by destruct (ch_write v m (inner t)).
  - pose proof (ch_timeout_valid d (inner t)). destruct (ch_set_read_timeout d (inner t)); simpl in *; tauto.
  - pose proof (ch_timeout_size d (inner t)). by destruct (ch_set_read_timeout d (inner t)).
Defined.

(** ** [BegunSuccessor::announce_and_bind] *)

(** [lock] is owned: when [announce_ready] fails it is dropped. *)
Definition announce_and_bind (sun_path_size pid seq : Z) (a : BindAnswers) (pidfile_removed : bool)
    (bg : BegunSuccessor) (snapshot : ReadinessSnapshot) (socket_path : string) (lock : DataDirLock)
    : prog (T * (LockDir * Names)) Error Bind.Incumbent := λ '(t, (d, n)),
  match announce_ready bg snapshot t with
  | (Ok _, t) =>
      let '(r, dn) := bind_after_ready sun_path_size pid seq a pidfile_removed socket_path lock (d, n) in
      (r, (t, dn))
  | (Err (Raise e), t) => (Err (Raise e), (t, (drop_lock pidfile_removed d, n)))
  | (Err e, t) => (Err e, (t, (d, n)))
  end.
End traced.

(** ** The program's world, and what others decide *)
Record PEnv (T C : Type) : Type := mkPEnv {
  e_crash_points : bool;
  e_euid : Z;
  e_sun_path_size : Z;
  e_seq : Z;
  e_bind : BindAnswers;
  e_fs : nat → FsAnswers;
  e_others : nat → LockDir → LockDir;
  e_removed : nat → bool;
  e_delay : nat → Z;
  e_heartbeats : nat → nat;
  e_unix_ms : Z → Z;
  e_show_error : Error → string;
  e_show_id : HandoffId → string;
  e_write_timeout : result IoError unit;
  e_open_stream : Z → T;
  e_accepts : list (result IoError (Connection T));
  e_consumer : C
}.
Arguments e_crash_points {T C}. Arguments e_euid {T C}. Arguments e_sun_path_size {T C}.
Arguments e_seq {T C}. Arguments e_bind {T C}. Arguments e_fs {T C}. Arguments e_others {T C}.
Arguments e_removed {T C}. Arguments e_delay {T C}. Arguments e_heartbeats {T C}.
Arguments e_unix_ms {T C}. Arguments e_show_error {T C}. Arguments e_show_id {T C}.
Arguments e_write_timeout {T C}. Arguments e_open_stream {T C}. Arguments e_accepts {T C}.
Arguments e_consumer {T C}. Arguments mkPEnv {T C}.

(** [p_served] is the trace of [serve] once it ran. *)
Record PWorld (T : Type) : Type := mkPWorld {
  p_proc : Process;
  p_chan : traced T;
  p_dir : LockDir;
  p_names : Names;
  p_markers : list (string * string);
  p_clock : Z;
  p_calls : nat;
  p_served : list event
}.
Arguments mkPWorld {T}. Arguments p_proc {T}. Arguments p_chan {T}. Arguments p_dir {T}.
Arguments p_names {T}. Arguments p_markers {T}. Arguments p_clock {T}. Arguments p_calls {T}.
Arguments p_served {T}.

Module primitive_points.
Definition O_INSIDE_DRAIN : string := "o-inside-drain".
Definition O_INSIDE_SEAL : string := "o-inside-seal".
Definition N_BEFORE_HANDSHAKE : string := "n-before-handshake".
Definition N_AFTER_HANDSHAKE : string := "n-after-handshake".
Definition N_AFTER_BEGIN : string := "n-after-begin".
Definition N_BEFORE_ANNOUNCE_READY : string := "n-before-announce-ready".
End primitive_points.

Section primitive.
Context {T C : Type} `{ControlChannel T} `{Drainable C} `{!ChannelLaws T} (env : PEnv T C).
Abbreviation world := (PWorld T).
Abbreviation M := (prog world string).
Implicit Types w : world.

Definition set_proc p w : world :=
  mkPWorld p (p_chan w) (p_dir w) (p_names w) (p_markers w) (p_clock w) (p_calls w) (p_served w).
Definition set_chan t w : world :=
  mkPWorld (p_proc w) t (p_dir w) (p_names w) (p_markers w) (p_clock w) (p_calls w) (p_served w).
Definition set_files d n w : world :=
  mkPWorld (p_proc w) (p_chan w) d n (p_markers w) (p_clock w) (p_calls w) (p_served w).
Definition pmark (path text : string) w : world :=
  mkPWorld (p_proc w) (p_chan w) (p_dir w) (p_names w) (p_markers w ++ [(path, text)]) (p_clock w)
    (p_calls w) (p_served w).
Definition ppass (d : Z) w : world :=
  mkPWorld (p_proc w) (p_chan w) (p_dir w) (p_names w) (p_markers w) (p_clock w + d) (S (p_calls w))
    (p_served w).
Definition logged (e : nevent) w : world := set_chan (note [e] (p_chan w)) w.

Definition me w : Z := pid (p_proc w).
Definition env_var (name : string) w : option string := var name (p_proc w).

(** [env_path] *)
Definition env_path (key : string) w : string := default ""%string (env_var key w).

(** [anyhow]'s [Context]: [Display] shows the context alone. *)
Definition with_context {A} (ctx : string) (r : result (exn Error) A) : result (exn string) A :=
  match r with
  | Ok a => Ok a
  | Err (Raise _) => Err (Raise ctx)
  | Err (Exit code) => Err (Exit code)
  | Err Stuck => Err Stuck
  end.

Definition crash_env w : CrashEnv :=
  mkCrashEnv (e_crash_points env) (env_var "HANDOFF_CRASH_AT" w) (env_var "HANDOFF_CRASH_MARKER_DIR" w)
    (env_var "HANDOFF_CRASH_ROLE" w).
Definition crash_here (point : string) : M unit := λ w, maybe_crash (crash_env w) pmark point w.

Definition write_marker_text (name text : string) : M unit :=
  modify (λ w, match env_var "HANDOFF_MARKER_DIR" w with
               | Some dir => pmark (path_join dir (name +:+ ".marker")%string) text w
               | None => w
               end).
Definition write_marker (name : string) : M unit := write_marker_text name name.
Definition write_marker_pid (name : string) (pid : Z) : M unit := write_marker_text name (show_Z pid).

Definition on_chan {A} (ctx : string) (m : prog (traced T) Error A) : M A := λ w,
  let '(r, t) := m (p_chan w) in (with_context ctx r, set_chan t w).

(** [DataDirLock::acquire]; before it runs, other processes have changed the
    directory. *)
Definition acquire_lock (ctx data_dir : string) : M DataDirLock := λ w,
  let n := p_calls w in
  let '(r, d) := Lock.acquire (e_fs env n) (me w) data_dir (e_others env n (p_dir w)) in
  let w := set_files d (p_names w) (ppass (e_delay env n) w) in
  (with_context ctx r, match r with Ok _ => logged NvLock w | Err _ => w end).

(** *** Serving *)
Definition serve_env (i : Bind.Incumbent) w : Env :=
  mkEnv (me w) (inc_data_dir i) (inc_build_id i) (e_euid env) (e_fs env) (e_others env) (e_removed env)
    (e_delay env) (e_heartbeats env) (e_unix_ms env) (e_show_error env) (crash_env w).

(** The successor's control stream is closed by now; [serve] takes its streams
    from [accept]. *)
Definition serve_world (i : Bind.Incumbent) w : World T C :=
  mkWorld (inc_lock i) (p_dir w) (e_consumer env) (inner (p_chan w)) SessionState_default (p_clock w)
    (p_calls w) [] [].

Definition call_serve (ctx : string) (i : Bind.Incumbent) : M served := λ w,
  let '(r, ow) := serve (serve_env i w) (e_accepts env) (serve_world i w) in
  let w := logged NvServe w in
  let w := mkPWorld (p_proc w) (p_chan w) (fs ow) (p_names w) (p_markers w ++ markers ow) (clock ow)
             (calls ow) (trace ow) in
  (match with_context ctx r with
   | Ok (Returned (Err _)) => Err (Raise ctx)
   | r => r
   end, w).

(** *** The roles *)
Definition bind_here (ctx control_socket : string) (lock : DataDirLock) : M Bind.Incumbent := λ w,
  let n := p_calls w in
  let '(r, (d, ns)) := bind_cold_start (e_sun_path_size env) (me w) (e_seq env) (e_bind env)
                         (e_removed env n) control_socket lock (p_dir w, p_names w) in
  (with_context ctx r, logged (if is_ok r then NvBind else NvUnlock) (set_files d ns (ppass 0 w))).

Definition announce_here (ctx : string) (bg : BegunSuccessor) (snapshot : ReadinessSnapshot)
    (control_socket : string) (lock : DataDirLock) : M Bind.Incumbent := λ w,
  let n := p_calls w in
  let '(r, (t, (d, ns))) :=
    announce_and_bind (e_sun_path_size env) (me w) (e_seq env) (e_bind env) (e_removed env n)
      bg snapshot control_socket lock (p_chan w, (p_dir w, p_names w)) in
  (with_context ctx r,
   logged (if is_ok r then NvBind else NvUnlock) (set_files d ns (ppass 0 (set_chan t w)))).

Definition run_cold_start (data_dir control_socket : string) : M served :=
  lock ← acquire_lock "acquire flock" data_dir;
  incumbent ← bind_here "bind control socket" control_socket lock;
  own_pid ← gets me;
  _ ← write_marker_pid "incumbent-pid" own_pid;
  _ ← write_marker "serving";
  call_serve "serve" incumbent.

(** [HANDOFF_READY_DELAY_MS] *)
Definition ready_delay : M unit :=
  modify (λ w, match env_var "HANDOFF_READY_DELAY_MS" w ≫= parse_unsigned (Z.to_N u64_max) with
               | Some ms => if decide (0 < ms)%N then ppass (Z.of_N ms) w else w
               | None => w
               end).

Definition test_build_id : list byte := String.list_byte_of_string "handoff-test".

Definition run_successor (succ : Successor) (data_dir control_socket : string) : M served :=
  own_pid ← gets me;
  _ ← write_marker_pid "successor-pid" own_pid;
  _ ← crash_here primitive_points.N_BEFORE_HANDSHAKE;
  hs ← on_chan "handshake" (handshake own_pid test_build_id (inherited succ));
  _ ← write_marker "successor-handshake";
  _ ← crash_here primitive_points.N_AFTER_HANDSHAKE;
  fuel ← gets (λ w, S (ch_size (p_chan w)));
  bg ← on_chan "wait_for_begin" (wait_for_begin (e_show_id env) fuel hs);
  _ ← write_marker "successor-begin";
  _ ← crash_here primitive_points.N_AFTER_BEGIN;
  lock ← acquire_lock "successor acquire flock" data_dir;
  _ ← crash_here primitive_points.N_BEFORE_ANNOUNCE_READY;
  _ ← ready_delay;
  incumbent ← announce_here "announce_and_bind" bg (mkReadiness [] true [43]) control_socket lock;
  _ ← write_marker "successor-ready";
  call_serve "successor serve" incumbent.

Definition on_proc {A} (ctx : string) (m : roleM A) : M A := λ w,
  let '(r, p) := m (p_proc w) in (with_context ctx r, set_proc p w).

Definition main : M served :=
  data_dir ← gets (env_path "HANDOFF_DATA_DIR");
  control_socket ← gets (env_path "HANDOFF_CONTROL_SOCKET");
  role ← on_proc "detect_role" (detect_role (e_write_timeout env));
  match role with
  | ColdStart _ => run_cold_start data_dir control_socket
  | AsSuccessor succ =>
      _ ← modify (set_chan (mkTraced (e_open_stream env (control_fd succ)) []));
      run_successor succ data_dir control_socket
  end.
End primitive.
