(* ===== verification/PrimitiveSafety.v ===== *)
(** * What a successor promises

    The order in which a spawned primitive is greeted, told to begin, takes
    the flock, says [Ready], binds and serves, as an automaton over its log,
    and the proof that every run of [run_successor] follows it and says the
    truth about the flock. *)
From stdpp Require Import base tactics option list numbers strings gmap.
From S2P Require Import Prelude Contract Errors Protocol Sock Frame Fd Lock Channel Role Crash Incumbent IncumbentSafety IncumbentAsked Bind Primitive.
Local Open Scope Z_scope.

(** ** The contract automaton *)
Inductive nstate : Type :=
| NIdle | NGreeted
| NShook (id : HandoffId) | NTold (id : HandoffId) | NHeld (id : HandoffId)
| NSaid (id : HandoffId) (ok : bool) | NBound (id : HandoffId) | NServing (id : HandoffId)
| NGone.
#[export] Instance nstate_eq_dec : EqDecision nstate.
Proof. solve_decision. Defined.

(** [None] is a breach. *)
Definition nstep (s : nstate) (e : nevent) : option nstate :=
  match s, e with
  | NIdle, NvSend (Hello Protocol.Successor _ _ _ _ _) _ => Some NGreeted
  | NGreeted, NvRecv (HelloAck _ id) => Some (NShook id)
  | NGreeted, NvRecv _ => Some NGreeted
  | NShook id, NvRecv (Begin i) => Some (if decide (i = id) then NTold id else NShook id)
  | NShook id, NvRecv _ => Some (NShook id)
  | NTold id, NvLock => Some (NHeld id)
  | NHeld id, NvSend (Ready i _ _ _) ok => if decide (i = id) then Some (NSaid id ok) else None
  | NSaid id _, NvUnlock => Some NGone
  | NSaid id true, NvBind => Some (NBound id)
  | NBound id, NvServe => Some (NServing id)
  | _, _ => None
  end.

Abbreviation nruns := (runs nstep).

Definition n_holds (s : nstate) : bool :=
  match s with NHeld _ | NSaid _ _ | NBound _ | NServing _ => true | _ => false end.

Section safety.
Context {T C : Type} `{ControlChannel T} `{Drainable C} `{!ChannelLaws T} (env : PEnv T C).
Abbreviation world := (PWorld T).
Implicit Types w : world.
Context (pid0 : Z).

(** [at_ w s]: the log has led to [s], and [s] tells the truth about the
    flock. *)
Definition at_ w (s : nstate) : Prop :=
  nruns NIdle (log (p_chan w)) = Some s ∧ me w = pid0 ∧
  (n_holds s = true ↔ flock_holder (p_dir w) = Some pid0).

(** What [serve] did, if it ran, keeps the incumbent's contracts. *)
Definition served_ok w : Prop :=
  is_Some (runs contract_step contract_start (p_served w)) ∧ is_Some (asking false (p_served w)).

Definition no_flock w : Prop :=
  ∃ s, nruns NIdle (log (p_chan w)) = Some s ∧ me w = pid0 ∧ flock_holder (p_dir w) ≠ Some pid0 ∧
       served_ok w.
Definition logs w : Prop := is_Some (nruns NIdle (log (p_chan w))) ∧ served_ok w.

Abbreviation post := (Contract.post (λ code w, code = 99 ∧ logs w)).

Lemma not_served w : p_served w = [] → served_ok w.
Proof. unfold served_ok. intros ->. by split; eexists. Qed.

(** The binding world is as it was, and [serve] did not run. *)
Definition same_names w0 w : Prop := p_names w = p_names w0 ∧ p_served w = [].

(** *** Commands that leave the log and the flock alone *)
Lemma marker_spec name text w s w0 :
  at_ w s → same_names w0 w →
  wp (write_marker_text name text) (post (λ _ w', at_ w' s ∧ same_names w0 w') no_flock) w.
Proof. intros Hs Hn. unfold wp. simpl. by destruct (env_var _ w). Qed.

Lemma crash_spec point w s w0 :
  at_ w s → same_names w0 w →
  wp (crash_here env point) (post (λ _ w', at_ w' s ∧ same_names w0 w') no_flock) w.
Proof.
  intros Hs Hn. unfold wp, crash_here.
  destruct (maybe_crash_run (E := string) (crash_env env w) pmark point w)
    as [->|(w' & -> & _ & Hw')]; simpl; [done|].
  split; [done|]. destruct Hs as (Hs & _), Hn as [_ Hn].
  destruct Hw' as [->|[path ->]]; (split; [by exists s|by apply not_served]).
Qed.

Lemma delay_spec w s w0 :
  at_ w s → same_names w0 w → wp ready_delay (post (λ _ w', at_ w' s ∧ same_names w0 w') no_flock) w.
Proof. intros Hs Hn. unfold wp. simpl. by repeat case_match. Qed.

(** *** The stream *)
Lemma traced_write v m (t : traced T) :
  ∃ r i, ch_write v m t = (r, mkTraced i (log t ++ [NvSend m (is_ok r)])).
Proof. simpl. destruct (ch_write v m (inner t)); eauto. Qed.

Lemma traced_read (t : traced T) :
  ∃ r i, ch_read_message t = (r, mkTraced i (log t ++ heard (Some <$> r))) ∧
    (is_ok r = true → (ch_size i < ch_size (inner t))%nat).
Proof.
  simpl. pose proof (ch_read_size (inner t)) as Hn. destruct (ch_read_message (inner t)) as [r i].
  exists r, i. split; [done|]. intros Hr. simpl in Hn. by rewrite Hr in Hn.
Qed.

Lemma handshake_log own_pid b l (t : traced T) :
  nruns NIdle (log t) = Some NIdle →
  let '(r, t') := handshake own_pid b l t in
  match r with
  | Ok hs => nruns NIdle (log t') = Some (NShook (hs_handoff_id hs))
  | Err (Raise _) => ∃ s, nruns NIdle (log t') = Some s ∧ n_holds s = false
  | Err _ => False
  end.
Proof.
  intros Ht. unfold handshake, mbind, prog_bind, write_frame_to, read_message_from, lift.
  destruct (traced_write PROTO_MAX (Hello Protocol.Successor own_pid b PROTO_MIN PROTO_MAX
    Capabilities_default) t) as (r & i & -> ).
  set (t1 := mkTraced i _).
  assert (nruns NIdle (log t1) = Some NGreeted) as H1 by (unfold t1; simpl; by rewrite (runs_emit _ _ _ _ Ht)).
  destruct r as [[]|e]; [|by exists NGreeted].
  destruct (traced_read t1) as (r & i2 & -> & _). destruct r as [[v m]|e]; simpl.
  2:{ exists NGreeted. by rewrite app_nil_r. }
  destruct m; simpl; rewrite (runs_emit _ _ _ _ H1); simpl; eauto.
Qed.

Lemma begin_log show fuel hs (t : traced T) :
  nruns NIdle (log t) = Some (NShook (hs_handoff_id hs)) → (ch_size (inner t) < fuel)%nat →
  let '(r, t') := wait_for_begin show fuel hs t in
  match r with
  | Ok bg => bg_handoff_id bg = hs_handoff_id hs ∧ nruns NIdle (log t') = Some (NTold (hs_handoff_id hs))
  | Err (Raise _) => ∃ s, nruns NIdle (log t') = Some s ∧ n_holds s = false
  | Err _ => False
  end.
Proof.
  revert t. induction fuel as [|fuel IH]; intros t Ht Hf; [lia|]. simpl.
  unfold mbind, prog_bind, read_message_from, lift.
  destruct (traced_read t) as (r & i & -> & Hsize). destruct r as [[v m]|e].
  2:{ exists (NShook (hs_handoff_id hs)). simpl. by rewrite app_nil_r. }
  specialize (Hsize eq_refl). cbn [heard fmap result_fmap].
  destruct m; simpl; try (rewrite (runs_emit _ _ _ _ Ht); simpl; by eauto).
  - case_decide as Hid.
    + simpl. split; [done|]. rewrite (runs_emit _ _ _ _ Ht). simpl. by rewrite decide_True.
    + simpl. rewrite (runs_emit _ _ _ _ Ht). simpl. rewrite decide_False by done. eauto.
  - apply IH; simpl; [by rewrite (runs_emit _ _ _ _ Ht)|lia].
Qed.

Lemma ready_log bg snapshot (t : traced T) :
  nruns NIdle (log t) = Some (NHeld (bg_handoff_id bg)) →
  let '(r, t') := announce_ready bg snapshot t in
  match r with
  | Ok _ => nruns NIdle (log t') = Some (NSaid (bg_handoff_id bg) true)
  | Err (Raise _) => nruns NIdle (log t') = Some (NSaid (bg_handoff_id bg) false)
  | Err _ => False
  end.
Proof.
  intros Ht. unfold announce_ready, write_frame_to, lift.
  destruct (traced_write (bg_proto_version bg) (Ready (bg_handoff_id bg) (listening_on snapshot)
    (healthz_ok snapshot) (advertised_revision_per_shard snapshot)) t) as (r & i & ->).
  destruct r as [[]|e]; simpl; rewrite (runs_emit _ _ _ _ Ht); simpl; by rewrite decide_True.
Qed.

(** A step of the protocol before the lock. *)
Lemma on_chan_spec {A} ctx (m : prog (traced T) Error A) w s w0 (Q : A → nstate → Prop) :
  at_ w s → n_holds s = false → same_names w0 w →
  (let '(r, t') := m (p_chan w) in
   match r with
   | Ok a => ∃ s', nruns NIdle (log t') = Some s' ∧ n_holds s' = false ∧ Q a s'
   | Err (Raise _) => ∃ s', nruns NIdle (log t') = Some s' ∧ n_holds s' = false
   | Err _ => False
   end) →
  wp (on_chan ctx m) (post (λ a w', ∃ s', at_ w' s' ∧ Q a s' ∧ same_names w0 w') no_flock) w.
Proof.
  intros (Hs & Hm & Hf) Hn Hw Hr. unfold wp, on_chan. destruct (m (p_chan w)) as [r t'].
  rewrite Hn in Hf. destruct r as [a|[e|x|]]; simpl; [| |done|done].
  - destruct Hr as (s' & Hs' & Hn' & HQ). exists s'. split; [|done]. split; [done|]. split; [done|].
    by rewrite Hn'.
  - destruct Hr as (s' & Hs' & Hn'). exists s'. split; [done|]. split; [done|]. simpl.
    split; [intros Hh; by apply Hf in Hh|]. apply not_served, Hw.
Qed.

(** *** The lock, the socket, the service *)
Definition fair : Prop :=
  ∀ n d, flock_holder (e_others env n d) = Some pid0 ↔ flock_holder d = Some pid0.

Lemma acquire_lock_spec ctx dir id w w0 :
  fair → at_ w (NTold id) → same_names w0 w →
  wp (acquire_lock env ctx dir) (post (λ _ w', at_ w' (NHeld id) ∧ same_names w0 w') no_flock) w.
Proof.
  intros Hfair (Hs & Hm & Hf) Hn. unfold wp, acquire_lock. rewrite Hm.
  pose proof (acquire_spec (e_fs env (p_calls w)) pid0 dir (e_others env (p_calls w) (p_dir w))) as Ha.
  destruct (Lock.acquire _ _ _ _) as [[g|[e|x|]] d]; simpl; [| |done|done].
  - destruct Ha as (_ & _ & Hd & _). split; [|done]. split; [|split; [done|]].
    + simpl. by rewrite (runs_emit _ _ _ _ Hs).
    + simpl. by rewrite Hd.
  - destruct Ha as [Hd _]. exists (NTold id). split; [done|]. split; [done|]. simpl.
    rewrite Hd, (Hfair _ _), <- Hf. split; [done|]. apply not_served, Hn.
Qed.

Definition bindable (control_socket : string) w : Prop :=
  staging_path pid0 (e_seq env) control_socket ≠ control_socket ∧
  fdtab (bind_kernel (p_names w)) !! new_fd (e_bind env) = None.

Lemma announce_spec ctx bg snapshot socket lock w w0 :
  bindable socket w0 → at_ w (NHeld (bg_handoff_id bg)) → same_names w0 w →
  wp (announce_here env ctx bg snapshot socket lock)
    (post (λ i w', at_ w' (NBound (bg_handoff_id bg)) ∧ inc_lock i = Some lock ∧ p_served w' = []) no_flock) w.
Proof.
  intros [Hap Hfresh] (Hs & Hm & Hf) [Hn Hsv]. unfold wp, announce_here, announce_and_bind. rewrite Hm.
  pose proof (ready_log bg snapshot (p_chan w) Hs) as Hr.
  destruct (announce_ready bg snapshot (p_chan w)) as [[[]|[e|x|]] t]; [|simpl|done|done].
  - rewrite <- Hn in Hfresh.
    pose proof (bind_replacing_run (e_sun_path_size env) pid0 (e_seq env) (e_bind env)
      (e_removed env (p_calls w)) socket lock (p_dir w) (p_names w) Hap Hfresh) as Hb.
    unfold bind_after_ready.
    destruct (bind_replacing _ _ _ _ _ _ _ _) as [[i|[e|x|]] [d ns]]; simpl; [| |done|done].
    + destruct Hb as (-> & Hl & _). split; [|by split]. split; [|by split].
      simpl. by rewrite (runs_emit _ _ _ _ Hr).
    + destruct Hb as [Hd _]. exists NGone. simpl. rewrite (runs_emit _ _ _ _ Hr), Hd.
      split_and!; try done. by apply not_served.
  - exists NGone. simpl. rewrite (runs_emit _ _ _ _ Hr). split_and!; try done. by apply not_served.
Qed.

(** [serve] has returned, or waits in [accept]; [served_by] is its trace. *)
Definition primitive_post (id : HandoffId) (o : served) w : Prop :=
  nruns NIdle (log (p_chan w)) = Some (NServing id) ∧ me w = pid0 ∧ served_ok w ∧
  match o with
  | Accepting => flock_holder (p_dir w) = Some pid0
  | Returned _ => flock_holder (p_dir w) ≠ Some pid0
  end.

(** [serve], started with the flock: how it ends, whatever came before. *)
Definition served_flock (r : result (exn string) served) w : Prop :=
  match r with
  | Ok Accepting => flock_holder (p_dir w) = Some pid0
  | Ok (Returned _) | Err (Raise _) => flock_holder (p_dir w) ≠ Some pid0
  | Err (Exit code) => code = 99
  | Err Stuck => False
  end.

Lemma call_serve_run ctx i lock w :
  fair → (∀ n, 0 ≤ e_delay env n) → valid_accepts (e_accepts env) →
  me w = pid0 → flock_holder (p_dir w) = Some pid0 → inc_lock i = Some lock →
  let '(r, w') := call_serve env ctx i w in
  log (p_chan w') = log (p_chan w) ++ [NvServe] ∧ me w' = pid0 ∧ served_ok w' ∧ served_flock r w'.
Proof.
  intros Hfair Htime Hacc Hm Hf Hi. unfold call_serve.
  pose proof (serve_spec (serve_env env i w) (e_accepts env) (serve_world env i w)) as Hserve.
  unfold wp in Hserve. destruct (serve _ _ _) as [r ow] eqn:Heq.
  assert (others_fair (serve_env env i w)) as Hof by (intros n d; simpl; rewrite Hm; apply Hfair).
  assert (starts_with_lock (serve_env env i w) (serve_world env i w)) as Hst.
  { split; [simpl; rewrite Hi; by eexists|]. split; [|done]. simpl. by rewrite Hm. }
  split; [done|]. split; [done|]. split.
  { destruct (serve_runs _ _ _ Hof Htime Hacc Hst) as (c & Hc & _).
    pose proof (serve_asked (serve_env env i w) (e_accepts env) (serve_world env i w) eq_refl) as Hb.
    rewrite Heq in Hc, Hb. split; [by exists c|exact Hb]. }
  specialize (Hserve Hof Htime Hacc Hst).
  assert (∀ c, linked (serve_env env i w) ow c →
    (locked c = true ↔ flock_holder (fs ow) = Some pid0)) as Hflock.
  { intros c (_ & _ & Hc). simpl in Hc. by rewrite Hm in Hc. }
  destruct r as [[r|]|[e|x|]]; simpl in *; try done.
  - destruct Hserve as (c & Hc & _ & Hlk & _).
    assert (flock_holder (fs ow) ≠ Some pid0) as Hno by (intros Hh; apply (Hflock c Hc) in Hh; congruence).
    by destruct r.
  - by apply (Hflock _ Hserve).
  - by destruct Hserve.
Qed.

Lemma call_serve_spec ctx i lock id w :
  fair → (∀ n, 0 ≤ e_delay env n) → valid_accepts (e_accepts env) →
  at_ w (NBound id) → inc_lock i = Some lock →
  wp (call_serve env ctx i) (post (primitive_post id) no_flock) w.
Proof.
  intros Hfair Htime Hacc (Hs & Hm & Hf) Hi. unfold wp.
  pose proof (call_serve_run ctx i lock w Hfair Htime Hacc Hm (proj1 Hf eq_refl) Hi) as Hrun.
  destruct (call_serve env ctx i w) as [r w']. destruct Hrun as (Hl & Hm' & Hok & Hr).
  assert (nruns NIdle (log (p_chan w')) = Some (NServing id)) as Hl'
    by (by rewrite Hl, (runs_emit _ _ _ _ Hs)).
  destruct r as [[|]|[e|x|]]; simpl in *; try done.
  by eexists.
Qed.

(** *** The whole run *)
Lemma on_chan_begin_spec ctx fuel hs w w0 :
  at_ w (NShook (hs_handoff_id hs)) → same_names w0 w → (ch_size (inner (p_chan w)) < fuel)%nat →
  wp (on_chan ctx (wait_for_begin (e_show_id env) fuel hs))
    (post (λ bg w', at_ w' (NTold (bg_handoff_id bg)) ∧ same_names w0 w') no_flock) w.
Proof.
  intros Hs Hn Hf.
  eapply wp_post_mono; [apply (on_chan_spec _ _ _ _ w0 (λ bg s, s = NTold (bg_handoff_id bg)) Hs eq_refl Hn)|..].
  - pose proof (begin_log (e_show_id env) fuel hs (p_chan w) (proj1 Hs) Hf) as Hb.
    destruct (wait_for_begin _ _ _ _) as [[bg|[e|x|]] t']; try done.
    destruct Hb as [Hid Hb]. eexists. rewrite Hid. eauto.
  - intros bg w' (s' & Hs' & -> & Hn'). done.
  - done.
Qed.

Lemma run_successor_spec succ dir socket w :
  fair → (∀ n, 0 ≤ e_delay env n) → valid_accepts (e_accepts env) → bindable socket w →
  at_ w NIdle → p_served w = [] →
  wp (run_successor env succ dir socket) (post (λ o w', ∃ id, primitive_post id o w') no_flock) w.
Proof.
  intros Hfair Htime Hacc Hbind Hat Hsv. unfold run_successor.
  eapply wp_post_bind; [by apply (wp_post_gets _ (λ n w', w' = w))|]. cbn beta. intros n _ ->.
  eapply wp_post_bind; [by apply (marker_spec _ _ w NIdle w)|]. cbn beta. intros _ w1 [H1 Hn1].
  eapply wp_post_bind; [by apply crash_spec|]. cbn beta. intros _ w2 [H2 Hn2].
  eapply wp_post_bind.
  { apply (on_chan_spec _ _ _ _ w (λ hs s, s = NShook (hs_handoff_id hs)) H2 eq_refl Hn2).
    pose proof (handshake_log n test_build_id (inherited succ) (p_chan w2) (proj1 H2)) as Hh.
    destruct (handshake _ _ _ _) as [[hs|[e|x|]] t']; eauto. }
  cbn beta. intros hs w3 (s3 & H3 & -> & Hn3).
  eapply wp_post_bind; [by apply marker_spec|]. cbn beta. intros _ w4 [H4 Hn4].
  eapply wp_post_bind; [by apply crash_spec|]. cbn beta. intros _ w5 [H5 Hn5].
  eapply wp_post_bind with (Q1 := λ n w', n = S (ch_size (p_chan w5)) ∧ w' = w5);
    [by apply wp_post_gets|]. cbn beta. intros fuel _ [-> ->].
  eapply wp_post_bind; [apply on_chan_begin_spec; [done|exact Hn5|simpl; lia]|].
  cbn beta. intros bg w6 [H6 Hn6].
  eapply wp_post_bind; [by apply marker_spec|]. cbn beta. intros _ w7 [H7 Hn7].
  eapply wp_post_bind; [by apply crash_spec|]. cbn beta. intros _ w8 [H8 Hn8].
  eapply wp_post_bind; [by eapply acquire_lock_spec|]. cbn beta. intros lock w9 [H9 Hn9].
  eapply wp_post_bind; [by apply crash_spec|]. cbn beta. intros _ w10 [H10 Hn10].
  eapply wp_post_bind; [by apply delay_spec|]. cbn beta. intros _ w11 [H11 Hn11].
  eapply wp_post_bind; [by apply (announce_spec _ _ _ _ _ _ w)|]. cbn beta. intros i w12 (H12 & Hi & Hs12).
  eapply wp_post_bind; [by eapply (marker_spec _ _ _ _ w12)|]. cbn beta. intros _ w13 [H13 [_ Hs13]].
  eapply wp_post_mono; [by eapply call_serve_spec| |done]. intros o w' Ho. by eexists.
Qed.

(** Every run, however it ends. *)
Lemma successor_runs succ dir socket w :
  fair → (∀ n, 0 ≤ e_delay env n) → valid_accepts (e_accepts env) → bindable socket w → at_ w NIdle →
  p_served w = [] →
  let w' := (run_successor env succ dir socket w).2 in
  is_Some (nruns NIdle (log (p_chan w'))) ∧ served_ok w'.
Proof.
  intros Hf Ht Ha Hb Hat Hsv. pose proof (run_successor_spec succ dir socket w Hf Ht Ha Hb Hat Hsv) as Hpost.
  unfold wp in Hpost. destruct (run_successor env succ dir socket w) as [[o|[e|x|]] w']; simpl in *; try done.
  - destruct Hpost as (id & Hs & _ & Hok & _). split; [by eexists|exact Hok].
  - destruct Hpost as (s & Hs & _ & _ & Hok). split; [by eexists|exact Hok].
  - by destruct Hpost.
Qed.

(** *** The cold start *)
Definition cold_log (es : list nevent) : Prop :=
  es = [] ∨ es = [NvLock; NvUnlock] ∨ es = [NvLock; NvBind; NvServe].

Lemma acquire_lock_run ctx dir w :
  fair → me w = pid0 →
  let '(r, w') := acquire_lock env ctx dir w in
  me w' = pid0 ∧ p_served w' = p_served w ∧ p_names w' = p_names w ∧
  match r with
  | Ok _ => flock_holder (p_dir w') = Some pid0 ∧ log (p_chan w') = log (p_chan w) ++ [NvLock]
  | Err (Raise _) =>
      (flock_holder (p_dir w') = Some pid0 ↔ flock_holder (p_dir w) = Some pid0) ∧
      log (p_chan w') = log (p_chan w)
  | Err _ => False
  end.
Proof.
  intros Hfair Hm. unfold acquire_lock. rewrite Hm.
  pose proof (acquire_spec (e_fs env (p_calls w)) pid0 dir (e_others env (p_calls w) (p_dir w))) as Ha.
  destruct (Lock.acquire _ _ _ _) as [[g|[e|x|]] d]; try done.
  - destruct Ha as (_ & _ & Hd & _). by split_and!.
  - destruct Ha as [Hd _]. split_and!; try done. simpl. by rewrite Hd.
Qed.

Lemma bind_here_run ctx socket lock w :
  bindable socket w → me w = pid0 →
  let '(r, w') := bind_here env ctx socket lock w in
  me w' = pid0 ∧ p_served w' = p_served w ∧
  match r with
  | Ok i => inc_lock i = Some lock ∧ p_dir w' = p_dir w ∧ log (p_chan w') = log (p_chan w) ++ [NvBind]
  | Err (Raise _) =>
      flock_holder (p_dir w') = None ∧ log (p_chan w') = log (p_chan w) ++ [NvUnlock]
  | Err _ => False
  end.
Proof.
  intros [Hap Hfresh] Hm. unfold bind_here. rewrite Hm.
  pose proof (bind_replacing_run (e_sun_path_size env) pid0 (e_seq env) (e_bind env)
    (e_removed env (p_calls w)) socket lock (p_dir w) (p_names w) Hap Hfresh) as Hb. unfold bind_cold_start.
  destruct (bind_replacing _ _ _ _ _ _ _ _) as [[i|[e|x|]] [d ns]]; try done.
  - destruct Hb as (-> & Hi & _). by split_and!.
  - destruct Hb as [Hd _]. by split_and!.
Qed.

Lemma markers_run (m : prog world string unit) name text w :
  m = write_marker_text name text →
  ∃ w', m w = (Ok tt, w') ∧ me w' = me w ∧ p_served w' = p_served w ∧ p_dir w' = p_dir w ∧
        p_chan w' = p_chan w.
Proof. intros ->. unfold write_marker_text, modify. by destruct (env_var _ w); eexists. Qed.

Lemma run_cold_start_run dir socket w :
  fair → (∀ n, 0 ≤ e_delay env n) → valid_accepts (e_accepts env) → bindable socket w →
  me w = pid0 → log (p_chan w) = [] → p_served w = [] → flock_holder (p_dir w) ≠ Some pid0 →
  let '(r, w') := run_cold_start env dir socket w in
  cold_log (log (p_chan w')) ∧ served_ok w' ∧ served_flock r w' ∧
  (is_ok r = true → log (p_chan w') = [NvLock; NvBind; NvServe]).
Proof.
  intros Hfair Htime Hacc Hbind Hm Hl Hsv Hno. unfold run_cold_start, mbind, prog_bind, gets.
  pose proof (acquire_lock_run "acquire flock" dir w Hfair Hm) as Ha.
  destruct (acquire_lock env "acquire flock" dir w) as [r1 w1]. destruct Ha as (Hm1 & Hs1 & Hn1 & Ha).
  rewrite Hsv in Hs1. rewrite Hl in Ha. destruct r1 as [g|[e|x|]]; try done.
  2:{ destruct Ha as [Hf Hl1]. unfold cold_log, served_flock. rewrite Hl1, Hf.
      split_and!; auto; [by apply not_served|done]. }
  destruct Ha as [Hf1 Hl1]. assert (bindable socket w1) as Hb1 by (unfold bindable; by rewrite Hn1).
  pose proof (bind_here_run "bind control socket" socket g w1 Hb1 Hm1) as Hb.
  destruct (bind_here env "bind control socket" socket g w1) as [r2 w2]. destruct Hb as (Hm2 & Hs2 & Hb).
  rewrite Hs1 in Hs2. rewrite Hl1 in Hb. destruct r2 as [i|[e|x|]]; try done.
  2:{ destruct Hb as [Hf Hl2]. unfold cold_log, served_flock. rewrite Hl2, Hf.
      split_and!; auto; [by apply not_served|done]. }
  destruct Hb as (Hi & Hd2 & Hl2).
  edestruct (markers_run (write_marker_pid "incumbent-pid" (me w2)) _ _ w2 eq_refl) as (w3 & -> & Hm3 & Hs3 & Hd3 & Hc3).
  edestruct (markers_run (write_marker "serving") _ _ w3 eq_refl) as (w4 & -> & Hm4 & Hs4 & Hd4 & Hc4).
  assert (flock_holder (p_dir w4) = Some pid0) as Hf4 by (by rewrite Hd4, Hd3, Hd2).
  pose proof (call_serve_run "serve" i g w4 Hfair Htime Hacc ltac:(congruence) Hf4 Hi) as Hrun.
  destruct (call_serve env "serve" i w4) as [r w']. rewrite Hc4, Hc3, Hl2 in Hrun.
  destruct Hrun as (Hl' & _ & Hok & Hr). rewrite Hl'. unfold cold_log. auto.
Qed.
End safety.

(** ** A primitive to run *)
Module PrimitiveDemo.
Definition id1 : HandoffId := mkHandoffId 1.
Definition env (accepts : list (result IoError (Connection Script.script))) : PEnv Script.script Demo.app :=
  mkPEnv false 1000 108 0 BindDemo.answers (λ _, fs_ok) (λ _ d, d) (λ _, true) (λ _, 1) (λ _, 1%nat)
    (λ t, t) (λ _, "seal failed"%string) (λ _, "id"%string) (Ok tt) (λ _, Script.says [])
    accepts (Demo.mkApp true [] []).
Definition proc : Process := mkProcess 77 {[ "HANDOFF_MARKER_DIR"%string := "/m"%string ]} (mkKernel ∅ ∅ 64).
Definition start (ms : list Message) : PWorld Script.script :=
  mkPWorld proc (mkTraced (Script.says ms) []) (mkLockDir None None ∅) BindDemo.start [] 0 0 [].
Definition succ : Successor := mkSuccessor 3 ∅.
Definition told : list Message := [HelloAck 1 id1; Heartbeat 1; Begin id1].
End PrimitiveDemo.

(** ** Properties *)

(** The supervisor dies after [Begin]: the successor still takes the flock,
    cannot say [Ready], and ends without having served. *)
Example orphaned_successor_gives_up :
  let gone := mkPWorld PrimitiveDemo.proc
    (mkTraced (Script.mkScript ((λ m, Ok (Some m)) <$> PrimitiveDemo.told)
                 [Ok tt; Err (Io (io_from_errno EPIPE))] [] false) [])
    (mkLockDir None None ∅) BindDemo.start [] 0 0 [] in
  let '(r, w') := run_successor (PrimitiveDemo.env []) PrimitiveDemo.succ "/d" "/run/h.sock" gone in
  r = Err (Raise "announce_and_bind"%string) ∧ flock_holder (p_dir w') = None ∧
  NvLock ∈ log (p_chan w').
Proof. vm_compute. split; [reflexivity|]. split; [reflexivity|]. do 4 right. left. Qed.

(** C6: a successor refuses to serve until it has the flock, and takes the
    flock only when it is told to begin.  Every run of [run_successor] greets,
    waits for a [Begin] of the handoff of its [HelloAck], takes the flock, says
    [Ready] for that handoff, binds, and serves, in this order, whatever the
    supervisor sends and whichever write, lock, or bind fails.  When it ends
    with an error before or while it serves, or when [serve] returned, it does
    not have the flock; while it waits in [accept] it does.  A crash point ends
    it with status 99, and it never loops. *)
Theorem successor_serves_with_flock {T C} `{ControlChannel T} `{Drainable C} `{!ChannelLaws T}
    (env : PEnv T C) (succ : Successor) (data_dir control_socket : string) (w : PWorld T) :
  fair env (me w) → (∀ n, 0 ≤ e_delay env n) → valid_accepts (e_accepts env) →
  bindable env (me w) control_socket w →
  log (p_chan w) = [] → p_served w = [] → flock_holder (p_dir w) ≠ Some (me w) →
  let '(r, w') := run_successor env succ data_dir control_socket w in
  ∃ s, nruns NIdle (log (p_chan w')) = Some s ∧
  match r with
  | Ok Accepting => (∃ id, s = NServing id) ∧ flock_holder (p_dir w') = Some (me w)
  | Ok (Returned _) => (∃ id, s = NServing id) ∧ flock_holder (p_dir w') ≠ Some (me w)
  | Err (Raise _) => flock_holder (p_dir w') ≠ Some (me w)
  | Err (Exit code) => code = 99
  | Err Stuck => False
  end.
Proof.
  intros Hfair Htime Hacc Hbind Hlog Hsv Hno.
  assert (at_ (me w) w NIdle) as Hat by (split; [by rewrite Hlog|split; [done|by split]]).
  pose proof (run_successor_spec env (me w) succ data_dir control_socket w Hfair Htime Hacc Hbind Hat Hsv) as Hpost.
  unfold wp in Hpost.
  destruct (run_successor env succ data_dir control_socket w) as [[[r|]|[e|x|]] w']; simpl in Hpost; try done.
  - destruct Hpost as (id & Hs & _ & _ & Hf). eauto.
  - destruct Hpost as (id & Hs & _ & _ & Hf). eauto.
  - destruct Hpost as (s & Hs & _ & Hf & _). eauto.
  - destruct Hpost as (-> & [s Hs] & _). eauto.
Qed.

(** A successor that is told to begin and then waits for connections. *)
Lemma successor_serves_with_flock_witness :
  let '(r, w') := run_successor (PrimitiveDemo.env []) PrimitiveDemo.succ "/d" "/run/h.sock"
                    (PrimitiveDemo.start PrimitiveDemo.told) in
  r = Ok Accepting ∧ flock_holder (p_dir w') = Some 77.
Proof.
  set (w := PrimitiveDemo.start PrimitiveDemo.told). set (e := PrimitiveDemo.env []).
  assert (fair e (me w)) as Hfair by (intros n d; reflexivity).
  assert (∀ n, 0 ≤ e_delay e n) as Htime by (intros n; discriminate).
  assert (valid_accepts (e_accepts e)) as Hacc by constructor.
  assert (bindable e (me w) "/run/h.sock" w) as Hbind by (split; [discriminate|reflexivity]).
  assert (flock_holder (p_dir w) ≠ Some (me w)) as Hno by discriminate.
  pose proof (successor_serves_with_flock e PrimitiveDemo.succ "/d" "/run/h.sock" w
    Hfair Htime Hacc Hbind eq_refl eq_refl Hno) as Hrun.
  assert ((run_successor e PrimitiveDemo.succ "/d" "/run/h.sock" w).1 = Ok Accepting) as Hr
    by (vm_compute; reflexivity).
  destruct (run_successor e PrimitiveDemo.succ "/d" "/run/h.sock" w) as [r w']. simpl in Hr. subst r.
  destruct Hrun as (s & _ & _ & Hf). split; [reflexivity|exact Hf].
Defined.
