(* ===== verification/PrimitiveCommits.v ===== *)
(** * When a successor comes to serve

    [PrimitiveSafety] says in which order a spawned primitive does what it
    does; this file says that it does it all: told to begin while the lock is
    free, it takes it, says [Ready], binds and serves. *)
From stdpp Require Import base tactics option list numbers strings gmap.
From S2P Require Import Prelude Contract Errors Protocol Sock Frame Fd Lock Channel Talking Role Crash Incumbent IncumbentSafety IncumbentAsked Bind Primitive PrimitiveSafety.
Local Open Scope Z_scope.

(** ** The lock and the socket, when the system works *)
Lemma acquire_works me dir (d : LockDir) :
  flock_holder d = None →
  ∃ g d', Lock.acquire fs_ok me dir d = (Ok g, d') ∧ flock_holder d' = Some me.
Proof.
  intros Hd. pose proof (acquire_spec fs_ok me dir d) as Ha.
  destruct (Lock.acquire fs_ok me dir d) as [r d'] eqn:Heq.
  unfold Lock.acquire, flock_exclusive_nonblock, mbind, prog_bind in Heq. simpl in Heq. rewrite Hd in Heq. simpl in Heq.
  injection Heq as <- Hd'. eexists _, d'. split; [done|]. apply Ha.
Qed.

(** Every call of [bind_socket] succeeds, its paths are short enough, and a
    stale staging file can be removed. *)
Record bind_works (sz pid seq : Z) (a : BindAnswers) (path : string) (w : Names) : Prop := {
  bw_path : validate_socket_path sz path = Ok tt ∧ validate_socket_path sz (staging_path pid seq path) = Ok tt;
  bw_dir : b_create_dir a = Ok tt;
  bw_stale : b_remove_stale a = Ok tt ∨ names w !! staging_path pid seq path = None;
  bw_bind : b_bind a = Ok tt ∧ b_chmod a = Ok tt ∧ b_rename a = Ok tt
}.

Lemma bind_socket_works sz pid seq a path w :
  bind_works sz pid seq a path w →
  ∃ w', bind_socket sz pid seq a path w = (Ok (new_fd a), w').
Proof.
  intros [[Hp1 Hp2] Hd Hs (Hb & Hc & Hr)]. unfold bind_socket. set (stg := staging_path pid seq path) in *.
  unfold mbind, prog_bind. rewrite Hp1, Hp2. cbn [lift].
  assert ((match parent path with
    | Some p => if decide (p = ""%string) then mret tt else io (b_create_dir a)
    | None => mret tt end : bindM unit) w = (Ok tt, w)) as ->.
  { rewrite Hd. destruct (parent path); [by case_decide|done]. }
  assert (∃ w1, remove_file (b_remove_stale a) stg w = (Ok tt, w1) ∧ names w1 !! stg = None) as (w1 & -> & Hn).
  { unfold remove_file. destruct Hs as [Hs|Hs].
    - rewrite Hs. eexists. split; [done|]. apply lookup_delete_eq.
    - destruct (b_remove_stale a); eexists; (split; [done|]); [apply lookup_delete_eq|done]. }
  unfold unix_bind, mbind, prog_bind, gets. rewrite Hn, Hb. cbn [modify].
  unfold attempt, set_permissions, rename, io, mbind, prog_bind, gets, modify. rewrite Hc, Hr. simpl.
  rewrite lookup_alter_eq, lookup_insert_eq. simpl. unfold kernel_call. simpl.
  erewrite set_cloexec_run by apply lookup_insert_eq. by eexists.
Qed.

Section commits.
Context {T C : Type} `{Talking T} `{Drainable C} (env : PEnv T C).
Implicit Types w : PWorld T.
Abbreviation M := (prog (PWorld T) string).

(** ** The protocol of [Role] on a stream that keeps a log *)
Section protocol.
Context (c : Conversation) (rest : list Message).
Abbreviation heard_all ms := (map NvRecv ms).

Lemma handshake_ok (t : traced T) l b :
  n_build c = b → n_lo c = PROTO_MIN → n_hi c = PROTO_MAX → n_caps c = Capabilities_default →
  fits PROTO_MAX (hello_n c) → pending (inner t) (to_n c ++ rest) 2 →
  ∃ t', handshake (n_pid c) b l t = (Ok (mkHandshook (c_id c) (v_n c) l), t') ∧
    pending (inner t') (before_begin c ++ Begin (c_id c) :: rest) 1 ∧
    log t' = log t ++ [NvSend (hello_n c) true; NvRecv (HelloAck (v_n c) (c_id c))].
Proof.
  intros <- Hlo Hhi Hcaps Hf Hp. unfold handshake, write_frame_to, read_message_from, mbind, prog_bind.
  rewrite <- Hlo, <- Hhi, <- Hcaps. fold (hello_n c). rewrite Hhi.
  destruct (pending_write _ _ _ _ _ Hf Hp) as (t1 & Hw & Hp1). unfold to_n in Hp1. simpl in Hp1.
  destruct (pending_read _ _ _ _ Hp1) as (v & t2 & Hr & Hp2). simpl. rewrite Hw. simpl. rewrite Hr. simpl.
  eexists. split; [done|]. rewrite <- app_assoc in Hp2. by rewrite <- app_assoc.
Qed.

Lemma wait_ok show l hs :
  all_heartbeats hs → ∀ fuel (t : traced T),
  pending (inner t) (hs ++ Begin (c_id c) :: rest) 1 → (length hs < fuel)%nat →
  ∃ t', wait_for_begin show fuel (mkHandshook (c_id c) (v_n c) l) t = (Ok (mkBegun (c_id c) (v_n c) l), t') ∧
    pending (inner t') rest 1 ∧ log t' = log t ++ heard_all (hs ++ [Begin (c_id c)]).
Proof.
  intros Hh. induction Hh as [|h hs [ts ->] Hh IH]; intros [|fuel] t Hp Hf; simpl in Hf; try lia;
    unfold read_message_from, mbind, prog_bind; cbn [wait_for_begin];
    destruct (pending_read _ _ _ _ Hp) as (v & t1 & Hr & Hp1); unfold mbind, prog_bind, read_message_from.
  all: simpl; rewrite Hr; simpl.
  - rewrite decide_True by done. by eexists.
  - edestruct (IH fuel (mkTraced t1 (log t ++ [NvRecv (Heartbeat ts)]))) as (t' & -> & Hp' & Hl); [done|lia|].
    exists t'. split; [done|]. split; [done|]. rewrite Hl. simpl. by rewrite <- app_assoc.
Qed.
End protocol.

(** ** The run *)
Context (c : Conversation) (rest : list Message) (succ : Role.Successor) (data_dir control_socket : string).
Context (p : Process) (dir0 : LockDir) (names0 : Names) (k : nat).

Definition begin_events : list nevent :=
  NvSend (hello_n c) true :: map NvRecv (to_n c).
Definition successor_events : list nevent :=
  begin_events ++ [NvLock; NvSend (ready c) true; NvBind; NvServe].

(** What the others do, and what the system answers. *)
Record told (chan : traced T) : Prop := {
  t_hello : n_pid c = pid p ∧ n_build c = test_build_id ∧ n_lo c = PROTO_MIN ∧ n_hi c = PROTO_MAX ∧
    n_caps c = Capabilities_default;
  t_ready : c_listening c = [] ∧ c_healthy c = true ∧ c_ready_revs c = [43];
  t_says : pending (inner chan) (to_n c ++ rest) 2;
  t_heartbeats : all_heartbeats (before_begin c);
  t_fits : fits PROTO_MAX (hello_n c) ∧ fits (v_n c) (ready c);
  t_no_crash : ∀ point, crashes_at (mkCrashEnv (e_crash_points env) (var "HANDOFF_CRASH_AT" p)
    (var "HANDOFF_CRASH_MARKER_DIR" p) (var "HANDOFF_CRASH_ROLE" p)) point = false;
  t_lock : e_fs env k = fs_ok ∧ flock_holder (e_others env k dir0) = None;
  t_bind : bind_works (e_sun_path_size env) (pid p) (e_seq env) (e_bind env) control_socket names0
}.

(** The run has not locked yet, or has; [es] is its log. *)
Record stands (chan : list Message) (n : nat) (dir : LockDir) (q : nat) (es : list nevent) w : Prop := {
  st_proc : p_proc w = p;
  st_chan : pending (inner (p_chan w)) chan n;
  st_dir : p_dir w = dir;
  st_names : p_names w = names0;
  st_calls : p_calls w = q;
  st_log : log (p_chan w) = es
}.

Lemma marker_ok {B} name text (g : unit → M B) Q ms n d q es w :
  stands ms n d q es w → (∀ w', stands ms n d q es w' → wp (g tt) Q w') →
  wp (write_marker_text name text ≫= g) Q w.
Proof.
  intros Hs Hg. unfold write_marker_text. apply wp_bind_modify. apply Hg.
  destruct (env_var _ w); [|done]. destruct Hs. by split.
Qed.

Context (chan0 : traced T).
Hypothesis Htold : told chan0.

Lemma point_ok {B} point (g : unit → M B) Q ms n d q es w :
  stands ms n d q es w → wp (g tt) Q w → wp (crash_here env point ≫= g) Q w.
Proof.
  intros Hs Hg. unfold wp, mbind, prog_bind, crash_here.
  destruct (maybe_crash_run (E := string) (crash_env env w) pmark point w) as [->|(w' & _ & Hc & _)]; [done|].
  unfold crash_env, env_var in Hc. rewrite (st_proc _ _ _ _ _ _ Hs), (t_no_crash _ Htold) in Hc. done.
Qed.

Lemma delay_ok {B} (g : unit → M B) Q ms n d q es w :
  stands ms n d q es w → (∀ w' q', stands ms n d q' es w' → wp (g tt) Q w') →
  wp (ready_delay ≫= g) Q w.
Proof.
  intros Hs Hg. unfold ready_delay. apply wp_bind_modify.
  destruct (env_var _ w ≫= _) as [ms'|]; [case_decide|]; [|by eapply Hg..].
  apply (Hg _ (S q)). destruct Hs. split; try done. simpl. by f_equal.
Qed.

Lemma on_chan_ok {A B} ctx (m : prog (traced T) Error A) a ms' n' es' (g : A → M B) Q ms n d q es w :
  stands ms n d q es w →
  (∃ t', m (p_chan w) = (Ok a, t') ∧ pending (inner t') ms' n' ∧ log t' = es') →
  (∀ w', stands ms' n' d q es' w' → wp (g a) Q w') →
  wp (on_chan ctx m ≫= g) Q w.
Proof.
  intros Hs (t' & Hm & Hp & Hl) Hg. unfold wp, mbind, prog_bind, on_chan. rewrite Hm. simpl.
  apply Hg. destruct Hs. by split.
Qed.

Lemma lock_ok {B} ctx (g : DataDirLock → M B) Q ms n es w :
  stands ms n dir0 k es w →
  (∀ l d' w', flock_holder d' = Some (pid p) → stands ms n d' (S k) (es ++ [NvLock]) w' → wp (g l) Q w') →
  wp (acquire_lock env ctx data_dir ≫= g) Q w.
Proof.
  intros Hs Hg. destruct (t_lock _ Htold) as [Hfs Hfree].
  destruct (acquire_works (pid p) data_dir _ Hfree) as (l & d' & Ha & Hd).
  unfold wp, mbind, prog_bind, acquire_lock, me.
  rewrite (st_proc _ _ _ _ _ _ Hs), (st_dir _ _ _ _ _ _ Hs), (st_calls _ _ _ _ _ _ Hs), Hfs, Ha. simpl.
  apply (Hg l d'); [done|]. destruct Hs as [Hp Hc _ Hn Hk Hl]. split; try done; simpl; [by rewrite Hk|by rewrite Hl].
Qed.

Lemma announce_ok {B} ctx bg l (g : Bind.Incumbent → M B) Q ms d q es w :
  bg_handoff_id bg = c_id c → bg_proto_version bg = v_n c →
  stands ms 1 d q es w →
  (∀ i w', inc_lock i = Some l → p_proc w' = p → p_dir w' = d →
     log (p_chan w') = es ++ [NvSend (ready c) true; NvBind] → wp (g i) Q w') →
  wp (announce_here env ctx bg (mkReadiness [] true [43]) control_socket l ≫= g) Q w.
Proof.
  intros Hid Hv Hs Hg. destruct (t_ready _ Htold) as (E1 & E2 & E3). destruct (t_fits _ Htold) as [_ Hf].
  destruct Hs as [Hp Hc Hd Hn Hk Hl].
  destruct (pending_write _ _ _ _ _ Hf Hc) as (t' & Hw & _).
  destruct (bind_socket_works _ _ _ _ _ _ (t_bind _ Htold)) as [ns' Hb].
  unfold wp, mbind, prog_bind, announce_here, announce_and_bind, announce_ready, write_frame_to, me.
  rewrite Hp, Hid, Hv. cbn [listening_on healthz_ok advertised_revision_per_shard].
  rewrite <- E1, <- E2, <- E3. fold (ready c). simpl. rewrite Hw. simpl.
  unfold bind_after_ready, bind_replacing. rewrite Hn, Hb. simpl.
  apply Hg; try done. simpl. by rewrite Hl, <- app_assoc.
Qed.

(** Up to [serve]. *)
Lemma before_serve_ok w Q :
  stands (to_n c ++ rest) 2 dir0 k [] w →
  (∀ i l w', inc_lock i = Some l → p_proc w' = p → flock_holder (p_dir w') = Some (pid p) →
     log (p_chan w') = begin_events ++ [NvLock; NvSend (ready c) true; NvBind] →
     wp (call_serve env "successor serve" i) Q w') →
  wp (run_successor env succ data_dir control_socket) Q w.
Proof.
  intros Hs HQ. destruct (t_hello _ Htold) as (E1 & E2 & E3 & E4 & E5). destruct (t_fits _ Htold) as [Hf _].
  assert (me w = n_pid c) as Hme by (unfold me; by rewrite (st_proc _ _ _ _ _ _ Hs)).
  unfold run_successor. apply wp_bind_gets. rewrite Hme.
  eapply marker_ok; [exact Hs|]. intros w1 G1.
  eapply point_ok; [exact G1|]. eapply on_chan_ok; [exact G1| |].
  { destruct (handshake_ok c rest (p_chan w1) (inherited succ) test_build_id E2 E3 E4 E5 Hf (st_chan _ _ _ _ _ _ G1))
      as (t' & Hh & Hp & Hl). rewrite (st_log _ _ _ _ _ _ G1) in Hl. by exists t'. }
  intros w2 G2. eapply marker_ok; [exact G2|]. intros w3 G3. eapply point_ok; [exact G3|].
  apply wp_bind_gets. eapply on_chan_ok; [exact G3| |].
  { pose proof (pending_size _ _ _ (st_chan _ _ _ _ _ _ G3)) as Hsz. rewrite length_app in Hsz. simpl in Hsz.
    destruct (wait_ok c rest (e_show_id env) (inherited succ) _ (t_heartbeats _ Htold) (S (ch_size (p_chan w3)))
      (p_chan w3) (st_chan _ _ _ _ _ _ G3)) as (t' & Hh & Hp & Hl); [simpl; lia|].
    rewrite (st_log _ _ _ _ _ _ G3) in Hl. by exists t'. }
  intros w4 G4. eapply marker_ok; [exact G4|]. intros w5 G5. eapply point_ok; [exact G5|].
  eapply lock_ok; [exact G5|]. intros l d' w6 Hd' G6. eapply point_ok; [exact G6|].
  eapply delay_ok; [exact G6|]. intros w7 q7 G7.
  eapply announce_ok; [done|done|exact G7|]. intros i w8 Hi Hp8 Hd8 Hl8.
  unfold write_marker, write_marker_text. apply wp_bind_modify.
  eapply HQ; [exact Hi|..]; destruct (env_var _ w8); simpl; try done; try (by rewrite Hd8); rewrite Hl8;
    unfold begin_events; simpl; by rewrite <- !app_assoc.
Qed.
End commits.

(** The run, up to [serve] and what it leaves. *)
Lemma serves_run {T C} `{Talking T} `{Drainable C} (env : PEnv T C) (c : Conversation)
    (rest : list Message) (succ : Role.Successor) (data_dir control_socket : string) (w : PWorld T) :
  fair env (me w) → (∀ n, 0 ≤ e_delay env n) → valid_accepts (e_accepts env) →
  log (p_chan w) = [] →
  told env c rest control_socket (p_proc w) (p_dir w) (p_names w) (p_calls w) (p_chan w) →
  let '(r, w') := run_successor env succ data_dir control_socket w in
  log (p_chan w') = successor_events c ∧ served_flock (me w) r w' ∧
  (e_accepts env = [] → r = Ok Accepting).
Proof.
  intros Hfair Htime Hacc Hl Htold.
  assert (wp (run_successor env succ data_dir control_socket) (λ r w',
    log (p_chan w') = successor_events c ∧ served_flock (me w) r w' ∧
    (e_accepts env = [] → r = Ok Accepting)) w) as Hrun.
  { eapply before_serve_ok; [exact Htold|split; [done|apply Htold|done..|exact Hl]|].
    intros i l w' Hi Hp Hf Hlog.
    assert (me w' = me w) as Hm by (unfold me; by rewrite Hp).
    pose proof (call_serve_run env (me w) "successor serve" i l w' Hfair Htime Hacc Hm Hf Hi) as Hs.
    assert (e_accepts env = [] → (call_serve env "successor serve" i w').1 = Ok Accepting) as Hwaits
      by (unfold call_serve; by intros ->).
    unfold wp. destruct (call_serve env "successor serve" i w') as [r w2]. destruct Hs as (Hl2 & _ & _ & Hr).
    cbn [fst snd]. split; [|by split]. rewrite Hl2, Hlog. unfold successor_events. by rewrite <- app_assoc. }
  unfold wp in Hrun. by destruct (run_successor env succ data_dir control_socket w).
Qed.

(** A conversation for [PrimitiveDemo]. *)
Module ServeDemo.
Definition conversation : Conversation :=
  mkConversation PrimitiveDemo.id1 42 [] 1 1 Capabilities_default 77 test_build_id 1 1 Capabilities_default 1 1
    300000 60000 0 true [7] [] [] true [43] [] [] [] [] [] [] [Heartbeat 1].
Definition env : PEnv Script.script Demo.app := PrimitiveDemo.env [].
Definition start : PWorld Script.script := PrimitiveDemo.start PrimitiveDemo.told.
Lemma told_ok :
  told env conversation [] "/run/h.sock" (p_proc start) (p_dir start) (p_names start) 0 (p_chan start).
Proof.
  split; try (repeat split; done).
  - repeat constructor; by eexists.
  - split; [split; vm_compute; reflexivity|reflexivity|left; reflexivity|repeat split; reflexivity].
Qed.
End ServeDemo.

(** ** Properties *)

(** C9: a successor that is told to begin comes to serve.  If its supervisor
    answers its [Hello] and says [Begin], with any heartbeats in between, the
    flock is free by then, the calls on the lock file and the socket succeed
    and no crash point is named: [run_successor] does exactly
    [successor_events], the last of them the call of [serve], and has the flock
    for as long as that waits in [accept]; without a connection that is where it
    ends. *)
Theorem successor_comes_to_serve {T C} `{Talking T} `{Drainable C} (env : PEnv T C) (c : Conversation)
    (rest : list Message) (succ : Role.Successor) (data_dir control_socket : string) (w : PWorld T) :
  fair env (me w) → (∀ n, 0 ≤ e_delay env n) → valid_accepts (e_accepts env) →
  log (p_chan w) = [] →
  told env c rest control_socket (p_proc w) (p_dir w) (p_names w) (p_calls w) (p_chan w) →
  let '(r, w') := run_successor env succ data_dir control_socket w in
  log (p_chan w') = successor_events c ∧ served_flock (me w) r w' ∧
  (e_accepts env = [] → r = Ok Accepting).
Proof. apply serves_run. Qed.

Lemma successor_comes_to_serve_witness :
  let '(r, w') := run_successor ServeDemo.env PrimitiveDemo.succ "/d" "/run/h.sock" ServeDemo.start in
  r = Ok Accepting ∧ flock_holder (p_dir w') = Some 77.
Proof.
  assert (fair ServeDemo.env (me ServeDemo.start)) as Hfair by (intros n d; reflexivity).
  assert (∀ n, 0 ≤ e_delay ServeDemo.env n) as Htime by (intros n; discriminate).
  assert (valid_accepts (e_accepts ServeDemo.env)) as Hacc by constructor.
  pose proof (successor_comes_to_serve ServeDemo.env ServeDemo.conversation [] PrimitiveDemo.succ "/d" "/run/h.sock"
    ServeDemo.start Hfair Htime Hacc eq_refl ServeDemo.told_ok) as Hrun.
  destruct (run_successor ServeDemo.env PrimitiveDemo.succ "/d" "/run/h.sock" ServeDemo.start) as [r w'].
  destruct Hrun as (_ & Hf & Hr). specialize (Hr eq_refl). subst r. split; [reflexivity|exact Hf].
Defined.
