(* ===== verification/Supervisor.v ===== *)
(** * The supervisor: [crates/handoff/src/supervisor.rs]

    One handoff, from the connection to the incumbent to [Commit] or
    [ResumeAfterAbort], as a program over a world with the two control
    streams, the child guard, the journal's files, a clock and a trace. *)
From stdpp Require Import base tactics option list numbers strings gmap.
From S2P Require Import Prelude Errors Protocol Sock Frame Fd Lock Channel Role Crash StateJournal.
Local Open Scope Z_scope.

(** ** Constants (milliseconds) *)
Definition MIN_READ_TIMEOUT : Z := 100.
Definition LIVENESS_TIMEOUT : Z := 10000.
Definition HELLO_READ_TIMEOUT : Z := 5000.
Definition WIRE_SLACK : Z := 1000.

(** ** Data *)
Record SpawnSpec : Type := mkSpawnSpec {
  binary : string;
  spec_args : list string;
  spec_env : list (string * string);
  deadline : Z;
  drain_grace : Z
}.
Definition SpawnSpec_new (binary : string) : SpawnSpec := mkSpawnSpec binary [] [] 300000 60000.

Record HandoffOutcome : Type := mkOutcome {
  outcome_id : HandoffId;
  committed : bool;
  abort_reason : option string;
  outcome_child : option Z
}.

(** The two peers: the incumbent [PO] and the successor [PN]. *)
Inductive Peer : Type := PO | PN.
#[export] Instance Peer_eq_dec : EqDecision Peer.
Proof. solve_decision. Defined.

Inductive event : Type :=
| EvSend (to : Peer) (m : Message) (ok : bool)
| EvRecv (from : Peer) (m : Message)
| EvSpawn (pid : Z)
| EvKill (pid : Z)
| EvDisarm (pid : Z)
| EvJournal (ph : Phase) (ok : bool)
| EvJournalClear
| EvClose (p : Peer).
#[export] Instance event_eq_dec : EqDecision event.
Proof. solve_decision. Defined.

(** What the system and the other processes answer.  [streams] are the two
    control streams once they exist; the functions of a [nat] answer the
    [n]-th question. *)
Record SEnv (T : Type) : Type := mkSEnv {
  own_pid : Z;
  has_journal : bool;
  connect : result IoError T;
  configure_o : result IoError unit;
  make_pair : result Errno T;
  spawn_child : result IoError Z;
  configure_n : result IoError unit;
  new_handoff_id : HandoffId;
  delay : nat → Z;
  peek : nat → result Errno nat;
  journal_answers : nat → JournalAnswers;
  unix_ms : Z → Z;
  show_error : Error → string;
  show_id : HandoffId → string;
  crash : CrashEnv
}.
Arguments mkSEnv {T}. Arguments own_pid {T}. Arguments has_journal {T}. Arguments connect {T}.
Arguments configure_o {T}. Arguments make_pair {T}. Arguments spawn_child {T}.
Arguments configure_n {T}. Arguments new_handoff_id {T}. Arguments delay {T}. Arguments peek {T}.
Arguments journal_answers {T}. Arguments unix_ms {T}. Arguments show_error {T}.
Arguments show_id {T}. Arguments crash {T}.

(** [guard] is the [ChildGuard] that still has its child. *)
Record World (T : Type) : Type := mkWorld {
  o_stream : option T;
  n_stream : option T;
  guard : option Z;
  in_flight : bool;
  jfs : JournalFs;
  clock : Z;
  calls : nat;
  markers : list (string * string);
  trace : list event
}.
Arguments mkWorld {T}. Arguments o_stream {T}. Arguments n_stream {T}. Arguments guard {T}.
Arguments in_flight {T}. Arguments jfs {T}. Arguments clock {T}. Arguments calls {T}.
Arguments markers {T}. Arguments trace {T}.

(** ** The supervisor and its builders

    [in_flight] is in the world; the rest is fixed once it is built. *)
Record Supervisor : Type := mkSupervisor {
  socket_path : string;
  listener_fds : list (string * Z);
  journal_path : option string;
  sup_build_id : list byte
}.
Definition Supervisor_new (sun_path_size : Z) (path : string) : Result Supervisor :=
  _ ← validate_socket_path sun_path_size path; Ok (mkSupervisor path [] None []).
Definition with_listener (name : string) (fd : Z) (s : Supervisor) : Supervisor :=
  mkSupervisor (socket_path s) (listener_fds s ++ [(name, fd)]) (journal_path s) (sup_build_id s).
Definition with_journal (path : string) (s : Supervisor) : Supervisor :=
  mkSupervisor (socket_path s) (listener_fds s) (Some path) (sup_build_id s).
Definition sup_with_build_id (b : list byte) (s : Supervisor) : Supervisor :=
  mkSupervisor (socket_path s) (listener_fds s) (journal_path s) b.

(** What a supervisor's configuration decides of its environment. *)
Definition configured {T} (s : Supervisor) (env : SEnv T) : SEnv T :=
  mkSEnv (own_pid env) (bool_decide (is_Some (journal_path s))) (connect env) (configure_o env)
    (make_pair env) (spawn_child env) (configure_n env) (new_handoff_id env) (delay env) (peek env)
    (journal_answers env) (unix_ms env) (show_error env) (show_id env) (crash env).

(** ** The command that spawns the successor *)
Definition spawn_command (spec : SpawnSpec) (listener_fds : list (string * Z)) (n_sock_fd : Z)
    : Command :=
  let sock_target_fd := 3 + Z.of_nat (length listener_fds) in
  let cmd := command_args (spec_args spec) (command_new (binary spec)) in
  let cmd := foldl (λ cmd '(k, v), command_env k v cmd) cmd (spec_env spec) in
  let cmd := command_env ENV_HANDOFF_ROLE "successor" cmd in
  let cmd := command_env ENV_HANDOFF_SOCK_FD (show_Z sock_target_fd) cmd in
  pass_listener_fds_on_spawn cmd listener_fds (Some n_sock_fd).

Definition spawn_successor (s : Supervisor) (spec : SpawnSpec) (n_sock_fd : Z) : Command :=
  spawn_command spec (listener_fds s) n_sock_fd.

Section supervisor.
Context {T : Type} `{ControlChannel T} `{!ChannelLaws T} `{JournalCodec} (env : SEnv T).
Abbreviation world := (World T).
Abbreviation M := (prog world Error).
Implicit Types w : world.

Definition set_stream (p : Peer) (t : option T) w : world :=
  match p with
  | PO => mkWorld t (n_stream w) (guard w) (in_flight w) (jfs w) (clock w) (calls w) (markers w) (trace w)
  | PN => mkWorld (o_stream w) t (guard w) (in_flight w) (jfs w) (clock w) (calls w) (markers w) (trace w)
  end.
Definition stream_of (p : Peer) w : option T :=
  match p with PO => o_stream w | PN => n_stream w end.
Definition set_guard (g : option Z) w : world :=
  mkWorld (o_stream w) (n_stream w) g (in_flight w) (jfs w) (clock w) (calls w) (markers w) (trace w).
Definition set_in_flight (b : bool) w : world :=
  mkWorld (o_stream w) (n_stream w) (guard w) b (jfs w) (clock w) (calls w) (markers w) (trace w).
Definition set_jfs (j : JournalFs) w : world :=
  mkWorld (o_stream w) (n_stream w) (guard w) (in_flight w) j (clock w) (calls w) (markers w) (trace w).
Definition emit (e : event) w : world :=
  mkWorld (o_stream w) (n_stream w) (guard w) (in_flight w) (jfs w) (clock w) (calls w) (markers w)
    (trace w ++ [e]).
Definition mark (path text : string) w : world :=
  mkWorld (o_stream w) (n_stream w) (guard w) (in_flight w) (jfs w) (clock w) (calls w)
    (markers w ++ [(path, text)]) (trace w).
(** A call that may block is over: the answer to the next question says how
    long it took. *)
Definition pass w : world :=
  mkWorld (o_stream w) (n_stream w) (guard w) (in_flight w) (jfs w) (clock w + delay env (calls w))
    (S (calls w)) (markers w) (trace w).

Definition crash_here (point : string) : M unit := maybe_crash (crash env) mark point.
Definition now : M Z := gets clock.

(** A system call that may block ([connect], the spawn). *)
Definition blocking {A} (r : result IoError A) : M A := _ ← modify pass; io r.

(** *** Streams.  A stream is always there when one of these runs. *)
Definition on_stream {A} (p : Peer) (f : T → A * T) (k : A → world → world) : M A := λ w,
  match stream_of p w with
  | Some t => let '(a, t) := f t in (Ok a, k a (set_stream p (Some t) w))
  | None => (Err Stuck, w)
  end.

(** A write may block until the stream's write time-out. *)
Definition send (p : Peer) (v : ProtoVersion) (m : Message) : M unit :=
  r ← on_stream p (ch_write v m) (λ r w, emit (EvSend p m (is_ok r)) (pass w));
  lift r.

Definition poll (p : Peer) : M (Result (option (ProtoVersion * Message))) :=
  on_stream p ch_poll
    (λ r w, match r with Ok (Some (_, m)) => emit (EvRecv p m) (pass w) | _ => pass w end).

Definition set_read_timeout (p : Peer) (d : option Z) : M (result IoError unit) :=
  on_stream p (ch_set_read_timeout d) (λ _ w, w).

Definition has_partial (p : Peer) : M bool :=
  gets (λ w, match stream_of p w with Some t => ch_has_partial t | None => false end).

Definition read_would_block : M bool := λ w,
  (Ok (match peek env (calls w) with
       | Err e => bool_decide (decode_error_kind e = WouldBlock)
       | Ok _ => false
       end), pass w).

Definition arm_recv_timeout (p : Peer) (recv_timeout : Z) : M unit :=
  r ← set_read_timeout p (Some recv_timeout);
  match r with
  | Ok _ => mret tt
  | Err e =>
      if decide (raw_os_error e = Some EINVAL) then
        b ← read_would_block;
        if negb b then mret tt else raise (Io e)
      else raise (Io e)
  end.

Definition remaining_until (deadline : Z) : M Z :=
  t ← now; mret ((if decide (t ≤ deadline) then deadline - t else MIN_READ_TIMEOUT) `max` MIN_READ_TIMEOUT).

(** *** The journal *)
Definition on_journal {A} (f : JournalAnswers → prog JournalFs Error A) : M (Result A) := λ w,
  let '(r, j) := f (journal_answers env (calls w)) (jfs w) in
  let w := set_jfs j (pass w) in
  match r with
  | Ok a => (Ok (Ok a), w)
  | Err (Raise e) => (Ok (Err e), w)
  | Err (Exit c) => (Err (Exit c), w)
  | Err Stuck => (Err Stuck, w)
  end.

Definition journal_set (id : HandoffId) (ph : Phase) (successor_pid started_at : Z) : M unit :=
  if has_journal env then
    r ← on_journal (λ a, StateJournal.write_atomic a
          (mkStateJournal id ph (own_pid env) (Some successor_pid) started_at));
    _ ← modify (emit (EvJournal ph (is_ok r)));
    lift r
  else mret tt.

Definition journal_clear : M unit :=
  if has_journal env then
    _ ← on_journal StateJournal.delete; modify (emit EvJournalClear)
  else mret tt.

(** *** The child guard *)
Definition kill_and_reap : M unit := λ w,
  match guard w with
  | Some pid => (Ok tt, emit (EvKill pid) (pass (set_guard None w)))
  | None => (Ok tt, w)
  end.

(** [disarm]'s [expect] cannot fail: it is [Stuck] here. *)
Definition disarm : M Z := λ w,
  match guard w with
  | Some pid => (Ok pid, emit (EvDisarm pid) (set_guard None w))
  | None => (Err Stuck, w)
  end.

(** *** Handshakes *)
Definition show_side (s : Side) : string :=
  match s with Incumbent => "Incumbent" | Protocol.Successor => "Successor" end.

Definition exchange_hello_as_supervisor (p : Peer) (id : HandoffId) (expected_role : Side)
    (expected_pid : option Z) : M ProtoVersion :=
  _ ← arm_recv_timeout p HELLO_READ_TIMEOUT;
  read_result ← poll p;
  _ ← set_read_timeout p None;
  peer_hello ← match read_result with
               | Ok (Some (_, m)) => mret m
               | Ok None => raise (Timeout "peer Hello")
               | Err e => raise e
               end;
  match peer_hello with
  | Hello their_role their_pid _ their_min their_max _ =>
      if decide (their_role ≠ expected_role) then
        raise (Errors.Protocol ("peer announced role " +:+ show_side their_role +:+ ", expected "
                 +:+ show_side expected_role))
      else
        _ ← match expected_pid with
            | Some expected =>
                if decide (their_pid ≠ expected) then raise (PidMismatch expected their_pid)
                else mret tt
            | None => mret tt
            end;
        chosen ← lift (negotiate_version PROTO_MIN PROTO_MAX their_min their_max);
        _ ← send p chosen (HelloAck chosen id);
        mret chosen
  | other => raise (UnexpectedMessage (short_name other))
  end.

Definition send_best_effort_abort (v : ProtoVersion) (id : HandoffId) (reason : string) : M unit :=
  _ ← attempt (send PN v (Abort id reason)); mret tt.

(** *** [read_until]: [deadline] is absolute *)
Fixpoint read_until_loop (fuel : nat) (p : Peer) (deadline : Z) (awaiting : string)
    (pred : Message → bool) : M Message :=
  match fuel with
  | 0%nat => stuck
  | S fuel =>
      t ← now;
      if decide (deadline ≤ t) then
        _ ← set_read_timeout p None; raise (Timeout awaiting)
      else
        let remaining := deadline - t in
        let recv_timeout := (LIVENESS_TIMEOUT `min` remaining) `max` MIN_READ_TIMEOUT in
        _ ← arm_recv_timeout p recv_timeout;
        r ← poll p;
        match r with
        | Ok (Some (_, Heartbeat _)) | Ok (Some (_, SealProgress _ _ _)) =>
            read_until_loop fuel p deadline awaiting pred
        | Ok (Some (_, msg)) =>
            if pred msg then _ ← set_read_timeout p None; mret msg
            else _ ← set_read_timeout p None; raise (UnexpectedMessage (short_name msg))
        | Ok None =>
            partial ← has_partial p;
            if partial : bool then read_until_loop fuel p deadline awaiting pred
            else _ ← set_read_timeout p None; raise (Timeout awaiting)
        | Err e => _ ← set_read_timeout p None; raise e
        end
  end.

(** Fuel: every turn that goes on has consumed input. *)
Definition fuel_for (p : Peer) : M nat :=
  gets (λ w, match stream_of p w with Some t => S (ch_size t) | None => 0%nat end).

Definition read_until (p : Peer) (timeout : Z) (awaiting : string) (pred : Message → bool)
    : M Message :=
  t ← now;
  fuel ← fuel_for p;
  read_until_loop fuel p (t + (timeout `max` MIN_READ_TIMEOUT)) awaiting pred.

(** *** The seal-wait loop: [Ok tt] is [SealComplete], [Err] a [SealFailed] *)
Definition seal_gave_up (chosen_n : ProtoVersion) (id : HandoffId) (reason : string)
    : M (result string unit) :=
  _ ← set_read_timeout PO None;
  _ ← send_best_effort_abort chosen_n id reason;
  _ ← kill_and_reap;
  _ ← journal_clear;
  raise (Timeout "SealComplete").

Fixpoint seal_wait_loop (fuel : nat) (seal_read_deadline : Z) (chosen_n : ProtoVersion)
    (id : HandoffId) : M (result string unit) :=
  match fuel with
  | 0%nat => stuck
  | S fuel =>
      t ← now;
      if decide (seal_read_deadline ≤ t) then seal_gave_up chosen_n id "seal phase timed out"
      else
        let remaining := seal_read_deadline - t in
        let recv_timeout := (LIVENESS_TIMEOUT `min` remaining) `max` MIN_READ_TIMEOUT in
        _ ← arm_recv_timeout PO recv_timeout;
        r ← poll PO;
        let unexpected (m : Message) :=
          _ ← set_read_timeout PO None; raise (UnexpectedMessage (short_name m)) in
        match r with
        | Ok (Some (_, SealProgress _ _ _)) | Ok (Some (_, Heartbeat _)) =>
            seal_wait_loop fuel seal_read_deadline chosen_n id
        | Ok (Some (_, SealComplete i _ _ as m)) =>
            if decide (i = id) then mret (Ok tt) else unexpected m
        | Ok (Some (_, SealFailed i error _ as m)) =>
            if decide (i = id) then mret (Err error) else unexpected m
        | Ok (Some (_, other)) => unexpected other
        | Ok None =>
            partial ← has_partial PO;
            if partial : bool then seal_wait_loop fuel seal_read_deadline chosen_n id
            else seal_gave_up chosen_n id "incumbent unresponsive during seal"
        | Err e => _ ← set_read_timeout PO None; raise e
        end
  end.

(** *** The phases of [perform_handoff] *)

(** What the later phases know. *)
Record Handoff : Type := mkHandoff {
  h_id : HandoffId;
  h_chosen_o : ProtoVersion;
  h_chosen_n : ProtoVersion;
  h_successor_pid : Z;
  h_started_unix_ms : Z;
  h_total_deadline_at : Z
}.

Definition h_journal (h : Handoff) (ph : Phase) : M unit :=
  journal_set (h_id h) ph (h_successor_pid h) (h_started_unix_ms h).

(** 1. Connect to the incumbent. *)
Definition connect_incumbent (id : HandoffId) : M ProtoVersion :=
  t ← blocking (connect env);
  _ ← modify (set_stream PO (Some t));
  _ ← io (configure_o env);
  chosen_o ← exchange_hello_as_supervisor PO id Incumbent None;
  _ ← crash_here points.S_AFTER_O_HELLO;
  mret chosen_o.

(** 2-4. Create the pair, spawn the successor, exchange [Hello]. *)
Definition start_successor (id : HandoffId) : M (Z * ProtoVersion) :=
  s_end ← lift (result_map_err Nix (make_pair env));
  successor_pid ← blocking (spawn_child env);
  _ ← modify (λ w, emit (EvSpawn successor_pid) (set_guard (Some successor_pid) w));
  _ ← crash_here points.S_AFTER_SPAWN_SUCCESSOR;
  _ ← modify (set_stream PN (Some s_end));
  _ ← io (configure_n env);
  chosen_n ← exchange_hello_as_supervisor PN id Protocol.Successor (Some successor_pid);
  _ ← crash_here points.S_AFTER_N_HELLO;
  mret (successor_pid, chosen_n).

(** [as u64]. *)
Definition as_u64 (z : Z) : Z := z `mod` (u64_max + 1).

(** 5. [PrepareHandoff], then [Drained]. *)
Definition drain_phase (h : Handoff) (spec : SpawnSpec) : M unit :=
  remaining ← remaining_until (h_total_deadline_at h);
  _ ← send PO (h_chosen_o h)
        (PrepareHandoff (h_id h) (h_successor_pid h) (as_u64 remaining) (as_u64 (drain_grace spec)));
  _ ← crash_here points.S_AFTER_PREPARE_SENT;
  _ ← read_until PO (drain_grace spec + WIRE_SLACK) "Drained" is_drained;
  _ ← crash_here points.S_AFTER_DRAINED_RECV;
  h_journal h Draining.

(** 6. [SealRequest], then [SealComplete] or [SealFailed]. *)
Definition seal_phase (h : Handoff) : M (result string unit) :=
  _ ← send PO (h_chosen_o h) (SealRequest (h_id h));
  _ ← crash_here points.S_AFTER_SEAL_REQUEST_SENT;
  fuel ← fuel_for PO;
  seal_outcome ← seal_wait_loop fuel (h_total_deadline_at h + WIRE_SLACK) (h_chosen_n h) (h_id h);
  _ ← set_read_timeout PO None;
  mret seal_outcome.

Definition seal_failed (h : Handoff) (error : string) : M HandoffOutcome :=
  _ ← send_best_effort_abort (h_chosen_n h) (h_id h) ("seal failed: " +:+ error);
  _ ← kill_and_reap;
  _ ← journal_clear;
  mret (mkOutcome (h_id h) false (Some ("seal failed: " +:+ error)%string) None).

(** 7. [Begin], then [Ready].  An error of the journal write leaves through
    [?]: the outer result. *)
Definition begin_phase (h : Handoff) : M (Result Message) :=
  r ← attempt (send PN (h_chosen_n h) (Begin (h_id h)));
  ready_result ← match r with
    | Ok _ =>
        _ ← crash_here points.S_AFTER_BEGIN_SENT;
        _ ← h_journal h AwaitingReady;
        remaining ← remaining_until (h_total_deadline_at h);
        attempt (read_until PN (remaining + WIRE_SLACK) "Ready" is_ready)
    | Err e => mret (Err e)
    end;
  mret (match ready_result with
        | Ok (Ready i _ _ _) =>
            if decide (i ≠ h_id h) then
              Err (Errors.Protocol ("Ready carries wrong handoff_id: got " +:+ show_id env i
                     +:+ ", expected " +:+ show_id env (h_id h)))
            else ready_result
        | other => other
        end).

(** 8. Commit the incumbent. *)
Definition commit_phase (h : Handoff) : M HandoffOutcome :=
  _ ← crash_here points.S_AFTER_READY_RECV;
  child ← disarm;
  _ ← attempt (send PO (h_chosen_o h) (Commit (h_id h)));
  _ ← crash_here points.S_AFTER_COMMIT_SENT;
  _ ← attempt (h_journal h Committed);
  _ ← journal_clear;
  _ ← crash_here points.S_AFTER_JOURNAL_CLEAR;
  mret (mkOutcome (h_id h) true None (Some child)).

Definition abort_reason_of (other : Result Message) : string :=
  match other with
  | Ok m => "expected Ready, got " +:+ short_name m
  | Err (Timeout s) => "ready phase timed out waiting for " +:+ s
  | Err e => "ready read failed: " +:+ show_error env e
  end.

Definition abort_phase (h : Handoff) (other : Result Message) : M HandoffOutcome :=
  let reason := abort_reason_of other in
  _ ← send_best_effort_abort (h_chosen_n h) (h_id h) reason;
  _ ← kill_and_reap;
  _ ← send PO (h_chosen_o h) (ResumeAfterAbort (h_id h));
  _ ← h_journal h ResumingAfterAbort;
  _ ← journal_clear;
  mret (mkOutcome (h_id h) false (Some reason) None).

Definition handoff_body (spec : SpawnSpec) : M HandoffOutcome :=
  let id := new_handoff_id env in
  started_instant ← now;
  let started_unix_ms := unix_ms env started_instant in
  let total_deadline_at := started_instant + deadline spec in
  chosen_o ← connect_incumbent id;
  '(successor_pid, chosen_n) ← start_successor id;
  let h := mkHandoff id chosen_o chosen_n successor_pid started_unix_ms total_deadline_at in
  _ ← h_journal h Negotiating;
  _ ← drain_phase h spec;
  seal_outcome ← seal_phase h;
  match seal_outcome with
  | Err error => seal_failed h error
  | Ok _ =>
      _ ← crash_here points.S_AFTER_SEAL_COMPLETE_RECV;
      _ ← h_journal h Sealing;
      ready_result ← begin_phase h;
      match ready_result with
      | Ok (Ready i _ _ _ as m) =>
          if decide (i = h_id h) then commit_phase h else abort_phase h ready_result
      | other => abort_phase h other
      end
  end.

(** The locals go in the reverse order of their declaration, on every exit
    that runs destructors: [n_stream], the guard, [o_stream], the mutex. *)
Definition close_stream (p : Peer) w : world :=
  match stream_of p w with
  | Some _ => emit (EvClose p) (set_stream p None w)
  | None => w
  end.

Definition drop_locals : M unit :=
  _ ← modify (close_stream PN);
  _ ← kill_and_reap;
  _ ← modify (close_stream PO);
  modify (set_in_flight false).

Definition perform_handoff (spec : SpawnSpec) : M HandoffOutcome :=
  busy ← gets in_flight;
  if busy : bool then raise HandoffInProgress else
  _ ← modify (set_in_flight true);
  r ← attempt (handoff_body spec);
  _ ← drop_locals;
  lift r.

(** *** After a restart *)
Definition resume_from_journal : M (option StateJournal) :=
  if negb (has_journal env) then mret None else
  j ← on_journal StateJournal.read;
  j ← lift j;
  match j with
  | None => mret None
  | Some journal =>
      _ ← (stream ← attempt (blocking (connect env));
           match stream with
           | Ok t =>
               _ ← modify (set_stream PO (Some t));
               _ ← set_read_timeout PO (Some 2000);
               _ ← on_stream PO ch_read_message
                     (λ r w, match r with Ok (_, m) => emit (EvRecv PO m) (pass w) | Err _ => pass w end);
               modify (close_stream PO)
           | Err _ => mret tt
           end);
      r ← on_journal StateJournal.delete;
      _ ← lift r;
      mret (Some journal)
  end.
End supervisor.
