(* ===== verification/SupervisorSafety.v ===== *)
(** * What the supervisor promises

    The contract of one handoff as an automaton over the supervisor's trace —
    the order of the messages to both peers, of the journal's phases and of
    the child's fate — and the proof that every run of [perform_handoff]
    follows it. *)
From stdpp Require Import base tactics option list numbers strings gmap.
From S2P Require Import Prelude Contract Errors Protocol Lock Channel Crash StateJournal Supervisor.
Local Open Scope Z_scope.

(** ** The contract automaton *)

(** How far the protocol has got, as far as the supervisor has seen or said. *)
Inductive step : Type :=
| Start | HelloO | HelloN | Prepared | WasDrained | SealAsked | WasSealed | Begun | WasReady
| WasCommitted | Resumed.
#[export] Instance step_eq_dec : EqDecision step.
Proof. solve_decision. Defined.

Inductive kid : Type := NoKid | Alive (pid : Z) | Killed (pid : Z) | Released (pid : Z).
#[export] Instance kid_eq_dec : EqDecision kid.
Proof. solve_decision. Defined.

Record contract : Type := mkContract { at_step : step; child : kid }.
Definition contract_start : contract := mkContract Start NoKid.

Definition is_alive (k : kid) : bool := match k with Alive _ => true | _ => false end.
(** From [Ready] on there is no way back. *)
Definition decided (s : step) : bool := match s with WasReady | WasCommitted => true | _ => false end.
Definition is_released (k : kid) : bool := match k with Released _ => true | _ => false end.
Definition is_killed (k : kid) : bool := match k with Killed _ => true | _ => false end.

(** The step a journal phase records. *)
Definition phase_step (ph : Phase) : step :=
  match ph with
  | Negotiating => HelloN
  | Draining => WasDrained
  | Sealing => WasSealed
  | AwaitingReady => Begun
  | Committed => WasCommitted
  | ResumingAfterAbort => Resumed
  end.

(** What may be said, in which step, and the step it leads to.  [id] is the
    handoff's identifier. *)
Definition send_step (id : HandoffId) (c : contract) (to : Peer) (m : Message) : option contract :=
  let next (b : bool) (s : step) := if b then Some (mkContract s (child c)) else None in
  match to, m with
  | PO, HelloAck _ i => next (bool_decide (at_step c = Start) && bool_decide (i = id)) HelloO
  | PN, HelloAck _ i =>
      next (bool_decide (at_step c = HelloO) && is_alive (child c) && bool_decide (i = id)) HelloN
  | PO, PrepareHandoff i _ _ _ =>
      next (bool_decide (at_step c = HelloN) && is_alive (child c) && bool_decide (i = id)) Prepared
  | PO, SealRequest i =>
      next (bool_decide (at_step c = WasDrained) && is_alive (child c) && bool_decide (i = id)) SealAsked
  | PN, Begin i =>
      next (bool_decide (at_step c = WasSealed) && is_alive (child c) && bool_decide (i = id)) Begun
  | PO, Commit i =>
      match child c with
      | Released _ => next (bool_decide (at_step c = WasReady) && bool_decide (i = id)) WasCommitted
      | _ => None
      end
  | PN, Abort i _ =>
      next (bool_decide (at_step c = SealAsked ∨ at_step c = Begun) && is_alive (child c)
            && bool_decide (i = id)) (at_step c)
  | PO, ResumeAfterAbort i =>
      next (bool_decide (at_step c = Begun) && is_killed (child c) && bool_decide (i = id)) Resumed
  | _, _ => None
  end.

Definition contract_step (id : HandoffId) (c : contract) (e : event) : option contract :=
  match e with
  | EvSend to m _ => send_step id c to m
  | EvRecv PO (Drained _ _) =>
      Some (if decide (at_step c = Prepared) then mkContract WasDrained (child c) else c)
  | EvRecv PO (SealComplete i _ _) =>
      Some (if decide (at_step c = SealAsked ∧ i = id) then mkContract WasSealed (child c) else c)
  | EvRecv PN (Ready i _ _ _) =>
      Some (if decide (at_step c = Begun ∧ i = id) then mkContract WasReady (child c) else c)
  | EvRecv _ _ => Some c
  | EvSpawn pid =>
      if decide (at_step c = HelloO ∧ child c = NoKid) then Some (mkContract HelloO (Alive pid)) else None
  | EvKill pid =>
      if decide (child c = Alive pid ∧ at_step c ≠ WasReady) then Some (mkContract (at_step c) (Killed pid))
      else None
  | EvDisarm pid =>
      if decide (child c = Alive pid ∧ at_step c = WasReady)
      then Some (mkContract WasReady (Released pid)) else None
  | EvJournal ph _ => if decide (at_step c = phase_step ph) then Some c else None
  | EvJournalClear => if is_alive (child c) then None else Some c
  | EvClose PO => if is_alive (child c) then None else Some c
  | EvClose PN => Some c
  end.

Abbreviation follows id := (runs (contract_step id)).

Section safety.
Context {T : Type} `{ControlChannel T} `{!ChannelLaws T} `{JournalCodec} (env : SEnv T).
Abbreviation world := (World T).
Implicit Types w : world.

Abbreviation id0 := (new_handoff_id env).

(** The streams the environment may hand out. *)
Definition valid_env : Prop :=
  (∀ t, connect env = Ok t → ch_valid t) ∧ (∀ t, make_pair env = Ok t → ch_valid t).

(** The trace follows the contract up to [c], and the guard is armed exactly
    while the child is alive. *)
Definition linked w (c : contract) : Prop :=
  follows id0 contract_start (trace w) = Some c ∧
  guard w = (match child c with Alive pid => Some pid | _ => None end) ∧
  ∀ p t, stream_of p w = Some t → ch_valid t.

Definition has (p : Peer) w : Prop := is_Some (stream_of p w).

(** [at_ w c ps]: in step [c], with the streams of [ps] open. *)
Definition at_ w (c : contract) (ps : list Peer) : Prop :=
  linked w c ∧ ∀ p, p ∈ ps → has p w.

(** Errors leave a state the destructors may run in. *)
Definition failed w : Prop := ∃ c, linked w c ∧ decided (at_step c) = false.

(** A crash point leaves a trace that follows the contract; only a point the
    environment names ends the process. *)
Definition injected (code : Z) : Prop := code = 99 ∧ ∃ point, crashes_at (crash env) point = true.
Definition crashed (code : Z) w : Prop := injected code ∧ ∃ c, linked w c.
Abbreviation post := (Contract.post crashed).

Lemma failed_at w c ps : at_ w c ps → decided (at_step c) = false → failed w.
Proof. intros [Hl _] Hs. by exists c. Qed.

(** *** Events *)
Lemma sup_linked_emit w c c' e :
  linked w c → contract_step id0 c e = Some c' →
  guard w = (match child c' with Alive pid => Some pid | _ => None end) →
  linked (emit e w) c'.
Proof.
  intros (Ht & Hg & Hv) Hs Hg'.
  split; [|split; [done|intros []; [apply (Hv PO)|apply (Hv PN)]]]. simpl.
  by rewrite (runs_emit _ _ _ _ Ht).
Qed.

Lemma send_step_child id c to m c' : send_step id c to m = Some c' → child c' = child c.
Proof.
  unfold send_step. intros Hs.
  destruct to, m; try done; simpl in Hs; repeat case_match; simplify_eq/=; try done.
Qed.

Lemma recv_step_total id c p m :
  ∃ c', contract_step id c (EvRecv p m) = Some c' ∧ child c' = child c.
Proof. destruct p, m; simpl; try (by eexists); case_decide; by eexists. Qed.

Lemma stream_set_eq p t w : stream_of p (set_stream p t w) = t.
Proof. by destruct p. Qed.
Lemma stream_set_ne p q t w : p ≠ q → stream_of q (set_stream p t w) = stream_of q w.
Proof. by destruct p, q. Qed.

(** Changing what a stream holds. *)
Lemma at_set_stream p t w c ps :
  at_ w c ps → ch_valid t → at_ (set_stream p (Some t) w) c ps.
Proof.
  intros [(Ht & Hg & Hv) Hps] Hvt. split.
  - split; [by destruct p|]. split; [by destruct p|]. intros q t'. destruct (decide (p = q)) as [->|Hne].
    + rewrite stream_set_eq. by intros [= <-].
    + rewrite stream_set_ne by done. apply Hv.
  - intros q Hq. unfold has. destruct (decide (p = q)) as [->|Hne].
    + rewrite stream_set_eq. eauto.
    + rewrite stream_set_ne by done. by apply Hps.
Qed.

Lemma at_emit e w c c' ps :
  at_ w c ps → contract_step id0 c e = Some c' → child c' = child c → at_ (emit e w) c' ps.
Proof.
  intros [Hl Hps] Hs Hc. split; [|done]. eapply sup_linked_emit; [done..|].
  destruct Hl as (_ & Hg & _). by rewrite Hc.
Qed.

Lemma sup_at_pass w c ps : at_ w c ps → at_ (pass env w) c ps.
Proof. done. Qed.

(** *** Commands *)
Lemma sup_send_spec p v m w c c' ps (E : world → Prop) :
  at_ w c ps → p ∈ ps → send_step id0 c p m = Some c' → (∀ w', at_ w' c' ps → E w') →
  wp (send env p v m) (post (λ _ w', at_ w' c' ps) E) w.
Proof.
  intros Hat Hp Hs HE. pose proof (proj2 Hat p Hp) as [t Ht].
  pose proof (proj2 (proj2 (proj1 Hat)) p t Ht) as Hv. pose proof (ch_write_valid v m t Hv) as Hv'.
  unfold wp, send, on_stream, mbind, prog_bind. rewrite Ht.
  destruct (ch_write v m t) as [r t']. simpl in *.
  assert (at_ (emit (EvSend p m (is_ok r)) (pass env (set_stream p (Some t') w))) c' ps) as Hat'.
  { eapply at_emit; [by apply sup_at_pass, at_set_stream|done|by eapply send_step_child]. }
  destruct r as [[]|e]; simpl; auto.
Qed.

Definition size_of (p : Peer) w : nat :=
  match stream_of p w with Some t => ch_size t | None => 0%nat end.

Lemma sup_set_timeout_spec p d w c ps (E : world → Prop) :
  at_ w c ps → p ∈ ps →
  wp (set_read_timeout p d) (post (λ _ w', at_ w' c ps ∧ size_of p w' = size_of p w) E) w.
Proof.
  intros Hat Hp. pose proof (proj2 Hat p Hp) as [t Ht].
  pose proof (proj2 (proj2 (proj1 Hat)) p t Ht) as Hv. pose proof (ch_timeout_valid d t Hv) as Hv'.
  pose proof (ch_timeout_size d t) as Hn.
  unfold wp, set_read_timeout, on_stream. rewrite Ht.
  destruct (ch_set_read_timeout d t) as [r t']. simpl in *. split; [by apply at_set_stream|].
  unfold size_of. by rewrite stream_set_eq, Ht.
Qed.

(** Disarming the time-out before leaving. *)
Lemma untimed {A} p (m : prog world Error A) w c ps Q (E : world → Prop) :
  at_ w c ps → p ∈ ps → (∀ w', at_ w' c ps → wp m (post Q E) w') →
  wp (_ ← set_read_timeout p None; m) (post Q E) w.
Proof.
  intros Hat Hp Hm. eapply wp_post_bind; [by eapply sup_set_timeout_spec|].
  cbn beta. intros r w1 [Hat1 _]. auto.
Qed.

Lemma arm_spec p d w c ps (E : world → Prop) :
  at_ w c ps → p ∈ ps → (∀ w', at_ w' c ps → E w') →
  wp (arm_recv_timeout env p d) (post (λ _ w', at_ w' c ps ∧ size_of p w' = size_of p w) E) w.
Proof.
  intros Hat Hp HE. unfold arm_recv_timeout.
  eapply wp_post_bind; [by eapply sup_set_timeout_spec|]. cbn beta. intros r w1 [Hat1 Hn1].
  destruct r as [|e]; [done|]. case_decide; [|apply wp_post_raise; auto].
  eapply wp_post_bind with (Q1 := λ _ w', at_ w' c ps ∧ size_of p w' = size_of p w).
  { split; [done|]. rewrite <- Hn1. by destruct p. }
  cbn beta. intros b w2 [Hat2 Hn2]. destruct b; [apply wp_post_raise; auto|done].
Qed.

Lemma sup_crash_here_spec point w c ps (E : world → Prop) :
  at_ w c ps → wp (crash_here env point) (post (λ _ w', at_ w' c ps) E) w.
Proof.
  intros Hat. unfold wp, crash_here.
  destruct (maybe_crash_run (E := Error) (crash env) mark point w)
    as [-> | (w' & -> & Hp & [->|[path ->]])]; simpl; [done| |];
    (split; [by split; [|exists point]|]; exists c; apply Hat).
Qed.

Lemma now_spec w c ps (E : world → Prop) :
  at_ w c ps → wp now (post (λ _ w', at_ w' c ps) E) w.
Proof. done. Qed.

Lemma remaining_spec d w c ps (E : world → Prop) :
  at_ w c ps → wp (remaining_until d) (post (λ _ w', at_ w' c ps) E) w.
Proof. done. Qed.

(** What a poll may bring: any message, and the contract's view of it. *)
Definition received (c : contract) (p : Peer) (m : Message) : contract :=
  default c (contract_step id0 c (EvRecv p m)).

Lemma received_step c p m :
  contract_step id0 c (EvRecv p m) = Some (received c p m) ∧ child (received c p m) = child c.
Proof.
  unfold received. destruct (recv_step_total id0 c p m) as (c' & Hs & Hc). by rewrite Hs.
Qed.

Lemma sup_poll_spec p w c ps (E : world → Prop) :
  at_ w c ps → p ∈ ps →
  wp (poll env p) (post (λ r w', match r with
     | Ok (Some (_, m)) => at_ w' (received c p m) ps ∧ (size_of p w' < size_of p w)%nat
     | Ok None => at_ w' c ps ∧ (size_of p w' < size_of p w)%nat
     | Err _ => at_ w' c ps
     end) E) w.
Proof.
  intros Hat Hp. pose proof (proj2 Hat p Hp) as [t Ht].
  pose proof (proj2 (proj2 (proj1 Hat)) p t Ht) as Hv. pose proof (ch_poll_valid t Hv) as Hv'.
  pose proof (ch_poll_size t Hv) as Hn. unfold wp, poll, on_stream. rewrite Ht.
  destruct (ch_poll t) as [r t']. simpl in *.
  assert (at_ (pass env (set_stream p (Some t') w)) c ps) as Hat1 by (by apply sup_at_pass, at_set_stream).
  assert (∀ e w1, stream_of p w1 = Some t' → size_of p (emit e w1) = ch_size t') as Hsz.
  { intros e w1 Hs. unfold size_of. destruct p; simpl in *; by rewrite Hs. }
  destruct r as [[[v m]|]|e]; simpl in *.
  - destruct (received_step c p m) as [Hs Hc]. split; [by eapply at_emit|].
    rewrite Hsz by (by destruct p). unfold size_of. by rewrite Ht.
  - split; [done|]. unfold size_of. rewrite Ht. by destruct p.
  - done.
Qed.

Lemma journal_set_spec id ph pid started w c ps (E : world → Prop) :
  at_ w c ps → at_step c = phase_step ph → (∀ w', at_ w' c ps → E w') →
  wp (journal_set env id ph pid started) (post (λ _ w', at_ w' c ps) E) w.
Proof.
  intros Hat Hs HE. unfold journal_set. destruct (has_journal env); [|done].
  eapply wp_post_bind with (Q1 := λ r w', at_ w' c ps).
  { unfold wp, on_journal.
    pose proof (write_atomic_cases (journal_answers env (calls w))
      (mkStateJournal id ph (own_pid env) (Some pid) started) (jfs w)) as Hc.
    destruct (write_atomic _ _ _) as [r j].
    destruct r as [u|[e|x|]]; simpl; try done; destruct Hc as [(_ & _ & e' & ?)|(b & _ & _ & _ & [?|[e' ?]])];
      simplify_eq. }
  cbn beta. intros r w1 Hat1.
  eapply wp_post_bind with (Q1 := λ _ w', at_ w' c ps).
  { apply wp_post_modify. eapply at_emit; [done| |done]. simpl. by rewrite decide_True. }
  cbn beta. intros u w2 Hat2. unfold wp, lift. destruct r; simpl; auto.
Qed.

Lemma delete_runs a j :
  match StateJournal.delete a j with
  | (Err (Exit _), _) | (Err Stuck, _) => False
  | _ => True
  end.
Proof.
  unfold StateJournal.delete, mbind, prog_bind, gets, raise, modify.
  destruct (j_remove a), (journal_file j); simpl; repeat case_decide; done.
Qed.

Lemma journal_clear_spec w c ps (E : world → Prop) :
  at_ w c ps → is_alive (child c) = false →
  wp (journal_clear env) (post (λ _ w', at_ w' c ps) E) w.
Proof.
  intros Hat Hk. unfold journal_clear. destruct (has_journal env); [|done].
  eapply wp_post_bind with (Q1 := λ _ w', at_ w' c ps).
  { unfold wp, on_journal. pose proof (delete_runs (journal_answers env (calls w)) (jfs w)) as Hd.
    destruct (StateJournal.delete _ _) as [[u|[e|x|]] j]; simpl; done. }
  cbn beta. intros u w1 Hat1. apply wp_post_modify. eapply at_emit; [done| |done].
  simpl. by rewrite Hk.
Qed.

(** The guard. *)
Definition killed_c (c : contract) : contract :=
  mkContract (at_step c) (match child c with Alive pid => Killed pid | k => k end).

Lemma kill_spec w c ps (E : world → Prop) :
  at_ w c ps → at_step c ≠ WasReady →
  wp (kill_and_reap env) (post (λ _ w', at_ w' (killed_c c) ps) E) w.
Proof.
  intros [Hl Hps] Hs. unfold wp, kill_and_reap. pose proof Hl as (Ht & Hg & Hv).
  destruct (child c) as [|pid|pid|pid] eqn:Hc; rewrite Hg; simpl;
    try (split; [|done]; unfold killed_c; rewrite Hc; destruct c; simpl in *; by subst).
  split; [|intros []; [apply (Hps PO)|apply (Hps PN)]].
  split; [|split; [by unfold killed_c; rewrite Hc|intros []; [apply (Hv PO)|apply (Hv PN)]]].
  simpl. rewrite (runs_emit _ _ _ _ Ht). simpl. rewrite decide_True by done.
  unfold killed_c. by rewrite Hc.
Qed.

(** *** Handshakes and reads *)
Lemma exchange_spec p id role pid w c c' ps :
  at_ w c ps → p ∈ ps → (∀ m, received c p m = c) →
  (∀ v, send_step id0 c p (HelloAck v id) = Some c') →
  decided (at_step c) = false → decided (at_step c') = false →
  wp (exchange_hello_as_supervisor env p id role pid) (post (λ _ w', at_ w' c' ps) failed) w.
Proof.
  intros Hat Hp Hrecv Hsend Hc Hc'. unfold exchange_hello_as_supervisor.
  assert (∀ w', at_ w' c ps → failed w') as Hfail by (intros; by eapply failed_at).
  eapply wp_post_bind; [by eapply arm_spec|]. cbn beta. intros _ w1 [Hat1 _].
  eapply wp_post_bind; [by eapply sup_poll_spec|]. cbn beta. intros r w2 Hr.
  assert (at_ w2 c ps) as Hat2.
  { destruct r as [[[v m]|]|e]; [|by destruct Hr|done]. destruct Hr as [Hr _]. by rewrite Hrecv in Hr. }
  apply untimed with (c := c) (ps := ps); [done|done|]. clear Hr w2 Hat2. intros w2 Hat2.
  eapply wp_post_bind with (Q1 := λ _ w', at_ w' c ps).
  { destruct r as [[[v m]|]|e]; [done|apply wp_post_raise; auto|apply wp_post_raise; auto]. }
  cbn beta. intros hello w3 Hat3.
  destruct hello; try (apply wp_post_raise; by auto).
  case_decide; [apply wp_post_raise; by auto|].
  eapply wp_post_bind with (Q1 := λ _ w', at_ w' c ps).
  { destruct pid as [x|]; [|done]. case_decide; [apply wp_post_raise; by auto|done]. }
  cbn beta. intros _ w4 Hat4.
  eapply wp_post_bind with (Q1 := λ _ w', at_ w' c ps).
  { unfold wp, lift. destruct (negotiate_version _ _ _ _); simpl; auto. }
  cbn beta. intros v w5 Hat5.
  eapply wp_post_bind; [eapply sup_send_spec; [done|done|done|]|].
  - intros w' Hw'. by eapply failed_at.
  - cbn beta. intros _ w6 Hat6. done.
Qed.

(** The frames [read_until] and the seal loop skip. *)
Definition is_progress (m : Message) : bool :=
  match m with Heartbeat _ | SealProgress _ _ _ => true | _ => false end.

Lemma received_progress c p m : is_progress m = true → received c p m = c.
Proof. by destruct p, m. Qed.

Lemma read_until_loop_spec fuel p dl what pred w c ps (E : world → Prop) :
  at_ w c ps → p ∈ ps → (∀ w', at_ w' c ps → E w') →
  (∀ m, pred m = false → received c p m = c) → (size_of p w < fuel)%nat →
  wp (read_until_loop env fuel p dl what pred)
    (post (λ m w', pred m = true ∧ at_ w' (received c p m) ps) E) w.
Proof.
  intros Hat Hp Hfail Hpred. revert w Hat.
  induction fuel as [|fuel IH]; intros w Hat Hf; [lia|]. cbn [read_until_loop].
  eapply wp_post_bind with (Q1 := λ _ w', at_ w' c ps ∧ size_of p w' = size_of p w); [done|].
  cbn beta. intros t w1 [Hat1 Hn1]. case_decide.
  { apply untimed with (c := c) (ps := ps); [done|done|]. intros. apply wp_post_raise. auto. }
  eapply wp_post_bind; [by eapply arm_spec|]. cbn beta. intros _ w2 [Hat2 Hn2].
  eapply wp_post_bind; [by eapply sup_poll_spec|]. cbn beta. intros r w3 Hr.
  destruct r as [[[v m]|]|e].
  - destruct Hr as [Hat3 Hn3]. destruct (is_progress m) eqn:Hprog.
    + rewrite received_progress in Hat3 by done.
      destruct m; try done; apply IH; (done || lia).
    + assert (wp (if pred m then _ ← set_read_timeout p None; mret m
                  else _ ← set_read_timeout p None; raise (UnexpectedMessage (short_name m)))
        (post (λ m w', pred m = true ∧ at_ w' (received c p m) ps) E) w3) as Hgo.
      { destruct (pred m) eqn:Hpm; (eapply untimed; [done|done|]); intros w4 Hat4.
        - by apply wp_post_ret.
        - apply wp_post_raise. rewrite Hpred in Hat4 by done. auto. }
      by destruct m.
  - destruct Hr as [Hat3 Hn3].
    eapply wp_post_bind with (Q1 := λ _ w', at_ w' c ps ∧ (size_of p w' < size_of p w2)%nat); [done|].
    cbn beta. intros [] w4 [Hat4 Hn4]; [apply IH; (done || lia)|].
    apply untimed with (c := c) (ps := ps); [done|done|]. intros. apply wp_post_raise. auto.
  - apply untimed with (c := c) (ps := ps); [done|done|]. intros. apply wp_post_raise. auto.
Qed.

Lemma read_until_spec p timeout what pred w c ps (E : world → Prop) :
  at_ w c ps → p ∈ ps → (∀ w', at_ w' c ps → E w') →
  (∀ m, pred m = false → received c p m = c) →
  wp (read_until env p timeout what pred)
    (post (λ m w', pred m = true ∧ at_ w' (received c p m) ps) E) w.
Proof.
  intros Hat Hp Hfail Hpred. unfold read_until.
  eapply wp_post_bind with (Q1 := λ _ w', at_ w' c ps); [done|]. cbn beta. intros t w1 Hat1.
  eapply wp_post_bind with (Q1 := λ n w', at_ w' c ps ∧ (size_of p w' < n)%nat).
  { apply wp_post_gets. split; [done|]. unfold size_of. pose proof (proj2 Hat1 p Hp) as [x Hx]. rewrite Hx. lia. }
  cbn beta. intros n w2 [Hat2 Hn2]. by apply read_until_loop_spec.
Qed.

(** *** The seal phase *)
Lemma best_effort_spec v id reason w c ps (E : world → Prop) :
  at_ w c ps → PN ∈ ps → send_step id0 c PN (Abort id reason) = Some c →
  wp (send_best_effort_abort env v id reason) (post (λ _ w', at_ w' c ps) E) w.
Proof.
  intros Hat Hp Hs. unfold send_best_effort_abort.
  eapply wp_post_bind with (Q1 := λ _ w', at_ w' c ps); [|done].
  eapply wp_post_mono.
  - eapply (wp_post_attempt _ _ (λ w', at_ w' c ps) E), sup_send_spec; [done|done|done|auto].
  - by intros [] w'.
  - done.
Qed.

(** The child is alive and [s] is the step. *)
Definition running (s : step) (pid : Z) : contract := mkContract s (Alive pid).

Lemma abort_allowed s pid reason :
  s = SealAsked ∨ s = Begun → send_step id0 (running s pid) PN (Abort id0 reason) = Some (running s pid).
Proof. intros Hs. simpl. rewrite !bool_decide_eq_true_2; [done|done|done]. Qed.

Lemma seal_gave_up_spec v reason pid w ps :
  at_ w (running SealAsked pid) ps → PO ∈ ps → PN ∈ ps →
  wp (seal_gave_up env v id0 reason) (post (λ _ _, False) failed) w.
Proof.
  intros Hat Ho Hn. unfold seal_gave_up. eapply untimed; [done|done|]. intros w1 Hat1.
  eapply wp_post_bind; [eapply best_effort_spec; [done|done|apply abort_allowed; auto]|].
  cbn beta. intros _ w2 Hat2.
  eapply wp_post_bind; [by eapply kill_spec|]. cbn beta. intros _ w3 Hat3.
  eapply wp_post_bind; [by eapply journal_clear_spec|]. cbn beta. intros _ w4 Hat4.
  apply wp_post_raise. by eapply failed_at.
Qed.

Definition seal_post (pid : Z) (ps : list Peer) (r : result string unit) w : Prop :=
  match r with
  | Ok _ => at_ w (running WasSealed pid) ps
  | Err _ => at_ w (running SealAsked pid) ps
  end.

Lemma received_seal c i revs fp :
  received c PO (SealComplete i revs fp) =
  if decide (at_step c = SealAsked ∧ i = id0) then mkContract WasSealed (child c) else c.
Proof. done. Qed.

Lemma seal_wait_spec fuel dl v pid w ps :
  at_ w (running SealAsked pid) ps → PO ∈ ps → PN ∈ ps → (size_of PO w < fuel)%nat →
  wp (seal_wait_loop env fuel dl v id0) (post (seal_post pid ps) failed) w.
Proof.
  intros Hat Ho Hn. revert w Hat. set (c := running SealAsked pid).
  assert (∀ w', at_ w' c ps → failed w') as Hfail by (intros; by eapply failed_at).
  induction fuel as [|fuel IH]; intros w Hat Hf; [lia|]. cbn [seal_wait_loop].
  eapply wp_post_bind with (Q1 := λ _ w', at_ w' c ps ∧ size_of PO w' = size_of PO w); [done|].
  cbn beta. intros t w1 [Hat1 Hn1]. case_decide.
  { eapply wp_post_mono; [by eapply seal_gave_up_spec|done|done]. }
  eapply wp_post_bind; [by eapply arm_spec|]. cbn beta. intros _ w2 [Hat2 Hn2].
  eapply wp_post_bind; [by eapply sup_poll_spec|]. cbn beta. intros r w3 Hr.
  assert (∀ m w', at_ w' c ps → wp (_ ← set_read_timeout PO None; raise (UnexpectedMessage (short_name m)))
      (post (seal_post pid ps) failed) w') as Hunexp.
  { intros m w' Hat'. eapply untimed; [done|done|]. intros. apply wp_post_raise. auto. }
  destruct r as [[[v' m]|]|e].
  - destruct Hr as [Hat3 Hn3].
    destruct m; try (apply Hunexp; exact Hat3); try (apply IH; [exact Hat3|lia]).
    + rewrite received_seal in Hat3. destruct (decide (handoff_id = id0)) as [Hid|Hid].
      * rewrite decide_True in Hat3 by done. by apply wp_post_ret.
      * rewrite decide_False in Hat3 by tauto. by apply Hunexp.
    + case_decide; [by apply wp_post_ret|by apply Hunexp].
  - destruct Hr as [Hat3 Hn3].
    eapply wp_post_bind with (Q1 := λ _ w', at_ w' c ps ∧ (size_of PO w' < size_of PO w2)%nat); [done|].
    cbn beta. intros [] w4 [Hat4 Hn4]; [apply IH; [done|lia]|].
    eapply wp_post_mono; [by eapply seal_gave_up_spec|done|done].
  - eapply untimed; [done|done|]. intros. apply wp_post_raise. auto.
Qed.

(** *** Opening the streams *)

(** Nothing is open, and the trace of this handoff is empty. *)
Definition fresh w : Prop :=
  o_stream w = None ∧ n_stream w = None ∧ guard w = None ∧ trace w = [].

Lemma fresh_linked w : fresh w → linked w contract_start.
Proof.
  intros (Ho & Hn & Hg & Ht). split; [by rewrite Ht|]. split; [done|].
  intros [] t; simpl; congruence.
Qed.

Lemma linked_failed w c : linked w c → decided (at_step c) = false → failed w.
Proof. intros. by exists c. Qed.

Lemma sup_io_spec {A} (r : result IoError A) w c ps :
  at_ w c ps → decided (at_step c) = false →
  wp (io r) (post (λ a w', r = Ok a ∧ w' = w) failed) w.
Proof.
  intros Hat Hs. unfold wp. destruct r; simpl; [done|]. by eapply failed_at.
Qed.

(** Opening a stream. *)
Lemma at_open p t w c ps : at_ w c ps → ch_valid t → at_ (set_stream p (Some t) w) c (p :: ps).
Proof.
  intros Hat Hv. destruct (at_set_stream p t w c ps Hat Hv) as [Hl Hps].
  split; [done|]. intros q Hq. destruct (decide (q = p)) as [->|Hne].
  - unfold has. rewrite stream_set_eq. eauto.
  - apply Hps. set_solver.
Qed.

Lemma connect_spec w :
  valid_env → fresh w →
  wp (connect_incumbent env id0) (post (λ _ w', at_ w' (mkContract HelloO NoKid) [PO]) failed) w.
Proof.
  intros [Hve _] Hw. unfold connect_incumbent.
  assert (at_ w contract_start []) as Hat by (split; [by apply fresh_linked|set_solver]).
  eapply wp_post_bind; [by eapply sup_io_spec|]. cbn beta. intros t w1 [Ht ->].
  eapply wp_post_bind with (Q1 := λ _ w', at_ w' contract_start [PO]).
  { apply wp_post_modify, at_open; auto. }
  cbn beta. intros _ w2 Hat2.
  eapply wp_post_bind; [by eapply sup_io_spec|]. cbn beta. intros _ w3 [_ ->].
  eapply wp_post_bind.
  { eapply exchange_spec with (c' := mkContract HelloO NoKid); [done|set_solver|by intros []| |done|done].
    intros v. simpl. by rewrite !bool_decide_eq_true_2. }
  cbn beta. intros v w4 Hat4.
  eapply wp_post_bind; [by eapply sup_crash_here_spec|]. cbn beta. intros _ w5 Hat5. by apply wp_post_ret.
Qed.

Lemma start_spec w :
  valid_env → at_ w (mkContract HelloO NoKid) [PO] →
  wp (start_successor env id0) (post (λ '(pid, _) w', at_ w' (running HelloN pid) [PN; PO]) failed) w.
Proof.
  intros [_ Hve] Hat. unfold start_successor.
  eapply wp_post_bind with (Q1 := λ t w', ch_valid t ∧ w' = w).
  { unfold wp. destruct (make_pair env) eqn:Hp; simpl; [auto|]. by eapply failed_at. }
  cbn beta. intros t w1 [Hvt ->].
  eapply wp_post_bind; [by eapply sup_io_spec|]. cbn beta. intros pid w1 [_ ->].
  eapply wp_post_bind with (Q1 := λ _ w', at_ w' (running HelloO pid) [PO]).
  { apply wp_post_modify. destruct Hat as [(Ht & Hg & Hv) Hps].
    split; [|intros q Hq; destruct (Hps q Hq) as [x Hx]; exists x; by destruct q].
    split; [|split; [done|intros []; [apply (Hv PO)|apply (Hv PN)]]].
    simpl. rewrite (runs_emit _ _ _ _ Ht). reflexivity. }
  cbn beta. intros _ w2 Hat2.
  eapply wp_post_bind; [by eapply sup_crash_here_spec|]. cbn beta. intros _ w3 Hat3.
  eapply wp_post_bind with (Q1 := λ _ w', at_ w' (running HelloO pid) [PN; PO]).
  { by apply wp_post_modify, at_open. }
  cbn beta. intros _ w4 Hat4.
  eapply wp_post_bind; [by eapply sup_io_spec|]. cbn beta. intros _ w5 [_ ->].
  eapply wp_post_bind.
  { eapply exchange_spec with (c' := running HelloN pid); [done|set_solver|by intros []| |done|done].
    intros v. simpl. by rewrite !bool_decide_eq_true_2. }
  cbn beta. intros v w6 Hat6.
  eapply wp_post_bind; [by eapply sup_crash_here_spec|]. cbn beta. intros _ w7 Hat7. by apply wp_post_ret.
Qed.
(** *** The phases *)
Variable h : Handoff.
Hypothesis h_is : h_id h = id0.
Abbreviation both := [PO; PN].

Lemma h_journal_spec ph w c ps (E : world → Prop) :
  at_ w c ps → at_step c = phase_step ph → (∀ w', at_ w' c ps → E w') →
  wp (h_journal env h ph) (post (λ _ w', at_ w' c ps) E) w.
Proof. intros. by apply journal_set_spec. Qed.

Lemma drain_phase_spec spec pid w :
  at_ w (running HelloN pid) both →
  wp (drain_phase env h spec) (post (λ _ w', at_ w' (running WasDrained pid) both) failed) w.
Proof.
  intros Hat. unfold drain_phase.
  eapply wp_post_bind; [by apply (remaining_spec _ w (running HelloN pid) both)|].
  cbn beta. intros rem w1 Hat1.
  eapply wp_post_bind; [eapply (sup_send_spec _ _ _ _ _ (running Prepared pid)); [done|set_solver| |]|].
  { rewrite h_is. simpl. by rewrite !bool_decide_eq_true_2. }
  { intros w' Hw'. by eapply failed_at. }
  cbn beta. intros _ w2 Hat2.
  eapply wp_post_bind; [by eapply sup_crash_here_spec|]. cbn beta. intros _ w3 Hat3.
  eapply wp_post_bind; [eapply read_until_spec; [done|set_solver| |]|].
  { intros w' Hw'. by eapply failed_at. }
  { by intros []. }
  cbn beta. intros m w4 [Hm Hat4].
  assert (at_ w4 (running WasDrained pid) both) as Hat4' by (by destruct m). clear Hat4.
  eapply wp_post_bind; [by eapply sup_crash_here_spec|]. cbn beta. intros _ w5 Hat5.
  eapply h_journal_spec; [done|done|]. intros w' Hw'. by eapply failed_at.
Qed.

Lemma seal_phase_spec pid w :
  at_ w (running WasDrained pid) both →
  wp (seal_phase env h) (post (seal_post pid both) failed) w.
Proof.
  intros Hat. unfold seal_phase.
  eapply wp_post_bind; [eapply (sup_send_spec _ _ _ _ _ (running SealAsked pid)); [done|set_solver| |]|].
  { rewrite h_is. simpl. by rewrite !bool_decide_eq_true_2. }
  { intros w' Hw'. by eapply failed_at. }
  cbn beta. intros _ w1 Hat1.
  eapply wp_post_bind; [by eapply sup_crash_here_spec|]. cbn beta. intros _ w2 Hat2.
  eapply wp_post_bind with (Q1 := λ n w', at_ w' (running SealAsked pid) both ∧ (size_of PO w' < n)%nat).
  { apply wp_post_gets. split; [done|]. unfold size_of.
    pose proof (proj2 Hat2 PO ltac:(set_solver)) as [x Hx]. rewrite Hx. lia. }
  cbn beta. intros n w3 [Hat3 Hn3]. rewrite h_is.
  eapply wp_post_bind; [apply seal_wait_spec; [done|set_solver|set_solver|done]|].
  intros r w4 Hr. eapply wp_post_bind with (Q1 := λ _ w', seal_post pid both r w').
  { destruct r; (eapply wp_post_mono; [eapply sup_set_timeout_spec; [exact Hr|set_solver]|by intros ? ? []|done]). }
  cbn beta. intros _ w5 Hw5. by apply wp_post_ret.
Qed.

(** What the body leaves behind when it returns an outcome. *)
Definition outcome_ok (pid : Z) (o : HandoffOutcome) w : Prop :=
  outcome_id o = id0 ∧
  if committed o then
    at_ w (mkContract WasCommitted (Released pid)) both ∧ outcome_child o = Some pid ∧
    abort_reason o = None
  else
    outcome_child o = None ∧ is_Some (abort_reason o) ∧
    ∃ s, decided s = false ∧ at_ w (mkContract s (Killed pid)) both.

Lemma seal_failed_spec e pid w :
  at_ w (running SealAsked pid) both →
  wp (seal_failed env h e) (post (outcome_ok pid) failed) w.
Proof.
  intros Hat. unfold seal_failed. rewrite h_is.
  eapply wp_post_bind; [eapply best_effort_spec; [done|set_solver|apply abort_allowed; auto]|].
  cbn beta. intros _ w1 Hat1.
  eapply wp_post_bind; [by eapply kill_spec|]. cbn beta. intros _ w2 Hat2.
  eapply wp_post_bind; [by eapply journal_clear_spec|]. cbn beta. intros _ w3 Hat3.
  apply wp_post_ret. split; [done|]. split; [done|]. split; [by eexists|]. by exists SealAsked.
Qed.

(** [Begin] was said and no matching [Ready] came, or it came. *)
Definition begin_post (pid : Z) (r : Result Message) w : Prop :=
  match r with
  | Ok (Ready i _ _ _) => i = id0 ∧ at_ w (running WasReady pid) both
  | _ => at_ w (running Begun pid) both
  end.

Lemma received_ready c i ls hz revs :
  received c PN (Ready i ls hz revs) =
  if decide (at_step c = Begun ∧ i = id0) then mkContract WasReady (child c) else c.
Proof. done. Qed.

Lemma begin_phase_spec pid w :
  at_ w (running WasSealed pid) both →
  wp (begin_phase env h) (post (begin_post pid) failed) w.
Proof.
  intros Hat. unfold begin_phase. rewrite h_is.
  eapply wp_post_bind with (Q1 := λ r w', at_ w' (running Begun pid) both).
  { eapply wp_post_mono.
    - eapply (wp_post_attempt _ _ (λ w', at_ w' (running Begun pid) both) failed), sup_send_spec;
        [done|set_solver| |done].
      simpl. by rewrite !bool_decide_eq_true_2.
    - by intros [] w'.
    - done. }
  cbn beta. intros r w1 Hat1.
  eapply wp_post_bind with (Q1 := λ r w', match r with
      | Ok m => is_ready m = true ∧ at_ w' (received (running Begun pid) PN m) both
      | Err _ => at_ w' (running Begun pid) both end).
  { destruct r as [[]|e]; [|by apply wp_post_ret].
    eapply wp_post_bind; [by eapply sup_crash_here_spec|]. cbn beta. intros _ w2 Hat2.
    eapply wp_post_bind; [eapply h_journal_spec; [done|done|intros; by eapply failed_at]|].
    cbn beta. intros _ w3 Hat3.
    eapply wp_post_bind; [by apply (remaining_spec _ w3 (running Begun pid) both)|].
    cbn beta. intros rem w4 Hat4.
    eapply wp_post_attempt, (read_until_spec _ _ _ _ _ _ _ (λ w', at_ w' (running Begun pid) both));
      [done|set_solver|auto|by intros []]. }
  intros r' w2 Hr'. apply wp_post_ret. destruct r' as [m|e]; [|done].
  destruct Hr' as [Hm Hat2]. destruct m; try done. rewrite received_ready in Hat2.
  destruct (decide (handoff_id = id0)) as [->|Hid].
  - rewrite decide_True in Hat2 by done. by rewrite decide_False by tauto.
  - rewrite decide_False in Hat2 by tauto. by rewrite decide_True by done.
Qed.

Lemma disarm_spec pid w (E : world → Prop) :
  at_ w (running WasReady pid) both →
  wp disarm (post (λ p w', p = pid ∧ at_ w' (mkContract WasReady (Released pid)) both) E) w.
Proof.
  intros [(Ht & Hg & Hv) Hps]. unfold wp, disarm. simpl in Hg. rewrite Hg. simpl. split; [done|].
  split; [|intros []; [apply (Hps PO)|apply (Hps PN)]].
  split; [|split; [done|intros []; [apply (Hv PO)|apply (Hv PN)]]].
  simpl. rewrite (runs_emit _ _ _ _ Ht). simpl. by rewrite decide_True.
Qed.

(** A best-effort command: its error is dropped. *)
Lemma best_effort {A} (m : prog world Error A) w c ps (E : world → Prop) :
  wp m (post (λ _ w', at_ w' c ps) (λ w', at_ w' c ps)) w →
  wp (attempt m) (post (λ _ w', at_ w' c ps) E) w.
Proof.
  intros Hm. eapply wp_post_mono; [by eapply (wp_post_attempt _ _ _ E)|by intros []|done].
Qed.

Lemma commit_phase_spec pid w :
  at_ w (running WasReady pid) both →
  wp (commit_phase env h) (post (outcome_ok pid) failed) w.
Proof.
  intros Hat. unfold commit_phase. set (c := mkContract WasCommitted (Released pid)).
  eapply wp_post_bind; [by eapply sup_crash_here_spec|]. cbn beta. intros _ w1 Hat1.
  eapply wp_post_bind; [by eapply disarm_spec|]. cbn beta. intros p w2 [-> Hat2].
  eapply wp_post_bind with (Q1 := λ _ w', at_ w' c both).
  { apply best_effort. eapply sup_send_spec; [done|set_solver| |done].
    rewrite h_is. simpl. by rewrite !bool_decide_eq_true_2. }
  cbn beta. intros _ w3 Hat3.
  eapply wp_post_bind; [by eapply sup_crash_here_spec|]. cbn beta. intros _ w4 Hat4.
  eapply wp_post_bind with (Q1 := λ _ w', at_ w' c both).
  { apply best_effort. by eapply h_journal_spec. }
  cbn beta. intros _ w5 Hat5.
  eapply wp_post_bind; [by eapply journal_clear_spec|]. cbn beta. intros _ w6 Hat6.
  eapply wp_post_bind; [by eapply sup_crash_here_spec|]. cbn beta. intros _ w7 Hat7.
  apply wp_post_ret. split; [done|]. done.
Qed.

Lemma abort_phase_spec other pid w :
  at_ w (running Begun pid) both →
  wp (abort_phase env h other) (post (outcome_ok pid) failed) w.
Proof.
  intros Hat. unfold abort_phase. rewrite h_is.
  eapply wp_post_bind; [eapply best_effort_spec; [done|set_solver|apply abort_allowed; auto]|].
  cbn beta. intros _ w1 Hat1.
  eapply wp_post_bind; [by eapply kill_spec|]. cbn beta. intros _ w2 Hat2.
  eapply wp_post_bind.
  { eapply (sup_send_spec _ _ _ _ _ (mkContract Resumed (Killed pid))); [done|set_solver| |].
    - simpl. by rewrite !bool_decide_eq_true_2.
    - intros w' Hw'. by eapply failed_at. }
  cbn beta. intros _ w3 Hat3.
  eapply wp_post_bind; [eapply h_journal_spec; [done|done|intros; by eapply failed_at]|].
  cbn beta. intros _ w4 Hat4.
  eapply wp_post_bind; [by eapply journal_clear_spec|]. cbn beta. intros _ w5 Hat5.
  apply wp_post_ret. split; [done|]. split; [done|]. split; [by eexists|]. by exists Resumed.
Qed.

End safety.

Section whole.
Context {T : Type} `{ControlChannel T} `{!ChannelLaws T} `{JournalCodec} (env : SEnv T).
Implicit Types w : World T.
Abbreviation both := [PO; PN].
Abbreviation post := (Contract.post (crashed env)).

Lemma body_spec spec w :
  valid_env env → fresh w →
  wp (handoff_body env spec) (post (λ o w', ∃ pid, outcome_ok env pid o w') (failed env)) w.
Proof.
  intros Hv Hw. unfold handoff_body.
  eapply wp_post_bind with (Q1 := λ _ w', fresh w'); [done|]. cbn beta. intros t w1 Hw1.
  eapply wp_post_bind; [by apply connect_spec|]. cbn beta. intros vo w2 Hat2.
  eapply wp_post_bind; [by apply start_spec|]. intros [pid vn] w3 Hat3.
  assert (at_ env w3 (running HelloN pid) both) as Hat3'.
  { destruct Hat3 as [Hl Hps]. split; [done|]. set_solver. }
  clear Hat3. set (h := mkHandoff _ _ _ _ _ _). assert (h_id h = new_handoff_id env) as Hh by done.
  eapply wp_post_bind; [eapply h_journal_spec; [done|done|intros; by eapply failed_at]|].
  cbn beta. intros _ w4 Hat4.
  eapply wp_post_bind; [by apply drain_phase_spec|]. cbn beta. intros _ w5 Hat5.
  eapply wp_post_bind; [by apply seal_phase_spec|]. intros [[]|e] w6 Hat6; simpl in Hat6.
  2:{ eapply wp_post_mono; [by apply seal_failed_spec|eauto|done]. }
  eapply wp_post_bind; [by eapply sup_crash_here_spec|]. cbn beta. intros _ w7 Hat7.
  eapply wp_post_bind; [eapply h_journal_spec; [done|done|intros; by eapply failed_at]|].
  cbn beta. intros _ w8 Hat8.
  eapply wp_post_bind; [by apply begin_phase_spec|]. intros r w9 Hr.
  assert (∀ other, at_ env w9 (running Begun pid) both →
    wp (abort_phase env h other) (post (λ o w', ∃ pid, outcome_ok env pid o w') (failed env)) w9) as Hab.
  { intros. eapply wp_post_mono; [by apply abort_phase_spec|eauto|done]. }
  destruct r as [[]|]; try by apply Hab. destruct Hr as [-> Hat9].
  rewrite decide_True by done. eapply wp_post_mono; [by apply commit_phase_spec|eauto|done].
Qed.

(** *** Leaving: the destructors *)
Definition settled w : Prop :=
  o_stream w = None ∧ n_stream w = None ∧ guard w = None ∧ in_flight w = false.

Lemma close_linked p w c :
  linked env w c → (p = PO → is_alive (child c) = false) →
  linked env (close_stream p w) c ∧ stream_of p (close_stream p w) = None ∧
  ∀ q, q ≠ p → stream_of q (close_stream p w) = stream_of q w.
Proof.
  intros Hl Hp. unfold close_stream. destruct (stream_of p w) as [t|] eqn:Ht; [|done].
  split; [|split; [by destruct p|by intros [] ?; destruct p]].
  destruct Hl as (Hf & Hg & Hv). split; [|split].
  - replace (trace _) with (trace w ++ [EvClose p]) by (by destruct p).
    rewrite (runs_emit _ _ _ _ Hf). destruct p; simpl; [by rewrite Hp|done].
  - rewrite <- Hg. by destruct p.
  - intros q x Hx. apply (Hv q). destruct p, q; simpl in *; congruence.
Qed.

Lemma drop_locals_run w c :
  linked env w c → (is_alive (child c) = true → decided (at_step c) = false) →
  ∃ w', drop_locals env w = (Ok tt, w') ∧ settled w' ∧
        follows (new_handoff_id env) contract_start (trace w') = Some (killed_c c).
Proof.
  intros Hl Hd. destruct (close_linked PN w c Hl) as (Hl1 & Hn1 & Ho1); [done|].
  set (w1 := close_stream PN w) in *.
  assert (∃ w2, kill_and_reap env w1 = (Ok tt, w2) ∧ linked env w2 (killed_c c) ∧ n_stream w2 = None ∧
            guard w2 = None) as (w2 & Hk & Hl2 & Hn2 & Hg2).
  { assert (at_ env w1 c []) as Hat by (split; [done|set_solver]).
    unfold kill_and_reap. pose proof Hl1 as (_ & Hg & _). destruct (guard w1) as [pid|] eqn:Hg1.
    - assert (at_step c ≠ WasReady) as Hs.
      { intros Hs. destruct (child c) eqn:Hc; try done. by specialize (Hd eq_refl); rewrite Hs in Hd. }
      pose proof (kill_spec env w1 c [] (λ _, True) Hat Hs) as Hkill.
      unfold wp, kill_and_reap in Hkill. rewrite Hg1 in Hkill. simpl in Hkill.
      eexists; split; [done|]. split; [apply Hkill|]. done.
    - exists w1. split; [done|]. split; [|done]. clear -Hl1 Hg. destruct c as [s []]; done. }
  assert (is_alive (child (killed_c c)) = false) as Hdead by (unfold killed_c; by destruct (child c)).
  destruct (close_linked PO w2 _ Hl2) as (Hl3 & Ho3 & Hn3); [done|].
  exists (set_in_flight false (close_stream PO w2)). unfold drop_locals, mbind, prog_bind, modify.
  fold w1. rewrite Hk. split; [done|]. split; [|apply Hl3].
  split; [exact Ho3|]. split; [exact (eq_trans (Hn3 PN ltac:(done)) Hn2)|]. split; [|done].
  unfold close_stream. by destruct (stream_of PO w2).
Qed.

(** What holds of a finished call. *)
Definition handoff_post (r : result (exn Error) HandoffOutcome) w : Prop :=
  ∃ c, follows (new_handoff_id env) contract_start (trace w) = Some c ∧
  match r with
  | Ok o =>
      settled w ∧ outcome_id o = new_handoff_id env ∧
      if committed o then
        abort_reason o = None ∧
        ∃ pid, c = mkContract WasCommitted (Released pid) ∧ outcome_child o = Some pid
      else
        is_Some (abort_reason o) ∧ outcome_child o = None ∧ decided (at_step c) = false ∧
        ∃ pid, child c = Killed pid
  | Err (Raise _) =>
      settled w ∧ decided (at_step c) = false ∧ is_alive (child c) = false
  | Err (Exit code) => injected env code
  | Err Stuck => False
  end.

Lemma handoff_runs spec w :
  valid_env env → fresh w → in_flight w = false →
  handoff_post (perform_handoff env spec w).1 (perform_handoff env spec w).2.
Proof.
  intros Hv Hw Hb. unfold perform_handoff, mbind, prog_bind, gets, modify. rewrite Hb.
  pose proof (body_spec spec (set_in_flight true w) Hv Hw) as Hbody. unfold wp in Hbody.
  unfold attempt. destruct (handoff_body env spec (set_in_flight true w)) as [[o|[e|code|]] w1];
    simpl in Hbody; [..|done].
  - destruct Hbody as (pid & Hid & Ho). destruct (committed o) eqn:Hc.
    + destruct Ho as ([Hl _] & Hch & Hr).
      destruct (drop_locals_run _ _ Hl) as (w2 & -> & Hs & Hf); [done|].
      eexists; split; [exact Hf|]. simpl. rewrite Hc. eauto 8.
    + destruct Ho as (Hch & Hr & s & Hs & Hl & _).
      destruct (drop_locals_run _ _ Hl) as (w2 & -> & Hset & Hf); [done|].
      eexists; split; [exact Hf|]. simpl. rewrite Hc. eauto 8.
  - destruct Hbody as (c & Hl & Hd).
    destruct (drop_locals_run _ _ Hl) as (w2 & -> & Hset & Hf); [done|].
    eexists; split; [exact Hf|]. simpl. split; [done|]. split; [done|]. by destruct (child c).
  - destruct Hbody as (Hi & c & Hl & _). by exists c.
Qed.
End whole.

(** ** What a trace that follows the contract has behind it *)
Definition rank (s : step) : nat :=
  match s with
  | Start => 0 | HelloO => 1 | HelloN => 2 | Prepared => 3 | WasDrained => 4 | SealAsked => 5
  | WasSealed => 6 | Begun => 7 | WasReady => 8 | WasCommitted => 9 | Resumed => 8
  end.

Definition child_pid (k : kid) : option Z :=
  match k with NoKid => None | Alive p | Killed p | Released p => Some p end.

(** Case analysis of one step of the contract. *)
Ltac contract_cases :=
  let c := fresh "c" in let e := fresh "e" in let c' := fresh "c'" in
  let He := fresh "He" in let s := fresh "s" in let k := fresh "k" in
  intros c e c' He; destruct c as [s k];
  destruct e as [[] []| [] []| | | | | |[]]; simpl in He; unfold send_step in He; simpl in He;
  repeat case_match; simplify_eq/=;
  rewrite ?andb_true_iff, ?bool_decide_eq_true in *; destruct_and?; destruct_or?; simplify_eq/=.

Ltac contract_auto := by contract_cases; auto; naive_solver.

(** [raise_flag Q S]: the marked event behind the raised flag. *)
Ltac raise_flag Q S :=
  match goal with Hes : follows ?id contract_start ?es = Some ?c |- _ =>
    let e := fresh "e" in let He := fresh "He" in let Hs := fresh "Hs" in
    destruct (raised (step := contract_step id) Q S contract_start es c) as (e & He & Hs); [contract_auto|done|done| |];
    [try done|destruct e as [[] []| [] []| | | | | |[]]; simplify_eq/=]
  end.

Section past.
Context (id : HandoffId) (es : list event) (c : contract).
Hypothesis Hes : follows id contract_start es = Some c.

Lemma past_drained : (4 <= rank (at_step c))%nat → ∃ n b, EvRecv PO (Drained n b) ∈ es.
Proof.
  intros Hc%Nat.leb_le.
  raise_flag (λ c, (4 <=? rank (at_step c))%nat)
    (λ e, match e with EvRecv PO (Drained _ _) => true | _ => false end). eauto.
Qed.

Lemma past_sealed : (6 <= rank (at_step c))%nat → ∃ revs fp, EvRecv PO (SealComplete id revs fp) ∈ es.
Proof.
  intros Hc%Nat.leb_le.
  raise_flag (λ c, (6 <=? rank (at_step c))%nat)
    (λ e, match e with EvRecv PO (SealComplete i _ _) => bool_decide (i = id) | _ => false end).
  rewrite bool_decide_eq_true in *. subst. eauto.
Qed.

Lemma past_begun : (7 <= rank (at_step c))%nat → ∃ ok, EvSend PN (Begin id) ok ∈ es.
Proof.
  intros Hc%Nat.leb_le.
  raise_flag (λ c, (7 <=? rank (at_step c))%nat)
    (λ e, match e with EvSend PN (Begin i) _ => bool_decide (i = id) | _ => false end).
  rewrite bool_decide_eq_true in *. subst. eauto.
Qed.

Lemma past_ready :
  decided (at_step c) = true → ∃ ls hz revs, EvRecv PN (Ready id ls hz revs) ∈ es.
Proof.
  intros Hc.
  raise_flag (λ c, decided (at_step c))
    (λ e, match e with EvRecv PN (Ready i _ _ _) => bool_decide (i = id) | _ => false end).
  rewrite bool_decide_eq_true in *. subst. eauto.
Qed.

Lemma past_spawn p : EvSpawn p ∈ es ↔ child_pid (child c) = Some p.
Proof using Hes.
  rewrite (flag_iff (contract_step id) (λ c, bool_decide (child_pid (child c) = Some p)) (EvSpawn p) contract_start es c);
    [by rewrite bool_decide_eq_true| |done|done].
  contract_cases; rewrite ?bool_decide_eq_true; naive_solver.
Qed.

Lemma past_kill p : EvKill p ∈ es ↔ child c = Killed p.
Proof using Hes.
  rewrite (flag_iff (contract_step id) (λ c, bool_decide (child c = Killed p)) (EvKill p) contract_start es c);
    [by rewrite bool_decide_eq_true| |done|done].
  contract_cases; rewrite ?bool_decide_eq_true; naive_solver.
Qed.

Lemma past_disarm p : EvDisarm p ∈ es ↔ child c = Released p.
Proof using Hes.
  rewrite (flag_iff (contract_step id) (λ c, bool_decide (child c = Released p)) (EvDisarm p) contract_start es c);
    [by rewrite bool_decide_eq_true| |done|done].
  contract_cases; rewrite ?bool_decide_eq_true; naive_solver.
Qed.

Definition ended (s : step) (k : kid → bool) (c : contract) : bool :=
  bool_decide (at_step c = s) && k (child c).

Lemma past_commit i ok :
  EvSend PO (Commit i) ok ∈ es → at_step c = WasCommitted ∧ ∃ p, child c = Released p.
Proof using Hes.
  intros Hi.
  assert (ended WasCommitted is_released c = true) as [Hs Hk]%andb_true_iff.
  { eapply (stays (step := contract_step id)
      (ended WasCommitted is_released)
      (λ e, match e with EvSend PO (Commit _) _ => true | _ => false end)); [|exact Hes|right; by eexists].
    unfold ended; contract_cases; first [done|by intros [?|?]|naive_solver]. }
  apply bool_decide_eq_true in Hs. destruct (child c); naive_solver.
Qed.

Lemma past_resume i ok :
  EvSend PO (ResumeAfterAbort i) ok ∈ es → at_step c = Resumed ∧ ∃ p, child c = Killed p.
Proof using Hes.
  intros Hi.
  assert (ended Resumed is_killed c = true) as [Hs Hk]%andb_true_iff.
  { eapply (stays (step := contract_step id)
      (ended Resumed is_killed)
      (λ e, match e with EvSend PO (ResumeAfterAbort _) _ => true | _ => false end)); [|exact Hes|right; by eexists].
    unfold ended; contract_cases; first [done|by intros [?|?]|naive_solver]. }
  apply bool_decide_eq_true in Hs. destruct (child c); naive_solver.
Qed.

(** A child that is not alive was killed or released. *)
Lemma past_not_alive p :
  is_alive (child c) = false → EvSpawn p ∈ es → EvKill p ∈ es ∨ EvDisarm p ∈ es.
Proof using Hes.
  intros Hk Hp%past_spawn. rewrite past_kill, past_disarm. destruct (child c); naive_solver.
Qed.
End past.

(** What the order of events owes to the contract. *)
Lemma follows_order id es1 e es2 c :
  follows id contract_start (es1 ++ e :: es2) = Some c →
  match e with
  | EvSend PO (SealRequest i) _ => i = id ∧ ∃ n b, EvRecv PO (Drained n b) ∈ es1
  | EvSend PN (Begin i) _ => i = id ∧ ∃ revs fp, EvRecv PO (SealComplete id revs fp) ∈ es1
  | EvSend PO (Commit i) _ =>
      i = id ∧ (∃ ls hz revs, EvRecv PN (Ready id ls hz revs) ∈ es1) ∧
      (∃ pid, EvSpawn pid ∈ es1 ∧ EvDisarm pid ∈ es1) ∧
      (∀ pid, EvKill pid ∉ es1 ++ es2) ∧
      (∀ j ok, EvSend PO (ResumeAfterAbort j) ok ∉ es1 ++ es2)
  | EvSend PO (ResumeAfterAbort i) _ =>
      i = id ∧ (∃ ok, EvSend PN (Begin id) ok ∈ es1) ∧
      (∃ pid, EvSpawn pid ∈ es1 ∧ EvKill pid ∈ es1) ∧
      (∀ j ok, EvSend PO (Commit j) ok ∉ es1 ++ es2)
  | EvKill pid => EvSpawn pid ∈ es1 ∧ EvKill pid ∉ es1 ∧ EvDisarm pid ∉ es1
  | EvClose PO | EvJournalClear => ∀ pid, EvSpawn pid ∈ es1 → EvKill pid ∈ es1 ∨ EvDisarm pid ∈ es1
  | _ => True
  end.
Proof.
  intros Hes. destruct (runs_split _ _ _ _ _ Hes) as (c1 & c2 & H1 & Hs & _).
  assert (∀ x, x ∈ es1 ++ es2 → x ∈ es1 ++ e :: es2) as Hin by set_solver.
  destruct e as [[] [] ok| | |pid| | | |[]]; try done; simpl in Hs; repeat case_match; simplify_eq/=;
    rewrite ?andb_true_iff, ?bool_decide_eq_true in *; destruct_and?; subst; try done.
  - split; [done|]. apply (past_drained id es1 c1 H1). by rewrite H.
  - split; [done|]. split; [apply (past_ready id es1 c1 H1); by match goal with Hx : at_step c1 = _ |- _ => rewrite Hx end|].
    split; [exists pid; rewrite (past_spawn id es1 c1 H1), (past_disarm id es1 c1 H1), H; done|].
    destruct (past_commit id _ c Hes id ok) as (Hcs & p & Hp); [set_solver|]. split.
    + intros q Hq%Hin. apply (past_kill id _ c Hes) in Hq. congruence.
    + intros j b Hq%Hin. apply (past_resume id _ c Hes) in Hq as [? _]. congruence.
  - split; [done|]. split; [apply (past_begun id es1 c1 H1); rewrite H; simpl; lia|].
    destruct (child c1) as [| |p|] eqn:Hc; try done.
    split; [exists p; by rewrite (past_spawn id es1 c1 H1), (past_kill id es1 c1 H1), Hc|].
    destruct (past_resume id _ c Hes id ok) as (Hcs & _); [set_solver|].
    intros j b Hq%Hin. apply (past_commit id _ c Hes) in Hq as [? _]. congruence.
  - split; [done|]. apply (past_sealed id es1 c1 H1). by rewrite H.
  - rewrite (past_spawn id es1 c1 H1), (past_kill id es1 c1 H1), (past_disarm id es1 c1 H1).
    match goal with Hx : child c1 = Alive _ |- _ => by rewrite Hx end.
  - intros pid. apply (past_not_alive id es1 c2 H1). done.
  - intros pid. by apply (past_not_alive id es1 c2 H1).
Qed.

(** ** Runs to try the theorems on *)
Module SupervisorDemo.
Definition id1 : HandoffId := mkHandoffId 1.
Definition hello (s : Side) (pid : Z) : Message := Hello s pid [] 1 1 Capabilities_default.
Definition o_says (ms : list Message) : Script.script := Script.says (hello Incumbent 10 :: ms).
Definition n_says (ms : list Message) : Script.script :=
  Script.says (hello Protocol.Successor 77 :: ms).
Definition drained : list Message := [Heartbeat 1; Drained 0 true].
Definition sealed : list Message := drained ++ [SealProgress 1 2 5; SealComplete id1 [5] []].
Definition ready : list Message := [Heartbeat 2; Ready id1 ["http"%string] true [5]].

#[global] Instance codec : JournalCodec := {|
  journal_to_allocvec j := Ok (le_bytes 8 (default 0 (successor_pid j)));
  journal_from_bytes bs := Err tt
|}.

Definition env (o n : list Message) : SEnv Script.script :=
  mkSEnv 5 true (Ok (o_says o)) (Ok tt) (Ok (n_says n)) (Ok 77) (Ok tt) id1 (λ _, 1) (λ _, Ok 0%nat)
    (λ _, journal_ok) (λ t, t) (λ _, "an error"%string) (λ _, "id"%string) no_crash.
Definition spec : SpawnSpec := SpawnSpec_new "/bin/n".
Definition start : World Script.script :=
  mkWorld None None None false (mkJournalFs None None) 0 0 [] [].

Lemma env_valid o n : valid_env (env o n).
Proof. by split. Qed.
Lemma start_fresh : fresh start.
Proof. done. Qed.
Lemma start_settled : settled start.
Proof. done. Qed.
End SupervisorDemo.

(** ** Properties *)

(** C4: every call of [perform_handoff] keeps the supervisor's contract,
    whatever either peer says or fails to say, whichever write, journal write,
    [setsockopt] or spawn fails, and whenever a crash point fires.  A second
    call while one runs changes nothing and returns [HandoffInProgress].
    Otherwise the call returns (or exits with status 99 at a crash point that the
    environment names), and
    when it returns both streams are closed, no guard is armed and the mutex
    is free.  [committed] means that [Commit] was said after a matching
    [Ready] and the live successor is in the outcome; every other return,
    [Err] included, means that the call is before [Ready] and that a successor
    it spawned was killed. *)
Theorem perform_handoff_follows_contract {T} `{ControlChannel T} `{!ChannelLaws T} `{JournalCodec}
    (env : SEnv T) (spec : SpawnSpec) (w : World T) :
  valid_env env → fresh w →
  let '(r, w') := perform_handoff env spec w in
  if in_flight w then r = Err (Raise HandoffInProgress) ∧ w' = w
  else
    ∃ c, follows (new_handoff_id env) contract_start (trace w') = Some c ∧
    match r with
    | Ok o =>
        settled w' ∧ outcome_id o = new_handoff_id env ∧
        if committed o then
          abort_reason o = None ∧
          ∃ pid, c = mkContract WasCommitted (Released pid) ∧ outcome_child o = Some pid
        else
          is_Some (abort_reason o) ∧ outcome_child o = None ∧ decided (at_step c) = false ∧
          ∃ pid, child c = Killed pid
    | Err (Raise _) => settled w' ∧ decided (at_step c) = false ∧ is_alive (child c) = false
    | Err (Exit code) => injected env code
    | Err Stuck => False
    end.
Proof.
  intros Hv Hw. destruct (in_flight w) eqn:Hb.
  - unfold perform_handoff, mbind, prog_bind, gets. by rewrite Hb.
  - pose proof (handoff_runs env spec w Hv Hw Hb) as Hpost.
    by destruct (perform_handoff env spec w) as [r w'].
Qed.

(** A committed handoff. *)
Lemma perform_handoff_follows_contract_witness :
  let env := SupervisorDemo.env SupervisorDemo.sealed SupervisorDemo.ready in
  let '(r, w') := perform_handoff env SupervisorDemo.spec SupervisorDemo.start in
  r = Ok (mkOutcome SupervisorDemo.id1 true None (Some 77)) ∧ settled w' ∧
  ∃ c pid, follows SupervisorDemo.id1 contract_start (trace w') = Some c ∧
    c = mkContract WasCommitted (Released pid).
Proof.
  set (env := SupervisorDemo.env SupervisorDemo.sealed SupervisorDemo.ready). cbv zeta.
  pose proof (perform_handoff_follows_contract env SupervisorDemo.spec SupervisorDemo.start
    (SupervisorDemo.env_valid _ _) SupervisorDemo.start_fresh) as Hrun.
  assert ((perform_handoff env SupervisorDemo.spec SupervisorDemo.start).1 =
    Ok (mkOutcome SupervisorDemo.id1 true None (Some 77))) as Hr by (vm_compute; reflexivity).
  destruct (perform_handoff env SupervisorDemo.spec SupervisorDemo.start) as [r w'].
  simpl in Hr. subst r. destruct Hrun as (c & Hf & Hs & _ & _ & pid & Hc & _).
  split; [reflexivity|]. split; [exact Hs|]. exists c, pid. split; [exact Hf|exact Hc].
Defined.

(** C11: the order of what [perform_handoff] does, in every run.  The incumbent
    is asked to seal only after it drained; the successor is told to [Begin]
    only after the incumbent reported [SealComplete] for this handoff;
    [Commit] is said only after a [Ready] for this handoff, with the
    successor out of the guard's reach, and then the successor is never killed
    and [ResumeAfterAbort] never said; [ResumeAfterAbort] is said only after
    the successor that was told to [Begin] was killed and reaped, and then
    [Commit] is never said; the connection to the incumbent is closed (which
    the incumbent takes for an abort) and the journal cleared only when no
    successor of this handoff is left running unsupervised. *)
Theorem perform_handoff_event_order {T} `{ControlChannel T} `{!ChannelLaws T} `{JournalCodec}
    (env : SEnv T) (spec : SpawnSpec) (w : World T) es1 e es2 :
  valid_env env → fresh w →
  trace (perform_handoff env spec w).2 = es1 ++ e :: es2 →
  let id := new_handoff_id env in
  match e with
  | EvSend PO (SealRequest i) _ => i = id ∧ ∃ n b, EvRecv PO (Drained n b) ∈ es1
  | EvSend PN (Begin i) _ => i = id ∧ ∃ revs fp, EvRecv PO (SealComplete id revs fp) ∈ es1
  | EvSend PO (Commit i) _ =>
      i = id ∧ (∃ ls hz revs, EvRecv PN (Ready id ls hz revs) ∈ es1) ∧
      (∃ pid, EvSpawn pid ∈ es1 ∧ EvDisarm pid ∈ es1) ∧
      (∀ pid, EvKill pid ∉ es1 ++ es2) ∧
      (∀ j ok, EvSend PO (ResumeAfterAbort j) ok ∉ es1 ++ es2)
  | EvSend PO (ResumeAfterAbort i) _ =>
      i = id ∧ (∃ ok, EvSend PN (Begin id) ok ∈ es1) ∧
      (∃ pid, EvSpawn pid ∈ es1 ∧ EvKill pid ∈ es1) ∧
      (∀ j ok, EvSend PO (Commit j) ok ∉ es1 ++ es2)
  | EvKill pid => EvSpawn pid ∈ es1 ∧ EvKill pid ∉ es1 ∧ EvDisarm pid ∉ es1
  | EvClose PO | EvJournalClear => ∀ pid, EvSpawn pid ∈ es1 → EvKill pid ∈ es1 ∨ EvDisarm pid ∈ es1
  | _ => True
  end.
Proof.
  intros Hv Hw Htr. cbv zeta. destruct (in_flight w) eqn:Hb.
  - unfold perform_handoff, mbind, prog_bind, gets in Htr. rewrite Hb in Htr. simpl in Htr.
    destruct Hw as (_ & _ & _ & Ht). rewrite Ht in Htr. by destruct es1.
  - destruct (handoff_runs env spec w Hv Hw Hb) as (c & Hf & _). rewrite Htr in Hf.
    exact (follows_order _ _ _ _ _ Hf).
Qed.

(** An aborted handoff: the successor closes instead of answering [Begin]. *)
Lemma perform_handoff_event_order_witness :
  let env := SupervisorDemo.env SupervisorDemo.sealed [] in
  ∃ es1 es2, trace (perform_handoff env SupervisorDemo.spec SupervisorDemo.start).2 =
               es1 ++ EvSend PO (ResumeAfterAbort SupervisorDemo.id1) true :: es2 ∧
    ∃ pid, EvSpawn pid ∈ es1 ∧ EvKill pid ∈ es1.
Proof.
  set (env := SupervisorDemo.env SupervisorDemo.sealed []). cbv zeta.
  set (es := trace (perform_handoff env SupervisorDemo.spec SupervisorDemo.start).2).
  assert (∃ k, es = firstn k es ++ EvSend PO (ResumeAfterAbort SupervisorDemo.id1) true :: skipn (S k) es)
    as [k Hk] by (exists 18%nat; vm_compute; reflexivity).
  exists (firstn k es), (skipn (S k) es). split; [exact Hk|].
  destruct (perform_handoff_event_order env SupervisorDemo.spec SupervisorDemo.start _ _ _
    (SupervisorDemo.env_valid _ _) SupervisorDemo.start_fresh Hk) as (_ & _ & Hp & _). exact Hp.
Defined.

(** What a restarted supervisor does with the journal it finds. *)
Section resume.
Context {T : Type} `{ControlChannel T} `{!ChannelLaws T} `{JournalCodec} (env : SEnv T).
Implicit Types w : World T.

Lemma on_journal_run {A} (f : JournalAnswers → prog JournalFs Error A) w :
  match f (journal_answers env (calls w)) (jfs w) with
  | (Ok a, j) => on_journal env f w = (Ok (Ok a), set_jfs j (pass env w))
  | (Err (Raise e), j) => on_journal env f w = (Ok (Err e), set_jfs j (pass env w))
  | _ => True
  end.
Proof. unfold on_journal. by destruct (f _ _) as [[a|[]] j]. Qed.

(** The journal's operations end. *)
Lemma read_ends a j :
  match (StateJournal.read a j).1 with Ok _ | Err (Raise _) => True | _ => False end.
Proof.
  unfold StateJournal.read, mbind, prog_bind, gets, lift, raise, mret, prog_ret.
  destruct (j_read a), (journal_file j) as [bytes|]; simpl; try case_decide;
    try destruct (journal_from_bytes bytes); done.
Qed.

Lemma delete_ends a j :
  match (StateJournal.delete a j).1 with Ok _ | Err (Raise _) => True | _ => False end.
Proof.
  unfold StateJournal.delete, mbind, prog_bind, gets, modify, raise, mret, prog_ret.
  destruct (journal_file j); simpl; repeat (case_match; simplify_eq/=; try done); done.
Qed.

(** The best-effort probe of the incumbent. *)
Definition probe : prog (World T) Error unit :=
  stream ← attempt (blocking env (connect env));
  match stream with
  | Ok t =>
      _ ← modify (set_stream PO (Some t));
      _ ← set_read_timeout PO (Some 2000);
      _ ← on_stream PO ch_read_message
            (λ r w, match r with Ok (_, m) => emit (EvRecv PO m) (pass env w) | Err _ => pass env w end);
      modify (close_stream PO)
  | Err _ => mret tt
  end.

(** It reads at most one message, closes, and says nothing. *)
Definition probed (es : list event) : Prop :=
  match connect env with
  | Ok _ => es = [EvClose PO] ∨ ∃ m, es = [EvRecv PO m; EvClose PO]
  | Err _ => es = []
  end.

Definition probing (e : event) : Prop :=
  match e with EvRecv PO _ | EvClose PO => True | _ => False end.
Lemma probed_probing es : probed es → Forall probing es.
Proof. unfold probed. destruct (connect env); [intros [->|[m ->]]|intros ->]; by repeat constructor. Qed.

Lemma probe_run w :
  o_stream w = None →
  ∃ w' es, probe w = (Ok tt, w') ∧ o_stream w' = None ∧ jfs w' = jfs w ∧
           trace w' = trace w ++ es ∧ probed es.
Proof.
  intros Ho. unfold probe, probed, blocking, mbind, prog_bind, attempt, modify. destruct (connect env) as [t|e]; simpl.
  2:{ eexists _, []. by rewrite app_nil_r. }
  unfold set_read_timeout, on_stream. simpl.
  destruct (ch_set_read_timeout (Some 2000) t) as [r t1]. simpl.
  destruct (ch_read_message t1) as [[[v m]|e] t2]; simpl.
  - eexists _, [EvRecv PO m; EvClose PO]. split; [done|]. split_and!; [done..| |eauto].
    simpl. by rewrite <- app_assoc.
  - eexists _, [EvClose PO]. split; [done|]. split_and!; [done..|by left].
Qed.
End resume.

(** C37: after a restart [resume_from_journal] does not resume anything.
    Without a configured journal, or without an entry in it, it returns
    [None] and does nothing else; if the entry cannot be read or decoded it
    returns that error, does not probe, and leaves the file.  When there is an
    entry it probes the incumbent: it connects, reads at most one message,
    closes, and says nothing.  Then it removes the journal and returns the
    entry; if the removal fails it returns that error and the file stays. *)
Theorem resume_from_journal_clears {T} `{ControlChannel T} `{!ChannelLaws T} `{JournalCodec}
    (env : SEnv T) (w : World T) :
  o_stream w = None →
  (∀ n e, j_remove (journal_answers env n) = Err e → kind e ≠ NotFound) →
  let '(r, w') := resume_from_journal env w in
  if negb (has_journal env) then r = Ok None ∧ w' = w else
  match (StateJournal.read (journal_answers env (calls w)) (jfs w)).1 with
  | Ok None => r = Ok None ∧ o_stream w' = None ∧ jfs w' = jfs w ∧ trace w' = trace w
  | Err e =>
      (∃ x, e = Raise x) ∧ r = Err e ∧ o_stream w' = None ∧ jfs w' = jfs w ∧ trace w' = trace w
  | Ok (Some j) =>
      (∃ bytes, journal_file (jfs w) = Some bytes ∧ journal_from_bytes bytes = Ok j) ∧
      o_stream w' = None ∧ (∃ es, trace w' = trace w ++ es ∧ probed env es) ∧
      match r with
      | Ok entry => entry = Some j ∧ journal_file (jfs w') = None
      | Err (Raise x) =>
          jfs w' = jfs w ∧ ∃ n e, j_remove (journal_answers env n) = Err e ∧ x = Io e
      | Err _ => False
      end
  end.
Proof.
  intros Ho Hrm. unfold resume_from_journal. fold (probe env). destruct (has_journal env); simpl; [|done].
  set (a := journal_answers env (calls w)).
  assert (∃ rj, StateJournal.read a (jfs w) = (rj, jfs w) ∧
    match rj with
    | Ok (Some j) => ∃ bytes, journal_file (jfs w) = Some bytes ∧ journal_from_bytes bytes = Ok j
    | Err (Raise _) | Ok None => True
    | _ => False
    end) as (rj & Hr & Hcase).
  { unfold StateJournal.read, mbind, prog_bind, gets, lift, raise, mret, prog_ret.
    destruct (j_read a), (journal_file (jfs w)) as [bytes|]; simpl; try case_decide;
      try destruct (journal_from_bytes bytes) eqn:Hb; simpl; eexists; (split; [reflexivity|]); simpl; eauto. }
  pose proof (on_journal_run env StateJournal.read w) as Hrun. fold a in Hrun. rewrite Hr in *. simpl.
  unfold mbind at 1 2, prog_bind at 1 2.
  destruct rj as [[j|]|[e| |]]; try done; rewrite Hrun; simpl; try by split_and!; eauto.
  set (w0 := set_jfs (jfs w) (pass env w)).
  destruct (probe_run env w0) as (w1 & es & Hp & Ho1 & Hj1 & Ht1 & Hes); [done|]. simpl in Hj1, Ht1.
  unfold mbind, prog_bind, lift. rewrite Hp.
  pose proof (on_journal_run env StateJournal.delete w1) as Hdel.
  destruct Hcase as (bytes & Hf & Hb).
  revert Hdel. unfold StateJournal.delete, mbind, prog_bind, gets, modify, raise. rewrite Hj1, Hf.
  destruct (j_remove (journal_answers env (calls w1))) as [[]|e] eqn:He; simpl.
  - intros ->. simpl. split_and!; eauto.
  - rewrite decide_False by (by eapply Hrm). intros ->. simpl. split_and!; eauto.
Qed.

Lemma resume_from_journal_clears_witness :
  let w := mkWorld None None None false (mkJournalFs (Some (le_bytes 4 7)) None) 0 0 [] [] in
  let '(r, w') := resume_from_journal (H0 := JournalDemo.codec) (SupervisorDemo.env [] []) w in
  r = Ok (Some JournalDemo.entry) ∧ journal_file (jfs w') = None.
Proof.
  intros w.
  assert (∀ n e, j_remove (journal_answers (SupervisorDemo.env [] []) n) = Err e → kind e ≠ NotFound)
    as Hrm by (intros n e; discriminate).
  pose proof (resume_from_journal_clears (H0 := JournalDemo.codec) (SupervisorDemo.env [] []) w
    eq_refl Hrm) as Hrun.
  assert ((resume_from_journal (H0 := JournalDemo.codec) (SupervisorDemo.env [] []) w).1 =
    Ok (Some JournalDemo.entry)) as Hr by (vm_compute; reflexivity).
  destruct (resume_from_journal (H0 := JournalDemo.codec) (SupervisorDemo.env [] []) w) as [r w'].
  simpl in Hr, Hrun. subst r. destruct Hrun as (_ & _ & _ & _ & Hj). split; [reflexivity|exact Hj].
Defined.
