(* ===== verification/SupervisorTime.v ===== *)
(** * How long a handoff takes

    The wall-clock bound of [perform_handoff]: heartbeats and progress frames
    keep the connection alive but never extend a phase past its deadline by
    more than one wait. *)
From stdpp Require Import base tactics option list numbers strings gmap.
From S2P Require Import Prelude Contract Errors Protocol Lock Channel Crash StateJournal Supervisor SupervisorSafety.
Local Open Scope Z_scope.

Section time.
Context {T : Type} `{ControlChannel T} `{!ChannelLaws T} `{JournalCodec} (env : SEnv T).
Context (D : Z) (delays : ∀ n, 0 ≤ delay env n ≤ D).
Implicit Types w : World T.

Lemma D_nonneg : 0 ≤ D.
Proof using delays. pose proof (delays 0%nat). lia. Qed.

(** [until f m]: run at [t], [m] is over by [f t]. *)
Definition until {A} (f : Z → Z) (m : prog (World T) Error A) : Prop :=
  ∀ w, clock (m w).2 ≤ f (clock w).

(** [m] blocks at most [k] times. *)
Definition spends {A} (k : Z) (m : prog (World T) Error A) : Prop := until (λ t, t + k * D) m.

Lemma until_bind {A B} f g (m : prog (World T) Error A) (n : A → prog (World T) Error B) :
  until f m → (∀ a, until g (n a)) → (∀ t t', t ≤ t' → g t ≤ g t') → (∀ t, t ≤ g t) →
  until (λ t, g (f t)) (m ≫= n).
Proof.
  intros Hm Hn Hmono Hext w. specialize (Hm w). unfold mbind, prog_bind.
  destruct (m w) as [[a|e] w1]; simpl in *.
  - etrans; [apply Hn|]. by apply Hmono.
  - etrans; [exact Hm|]. apply Hext.
Qed.

Lemma spends_bind {A B} k1 k2 (m : prog (World T) Error A) (n : A → prog (World T) Error B) :
  spends k1 m → (∀ a, spends k2 (n a)) → 0 ≤ k2 → spends (k1 + k2) (m ≫= n).
Proof using delays.
  intros Hm Hn Hk w. pose proof D_nonneg. specialize (Hm w). unfold mbind, prog_bind.
  destruct (m w) as [[a|e] w1]; simpl in *.
  - specialize (Hn a w1). cbv beta in *. lia.
  - cbv beta in *. nia.
Qed.

Lemma until_attempt {A} f (m : prog (World T) Error A) : until f m → until f (attempt m).
Proof. intros Hm w. specialize (Hm w). unfold attempt. by destruct (m w) as [[a|[]] w1]. Qed.

Lemma spends_weaken {A} k k' (m : prog (World T) Error A) : spends k m → k ≤ k' → spends k' m.
Proof using delays. intros Hm Hk w. specialize (Hm w). pose proof D_nonneg. cbv beta in *. nia. Qed.

(** Commands that do not wait. *)
Definition instant {A} (m : prog (World T) Error A) : Prop := ∀ w, clock (m w).2 = clock w.

Lemma instant_spends {A} (m : prog (World T) Error A) : instant m → spends 0 m.
Proof. intros Hm w. rewrite Hm. lia. Qed.
Lemma instant_ret {A} (a : A) : instant (mret a).
Proof. done. Qed.
Lemma instant_raise {A} e : instant (raise (A := A) e).
Proof. done. Qed.
Lemma instant_lift {A} (r : result Error A) : instant (lift r).
Proof. intros w. by destruct r. Qed.
Lemma instant_bind {A B} (m : prog (World T) Error A) (n : A → prog (World T) Error B) :
  instant m → (∀ a, instant (n a)) → instant (m ≫= n).
Proof.
  intros Hm Hn w. specialize (Hm w). unfold mbind, prog_bind.
  destruct (m w) as [[a|e] w1]; simpl in *; [by rewrite Hn|done].
Qed.
Lemma instant_on_stream {A} p (f : T → A * T) k :
  (∀ a w, clock (k a w) = clock w) → instant (on_stream p f k).
Proof.
  intros Hk w. unfold on_stream. destruct (stream_of p w) as [t|]; [|done].
  destruct (f t) as [a t']. simpl. rewrite Hk. by destruct p.
Qed.
Lemma instant_timeout p d : instant (set_read_timeout p d).
Proof. by apply instant_on_stream. Qed.
Lemma instant_crash point : instant (crash_here env point).
Proof.
  intros w. unfold crash_here.
  by destruct (maybe_crash_run (E := Error) (crash env) mark point w)
    as [-> | (w' & -> & _ & [->|[path ->]])].
Qed.
Lemma instant_disarm : instant disarm.
Proof. intros w. unfold disarm. by destruct (guard w). Qed.
(** Commands that wait. *)
Lemma pass_clock w : clock (pass env w) ≤ clock w + D.
Proof using delays. simpl. pose proof (delays (calls w)). lia. Qed.

Lemma spends_poll p : spends 1 (poll env p).
Proof using delays.
  intros w. unfold poll, on_stream. pose proof (pass_clock w). pose proof D_nonneg.
  destruct (stream_of p w) as [t|]; [|simpl in *; lia].
  destruct (ch_poll t) as [[[[v m]|]|e] t']; destruct p; simpl in *; lia.
Qed.

Lemma spends_send p v m : spends 1 (send env p v m).
Proof using delays.
  intros w. unfold send, on_stream, mbind, prog_bind, lift. pose proof (pass_clock w). pose proof D_nonneg.
  destruct (stream_of p w) as [t|]; [|simpl in *; lia].
  destruct (ch_write v m t) as [[[]|e] t']; destruct p; simpl in *; lia.
Qed.

Lemma spends_kill : spends 1 (kill_and_reap env).
Proof using delays.
  intros w. unfold kill_and_reap. pose proof (pass_clock w). pose proof D_nonneg.
  destruct (guard w); simpl in *; lia.
Qed.

Lemma spends_blocking {A} (r : result IoError A) : spends 1 (blocking env r).
Proof using delays. intros w. pose proof (pass_clock w). destruct r; simpl in *; lia. Qed.

Lemma spends_attempt {A} k (m : prog (World T) Error A) : spends k m → spends k (attempt m).
Proof. apply until_attempt. Qed.

Lemma spends_peek : spends 1 (read_would_block env).
Proof using delays. intros w. pose proof (pass_clock w). simpl in *. lia. Qed.

Lemma spends_on_journal {A} (f : JournalAnswers → prog JournalFs Error A) : spends 1 (on_journal env f).
Proof using delays.
  intros w. unfold on_journal. pose proof (pass_clock w).
  destruct (f _ _) as [[a|[]] j]; simpl in *; lia.
Qed.

Lemma spends_instant {A B} k (m : prog (World T) Error A) (n : A → prog (World T) Error B) :
  instant m → (∀ a, spends k (n a)) → 0 ≤ k → spends k (m ≫= n).
Proof using delays. intros. apply (spends_bind 0 k); [by apply instant_spends|done|done]. Qed.

Lemma spends_then_instant {A B} k (m : prog (World T) Error A) (n : A → prog (World T) Error B) :
  spends k m → (∀ a, instant (n a)) → spends k (m ≫= n).
Proof using delays.
  intros Hm Hn. eapply spends_weaken; [eapply (spends_bind k 0); [done| |lia]|lia].
  intros a. by apply instant_spends.
Qed.

Lemma spends_arm p d : spends 1 (arm_recv_timeout env p d).
Proof using delays.
  apply spends_instant; [apply instant_timeout| |lia]. intros [[]|e].
  - eapply spends_weaken; [by apply instant_spends, instant_ret|lia].
  - case_decide.
    + apply spends_then_instant; [apply spends_peek|]. by intros [].
    + eapply spends_weaken; [by apply instant_spends, instant_raise|lia].
Qed.

Lemma spends_journal_set id ph pid started : spends 1 (journal_set env id ph pid started).
Proof using delays.
  unfold journal_set. destruct (has_journal env).
  - apply spends_then_instant; [apply spends_on_journal|]. intros r.
    apply instant_bind; [done|]. intros []. apply instant_lift.
  - eapply spends_weaken; [by apply instant_spends, instant_ret|lia].
Qed.

Lemma spends_journal_clear : spends 1 (journal_clear env).
Proof using delays.
  unfold journal_clear. destruct (has_journal env).
  - by apply spends_then_instant; [apply spends_on_journal|].
  - eapply spends_weaken; [by apply instant_spends, instant_ret|lia].
Qed.

Lemma spends_abort v id reason : spends 1 (send_best_effort_abort env v id reason).
Proof using delays. apply spends_then_instant; [apply spends_attempt, spends_send|done]. Qed.

Lemma spends_exchange p id role pid : spends 3 (exchange_hello_as_supervisor env p id role pid).
Proof using delays.
  unfold exchange_hello_as_supervisor.
  assert (∀ e, spends 1 (raise (A := ProtoVersion) e)) as Hr
    by (intros e; eapply spends_weaken; [by apply instant_spends, instant_raise|lia]).
  apply (spends_bind 1 2); [apply spends_arm|intros _|lia].
  apply (spends_bind 1 1); [apply spends_poll|intros r|lia].
  apply spends_instant; [apply instant_timeout|intros _|lia].
  apply spends_instant; [by destruct r as [[[]|]|]|intros m|lia].
  destruct m; try apply Hr. case_decide; [apply Hr|].
  apply spends_instant; [destruct pid; [by case_decide|done]|intros _|lia].
  apply spends_instant; [apply instant_lift|intros v|lia].
  apply spends_then_instant; [apply spends_send|done].
Qed.

(** *** The two loops: over by the deadline and two waits *)
Lemma until_loop fuel p dl what pred :
  until (λ t, t `max` (dl + 2 * D)) (read_until_loop env fuel p dl what pred).
Proof using delays.
  induction fuel as [|fuel IH]; intros w; [simpl; lia|]. cbn [read_until_loop].
  pose proof D_nonneg as HD.
  assert (∀ (m : prog (World T) Error Message) w1, instant m → clock w1 ≤ dl + 2 * D →
    clock (m w1).2 ≤ clock w `max` (dl + 2 * D)) as Hend by (intros m w1 Hm Hw; rewrite Hm; lia).
  unfold mbind at 1, prog_bind at 1, now, gets. case_decide as Hdl.
  { rewrite (instant_bind (set_read_timeout p None)); [simpl; lia|apply instant_timeout|done]. }
  set (d := _ `max` _). pose proof (spends_arm p d w) as Harm. unfold mbind at 1, prog_bind at 1.
  destruct (arm_recv_timeout env p d w) as [[[]|e] w1]; cbn [fst snd] in *; [|lia].
  pose proof (spends_poll p w1) as Hpoll. unfold mbind at 1, prog_bind at 1.
  destruct (poll env p w1) as [[r|e] w2]; cbn [fst snd] in *; [|lia].
  pose proof (IH w2) as HIH. cbv beta in *.
  assert (clock w2 ≤ dl + 2 * D) as Hw2 by lia.
  assert (∀ e, instant (_ ← set_read_timeout p None; raise (A := Message) e)) as Hraise
    by (intros e; apply instant_bind; [apply instant_timeout|done]).
  destruct r as [[[v m]|]|e].
  - assert (∀ b : bool, instant (if b then _ ← set_read_timeout p None; mret m
             else _ ← set_read_timeout p None; raise (UnexpectedMessage (short_name m)))) as Hgo.
    { intros []; [apply instant_bind; [apply instant_timeout|done]|apply Hraise]. }
    destruct m; try (apply Hend; [apply Hgo|lia]); lia.
  - unfold mbind at 1, prog_bind at 1, has_partial, gets.
    destruct (match stream_of p w2 with Some t => ch_has_partial t | None => false end); [lia|].
    apply Hend; [apply Hraise|lia].
  - apply Hend; [apply Hraise|lia].
Qed.

Lemma until_read p timeout what pred :
  until (λ t, t + timeout `max` MIN_READ_TIMEOUT + 2 * D) (read_until env p timeout what pred).
Proof using delays.
  intros w. unfold read_until, mbind, prog_bind, now, fuel_for, gets.
  etrans; [apply until_loop|]. pose proof D_nonneg. unfold MIN_READ_TIMEOUT. lia.
Qed.

Lemma spends_gave_up v id reason : spends 3 (seal_gave_up env v id reason).
Proof using delays.
  unfold seal_gave_up. apply spends_instant; [apply instant_timeout|intros _|lia].
  apply (spends_bind 1 2); [apply spends_abort|intros _|lia].
  apply (spends_bind 1 1); [apply spends_kill|intros _|lia].
  by apply spends_then_instant; [apply spends_journal_clear|].
Qed.

Lemma until_seal fuel dl v id :
  until (λ t, t `max` (dl + 2 * D) + 3 * D) (seal_wait_loop env fuel dl v id).
Proof using delays.
  induction fuel as [|fuel IH]; intros w; [simpl; pose proof D_nonneg; lia|]. cbn [seal_wait_loop].
  pose proof D_nonneg as HD.
  assert (∀ (m : prog (World T) Error (result string unit)) w1, spends 3 m → clock w1 ≤ dl + 2 * D →
    clock (m w1).2 ≤ clock w `max` (dl + 2 * D) + 3 * D) as Hend.
  { intros m w1 Hm Hw. etrans; [apply Hm|]. lia. }
  unfold mbind at 1, prog_bind at 1, now, gets. case_decide as Hdl.
  { etrans; [apply spends_gave_up|]. lia. }
  set (d := _ `max` _). pose proof (spends_arm PO d w) as Harm. unfold mbind at 1, prog_bind at 1.
  destruct (arm_recv_timeout env PO d w) as [[[]|e] w1]; cbn [fst snd] in *; [|lia].
  pose proof (spends_poll PO w1) as Hpoll. unfold mbind at 1, prog_bind at 1.
  destruct (poll env PO w1) as [[r|e] w2]; cbn [fst snd] in *; [|lia].
  pose proof (IH w2) as HIH. cbv beta zeta in *.
  assert (clock w2 ≤ dl + 2 * D) as Hw2 by lia.
  assert (∀ (m : prog (World T) Error (result string unit)) w1, instant m → clock w1 ≤ dl + 2 * D →
    clock (m w1).2 ≤ clock w `max` (dl + 2 * D) + 3 * D) as Hnow.
  { intros m w3 Hm Hw. rewrite Hm. lia. }
  assert (∀ e, instant (_ ← set_read_timeout PO None; raise (A := result string unit) e)) as Hraise
    by (intros e; apply instant_bind; [apply instant_timeout|done]).
  destruct r as [[[v' m]|]|e].
  - destruct m; try case_decide; try (apply Hnow; [first [apply Hraise|apply instant_ret]|lia]); lia.
  - unfold mbind at 1, prog_bind at 1, has_partial, gets.
    destruct (match stream_of PO w2 with Some t => ch_has_partial t | None => false end); [lia|].
    apply Hend; [apply spends_gave_up|lia].
  - apply Hnow; [apply Hraise|lia].
Qed.

(** *** The phases *)
Definition adds {A} (c : Z) (m : prog (World T) Error A) : Prop := until (λ t, t + c) m.

Lemma adds_bind {A B} a b (m : prog (World T) Error A) (n : A → prog (World T) Error B) :
  adds a m → (∀ x, adds b (n x)) → 0 ≤ b → adds (a + b) (m ≫= n).
Proof.
  intros Hm Hn Hb w. etrans; [apply (until_bind _ _ m n Hm Hn)|]; intros; cbv beta in *; lia.
Qed.

Lemma until_weaken {A} f g (m : prog (World T) Error A) : until f m → (∀ t, f t ≤ g t) → until g m.
Proof. intros Hm Hfg w. etrans; [apply Hm|apply Hfg]. Qed.

Lemma until_instant {A B} f (m : prog (World T) Error A) (n : A → prog (World T) Error B) :
  instant m → (∀ a, until f (n a)) → (∀ t, t ≤ f t) → until f (m ≫= n).
Proof.
  intros Hm Hn Hf w. specialize (Hm w). unfold mbind, prog_bind.
  destruct (m w) as [[a|e] w1]; simpl in *; rewrite <- Hm; [apply Hn|apply Hf].
Qed.

Lemma until_then_instant {A B} f (m : prog (World T) Error A) (n : A → prog (World T) Error B) :
  until f m → (∀ a, instant (n a)) → until f (m ≫= n).
Proof.
  intros Hm Hn w. specialize (Hm w). unfold mbind, prog_bind.
  destruct (m w) as [[a|e] w1]; simpl in *; [by rewrite Hn|done].
Qed.

Lemma adds_instant {A} (m : prog (World T) Error A) c : instant m → 0 ≤ c → adds c m.
Proof. intros Hm Hc w. rewrite Hm. lia. Qed.

Lemma adds_spends {A} k c (m : prog (World T) Error A) : spends k m → k * D ≤ c → adds c m.
Proof. intros Hm Hc w. specialize (Hm w). cbv beta in *. lia. Qed.

Lemma instant_io {A} (r : result IoError A) : instant (io r).
Proof. intros w. by destruct r. Qed.

(** [k] waits, then what takes [c] more. *)
Lemma adds_then {A B} k c (m : prog (World T) Error A) (n : A → prog (World T) Error B) :
  spends k m → 0 ≤ k → (∀ a, adds c (n a)) → 0 ≤ c → adds (k * D + c) (m ≫= n).
Proof. intros Hm Hk Hn Hc. apply adds_bind; [|done|done]. eapply adds_spends; [exact Hm|lia]. Qed.

Lemma adds_connect id : adds (4 * D) (connect_incumbent env id).
Proof using delays.
  pose proof D_nonneg. unfold connect_incumbent.
  eapply until_weaken; [apply (adds_then 1 (3 * D)); [apply spends_blocking|lia|intros t|lia]|intros t; cbv beta; lia].
  apply until_instant; [done|intros _|lia]. apply until_instant; [apply instant_io|intros _|lia].
  apply until_then_instant; [by eapply adds_spends, Z.le_refl; apply spends_exchange|]. intros v.
  apply instant_bind; [apply instant_crash|done].
Qed.

Lemma adds_start id : adds (4 * D) (start_successor env id).
Proof using delays.
  pose proof D_nonneg. unfold start_successor.
  apply until_instant; [apply instant_lift|intros t|lia].
  eapply until_weaken; [apply (adds_then 1 (3 * D)); [apply spends_blocking|lia|intros pid|lia]|intros t'; cbv beta; lia].
  apply until_instant; [done|intros _|lia].
  apply until_instant; [apply instant_crash|intros _|lia]. apply until_instant; [done|intros _|lia].
  apply until_instant; [apply instant_io|intros _|lia].
  apply until_then_instant; [by eapply adds_spends, Z.le_refl; apply spends_exchange|]. intros v.
  apply instant_bind; [apply instant_crash|done].
Qed.

Lemma adds_journal h ph : adds D (h_journal env h ph).
Proof using delays. eapply adds_spends; [apply spends_journal_set|lia]. Qed.

Definition drain_wait (spec : SpawnSpec) : Z := (drain_grace spec + WIRE_SLACK) `max` MIN_READ_TIMEOUT.

Lemma adds_drain h spec : adds (drain_wait spec + 4 * D) (drain_phase env h spec).
Proof using delays.
  pose proof D_nonneg. assert (0 ≤ drain_wait spec) by (unfold drain_wait, MIN_READ_TIMEOUT; lia).
  unfold drain_phase. apply until_instant; [done|intros r|lia].
  eapply until_weaken; [apply (adds_then 1 (drain_wait spec + 3 * D)); [apply spends_send|lia|intros _|lia]|intros t; cbv beta; lia].
  apply until_instant; [apply instant_crash|intros _|lia].
  eapply until_weaken; [eapply (adds_bind (drain_wait spec + 2 * D) D)|intros t; cbv beta; lia]; [| |lia].
  - eapply until_weaken; [apply until_read|]. intros t. unfold drain_wait. lia.
  - intros m. apply until_instant; [apply instant_crash|intros _; apply adds_journal|lia].
Qed.

Lemma until_seal_phase h :
  until (λ t, (t + D) `max` (h_total_deadline_at h + WIRE_SLACK + 2 * D) + 3 * D) (seal_phase env h).
Proof using delays.
  pose proof D_nonneg. unfold seal_phase.
  apply (until_bind (λ t, t + D) (λ t, t `max` (h_total_deadline_at h + WIRE_SLACK + 2 * D) + 3 * D));
    [eapply adds_spends; [apply spends_send|lia]|intros _|lia..].
  apply until_instant; [apply instant_crash|intros _|lia].
  apply until_instant; [done|intros fuel|lia].
  apply until_then_instant; [apply until_seal|]. intros r.
  apply instant_bind; [apply instant_timeout|done].
Qed.

Lemma until_ready (dl : Z) :
  until (λ t, dl `max` (t + MIN_READ_TIMEOUT) + WIRE_SLACK + 2 * D)
    (remaining ← remaining_until dl; attempt (read_until env PN (remaining + WIRE_SLACK) "Ready" is_ready)).
Proof using delays.
  intros w. unfold remaining_until, mbind at 1 2, prog_bind at 1 2, now, gets, mret, prog_ret.
  etrans; [apply until_attempt, until_read|]. pose proof D_nonneg.
  unfold WIRE_SLACK, MIN_READ_TIMEOUT. case_decide; lia.
Qed.

Lemma until_begin h :
  until (λ t, h_total_deadline_at h `max` (t + 2 * D + MIN_READ_TIMEOUT) + WIRE_SLACK + 2 * D)
    (begin_phase env h).
Proof using delays.
  pose proof D_nonneg as HD.
  assert (∀ t k, 0 ≤ k → t ≤ h_total_deadline_at h `max` (t + k + MIN_READ_TIMEOUT) + WIRE_SLACK + 2 * D) as Hext
    by (unfold WIRE_SLACK, MIN_READ_TIMEOUT; lia).
  unfold begin_phase.
  eapply until_weaken; [apply (until_bind (λ t, t + D)
    (λ t, h_total_deadline_at h `max` (t + D + MIN_READ_TIMEOUT) + WIRE_SLACK + 2 * D))|intros t; cbv beta; lia];
    [eapply adds_spends; [apply spends_attempt, spends_send|lia]|intros r|lia|intros t; by apply Hext].
  apply until_then_instant; [|done]. destruct r as [[]|e].
  - apply until_instant; [apply instant_crash|intros _|intros t; by apply Hext].
    intros w. etrans; [apply (until_bind _ _ _ _ (adds_journal h AwaitingReady) (λ _, until_ready _))|];
      cbv beta; unfold WIRE_SLACK, MIN_READ_TIMEOUT; intros; lia.
  - intros w. simpl. by apply Hext.
Qed.

Lemma adds_clear : adds D (journal_clear env).
Proof using delays. eapply adds_spends; [apply spends_journal_clear|lia]. Qed.

Lemma adds_commit h : adds (3 * D) (commit_phase env h).
Proof using delays.
  pose proof D_nonneg. unfold commit_phase.
  apply until_instant; [apply instant_crash|intros _|lia].
  apply until_instant; [apply instant_disarm|intros child|lia].
  eapply until_weaken; [apply (adds_then 1 (2 * D)); [apply spends_attempt, spends_send|lia|intros _|lia]|intros t; cbv beta; lia].
  apply until_instant; [apply instant_crash|intros _|lia].
  eapply until_weaken; [apply (adds_bind D D)|intros t; cbv beta; lia]; [| |lia].
  - apply until_attempt, adds_journal.
  - intros _. apply until_then_instant; [apply adds_clear|].
    intros _. apply instant_bind; [apply instant_crash|done].
Qed.

Lemma adds_abort h other : adds (5 * D) (abort_phase env h other).
Proof using delays.
  pose proof D_nonneg. unfold abort_phase.
  eapply until_weaken; [apply (adds_then 1 (4 * D)); [apply spends_abort|lia|intros _|lia]|intros t; cbv beta; lia].
  eapply until_weaken; [apply (adds_then 1 (3 * D)); [apply spends_kill|lia|intros _|lia]|intros t; cbv beta; lia].
  eapply until_weaken; [apply (adds_then 1 (2 * D)); [apply spends_send|lia|intros _|lia]|intros t; cbv beta; lia].
  eapply until_weaken; [apply (adds_bind D D)|intros t; cbv beta; lia]; [apply adds_journal| |lia].
  intros _. by apply until_then_instant; [apply adds_clear|].
Qed.

Lemma adds_seal_failed h e : adds (3 * D) (seal_failed env h e).
Proof using delays.
  pose proof D_nonneg. unfold seal_failed.
  eapply until_weaken; [apply (adds_then 1 (2 * D)); [apply spends_abort|lia|intros _|lia]|intros t; cbv beta; lia].
  eapply until_weaken; [apply (adds_then 1 D); [apply spends_kill|lia|intros _|lia]|intros t; cbv beta; lia].
  by apply until_then_instant; [apply adds_clear|].
Qed.

(** From the drain's end: [dl] is the deadline of the handoff. *)
Definition rest_by (dl t : Z) : Z :=
  (t + D) `max` (dl + WIRE_SLACK + 2 * D) + 13 * D + MIN_READ_TIMEOUT + WIRE_SLACK.

Lemma until_sealed h :
  until (rest_by (h_total_deadline_at h))
    (seal_outcome ← seal_phase env h;
     match seal_outcome with
     | Err error => seal_failed env h error
     | Ok _ =>
         _ ← crash_here env points.S_AFTER_SEAL_COMPLETE_RECV;
         _ ← h_journal env h Sealing;
         ready_result ← begin_phase env h;
         match ready_result with
         | Ok (Ready i _ _ _ as m) =>
             if decide (i = h_id h) then commit_phase env h else abort_phase env h ready_result
         | other => abort_phase env h other
         end
     end).
Proof using delays.
  pose proof D_nonneg as HD. set (dl := h_total_deadline_at h).
  assert (∀ t, t ≤ dl `max` (t + 3 * D + MIN_READ_TIMEOUT) + WIRE_SLACK + 7 * D) as Hext
    by (unfold WIRE_SLACK, MIN_READ_TIMEOUT; lia).
  eapply until_weaken;
    [apply (until_bind _ (λ t, dl `max` (t + 3 * D + MIN_READ_TIMEOUT) + WIRE_SLACK + 7 * D) _ _
       (until_seal_phase h))|intros t; cbv beta; unfold rest_by, WIRE_SLACK, MIN_READ_TIMEOUT; fold dl; lia];
    [|intros; lia|exact Hext].
  intros [[]|e].
  2:{ eapply until_weaken; [apply adds_seal_failed|intros t; cbv beta; unfold WIRE_SLACK, MIN_READ_TIMEOUT; lia]. }
  apply until_instant; [apply instant_crash|intros _|exact Hext].
  eapply until_weaken;
    [eapply (until_bind _ (λ t, dl `max` (t + 2 * D + MIN_READ_TIMEOUT) + WIRE_SLACK + 7 * D) _ _
       (adds_journal h Sealing))|intros t; cbv beta; lia];
    [intros _|intros; lia|unfold WIRE_SLACK, MIN_READ_TIMEOUT; intros; lia].
  eapply until_weaken;
    [eapply (until_bind _ (λ t, t + 5 * D) _ _ (until_begin h))|intros t; cbv beta; fold dl; lia];
    [|intros; lia|intros; lia].
  intros [[]|]; try apply adds_abort.
  case_decide; [eapply until_weaken; [apply adds_commit|intros t; cbv beta; lia]|apply adds_abort].
Qed.

Lemma until_body spec w :
  clock (handoff_body env spec w).2 ≤
    rest_by (clock w + deadline spec) (clock w + drain_wait spec + 13 * D).
Proof using delays.
  pose proof D_nonneg as HD.
  assert (0 ≤ drain_wait spec) as HG by (unfold drain_wait, MIN_READ_TIMEOUT; lia).
  unfold handoff_body, mbind at 1, prog_bind at 1, now, gets.
  set (dl := clock w + deadline spec).
  assert (∀ t, t ≤ rest_by dl t) as Hrest by (unfold rest_by, WIRE_SLACK, MIN_READ_TIMEOUT; lia).
  assert (∀ t t', t ≤ t' → rest_by dl t ≤ rest_by dl t') as Hmono by (unfold rest_by; lia).
  replace (clock w + drain_wait spec + 13 * D) with (clock w + 4 * D + 4 * D + D + (drain_wait spec + 4 * D))
    by lia.
  apply (until_bind _ (λ t, rest_by dl (t + 4 * D + D + (drain_wait spec + 4 * D))) _ _ (adds_connect _));
    [intros vo|intros; apply Hmono; lia|intros t; etrans; [|apply Hrest]; lia].
  apply (until_bind _ (λ t, rest_by dl (t + D + (drain_wait spec + 4 * D))) _ _ (adds_start _));
    [intros [pid vn]|intros; apply Hmono; lia|intros t; etrans; [|apply Hrest]; lia].
  set (h := mkHandoff _ _ _ _ _ _).
  apply (until_bind _ (λ t, rest_by dl (t + (drain_wait spec + 4 * D))) _ _ (adds_journal h Negotiating));
    [intros _|intros; apply Hmono; lia|intros t; etrans; [|apply Hrest]; lia].
  apply (until_bind _ (rest_by dl) _ _ (adds_drain h spec)); [intros _|exact Hmono|exact Hrest].
  apply (until_sealed h).
Qed.

Lemma spends_drop_locals : spends 1 (drop_locals env).
Proof using delays.
  unfold drop_locals.
  apply spends_instant; [intros w1; simpl; unfold close_stream; by destruct (stream_of PN w1)|intros _|lia].
  apply spends_then_instant; [apply spends_kill|intros _].
  apply (instant_bind (modify (close_stream PO))); [|done].
  intros w1. simpl. unfold close_stream. by destruct (stream_of PO w1).
Qed.
End time.

(** ** Properties *)

(** C19: a handoff ends, and in time, whatever either peer does.  Let [D] bound
    what every single blocking call of the supervisor takes: one poll of a
    stream, the write of one frame (which the write time-out of the control
    streams bounds), the connect, the spawn, the wait for a killed child, one
    journal operation.  Then [perform_handoff] returns, or exits at a crash
    point with status 99, no later than the later of its drain budget and its
    deadline plus the slack, one more slack for [Ready], and at most
    twenty-eight such calls — no matter how many heartbeats and progress
    frames arrive. *)
Theorem perform_handoff_in_time {T} `{ControlChannel T} `{!ChannelLaws T} `{JournalCodec}
    (env : SEnv T) (spec : SpawnSpec) (D : Z) (w : World T) :
  valid_env env → fresh w →
  (∀ n, 0 ≤ delay env n ≤ D) →
  let '(r, w') := perform_handoff env spec w in
  match r with Ok _ | Err (Raise _) => True | Err (Exit code) => code = 99 | Err Stuck => False end ∧
  clock w' ≤
    clock w + drain_wait spec `max` (deadline spec + WIRE_SLACK) +
    WIRE_SLACK + MIN_READ_TIMEOUT + 28 * D.
Proof.
  intros Hv Hw Hd. pose proof (D_nonneg env D Hd) as HD.
  assert (0 ≤ drain_wait spec) by (unfold drain_wait, MIN_READ_TIMEOUT; lia).
  destruct (in_flight w) eqn:Hb.
  { unfold perform_handoff, mbind, prog_bind, gets. rewrite Hb. simpl.
    unfold WIRE_SLACK, MIN_READ_TIMEOUT. split; [done|lia]. }
  assert (clock (perform_handoff env spec w).2 ≤ clock w + drain_wait spec `max` (deadline spec + WIRE_SLACK) +
    WIRE_SLACK + MIN_READ_TIMEOUT + 28 * D) as Ht.
  { unfold perform_handoff, mbind, prog_bind, gets. rewrite Hb.
    unfold modify, attempt. pose proof (until_body env D Hd spec (set_in_flight true w)) as Hbody.
    unfold rest_by in Hbody. change (clock (set_in_flight true w)) with (clock w) in Hbody.
    destruct (handoff_body env spec (set_in_flight true w)) as [[o|[e|c|]] w1]; cbn [snd] in *;
      try (pose proof (spends_drop_locals env D Hd w1); destruct (drop_locals env w1) as [[[]|[]] w2]; simpl in *); lia. }
  pose proof (handoff_runs env spec w Hv Hw Hb) as Hpost.
  destruct (perform_handoff env spec w) as [r w']. split; [|exact Ht].
  destruct Hpost as (c & _ & Hr). destruct r as [o|[e|code|]]; try done. by destruct Hr.
Qed.

(** Waits of a second; an incumbent that only sends heartbeats is given up
    when the drain budget is over. *)
Lemma perform_handoff_in_time_witness :
  let env := SupervisorDemo.env (replicate 200 (Heartbeat 1)) [] in
  let w' := (perform_handoff env SupervisorDemo.spec SupervisorDemo.start).2 in
  (∀ n, 0 ≤ delay env n ≤ 1) ∧ clock w' ≤ 0 + 301000 + 1000 + 100 + 28.
Proof.
  intros env w'. assert (∀ n, 0 ≤ delay env n ≤ 1) as Hd by (intros n; vm_compute; split; discriminate).
  split; [exact Hd|].
  pose proof (perform_handoff_in_time env SupervisorDemo.spec 1 SupervisorDemo.start
    (SupervisorDemo.env_valid _ _) SupervisorDemo.start_fresh Hd) as Ht.
  subst w'. destruct (perform_handoff env SupervisorDemo.spec SupervisorDemo.start) as [r w']. exact (proj2 Ht).
Defined.

(** The deadline does not cap the drain: with a deadline of a second and the
    default drain grace, an incumbent that takes fifty seconds to drain is
    waited for, and only the seal phase notices. *)
Definition slow_env (d : Z) (o n : list Message) : SEnv Script.script :=
  mkSEnv 5 true (Ok (SupervisorDemo.o_says o)) (Ok tt) (Ok (SupervisorDemo.n_says n)) (Ok 77) (Ok tt)
    SupervisorDemo.id1 (λ _, d) (λ _, Ok 0%nat) (λ _, journal_ok) (λ t, t) (λ _, "an error"%string)
    (λ _, "id"%string) no_crash.
Definition hasty : SpawnSpec := mkSpawnSpec "/bin/n" [] [] 1000 60000.

Example drain_outlasts_deadline :
  let '(r, w') := perform_handoff (slow_env 2000 (replicate 24 (Heartbeat 1) ++ [Drained 0 true]) [])
                    hasty SupervisorDemo.start in
  r = Err (Raise (Timeout "SealComplete")) ∧ 50 * (deadline hasty + WIRE_SLACK) / 2 < clock w'.
Proof. vm_compute. split; reflexivity. Qed.
