(* ===== verification/SupervisorCommits.v ===== *)
(** * When a handoff commits

    [SupervisorSafety] says what [perform_handoff] never does; this file says
    that it does hand over: with an incumbent and a successor that follow the
    protocol in time, it commits, however many heartbeats and progress frames
    they send, and exactly what it does on the way.  The channel is any one
    that delivers what the peer says ([Talking]). *)
From stdpp Require Import base tactics option list numbers strings gmap.
From S2P Require Import Prelude Contract Errors Protocol Lock Channel Talking Crash StateJournal Supervisor SupervisorSafety SupervisorTime.
Local Open Scope Z_scope.

Section commits.
Context {T : Type} `{Talking T} `{JournalCodec} (env : SEnv T).
Implicit Types w : World T.
Abbreviation M := (prog (World T) Error).

(** The time that [k] blocking calls take, from the [c]-th question on. *)
Fixpoint elapsed (c k : nat) : Z :=
  match k with O => 0 | S k => delay env c + elapsed (S c) k end.

Lemma elapsed_S c k : elapsed c (S k) = elapsed c k + delay env (c + k).
Proof.
  revert c. induction k as [|k IH]; intros c; [simpl; rewrite Nat.add_0_r; lia|].
  change (delay env c + elapsed (S c) (S k) = delay env c + elapsed (S c) k + delay env (c + S k)).
  rewrite IH, Nat.add_succ_r. simpl. lia.
Qed.

(** The system works and no crash point is named; every blocking call takes at
    most [D] milliseconds. *)
Context (D : Z).
Hypothesis quick : ∀ n, 0 ≤ delay env n ≤ D.
Hypothesis no_crash_here : ∀ p, crashes_at (crash env) p = false.
Hypothesis journal_writes : ∀ n j fs, (StateJournal.write_atomic (journal_answers env n) j fs).1 = Ok tt.

Lemma elapsed_bound c k : 0 ≤ elapsed c k ≤ D * Z.of_nat k.
Proof. revert c. induction k as [|k IH]; intros c; simpl; [lia|]. specialize (IH (S c)). pose proof (quick c). lia. Qed.

Lemma elapsed_mono c k k' : (k ≤ k')%nat → elapsed c k ≤ elapsed c k'.
Proof. induction 1 as [|k' _ IH]; [lia|]. rewrite elapsed_S. pose proof (quick (c + k')). lia. Qed.

Lemma elapsed_between c k n : elapsed c (k + n) ≤ elapsed c k + D * Z.of_nat n.
Proof.
  induction n as [|n IH]; [rewrite Nat.add_0_r; lia|]. rewrite Nat.add_succ_r, elapsed_S.
  pose proof (quick (c + (k + n))). lia.
Qed.

(** The incumbent will say [os] and the successor [ns] ([None]: no connection
    yet), and so many frames may still be written to them; the guard is [g];
    since [w0], [k] waits went by and [es] was done. *)
Abbreviation hearing := (option (list Message * nat)).
Definition hears (p : Peer) (o : hearing) w : Prop :=
  match o with
  | Some (ms, n) => ∃ t, stream_of p w = Some t ∧ pending t ms n
  | None => True
  end.
Record going (w0 : World T) (os ns : hearing) (g : option Z) (k : nat) (es : list event) w : Prop := {
  g_o : hears PO os w;
  g_n : hears PN ns w;
  g_guard : guard w = g;
  g_calls : calls w = (calls w0 + k)%nat;
  g_clock : clock w = clock w0 + elapsed (calls w0) k;
  g_trace : trace w = trace w0 ++ es
}.
Abbreviation pick p os ns := (match p with PO => os | PN => ns end).

(** The conversation with [p] goes on with [h]. *)
Definition heard_o (p : Peer) (os h : hearing) : hearing := match p with PO => h | PN => os end.
Definition heard_n (p : Peer) (ns h : hearing) : hearing := match p with PO => ns | PN => h end.

Lemma pick_heard p os ns h : pick p (heard_o p os h) (heard_n p ns h) = h.
Proof. by destruct p. Qed.
Lemma heard_again p os ns h h' g w0 k es w :
  going w0 (heard_o p (heard_o p os h) h') (heard_n p (heard_n p ns h) h') g k es w →
  going w0 (heard_o p os h') (heard_n p ns h') g k es w.
Proof. by destruct p. Qed.
Lemma heard_same p os ns h g w0 k es w :
  pick p os ns = h → going w0 (heard_o p os h) (heard_n p ns h) g k es w → going w0 os ns g k es w.
Proof. by intros <-; destruct p. Qed.

Lemma going_emit w0 os ns g k es w e : going w0 os ns g k es w → going w0 os ns g k (es ++ [e]) (emit e w).
Proof. intros [Ho Hn Hg Hc Ht Htr]. split; try done. simpl. by rewrite Htr, app_assoc. Qed.
Lemma going_pass w0 os ns g k es w : going w0 os ns g k es w → going w0 os ns g (S k) es (pass env w).
Proof.
  intros [Ho Hn Hg Hc Ht Htr]. split; try done; simpl; [by rewrite Hc, Nat.add_succ_r|].
  rewrite Hc, Ht. rewrite <- Z.add_assoc. f_equal. symmetry. apply elapsed_S.
Qed.
Lemma going_clock w0 os ns g k es w : going w0 os ns g k es w → clock w0 ≤ clock w ≤ clock w0 + D * Z.of_nat k.
Proof. intros Hg. rewrite (g_clock _ _ _ _ _ _ _ Hg). pose proof (elapsed_bound (calls w0) k). lia. Qed.

Lemma going_before w0 os ns g k es w k' deadline :
  going w0 os ns g k es w → (k ≤ k')%nat → clock w0 + elapsed (calls w0) k' < deadline → ¬ deadline ≤ clock w.
Proof. intros Hg Hk Hd. rewrite (g_clock _ _ _ _ _ _ _ Hg). pose proof (elapsed_mono (calls w0) k k' Hk). lia. Qed.

(** *** Commands *)
Lemma crash_ok {B} p (f : unit → M B) Q w : succeeds (f tt) Q w → succeeds (crash_here env p ≫= f) Q w.
Proof.
  intros HQ. eapply succeeds_bind with (P := λ _ w', w' = w); [|by intros [] ? ->].
  unfold succeeds, crash_here.
  destruct (maybe_crash_run (E := Error) (crash env) mark p w) as [->|(w' & _ & Hc & _)]; [done|].
  by rewrite no_crash_here in Hc.
Qed.

Lemma stream_step w0 os ns g k es w p ms n :
  going w0 os ns g k es w → pick p os ns = Some (ms, n) →
  ∃ t, stream_of p w = Some t ∧ pending t ms n ∧
    ∀ t' ms' n', pending t' ms' n' →
      going w0 (heard_o p os (Some (ms', n'))) (heard_n p ns (Some (ms', n'))) g k es (set_stream p (Some t') w).
Proof.
  intros [Ho Hn Hg Hc Ht Htr] Hp. destruct p; simpl in Hp; subst.
  - destruct Ho as (t & Hs & Hm). exists t. split; [done|]. split; [done|]. intros t' ms' n' Hm'.
    split; try done. by exists t'.
  - destruct Hn as (t & Hs & Hm). exists t. split; [done|]. split; [done|]. intros t' ms' n' Hm'.
    split; try done. by exists t'.
Qed.

Lemma send_ok w0 os ns g k es w p ms n v m :
  going w0 os ns g k es w → pick p os ns = Some (ms, S n) → fits v m →
  succeeds (send env p v m) (λ _ w',
    going w0 (heard_o p os (Some (ms, n))) (heard_n p ns (Some (ms, n))) g (S k) (es ++ [EvSend p m true]) w') w.
Proof.
  intros Hg Hp Hf. destruct (stream_step _ _ _ _ _ _ _ _ _ _ Hg Hp) as (t & Hs & Hm & Hk).
  destruct (pending_write t ms n v m Hf Hm) as (t' & Hw & Hm').
  unfold succeeds, send, on_stream, mbind, prog_bind, lift. rewrite Hs, Hw. simpl.
  by apply going_emit, going_pass, Hk.
Qed.

Lemma set_timeout_ok w0 os ns g k es w p ms n d :
  going w0 os ns g k es w → pick p os ns = Some (ms, n) →
  succeeds (set_read_timeout p d) (λ r w', r = Ok tt ∧ going w0 os ns g k es w') w.
Proof.
  intros Hg Hp. destruct (stream_step _ _ _ _ _ _ _ _ _ _ Hg Hp) as (t & Hs & Hm & Hk).
  destruct (pending_timeout t ms n d Hm) as (t' & Hw & Hm').
  unfold succeeds, set_read_timeout, on_stream. rewrite Hs, Hw. simpl. split; [done|].
  eapply heard_same; [exact Hp|]. by apply Hk.
Qed.

Lemma arm_ok w0 os ns g k es w p ms n d :
  going w0 os ns g k es w → pick p os ns = Some (ms, n) →
  succeeds (arm_recv_timeout env p d) (λ _ w', going w0 os ns g k es w') w.
Proof.
  intros Hg Hp. unfold arm_recv_timeout. eapply succeeds_bind; [by eapply set_timeout_ok|].
  cbn beta. by intros r w' [-> Hg'].
Qed.

Lemma poll_ok w0 os ns g k es w p m ms n :
  going w0 os ns g k es w → pick p os ns = Some (m :: ms, n) →
  succeeds (poll env p) (λ r w', ∃ v, r = Ok (Some (v, m)) ∧
    going w0 (heard_o p os (Some (ms, n))) (heard_n p ns (Some (ms, n))) g (S k) (es ++ [EvRecv p m]) w') w.
Proof.
  intros Hg Hp. destruct (stream_step _ _ _ _ _ _ _ _ _ _ Hg Hp) as (t & Hs & Hm & Hk).
  destruct (pending_poll t m ms n Hm) as (v & t' & Hpo & Hm').
  unfold succeeds, poll, on_stream. rewrite Hs, Hpo. exists v. split; [done|].
  by apply going_emit, going_pass, Hk.
Qed.

(** The journal, if there is one. *)
Definition jcalls : nat := if has_journal env then 1 else 0.
Definition jevents (e : event) : list event := if has_journal env then [e] else [].

Lemma journal_ok_set w0 os ns g k es w id ph pid st :
  going w0 os ns g k es w →
  succeeds (journal_set env id ph pid st)
    (λ _ w', going w0 os ns g (k + jcalls) (es ++ jevents (EvJournal ph true)) w') w.
Proof.
  intros Hg. unfold journal_set, jcalls, jevents. destruct (has_journal env).
  2:{ by rewrite Nat.add_0_r, app_nil_r. }
  unfold succeeds, on_journal, mbind, prog_bind, modify, lift.
  specialize (journal_writes (calls w) (mkStateJournal id ph (own_pid env) (Some pid) st) (jfs w)).
  destruct (StateJournal.write_atomic _ _ _) as [r j]. simpl in journal_writes. subst r. simpl.
  rewrite Nat.add_1_r. apply going_emit. apply going_pass in Hg. by destruct Hg.
Qed.

Lemma journal_ok_clear w0 os ns g k es w :
  going w0 os ns g k es w →
  succeeds (journal_clear env) (λ _ w', going w0 os ns g (k + jcalls) (es ++ jevents EvJournalClear) w') w.
Proof.
  intros Hg. unfold journal_clear, jcalls, jevents. destruct (has_journal env).
  2:{ by rewrite Nat.add_0_r, app_nil_r. }
  unfold succeeds, mbind, prog_bind, modify, on_journal.
  pose proof (delete_ends (journal_answers env (calls w)) (jfs w)) as Hd. rewrite Nat.add_1_r.
  destruct (StateJournal.delete _ _) as [[a|[e|c|]] j]; simpl in *; try done;
    apply going_emit; apply going_pass in Hg; by destruct Hg.
Qed.

(** *** Waiting for one message among the chatter *)
Abbreviation heard_from p hs := (map (EvRecv p) hs).

Lemma app_cons_snoc {A} (es : list A) e es' : (es ++ [e]) ++ es' = es ++ e :: es'.
Proof. by rewrite <- app_assoc. Qed.

(** What the wait was for: it ends the wait, whatever the loop then does. *)
Lemma read_loop_ok w0 g deadline awaiting pred m rest n p hs :
  chatter m = false → pred m = true → chats hs →
  ∀ fuel os ns k es w,
  going w0 os ns g k es w → pick p os ns = Some (hs ++ m :: rest, n) →
  (length hs < fuel)%nat → clock w0 + elapsed (calls w0) (k + length hs) < deadline →
  succeeds (read_until_loop env fuel p deadline awaiting pred)
    (λ m' w', m' = m ∧ going w0 (heard_o p os (Some (rest, n))) (heard_n p ns (Some (rest, n))) g
       (k + S (length hs)) (es ++ heard_from p (hs ++ [m])) w') w.
Proof.
  intros Hm Hpred Hhs. induction Hhs as [|h hs Hh Hhs IH]; intros fuel os ns k es w Hg Hp Hf Hd;
    (destruct fuel as [|fuel]; [simpl in Hf; lia|]); simpl in Hp, Hd.
  all: cbn [read_until_loop]; unfold now; apply succeeds_bind_gets.
  all: rewrite decide_False by (eapply going_before; [exact Hg| |exact Hd]; lia).
  all: cbv zeta; eapply succeeds_bind; [by eapply arm_ok|]; cbn beta; intros _ w1 Hg1.
  all: eapply succeeds_bind; [by eapply poll_ok|]; cbn beta; intros r w2 (v & -> & Hg2).
  - rewrite Nat.add_1_r. destruct m; try done; rewrite Hpred.
    all: eapply succeeds_bind; [eapply set_timeout_ok; [exact Hg2|apply pick_heard]|].
    all: cbn beta; intros ? w3 [_ Hg3]; by split.
  - assert (succeeds (read_until_loop env fuel p deadline awaiting pred)
      (λ m' w', m' = m ∧ going w0 (heard_o p os (Some (rest, n))) (heard_n p ns (Some (rest, n))) g
         (k + S (length (h :: hs))) (es ++ heard_from p ((h :: hs) ++ [m])) w') w2).
    { eapply succeeds_mono; [eapply IH; [exact Hg2|apply pick_heard|simpl in Hf; lia|]|].
      { by rewrite Nat.add_succ_l, <- Nat.add_succ_r. }
      cbn beta. intros m' w' [-> Hg']. split; [done|]. apply heard_again in Hg'. rewrite app_cons_snoc in Hg'.
      by rewrite Nat.add_succ_l, <- Nat.add_succ_r in Hg'. }
    by destruct h.
Qed.

Lemma fuel_for_ok {B} p ms n os ns w0 g k es w (f : nat → M B) Q :
  going w0 os ns g k es w → pick p os ns = Some (ms, n) →
  (∀ fuel, (length ms < fuel)%nat → succeeds (f fuel) Q w) → succeeds (fuel_for p ≫= f) Q w.
Proof.
  intros Hg Hp Hf. destruct (stream_step _ _ _ _ _ _ _ _ _ _ Hg Hp) as (t & Hs & Hpe & _).
  apply succeeds_bind_gets. rewrite Hs. apply Hf. apply pending_size in Hpe. lia.
Qed.

Lemma read_until_ok w0 g timeout awaiting pred m rest n p hs os ns k es w :
  chatter m = false → pred m = true → chats hs →
  going w0 os ns g k es w → pick p os ns = Some (hs ++ m :: rest, n) →
  clock w0 + elapsed (calls w0) (k + length hs) < clock w + timeout `max` MIN_READ_TIMEOUT →
  succeeds (read_until env p timeout awaiting pred)
    (λ m' w', m' = m ∧ going w0 (heard_o p os (Some (rest, n))) (heard_n p ns (Some (rest, n))) g
       (k + S (length hs)) (es ++ heard_from p (hs ++ [m])) w') w.
Proof.
  intros Hm Hpred Hhs Hg Hp Hd. unfold read_until, now. apply succeeds_bind_gets.
  eapply fuel_for_ok; [exact Hg|exact Hp|]. intros fuel Hf. eapply read_loop_ok; try done.
  rewrite length_app in Hf. simpl in Hf. lia.
Qed.

Lemma seal_loop_ok w0 g deadline v id revs fp rest n hs :
  chats hs →
  ∀ fuel ns k es w,
  going w0 (Some (hs ++ SealComplete id revs fp :: rest, n)) ns g k es w →
  (length hs < fuel)%nat → clock w0 + elapsed (calls w0) (k + length hs) < deadline →
  succeeds (seal_wait_loop env fuel deadline v id)
    (λ r w', r = Ok tt ∧ going w0 (Some (rest, n)) ns g (k + S (length hs))
       (es ++ heard_from PO (hs ++ [SealComplete id revs fp])) w') w.
Proof.
  intros Hhs. induction Hhs as [|h hs Hh Hhs IH]; intros fuel ns k es w Hg Hf Hd;
    (destruct fuel as [|fuel]; [simpl in Hf; lia|]); simpl in Hg, Hd.
  all: cbn [seal_wait_loop]; unfold now; apply succeeds_bind_gets.
  all: rewrite decide_False by (eapply going_before; [exact Hg| |exact Hd]; lia).
  all: cbv zeta; eapply succeeds_bind; [by eapply (arm_ok _ _ _ _ _ _ _ PO)|]; cbn beta; intros _ w1 Hg1.
  all: eapply succeeds_bind; [by eapply (poll_ok _ _ _ _ _ _ _ PO)|]; cbn beta; intros r w2 (v' & -> & Hg2).
  - rewrite decide_True by done. by rewrite Nat.add_1_r.
  - assert (succeeds (seal_wait_loop env fuel deadline v id)
      (λ r w', r = Ok tt ∧ going w0 (Some (rest, n)) ns g (k + S (length (h :: hs)))
         (es ++ heard_from PO ((h :: hs) ++ [SealComplete id revs fp])) w') w2).
    { eapply succeeds_mono; [eapply IH; [exact Hg2|simpl in Hf; lia|]|].
      { by rewrite Nat.add_succ_l, <- Nat.add_succ_r. }
      cbn beta. intros r w' [-> Hg']. split; [done|]. rewrite app_cons_snoc in Hg'.
      by rewrite Nat.add_succ_l, <- Nat.add_succ_r in Hg'. }
    by destruct h.
Qed.

(** *** The phases *)
Lemma io_ok {A B} (r : result IoError A) a (f : A → M B) Q w :
  r = Ok a → succeeds (f a) Q w → succeeds (io r ≫= f) Q w.
Proof. by intros ->. Qed.

Lemma exchange_ok w0 os ns g k es w p id role expected pid b lo hi caps rest n v :
  going w0 os ns g k es w → pick p os ns = Some (Hello role pid b lo hi caps :: rest, S n) →
  (∀ e, expected = Some e → e = pid) → negotiate_version PROTO_MIN PROTO_MAX lo hi = Ok v →
  fits v (HelloAck v id) →
  succeeds (exchange_hello_as_supervisor env p id role expected)
    (λ v' w', v' = v ∧ going w0 (heard_o p os (Some (rest, n))) (heard_n p ns (Some (rest, n))) g (S (S k))
       (es ++ [EvRecv p (Hello role pid b lo hi caps); EvSend p (HelloAck v id) true]) w') w.
Proof.
  intros Hg Hp Hpid Hv Hfit. unfold exchange_hello_as_supervisor.
  eapply succeeds_bind; [by eapply arm_ok|]. cbn beta. intros _ w1 Hg1.
  eapply succeeds_bind; [by eapply poll_ok|]. cbn beta. intros r w2 (v' & -> & Hg2).
  eapply succeeds_bind; [eapply set_timeout_ok; [exact Hg2|apply pick_heard]|].
  cbn beta. intros ? w3 [_ Hg3]. apply succeeds_bind_ret.
  rewrite decide_False by (intros Hne; by apply Hne).
  eapply succeeds_bind with (P := λ _ w', w' = w3).
  { destruct expected as [e|]; [|done]. rewrite decide_False by (intros Hne; by rewrite (Hpid e eq_refl) in Hne).
    done. }
  intros _ ? ->. rewrite Hv. eapply succeeds_bind; [by apply (succeeds_lift _ v (λ v' w', v' = v ∧ w' = w3))|].
  intros v'' ? [-> ->]. eapply succeeds_bind; [eapply send_ok; [exact Hg3|apply pick_heard|done]|].
  cbn beta. intros _ w4 Hg4. apply succeeds_ret. split; [done|]. apply heard_again in Hg4.
  by rewrite <- app_assoc in Hg4.
Qed.

Lemma blocking_ok {A B} (r : result IoError A) a w0 os ns g k es w (f : A → M B) Q :
  r = Ok a → going w0 os ns g k es w → (∀ w', going w0 os ns g (S k) es w' → succeeds (f a) Q w') →
  succeeds (blocking env r ≫= f) Q w.
Proof.
  intros -> Hg Hf. apply succeeds_assoc, succeeds_bind_modify. eapply io_ok; [done|]. by apply Hf, going_pass.
Qed.

(** *** The phases *)
Context (spec : SpawnSpec) (c : Conversation) (t_o t_n : T) (o_rest n_rest : list Message).
Abbreviation id := (c_id c).
Abbreviation pid := (n_pid c).
Abbreviation after_drain := (seal_chat c ++ complete c :: o_rest).
Abbreviation after_hello_o := (drain_chat c ++ drained_report c :: after_drain).
Abbreviation after_hello_n := (ready_chat c ++ ready c :: n_rest).

(** How many blocking calls, from the start to [PrepareHandoff], to each
    message the supervisor waits for, and to the end: the connect and the
    spawn, the frames written, the frames read, the journal. *)
Definition prepare_calls : nat := 6 + jcalls.
Definition drained_calls : nat := S prepare_calls + S (length (drain_chat c)).
Definition complete_calls : nat := S (drained_calls + jcalls) + S (length (seal_chat c)).
Definition ready_calls : nat := S (complete_calls + jcalls) + jcalls + S (length (ready_chat c)).
Definition commit_calls : nat := S ready_calls + 2 * jcalls.

(** What is left of a deadline [d] after [t] milliseconds, at least the
    shortest time-out. *)
Definition left_of (d t : Z) : Z := (if decide (t ≤ d) then d - t else MIN_READ_TIMEOUT) `max` MIN_READ_TIMEOUT.

Lemma remaining_ok {B} w0 os ns g k es w d (f : Z → M B) Q :
  going w0 os ns g k es w → succeeds (f (left_of d (elapsed (calls w0) k))) Q w →
  succeeds (remaining_until (clock w0 + d) ≫= f) Q w.
Proof.
  intros Hg Hf. unfold remaining_until, succeeds, now, mbind, prog_bind, gets, mret, prog_ret in *.
  rewrite (g_clock _ _ _ _ _ _ _ Hg).
  replace ((if decide (clock w0 + elapsed (calls w0) k ≤ clock w0 + d)
    then clock w0 + d - (clock w0 + elapsed (calls w0) k) else MIN_READ_TIMEOUT) `max` MIN_READ_TIMEOUT)
    with (left_of d (elapsed (calls w0) k)); [done|].
  unfold left_of. repeat case_decide; lia.
Qed.

(** The events of each phase. *)
Definition connect_events : list event := [EvRecv PO (hello_o c); EvSend PO (HelloAck (v_o c) id) true].
Definition start_events : list event :=
  [EvSpawn pid; EvRecv PN (hello_n c); EvSend PN (HelloAck (v_n c) id) true].
Definition drain_events : list event :=
  EvSend PO (prepare c) true :: heard_from PO (drain_chat c ++ [drained_report c]) ++
  jevents (EvJournal Draining true).
Definition seal_events : list event :=
  EvSend PO (SealRequest id) true :: heard_from PO (seal_chat c ++ [complete c]).
Definition begin_events : list event :=
  EvSend PN (Begin id) true :: jevents (EvJournal AwaitingReady true) ++
  heard_from PN (ready_chat c ++ [ready c]).
Definition commit_events : list event :=
  [EvDisarm pid; EvSend PO (Commit id) true] ++ jevents (EvJournal Committed true) ++ jevents EvJournalClear.
Definition body_events : list event :=
  connect_events ++ start_events ++ jevents (EvJournal Negotiating true) ++ drain_events ++ seal_events ++
  jevents (EvJournal Sealing true) ++ begin_events ++ commit_events.

(** The peers do their part, and in time. *)
Record agreed (w0 : World T) : Prop := {
  a_id : id = new_handoff_id env;
  a_chats : only_chat c;
  a_connect : connect env = Ok t_o ∧ configure_o env = Ok tt;
  a_o_says : pending t_o (hello_o c :: after_hello_o) 4;
  a_spawn : make_pair env = Ok t_n ∧ spawn_child env = Ok pid ∧ configure_n env = Ok tt;
  a_n_says : pending t_n (hello_n c :: after_hello_n) 2;
  a_versions : compatible c;
  a_grace : c_drain_grace_ms c = as_u64 (drain_grace spec);
  a_deadline : c_deadline_ms c = as_u64 (left_of (deadline spec) (elapsed (calls w0) prepare_calls));
  a_fit_o : Forall (fits (v_o c)) [HelloAck (v_o c) id; prepare c; SealRequest id; Commit id];
  a_fit_n : Forall (fits (v_n c)) [HelloAck (v_n c) id; Begin id];
  a_drain_time : D * Z.of_nat (length (drain_chat c)) < drain_grace spec + WIRE_SLACK;
  a_time : elapsed (calls w0) (pred ready_calls) < deadline spec + WIRE_SLACK
}.

Context (w0 : World T).
Hypothesis Hagreed : agreed w0.

Lemma connect_ok w :
  going w0 None None None 0 [] w →
  succeeds (connect_incumbent env id)
    (λ v w', v = v_o c ∧ going w0 (Some (after_hello_o, 3%nat)) None None 3 connect_events w') w.
Proof.
  intros Hg. destruct (a_connect _ Hagreed) as [Hc Hco]. destruct (a_versions _ Hagreed) as [Hv _].
  pose proof (a_fit_o _ Hagreed) as [Hfit _]%Forall_cons. unfold connect_incumbent.
  eapply blocking_ok; [exact Hc|exact Hg|]. intros w1 Hg1. apply succeeds_bind_modify. eapply io_ok; [exact Hco|].
  eapply succeeds_bind.
  { eapply (exchange_ok w0 (Some (hello_o c :: after_hello_o, 4%nat)) None None 1 [] _ PO);
      [|done|done|exact Hv|exact Hfit].
    destruct Hg1 as [_ _ Hgu Hca Ht Htr]. split; try done. exists t_o. split; [done|apply Hagreed]. }
  cbn beta. intros v w2 [-> Hg2]. apply crash_ok. by apply succeeds_ret.
Qed.

Lemma start_successor_ok w :
  going w0 (Some (after_hello_o, 3%nat)) None None 3 connect_events w →
  succeeds (start_successor env id)
    (λ r w', r = (pid, v_n c) ∧ going w0 (Some (after_hello_o, 3%nat)) (Some (after_hello_n, 1%nat)) (Some pid) 6
       (connect_events ++ start_events) w') w.
Proof.
  intros Hg. destruct (a_spawn _ Hagreed) as (Hm & Hsp & Hcn). destruct (a_versions _ Hagreed) as [_ Hv].
  pose proof (a_fit_n _ Hagreed) as [Hfit _]%Forall_cons. unfold start_successor. rewrite Hm.
  eapply succeeds_bind; [by apply (succeeds_lift _ t_n (λ a w', a = t_n ∧ w' = w))|]. intros ? ? [-> ->].
  eapply blocking_ok; [exact Hsp|exact Hg|]. clear w Hg. intros w Hg. apply succeeds_bind_modify. apply crash_ok. apply succeeds_bind_modify.
  eapply io_ok; [exact Hcn|]. eapply succeeds_bind.
  { eapply (exchange_ok w0 (Some (after_hello_o, 3%nat)) (Some (hello_n c :: after_hello_n, 2%nat)) (Some pid) 4
      (connect_events ++ [EvSpawn pid]) _ PN); [|done| |exact Hv|exact Hfit].
    - apply (going_emit _ _ _ _ _ _ _ (EvSpawn pid)) in Hg. destruct Hg as [Ho _ Hgu Hca Ht Htr].
      split; try done. exists t_n. split; [done|apply Hagreed].
    - by intros e [= ->]. }
  cbn beta. intros v w3 [-> Hg3]. apply crash_ok. by apply succeeds_ret.
Qed.

Abbreviation going' := (going w0).

Lemma drain_ok h w :
  h_id h = id → h_successor_pid h = pid → h_chosen_o h = v_o c → h_total_deadline_at h = clock w0 + deadline spec →
  ∀ es, going' (Some (after_hello_o, 3%nat)) (Some (after_hello_n, 1%nat)) (Some pid) prepare_calls es w →
  succeeds (drain_phase env h spec) (λ _ w',
    going' (Some (after_drain, 2%nat)) (Some (after_hello_n, 1%nat)) (Some pid) (drained_calls + jcalls)
      (es ++ drain_events) w') w.
Proof.
  intros Hid Hp Hv Hdl es Hg. unfold drain_phase. rewrite Hid, Hp, Hv, Hdl.
  eapply remaining_ok; [exact Hg|]. rewrite <- (a_deadline _ Hagreed), <- (a_grace _ Hagreed).
  pose proof (a_fit_o _ Hagreed) as [_ [Hfit _]%Forall_cons]%Forall_cons.
  eapply succeeds_bind; [eapply (send_ok _ _ _ _ _ _ _ PO); [exact Hg|done|exact Hfit]|].
  cbn beta. intros _ w1 Hg1. apply crash_ok. eapply succeeds_bind.
  { eapply (read_until_ok _ _ _ _ _ (drained_report c) _ _ PO (drain_chat c)); [done|done|apply Hagreed|exact Hg1|done|].
    rewrite (g_clock _ _ _ _ _ _ _ Hg1). pose proof (a_drain_time _ Hagreed) as Hd.
    pose proof (elapsed_between (calls w0) (S prepare_calls) (length (drain_chat c))). unfold MIN_READ_TIMEOUT. lia. }
  cbn beta. intros m w2 [-> Hg2]. apply crash_ok.
  eapply succeeds_mono; [by eapply journal_ok_set|]. cbn beta. intros _ w3 Hg3.
  by rewrite <- !app_assoc in Hg3.
Qed.

Lemma seal_ok h w :
  h_id h = id → h_chosen_o h = v_o c → h_total_deadline_at h = clock w0 + deadline spec →
  ∀ es, going' (Some (after_drain, 2%nat)) (Some (after_hello_n, 1%nat)) (Some pid) (drained_calls + jcalls) es w →
  succeeds (seal_phase env h) (λ r w', r = Ok tt ∧
    going' (Some (o_rest, 1%nat)) (Some (after_hello_n, 1%nat)) (Some pid) complete_calls (es ++ seal_events) w') w.
Proof.
  intros Hid Hv Hdl es Hg. unfold seal_phase. rewrite Hid, Hv, Hdl.
  pose proof (a_fit_o _ Hagreed) as [_ [_ [Hfit _]%Forall_cons]%Forall_cons]%Forall_cons.
  eapply succeeds_bind; [eapply (send_ok _ _ _ _ _ _ _ PO); [exact Hg|done|exact Hfit]|].
  cbn beta. intros _ w1 Hg1. apply crash_ok.
  eapply (fuel_for_ok PO); [exact Hg1|done|]. intros fuel Hf. eapply succeeds_bind.
  { eapply seal_loop_ok with (hs := seal_chat c); [apply Hagreed|exact Hg1| |].
    - rewrite length_app in Hf. simpl in Hf. lia.
    - pose proof (a_time _ Hagreed) as Ht.
      pose proof (elapsed_mono (calls w0) (S (drained_calls + jcalls) + length (seal_chat c)) (pred ready_calls)).
      unfold ready_calls, complete_calls in *. lia. }
  cbn beta. intros r w2 [-> Hg2].
  eapply succeeds_bind; [by eapply (set_timeout_ok _ _ _ _ _ _ _ PO)|]. cbn beta. intros ? w3 [_ Hg3].
  apply succeeds_ret. split; [done|]. by rewrite <- app_assoc in Hg3.
Qed.

Lemma begin_ok h w :
  h_id h = id → h_chosen_n h = v_n c → h_total_deadline_at h = clock w0 + deadline spec →
  ∀ es, going' (Some (o_rest, 1%nat)) (Some (after_hello_n, 1%nat)) (Some pid) (complete_calls + jcalls) es w →
  succeeds (begin_phase env h) (λ r w', r = Ok (ready c) ∧
    going' (Some (o_rest, 1%nat)) (Some (n_rest, 0%nat)) (Some pid) ready_calls (es ++ begin_events) w') w.
Proof.
  intros Hid Hv Hdl es Hg. unfold begin_phase, h_journal. rewrite Hid, Hv, Hdl.
  pose proof (a_fit_n _ Hagreed) as [_ [Hfit _]%Forall_cons]%Forall_cons.
  eapply succeeds_bind; [eapply succeeds_attempt, (send_ok _ _ _ _ _ _ _ PN); [exact Hg|done|exact Hfit]|].
  cbn beta. intros r w1 (? & -> & Hg1).
  eapply succeeds_bind with (P := λ r w', r = Ok (ready c) ∧
    going' (Some (o_rest, 1%nat)) (Some (n_rest, 0%nat)) (Some pid) ready_calls (es ++ begin_events) w').
  2:{ cbn beta. intros r w2 [-> Hg2]. apply succeeds_ret. unfold ready at 1. by rewrite decide_False by (intros Hne; by apply Hne). }
  apply crash_ok. eapply succeeds_bind; [by eapply journal_ok_set|]. cbn beta. intros _ w2 Hg2.
  eapply remaining_ok; [exact Hg2|].
  eapply succeeds_mono; [eapply succeeds_attempt, (read_until_ok _ _ _ _ _ (ready c) _ _ PN (ready_chat c));
    [done|done|apply Hagreed|exact Hg2|done|]|].
  { rewrite (g_clock _ _ _ _ _ _ _ Hg2). pose proof (a_time _ Hagreed) as Ht.
    replace (pred ready_calls) with (S (complete_calls + jcalls) + jcalls + length (ready_chat c))%nat in Ht
      by (unfold ready_calls; lia).
    unfold left_of, MIN_READ_TIMEOUT, WIRE_SLACK in *. case_decide; lia. }
  cbn beta. intros r w3 (m & -> & -> & Hg3). split; [done|].
  replace ready_calls with (S (complete_calls + jcalls) + jcalls + S (length (ready_chat c)))%nat by (unfold ready_calls; lia).
  by rewrite <- !app_assoc in Hg3.
Qed.

Lemma commit_ok h w :
  h_id h = id → h_chosen_o h = v_o c →
  ∀ es, going' (Some (o_rest, 1%nat)) (Some (n_rest, 0%nat)) (Some pid) ready_calls es w →
  succeeds (commit_phase env h) (λ o w', o = mkOutcome id true None (Some pid) ∧
    going' (Some (o_rest, 0%nat)) (Some (n_rest, 0%nat)) None commit_calls (es ++ commit_events) w') w.
Proof.
  intros Hid Hv es Hg. unfold commit_phase, h_journal. rewrite Hid, Hv.
  pose proof (a_fit_o _ Hagreed) as [_ [_ [_ [Hfit _]%Forall_cons]%Forall_cons]%Forall_cons]%Forall_cons.
  apply crash_ok. eapply succeeds_bind with (P := λ p w', p = pid ∧
    going' (Some (o_rest, 1%nat)) (Some (n_rest, 0%nat)) None ready_calls (es ++ [EvDisarm pid]) w').
  { unfold succeeds, disarm. rewrite (g_guard _ _ _ _ _ _ _ Hg). split; [done|].
    apply (going_emit _ _ _ _ _ _ _ (EvDisarm pid)) in Hg. by destruct Hg. }
  cbn beta. intros p w1 [-> Hg1].
  eapply succeeds_bind; [eapply succeeds_attempt, (send_ok _ _ _ _ _ _ _ PO); [exact Hg1|done|exact Hfit]|].
  cbn beta. intros r w2 (_ & _ & Hg2). apply crash_ok.
  eapply succeeds_bind; [by eapply succeeds_attempt, journal_ok_set|]. cbn beta. intros r' w3 (_ & _ & Hg3).
  eapply succeeds_bind; [by eapply journal_ok_clear|]. cbn beta. intros _ w4 Hg4. apply crash_ok.
  apply succeeds_ret. split; [done|]. rewrite <- !app_assoc in Hg4.
  replace commit_calls with (S ready_calls + jcalls + jcalls)%nat by (unfold commit_calls; lia). done.
Qed.

Lemma body_commits w :
  going' None None None 0 [] w → clock w = clock w0 →
  succeeds (handoff_body env spec) (λ o w', o = mkOutcome id true None (Some pid) ∧
    going' (Some (o_rest, 0%nat)) (Some (n_rest, 0%nat)) None commit_calls body_events w') w.
Proof.
  intros Hg Hcl. unfold handoff_body, now, h_journal. apply succeeds_bind_gets. cbv zeta.
  rewrite <- (a_id _ Hagreed), Hcl.
  eapply succeeds_bind; [by apply connect_ok|]. cbn beta. intros v w1 [-> Hg1].
  eapply succeeds_bind; [by apply start_successor_ok|]. cbn beta. intros [p v] w2 [[= -> ->] Hg2].
  eapply succeeds_bind; [by eapply journal_ok_set|]. cbn beta. intros _ w3 Hg3.
  eapply succeeds_bind; [by apply drain_ok|]. cbn beta. intros _ w4 Hg4.
  eapply succeeds_bind; [by apply seal_ok|]. cbn beta. intros r w5 [-> Hg5]. apply crash_ok.
  eapply succeeds_bind; [by eapply journal_ok_set|]. cbn beta. intros _ w6 Hg6.
  eapply succeeds_bind; [by apply begin_ok|]. cbn beta. intros r w7 [-> Hg7].
  cbn [h_id]. unfold ready. rewrite decide_True by done.
  eapply succeeds_mono; [by apply commit_ok|]. cbn beta. intros o w8 [-> Hg8]. split; [done|].
  unfold body_events. by rewrite <- !app_assoc in Hg8.
Qed.

Lemma commits_run :
  fresh w0 → in_flight w0 = false →
  ∃ w', perform_handoff env spec w0 = (Ok (mkOutcome id true None (Some pid)), w') ∧
        clock w' = clock w0 + elapsed (calls w0) commit_calls ∧
        trace w' = trace w0 ++ body_events ++ [EvClose PN; EvClose PO].
Proof.
  intros (Ho & Hn & Hgd & _) Hf. unfold perform_handoff, mbind, prog_bind, gets, modify. rewrite Hf.
  assert (going' None None None 0 [] (set_in_flight true w0)) as Hg.
  { split; try done; simpl; [lia..|by rewrite app_nil_r]. }
  pose proof (body_commits _ Hg eq_refl) as Hb. unfold succeeds in Hb. unfold attempt.
  generalize dependent body_events. intros events Hb.
  destruct (handoff_body env spec (set_in_flight true w0)) as [[o|e] w1]; [|done].
  destruct Hb as [-> [(t1 & Hs1 & _) (t2 & Hs2 & _) Hg1 _ Ht1 Htr]]. simpl in Hs1, Hs2.
  unfold drop_locals, mbind, prog_bind, modify, kill_and_reap, close_stream. simpl. rewrite Hs2. simpl.
  rewrite Hg1. simpl. rewrite Hs1. simpl. eexists. split; [done|]. split; [done|].
  simpl in *. by rewrite Htr, <- !app_assoc.
Qed.
End commits.

(** A conversation for [SupervisorDemo]. *)
Module CommitDemo.
Definition conversation : Conversation :=
  mkConversation SupervisorDemo.id1 10 [] 1 1 Capabilities_default 77 [] 1 1 Capabilities_default 1 1
    299993 60000 0 true [5] [] ["http"%string] true [5]
    [Heartbeat 1] [SealProgress 1 2 5] [Heartbeat 2] [] [] [] [].
Definition env : SEnv Script.script := SupervisorDemo.env SupervisorDemo.sealed SupervisorDemo.ready.
Lemma quick n : 0 ≤ delay env n ≤ 1.
Proof. split; discriminate. Qed.
Lemma agreement :
  agreed env 1 SupervisorDemo.spec conversation (SupervisorDemo.o_says SupervisorDemo.sealed)
    (SupervisorDemo.n_says SupervisorDemo.ready) [] [] SupervisorDemo.start.
Proof. split; repeat split; try (repeat constructor); done. Qed.
End CommitDemo.

(** ** Properties *)

(** C7: a handoff between peers that follow the protocol commits.  If the
    incumbent answers with its [Hello], [Drained] and [SealComplete] for this
    handoff, the successor that was spawned with its [Hello] and its [Ready],
    with compatible versions, any number of heartbeats and progress frames in
    between, and all of it arrives before [drain_grace] and [deadline] plus
    the slack of the wire; if the system's calls succeed and no crash point is
    named: then [perform_handoff] returns [committed] with the live successor.
    It took no longer than one delay for each frame it read or wrote, for each
    phase it recorded, and for the connect and the spawn, and it did exactly [body_events]: what it sent, to whom, and
    what it recorded, in this order. *)
Theorem perform_handoff_commits {T} `{Talking T} `{JournalCodec} (env : SEnv T) (spec : SpawnSpec)
    (w : World T) (D : Z) (c : Conversation) (t_o t_n : T) (o_rest n_rest : list Message) :
  fresh w → in_flight w = false →
  (∀ n, 0 ≤ delay env n ≤ D) →
  (∀ p, crashes_at (crash env) p = false) →
  (∀ n j fs, (StateJournal.write_atomic (journal_answers env n) j fs).1 = Ok tt) →
  agreed env D spec c t_o t_n o_rest n_rest w →
  let frames := (length (drain_chat c) + length (seal_chat c) + length (ready_chat c))%nat in
  ∃ w', perform_handoff env spec w = (Ok (mkOutcome (c_id c) true None (Some (n_pid c))), w') ∧
        clock w' ≤ clock w + D * Z.of_nat (19 + frames) ∧
        trace w' = trace w ++ body_events env c ++ [EvClose PN; EvClose PO].
Proof.
  intros Hw Hf Hd Hc Hj Ha frames.
  destruct (commits_run env D Hd Hc Hj spec c t_o t_n o_rest n_rest w Ha Hw Hf) as (w' & Hr & Ht & Htr).
  exists w'. split; [done|]. split; [|done]. rewrite Ht.
  assert (commit_calls env c ≤ 19 + frames)%nat as Hk.
  { unfold commit_calls, ready_calls, complete_calls, drained_calls, prepare_calls, jcalls, frames. destruct (has_journal env); lia. }
  pose proof (elapsed_mono env D Hd (calls w) _ _ Hk). pose proof (elapsed_bound env D Hd (calls w) (19 + frames)). lia.
Qed.

Lemma perform_handoff_commits_witness :
  ∃ w', perform_handoff CommitDemo.env SupervisorDemo.spec SupervisorDemo.start
          = (Ok (mkOutcome SupervisorDemo.id1 true None (Some 77)), w') ∧
        clock w' ≤ 22.
Proof.
  assert (∀ p, crashes_at (crash CommitDemo.env) p = false) as Hc by (intros p; reflexivity).
  assert (∀ n j fs, (StateJournal.write_atomic (journal_answers CommitDemo.env n) j fs).1 = Ok tt) as Hj
    by (intros n j fs; reflexivity).
  destruct (perform_handoff_commits CommitDemo.env SupervisorDemo.spec SupervisorDemo.start 1
    CommitDemo.conversation (SupervisorDemo.o_says SupervisorDemo.sealed)
    (SupervisorDemo.n_says SupervisorDemo.ready) [] [] SupervisorDemo.start_fresh eq_refl CommitDemo.quick Hc Hj
    CommitDemo.agreement) as (w' & Hr & Ht & _).
  exists w'. split; [exact Hr|exact Ht].
Defined.
