(* ===== verification/Inheritance.v ===== *)
(** * From [spawn_successor] to [detect_role]

    The supervisor's environment and descriptor arithmetic
    ([supervisor.rs], [fd.rs]) composed with the successor's reading of them
    ([role.rs]): what crosses [fork] and [execve]. *)
From stdpp Require Import base tactics option list numbers strings gmap.
From S2P Require Import Prelude Errors Sock Fd Channel Role Supervisor.
Local Open Scope Z_scope.

(** The successor right after [execve], if the [pre_exec] closure succeeds. *)
Definition spawned (child_pid : Z) (parent_env : gmap string string) (cmd : Command) (k : kernel)
    : option Process :=
  match child_exec cmd k with
  | (Ok _, k') => Some (mkProcess child_pid (child_env parent_env cmd) k')
  | (Err _, _) => None
  end.

(** ** Lemmas *)

Lemma show_Z_nat n : show_Z (Z.of_nat n) = print_dec (N.of_nat n).
Proof. unfold show_Z. rewrite decide_True by lia. f_equal. lia. Qed.

(** Folding distinct keys into a map. *)
Lemma foldl_insert_lookup (f : Z → string) l (m : gmap string Z) x :
  x ∈ l → (∀ y, y ∈ l → f y = f x → y = x) →
  foldl (λ m y, <[f y := y]> m) m l !! f x = Some x.
Proof.
  induction l as [|y l IH] using rev_ind; intros Hx Hinj; [by apply elem_of_nil in Hx|].
  rewrite foldl_snoc. destruct (decide (f y = f x)) as [Heq|Hne].
  - rewrite (Hinj y ltac:(set_solver) Heq). apply lookup_insert_eq.
  - rewrite lookup_insert_ne by done. apply IH; [set_solver|]. intros. apply Hinj; [set_solver|done].
Qed.

Lemma foldl_env_lookup l (c : Command) x :
  (∀ v, (x, v) ∉ l) →
  envs (foldl (λ cmd '(k, v), command_env k v cmd) c l) !! x = envs c !! x.
Proof.
  revert c. induction l as [|[k v] l IH]; intros c Hl; simpl; [done|].
  rewrite IH by set_solver. simpl. apply lookup_insert_ne. intros ->. by apply (Hl v); left.
Qed.

Lemma filter_id {A} (P : A → Prop) `{∀ x, Decision (P x)} (l : list A) :
  Forall P l → filter P l = l.
Proof.
  induction 1 as [|x l Hx Hl IH]; [done|]. rewrite filter_cons, decide_True by done. by rewrite IH.
Qed.

(** A command of the supervisor: [cmd0] is what its caller made of it before
    [pass_listener_fds_on_spawn], [extra] the control socket, if any. *)
Section inheritance.
Context (cmd0 : Command) (listeners : list (string * Z)) (extra : option Z) (child_pid : Z).
Context (parent_env : gmap string string) (k : kernel).

Abbreviation n := (length listeners).
Abbreviation cmd := (pass_listener_fds_on_spawn cmd0 listeners extra).
Abbreviation sources := (listeners.*2 ++ option_list extra).
Abbreviation env := (child_env parent_env cmd).

(** The variables the child reads. *)
Lemma spawn_env :
  env !! ENV_LISTEN_FDS = Some (print_dec (N.of_nat n)) ∧
  env !! ENV_LISTEN_FDNAMES = Some (join_with colon listeners.*1) ∧
  ∀ x, x ≠ ENV_LISTEN_FDS → x ≠ ENV_LISTEN_FDNAMES →
    env !! x = match envs cmd0 !! x with Some v => Some v | None => parent_env !! x end.
Proof.
  unfold child_env, pass_listener_fds_on_spawn. cbn [envs arrange_inherited_fds_on_spawn].
  split_and!; [erewrite lookup_union_Some_l; [done|]; simpl..|].
  - rewrite lookup_insert_ne by done. apply lookup_insert_eq.
  - apply lookup_insert_eq.
  - intros x H1 H2. rewrite lookup_union. simpl. rewrite !lookup_insert_ne by done.
    by destruct (envs cmd0 !! x), (parent_env !! x).
Qed.

Hypothesis sockets : Forall (λ fd, fd_is_socket k fd = true) sources.
Hypothesis room :
  (length sources ≤ length (free_fds k (SD_LISTEN_FDS_START + Z.of_nat (length sources))))%nat.

(** The descriptor table of the successor. *)
Lemma spawn_kernel :
  ∃ k1, child_exec cmd k = (Ok tt, k1) ∧ descs k1 = descs k ∧
    ∀ i s e, sources !! i = Some s → fdtab k !! s = Some e →
      fdtab k1 !! (3 + Z.of_nat i) = Some (mkFd (ofd e) 0).
Proof.
  assert (Forall (λ s, is_Some (fdtab k !! s)) sources) as Hopen.
  { eapply Forall_impl; [exact sockets|]. simpl. intros fd (e & d & He & _)%socket_desc. eauto. }
  destruct (child_exec_run cmd k sources eq_refl Hopen room) as (k1 & Hk & Hd & H1 & _). eauto.
Qed.

(** What the child sees of its slots. *)
Hypothesis fits : 3 + Z.of_nat (S n) ≤ i32_max.

Lemma spawned_slot k1 i s :
  child_exec cmd k = (Ok tt, k1) → sources !! i = Some s →
  fd_is_socket k1 (3 + Z.of_nat i) = true ∧
  ∀ e, fdtab k !! s = Some e → fdtab k1 !! (3 + Z.of_nat i) = Some (mkFd (ofd e) 0).
Proof.
  intros Hk Hs. destruct spawn_kernel as (k1' & Hk' & Hdescs & Htab).
  rewrite Hk in Hk'. simplify_eq. split; [|by eauto].
  pose proof (proj1 (Forall_lookup _ _) sockets i s Hs) as (e & d & He & Hd & Hm)%socket_desc.
  unfold fd_is_socket, desc_of. rewrite (Htab _ _ _ Hs He). simpl. rewrite Hdescs, Hd. simpl.
  by apply bool_decide_eq_true.
Qed.

Lemma spawned_count k1 : listen_count (mkProcess child_pid env k1) = N.of_nat n.
Proof.
  unfold listen_count, var. simpl. destruct spawn_env as (-> & _). simpl.
  rewrite parse_print_unsigned; [done|]. unfold u64_max, i32_max in *. lia.
Qed.

Lemma spawned_in_range k1 : count_in_range (mkProcess child_pid env k1).
Proof. unfold count_in_range. rewrite spawned_count. unfold SD_LISTEN_FDS_START. lia. Qed.

(** *** When no [LISTEN_PID] reaches the child *)
Hypothesis no_listen_pid : envs cmd0 !! ENV_LISTEN_PID = None ∧ parent_env !! ENV_LISTEN_PID = None.

Lemma spawned_no_pid : env !! ENV_LISTEN_PID = None.
Proof using no_listen_pid. destruct spawn_env as (_ & _ & ->); [|done..]. by destruct no_listen_pid as [-> ->]. Qed.

Lemma spawned_adopted k1 :
  child_exec cmd k = (Ok tt, k1) →
  adopted_fds (mkProcess child_pid env k1) = seqZ 3 (Z.of_nat n).
Proof.
  intros Hk. unfold adopted_fds, announced_fds. rewrite spawned_count. unfold var. simpl.
  rewrite spawned_no_pid. simpl. unfold block_fds, socket_fds, SD_LISTEN_FDS_START.
  rewrite Nat2N.id, Z.add_0_r. apply filter_id, Forall_lookup. intros i fd Hi.
  apply lookup_seqZ in Hi as [-> Hi].
  destruct (lookup_lt_is_Some_2 sources i) as [s Hs]; [rewrite length_app, length_fmap; lia|].
  by eapply spawned_slot.
Qed.

(** *** When the names survive the variable *)
Hypothesis no_colon : Forall (λ s, occurs colon s = false) listeners.*1.
Hypothesis distinct : NoDup listeners.*1.

Lemma spawned_name k1 i name src :
  listeners !! i = Some (name, src) →
  slot_name (announced_names (mkProcess child_pid env k1)) (3 + Z.of_nat i) = name.
Proof.
  intros Hi. unfold slot_name, announced_names, var. simpl.
  destruct spawn_env as (_ & -> & _). unfold SD_LISTEN_FDS_START.
  replace (3 + Z.of_nat i - 3) with (Z.of_nat i) by lia. rewrite Nat2Z.id, split_join; [|by destruct listeners|done].
  by rewrite list_lookup_fmap, Hi.
Qed.

Lemma spawned_map k1 name fd :
  child_exec cmd k = (Ok tt, k1) →
  adopted_map (mkProcess child_pid env k1) !! name = Some fd ↔
  ∃ i src, listeners !! i = Some (name, src) ∧ fd = 3 + Z.of_nat i.
Proof.
  intros Hk. split.
  - intros [Hin Hn]%adopted_map_lookup. rewrite spawned_adopted in Hin by done.
    apply elem_of_seqZ in Hin. set (i := Z.to_nat (fd - 3)).
    assert (fd = 3 + Z.of_nat i) as Hfd by lia.
    destruct (lookup_lt_is_Some_2 listeners i) as [[name' src] Hi]; [lia|].
    rewrite Hfd in Hn. rewrite (spawned_name k1 i name' src Hi) in Hn. exists i, src. by rewrite <- Hn.
  - intros (i & src & Hi & ->). rewrite <- (spawned_name k1 i name src Hi).
    pose proof (lookup_lt_Some _ _ _ Hi).
    unfold adopted_map. rewrite spawned_adopted by done. apply foldl_insert_lookup.
    + apply elem_of_seqZ. lia.
    + intros y Hy%elem_of_seqZ Heq. set (j := Z.to_nat (y - 3)).
      assert (y = 3 + Z.of_nat j) as Hyj by lia. rewrite Hyj in *.
      destruct (lookup_lt_is_Some_2 listeners j) as [[name' src'] Hj]; [lia|].
      rewrite (spawned_name k1 j name' src' Hj), (spawned_name k1 i name src Hi) in Heq. subst name'.
      enough (j = i) by lia. eapply NoDup_lookup; [exact distinct|by rewrite list_lookup_fmap, Hj|].
      by rewrite list_lookup_fmap, Hi.
Qed.

(** *** The two commands: with and without the control socket *)
Definition extra_role : Prop :=
  match extra with
  | Some _ => env !! ENV_HANDOFF_ROLE = Some "successor"%string ∧
              env !! ENV_HANDOFF_SOCK_FD = Some (print_dec (N.of_nat (3 + n)))
  | None => env !! ENV_HANDOFF_ROLE ≠ Some "successor"%string
  end.

Lemma extra_is_socket k1 fd :
  child_exec cmd k = (Ok tt, k1) → extra = Some fd → fd_is_socket k1 (3 + Z.of_nat n) = true.
Proof using sockets room.
  intros Hk He. apply (spawned_slot k1 n fd Hk). rewrite He, lookup_app_r by (by rewrite length_fmap).
  by rewrite length_fmap, Nat.sub_diag.
Qed.

Lemma spawned_our_fds k1 :
  extra_role → child_exec cmd k = (Ok tt, k1) →
  our_fds (mkProcess child_pid env k1) = seqZ 3 (Z.of_nat (length sources)).
Proof using sockets room fits no_listen_pid.
  intros Hrole Hk. unfold our_fds. rewrite spawned_adopted by done. unfold var. cbn [proc_env kern].
  rewrite length_app, length_fmap, Nat2Z.inj_add, seqZ_app by lia. f_equal.
  pose proof (λ fd, extra_is_socket k1 fd Hk) as Hx.
  unfold extra_role in Hrole. destruct extra as [fd|]; [|by rewrite decide_False].
  destruct Hrole as [-> ->]. rewrite decide_True by done. simpl.
  rewrite parse_print_i32 by lia. rewrite nat_N_Z. replace (Z.of_nat (S (S (S n)))) with (3 + Z.of_nat n) by lia.
  by rewrite (Hx fd).
Qed.

Lemma spawned_tab wt k1 i src e :
  extra_role → child_exec cmd k = (Ok tt, k1) → sources !! i = Some src → fdtab k !! src = Some e →
  fdtab (kern (detect_role wt (mkProcess child_pid env k1)).2) !! (3 + Z.of_nat i) =
    Some (mkFd (ofd e) FD_CLOEXEC).
Proof using sockets room fits no_listen_pid.
  intros Hrole Hk Hi He. rewrite detect_role_kernel by apply spawned_in_range.
  rewrite spawned_our_fds by done.
  rewrite norm_fds_tab. destruct (spawned_slot k1 i src Hk Hi) as [_ Htab]. cbn [kern].
  rewrite (Htab e He). rewrite decide_True; [done|].
  pose proof (lookup_lt_Some _ _ _ Hi) as Hlt. rewrite elem_of_seqZ. lia.
Qed.

Lemma spawned_role wt k1 :
  extra_role → child_exec cmd k = (Ok tt, k1) →
  (detect_role wt (mkProcess child_pid env k1)).1 =
    let map := adopted_map (mkProcess child_pid env k1) in
    Ok (if extra then AsSuccessor (mkSuccessor (3 + Z.of_nat n) map) else ColdStart map).
Proof using sockets room fits.
  intros Hrole Hk. rewrite detect_role_run by apply spawned_in_range. unfold var. cbn [proc_env pid kern].
  pose proof (λ fd, extra_is_socket k1 fd Hk) as Hx.
  unfold extra_role in Hrole. destruct extra as [fd|]; [|by rewrite decide_False].
  destruct Hrole as [-> ->]. rewrite decide_True by done.
  rewrite parse_print_i32 by lia. rewrite nat_N_Z. replace (Z.of_nat (3 + n)) with (3 + Z.of_nat n) by lia.
  by rewrite (Hx fd).
Qed.

(** All of it. *)
Lemma spawned_inherits wt :
  extra_role →
  ∃ p p' map, spawned child_pid parent_env cmd k = Some p ∧
    detect_role wt p =
      (Ok (if extra then AsSuccessor (mkSuccessor (3 + Z.of_nat n) map) else ColdStart map), p') ∧
    (∀ name fd, map !! name = Some fd ↔
       ∃ i src, listeners !! i = Some (name, src) ∧ fd = 3 + Z.of_nat i) ∧
    (∀ i src e, sources !! i = Some src → fdtab k !! src = Some e →
       fdtab (kern p') !! (3 + Z.of_nat i) = Some (mkFd (ofd e) FD_CLOEXEC)).
Proof using sockets room fits no_listen_pid no_colon distinct.
  intros Hrole. destruct spawn_kernel as (k1 & Hk & _).
  set (p := mkProcess child_pid env k1). exists p, (detect_role wt p).2, (adopted_map p).
  unfold spawned. rewrite Hk. split; [done|]. split; [|split].
  - rewrite (surjective_pairing (detect_role wt p)) at 1. f_equal. by apply spawned_role.
  - intros name fd. by apply spawned_map.
  - intros i src e. by apply spawned_tab.
Qed.
End inheritance.

(** *** What the callers put into the environment before that *)
Definition successor_command (spec : SpawnSpec) (len : nat) : Command :=
  command_env ENV_HANDOFF_SOCK_FD (show_Z (3 + Z.of_nat len))
    (command_env ENV_HANDOFF_ROLE "successor"
      (foldl (λ cmd '(k, v), command_env k v cmd)
        (command_args (spec_args spec) (command_new (binary spec))) (spec_env spec))).

Lemma spawn_command_eq spec listeners fd :
  spawn_command spec listeners fd =
    pass_listener_fds_on_spawn (successor_command spec (length listeners)) listeners (Some fd).
Proof. done. Qed.

Lemma successor_role spec listeners fd parent_env :
  extra_role (successor_command spec (length listeners)) listeners (Some fd) parent_env.
Proof.
  set (c := successor_command spec (length listeners)).
  destruct (spawn_env c listeners (Some fd) parent_env) as (_ & _ & Henv).
  split; rewrite Henv by done; simpl.
  - rewrite lookup_insert_ne by done. by rewrite lookup_insert_eq.
  - rewrite lookup_insert_eq. f_equal. rewrite <- show_Z_nat. f_equal. lia.
Qed.

Lemma successor_pid spec len :
  (∀ v, (ENV_LISTEN_PID, v) ∉ spec_env spec) → envs (successor_command spec len) !! ENV_LISTEN_PID = None.
Proof. intros Hpid. simpl. rewrite !lookup_insert_ne by done. by rewrite foldl_env_lookup. Qed.

(** ** Properties *)

(** C21: what [spawn_successor] sends arrives.  For listeners with distinct
    names without a [:], whatever their descriptor numbers are in the
    supervisor, and whatever else is in its environment and in [spec.env]
    (except [LISTEN_PID]), the spawned process finds in [detect_role] that it
    is the successor, with the control socket at [3 + len] and each name at
    its own slot and no other name; each of these descriptors is behind the
    supervisor's socket and close-on-exec. *)
Theorem successor_inherits (spec : SpawnSpec) (listeners : list (string * Z)) n_sock_fd child_pid
    (parent_env : gmap string string) (k : kernel) wt :
  let sources := listeners.*2 ++ [n_sock_fd] in
  let len := Z.of_nat (length listeners) in
  NoDup listeners.*1 → Forall (λ s, occurs colon s = false) listeners.*1 →
  Forall (λ fd, fd_is_socket k fd = true) sources →
  (length sources ≤ length (free_fds k (SD_LISTEN_FDS_START + Z.of_nat (length sources))))%nat →
  3 + (len + 1) ≤ i32_max →
  parent_env !! ENV_LISTEN_PID = None → (∀ v, (ENV_LISTEN_PID, v) ∉ spec_env spec) →
  ∃ p p' map,
    spawned child_pid parent_env (spawn_command spec listeners n_sock_fd) k = Some p ∧
    detect_role wt p = (Ok (AsSuccessor (mkSuccessor (3 + len) map)), p') ∧
    (∀ name fd, map !! name = Some fd ↔
       ∃ i src, listeners !! i = Some (name, src) ∧ fd = 3 + Z.of_nat i) ∧
    (∀ i src e, sources !! i = Some src → fdtab k !! src = Some e →
       fdtab (kern p') !! (3 + Z.of_nat i) = Some (mkFd (ofd e) FD_CLOEXEC)).
Proof.
  intros sources len Hnd Hcolon Hsk Hroom Hfits Hpid Hspec. rewrite spawn_command_eq.
  apply (spawned_inherits (successor_command spec (length listeners)) listeners (Some n_sock_fd));
    eauto using successor_role, successor_pid; lia.
Qed.

(** Two listeners that sit in each other's slots. *)
Module InheritDemo.
Definition k : kernel := {|
  fdtab := {[ 3 := mkFd 30 1; 4 := mkFd 40 1; 9 := mkFd 90 1 ]};
  descs := {[ 30%nat := RoleDemo.listener; 40%nat := RoleDemo.listener; 90%nat := RoleDemo.pair_end ]};
  nofile := 64
|}.
Definition listeners : list (string * Z) := [("http"%string, 4); ("admin"%string, 3)].
Definition spec : SpawnSpec := SpawnSpec_new "/bin/n".
End InheritDemo.

Lemma successor_inherits_witness :
  ∃ p p' map,
    spawned 77 ∅ (spawn_command InheritDemo.spec InheritDemo.listeners 9) InheritDemo.k = Some p ∧
    detect_role (Ok tt) p = (Ok (AsSuccessor (mkSuccessor 5 map)), p') ∧
    map !! "http"%string = Some 3 ∧ fdtab (kern p') !! 3 = Some (mkFd 40 FD_CLOEXEC).
Proof.
  destruct (successor_inherits InheritDemo.spec InheritDemo.listeners 9 77 ∅ InheritDemo.k (Ok tt))
    as (p & p' & map & Hp & Hd & Hm & Ht).
  - apply NoDup_cons. split; [set_solver|]. apply NoDup_singleton.
  - repeat constructor.
  - repeat constructor.
  - vm_compute. lia.
  - vm_compute. discriminate.
  - reflexivity.
  - intros v Hv. simpl in Hv. by apply elem_of_nil in Hv.
  - exists p, p', map. split; [exact Hp|]. split; [exact Hd|]. split.
    + apply Hm. exists 0%nat, 4. split; reflexivity.
    + exact (Ht 0%nat 4 (mkFd 40 1) eq_refl eq_refl).
Defined.

(** C36: a [LISTEN_PID] in the supervisor's own environment (an activation
    under systemd sets it to the supervisor's pid) reaches the successor,
    which then ignores every listener it was passed: [detect_role] still
    answers [Successor], with no listeners. *)
Theorem inherited_listen_pid_hides_listeners (spec : SpawnSpec) (listeners : list (string * Z))
    n_sock_fd child_pid (parent_env : gmap string string) (k : kernel) wt raw :
  let sources := listeners.*2 ++ [n_sock_fd] in
  let len := Z.of_nat (length listeners) in
  Forall (λ fd, fd_is_socket k fd = true) sources →
  (length sources ≤ length (free_fds k (SD_LISTEN_FDS_START + Z.of_nat (length sources))))%nat →
  3 + (len + 1) ≤ i32_max →
  (∀ v, (ENV_LISTEN_PID, v) ∉ spec_env spec) → parent_env !! ENV_LISTEN_PID = Some raw →
  listen_pid_ok child_pid (Some raw) = false →
  ∃ p, spawned child_pid parent_env (spawn_command spec listeners n_sock_fd) k = Some p ∧
    (detect_role wt p).1 = Ok (AsSuccessor (mkSuccessor (3 + len) ∅)).
Proof.
  intros sources len Hsk Hroom Hfits Hspec Hpid Hok. rewrite spawn_command_eq.
  set (c := successor_command spec (length listeners)).
  destruct (spawn_kernel c listeners (Some n_sock_fd) k Hsk Hroom) as (k1 & Hk & _ & _).
  set (p := mkProcess child_pid (child_env parent_env (pass_listener_fds_on_spawn c listeners (Some n_sock_fd))) k1).
  exists p. unfold spawned. rewrite Hk. split; [done|].
  unfold p. erewrite spawned_role; [|eauto using successor_role; lia..]. do 3 f_equal.
  unfold adopted_map, adopted_fds, announced_fds, var. cbn [proc_env pid].
  destruct (spawn_env c listeners (Some n_sock_fd) parent_env) as (_ & _ & ->); [|done..].
  unfold c. by rewrite (successor_pid _ _ Hspec), Hpid, Hok.
Qed.

Lemma inherited_listen_pid_hides_listeners_witness :
  let penv := {[ ENV_LISTEN_PID := "5"%string ]} in
  ∃ p, spawned 77 penv (spawn_command InheritDemo.spec InheritDemo.listeners 9) InheritDemo.k = Some p ∧
    (detect_role (Ok tt) p).1 = Ok (AsSuccessor (mkSuccessor 5 ∅)).
Proof.
  intros penv.
  destruct (inherited_listen_pid_hides_listeners InheritDemo.spec InheritDemo.listeners 9 77 penv
    InheritDemo.k (Ok tt) "5"%string) as (p & Hp & Hd).
  - repeat constructor.
  - vm_compute. lia.
  - vm_compute. discriminate.
  - intros v Hv. simpl in Hv. by apply elem_of_nil in Hv.
  - reflexivity.
  - reflexivity.
  - exists p. split; [exact Hp|exact Hd].
Defined.
