(* ===== verification/Pair.v ===== *)
(** * The successor's control socket: [make_socketpair] and the spawn over it

    [supervisor.rs] creates the pair, spawns the successor with one end, and
    drops its own copy of that end.  The two processes' descriptor tables
    afterwards decide whether the death of one is an end of file for the
    other. *)
From stdpp Require Import base tactics option list numbers strings gmap.
From S2P Require Import Prelude Errors Sock Fd Channel Role Supervisor Inheritance.
Local Open Scope Z_scope.

(** ** System calls *)

(** A call whose error is wrapped by its caller. *)
Definition map_raise {W E F A} (f : E → F) (m : prog W E A) : prog W F A := λ w,
  match m w with
  | (Ok a, w) => (Ok a, w)
  | (Err (Raise e), w) => (Err (Raise (f e)), w)
  | (Err (Exit code), w) => (Err (Exit code), w)
  | (Err Stuck, w) => (Err Stuck, w)
  end.

(** A description that no descriptor of the system refers to. *)
Definition fresh_ofd (k : kernel) : nat := S (map_fold (λ o _ m, Nat.max o m) 0%nat (descs k)).

(** A connected, blocking [AF_UNIX] stream. *)
Definition pair_description : description := mkDesc 0 S_IFSOCK (Some AF_UNIX) (Ok false) true true.

(** [socketpair(AF_UNIX, SOCK_STREAM, ..)]: two new descriptions at the two
    lowest free descriptors, whose flags are [fl]. *)
Definition socketpair (fl : Z) : prog kernel Errno (Z * Z) :=
  k ← gets id;
  match free_fds k 0 with
  | a :: b :: _ =>
      let o := fresh_ofd k in
      _ ← modify (λ k, mkKernel (<[a := mkFd o fl]> (<[b := mkFd (S o) fl]> (fdtab k)))
        (<[o := pair_description]> (<[S o := pair_description]> (descs k))) (nofile k));
      mret (a, b)
  | _ => raise EMFILE
  end.

(** Dropping an [OwnedFd]. *)
Definition drop_fd (fd : Z) : prog kernel Error unit := map_raise Io (close fd).

Definition setfd_cloexec (fd : Z) : prog kernel Error unit :=
  map_raise (λ e, Nix (default EOTHER (raw_os_error e))) (fcntl_setfd fd FD_CLOEXEC).

(** ** [make_socketpair] *)
Definition make_socketpair (macos : bool) : prog kernel Error (Z * Z) :=
  if negb macos then map_raise Nix (socketpair FD_CLOEXEC)
  else
    pair ← map_raise Nix (socketpair 0);
    r ← attempt (_ ← setfd_cloexec pair.1; setfd_cloexec pair.2);
    match r with
    | Ok _ => mret pair
    | Err e => _ ← drop_fd pair.1; _ ← drop_fd pair.2; raise e
    end.

(** ** The spawn *)

(** What [fork] answers (the child's pid), and what [execve] does in the child. *)
Record SpawnAnswers : Type := mkSpawnAnswers {
  fork : result IoError Z;
  execve : result IoError unit
}.

(** [Command::spawn]: the child works on a copy of the descriptor table, and
    reports a failure before or in [execve] to the parent. *)
Definition spawn (a : SpawnAnswers) (c : Command) : sys (Z * kernel) := λ k,
  match fork a with
  | Err e => (Err (Raise e), k)
  | Ok pid =>
      match child_exec c k with
      | (Err e, _) => (Err e, k)
      | (Ok _, child) =>
          match execve a with
          | Err e => (Err (Raise e), k)
          | Ok _ => (Ok (pid, child), k)
          end
      end
  end.

(** [perform_handoff] from the pair to the drop of [n_end]; [?] drops both. *)
Definition spawn_over_pair (macos : bool) (a : SpawnAnswers) (s : Supervisor) (spec : SpawnSpec)
    : prog kernel Error (Z * Z * kernel) :=
  pair ← make_socketpair macos;
  let '(s_end, n_end) := pair in
  r ← attempt (map_raise Io (spawn a (spawn_successor s spec n_end)));
  match r with
  | Err e => _ ← drop_fd n_end; _ ← drop_fd s_end; raise e
  | Ok (child_pid, child) => _ ← drop_fd n_end; mret (s_end, child_pid, child)
  end.

(** ** Lemmas *)

Lemma fresh_ofd_above k o d : descs k !! o = Some d → (o < fresh_ofd k)%nat.
Proof.
  unfold fresh_ofd. revert o d.
  apply (map_fold_weak_ind (λ (m : nat) (g : gmap nat description), ∀ o d, g !! o = Some d → (o < S m)%nat)).
  - intros o d. by rewrite lookup_empty.
  - intros o d g m Ho IH o' d'. destruct (decide (o' = o)) as [->|Hne]; [lia|].
    rewrite lookup_insert_ne by done. intros H%IH. lia.
Qed.

(** Every descriptor refers to a description. *)
Definition table_wf (k : kernel) : Prop :=
  ∀ fd e, fdtab k !! fd = Some e → is_Some (descs k !! ofd e).

Lemma table_wf_below k fd e : table_wf k → fdtab k !! fd = Some e → (ofd e < fresh_ofd k)%nat.
Proof. intros Hk [d Hd]%Hk. by eapply fresh_ofd_above. Qed.

(** Free descriptors above a bound, and after two were taken. *)
Lemma free_fds_above k min : 0 ≤ min → free_fds k min ⊆+ free_fds k 0.
Proof.
  intros. apply NoDup_submseteq; [apply NoDup_free_fds|]. intros fd. rewrite !elem_of_free_fds.
  intros [? ?]. split; [done|lia].
Qed.

Lemma free_fds_taken k k' min a b :
  nofile k' = nofile k → (∀ fd, fd ≠ a → fd ≠ b → fdtab k' !! fd = fdtab k !! fd) →
  (length (free_fds k min) ≤ 2 + length (free_fds k' min))%nat.
Proof.
  intros Hn Ht. apply (submseteq_length _ (a :: b :: free_fds k' min)).
  apply NoDup_submseteq; [apply NoDup_free_fds|]. intros fd [Hf Hr]%elem_of_free_fds.
  destruct (decide (fd = a)) as [->|Ha]; [set_solver|]. destruct (decide (fd = b)) as [->|Hb]; [set_solver|].
  do 2 right. apply elem_of_free_fds. by rewrite Ht, Hn.
Qed.

(** The kernel after [socketpair]. *)
Definition paired (fl : Z) (k : kernel) (a b : Z) : kernel :=
  mkKernel (<[a := mkFd (fresh_ofd k) fl]> (<[b := mkFd (S (fresh_ofd k)) fl]> (fdtab k)))
    (<[fresh_ofd k := pair_description]> (<[S (fresh_ofd k) := pair_description]> (descs k))) (nofile k).

Lemma socketpair_run fl k a b l :
  free_fds k 0 = a :: b :: l → socketpair fl k = (Ok (a, b), paired fl k a b).
Proof. intros Hf. unfold socketpair, mbind, prog_bind, gets, id. by rewrite Hf. Qed.

Lemma setfd_cloexec_run k fd e :
  fdtab k !! fd = Some e →
  setfd_cloexec fd k = (Ok tt, set_fdtab (<[fd := mkFd (ofd e) FD_CLOEXEC]> (fdtab k)) k).
Proof.
  intros He. unfold setfd_cloexec, map_raise, fcntl_setfd, with_fd, mbind, prog_bind, gets, id.
  by rewrite He.
Qed.

Lemma free_pair k a b l :
  free_fds k 0 = a :: b :: l → a ≠ b ∧ fdtab k !! a = None ∧ fdtab k !! b = None.
Proof.
  intros Hf. pose proof (NoDup_free_fds k 0) as Hnd. rewrite Hf in Hnd.
  apply NoDup_cons in Hnd as [Hnd _].
  assert (∀ fd, fd ∈ [a; b] → fdtab k !! fd = None) as Hfree.
  { intros fd Hfd. apply (elem_of_free_fds k 0 fd). rewrite Hf. set_solver. }
  split_and!; [set_solver|apply Hfree; set_solver..].
Qed.

Lemma make_socketpair_run macos k a b l :
  free_fds k 0 = a :: b :: l → make_socketpair macos k = (Ok (a, b), paired FD_CLOEXEC k a b).
Proof.
  intros Hf. destruct (free_pair k a b l Hf) as (Hab & _).
  unfold make_socketpair, map_raise, mbind, prog_bind, attempt, mret, prog_ret.
  destruct macos; cbn [negb]; rewrite (socketpair_run _ _ _ _ _ Hf); [|done]. cbn [fst snd].
  erewrite setfd_cloexec_run by apply lookup_insert_eq. erewrite setfd_cloexec_run.
  2: { simpl. rewrite !lookup_insert_ne by done. apply lookup_insert_eq. }
  unfold paired, set_fdtab. simpl. do 2 f_equal.
  apply map_eq. intros fd. destruct (decide (fd = a)) as [->|Ha]; [|destruct (decide (fd = b)) as [->|Hb]];
    by repeat first [rewrite lookup_insert_eq | rewrite lookup_insert_ne by done].
Qed.

(** *** The two tables *)
Section ends.
Context (k : kernel) (listeners : list (string * Z)) (c : Command) (a b : Z) (l : list Z).
Abbreviation n := (length listeners).
Abbreviation target := (3 + Z.of_nat n).

Hypothesis wf : table_wf k.
Hypothesis sockets : Forall (λ fd, fd_is_socket k fd = true) listeners.*2.
Hypothesis room : (n + 3 ≤ length (free_fds k (target + 1)))%nat.
Hypothesis free : free_fds k 0 = a :: b :: l.
Hypothesis command : inherited_fds c = Some (listeners.*2 ++ [b]).

Lemma paired_lookup fl fd :
  fdtab (paired fl k a b) !! fd =
    if decide (fd = a) then Some (mkFd (fresh_ofd k) fl)
    else if decide (fd = b) then Some (mkFd (S (fresh_ofd k)) fl) else fdtab k !! fd.
Proof using.
  unfold paired. simpl. case_decide as Ha; [subst; apply lookup_insert_eq|].
  rewrite lookup_insert_ne by done. case_decide; [subst; apply lookup_insert_eq|by apply lookup_insert_ne].
Qed.

(** A listener is behind one of the old descriptions. *)
Lemma listener_entry fl src :
  src ∈ listeners.*2 → ∃ e, fdtab (paired fl k a b) !! src = Some e ∧ (ofd e < fresh_ofd k)%nat.
Proof using wf sockets free.
  intros Hin. pose proof (proj1 (Forall_forall _ _) sockets src Hin) as (e & d & He & _)%socket_desc.
  destruct (free_pair k a b l free) as (_ & Ha & Hb).
  exists e. rewrite paired_lookup, !decide_False by congruence. split; [done|]. by eapply table_wf_below.
Qed.

Lemma source_entry i src :
  (listeners.*2 ++ [b]) !! i = Some src →
  ∃ e, fdtab (paired FD_CLOEXEC k a b) !! src = Some e ∧
    ((ofd e < fresh_ofd k)%nat ∨ i = n ∧ ofd e = S (fresh_ofd k)).
Proof using wf sockets room free.
  destruct (free_pair k a b l free) as (Hab & _).
  intros [Hi|[Hle Hi]]%lookup_app_Some.
  - destruct (listener_entry FD_CLOEXEC src) as (e & He & Ho); [by eapply list_elem_of_lookup_2|]. eauto.
  - rewrite length_fmap in *. apply list_lookup_singleton_Some in Hi as [Hi <-].
    exists (mkFd (S (fresh_ofd k)) FD_CLOEXEC). rewrite paired_lookup, decide_False, decide_True by done.
    split; [done|]. right. split; [lia|done].
Qed.

Lemma child_ends :
  ∃ child, child_exec c (paired FD_CLOEXEC k a b) = (Ok tt, child) ∧
    fdtab child !! target = Some (mkFd (S (fresh_ofd k)) 0) ∧
    ∀ fd e, fdtab child !! fd = Some e →
      ofd e ≠ fresh_ofd k ∧ (ofd e = S (fresh_ofd k) → fd = target).
Proof using wf sockets room free command.
  set (k2 := paired FD_CLOEXEC k a b). set (srcs := listeners.*2 ++ [b]).
  assert (length srcs = S n) as Hlen by (unfold srcs; rewrite length_app, length_fmap; simpl; lia).
  destruct (child_exec_run c k2 srcs command) as (child & Hk & _ & H1 & H2).
  { apply Forall_lookup. intros i src Hi. by destruct (source_entry i src Hi) as (e & He & _); eauto. }
  { rewrite Hlen. unfold SD_LISTEN_FDS_START. replace (3 + Z.of_nat (S n)) with (target + 1) by lia.
    enough (length (free_fds k (target + 1)) ≤ 2 + length (free_fds k2 (target + 1)))%nat by lia.
    apply (free_fds_taken k k2 (target + 1) a b); [done|]. intros fd Ha Hb. unfold k2. by rewrite paired_lookup, !decide_False. }
  unfold SD_LISTEN_FDS_START in *. exists child. split; [done|]. split.
  - destruct (free_pair k a b l free) as (Hab & _).
    rewrite (H1 n b (mkFd (S (fresh_ofd k)) FD_CLOEXEC)); [done| |].
    + unfold srcs. rewrite lookup_app_r by (by rewrite length_fmap). by rewrite length_fmap, Nat.sub_diag.
    + unfold k2. by rewrite paired_lookup, decide_False, decide_True.
  - intros fd e He. destruct (decide (3 ≤ fd < 3 + Z.of_nat (length srcs))) as [Hr|Hr].
    + set (i := Z.to_nat (fd - 3)). assert (fd = 3 + Z.of_nat i) as Hfd by lia. clearbody i. subst fd.
      destruct (lookup_lt_is_Some_2 srcs i) as [src Hsrc]; [lia|].
      destruct (source_entry i src Hsrc) as (e2 & He2 & Ho). rewrite (H1 i src e2 Hsrc He2) in He.
      simplify_eq. simpl. destruct Ho as [Ho|[-> Ho]]; split; lia.
    + rewrite H2 in He by lia. rewrite close_on_exec_lookup in He. unfold k2 in He.
      apply bind_Some in He as (e2 & He2 & He). rewrite paired_lookup in He2.
      destruct (decide (fd = a)); [simplify_eq; by case_decide|]. destruct (decide (fd = b)); [simplify_eq; by case_decide|].
      case_decide; [|done]. simplify_eq. clear Hr.
      pose proof (table_wf_below k fd e wf He2). split; lia.
Qed.
End ends.

(** Dropping the ends. *)
Lemma drop_fd_run fd k : drop_fd fd k = (Ok tt, set_fdtab (delete fd (fdtab k)) k).
Proof. done. Qed.

Lemma drop_second fl k a b :
  a ≠ b → fdtab k !! b = None →
  delete b (fdtab (paired fl k a b)) = <[a := mkFd (fresh_ofd k) fl]> (fdtab k).
Proof.
  intros Hab Hb. simpl. rewrite delete_insert_ne by done. by rewrite delete_insert_id.
Qed.

(** ** Properties *)

(** C16: each end of the successor's control socket has one owner.  When the
    handoff has spawned its successor, the supervisor holds exactly one of the
    two ends, under a close-on-exec descriptor that was free, and no copy of
    the other; the successor, whatever listeners it was given and at whatever
    numbers they or the ends sat in the supervisor, holds exactly the other,
    at the descriptor its environment names, and no copy of the supervisor's.
    So the death of either process is an end of file for the other.  The
    supervisor's other descriptors are untouched; and if the successor cannot
    be spawned, both ends are closed again and the table is as before. *)
Theorem pair_ends_apart (macos : bool) (a : SpawnAnswers) (s : Supervisor) (spec : SpawnSpec) (k : kernel) :
  let len := Z.of_nat (length (listener_fds s)) in
  table_wf k → Forall (λ fd, fd_is_socket k fd = true) (listener_fds s).*2 →
  (length (listener_fds s) + 3 ≤ length (free_fds k (3 + len + 1)))%nat →
  match spawn_over_pair macos a s spec k with
  | (Ok (s_end, child_pid, child), k') =>
      fork a = Ok child_pid ∧ execve a = Ok tt ∧
      ∃ mine theirs, mine ≠ theirs ∧ descs k !! mine = None ∧ descs k !! theirs = None ∧
        fdtab k !! s_end = None ∧ fdtab k' = <[s_end := mkFd mine FD_CLOEXEC]> (fdtab k) ∧
        (∀ fd e, fdtab k' !! fd = Some e → ofd e ≠ theirs ∧ (ofd e = mine → fd = s_end)) ∧
        fdtab child !! (3 + len) = Some (mkFd theirs 0) ∧
        (∀ fd e, fdtab child !! fd = Some e → ofd e ≠ mine ∧ (ofd e = theirs → fd = 3 + len))
  | (Err (Raise _), k') => fdtab k' = fdtab k ∧ (is_ok (fork a) && is_ok (execve a)) = false
  | (Err _, _) => False
  end.
Proof.
  intros len Hwf Hsk Hroom. unfold len in *. clear len.
  destruct (free_fds k 0) as [|sa [|nb l]] eqn:Hfree;
    [pose proof (submseteq_length _ _ (free_fds_above k (3 + Z.of_nat (length (listener_fds s)) + 1) ltac:(lia)));
     rewrite Hfree in *; simpl in *; lia..|].
  destruct (free_pair k sa nb l Hfree) as (Hab & Ha & Hb).
  unfold spawn_over_pair, mbind, prog_bind. rewrite (make_socketpair_run _ _ _ _ _ Hfree).
  destruct (child_ends k (listener_fds s) (spawn_successor s spec nb) sa nb l Hwf Hsk Hroom Hfree eq_refl)
    as (child & Hchild & Htarget & Hends).
  unfold attempt, map_raise, spawn. rewrite Hchild.
  destruct (fork a) as [child_pid|e]; [destruct (execve a) as [[]|e]|];
    rewrite !drop_fd_run; cbn [fdtab set_fdtab raise mret prog_ret is_ok andb fst snd];
    rewrite drop_second by done; [|by rewrite delete_insert_id..].
  split_and!; [done..|]. exists (fresh_ofd k), (S (fresh_ofd k)).
  assert (∀ o, (fresh_ofd k ≤ o)%nat → descs k !! o = None) as Hfr.
  { intros o Ho. destruct (descs k !! o) as [d|] eqn:Hd; [|done]. apply fresh_ofd_above in Hd. lia. }
  split_and!; [lia|apply Hfr; lia..|done|done| |done|done].
  intros fd e. destruct (decide (fd = sa)) as [->|Hne].
  - rewrite lookup_insert_eq. intros [= <-]. simpl. split; [lia|done].
  - rewrite lookup_insert_ne by done. intros He%(table_wf_below k fd e Hwf). split; lia.
Qed.

Module PairDemo.
(** The supervisor has a hole at [4], where the successor's first listener
    will go, and holds its own listener at [3]. *)
Definition k : kernel := {|
  fdtab := {[ 0 := mkFd 0 0; 1 := mkFd 1 0; 2 := mkFd 1 0; 3 := mkFd 30 1; 5 := mkFd 40 1 ]};
  descs := {[ 0%nat := RoleDemo.log_file; 1%nat := RoleDemo.log_file; 30%nat := RoleDemo.listener;
              40%nat := RoleDemo.listener ]};
  nofile := 64
|}.
Definition supervisor : Supervisor :=
  mkSupervisor "/run/control" [("http"%string, 5); ("admin"%string, 3)] None [].
Lemma k_wf : table_wf k.
Proof.
  assert (map_Forall (λ _ e, is_Some (descs k !! ofd e)) (fdtab k)) as H
    by (apply (bool_decide_unpack _); by vm_compute).
  exact H.
Qed.
End PairDemo.

(** The pair is created at [4] and [6]; the successor finds its end at [5]. *)
Lemma pair_ends_apart_witness :
  ∃ child k' mine theirs,
    spawn_over_pair false (mkSpawnAnswers (Ok 77) (Ok tt)) PairDemo.supervisor (SpawnSpec_new "/bin/n")
      PairDemo.k = (Ok (4, 77, child), k') ∧
    mine ≠ theirs ∧ fdtab k' = <[4 := mkFd mine FD_CLOEXEC]> (fdtab PairDemo.k) ∧
    fdtab child !! 5 = Some (mkFd theirs 0) ∧
    ∀ fd e, fdtab child !! fd = Some e → ofd e ≠ mine.
Proof.
  pose proof (pair_ends_apart false (mkSpawnAnswers (Ok 77) (Ok tt)) PairDemo.supervisor
    (SpawnSpec_new "/bin/n") PairDemo.k PairDemo.k_wf
    ltac:(repeat constructor) ltac:(vm_compute; lia)) as H.
  assert (match (spawn_over_pair false (mkSpawnAnswers (Ok 77) (Ok tt)) PairDemo.supervisor
            (SpawnSpec_new "/bin/n") PairDemo.k).1 with Ok (s_end, pid, _) => Some (s_end, pid) | Err _ => None end
          = Some (4, 77)) as Hrun by (vm_compute; reflexivity).
  destruct (spawn_over_pair false (mkSpawnAnswers (Ok 77) (Ok tt)) PairDemo.supervisor
    (SpawnSpec_new "/bin/n") PairDemo.k) as [[[[s_end pid] child]|e] k'] eqn:Heq; [|discriminate Hrun].
  simpl in Hrun. injection Hrun as -> ->.
  destruct H as (_ & _ & mine & theirs & Hne & _ & _ & _ & Hk & _ & Ht & Hc).
  exists child, k', mine, theirs. split; [reflexivity|]. split; [exact Hne|]. split; [exact Hk|].
  split; [exact Ht|]. intros fd e He. exact (proj1 (Hc fd e He)).
Defined.
