(* ===== verification/SupervisorBin.v ===== *)
(** * The reference supervisor: [crates/handoff-supervisor/src/main.rs]

    The cold start, the trigger socket's commands — who may give them, what
    they may run — and the bounded reap of the outgoing primitive, around the
    library's [perform_handoff]. *)
From Stdlib Require Import Strings.Ascii.
From stdpp Require Import base tactics option list numbers strings gmap.
From S2P Require Import Prelude Errors Protocol Sock Frame Fd Channel StateJournal Supervisor.
Local Open Scope Z_scope.

Definition TRIGGER_IO_TIMEOUT : Z := 10000.
Definition TRIGGER_MAX_LINE : nat := 4096.

(** ** Configuration (its TOML syntax is [serde]'s) *)
Record ListenerConfig : Type := mkListenerConfig { l_name : string; l_addr : string }.
Record Config : Type := mkConfig {
  control_socket : string;
  cfg_binary : string;
  cfg_args : list string;
  cfg_env : list (string * string);
  cfg_listeners : list ListenerConfig;
  trigger_socket : string;
  allowed_uids : list Z;
  allowed_binaries : list string;
  cfg_journal : option string;
  drain_grace_secs : Z;
  deadline_secs : Z
}.
Definition default_drain_grace_secs : Z := 25.
Definition default_deadline_secs : Z := 60.

(** ** Text

    [BufRead::read_line] on a reader limited to [limit] bytes: through the
    first newline, the end of input or the limit. *)
Fixpoint through_newline (bs : list byte) : option (list byte) :=
  match bs with
  | [] => None
  | b :: bs => if decide (byte_to_Z b = 10) then Some [b] else (b ::.) <$> through_newline bs
  end.

Fixpoint read_until_newline (limit : nat) (r : reader) : result IoError (list byte) :=
  if decide (limit = 0%nat) then Ok [] else
  match r with
  | [] => Ok []
  | RFail e :: r => if decide (kind e = Interrupted) then read_until_newline limit r else Err e
  | RData [] :: _ => Ok []
  | RData bs :: r =>
      let available := take limit bs in
      match through_newline available with
      | Some line => Ok line
      | None => (available ++.) <$> read_until_newline (limit - length available) r
      end
  end.

(** [std::str::from_utf8]'s validation: [lo..=hi] bounds the next byte. *)
Definition in_range (lo hi : Z) (b : byte) : bool := (lo <=? byte_to_Z b) && (byte_to_Z b <=? hi).

Fixpoint utf8_valid (bs : list byte) : bool :=
  match bs with
  | [] => true
  | b :: bs =>
      if in_range 0 127 b then utf8_valid bs
      else if in_range 194 223 b then
        match bs with b1 :: bs => in_range 128 191 b1 && utf8_valid bs | _ => false end
      else if in_range 224 239 b then
        match bs with
        | b1 :: b2 :: bs =>
            in_range (if decide (byte_to_Z b = 224) then 160 else 128)
                     (if decide (byte_to_Z b = 237) then 159 else 191) b1 &&
            in_range 128 191 b2 && utf8_valid bs
        | _ => false
        end
      else if in_range 240 244 b then
        match bs with
        | b1 :: b2 :: b3 :: bs =>
            in_range (if decide (byte_to_Z b = 240) then 144 else 128)
                     (if decide (byte_to_Z b = 244) then 143 else 191) b1 &&
            in_range 128 191 b2 && in_range 128 191 b3 && utf8_valid bs
        | _ => false
        end
      else false
  end.

Definition read_line (limit : nat) (r : reader) : result IoError (list byte) :=
  bs ← read_until_newline limit r;
  if utf8_valid bs then Ok bs else Err (io_from_kind OtherKind).

(** [char::is_whitespace], on the head of a UTF-8 text: the length of the
    white space character there, or 0. *)
Definition ws_len (bs : list byte) : nat :=
  match List.map byte_to_Z (take 3 bs) with
  | x :: rest =>
      if (9 <=? x) && (x <=? 13) || (x =? 32) then 1%nat
      else match rest with
           | y :: rest =>
               if (x =? 194) && ((y =? 133) || (y =? 160)) then 2%nat
               else match rest with
                    | z :: _ =>
                        if (x =? 225) && (y =? 154) && (z =? 128) then 3%nat
                        else if (x =? 226) && (y =? 128) &&
                                ((128 <=? z) && (z <=? 138) || (z =? 168) || (z =? 169) || (z =? 175)) then 3%nat
                        else if (x =? 226) && (y =? 129) && (z =? 159) then 3%nat
                        else if (x =? 227) && (y =? 128) && (z =? 128) then 3%nat
                        else 0%nat
                    | _ => 0%nat
                    end
           | _ => 0%nat
           end
  | [] => 0%nat
  end.

Definition flush (cur : list byte) : list (list byte) :=
  match cur with [] => [] | _ => [cur] end.

(** [str::split_whitespace]; [skip] bytes of a white space character are left. *)
Fixpoint split_ws (cur : list byte) (skip : nat) (bs : list byte) : list (list byte) :=
  match bs with
  | [] => flush cur
  | b :: bs' =>
      match skip with
      | S skip => split_ws cur skip bs'
      | O =>
          match ws_len bs with
          | O => split_ws (cur ++ [b]) 0 bs'
          | S skip => flush cur ++ split_ws [] skip bs'
          end
      end
  end.

Definition split_whitespace (bs : list byte) : list (list byte) := split_ws [] 0 bs.

(** [str::trim]. *)
Fixpoint trim_start_ws (skip : nat) (bs : list byte) : list byte :=
  match bs with
  | [] => []
  | b :: bs' =>
      match skip with
      | S skip => trim_start_ws skip bs'
      | O => match ws_len bs with O => bs | S skip => trim_start_ws skip bs' end
      end
  end.
Fixpoint trim_end_ws (bs : list byte) : list byte :=
  match bs with
  | [] => []
  | b :: bs' => if decide (trim_start_ws 0 bs = []) then [] else b :: trim_end_ws bs'
  end.
Definition trim_ws (bs : list byte) : list byte := trim_end_ws (trim_start_ws 0 bs).

Definition text (bs : list byte) : string := String.string_of_list_byte bs.

(** ** One trigger client

    What its connection reports, what it sends, and — should it trigger a
    handoff — what the system and the two other processes answer. *)
Record Client (T : Type) : Type := mkClient {
  c_peer_uid : result IoError Z;
  c_set_read_timeout : result IoError unit;
  c_set_write_timeout : result IoError unit;
  c_input : reader;
  c_canonicalize : string → result IoError string;
  c_handoff : SEnv T;
  c_try_wait : nat → result IoError (option Z);
  c_delay : nat → Z
}.
Arguments mkClient {T}. Arguments c_peer_uid {T}. Arguments c_set_read_timeout {T}.
Arguments c_set_write_timeout {T}. Arguments c_input {T}. Arguments c_canonicalize {T}.
Arguments c_handoff {T}. Arguments c_try_wait {T}. Arguments c_delay {T}.

(** The reply lines, before formatting. *)
Inductive Reply : Type :=
| RNotPermitted
| ROk (id : HandoffId) (committed : bool) (abort_reason : option string)
| RErr (context : string)
| RUnknownCommand (cmd : string)
| REmptyCommand.

(** [current_child] is the pid of the child in the mutex; [handoffs] the specs
    [perform_handoff] was called with, oldest first. *)
Record Bin (T : Type) : Type := mkBin {
  sup : World T;
  current_child : Z;
  handoffs : list SpawnSpec;
  replies : list Reply
}.
Arguments mkBin {T}. Arguments sup {T}. Arguments current_child {T}. Arguments handoffs {T}.
Arguments replies {T}.

(** *** [wait_child_with_timeout] over a clock: the time and the number of the
    next question.  The loop asks, looks at the clock, and sleeps. *)
Definition REAP_INTERVAL : Z := 50.

Fixpoint wait_loop {A} (interval : Z) (fuel : nat) (try_wait : nat → result IoError (option A))
    (delay : nat → Z) (deadline : Z) : prog (Z * nat) unit (option (result IoError A)) :=
  match fuel with
  | O => stuck
  | S fuel =>
      n ← gets snd;
      match try_wait n with
      | Ok (Some status) => mret (Some (Ok status))
      | Ok None =>
          now ← gets fst;
          if decide (deadline ≤ now) then mret None
          else
            _ ← modify (λ '(t, n), (t + interval + delay n, S n));
            wait_loop interval fuel try_wait delay deadline
      | Err e => mret (Some (Err e))
      end
  end.

(** Enough turns: each one but the last sleeps [interval]. *)
Definition wait_fuel (interval timeout : Z) : nat := S (S (Z.to_nat (timeout / interval))).

Definition wait_for {A} (interval : Z) (try_wait : nat → result IoError (option A)) (delay : nat → Z)
    (timeout : Z) : prog (Z * nat) unit (option (result IoError A)) :=
  now ← gets fst;
  wait_loop interval (wait_fuel interval timeout) try_wait delay (now + timeout).

Definition wait_child_with_timeout (try_wait : nat → result IoError (option Z)) (delay : nat → Z)
    (timeout : Z) : prog (Z * nat) unit (option (result IoError Z)) :=
  wait_for REAP_INTERVAL try_wait delay timeout.

(** *** Commands *)
Definition resolve_requested_binary (canonicalize : string → result IoError string)
    (requested : string) (cfg : Config) : result string string :=
  match canonicalize requested with
  | Err _ => Err ("resolve requested binary " +:+ requested)%string
  | Ok canonical =>
      let permitted := existsb (λ allowed, match canonicalize allowed with
                                           | Ok allowed => bool_decide (allowed = canonical)
                                           | Err _ => false
                                           end) (cfg_binary cfg :: allowed_binaries cfg) in
      if permitted then Ok canonical
      else Err ("binary " +:+ requested +:+
                " is not in the configured allowlist (`binary` + `allowed_binaries`)")%string
  end.

(** Cold start: the environment and descriptors of the first primitive. *)
Definition cold_start_command (cfg : Config) (listener_fds : list (string * Z)) : Command :=
  let cmd := command_args (cfg_args cfg) (command_new (cfg_binary cfg)) in
  let cmd := foldl (λ cmd '(k, v), command_env k v cmd) cmd (cfg_env cfg) in
  pass_listener_fds_on_spawn cmd listener_fds None.

Section bin.
Context {T : Type} `{ControlChannel T} `{!ChannelLaws T} `{JournalCodec}.
Context (euid : Z) (cfg : Config).
Abbreviation M := (prog (Bin T) string).
Implicit Types b : Bin T.

Definition set_sup w b : Bin T := mkBin w (current_child b) (handoffs b) (replies b).
Definition set_child pid b : Bin T := mkBin (sup b) pid (handoffs b) (replies b).
Definition log_handoff spec b : Bin T :=
  mkBin (sup b) (current_child b) (handoffs b ++ [spec]) (replies b).
Definition reply r b : Bin T := mkBin (sup b) (current_child b) (handoffs b) (replies b ++ [r]).

(** The world of the next [perform_handoff]: its trace is its own. *)
Definition next_handoff (w : World T) : World T :=
  mkWorld (o_stream w) (n_stream w) (guard w) (in_flight w) (jfs w) (clock w) (calls w) (markers w) [].

Definition trigger_spec (binary : string) : SpawnSpec :=
  mkSpawnSpec binary (cfg_args cfg) (cfg_env cfg) (deadline_secs cfg * 1000)
    (drain_grace_secs cfg * 1000).

(** [sup.perform_handoff(spec).context("perform_handoff")]: [Display] of the
    error is the context alone. *)
Definition call_perform_handoff (c : Client T) (spec : SpawnSpec) : M HandoffOutcome := λ b,
  let '(r, w) := perform_handoff (c_handoff c) spec (next_handoff (sup b)) in
  let b := set_sup w (log_handoff spec b) in
  match r with
  | Ok o => (Ok o, b)
  | Err (Raise _) => (Err (Raise "perform_handoff"%string), b)
  | Err (Exit code) => (Err (Exit code), b)
  | Err Stuck => (Err Stuck, b)
  end.

(** The reap of the outgoing child; its result is only logged. *)
Definition reap_outgoing (c : Client T) : M unit := λ b,
  let w := sup b in
  let '(r, (t, n)) := wait_child_with_timeout (c_try_wait c) (c_delay c) (deadline_secs cfg * 1000)
                        (clock w, calls w) in
  let b := set_sup (mkWorld (o_stream w) (n_stream w) (guard w) (in_flight w) (jfs w) t n
                      (markers w) (trace w)) b in
  (match r with
   | Ok _ => Ok tt
   | Err (Raise _) => Ok tt
   | Err (Exit code) => Err (Exit code)
   | Err Stuck => Err Stuck
   end, b).

(** The arguments of a command line, as the program reads them. *)
Definition handle_trigger (c : Client T) (cmd : list byte) : M Reply :=
  match split_whitespace cmd with
  | [] => mret REmptyCommand
  | verb :: rest =>
      if decide (text verb = "handoff"%string) then
        binary ← match rest with
                 | requested :: _ =>
                     lift (resolve_requested_binary (c_canonicalize c) (text requested) cfg)
                 | [] => mret (cfg_binary cfg)
                 end;
        outcome ← call_perform_handoff c (trigger_spec binary);
        _ ← match committed outcome, outcome_child outcome with
            | true, Some new_child =>
                _ ← reap_outgoing c;
                modify (set_child new_child)
            | _, _ => mret tt
            end;
        mret (ROk (outcome_id outcome) (committed outcome) (abort_reason outcome))
      else mret (RUnknownCommand (text verb))
  end.

(** [None]: the connection is dropped. *)
Definition read_trigger_command (c : Client T) : M (option (list byte)) :=
  match c_peer_uid c with
  | Err _ => mret None
  | Ok uid =>
      if negb (peer_uid_is_allowed euid uid (allowed_uids cfg)) then
        _ ← modify (reply RNotPermitted); mret None
      else
        match c_set_read_timeout c, c_set_write_timeout c with
        | Ok _, Ok _ =>
            match read_line TRIGGER_MAX_LINE (c_input c) with
            | Ok [] => mret None
            | Ok line => mret (Some line)
            | Err _ => mret None
            end
        | _, _ => mret None
        end
  end.

(** One turn of the trigger loop, and the loop over the results [accept]
    gives. *)
Definition serve_client (c : Client T) : M unit :=
  cmd ← read_trigger_command c;
  match cmd with
  | None => mret tt
  | Some cmd =>
      r ← attempt (handle_trigger c (trim_ws cmd));
      modify (reply (match r with Ok r => r | Err e => RErr e end))
  end.

Fixpoint trigger_loop (clients : list (result IoError (Client T))) : M unit :=
  match clients with
  | [] => mret tt
  | Err _ :: clients => trigger_loop clients
  | Ok c :: clients => _ ← serve_client c; trigger_loop clients
  end.
End bin.

(** ** [main], after the configuration is read *)

(** What the system answers before the trigger loop; [spawn_cold] is the spawn
    of the primitive, of the command [main] made for it.  [bind_results] is the
    [n]-th [TcpListener::bind], with what [set_nonblocking] reports. *)
Record MainAnswers : Type := mkMainAnswers {
  bind_results : nat → result IoError Z * result IoError unit;
  display_io : IoError → string;
  spawn_cold : Command → result IoError Z;
  bind_trigger : Result Z;
  sun_path_size : Z;
  display_error : Error → string
}.

Section main.
Context {T : Type} `{ControlChannel T} `{!ChannelLaws T} `{JournalCodec}.
Context (euid : Z) (cfg : Config) (a : MainAnswers).

Fixpoint bind_listeners (n : nat) (ls : list ListenerConfig) : result string (list (string * Z)) :=
  match ls with
  | [] => Ok []
  | l :: ls =>
      match bind_results a n with
      | (Ok fd, Ok _) => rest ← bind_listeners (S n) ls; Ok ((l_name l, fd) :: rest)
      | (Err _, _) => Err ("bind " +:+ l_name l +:+ " -> " +:+ l_addr l)%string
      | (Ok _, Err e) => Err (display_io a e)
      end
  end.

(** [resume_from_journal] runs against [resume_env]; its error is logged. *)
Definition resume_at_start (resume_env : SEnv T) : prog (Bin T) string unit := λ b,
  let '(r, w) := resume_from_journal resume_env (sup b) in
  (match r with
   | Ok _ | Err (Raise _) => Ok tt
   | Err (Exit code) => Err (Exit code)
   | Err Stuck => Err Stuck
   end, set_sup w b).

Definition main (resume_env : SEnv T) (clients : list (result IoError (Client T)))
    : prog (Bin T) string unit :=
  listener_fds ← lift (bind_listeners 0 (cfg_listeners cfg));
  cold_child ← lift (result_map_err (λ _, "cold-start primitive spawn"%string)
                       (spawn_cold a (cold_start_command cfg listener_fds)));
  _ ← modify (set_child cold_child);
  _ ← lift (result_map_err (display_error a) (validate_socket_path (sun_path_size a) (control_socket cfg)));
  _ ← resume_at_start resume_env;
  _ ← lift (result_map_err (λ _, "bind trigger socket " +:+ trigger_socket cfg)%string (bind_trigger a));
  trigger_loop euid cfg clients.
End main.
