(* ===== verification/SupervisorBinSafety.v ===== *)
(** * What the reference supervisor promises

    Who can make it act, what it can be made to run, that no client can stop
    it, and that waiting for the outgoing primitive ends. *)
From stdpp Require Import base tactics option list numbers strings gmap.
From S2P Require Import Prelude Contract Errors Protocol Sock Frame Fd Channel Role StateJournal Supervisor SupervisorSafety Inheritance SupervisorBin.
Local Open Scope Z_scope.

(** ** Reading a command line *)
Lemma through_newline_spec bs line :
  through_newline bs = Some line →
  ∃ init nl rest, line = init ++ [nl] ∧ bs = line ++ rest ∧ byte_to_Z nl = 10 ∧
    Forall (λ b, byte_to_Z b ≠ 10) init.
Proof.
  revert line. induction bs as [|b bs IH]; intros line; simpl; [done|]. case_decide as Hb.
  - intros [= <-]. exists [], b, bs. done.
  - intros (line' & Hl & ->)%fmap_Some. destruct (IH _ Hl) as (init & nl & rest & -> & -> & Hnl & Hi).
    exists (b :: init), nl, rest. split; [done|]. split; [done|]. split; [done|]. by constructor.
Qed.

Lemma through_newline_none bs : through_newline bs = None → Forall (λ b, byte_to_Z b ≠ 10) bs.
Proof.
  induction bs as [|b bs IH]; simpl; [done|]. case_decide; [done|].
  intros Hl%fmap_None. constructor; auto.
Qed.

(** How a line ends: with its first newline, full, or where the client stopped
    sending. *)
Definition ends_line (limit : nat) (line : list byte) (r : reader) : Prop :=
  (∃ init nl, line = init ++ [nl] ∧ byte_to_Z nl = 10 ∧ Forall (λ b, byte_to_Z b ≠ 10) init) ∨
  Forall (λ b, byte_to_Z b ≠ 10) line ∧ (length line = limit ∨
    ∃ r1 r2, r = r1 ++ r2 ∧ stream_bytes r1 = line ∧ (r2 = [] ∨ ∃ r3, r2 = RData [] :: r3)).

Lemma read_until_newline_spec limit r line :
  read_until_newline limit r = Ok line →
  (length line ≤ limit)%nat ∧ (∃ rest, stream_bytes r = line ++ rest) ∧ ends_line limit line r.
Proof.
  revert limit line. induction r as [|c r IH]; intros limit line Hr.
  { assert (line = []) as -> by (simpl in Hr; case_decide; by simplify_eq).
    split; [simpl; lia|]. split; [by exists []|]. right. split; [constructor|right]. by exists [], []; auto. }
  assert (limit = 0%nat ∧ line = [] ∨ limit ≠ 0%nat ∧ match c with
      | RFail e => kind e = Interrupted ∧ read_until_newline limit r = Ok line
      | RData [] => line = []
      | RData bs =>
          match through_newline (firstn limit bs) with
          | Some l => line = l
          | None => ∃ l, line = firstn limit bs ++ l ∧
                      read_until_newline (limit - length (firstn limit bs)) r = Ok l
          end
      end) as [[-> ->]|[Hl Hcase]].
  { simpl in Hr. case_decide as Hl; [left; by simplify_eq|right; split; [done|]].
    destruct c as [[|b bs]|e]; simplify_eq/=; [done| |by case_decide].
    destruct (through_newline _); simplify_eq/=; [done|].
    destruct (read_until_newline _ r); simplify_eq/=; eauto. }
  { split; [done|]. split; [by eexists|]. right. split; [constructor|by left]. }
  destruct c as [[|b bs]|e].
  - subst line. split; [simpl; lia|]. split; [by eexists|]. right. split; [constructor|right].
    exists [], (RData [] :: r). eauto.
  - set (av := firstn limit (b :: bs)) in *. rewrite stream_bytes_cons.
    assert (b :: bs = av ++ drop limit (b :: bs)) as Hsplit by (unfold av; by rewrite take_drop).
    assert (length av ≤ limit)%nat as Hav by (unfold av; rewrite length_take; lia).
    destruct (through_newline av) as [l|] eqn:Hn.
    + subst l. destruct (through_newline_spec _ _ Hn) as (init & nl & rest & -> & Heq & Hnl & Hi).
      split; [|split; [|left; eauto]].
      * apply (f_equal length) in Heq. rewrite !length_app in *. lia.
      * exists (rest ++ drop limit (b :: bs) ++ stream_bytes r).
        rewrite Hsplit at 1. rewrite Heq at 1. by rewrite <- !app_assoc.
    + destruct Hcase as (l & -> & Hrec). apply through_newline_none in Hn.
      destruct (IH _ _ Hrec) as (Hlen & (rest & Hrest) & Hend).
      split; [rewrite length_app; lia|].
      assert (length av = limit ∧ l = [] ∨ av = b :: bs) as [[Hfull ->]|Hav'].
      { destruct (decide (length (b :: bs) ≤ limit)%nat) as [Hle|Hgt].
        - right. unfold av. by apply take_ge.
        - left. assert (length av = limit) as Hfull by (unfold av; rewrite length_take; lia).
          split; [done|]. rewrite Hfull, Nat.sub_diag in Hlen. by destruct l; simpl in Hlen; [|lia]. }
      * rewrite app_nil_r. split; [|right; auto].
        exists (drop limit (b :: bs) ++ stream_bytes r). rewrite Hsplit at 1. by rewrite <- app_assoc.
      * rewrite Hav' in *. split; [exists rest; by rewrite Hrest, app_assoc|].
        destruct Hend as [(init & nl & -> & Hnl & Hi)|[Hl' Hend]].
        -- left. exists ((b :: bs) ++ init), nl. rewrite app_assoc. split; [done|]. split; [done|].
           by apply Forall_app.
        -- right. split; [by apply Forall_app|]. destruct Hend as [Hfull|(r1 & r2 & -> & Hr1 & Hr2)].
           ++ left. rewrite length_app. lia.
           ++ right. exists (RData (b :: bs) :: r1), r2. rewrite stream_bytes_cons, Hr1. auto.
  - destruct Hcase as [_ Hrec]. destruct (IH _ _ Hrec) as (Hlen & Hpre & Hend).
    split; [done|]. split; [done|]. destruct Hend as [?|[Hl' [?|(r1 & r2 & -> & Hr1 & Hr2)]]].
    + by left.
    + right. auto.
    + right. split; [done|right]. exists (RFail e :: r1), r2. auto.
Qed.

(** ** Waiting for the outgoing primitive *)
Section wait.
Context {A : Type} (interval : Z) (try_wait : nat → result IoError (option A)) (delay : nat → Z) (D : Z).
Context (Hinterval : 0 < interval) (Hdelay : ∀ n, 0 ≤ delay n ≤ D).

(** What question [n] settles. *)
Definition settles (n : nat) (r : option (result IoError A)) : Prop :=
  match r with
  | Some (Ok status) => try_wait n = Ok (Some status)
  | Some (Err e) => try_wait n = Err e
  | None => try_wait n = Ok None
  end.

Lemma wait_loop_spec deadline fuel t n :
  deadline - t ≤ interval * (Z.of_nat fuel - 1) → (0 < fuel)%nat →
  ∃ r t' n', wait_loop interval fuel try_wait delay deadline (t, n) = (Ok r, (t', n')) ∧
    (n ≤ n')%nat ∧ t + interval * (Z.of_nat n' - Z.of_nat n) ≤ t' ∧
    t' ≤ t `max` (deadline + interval + D) ∧
    settles n' r ∧ (r = None → deadline ≤ t') ∧ (∀ k, (n ≤ k < n')%nat → try_wait k = Ok None).
Proof using Hinterval Hdelay.
  revert t n. induction fuel as [|fuel IH]; intros t n Hf Hpos; [lia|]. simpl.
  unfold mbind, prog_bind, gets, modify. simpl.
  destruct (try_wait n) as [[st|]|e] eqn:Hw.
  - eexists _, t, n. split; [done|]. split_and!; [done|lia|lia|done|done|lia].
  - case_decide as Hd.
    + eexists _, t, n. split; [done|]. split_and!; [done|lia|lia|done|done|lia].
    + cbn [fst] in Hd. pose proof (Hdelay n).
      destruct (IH (t + interval + delay n) (S n)) as (r & t' & n' & -> & Hn & Ht & Ht' & Hs & Hr & Hk); [nia..|].
      exists r, t', n'. split; [done|]. split_and!; [lia|nia|lia|done|done|].
      intros k Hk'. destruct (decide (k = n)) as [->|]; [done|]. apply Hk. lia.
  - eexists _, t, n. split; [done|]. split_and!; [done|lia|lia|done|done|lia].
Qed.

Lemma wait_spec timeout t n :
  ∃ r t' n', wait_for interval try_wait delay timeout (t, n) = (Ok r, (t', n')) ∧
    (n ≤ n')%nat ∧ t + interval * (Z.of_nat n' - Z.of_nat n) ≤ t' ∧
    t' ≤ t `max` (t + timeout + interval + D) ∧
    settles n' r ∧ (r = None → t + timeout ≤ t') ∧ (∀ k, (n ≤ k < n')%nat → try_wait k = Ok None).
Proof using Hinterval Hdelay.
  change (wait_for interval try_wait delay timeout (t, n))
    with (wait_loop interval (wait_fuel interval timeout) try_wait delay (t + timeout) (t, n)).
  apply wait_loop_spec.
  - unfold wait_fuel. pose proof (Z.mod_pos_bound timeout interval Hinterval).
    pose proof (Z.div_mod timeout interval ltac:(lia)).
    destruct (decide (0 ≤ timeout / interval)); [nia|]. rewrite Z2Nat.nonpos by lia. nia.
  - unfold wait_fuel. lia.
Qed.
End wait.

(** ** One client *)
Section client.
Context {T : Type} `{ControlChannel T} `{!ChannelLaws T} `{JournalCodec}.
Context (euid : Z) (cfg : Config).
Implicit Types (b : Bin T) (c : Client T).

(** What the client [c] may have run: it is a permitted user, and the program
    is the configured one or the canonical path of an allowed one. *)
Definition permitted_peer c : Prop :=
  ∃ uid, c_peer_uid c = Ok uid ∧ (uid = euid ∨ uid = 0 ∨ uid ∈ allowed_uids cfg).
Definition permitted_binary c (bin : string) : Prop :=
  bin = cfg_binary cfg ∨
  ∃ requested allowed, allowed ∈ cfg_binary cfg :: allowed_binaries cfg ∧
    c_canonicalize c requested = Ok bin ∧ c_canonicalize c allowed = Ok bin.
Definition permitted c (spec : SpawnSpec) : Prop :=
  permitted_peer c ∧ spec = trigger_spec cfg (binary spec) ∧ permitted_binary c (binary spec).

Lemma resolve_permitted c requested bin :
  resolve_requested_binary (c_canonicalize c) requested cfg = Ok bin → permitted_binary c bin.
Proof.
  unfold resolve_requested_binary. destruct (c_canonicalize c requested) as [canonical|] eqn:Hr; [|done].
  destruct (existsb _ _) eqn:Hx; intros; simplify_eq.
  apply existsb_exists in Hx as (allowed & Hin%list_elem_of_In & Ha).
  destruct (c_canonicalize c allowed) as [a|] eqn:Hc; [|done].
  apply bool_decide_eq_true in Ha as ->. right. eauto 6.
Qed.

Lemma peer_allowed uid :
  peer_uid_is_allowed euid uid (allowed_uids cfg) = true →
  uid = euid ∨ uid = 0 ∨ uid ∈ allowed_uids cfg.
Proof.
  unfold peer_uid_is_allowed. rewrite !orb_true_iff, !bool_decide_eq_true. intros [[?|?]|?]; auto.
Qed.

(** A command line is a bounded, valid prefix of what a permitted client
    sent. *)
Definition command_line c (line : list byte) : Prop :=
  permitted_peer c ∧ line ≠ [] ∧ (length line ≤ TRIGGER_MAX_LINE)%nat ∧
  (∃ rest, stream_bytes (c_input c) = line ++ rest) ∧ utf8_valid line = true ∧
  ends_line TRIGGER_MAX_LINE line (c_input c).

(** A client is answered when it is refused or a command was read. *)
Definition answered c : bool :=
  match c_peer_uid c with
  | Ok uid =>
      negb (peer_uid_is_allowed euid uid (allowed_uids cfg)) ||
      match c_set_read_timeout c, c_set_write_timeout c, read_line TRIGGER_MAX_LINE (c_input c) with
      | Ok _, Ok _, Ok (_ :: _) => true
      | _, _, _ => false
      end
  | Err _ => false
  end.

Lemma read_trigger_command_spec c b :
  ∃ r b', read_trigger_command euid cfg c b = (Ok r, b') ∧
    match r with
    | Some line => b' = b ∧ command_line c line ∧ answered c = true
    | None => b' = b ∧ answered c = false ∨
              b' = reply RNotPermitted b ∧ ¬ permitted_peer c ∧ answered c = true
    end.
Proof.
  unfold read_trigger_command, answered. destruct (c_peer_uid c) as [uid|] eqn:Hu; [|eexists None, b; split; [done|by left]].
  destruct (peer_uid_is_allowed euid uid (allowed_uids cfg)) eqn:Ha; simpl.
  2:{ eexists _, _. split; [done|]. right. split; [done|]. split; [|done]. intros (uid' & ? & Hp). simplify_eq.
      unfold peer_uid_is_allowed in Ha. apply orb_false_iff in Ha as [[Hp1 Hp2]%orb_false_iff Hp3].
      apply bool_decide_eq_false in Hp1, Hp2, Hp3. rewrite Hu in *. simplify_eq. naive_solver. }
  destruct (c_set_read_timeout c), (c_set_write_timeout c); try (eexists None, b; split; [done|by left]).
  unfold read_line, mbind, result_bind.
  destruct (read_until_newline _ _) as [bs|] eqn:Hr; [|eexists None, b; split; [done|by left]].
  destruct (utf8_valid bs) eqn:Hv; [|eexists None, b; split; [done|by left]].
  destruct bs as [|x bs]; [eexists None, b; split; [done|by left]|].
  eexists _, _. split; [done|]. split; [done|].
  destruct (read_until_newline_spec _ _ _ Hr) as (? & ? & ?).
  split; [|done]. split; [exists uid; split; [done|by apply peer_allowed]|]. done.
Qed.

(** The reap changes the clock only. *)
Lemma reap_run c b D :
  (∀ n, 0 ≤ c_delay c n ≤ D) →
  ∃ t n, reap_outgoing cfg c b =
    (Ok tt, set_sup (mkWorld (o_stream (sup b)) (n_stream (sup b)) (guard (sup b)) (in_flight (sup b))
                      (jfs (sup b)) t n (markers (sup b)) (trace (sup b))) b).
Proof.
  intros Hd. unfold reap_outgoing, wait_child_with_timeout.
  destruct (wait_spec REAP_INTERVAL (c_try_wait c) (c_delay c) D ltac:(done) Hd (deadline_secs cfg * 1000) (clock (sup b))
    (calls (sup b))) as (r & t & n & -> & _). eauto.
Qed.

(** What a command does: the reply, the handoff it made and what became of the
    supervised child. *)
Definition told (b b' : Bin T) (r : Reply) c : Prop :=
  replies b' = replies b ++ [r] ∧
  match r with
  | ROk id done reason =>
      ∃ spec ct, handoffs b' = handoffs b ++ [spec] ∧ permitted c spec ∧
        id = new_handoff_id (c_handoff c) ∧
        follows id contract_start (trace (sup b')) = Some ct ∧
        if done then reason = None ∧ ct = mkContract WasCommitted (Released (current_child b'))
        else is_Some reason ∧ current_child b' = current_child b ∧ decided (at_step ct) = false ∧
             ∃ pid, child ct = Killed pid
  | RErr _ =>
      current_child b' = current_child b ∧
      (handoffs b' = handoffs b ∧ sup b' = sup b ∨
       ∃ spec ct, handoffs b' = handoffs b ++ [spec] ∧ permitted c spec ∧
         follows (new_handoff_id (c_handoff c)) contract_start (trace (sup b')) = Some ct ∧
         decided (at_step ct) = false ∧ is_alive (child ct) = false)
  | RNotPermitted => ¬ permitted_peer c ∧ b' = reply r b
  | RUnknownCommand _ | REmptyCommand => b' = reply r b
  end.

Lemma call_run c spec b :
  valid_env (c_handoff c) → settled (sup b) →
  ∃ r w, call_perform_handoff c spec b =
    (match r with
     | Ok o => Ok o
     | Err (Raise _) => Err (Raise "perform_handoff"%string)
     | Err (Exit code) => Err (Exit code)
     | Err Stuck => Err Stuck
     end, set_sup w (log_handoff spec b)) ∧ handoff_post (c_handoff c) r w.
Proof.
  intros Hv (Ho & Hn & Hg & Hf). unfold call_perform_handoff.
  assert (fresh (next_handoff (sup b))) as Hfr by done.
  pose proof (handoff_runs (c_handoff c) spec (next_handoff (sup b)) Hv Hfr Hf) as Hpost.
  destruct (perform_handoff (c_handoff c) spec (next_handoff (sup b))) as [r w].
  exists r, w. split; [|done]. by destruct r as [?|[]].
Qed.

Definition valid_client c : Prop := valid_env (c_handoff c) ∧ ∃ D, ∀ n, 0 ≤ c_delay c n ≤ D.

(** The arguments of a permitted command name a permitted program. *)
Definition chosen_binary c (rest : list (list byte)) : result string string :=
  match rest with
  | requested :: _ => resolve_requested_binary (c_canonicalize c) (text requested) cfg
  | [] => Ok (cfg_binary cfg)
  end.

Lemma chosen_permitted c rest bin : chosen_binary c rest = Ok bin → permitted_binary c bin.
Proof. destruct rest as [|req rest]; [intros [= <-]; by left|apply resolve_permitted]. Qed.

Lemma chosen_spec c bin : permitted_peer c → permitted_binary c bin → permitted c (trigger_spec cfg bin).
Proof. intros Hp Hb. split; [done|]. split; [done|exact Hb]. Qed.

Lemma handle_handoff c cmd verb rest b :
  split_whitespace cmd = verb :: rest → text verb = "handoff"%string →
  handle_trigger cfg c cmd b =
    match chosen_binary c rest with
    | Err e => (Err (Raise e), b)
    | Ok bin =>
        (outcome ← call_perform_handoff c (trigger_spec cfg bin);
         _ ← match committed outcome, outcome_child outcome with
             | true, Some new_child => _ ← reap_outgoing cfg c; modify (set_child new_child)
             | _, _ => mret tt
             end;
         mret (ROk (outcome_id outcome) (committed outcome) (abort_reason outcome))) b
    end.
Proof.
  intros Hs Hv. unfold handle_trigger. rewrite Hs, decide_True by done.
  unfold chosen_binary, mbind, prog_bind, lift. destruct rest as [|req rest]; simpl; [done|].
  by destruct (resolve_requested_binary _ _ _).
Qed.

Lemma handle_run c cmd b :
  valid_client c → permitted_peer c → settled (sup b) →
  match handle_trigger cfg c cmd b with
  | (Ok r, b') => settled (sup b') ∧ told b (reply r b') r c
  | (Err (Raise e), b') => settled (sup b') ∧ told b (reply (RErr e) b') (RErr e) c
  | (Err (Exit code), _) => code = 99
  | (Err Stuck, _) => False
  end.
Proof.
  intros [Hv [D HD]] Hp Hs. destruct (split_whitespace cmd) as [|verb rest] eqn:Hc.
  { unfold handle_trigger. rewrite Hc. by split. }
  destruct (decide (text verb = "handoff"%string)) as [Hh|Hh].
  2:{ unfold handle_trigger. rewrite Hc, decide_False by done. by split. }
  rewrite (handle_handoff _ _ _ _ _ Hc Hh). destruct (chosen_binary c rest) as [bin|e] eqn:Hb.
  2:{ split; [done|]. split; [done|]. simpl. auto. }
  pose proof (chosen_spec c bin Hp (chosen_permitted _ _ _ Hb)) as Hspec.
  destruct (call_run c (trigger_spec cfg bin) b Hv Hs) as (r & w & Hcall & ct & Hf & Hr).
  unfold mbind, prog_bind. rewrite Hcall. destruct r as [o|[e|code|]]; [..|by destruct Hr|done].
  2:{ destruct Hr as (Hset & Hd & Ha). split; [done|]. split; [done|]. simpl. split; [done|]. right. eauto 8. }
  destruct Hr as (Hset & Hid & Ho). destruct o as [id [] reason child]; simpl in *; subst id.
  - destruct Ho as (-> & pid & -> & ->).
    destruct (reap_run c (set_sup w (log_handoff (trigger_spec cfg bin) b)) D HD) as (t & n & ->).
    split; [exact Hset|]. split; [done|]. simpl. eauto 10.
  - destruct Ho as (Hre & -> & Hd & Hk). split; [exact Hset|]. split; [done|]. simpl. eauto 10.
Qed.

Lemma serve_run c b :
  valid_client c → settled (sup b) →
  match serve_client euid cfg c b with
  | (Ok _, b') => settled (sup b') ∧ if answered c then ∃ r, told b b' r c else b' = b
  | (Err (Exit code), _) => code = 99
  | _ => False
  end.
Proof.
  intros Hv Hs. unfold serve_client, mbind at 1, prog_bind at 1.
  destruct (read_trigger_command_spec c b) as ([line|] & b1 & -> & Hb).
  2:{ destruct Hb as [[-> ->]|(-> & Hn & ->)]; [done|]. split; [done|]. exists RNotPermitted. by split. }
  destruct Hb as (-> & (Hp & _) & ->). pose proof (handle_run c (trim_ws line) b Hv Hp Hs) as Hrun.
  unfold mbind, prog_bind, attempt.
  destruct (handle_trigger cfg c (trim_ws line) b) as [[r|[e|code|]] b1]; [..|done|done];
    destruct Hrun as [Hset Htold]; (split; [done|]); eexists; exact Htold.
Qed.

(** The handoffs a client causes, whatever happens in them. *)
Lemma call_logs c spec b : handoffs (call_perform_handoff c spec b).2 = handoffs b ++ [spec].
Proof. unfold call_perform_handoff. destruct (perform_handoff _ _ _) as [[o|[]] w]; done. Qed.

Lemma reap_logs c b : handoffs (reap_outgoing cfg c b).2 = handoffs b.
Proof. unfold reap_outgoing. by destruct (wait_child_with_timeout _ _ _ _) as [? []]. Qed.

Lemma handle_logs c cmd b :
  permitted_peer c →
  ∃ specs, handoffs (handle_trigger cfg c cmd b).2 = handoffs b ++ specs ∧ Forall (permitted c) specs.
Proof.
  intros Hp. assert (∃ specs, handoffs b = handoffs b ++ specs ∧ Forall (permitted c) specs) as Hno.
  { exists []. by rewrite app_nil_r. }
  destruct (split_whitespace cmd) as [|verb rest] eqn:Hc.
  { unfold handle_trigger. by rewrite Hc. }
  destruct (decide (text verb = "handoff"%string)) as [Hh|Hh].
  2:{ unfold handle_trigger. by rewrite Hc, decide_False by done. }
  rewrite (handle_handoff _ _ _ _ _ Hc Hh). destruct (chosen_binary c rest) as [bin|e] eqn:Hb; [|done].
  exists [trigger_spec cfg bin]. split.
  2:{ constructor; [|done]. exact (chosen_spec c bin Hp (chosen_permitted _ _ _ Hb)). }
  rewrite <- (call_logs c). unfold mbind, prog_bind.
  destruct (call_perform_handoff c (trigger_spec cfg bin) b) as [[o|e] b1]; [|done]. simpl.
  destruct (committed o), (outcome_child o); try done.
  pose proof (reap_logs c b1) as Hr. by destruct (reap_outgoing cfg c b1) as [[]].
Qed.

Lemma serve_logs c b :
  ∃ specs, handoffs (serve_client euid cfg c b).2 = handoffs b ++ specs ∧ Forall (permitted c) specs.
Proof.
  unfold serve_client, mbind at 1, prog_bind at 1.
  destruct (read_trigger_command_spec c b) as ([line|] & b1 & -> & Hb).
  2:{ exists []. rewrite app_nil_r. destruct Hb as [[-> _]|[-> _]]; by split. }
  destruct Hb as (-> & (Hp & _) & _). destruct (handle_logs c (trim_ws line) b Hp) as (specs & Hl & Hf).
  exists specs. split; [|done]. rewrite <- Hl. unfold mbind, prog_bind, attempt.
  by destruct (handle_trigger cfg c (trim_ws line) b) as [[r|[]] b1].
Qed.
End client.

(** ** The loop and [main] *)
Section loop.
Context {T : Type} `{ControlChannel T} `{!ChannelLaws T} `{JournalCodec}.
Context (euid : Z) (cfg : Config).
Implicit Types (b : Bin T) (cs : list (result IoError (Client T))).

Definition from cs (spec : SpawnSpec) : Prop := ∃ c, Ok c ∈ cs ∧ permitted euid cfg c spec.

Lemma loop_logs cs b :
  ∃ specs, handoffs (trigger_loop euid cfg cs b).2 = handoffs b ++ specs ∧ Forall (from cs) specs.
Proof.
  revert b. induction cs as [|[c|e] cs IH]; intros b; simpl.
  - exists []. by rewrite app_nil_r.
  - unfold mbind, prog_bind. destruct (serve_logs euid cfg c b) as (specs & Hl & Hf).
    assert (Forall (from (Ok c :: cs)) specs) as Hf1.
    { eapply Forall_impl; [exact Hf|]. intros spec Hspec. exists c. split; [left|done]. }
    destruct (serve_client euid cfg c b) as [[[]|e] b1]; simpl in Hl; [|by exists specs].
    destruct (IH b1) as (specs' & -> & Hf'). exists (specs ++ specs').
    rewrite Hl, app_assoc. split; [done|]. apply Forall_app. split; [done|].
    eapply Forall_impl; [exact Hf'|]. intros spec (c' & ? & ?). exists c'. split; [by right|done].
  - destruct (IH b) as (specs & -> & Hf). exists specs. split; [done|].
    eapply Forall_impl; [exact Hf|]. intros spec (c' & ? & ?). exists c'. split; [by right|done].
Qed.

(** The clients that are answered. *)
Definition answers cs : nat :=
  length (List.filter (λ c, match c with Ok c => answered euid cfg c | Err _ => false end) cs).

Lemma loop_run cs b :
  settled (sup b) → Forall (λ c, match c with Ok c => valid_client c | Err _ => True end) cs →
  match trigger_loop euid cfg cs b with
  | (Ok _, b') => settled (sup b') ∧ length (replies b') = (length (replies b) + answers cs)%nat
  | (Err (Exit code), _) => code = 99
  | _ => False
  end.
Proof.
  intros Hs Hcs. revert b Hs. induction Hcs as [|[c|e] cs Hc Hcs IH]; intros b Hs; simpl.
  - split; [done|]. unfold answers. simpl. lia.
  - unfold mbind, prog_bind. pose proof (serve_run euid cfg c b Hc Hs) as Hrun.
    destruct (serve_client euid cfg c b) as [[[]|e] b1]; [|done].
    destruct Hrun as [Hs1 Htold]. specialize (IH b1 Hs1).
    destruct (trigger_loop euid cfg cs b1) as [[[]|e] b2]; [|done].
    destruct IH as [Hs2 Hlen]. split; [done|]. rewrite Hlen. unfold answers. simpl.
    destruct (answered euid cfg c) eqn:Ha.
    + destruct Htold as (r & -> & _). rewrite length_app. simpl. lia.
    + by subst b1.
  - exact (IH b Hs).
Qed.

Lemma resume_logs renv b :
  handoffs (resume_at_start renv b).2 = handoffs b.
Proof. unfold resume_at_start. by destruct (resume_from_journal renv (sup b)). Qed.

(** What [main] does before its loop makes no handoff. *)
Lemma main_logs a renv cs b :
  handoffs (main euid cfg a renv cs b).2 = handoffs b ∨
  ∃ b1, handoffs b1 = handoffs b ∧
    handoffs (main euid cfg a renv cs b).2 = handoffs (trigger_loop euid cfg cs b1).2.
Proof.
  unfold main, mbind, prog_bind, lift, modify.
  destruct (bind_listeners _ _ _); [|by left]. destruct (result_map_err _ _); [|by left].
  destruct (result_map_err _ _); [|by left].
  pose proof (resume_logs renv (set_child a1 b)) as Hr.
  destruct (resume_at_start renv (set_child a1 b)) as [[[]|e] b1]; [|by left].
  destruct (result_map_err _ _); [|by left]. right. by exists b1.
Qed.
End loop.

(** ** Runs to try the theorems on *)
Module BinDemo.
Definition cfg : Config :=
  mkConfig "/run/o.sock" "/bin/n" ["--serve"%string] [] [] "/run/t.sock" [1001] ["/opt/n2"%string] None
    default_drain_grace_secs default_deadline_secs.
(** The only symbolic link is [/tmp/x], to [/opt/n2]. *)
Definition canonicalize (p : string) : result IoError string :=
  if decide (p = "/tmp/x"%string) then Ok "/opt/n2"%string
  else if decide (p ∈ ["/bin/n"; "/bin/sh"; "/opt/n2"]%string) then Ok p
  else Err (io_from_kind NotFound).
Definition line (s : string) : list byte := String.list_byte_of_string s ++ [Byte.x0a].
Definition client (uid : Z) (input : reader) (n : list Message) : Client Script.script :=
  mkClient (Ok uid) (Ok tt) (Ok tt) input canonicalize
    (SupervisorDemo.env SupervisorDemo.sealed n)
    (λ k, if decide (20 < k)%nat then Ok (Some 0) else Ok None) (λ _, 1).
Definition start : Bin Script.script := mkBin SupervisorDemo.start 12 [] [].

Lemma client_valid uid input n : valid_client (client uid input n).
Proof. split; [by split|]. exists 1. intros k. simpl. lia. Qed.
End BinDemo.

(** ** Properties *)

(** C15: the reference supervisor runs nothing but what its configuration
    permits, whatever the clients of its trigger socket send.  Every spec that
    [perform_handoff] is called with, over the whole life of [main], comes
    from a client whose uid is the supervisor's, root's or a configured one;
    its arguments, environment, deadline and drain grace are the configured
    ones; its binary is the configured one or the canonical path to which both
    the client's request and a path of the allowlist resolve. *)
Theorem trigger_runs_only_permitted {T} `{ControlChannel T} `{!ChannelLaws T} `{JournalCodec}
    (euid : Z) (cfg : Config) (a : MainAnswers) (resume_env : SEnv T)
    (clients : list (result IoError (Client T))) (w : World T) (pid : Z) :
  Forall (λ spec, ∃ c uid, Ok c ∈ clients ∧ c_peer_uid c = Ok uid ∧
            (uid = euid ∨ uid = 0 ∨ uid ∈ allowed_uids cfg) ∧
            spec_args spec = cfg_args cfg ∧ spec_env spec = cfg_env cfg ∧
            deadline spec = deadline_secs cfg * 1000 ∧ drain_grace spec = drain_grace_secs cfg * 1000 ∧
            (binary spec = cfg_binary cfg ∨
             ∃ requested allowed, allowed ∈ cfg_binary cfg :: allowed_binaries cfg ∧
               c_canonicalize c requested = Ok (binary spec) ∧ c_canonicalize c allowed = Ok (binary spec)))
    (handoffs (main euid cfg a resume_env clients (mkBin w pid [] [])).2).
Proof.
  destruct (main_logs euid cfg a resume_env clients (mkBin w pid [] [])) as [->|(b1 & Hb & ->)];
    [constructor|].
  destruct (loop_logs euid cfg clients b1) as (specs & -> & Hf). rewrite Hb. simpl.
  eapply Forall_impl; [exact Hf|]. intros spec (c & Hc & (uid & Hu & Hp) & -> & Hbin).
  exists c, uid. split_and!; done.
Qed.

(** A stranger, a permitted user's program that is not on the list, and one
    that is, through a symbolic link. *)
Example three_clients :
  let cs := [Ok (BinDemo.client 1002 [RData (BinDemo.line "handoff")] SupervisorDemo.ready);
             Ok (BinDemo.client 1001 [RData (BinDemo.line "handoff /bin/sh")] SupervisorDemo.ready);
             Ok (BinDemo.client 1001 [RData (BinDemo.line "handoff  /tmp/x ")] SupervisorDemo.ready)] in
  let b := (trigger_loop 1000 BinDemo.cfg cs BinDemo.start).2 in
  handoffs b = [trigger_spec BinDemo.cfg "/opt/n2"] ∧ current_child b = 77 ∧
  replies b = [RNotPermitted;
               RErr "binary /bin/sh is not in the configured allowlist (`binary` + `allowed_binaries`)";
               ROk SupervisorDemo.id1 true None].
Proof. vm_compute. split; [reflexivity|]. split; reflexivity. Qed.

(** C25: what a client is told is what happened.  A client that is answered
    gets one reply, and any other leaves the supervisor as it was.  [ok] with
    [committed=true] is sent only when the trace of the handoff shows [Commit]
    said after a matching [Ready] and the child that the supervisor now holds
    is the successor that was released; [committed=false] only when the
    successor was killed, and an error only when it was killed or never
    spawned, and in both the child the supervisor holds is the one it held.
    In every case the supervisor is ready for the next handoff. *)
Theorem client_is_told_the_outcome {T} `{ControlChannel T} `{!ChannelLaws T} `{JournalCodec}
    (euid : Z) (cfg : Config) (c : Client T) (b : Bin T) :
  valid_client c → settled (sup b) →
  match serve_client euid cfg c b with
  | (Ok _, b') => settled (sup b') ∧ if answered euid cfg c then ∃ r, told euid cfg b b' r c else b' = b
  | (Err (Exit code), _) => code = 99
  | _ => False
  end.
Proof. apply serve_run. Qed.

(** A command that commits. *)
Lemma client_is_told_the_outcome_witness :
  let c := BinDemo.client 0 [RData (BinDemo.line "handoff")] SupervisorDemo.ready in
  let '(r, b') := serve_client 1000 BinDemo.cfg c BinDemo.start in
  r = Ok tt ∧ settled (sup b') ∧ ∃ r, told 1000 BinDemo.cfg BinDemo.start b' r c.
Proof.
  set (c := BinDemo.client 0 [RData (BinDemo.line "handoff")] SupervisorDemo.ready). cbv zeta.
  pose proof (client_is_told_the_outcome 1000 BinDemo.cfg c BinDemo.start (BinDemo.client_valid _ _ _)
    SupervisorDemo.start_settled) as Hrun.
  assert ((serve_client 1000 BinDemo.cfg c BinDemo.start).1 = Ok tt) as Hr by (vm_compute; reflexivity).
  destruct (serve_client 1000 BinDemo.cfg c BinDemo.start) as [r b']. simpl in Hr. subst r.
  assert (answered 1000 BinDemo.cfg c = true) as Ha by (vm_compute; reflexivity).
  rewrite Ha in Hrun. destruct Hrun as [Hs Ht]. split; [reflexivity|]. split; [exact Hs|exact Ht].
Defined.

(** C24: no client stops the reference supervisor: over any sequence of
    [accept] results, whatever the clients send, and however the handoffs they
    start end, the trigger loop comes to the next client, and exactly the
    clients that were refused or whose command was read are answered, once
    each.  Only a crash point ends the process. *)
Theorem trigger_loop_survives {T} `{ControlChannel T} `{!ChannelLaws T} `{JournalCodec}
    (euid : Z) (cfg : Config) (clients : list (result IoError (Client T))) (b : Bin T) :
  settled (sup b) →
  Forall (λ c, match c with Ok c => valid_client c | Err _ => True end) clients →
  match trigger_loop euid cfg clients b with
  | (Ok _, b') => settled (sup b') ∧ length (replies b') = (length (replies b) + answers euid cfg clients)%nat
  | (Err (Exit code), _) => code = 99
  | _ => False
  end.
Proof. apply loop_run. Qed.

(** A failed [accept], a client that says nothing, one whose handoff aborts and
    one whose handoff commits. *)
Lemma trigger_loop_survives_witness :
  let cs := [Err (io_from_errno EMFILE); Ok (BinDemo.client 0 [] []);
             Ok (BinDemo.client 0 [RData (BinDemo.line "handoff")] []);
             Ok (BinDemo.client 0 [RData (BinDemo.line "handoff")] SupervisorDemo.ready)] in
  let '(r, b') := trigger_loop 1000 BinDemo.cfg cs BinDemo.start in
  r = Ok tt ∧ settled (sup b') ∧ length (replies b') = 2%nat.
Proof.
  set (cs := [_; _; _; _]). cbv zeta.
  assert (Forall (λ c, match c with Ok c => valid_client c | Err _ => True end) cs) as Hcs.
  { repeat constructor; apply BinDemo.client_valid. }
  pose proof (trigger_loop_survives 1000 BinDemo.cfg cs BinDemo.start SupervisorDemo.start_settled Hcs) as Hrun.
  assert ((trigger_loop 1000 BinDemo.cfg cs BinDemo.start).1 = Ok tt) as Hr by (vm_compute; reflexivity).
  assert (answers 1000 BinDemo.cfg cs = 2%nat) as Ha by (vm_compute; reflexivity).
  destruct (trigger_loop 1000 BinDemo.cfg cs BinDemo.start) as [r b']. simpl in Hr. subst r.
  rewrite Ha in Hrun. split; [reflexivity|exact Hrun].
Defined.

(** A command line is bounded: what [read_trigger_command] hands on was
    sent by a permitted user, is a non-empty prefix of at most
    [TRIGGER_MAX_LINE] bytes of what that user sent, is valid UTF-8, and ends
    with its first newline, at the limit or where the client closed; reading
    it changes nothing else. *)
Theorem trigger_line_bounded {T} `{ControlChannel T} `{!ChannelLaws T} `{JournalCodec}
    (euid : Z) (cfg : Config) (c : Client T) (b : Bin T) line b' :
  read_trigger_command euid cfg c b = (Ok (Some line), b') → b' = b ∧ command_line euid cfg c line.
Proof.
  intros Hrun. destruct (read_trigger_command_spec euid cfg c b) as (r & b1 & Hr & Hb).
  rewrite Hrun in Hr. simplify_eq. destruct Hb as (-> & Hl & _). done.
Qed.

(** Two lines in one segment: the first is the command. *)
Lemma trigger_line_bounded_witness :
  let c := BinDemo.client 1001 [RData (BinDemo.line "handoff" ++ BinDemo.line "x")] [] in
  command_line 1000 BinDemo.cfg c (BinDemo.line "handoff").
Proof.
  set (c := BinDemo.client _ _ _). cbv zeta.
  destruct (trigger_line_bounded 1000 BinDemo.cfg c BinDemo.start (BinDemo.line "handoff") BinDemo.start)
    as [_ Hl]; [vm_compute; reflexivity|exact Hl].
Defined.

(** Waiting for the outgoing primitive ends.  [wait_child_with_timeout]
    returns the child's status or the error of the first question that is not
    answered "still running", asks at most one question per [REAP_INTERVAL],
    and gives up only when the time is over and at most one interval and one
    oversleep late. *)
Theorem wait_child_bounded (try_wait : nat → result IoError (option Z)) (delay : nat → Z) (D timeout t : Z)
    (n : nat) :
  (∀ k, 0 ≤ delay k ≤ D) →
  ∃ r t' n', wait_child_with_timeout try_wait delay timeout (t, n) = (Ok r, (t', n')) ∧
    (n ≤ n')%nat ∧ t + REAP_INTERVAL * (Z.of_nat n' - Z.of_nat n) ≤ t' ∧
    t' ≤ t `max` (t + timeout + REAP_INTERVAL + D) ∧
    settles try_wait n' r ∧ (r = None → t + timeout ≤ t') ∧
    (∀ k, (n ≤ k < n')%nat → try_wait k = Ok None).
Proof. intros Hd. exact (wait_spec REAP_INTERVAL try_wait delay D ltac:(done) Hd timeout t n). Qed.

(** A child that never exits is given up after a second. *)
Lemma wait_child_bounded_witness :
  ∃ t' n', wait_child_with_timeout (λ _, Ok None) (λ _, 1) 1000 (0, 0%nat) = (Ok None, (t', n')) ∧
    1000 ≤ t' ≤ 1051.
Proof.
  destruct (wait_child_bounded (λ _, Ok None) (λ _, 1) 1 1000 0 0) as (r & t' & n' & Hr & _ & _ & Ht & _ & Hn & _);
    [intros k; lia|].
  assert ((wait_child_with_timeout (λ _, Ok None) (λ _, 1) 1000 (0, 0%nat)).1 = Ok None) as H1
    by (vm_compute; reflexivity).
  rewrite Hr in H1. simpl in H1. injection H1 as ->. exists t', n'.
  split; [exact Hr|]. specialize (Hn eq_refl). unfold REAP_INTERVAL in Ht. lia.
Defined.

(** The first primitive gets its listeners.  What [main] bound under
    distinct names without a [:] is what the process it cold-starts finds:
    [detect_role] answers [ColdStart], with each name at its own slot and no
    other name, each descriptor behind the supervisor's listener and
    close-on-exec — unless the environment or the configuration brings a
    [LISTEN_PID] or makes it a successor. *)
Theorem cold_start_inherits (cfg : Config) (listeners : list (string * Z)) child_pid
    (parent_env : gmap string string) (k : kernel) wt :
  let sources := listeners.*2 in
  NoDup listeners.*1 → Forall (λ s, occurs colon s = false) listeners.*1 →
  Forall (λ fd, fd_is_socket k fd = true) sources →
  (length sources ≤ length (free_fds k (SD_LISTEN_FDS_START + Z.of_nat (length sources))))%nat →
  3 + (Z.of_nat (length listeners) + 1) ≤ i32_max →
  parent_env !! ENV_LISTEN_PID = None → parent_env !! ENV_HANDOFF_ROLE ≠ Some "successor"%string →
  (∀ v, (ENV_LISTEN_PID, v) ∉ cfg_env cfg) → (∀ v, (ENV_HANDOFF_ROLE, v) ∉ cfg_env cfg) →
  ∃ p p' map,
    spawned child_pid parent_env (cold_start_command cfg listeners) k = Some p ∧
    detect_role wt p = (Ok (ColdStart map), p') ∧
    (∀ name fd, map !! name = Some fd ↔
       ∃ i src, listeners !! i = Some (name, src) ∧ fd = 3 + Z.of_nat i) ∧
    (∀ i src e, sources !! i = Some src → fdtab k !! src = Some e →
       fdtab (kern p') !! (3 + Z.of_nat i) = Some (mkFd (ofd e) FD_CLOEXEC)).
Proof.
  intros sources Hnd Hcolon Hsk Hroom Hfits Hpid Hrole Hcpid Hcrole.
  set (c := foldl (λ cmd '(k, v), command_env k v cmd)
              (command_args (cfg_args cfg) (command_new (cfg_binary cfg))) (cfg_env cfg)).
  assert (∀ x, (∀ v, (x, v) ∉ cfg_env cfg) → envs c !! x = None) as Henv.
  { intros x Hx. unfold c. by rewrite foldl_env_lookup. }
  pose proof (spawned_inherits c listeners None child_pid parent_env k) as Hin.
  simpl option_list in Hin. rewrite app_nil_r in Hin. apply Hin; auto; [lia|].
  unfold extra_role. destruct (spawn_env c listeners None parent_env) as (_ & _ & ->); [|done..].
  by rewrite Henv.
Qed.

Lemma cold_start_inherits_witness :
  ∃ p p' map,
    spawned 77 ∅ (cold_start_command BinDemo.cfg InheritDemo.listeners) InheritDemo.k = Some p ∧
    detect_role (Ok tt) p = (Ok (ColdStart map), p') ∧ map !! "admin"%string = Some 4.
Proof.
  destruct (cold_start_inherits BinDemo.cfg InheritDemo.listeners 77 ∅ InheritDemo.k (Ok tt))
    as (p & p' & map & Hp & Hd & Hm & _).
  - apply NoDup_cons. split; [set_solver|]. apply NoDup_singleton.
  - repeat constructor.
  - repeat constructor.
  - vm_compute. lia.
  - vm_compute. discriminate.
  - reflexivity.
  - discriminate.
  - intros v Hv. simpl in Hv. by apply elem_of_nil in Hv.
  - intros v Hv. simpl in Hv. by apply elem_of_nil in Hv.
  - exists p, p', map. split; [exact Hp|]. split; [exact Hd|]. apply Hm. exists 1%nat, 3. split; reflexivity.
Defined.
