(* ===== verification/Harness.v ===== *)
(** * The test harness: [handoff-tests/src/lib.rs], [handoff-tests/src/bin/supervisor.rs]

    The environments the harness gives to the incumbent and to the test
    supervisor, the one the test supervisor gives to the successor, and the
    test supervisor's run with its exit status. *)
From stdpp Require Import base tactics option list numbers strings gmap.
From S2P Require Import Prelude Contract Errors Protocol Sock Fd Channel Role Crash Bind StateJournal Supervisor SupervisorSafety Inheritance SupervisorBin.
Local Open Scope Z_scope.

(** ** The harness's processes *)

(** [Fixture]'s paths. *)
Record Fixture : Type := mkFixture {
  data_dir : string;
  control_socket : string;
  journal : string;
  fixture_markers : string;
  primitive_binary : string;
  supervisor_binary : string
}.

Record PrimitiveBuilder : Type := mkPrimitiveBuilder {
  crash_at : option string;
  seal_fails : bool;
  seal_delay_ms : Z;
  drain_delay_ms : Z
}.
Record SupervisorBuilder : Type := mkSupervisorBuilder {
  crash_at_supervisor : option string;
  crash_at_successor : option string;
  drain_grace_ms : option Z;
  deadline_ms : option Z;
  ready_delay_ms : option Z
}.
Definition cold_start_primitive : PrimitiveBuilder := mkPrimitiveBuilder None false 0 0.
Definition supervisor_builder : SupervisorBuilder := mkSupervisorBuilder None None None None None.

(** [Fixture::new] under a fresh directory. *)
Definition Fixture_new (root primitive supervisor : string) : Fixture :=
  mkFixture (path_join root "data") (path_join root "control.sock") (path_join root "state.bin")
    (path_join root "markers") primitive supervisor.

Definition crash_primitive_at (p : string) (b : PrimitiveBuilder) : PrimitiveBuilder :=
  mkPrimitiveBuilder (Some p) (seal_fails b) (seal_delay_ms b) (drain_delay_ms b).
Definition seal_fails_once (b : PrimitiveBuilder) : PrimitiveBuilder :=
  mkPrimitiveBuilder (crash_at b) true (seal_delay_ms b) (drain_delay_ms b).
Definition seal_delay_of (ms : Z) (b : PrimitiveBuilder) : PrimitiveBuilder :=
  mkPrimitiveBuilder (crash_at b) (seal_fails b) (as_u64 ms) (drain_delay_ms b).
Definition drain_delay_of (ms : Z) (b : PrimitiveBuilder) : PrimitiveBuilder :=
  mkPrimitiveBuilder (crash_at b) (seal_fails b) (seal_delay_ms b) (as_u64 ms).

(** [Some(d.as_millis() as u64)] of a duration in milliseconds. *)
Definition drain_grace_of (ms : Z) (b : SupervisorBuilder) : SupervisorBuilder :=
  mkSupervisorBuilder (crash_at_supervisor b) (crash_at_successor b) (Some (as_u64 ms)) (deadline_ms b)
    (ready_delay_ms b).
Definition deadline_of (ms : Z) (b : SupervisorBuilder) : SupervisorBuilder :=
  mkSupervisorBuilder (crash_at_supervisor b) (crash_at_successor b) (drain_grace_ms b) (Some (as_u64 ms))
    (ready_delay_ms b).
Definition ready_delay_of (ms : Z) (b : SupervisorBuilder) : SupervisorBuilder :=
  mkSupervisorBuilder (crash_at_supervisor b) (crash_at_successor b) (drain_grace_ms b) (deadline_ms b)
    (Some (as_u64 ms)).
Definition crash_supervisor_at (p : string) (b : SupervisorBuilder) : SupervisorBuilder :=
  mkSupervisorBuilder (Some p) (crash_at_successor b) (drain_grace_ms b) (deadline_ms b) (ready_delay_ms b).
Definition crash_successor_at (p : string) (b : SupervisorBuilder) : SupervisorBuilder :=
  mkSupervisorBuilder (crash_at_supervisor b) (Some p) (drain_grace_ms b) (deadline_ms b) (ready_delay_ms b).

Definition ms_string (o : option Z) : string := default ""%string (show_Z <$> o).
Definition set_all (l : list (string * string)) (c : Command) : Command :=
  foldl (λ c '(k, v), command_env k v c) c l.

(** The commands of [PrimitiveBuilder::spawn] and [SupervisorBuilder::run];
    [rust_log] is the harness's own [RUST_LOG]. *)
Definition primitive_command (f : Fixture) (rust_log : option string) (b : PrimitiveBuilder) : Command :=
  set_all
    [("HANDOFF_DATA_DIR", data_dir f);
     ("HANDOFF_CONTROL_SOCKET", control_socket f);
     ("HANDOFF_MARKER_DIR", fixture_markers f);
     ("HANDOFF_CRASH_AT", default "" (crash_at b));
     ("HANDOFF_CRASH_ROLE", "primitive");
     ("HANDOFF_CRASH_MARKER_DIR", fixture_markers f);
     ("HANDOFF_SEAL_FAILS_ONCE", if seal_fails b then "1" else "0");
     ("HANDOFF_SEAL_DELAY_MS", show_Z (seal_delay_ms b));
     ("HANDOFF_DRAIN_DELAY_MS", show_Z (drain_delay_ms b));
     ("RUST_LOG", default "" rust_log)]%string
    (command_new (primitive_binary f)).

Definition supervisor_command (f : Fixture) (rust_log : option string) (b : SupervisorBuilder) : Command :=
  set_all
    [("HANDOFF_CONTROL_SOCKET", control_socket f);
     ("HANDOFF_DATA_DIR", data_dir f);
     ("HANDOFF_JOURNAL", journal f);
     ("HANDOFF_MARKER_DIR", fixture_markers f);
     ("HANDOFF_PRIMITIVE_BINARY", primitive_binary f);
     ("HANDOFF_CRASH_AT", default "" (crash_at_supervisor b));
     ("HANDOFF_CRASH_ROLE", "supervisor");
     ("HANDOFF_CRASH_MARKER_DIR", fixture_markers f);
     ("HANDOFF_CRASH_AT_FOR_N", default "" (crash_at_successor b));
     ("HANDOFF_TEST_DRAIN_GRACE_MS", ms_string (drain_grace_ms b));
     ("HANDOFF_TEST_DEADLINE_MS", ms_string (deadline_ms b));
     ("HANDOFF_READY_DELAY_MS", ms_string (ready_delay_ms b));
     ("RUST_LOG", default "" rust_log)]%string
    (command_new (supervisor_binary f)).

(** ** The test supervisor *)

(** [OsStr::to_str]. *)
Definition to_str (s : string) : option string :=
  if utf8_valid (String.list_byte_of_string s) then Some s else None.
(** [std::env::var], [env_path] and the readers of numbers. *)
Definition env_var (vars : gmap string string) (key : string) : option string := vars !! key ≫= to_str.
Definition env_path (vars : gmap string string) (key : string) : string :=
  default ""%string (vars !! key).
Definition parse_secs_env (vars : gmap string string) (key : string) : option Z :=
  Z.of_N <$> (env_var vars key ≫= parse_unsigned (Z.to_N u64_max)).
Definition parse_ms_env (vars : gmap string string) (key : string) : option Z :=
  Z.of_N <$> (env_var vars key ≫= parse_unsigned (Z.to_N u64_max)).
Definition crash_for_successor (vars : gmap string string) : string :=
  default ""%string (env_var vars "HANDOFF_CRASH_AT_FOR_N").

(** What [maybe_crash] reads of the environment. *)
Definition crash_env (crash_points : bool) (vars : gmap string string) : CrashEnv :=
  mkCrashEnv crash_points (env_var vars "HANDOFF_CRASH_AT") (env_var vars "HANDOFF_CRASH_MARKER_DIR")
    (env_var vars "HANDOFF_CRASH_ROLE").

Definition ok_or {A} (e : string) (o : option A) : result string A :=
  match o with Some a => Ok a | None => Err e end.

(** The [SpawnSpec] of [run]; times in milliseconds. *)
Definition test_spec (vars : gmap string string) : result string SpawnSpec :=
  let forward key := default ""%string (env_var vars key) in
  let markers := env_path vars "HANDOFF_MARKER_DIR" in
  crash_markers ← ok_or "marker dir not utf-8"%string (to_str markers);
  data ← ok_or "data dir not utf-8"%string (to_str (env_path vars "HANDOFF_DATA_DIR"));
  sock ← ok_or "control socket not utf-8"%string (to_str (env_path vars "HANDOFF_CONTROL_SOCKET"));
  marker_dir ← ok_or "marker dir not utf-8"%string (to_str markers);
  Ok (mkSpawnSpec (env_path vars "HANDOFF_PRIMITIVE_BINARY") []
        [("HANDOFF_CRASH_AT", crash_for_successor vars);
         ("HANDOFF_CRASH_ROLE", "successor");
         ("HANDOFF_CRASH_MARKER_DIR", crash_markers);
         ("HANDOFF_DATA_DIR", data);
         ("HANDOFF_CONTROL_SOCKET", sock);
         ("HANDOFF_MARKER_DIR", marker_dir);
         ("HANDOFF_SEAL_FAILS_ONCE", forward "HANDOFF_SEAL_FAILS_ONCE");
         ("HANDOFF_SEAL_DELAY_MS", forward "HANDOFF_SEAL_DELAY_MS");
         ("HANDOFF_DRAIN_DELAY_MS", forward "HANDOFF_DRAIN_DELAY_MS");
         ("HANDOFF_READY_DELAY_MS", forward "HANDOFF_READY_DELAY_MS")]%string
        (default (1000 * default 60 (parse_secs_env vars "HANDOFF_TEST_DEADLINE_SECS"))
           (parse_ms_env vars "HANDOFF_TEST_DEADLINE_MS"))
        (default (1000 * default 30 (parse_secs_env vars "HANDOFF_TEST_DRAIN_GRACE_SECS"))
           (parse_ms_env vars "HANDOFF_TEST_DRAIN_GRACE_MS"))).

Section run.
Context {T : Type} `{ControlChannel T} `{!ChannelLaws T} `{JournalCodec}.
Context (sun_path_size : Z) (vars : gmap string string) (answers : SEnv T).
Abbreviation M := (prog (World T) string).
Implicit Types w : World T.

(** [Supervisor::new(..)], and [with_journal] if a path is given. *)
Definition test_supervisor : Result Supervisor :=
  s ← Supervisor_new sun_path_size (env_path vars "HANDOFF_CONTROL_SOCKET");
  let journal := env_path vars "HANDOFF_JOURNAL" in
  Ok (if decide (journal = ""%string) then s else with_journal journal s).

(** That supervisor, in a process with these variables. *)
Definition test_env (s : Supervisor) : SEnv T :=
  let e := configured s answers in
  mkSEnv (own_pid e) (has_journal e) (connect e) (configure_o e) (make_pair e) (spawn_child e)
    (configure_n e) (new_handoff_id e) (delay e) (peek e) (journal_answers e) (unix_ms e) (show_error e)
    (show_id e) (crash_env (crash_points (crash e)) vars).

(** [.context(..)]. *)
Definition context {A} (ctx : string) (m : prog (World T) Error A) : M A := λ w,
  match m w with
  | (Ok a, w) => (Ok a, w)
  | (Err (Raise _), w) => (Err (Raise ctx), w)
  | (Err (Exit code), w) => (Err (Exit code), w)
  | (Err Stuck, w) => (Err Stuck, w)
  end.

Definition test_marker (name : string) : M unit :=
  match vars !! "HANDOFF_MARKER_DIR"%string with
  | Some dir => modify (mark (path_join dir (name +:+ ".marker")%string) name)
  | None => mret tt
  end.

(** The exit code of [run].  The handoff's trace is its own. *)
Definition test_run : M Z :=
  sup ← lift (result_map_err (λ _, "Supervisor::new"%string) test_supervisor);
  prior ← context "resume_from_journal" (resume_from_journal (test_env sup));
  _ ← match prior with Some _ => test_marker "supervisor-resume-from-journal" | None => mret tt end;
  spec ← lift (test_spec vars);
  _ ← modify next_handoff;
  outcome ← context "perform_handoff" (perform_handoff (test_env sup) spec);
  if committed outcome then _ ← test_marker "supervisor-committed"; mret 0
  else _ ← test_marker "supervisor-aborted"; mret 2.

Definition test_main : M Z :=
  r ← attempt test_run;
  mret (match r with Ok code => code | Err _ => 3 end).
End run.

(** ** Lemmas: environments *)

Lemma set_all_in l c k v :
  NoDup l.*1 → (k, v) ∈ l → envs (set_all l c) !! k = Some v.
Proof.
  revert c. induction l as [|[k' v'] l IH]; intros c Hnd Hin; [by apply elem_of_nil in Hin|].
  apply NoDup_cons in Hnd as [Hk Hnd]. unfold set_all. simpl. fold (set_all l (command_env k' v' c)).
  apply elem_of_cons in Hin as [[= -> ->]|Hin]; [|by apply IH].
  unfold set_all. rewrite foldl_env_lookup; [apply lookup_insert_eq|].
  intros v Hv. apply Hk. by apply (list_elem_of_fmap_2 fst) in Hv.
Qed.

Lemma child_sees parent l p k v :
  NoDup l.*1 → (k, v) ∈ l → child_env parent (set_all l (command_new p)) !! k = Some v.
Proof. intros. unfold child_env. apply lookup_union_Some_l. by apply set_all_in. Qed.

Lemma child_inherits_var parent l p k :
  (∀ v, (k, v) ∉ l) → child_env parent (set_all l (command_new p)) !! k = parent !! k.
Proof.
  intros. unfold child_env. apply lookup_union_r. unfold set_all. by rewrite foldl_env_lookup.
Qed.

(** What the successor sees of a variable of the spec. *)
Lemma successor_sees parent spec listeners fd k v :
  NoDup (spec_env spec).*1 → (k, v) ∈ spec_env spec →
  k ∉ [ENV_HANDOFF_ROLE; ENV_HANDOFF_SOCK_FD; ENV_LISTEN_FDS; ENV_LISTEN_FDNAMES] →
  child_env parent (spawn_command spec listeners fd) !! k = Some v.
Proof.
  intros Hnd Hin Hk. unfold spawn_command.
  pose proof (set_all_in _ (command_args (spec_args spec) (command_new (binary spec))) k v Hnd Hin) as Hs.
  edestruct (spawn_env (command_env ENV_HANDOFF_SOCK_FD (show_Z (3 + Z.of_nat (length listeners)))
    (command_env ENV_HANDOFF_ROLE "successor"
      (set_all (spec_env spec) (command_args (spec_args spec) (command_new (binary spec))))))
    listeners (Some fd) parent) as (_ & _ & Hx).
  unfold set_all in Hx, Hs. rewrite Hx by set_solver. simpl.
  rewrite !lookup_insert_ne by set_solver. by rewrite Hs.
Qed.

Lemma Ok_inj {E A} (a b : A) : Ok (E := E) a = Ok b → a = b.
Proof. by intros [=]. Qed.

(** Decimal digits are text. *)
Lemma to_str_print_dec n : to_str (print_dec n) = Some (print_dec n).
Proof.
  unfold to_str. enough (utf8_valid (String.list_byte_of_string (print_dec n)) = true) as -> by done.
  unfold print_dec. generalize (N.to_uint n). intros u. by induction u; simpl.
Qed.

Lemma to_str_show_Z z : 0 ≤ z → to_str (show_Z z) = Some (show_Z z).
Proof. intros. unfold show_Z. rewrite decide_True by done. apply to_str_print_dec. Qed.

Lemma to_str_id s t : to_str s = Some t → t = s.
Proof. unfold to_str. case_match; congruence. Qed.

Lemma parse_ms_string o :
  (∀ ms, o = Some ms → 0 ≤ ms ≤ u64_max) →
  Z.of_N <$> (to_str (ms_string o) ≫= parse_unsigned (Z.to_N u64_max)) = o.
Proof.
  intros Ho. destruct o as [ms|]; [|done]. specialize (Ho ms eq_refl). unfold ms_string. simpl.
  rewrite to_str_show_Z by lia. simpl. unfold show_Z. rewrite decide_True by lia.
  rewrite parse_print_unsigned by (unfold u64_max in *; lia). simpl. f_equal. lia.
Qed.

(** ** What each role is told *)

(** Crash points are constants of the program, so text. *)
Definition textual (o : option string) : Prop := ∀ p, o = Some p → to_str p = Some p.
Definition in_u64 (o : option Z) : Prop := ∀ ms, o = Some ms → 0 ≤ ms ≤ u64_max.

Lemma to_str_default o : textual o → to_str (default ""%string o) = Some (default ""%string o).
Proof. destruct o as [p|]; [intros Ho; by apply Ho|done]. Qed.

Lemma crashes_where_told cp env o p :
  env !! "HANDOFF_CRASH_AT"%string = Some (default ""%string o) → textual o → p ≠ ""%string →
  crashes_at (crash_env cp env) p = cp && bool_decide (o = Some p).
Proof.
  intros He Ho Hp. unfold crashes_at, crash_env. simpl. unfold env_var. rewrite He. simpl.
  rewrite to_str_default by done. f_equal. apply bool_decide_ext. destruct o; simpl; naive_solver.
Qed.

(** Membership in a list that is written out. *)
Ltac listed := solve [repeat first [apply list_elem_of_here | apply list_elem_of_further]].

Section told.
Context (f : Fixture) (rust_log : option string) (b : SupervisorBuilder) (parent : gmap string string).
Abbreviation s_env := (child_env parent (supervisor_command f rust_log b)).

Lemma supervisor_sees k v :
  (k, v) ∈ [("HANDOFF_CONTROL_SOCKET", control_socket f); ("HANDOFF_DATA_DIR", data_dir f);
            ("HANDOFF_MARKER_DIR", fixture_markers f); ("HANDOFF_PRIMITIVE_BINARY", primitive_binary f);
            ("HANDOFF_CRASH_AT", default "" (crash_at_supervisor b)); ("HANDOFF_CRASH_ROLE", "supervisor");
            ("HANDOFF_CRASH_AT_FOR_N", default "" (crash_at_successor b));
            ("HANDOFF_TEST_DRAIN_GRACE_MS", ms_string (drain_grace_ms b));
            ("HANDOFF_TEST_DEADLINE_MS", ms_string (deadline_ms b));
            ("HANDOFF_READY_DELAY_MS", ms_string (ready_delay_ms b))]%string →
  s_env !! k = Some v.
Proof.
  intros Hin. unfold supervisor_command. apply child_sees.
  - apply (bool_decide_unpack _). by vm_compute.
  - revert Hin. rewrite !elem_of_cons, elem_of_nil. tauto.
Qed.

Hypothesis points : textual (crash_at_supervisor b) ∧ textual (crash_at_successor b).
Hypothesis knobs : in_u64 (drain_grace_ms b) ∧ in_u64 (deadline_ms b) ∧ in_u64 (ready_delay_ms b).

(** The spec the test supervisor makes of them. *)
Lemma spec_of_fixture spec :
  test_spec s_env = Ok spec →
  binary spec = primitive_binary f ∧
  deadline spec = default (1000 * default 60 (parse_secs_env s_env "HANDOFF_TEST_DEADLINE_SECS")) (deadline_ms b) ∧
  drain_grace spec =
    default (1000 * default 30 (parse_secs_env s_env "HANDOFF_TEST_DRAIN_GRACE_SECS")) (drain_grace_ms b) ∧
  NoDup (spec_env spec).*1 ∧
  ∀ k v, (k, v) ∈ [("HANDOFF_CRASH_AT", default "" (crash_at_successor b)); ("HANDOFF_CRASH_ROLE", "successor");
                   ("HANDOFF_CRASH_MARKER_DIR", fixture_markers f);
                   ("HANDOFF_DATA_DIR", data_dir f); ("HANDOFF_CONTROL_SOCKET", control_socket f);
                   ("HANDOFF_MARKER_DIR", fixture_markers f);
                   ("HANDOFF_READY_DELAY_MS", ms_string (ready_delay_ms b))]%string →
         (k, v) ∈ spec_env spec.
Proof using points knobs.
  unfold test_spec, ok_or, env_path, crash_for_successor, parse_ms_env.
  rewrite (supervisor_sees "HANDOFF_MARKER_DIR" (fixture_markers f)),
    (supervisor_sees "HANDOFF_DATA_DIR" (data_dir f)),
    (supervisor_sees "HANDOFF_CONTROL_SOCKET" (control_socket f)),
    (supervisor_sees "HANDOFF_PRIMITIVE_BINARY" (primitive_binary f)) by listed.
  assert (∀ k o, s_env !! k = Some (ms_string o) → in_u64 o →
    env_var s_env k = Some (ms_string o) ∧ Z.of_N <$> (env_var s_env k ≫= parse_unsigned (Z.to_N u64_max)) = o)
    as Hms.
  { intros k o Hk Ho. unfold env_var. rewrite Hk. simpl. split; [|by apply parse_ms_string].
    destruct o as [ms|]; [|done]. apply to_str_show_Z. by destruct (Ho ms eq_refl). }
  destruct knobs as (Hg & Hd & Hr).
  edestruct (Hms "HANDOFF_TEST_DRAIN_GRACE_MS"%string) as [_ ->]; [apply supervisor_sees; listed|exact Hg|].
  edestruct (Hms "HANDOFF_TEST_DEADLINE_MS"%string) as [_ ->]; [apply supervisor_sees; listed|exact Hd|].
  edestruct (Hms "HANDOFF_READY_DELAY_MS"%string) as [-> _]; [apply supervisor_sees; listed|exact Hr|].
  assert (env_var s_env "HANDOFF_CRASH_AT_FOR_N" = Some (default ""%string (crash_at_successor b))) as ->.
  { unfold env_var. erewrite supervisor_sees by listed. apply to_str_default, points. }
  unfold default, mbind, result_bind, id.
  destruct (to_str (fixture_markers f)) as [m|] eqn:Hm; [|by intros [=]].
  destruct (to_str (data_dir f)) as [d|] eqn:Hdd; [|by intros [=]].
  destruct (to_str (control_socket f)) as [c|] eqn:Hc; [|by intros [=]].
  apply to_str_id in Hm as ->. apply to_str_id in Hdd as ->. apply to_str_id in Hc as ->.
  intros <-%Ok_inj. split_and!; [done..| |].
  - apply (bool_decide_unpack _). by vm_compute.
  - intros k v. cbn [spec_env]. rewrite !elem_of_cons, elem_of_nil. tauto.
Qed.

Lemma fixture_reaches_successor spec listeners fd k v :
  test_spec s_env = Ok spec →
  (k, v) ∈ [("HANDOFF_CRASH_AT", default "" (crash_at_successor b)); ("HANDOFF_CRASH_ROLE", "successor");
            ("HANDOFF_CRASH_MARKER_DIR", fixture_markers f);
            ("HANDOFF_DATA_DIR", data_dir f); ("HANDOFF_CONTROL_SOCKET", control_socket f);
            ("HANDOFF_MARKER_DIR", fixture_markers f);
            ("HANDOFF_READY_DELAY_MS", ms_string (ready_delay_ms b))]%string →
  child_env s_env (spawn_command spec listeners fd) !! k = Some v.
Proof using points knobs.
  intros Hs Hin. destruct (spec_of_fixture spec Hs) as (_ & _ & _ & Hnd & Hl).
  apply successor_sees; [exact Hnd|exact (Hl _ _ Hin)|]. apply (bool_decide_unpack _).
  rewrite !elem_of_cons, elem_of_nil in Hin. by destruct_or?; simplify_eq.
Qed.
End told.

(** ** Lemmas: the run *)
Section run_lemmas.
Context {T : Type} `{ControlChannel T} `{!ChannelLaws T} `{JournalCodec}.
Implicit Types (w : World T) (env : SEnv T).

(** [resume_from_journal] ends, leaves nothing open and writes no marker. *)
Lemma on_journal_end {A} env (g : JournalAnswers → prog JournalFs Error A) w :
  (∀ a j, match (g a j).1 with Ok _ | Err (Raise _) => True | _ => False end) → settled w →
  ∃ r w', on_journal env g w = (Ok r, w') ∧ settled w' ∧ trace w' = trace w.
Proof.
  intros Hg Hs. unfold on_journal. specialize (Hg (journal_answers env (calls w)) (jfs w)).
  destruct (g _ _) as [[a|[e| |]] j]; simpl in Hg; try done; by eexists _, _.
Qed.

Lemma probe_settled env w :
  settled w → ∃ w', probe env w = (Ok tt, w') ∧ settled w' ∧
    (Forall probing (trace w) → Forall probing (trace w')).
Proof.
  intros Hs. unfold probe, blocking, mbind, prog_bind, attempt, modify, set_read_timeout, on_stream. simpl.
  destruct (connect env) as [t|]; simpl; [|by eexists].
  destruct (ch_set_read_timeout (Some 2000) t) as [r t1]. simpl.
  destruct (ch_read_message t1) as [[[v m]|e] t2]; simpl;
    (eexists; split; [done|]; split; [by destruct Hs as (_ & ?)|]);
    simpl; rewrite !Forall_app; intros; split_and?; repeat constructor; done.
Qed.

Lemma resume_settled env w :
  settled w → Forall probing (trace w) →
  ∃ r w', resume_from_journal env w = (r, w') ∧ settled w' ∧ Forall probing (trace w') ∧
    match r with Ok _ | Err (Raise _) => True | _ => False end.
Proof.
  intros Hs Hp. unfold resume_from_journal. destruct (has_journal env); [|by eexists _, _].
  unfold negb. fold (probe env). unfold mbind, prog_bind, lift.
  destruct (on_journal_end env StateJournal.read w read_ends Hs) as (r & w1 & -> & Hs1 & Ht1).
  rewrite <- Ht1 in Hp. destruct r as [[j|]|e]; [|by eexists _, _..].
  destruct (probe_settled env w1 Hs1) as (w2 & -> & Hs2 & Hp2).
  destruct (on_journal_end env StateJournal.delete w2 delete_ends Hs2) as (r & w3 & -> & Hs3 & Ht3).
  specialize (Hp2 Hp). rewrite <- Ht3 in Hp2. destruct r; by eexists _, _.
Qed.
End run_lemmas.

(** *** The exit status *)

(** The marker [name] was written, if the harness gave a directory. *)
Definition marked (vars : gmap string string) (name : string) {T} (w : World T) : Prop :=
  ∀ dir, vars !! "HANDOFF_MARKER_DIR"%string = Some dir →
    (path_join dir (name +:+ ".marker")%string, name) ∈ markers w.

Section exit_lemmas.
Context {T : Type} `{ControlChannel T} `{!ChannelLaws T} `{JournalCodec}.
Context (sz : Z) (vars : gmap string string) (answers : SEnv T).
Implicit Types w : World T.
Abbreviation id := (new_handoff_id answers).

(** A crash point of the environment fired. *)
Definition fired (code : Z) : Prop :=
  code = 99 ∧ ∃ point, crashes_at (crash_env (crash_points (crash answers)) vars) point = true.

(** What the code says of the handoff whose trace is in [w]. *)
Definition status_ok (code : Z) w : Prop :=
  (code = 0 ∧ marked vars "supervisor-committed" w ∧
    ∃ pid, follows id contract_start (trace w) = Some (mkContract WasCommitted (Released pid))) ∨
  (code = 2 ∧ marked vars "supervisor-aborted" w ∧
    ∃ c pid, follows id contract_start (trace w) = Some c ∧ decided (at_step c) = false ∧ child c = Killed pid).
Definition failure_ok w : Prop :=
  settled w ∧ (Forall probing (trace w) ∨
    ∃ c, follows id contract_start (trace w) = Some c ∧ decided (at_step c) = false ∧
         is_alive (child c) = false).
Abbreviation run_post := (Contract.post (λ code _, fired code)
  (λ code w', settled w' ∧ status_ok code w') failure_ok).

Lemma test_marker_spec name w (Q : World T → Prop) :
  (∀ w', o_stream w' = o_stream w → n_stream w' = n_stream w → guard w' = guard w →
         in_flight w' = in_flight w → trace w' = trace w → marked vars name w' → Q w') →
  wp (test_marker (T := T) vars name) (Contract.post (λ code _, fired code) (λ _, Q) failure_ok) w.
Proof.
  intros HQ. unfold test_marker. destruct (vars !! _) as [dir|] eqn:Hd.
  - apply wp_post_modify, HQ; [done..|]. intros dir' Hd'. simplify_eq. simpl. set_solver.
  - apply wp_post_ret, HQ; [done..|]. intros dir' Hd'. congruence.
Qed.

Lemma call_handoff_spec s spec w :
  valid_env answers → settled w →
  wp (context "perform_handoff" (perform_handoff (test_env vars answers s) spec))
    (Contract.post (λ code _, fired code)
       (λ o w', settled w' ∧ ∃ c, follows id contract_start (trace w') = Some c ∧
          if committed o then ∃ pid, c = mkContract WasCommitted (Released pid)
          else decided (at_step c) = false ∧ ∃ pid, child c = Killed pid) failure_ok) (next_handoff w).
Proof.
  set (env := test_env vars answers s). intros Hv (Ho & Hn & Hg & Hf). assert (fresh (next_handoff w)) as Hfr by done.
  pose proof (handoff_runs env spec (next_handoff w) Hv Hfr Hf) as (c & Hfo & Hpost).
  unfold wp, context. destruct (perform_handoff env spec (next_handoff w)) as [[o|[e|code|]] w'];
    simpl in *; [..|done].
  - destruct Hpost as (Hs & _ & Hc). split; [done|]. exists c. split; [done|].
    destruct (committed o); [destruct Hc as (_ & pid & -> & _); eauto|].
    destruct Hc as (_ & _ & Hd & Hk). by split.
  - destruct Hpost as (Hs & Hd & Ha). split; [done|]. right. by exists c.
  - exact Hpost.
Qed.

Lemma test_run_spec w :
  valid_env answers → settled w → trace w = [] → wp (test_run sz vars answers) run_post w.
Proof.
  intros Hv Hs Ht. unfold test_run.
  assert (∀ w', settled w' → Forall probing (trace w') → failure_ok w') as Hfail by (intros; split; auto).
  assert (Forall probing (trace w)) as Hp by by rewrite Ht.
  eapply wp_post_bind with (Q1 := λ _ w', w' = w).
  { unfold wp, lift. destruct (test_supervisor sz vars); simpl; [done|]. by apply Hfail. }
  cbn beta. intros sup w0 ->.
  set (resumed w' := settled w' ∧ Forall probing (trace w')).
  eapply wp_post_bind with (Q1 := λ _, resumed).
  { unfold wp, context. destruct (resume_settled (test_env vars answers sup) w Hs Hp) as (r & w' & -> & Hs' & Hp' & Hr).
    destruct r as [a|[e| |]]; simpl; try done. by apply Hfail. }
  cbn beta. intros prior w1 Hw1. eapply wp_post_bind with (Q1 := λ _, resumed).
  { destruct prior; [|by apply wp_post_ret]. apply test_marker_spec. destruct Hw1 as ((? & ? & ? & ?) & ?).
    intros w' E1 E2 E3 E4 E5 _. unfold resumed, settled. rewrite E1, E2, E3, E4, E5. done. }
  cbn beta. intros _ w2 [Hs2 Hp2]. eapply wp_post_bind with (Q1 := λ _ w', w' = w2).
  { unfold wp, lift. destruct (test_spec vars); simpl; [done|]. by apply Hfail. }
  cbn beta. intros spec w3 ->. eapply wp_post_bind with (Q1 := λ _ w', w' = next_handoff w2); [by apply wp_post_modify|].
  cbn beta. intros _ w4 ->. eapply wp_post_bind; [by apply call_handoff_spec|].
  cbn beta. intros o w5 (Hs5 & c & Hf & Hc).
  assert (∀ w', o_stream w' = o_stream w5 → n_stream w' = n_stream w5 → guard w' = guard w5 →
    in_flight w' = in_flight w5 → settled w') as Hset.
  { destruct Hs5 as (? & ? & ? & ?). intros w' E1 E2 E3 E4. unfold settled. by rewrite E1, E2, E3, E4. }
  destruct (committed o).
  - destruct Hc as [pid ->]. eapply wp_post_bind with (Q1 := λ _ w', settled w' ∧ status_ok 0 w').
    { apply test_marker_spec. intros w' E1 E2 E3 E4 E5 Hm. split; [by apply Hset|]. left. rewrite E5. eauto. }
    cbn beta. intros _ w6 Hw6. by apply wp_post_ret.
  - destruct Hc as (Hd & pid & Hk). eapply wp_post_bind with (Q1 := λ _ w', settled w' ∧ status_ok 2 w').
    { apply test_marker_spec. intros w' E1 E2 E3 E4 E5 Hm. split; [by apply Hset|]. right. rewrite E5. eauto 8. }
    cbn beta. intros _ w6 Hw6. by apply wp_post_ret.
Qed.
End exit_lemmas.

(** ** Properties *)

(** the harness's promise that crash points never leak between roles.
    Whatever the harness's own environment holds, the incumbent, the
    supervisor and the successor that the supervisor spawns each crash at the
    one point the test named for that role and at no other (none, if it named
    none), under its own role's name; and the successor is given the
    fixture's binary, data directory, control socket and markers, and the
    time budgets and the delay that the test asked for. *)
Theorem crash_points_do_not_leak (f : Fixture) (rust_log : option string) (pb : PrimitiveBuilder)
    (b : SupervisorBuilder) (parent : gmap string string) (spec : SpawnSpec)
    (listeners : list (string * Z)) (fd : Z) (crash_points : bool) :
  textual (crash_at pb) →
  textual (crash_at_supervisor b) ∧ textual (crash_at_successor b) →
  in_u64 (drain_grace_ms b) ∧ in_u64 (deadline_ms b) ∧ in_u64 (ready_delay_ms b) →
  let o_env := child_env parent (primitive_command f rust_log pb) in
  let s_env := child_env parent (supervisor_command f rust_log b) in
  test_spec s_env = Ok spec →
  let n_env := child_env s_env (spawn_command spec listeners fd) in
  (∀ p, p ≠ ""%string →
     crashes_at (crash_env crash_points o_env) p = crash_points && bool_decide (crash_at pb = Some p) ∧
     crashes_at (crash_env crash_points s_env) p =
       crash_points && bool_decide (crash_at_supervisor b = Some p) ∧
     crashes_at (crash_env crash_points n_env) p =
       crash_points && bool_decide (crash_at_successor b = Some p)) ∧
  env_var o_env "HANDOFF_CRASH_ROLE" = Some "primitive"%string ∧
  env_var s_env "HANDOFF_CRASH_ROLE" = Some "supervisor"%string ∧
  env_var n_env "HANDOFF_CRASH_ROLE" = Some "successor"%string ∧
  binary spec = primitive_binary f ∧
  env_path n_env "HANDOFF_DATA_DIR" = data_dir f ∧
  env_path n_env "HANDOFF_CONTROL_SOCKET" = control_socket f ∧
  env_path n_env "HANDOFF_MARKER_DIR" = fixture_markers f ∧
  parse_ms_env n_env "HANDOFF_READY_DELAY_MS" = ready_delay_ms b ∧
  (∀ ms, deadline_ms b = Some ms → deadline spec = ms) ∧
  (∀ ms, drain_grace_ms b = Some ms → drain_grace spec = ms).
Proof.
  intros Ho Hp Hk o_env s_env Hs n_env.
  destruct (spec_of_fixture f rust_log b parent Hp Hk spec Hs) as (Hb & Hd & Hg & _).
  assert (∀ k v, (k, v) ∈ [("HANDOFF_CRASH_AT", default "" (crash_at pb)); ("HANDOFF_CRASH_ROLE", "primitive")]%string →
    o_env !! k = Some v) as Hpo.
  { intros k v Hin. apply child_sees; [apply (bool_decide_unpack _); by vm_compute|].
    revert Hin. rewrite !elem_of_cons, elem_of_nil. tauto. }
  pose proof (fixture_reaches_successor f rust_log b parent Hp Hk spec listeners fd) as Hn.
  unfold env_path, parse_ms_env, env_var. fold s_env in Hn. fold n_env in Hn.
  split_and!.
  - intros p Hne. split_and!; apply crashes_where_told; try done; [by apply Hpo; listed
      |by apply supervisor_sees; listed|by apply Hp|by apply Hn; [|listed]|by apply Hp].
  - by rewrite (Hpo "HANDOFF_CRASH_ROLE" "primitive")%string by listed.
  - unfold s_env. by erewrite supervisor_sees by listed.
  - by erewrite Hn by (done || listed).
  - done.
  - by erewrite Hn by (done || listed).
  - by erewrite Hn by (done || listed).
  - by erewrite Hn by (done || listed).
  - erewrite Hn by (done || listed). apply parse_ms_string, Hk.
  - intros ms Hms. by rewrite Hd, Hms.
  - intros ms Hms. by rewrite Hg, Hms.
Qed.

Module HarnessDemo.
Definition fixture : Fixture :=
  Fixture_new "/t" "/bin/primitive" "/bin/supervisor".
(** One crash point for each of the two. *)
Definition builder : SupervisorBuilder :=
  deadline_of 5000
    (crash_successor_at "n-after-begin" (crash_supervisor_at "s-after-commit-sent" supervisor_builder)).
(** The harness was itself started with a crash point. *)
Definition parent : gmap string string := {["HANDOFF_CRASH_AT" := "o-inside-seal"]}%string.
Definition s_env (b : SupervisorBuilder) : gmap string string :=
  child_env parent (supervisor_command fixture None b).

Lemma points b :
  b = builder ∨ b = supervisor_builder → textual (crash_at_supervisor b) ∧ textual (crash_at_successor b).
Proof. by intros [-> | ->]; split; intros p [= <-]. Qed.
Lemma knobs b :
  b = builder ∨ b = supervisor_builder →
  in_u64 (drain_grace_ms b) ∧ in_u64 (deadline_ms b) ∧ in_u64 (ready_delay_ms b).
Proof. by intros [-> | ->]; split_and!; intros p [= <-]. Qed.
End HarnessDemo.

Lemma crash_points_do_not_leak_witness :
  ∃ spec, test_spec (HarnessDemo.s_env HarnessDemo.builder) = Ok spec ∧
    let n_env := child_env (HarnessDemo.s_env HarnessDemo.builder) (spawn_command spec [] 9) in
    crashes_at (crash_env true n_env) "n-after-begin" = true ∧
    crashes_at (crash_env true n_env) "s-after-commit-sent" = false ∧
    crashes_at (crash_env true n_env) "o-inside-seal" = false ∧ deadline spec = 5000.
Proof.
  assert (is_ok (test_spec (HarnessDemo.s_env HarnessDemo.builder)) = true) as Hok
    by (vm_compute; reflexivity).
  destruct (test_spec (HarnessDemo.s_env HarnessDemo.builder)) as [spec|e] eqn:Hs; [|discriminate Hok].
  exists spec. split; [reflexivity|].
  destruct (crash_points_do_not_leak HarnessDemo.fixture None cold_start_primitive HarnessDemo.builder
    HarnessDemo.parent spec [] 9 true ltac:(intros p Hp; discriminate Hp)
    (HarnessDemo.points _ (or_introl eq_refl)) (HarnessDemo.knobs _ (or_introl eq_refl)) Hs)
    as (Hc & _ & _ & _ & _ & _ & _ & _ & _ & Hd & _).
  cbv zeta. split; [|split; [|split]].
  - apply (Hc "n-after-begin"%string); discriminate.
  - apply (Hc "s-after-commit-sent"%string); discriminate.
  - apply (Hc "o-inside-seal"%string); discriminate.
  - apply Hd; reflexivity.
Defined.

(** The delays of the first incumbent's [seal] do not reach the successor,
    although the test supervisor's comment says so: [SupervisorBuilder] sets
    no [HANDOFF_SEAL_DELAY_MS], and the supervisor forwards only its own. *)
Example seal_delay_is_not_forwarded :
  let slow := seal_delay_of 15000 cold_start_primitive in
  let o_env := child_env HarnessDemo.parent (primitive_command HarnessDemo.fixture None slow) in
  let s_env := HarnessDemo.s_env supervisor_builder in
  parse_ms_env o_env "HANDOFF_SEAL_DELAY_MS" = Some 15000 ∧
  ∃ spec, test_spec s_env = Ok spec ∧
    child_env s_env (spawn_command spec [] 9) !! "HANDOFF_SEAL_DELAY_MS"%string = Some ""%string.
Proof. split; [by vm_compute|]. eexists. split; [vm_compute; reflexivity|]. by vm_compute. Qed.

(** C38: the test supervisor's exit status tells the truth about the handoff.
    0: the handoff committed — [Commit] was said after [Ready], the successor
    lives and was let go — and the marker says so.  2: it was aborted, the
    successor was killed and reaped, and the marker says so.  3: an error; the
    handoff, if one began, never came to a verdict and left no successor
    alive.  99: a crash point that the environment names fired.  There is no
    other end: the run always returns, and then everything is closed.  (The
    markers' directory is one in which a file can be written.) *)
Theorem test_supervisor_exit_status {T} `{ControlChannel T} `{!ChannelLaws T} `{JournalCodec}
    (sun_path_size : Z) (vars : gmap string string) (answers : SEnv T) (w : World T) :
  valid_env answers → settled w → trace w = [] →
  let '(r, w') := test_main sun_path_size vars answers w in
  let id := new_handoff_id answers in
  match r with
  | Ok code =>
      settled w' ∧
      ((code = 0 ∧ marked vars "supervisor-committed" w' ∧
        ∃ pid, follows id contract_start (trace w') = Some (mkContract WasCommitted (Released pid))) ∨
       (code = 2 ∧ marked vars "supervisor-aborted" w' ∧
        ∃ c pid, follows id contract_start (trace w') = Some c ∧ decided (at_step c) = false ∧
                 child c = Killed pid) ∨
       (code = 3 ∧
        (Forall probing (trace w') ∨
         ∃ c, follows id contract_start (trace w') = Some c ∧ decided (at_step c) = false ∧
              is_alive (child c) = false)))
  | Err (Exit code) =>
      code = 99 ∧ ∃ point, crashes_at (crash_env (crash_points (crash answers)) vars) point = true
  | Err _ => False
  end.
Proof.
  intros Hv Hs Ht. pose proof (test_run_spec sun_path_size vars answers w Hv Hs Ht) as Hrun.
  unfold test_main, mbind, prog_bind, attempt. unfold wp in Hrun.
  destruct (test_run sun_path_size vars answers w) as [[code|[e|code|]] w']; simpl in *; [..|done].
  - destruct Hrun as [Hs' [Hc|Hc]]; auto.
  - destruct Hrun as [Hs' Hc]. auto.
  - exact Hrun.
Qed.

Lemma test_supervisor_exit_status_witness :
  let vars := HarnessDemo.s_env supervisor_builder in
  let answers := SupervisorDemo.env SupervisorDemo.sealed SupervisorDemo.ready in
  let '(r, w') := test_main 108 vars answers SupervisorDemo.start in
  r = Ok 0 ∧ marked vars "supervisor-committed" w' ∧
  ∃ pid, follows SupervisorDemo.id1 contract_start (trace w') =
           Some (mkContract WasCommitted (Released pid)).
Proof.
  set (vars := HarnessDemo.s_env supervisor_builder).
  set (answers := SupervisorDemo.env SupervisorDemo.sealed SupervisorDemo.ready). cbv zeta.
  pose proof (test_supervisor_exit_status 108 vars answers SupervisorDemo.start
    (SupervisorDemo.env_valid _ _) SupervisorDemo.start_settled eq_refl) as Hrun.
  assert ((test_main 108 vars answers SupervisorDemo.start).1 = Ok 0) as Hr by (vm_compute; reflexivity).
  destruct (test_main 108 vars answers SupervisorDemo.start) as [r w']. simpl in Hr. subst r.
  destruct Hrun as (_ & [(_ & Hm & Hc)|[(Hn & _)|(Hn & _)]]); [|discriminate Hn..].
  split; [reflexivity|]. split; [exact Hm|exact Hc].
Defined.
