(* ===== verification/Probes.v ===== *)
(** * The harness's probes: [handoff-tests/src/lib.rs]

    What a test learns of the processes under test: the flock's holder, the
    journal, marker files, the exit of a child and its captured log.  The
    probes run against the states of [Lock], [StateJournal] and the marker
    directory. *)
From Stdlib Require Import Strings.Ascii.
From stdpp Require Import base tactics option list numbers strings gmap.
From S2P Require Import Prelude Errors Protocol Lock StateJournal Frame Supervisor SupervisorBin SupervisorBinSafety Harness.
Local Open Scope Z_scope.

(** A panic carries its message. *)
Abbreviation panics := (result string).

(** ** Files *)

(** The marker directory and the logs: contents by path. *)
Definition Files : Type := gmap string string.

(** [std::fs::read_to_string]. *)
Definition read_to_string (files : Files) (path : string) : option string := files !! path ≫= to_str.

Definition marker_path (f : Fixture) (marker : string) : string :=
  path_join (fixture_markers f) (marker +:+ ".marker")%string.

Definition marker_exists (f : Fixture) (files : Files) (marker : string) : bool :=
  bool_decide (is_Some (files !! marker_path f marker)).

Definition read_marker_value (files : Files) (markers marker : string) : option string :=
  trim <$> read_to_string files (path_join markers (marker +:+ ".marker")%string).

(** ** The flock *)
Inductive FlockState : Type := Free | Held (pid : Z) (alive : bool).

#[export] Instance FlockState_eq_dec : EqDecision FlockState.
Proof. solve_decision. Defined.

(** [kill(pid, 0)]; unlike [lock.rs], [EPERM] counts as dead. *)
Definition is_alive (kill : Z → result Errno unit) (pid : Z) : bool :=
  if decide (pid ≤ 0) then false else is_ok (kill pid).

(** [me] is the process that probes; the probe's own flock is dropped at once. *)
Definition flock_state (lockfile_exists : bool) (fs : FsAnswers) (kill : Z → result Errno unit) (me : Z)
    : prog LockDir unit FlockState :=
  if negb lockfile_exists then mret Free
  else match open_lock_file fs with
       | Err _ => mret Free
       | Ok _ =>
           w ← gets id;
           match flock_exclusive_nonblock fs me w with
           | (Ok _, w') => _ ← modify (λ _, w'); _ ← modify drop_flock; mret Free
           | (Err _, _) =>
               let pid := default 0 (read_pidfile w) in
               let alive := bool_decide (0 < pid) && is_alive kill pid in
               mret (Held pid alive)
           end
       end.

Definition assert_held_by_live_process (s : FlockState) : panics unit :=
  match s with
  | Held _ true => Ok tt
  | _ => Err "expected flock held by a live process"%string
  end.
Definition assert_free (s : FlockState) : panics unit :=
  match s with Free => Ok tt | Held _ _ => Err "expected flock free"%string end.

(** What dropping the fixture kills. *)
Definition fixture_drop (w : LockDir) (kill : Z → result Errno unit) : list Z :=
  match read_pidfile w with
  | Some pid => if bool_decide (0 < pid) && is_alive kill pid then [pid] else []
  | None => []
  end.

(** ** The journal and the control socket *)
Definition journal_phase `{JournalCodec} (j : JournalFs) : option Phase :=
  bytes ← journal_file j;
  match journal_from_bytes bytes with Ok journal => Some (phase journal) | Err _ => None end.

Definition journal_present (j : JournalFs) : bool := bool_decide (is_Some (journal_file j)).

(** Reading the length prefix is enough. *)
Definition control_socket_serves (connect : result IoError reader) : bool :=
  match connect with
  | Err _ => false
  | Ok stream => is_ok (read_exact stream 4).1
  end.

(** ** Polling *)
Definition POLL_INTERVAL : Z := 10.

(** [appeared n] is the answer of the [n]-th [path.exists()]. *)
Definition wait_marker (appeared : nat → bool) (delay : nat → Z) (timeout : Z)
    : prog (Z * nat) unit bool :=
  r ← wait_for POLL_INTERVAL (λ n, Ok (if appeared n then Some tt else None)) delay timeout;
  mret (match r with Some (Ok _) => true | _ => false end).

(** An exit status: the code, or the signal. *)
Inductive ExitStatus : Type := Exited (code : Z) | Signaled (signal : Z).
Definition code (s : ExitStatus) : option Z :=
  match s with Exited c => Some c | Signaled _ => None end.

Definition wait_with_timeout (try_wait : nat → result IoError (option ExitStatus)) (delay : nat → Z)
    (timeout : Z) : prog (Z * nat) unit (option ExitStatus) :=
  r ← wait_for POLL_INTERVAL try_wait delay timeout;
  mret (match r with Some (Ok status) => Some status | _ => None end).

(** ** Logs *)

(** The continuation bytes of UTF-8. *)
Definition is_continuation (c : ascii) : bool :=
  ((128 <=? N_of_ascii c) && (N_of_ascii c <? 192))%N.

(** [&s[cut..]] panics if [cut] is inside a character. *)
Definition slice_from (s : string) (cut : nat) : panics string :=
  match String.get cut s with
  | Some c => if is_continuation c then Err "byte index is not a char boundary"%string
              else Ok (String.substring cut (String.length s - cut) s)
  | None => Ok EmptyString
  end.

Definition read_log_tail (files : Files) (path : string) (max_bytes : nat) : panics string :=
  let s := default EmptyString (read_to_string files path) in
  if decide (String.length s ≤ max_bytes)%nat then Ok s
  else
    let cut := (String.length s - max_bytes)%nat in
    tail ← slice_from s cut;
    Ok ("…(log truncated)" +:+ String newline tail)%string.

Definition read_log_split (files : Files) (path : string) : string * string :=
  (default EmptyString (read_to_string files path), EmptyString).

(** ** Child processes *)
Record ExitObservation : Type := mkExit {
  status : ExitStatus;
  stdout : string;
  stderr : string;
  role : string
}.

Definition CRASH_EXIT_CODE : Z := 99.

Definition stdout_and_stderr (o : ExitObservation) : string :=
  if decide (stderr o = EmptyString) then stdout o
  else if decide (stdout o = EmptyString) then stderr o
  else (stdout o +:+ String newline (stderr o))%string.

Definition assert_crashed_at (o : ExitObservation) (f : Fixture) (files : Files) (expected_point : string)
    : panics unit :=
  if decide (code (status o) ≠ Some CRASH_EXIT_CODE) then
    Err ("did not exit via crash injection" +:+ stdout_and_stderr o)%string
  else
    let observed :=
      default EmptyString
        (read_to_string files
           (path_join (fixture_markers f) ("crashed-" +:+ role o +:+ ".marker")%string)) in
    if decide (observed ≠ expected_point) then
      Err ("crashed at unexpected point" +:+ stdout_and_stderr o)%string
    else Ok tt.

Definition assert_clean_exit (o : ExitObservation) : panics unit :=
  if decide (code (status o) ≠ Some 0) then Err ("did not exit cleanly" +:+ stdout_and_stderr o)%string
  else Ok tt.

(** A [Process]: its handle while nothing took it, and what was done to the
    child through it. *)
Inductive ChildCall : Type := CKill (pid : Z) | CWait (pid : Z) | CReaped (pid : Z) (s : ExitStatus).
Record ProcessWorld : Type := mkProc {
  proc_child : option Z;
  proc_pid : Z;
  proc_role : string;
  proc_log : string;
  proc_calls : list ChildCall
}.

Definition take_child (p : ProcessWorld) : ProcessWorld :=
  mkProc None (proc_pid p) (proc_role p) (proc_log p) (proc_calls p).
Definition call (c : ChildCall) (p : ProcessWorld) : ProcessWorld :=
  mkProc (proc_child p) (proc_pid p) (proc_role p) (proc_log p) (proc_calls p ++ [c]).

Definition kill : prog ProcessWorld string unit :=
  child ← gets proc_child;
  match child with
  | Some c =>
      _ ← modify take_child;
      _ ← modify (call (CKill c));
      modify (call (CWait c))
  | None => mret tt
  end.

Definition process_drop : prog ProcessWorld string unit := kill.

Definition alive (kill0 : Z → result Errno unit) (p : ProcessWorld) : bool := is_alive kill0 (proc_pid p).
Definition tail_log (files : Files) (p : ProcessWorld) : panics string := read_log_tail files (proc_log p) 4096.

(** [wait_exit] consumes the handle, so its drop runs at the end.  [waited] is
    what [wait_with_timeout] answered. *)
Definition wait_exit (waited : option ExitStatus) (files : Files) : prog ProcessWorld string ExitObservation :=
  r ← attempt (
    child ← gets proc_child;
    match child with
    | None => raise "Process::wait_exit called twice"%string
    | Some c =>
        _ ← modify take_child;
        match waited with
        | Some st =>
            _ ← modify (call (CReaped c st));
            log ← gets proc_log;
            role ← gets proc_role;
            let '(out, err) := read_log_split files log in
            mret (mkExit st out err role)
        | None =>
            _ ← modify (call (CKill c));
            _ ← modify (call (CWait c));
            p ← gets id;
            tail ← lift (tail_log files p);
            raise ("did not exit" +:+ tail)%string
        end
    end);
  _ ← process_drop;
  lift r.

(** [PrimitiveBuilder::spawn] after the spawn: the process comes up, or a
    panic drops it. *)
Definition await_serving (serving : bool) (files : Files) : prog ProcessWorld string unit :=
  if serving then mret tt
  else
    p ← gets id;
    _ ← process_drop;
    tail ← lift (tail_log files p);
    raise ("did not write serving.marker" +:+ tail)%string.

(** [SupervisorBuilder::run] after the spawn.  The child is a bare [Child]: no
    drop kills it. *)
Definition supervisor_run (pid : Z) (waited : option ExitStatus) (files : Files) (log : string)
    : panics ExitObservation * list ChildCall :=
  match waited with
  | Some st => let '(out, err) := read_log_split files log in (Ok (mkExit st out err "supervisor"), [CReaped pid st])
  | None => (Err "supervisor did not exit"%string, [])
  end.

(** ** Lemmas *)

Lemma drop_taken me w : flock_holder w = None → drop_flock (set_holder (Some me) w) = w.
Proof. destruct w. simpl. by intros ->. Qed.

(** A probe that can open the lock file. *)
Lemma flock_state_run fs kill me w :
  open_lock_file fs = Ok tt → flock_failure fs = None →
  flock_state true fs kill me w =
    (Ok (match flock_holder w with
         | None => Free
         | Some _ => let pid := default 0 (read_pidfile w) in Held pid (bool_decide (0 < pid) && is_alive kill pid)
         end), w).
Proof.
  intros Ho Hf. unfold flock_state, flock_exclusive_nonblock, mbind, prog_bind, gets, modify. simpl.
  rewrite Ho, Hf. destruct (flock_holder w) eqn:Hh; [done|]. cbv beta iota. by rewrite drop_taken.
Qed.

(** What the pidfile says while its owner is published. *)
Lemma read_published w me : 0 ≤ me ≤ i32_max → pid_file w = Some (pid_text me) → read_pidfile w = Some me.
Proof. intros. by apply read_pid_text. Qed.

(** Each child is waited for exactly once. *)
Definition waits (c : ChildCall) : bool := match c with CKill _ => false | CWait _ | CReaped _ _ => true end.
Definition waited_once (p : ProcessWorld) : Prop :=
  length (List.filter waits (proc_calls p)) = match proc_child p with Some _ => 0%nat | None => 1%nat end.

Lemma filter_waits_snoc l c :
  length (List.filter waits (l ++ [c])) = (length (List.filter waits l) + if waits c then 1 else 0)%nat.
Proof. rewrite List.filter_app, length_app. simpl. by destruct (waits c). Qed.

Lemma kill_waits p : waited_once p → ∃ p', kill p = (Ok tt, p') ∧ proc_child p' = None ∧ waited_once p'.
Proof.
  unfold waited_once, kill, mbind, prog_bind, gets, modify. intros Hp.
  destruct (proc_child p) as [c|] eqn:Hc; [|by exists p; rewrite Hc].
  eexists. split; [done|]. simpl. split; [done|]. rewrite !filter_waits_snoc, Hp. done.
Qed.

Lemma slice_ascii s cut :
  Forall (λ c, is_continuation c = false) (chars s) → is_ok (slice_from s cut) = true.
Proof.
  intros Hs. unfold slice_from. destruct (String.get cut s) as [c|] eqn:Hc; [|done].
  enough (is_continuation c = false) as -> by done. revert cut Hc.
  induction s as [|a s IH]; intros cut Hc; [by destruct cut|]. apply Forall_cons in Hs as [Ha Hs].
  destruct cut as [|cut]; [by injection Hc as <-|]. by eapply IH.
Qed.

Lemma read_log_tail_ascii files path max :
  (∀ s, files !! path = Some s → Forall (λ c, is_continuation c = false) (chars s)) →
  is_ok (read_log_tail files path max) = true.
Proof.
  intros Hs. unfold read_log_tail. case_decide; [done|]. unfold read_to_string in *.
  destruct (files !! path) as [s|] eqn:Hf; [|simpl in *; lia]. simpl in *.
  unfold to_str in *. destruct (utf8_valid _); simpl in *; [|lia].
  pose proof (slice_ascii s (String.length s - max) (Hs s eq_refl)) as Hok.
  by destruct (slice_from s _).
Qed.

(** ** Properties *)

(** The flock probe tells the truth.  In every state that processes
    acquiring, dropping and losing the lock can reach, a probe that can open
    the lock file changes nothing; it says [Free] exactly if no process has the
    lock; and from the moment the one holder has published its pid until its
    guard goes, it says [Held] with that pid, and alive exactly if the kernel
    lets the harness signal it, so [assert_held_by_live_process] passes then
    and [assert_free] does not. *)
Theorem flock_probe_truthful (e : Ensemble) (fs : FsAnswers) (kill : Z → result Errno unit) (me : Z) :
  reachable e → open_lock_file fs = Ok tt → flock_failure fs = None →
  ∃ s, flock_state true fs kill me (dir e) = (Ok s, dir e) ∧
    (assert_free s = Ok tt ↔ stages e = ∅) ∧
    (∀ p, 0 < p ≤ i32_max → stages e !! p = Some Published ∨ stages e !! p = Some Holding →
       s = Held p (is_ok (kill p)) ∧
       (assert_held_by_live_process s = Ok tt ↔ kill p = Ok tt)).
Proof.
  intros Hr Ho Hf. destruct (reachable_inv e Hr) as [H1 H2].
  eexists. split; [by apply flock_state_run|]. split.
  - destruct (flock_holder (dir e)) as [q|] eqn:Hq; simpl; split; intros Hx; try done.
    + destruct (proj2 (H1 q) eq_refl) as [st Hst]. by rewrite Hx, lookup_empty in Hst.
    + apply map_empty. intros p. destruct (stages e !! p) eqn:Hp; [|done].
      pose proof (proj1 (H1 p) (ex_intro _ _ Hp)). done.
  - intros p Hp Hs.
    assert (flock_holder (dir e) = Some p) as -> by (apply H1; destruct Hs as [-> | ->]; eauto).
    rewrite (read_published _ p ltac:(lia) (H2 p Hs)). simpl.
    rewrite bool_decide_eq_true_2 by lia. unfold is_alive. rewrite decide_False by lia.
    simpl. destruct (kill p) as [[]|err]; simpl; by split.
Qed.

Lemma flock_probe_truthful_witness :
  let w := mkLockDir (Some 42) (Some (pid_text 42)) ∅ in
  let e := mkEnsemble w {[ 42 := Holding ]} in
  reachable e ∧
  ∃ s, flock_state true fs_ok (λ _, Ok tt) 7 (dir e) = (Ok s, dir e) ∧ s = Held 42 true ∧
    assert_held_by_live_process s = Ok tt.
Proof.
  intros w e.
  assert (reachable e) as He.
  { assert (reachable (mkEnsemble (mkLockDir None None ∅) ∅)) as H0
      by (exists (mkEnsemble (mkLockDir None None ∅) ∅); split; [by split|reflexivity]).
    destruct H0 as (e0 & Hi & Hr). exists e0. split; [exact Hi|]. etransitivity; [exact Hr|].
    exact (acquire_steps fs_ok 42 "/d" (mkLockDir None None ∅) ∅ eq_refl). }
  split; [exact He|].
  destruct (flock_probe_truthful e fs_ok (λ _, Ok tt) 7 He eq_refl eq_refl) as (s & Hs & _ & Hp).
  destruct (Hp 42 ltac:(unfold i32_max; lia) (or_intror eq_refl)) as [H1 H2].
  exists s. split; [exact Hs|]. split; [exact H1|]. by apply H2.
Defined.

(** The probe takes the flock for a moment, although its comment calls it
    non-disruptive: a cold start in that moment is refused. *)
Example probe_refuses_a_cold_start :
  let w := mkLockDir None None ∅ in
  let probing := (flock_exclusive_nonblock fs_ok 7 w).2 in
  (flock_state true fs_ok (λ _, Ok tt) 7 w).1 = Ok Free ∧
  (acquire fs_ok 42 "/d" w).1 = Ok (mkDataDirLock 42 "/d" (path_join "/d" PID_FILE)) ∧
  (acquire fs_ok 42 "/d" probing).1 = Err (Raise (LockHeld 0)).
Proof. by vm_compute. Qed.

(** A marker that is there at the last poll is seen; a poll never overruns by
    more than one interval and one oversleep. *)
Lemma wait_marker_bounded (appeared : nat → bool) (delay : nat → Z) (D timeout t : Z) (n : nat) :
  (∀ k, 0 ≤ delay k ≤ D) →
  ∃ b t' n', wait_marker appeared delay timeout (t, n) = (Ok b, (t', n')) ∧ (n ≤ n')%nat ∧
    t' ≤ t `max` (t + timeout + POLL_INTERVAL + D) ∧ appeared n' = b ∧
    (b = false → t + timeout ≤ t') ∧ (∀ k, (n ≤ k < n')%nat → appeared k = false).
Proof.
  intros Hd. unfold wait_marker, mbind, prog_bind.
  destruct (wait_spec POLL_INTERVAL (λ n, Ok (if appeared n then Some tt else None)) delay D ltac:(done) Hd
    timeout t n) as (r & t' & n' & -> & Hn & _ & Ht & Hs & Hr & Hk).
  eexists _, t', n'. split; [done|]. split_and!; [done|done| | |].
  - destruct r as [[[]|e]|]; simpl in Hs; by destruct (appeared n').
  - destruct r as [[[]|e]|]; simpl in Hs; [done| |intros _; by apply Hr]. by destruct (appeared n').
  - intros k Hk'. specialize (Hk k Hk'). by destruct (appeared k).
Qed.

(** [wait_exit] takes the exit status if there was one, and reaps the child
    exactly once in any case; what runs after it — a drop, another [kill] —
    finds nothing to do. *)
Lemma wait_exit_reaps waited files p pid :
  proc_child p = Some pid → waited_once p →
  ∃ r p', wait_exit waited files p = (r, p') ∧ proc_child p' = None ∧ waited_once p' ∧
    (∀ st, waited = Some st → ∃ o, r = Ok o ∧ status o = st ∧ CKill pid ∉ drop (length (proc_calls p)) (proc_calls p')) ∧
    (waited = None → ∃ msg, r = Err (Raise msg)).
Proof.
  intros Hc Hw. unfold waited_once in Hw. rewrite Hc in Hw.
  unfold wait_exit, process_drop, kill, tail_log, id, mbind, prog_bind, attempt, gets, modify, raise, lift. rewrite Hc.
  destruct waited as [st|]; simpl.
  - eexists _, _. split; [done|]. unfold waited_once. simpl. split_and!; [done| | |done].
    + rewrite filter_waits_snoc, Hw. done.
    + intros st' [= <-]. eexists. split; [done|]. split; [done|]. rewrite drop_app_length. set_solver.
  - destruct (read_log_tail files (proc_log p) 4096) as [tail|e]; simpl; eexists _, _; (split; [done|]);
      unfold waited_once; simpl; (split_and!; [done| |done|eauto]); by rewrite !filter_waits_snoc, Hw.
Qed.

(** A primitive that does not come up is killed and reaped. *)
Lemma await_serving_reaps serving files p pid :
  proc_child p = Some pid → waited_once p →
  let '(r, p') := await_serving serving files p in
  if serving then r = Ok tt ∧ p' = p
  else is_ok r = false ∧ proc_calls p' = proc_calls p ++ [CKill pid; CWait pid] ∧ waited_once p'.
Proof.
  intros Hc Hw. unfold await_serving. destruct serving; [done|].
  destruct (kill_waits p Hw) as (p' & Hk & _ & Hw'). unfold mbind, prog_bind, gets, process_drop, id. rewrite Hk.
  assert (proc_calls p' = proc_calls p ++ [CKill pid; CWait pid]) as Hcalls.
  { revert Hk. unfold kill, mbind, prog_bind, gets, modify. rewrite Hc. intros [= <-]. simpl. by rewrite <- app_assoc. }
  by destruct (tail_log files p).
Qed.

(** A supervisor that does not exit in time is left running. *)
Example slow_supervisor_leaks : supervisor_run 7 None ∅ "/t/logs/supervisor.log" =
  (Err "supervisor did not exit"%string, []).
Proof. done. Qed.

(** The diagnostic of a child that did not exit can panic on its own: a log in
    which a character of several bytes lies across the cut. *)
Example tail_log_panics :
  let files : Files := {[ "/t/logs/primitive.log" := "aé—b" ]}%string in
  is_ok (read_log_tail files "/t/logs/primitive.log" 3) = false ∧
  read_log_tail files "/t/logs/primitive.log" 4 = Ok ("…(log truncated)" +:+ String newline "—b")%string.
Proof. by vm_compute. Qed.
