(* ===== verification/Crashed.v ===== *)
(** * What a crash leaves behind

    [crash.rs] ends the process at a crash point and leaves a marker that names
    it; [assert_crashed_at] of the harness reads both.  Here: whatever
    [perform_handoff], [resume_from_journal] and the test supervisor do, they
    exit in no other way than at the crash point of their environment, with
    its marker the last file written. *)
From stdpp Require Import base tactics option list numbers strings gmap.
From S2P Require Import Prelude Contract Errors Protocol Sock Fd Channel Role Crash Bind StateJournal Supervisor SupervisorSafety Inheritance SupervisorBin Harness Probes.
Local Open Scope Z_scope.

(** ** Exits *)

(** [exits P m]: if [m] ends the process, it does so in [P]. *)
Definition exits {W E A} (P : Z → W → Prop) (m : prog W E A) : Prop :=
  ∀ w code w', m w = (Err (Exit code), w') → P code w'.

Section rules.
Context {W E : Type} (P : Z → W → Prop).

Lemma exits_bind {A B} (m : prog W E A) (f : A → prog W E B) :
  exits P m → (∀ a, exits P (f a)) → exits P (m ≫= f).
Proof.
  intros Hm Hf w code w'. unfold mbind, prog_bind. destruct (m w) as [[a|e] w1] eqn:Hr.
  - apply Hf.
  - intros [= -> ->]. by eapply Hm.
Qed.

Lemma exits_attempt {A} (m : prog W E A) : exits P m → exits P (attempt m).
Proof.
  intros Hm w code w'. unfold attempt. destruct (m w) as [[a|[e|c|]] w1] eqn:Hr; intros [=]; subst.
  by eapply Hm.
Qed.

Lemma exits_lift {A} (r : result E A) : exits P (lift r).
Proof. intros w code w'. by destruct r. Qed.
Lemma exits_ret {A} (a : A) : exits P (mret a : prog W E A).
Proof. done. Qed.
Lemma exits_raise {A} (e : E) : exits P (raise e : prog W E A).
Proof. done. Qed.
Lemma exits_stuck {A} : exits P (stuck : prog W E A).
Proof. done. Qed.
Lemma exits_gets {A} (f : W → A) : exits P (gets f : prog W E A).
Proof. done. Qed.
Lemma exits_modify (f : W → W) : exits P (modify f : prog W E unit).
Proof. done. Qed.
End rules.

#[export] Hint Resolve exits_bind exits_attempt exits_lift exits_ret exits_raise exits_stuck exits_gets
  exits_modify : handoff.

#[export] Hint Extern 1 (_ ≠ EmptyString) => discriminate : handoff.

(** One step through a program's syntax. *)
Ltac exits_step :=
  first
    [ progress intros
    | solve [eauto with handoff]
    | apply exits_bind
    | apply exits_attempt
    | match goal with
      | |- exits _ (match ?x with _ => _ end) => destruct x
      | |- exits _ (if ?x then _ else _) => destruct x
      | |- exits _ (let '_ := ?x in _) => destruct x
      end ].
Ltac exits := repeat exits_step.

(** The crash point of the environment fired: the marker is the last file. *)
Definition crashed_with {W} (markers_of : W → list (string * string)) (env : CrashEnv) (code : Z) (w : W) : Prop :=
  code = 99 ∧ ∃ point, HANDOFF_CRASH_AT env = Some point ∧ crash_points env = true ∧ point ≠ EmptyString ∧
    ∀ dir, HANDOFF_CRASH_MARKER_DIR env = Some dir →
      last (markers_of w) =
        Some (path_join dir ("crashed-" +:+ default "unknown" (HANDOFF_CRASH_ROLE env) +:+ ".marker"), point)%string.

Lemma maybe_crash_exits {W E} (markers_of : W → list (string * string)) env write point :
  point ≠ EmptyString →
  (∀ path text w, markers_of (write path text w) = markers_of w ++ [(path, text)]) →
  exits (crashed_with markers_of env) (maybe_crash (E := E) env write point).
Proof.
  intros Hne Hw w code w'. unfold maybe_crash. destruct (crash_points env) eqn:Hp; [|done]. simpl.
  destruct (HANDOFF_CRASH_AT env) as [want|] eqn:Hat; [|done].
  destruct (decide (want = point)) as [->|Hx]; [rewrite decide_False by auto|by rewrite decide_True].
  unfold mbind, prog_bind. destruct (HANDOFF_CRASH_MARKER_DIR env) as [dir|] eqn:Hd; simpl; intros [= <- <-];
    (split; [done|]; exists point; do 3 (split; [done|])); intros dir' Hd'; rewrite Hd in Hd'; [|done].
  injection Hd' as <-. by rewrite Hw, last_snoc.
Qed.

(** ** The supervisor *)
Section supervisor.
Context {T : Type} `{ControlChannel T} `{!ChannelLaws T} `{JournalCodec} (env : SEnv T).
Abbreviation P := (crashed_with (@markers T) (crash env)).

Lemma crash_here_exits point : point ≠ EmptyString → exits P (crash_here env point).
Proof. intros. by apply maybe_crash_exits. Qed.

Lemma on_stream_exits {A} p (f : T → A * T) k : exits P (on_stream p f k).
Proof. intros w code w'. unfold on_stream. destruct (stream_of p w) as [t|]; [|done]. by destruct (f t). Qed.

Lemma set_read_timeout_exits p d : exits P (set_read_timeout p d).
Proof. apply on_stream_exits. Qed.
Lemma poll_exits p : exits P (poll env p).
Proof. apply on_stream_exits. Qed.

Lemma on_journal_exits {A} (f : JournalAnswers → prog JournalFs Error A) :
  (∀ a, exits (λ _ _, False) (f a)) → exits P (on_journal env f).
Proof.
  intros Hf w code w'. unfold on_journal. specialize (Hf (journal_answers env (calls w)) (jfs w)).
  destruct (f _ _) as [[a|[e|c|]] j]; try done. by destruct (Hf c j eq_refl).
Qed.

Lemma write_atomic_exits j : exits P (on_journal env (λ a, StateJournal.write_atomic a j)).
Proof. apply on_journal_exits. intros a. unfold StateJournal.write_atomic, fsync_dir. exits. Qed.
Lemma read_exits : exits P (on_journal env StateJournal.read).
Proof. apply on_journal_exits. intros a. unfold StateJournal.read. exits. Qed.
Lemma delete_exits : exits P (on_journal env StateJournal.delete).
Proof. apply on_journal_exits. intros a. unfold StateJournal.delete. exits. Qed.

Lemma kill_and_reap_exits : exits P (kill_and_reap env).
Proof. intros w code w'. unfold kill_and_reap. by destruct (guard w). Qed.
Lemma disarm_exits : exits P (disarm (T := T)).
Proof. intros w code w'. unfold disarm. by destruct (guard w). Qed.
Lemma read_would_block_exits : exits P (read_would_block env).
Proof. done. Qed.

#[local] Hint Resolve crash_here_exits on_stream_exits set_read_timeout_exits poll_exits write_atomic_exits
  read_exits delete_exits kill_and_reap_exits disarm_exits read_would_block_exits : handoff.

Lemma send_exits p v m : exits P (send env p v m).
Proof. unfold send. exits. Qed.
Lemma blocking_exits {A} (x : result IoError A) : exits P (blocking env x).
Proof. unfold blocking. exits. Qed.
Lemma arm_exits p d : exits P (arm_recv_timeout env p d).
Proof. unfold arm_recv_timeout. exits. Qed.
Lemma journal_set_exits id ph pid t : exits P (journal_set env id ph pid t).
Proof. unfold journal_set. exits. Qed.
Lemma journal_clear_exits : exits P (journal_clear env).
Proof. unfold journal_clear. exits. Qed.
Lemma abort_exits v id reason : exits P (send_best_effort_abort env v id reason).
Proof. unfold send_best_effort_abort, send. exits. Qed.

#[local] Hint Resolve send_exits blocking_exits arm_exits journal_set_exits journal_clear_exits abort_exits : handoff.

Lemma hello_exits p id role pid : exits P (exchange_hello_as_supervisor env p id role pid).
Proof. unfold exchange_hello_as_supervisor. exits. Qed.

Lemma read_until_loop_exits fuel p deadline awaiting pred :
  exits P (read_until_loop env fuel p deadline awaiting pred).
Proof. induction fuel as [|fuel IH]; cbn [read_until_loop]; unfold now, has_partial; exits. Qed.

Lemma read_until_exits p timeout awaiting pred : exits P (read_until env p timeout awaiting pred).
Proof. pose proof read_until_loop_exits. unfold read_until, now, fuel_for. exits. Qed.

Lemma seal_wait_loop_exits fuel deadline v id : exits P (seal_wait_loop env fuel deadline v id).
Proof.
  induction fuel as [|fuel IH]; cbn [seal_wait_loop]; unfold now, has_partial, seal_gave_up; exits.
Qed.

#[local] Hint Resolve hello_exits read_until_exits seal_wait_loop_exits : handoff.

Lemma handoff_body_exits spec : exits P (handoff_body env spec).
Proof.
  unfold handoff_body, connect_incumbent, start_successor, drain_phase, seal_phase, seal_failed, begin_phase,
    commit_phase, abort_phase, h_journal, remaining_until, now, fuel_for, Lock.io. exits.
Qed.

Lemma perform_handoff_exits spec : exits P (perform_handoff env spec).
Proof. pose proof handoff_body_exits. unfold perform_handoff, drop_locals. exits. Qed.

Lemma resume_exits : exits P (resume_from_journal env).
Proof. unfold resume_from_journal. exits. Qed.
End supervisor.

(** ** The test supervisor *)
Section test_supervisor.
Context {T : Type} `{ControlChannel T} `{!ChannelLaws T} `{JournalCodec}.
Context (sz : Z) (vars : gmap string string) (answers : SEnv T).
Abbreviation P := (crashed_with (@markers T) (crash_env (crash_points (crash answers)) vars)).

Lemma context_exits {A} ctx (m : prog (World T) Error A) : exits P m → exits P (context ctx m).
Proof.
  intros Hm w code w'. unfold context. destruct (m w) as [[a|[e|c|]] w1] eqn:Hr; try done.
  intros [= <- <-]. by eapply Hm.
Qed.

Lemma test_marker_exits name : exits P (test_marker (T := T) vars name).
Proof. unfold test_marker. exits. Qed.

Lemma test_main_exits : exits P (test_main sz vars answers).
Proof.
  pose proof test_marker_exits as Hm.
  assert (∀ s, exits P (context "resume_from_journal" (resume_from_journal (test_env vars answers s)))) as Hr
    by (intros s; apply context_exits; exact (resume_exits (test_env vars answers s))).
  assert (∀ s spec, exits P (context "perform_handoff" (perform_handoff (test_env vars answers s) spec))) as Hp
    by (intros s spec; apply context_exits; exact (perform_handoff_exits (test_env vars answers s) spec)).
  unfold test_main, test_run. exits.
Qed.
End test_supervisor.

(** ** The harness's verdict *)

(** The files after the writes [ms]: a later one replaces an earlier one. *)
Definition written (files : Files) (ms : list (string * string)) : Files :=
  foldl (λ m '(path, text), <[path := text]> m) files ms.

Lemma written_last files ms path text : last ms = Some (path, text) → written files ms !! path = Some text.
Proof. intros (ms' & ->)%last_Some. unfold written. rewrite foldl_snoc. apply lookup_insert_eq. Qed.

(** What the test supervisor reads of its crash variables. *)
Lemma supervisor_crash_env f rust_log b parent cp :
  textual (crash_at_supervisor b) → to_str (fixture_markers f) = Some (fixture_markers f) →
  crash_env cp (child_env parent (supervisor_command f rust_log b)) =
    mkCrashEnv cp (Some (default EmptyString (crash_at_supervisor b))) (Some (fixture_markers f))
      (Some "supervisor"%string).
Proof.
  intros Ht Hm. unfold crash_env, env_var.
  assert (∀ k v, (k, v) ∈ [("HANDOFF_CRASH_AT", default "" (crash_at_supervisor b));
      ("HANDOFF_CRASH_ROLE", "supervisor"); ("HANDOFF_CRASH_MARKER_DIR", fixture_markers f)]%string →
    child_env parent (supervisor_command f rust_log b) !! k = Some v) as Hsees.
  { intros k v Hin. apply child_sees; [apply (bool_decide_unpack _); by vm_compute|].
    revert Hin. rewrite !elem_of_cons, elem_of_nil. tauto. }
  rewrite (Hsees "HANDOFF_CRASH_AT"%string (default ""%string (crash_at_supervisor b))),
    (Hsees "HANDOFF_CRASH_ROLE"%string "supervisor"%string),
    (Hsees "HANDOFF_CRASH_MARKER_DIR"%string (fixture_markers f)) by listed.
  simpl. rewrite to_str_default by done. by rewrite Hm.
Qed.

Lemma assert_crashed_run o f files point :
  status o = Exited 99 → utf8_valid (String.list_byte_of_string point) = true →
  files !! path_join (fixture_markers f) ("crashed-" +:+ role o +:+ ".marker")%string = Some point →
  ∀ expected, assert_crashed_at o f files expected = Ok tt ↔ expected = point.
Proof.
  intros Hs Hv Hf expected. unfold assert_crashed_at. rewrite Hs. simpl.
  unfold read_to_string. rewrite Hf. simpl. unfold to_str. rewrite Hv. simpl.
  case_decide as Hx; [split; [done|congruence]|by split].
Qed.

(** ** Properties *)

(** C17: a crash is attributed to the point that fired and to no other.  The
    test supervisor, started by the harness with whatever crash point the test
    named, against any peers and files: if it ends at a crash point, that is
    the one the test named for it, and [assert_crashed_at] passes for that
    point and for no other; if it ends in any other way, [assert_crashed_at]
    passes for none, whatever markers earlier runs left behind.  (The markers'
    directory is one in which a file can be written.) *)
Theorem crash_is_attributed {T} `{ControlChannel T} `{!ChannelLaws T} `{JournalCodec} (sz : Z) (f : Fixture)
    (rust_log : option string) (b : SupervisorBuilder) (parent : gmap string string) (answers : SEnv T)
    (w : World T) (files : Files) (out err : string) :
  valid_env answers → settled w → trace w = [] →
  textual (crash_at_supervisor b) → to_str (fixture_markers f) = Some (fixture_markers f) →
  let '(r, w') := test_main sz (child_env parent (supervisor_command f rust_log b)) answers w in
  let verdict code expected :=
    assert_crashed_at (mkExit (Exited code) out err "supervisor") f (written files (markers w')) expected in
  match r with
  | Err (Exit code) => ∃ point, crash_at_supervisor b = Some point ∧
      ∀ expected, verdict code expected = Ok tt ↔ expected = point
  | Ok code => ∀ expected, is_ok (verdict code expected) = false
  | Err _ => False
  end.
Proof.
  intros Hv Hs Ht Htext Hm. set (vars := child_env parent (supervisor_command f rust_log b)).
  pose proof (test_run_spec sz vars answers w Hv Hs Ht) as Hrun.
  pose proof (test_main_exits sz vars answers w) as Hex.
  unfold vars in Hex. rewrite supervisor_crash_env in Hex by done. fold vars in Hex.
  unfold test_main, mbind, prog_bind, attempt in *. unfold wp in Hrun.
  destruct (test_run sz vars answers w) as [[c|[e|c|]] w']; simpl in *; [..|done].
  - intros expected. destruct Hrun as [_ [[-> _]|[-> _]]]; done.
  - done.
  - destruct (Hex c w' eq_refl) as (-> & point & Hat & _ & Hne & Hmark). simpl in *.
    destruct (crash_at_supervisor b) as [p|] eqn:Hb; [|by injection Hat as <-]. injection Hat as ->.
    exists point. split; [done|]. apply assert_crashed_run; [done| |].
    + specialize (Htext point eq_refl). unfold to_str in Htext. by destruct (utf8_valid _).
    + apply written_last. by apply Hmark.
Qed.

Module CrashDemo.
Definition builder : SupervisorBuilder := crash_supervisor_at "s-after-commit-sent" supervisor_builder.
Definition answers : SEnv Script.script :=
  let e := SupervisorDemo.env SupervisorDemo.sealed SupervisorDemo.ready in
  mkSEnv (own_pid e) (has_journal e) (connect e) (configure_o e) (make_pair e) (spawn_child e) (configure_n e)
    (new_handoff_id e) (delay e) (peek e) (journal_answers e) (unix_ms e) (show_error e) (show_id e)
    (mkCrashEnv true None None None).
Lemma answers_valid : valid_env answers.
Proof. by split. Qed.
Definition vars : gmap string string :=
  child_env HarnessDemo.parent (supervisor_command HarnessDemo.fixture None builder).
(** An earlier run crashed elsewhere. *)
Definition files : Files := {[ "/t/markers/crashed-supervisor.marker" := "s-after-o-hello" ]}%string.
End CrashDemo.

Lemma crash_is_attributed_witness :
  let '(r, w') := test_main 108 CrashDemo.vars CrashDemo.answers SupervisorDemo.start in
  r = Err (Exit 99) ∧
  ∀ expected, assert_crashed_at (mkExit (Exited 99) "" "" "supervisor") HarnessDemo.fixture
      (written CrashDemo.files (markers w')) expected = Ok tt ↔ expected = "s-after-commit-sent"%string.
Proof.
  pose proof (crash_is_attributed 108 HarnessDemo.fixture None CrashDemo.builder HarnessDemo.parent
    CrashDemo.answers SupervisorDemo.start CrashDemo.files "" "" CrashDemo.answers_valid
    SupervisorDemo.start_settled eq_refl ltac:(intros p [= <-]; reflexivity) eq_refl) as H.
  fold CrashDemo.vars in H.
  assert ((test_main 108 CrashDemo.vars CrashDemo.answers SupervisorDemo.start).1 = Err (Exit 99)) as Hr
    by (vm_compute; reflexivity).
  destruct (test_main 108 CrashDemo.vars CrashDemo.answers SupervisorDemo.start) as [r w'].
  simpl in Hr. subst r. destruct H as (point & [= <-] & H). split; [reflexivity|exact H].
Defined.
