(* ===== verification/CrashedPrimitive.v ===== *)
(** * What a crash of the primitive leaves behind

    As [Crashed], for the incumbent's [serve] and for the test primitive's two
    roles; and what the harness then concludes. *)
From stdpp Require Import base tactics option list numbers strings gmap.
From S2P Require Import Prelude Errors Protocol Sock Fd Lock Channel Role Bind Crash Incumbent Primitive.
From S2P Require Harness Probes Inheritance Supervisor IncumbentSafety PrimitiveSafety.
From S2P Require Import Crashed.
Local Open Scope Z_scope.

(** ** The incumbent *)
Section incumbent.
Context {T C : Type} `{ControlChannel T} `{Drainable C} `{!ChannelLaws T} (env : Env).
Abbreviation P := (crashed_with (@markers T C) (crash env)).

Lemma inc_crash_here_exits point : point ≠ EmptyString → exits P (Incumbent.crash_here env point).
Proof. intros. by apply maybe_crash_exits. Qed.
Lemma inc_send_exits v m : exits P (Incumbent.send (C := C) v m).
Proof. intros w code w'. unfold Incumbent.send. destruct (ch_write v m _) as [[] t]; done. Qed.
Lemma inc_poll_exits : exits P Incumbent.poll.
Proof. intros w code w'. unfold Incumbent.poll. by destruct (ch_poll _). Qed.
Lemma inc_timeout_exits d : exits P (Incumbent.set_read_timeout d).
Proof. intros w code w'. unfold Incumbent.set_read_timeout. by destruct (ch_set_read_timeout _ _). Qed.
Lemma pass_points_exits points : Forall (λ p, p ≠ EmptyString) points → exits P (pass_points env points).
Proof.
  induction 1 as [|p points Hp _ IH]; cbn [pass_points]; [apply exits_ret|].
  by apply exits_bind; [apply inc_crash_here_exits|].
Qed.
Lemma hook_exits {A} e (hook : C → Result A * C) : exits P (hook_returns (T := T) e hook).
Proof. intros w code w'. unfold hook_returns. by destruct (hook _) as [[] c]. Qed.
Lemma call_drain_exits d : exits P (call_drain env d).
Proof.
  pose proof (points_named (C := C)) as [Hp _]%Forall_app.
  apply exits_bind; [by apply pass_points_exits|intros _; apply hook_exits].
Qed.
Lemma call_seal_exits : exits P (call_seal env).
Proof.
  pose proof (points_named (C := C)) as [_ Hp]%Forall_app.
  apply exits_bind; [by apply pass_points_exits|intros _; apply hook_exits].
Qed.
Lemma call_resume_exits : exits P call_resume.
Proof. apply hook_exits. Qed.
Lemma take_lock_exits : exits P (take_lock env).
Proof. intros w code w'. unfold take_lock. by destruct (lock w). Qed.
Lemma put_lock_exits g : exits P (put_lock env g).
Proof. done. Qed.
Lemma sleep_exits d : exits P (sleep env d).
Proof. done. Qed.

(** [DataDirLock::acquire] never exits. *)
Lemma lock_acquire_exits fs me d : exits (λ _ _, False) (Lock.acquire fs me d).
Proof. unfold Lock.acquire, write_pid_atomic, Lock.io. exits. Qed.

Lemma inc_acquire_exits : exits P (acquire env).
Proof.
  intros w code w'. unfold acquire.
  destruct (Lock.acquire _ _ _ _) as [r d] eqn:Hr. intros [= -> <-]. by destruct (lock_acquire_exits _ _ _ _ _ _ Hr).
Qed.

#[local] Hint Resolve inc_crash_here_exits inc_send_exits inc_poll_exits inc_timeout_exits call_drain_exits
  call_seal_exits call_resume_exits take_lock_exits put_lock_exits sleep_exits inc_acquire_exits : handoff.

Lemma heartbeat_loop_exits n v : exits P (heartbeat_loop env n v).
Proof. induction n as [|n IH]; simpl; exits. Qed.
Lemma with_heartbeats_exits {A} v (work : prog (World T C) Error A) :
  exits P work → exits P (run_with_heartbeats env v work).
Proof. intros. pose proof heartbeat_loop_exits. unfold run_with_heartbeats. exits. Qed.

#[local] Hint Resolve with_heartbeats_exits : handoff.

Lemma undo_exits : exits P (undo_handoff env).
Proof. unfold undo_handoff. exits. Qed.

Lemma dispatch_exits v m : exits P (dispatch env v m).
Proof.
  pose proof undo_exits. unfold dispatch, on_prepare, on_seal_request, on_commit, on_resume_after_abort,
    on_abort, on_heartbeat, check_active. exits.
Qed.

Lemma session_loop_exits fuel v : exits P (run_session_loop env fuel v).
Proof. pose proof dispatch_exits. induction fuel as [|fuel IH]; simpl; exits. Qed.

Lemma handle_session_exits : exits P (handle_session env).
Proof. pose proof session_loop_exits. unfold handle_session, hello_exchange, Lock.io. exits. Qed.

Lemma retry_loop_exits fuel deadline : exits P (retry_loop env fuel deadline).
Proof. induction fuel as [|fuel IH]; simpl; exits. Qed.

Lemma recover_exits : exits P (recover env).
Proof. pose proof retry_loop_exits. unfold recover, acquire_with_short_retry. exits. Qed.

Lemma serve_exits accepts : exits P (serve env accepts).
Proof.
  pose proof handle_session_exits. pose proof recover_exits. unfold serve. generalize ACCEPT_BACKOFF_MIN.
  induction accepts as [|c accepts IH]; intros backoff; cbn [serve_loop]; unfold finish; exits.
Qed.
End incumbent.

(** ** Programs that never exit *)
Abbreviation never := (exits (λ _ _, False)).

Lemma kernel_call_never {A} (m : sys A) : never m → never (kernel_call m).
Proof.
  intros Hm w code w'. unfold kernel_call. destruct (m _) as [[a|[e|c|]] k] eqn:Hr; try done.
  by destruct (Hm _ _ _ Hr).
Qed.

Lemma set_cloexec_never fd : never (set_cloexec fd).
Proof. unfold set_cloexec, fcntl_getfd, fcntl_setfd, with_fd. exits. Qed.
Lemma clear_nonblocking_never fd : never (clear_nonblocking fd).
Proof. unfold clear_nonblocking, fcntl_getfl, fcntl_setfl, with_desc, with_fd. exits. Qed.
Lemma configure_never fd r : never (configure_control_stream fd r).
Proof. pose proof set_cloexec_never. unfold configure_control_stream. exits. Qed.

Lemma bind_socket_never sz pid seq a path : never (bind_socket sz pid seq a path).
Proof.
  pose proof @kernel_call_never. pose proof set_cloexec_never.
  unfold bind_socket, remove_file, unix_bind, set_permissions, rename, drop_listener, Lock.io. exits.
Qed.

Lemma bind_replacing_never sz pid seq a removed path l : never (bind_replacing sz pid seq a removed path l).
Proof.
  intros [d n] code w'. unfold bind_replacing.
  destruct (bind_socket sz pid seq a path n) as [[fd|[e|c|]] n'] eqn:Hr; try done.
  by destruct (bind_socket_never _ _ _ _ _ _ _ _ Hr).
Qed.

Section role.
Context {T : Type} `{ControlChannel T}.

Lemma write_frame_never v m : never (write_frame_to v m : prog T Error unit).
Proof. intros t code t'. unfold write_frame_to. by destruct (ch_write v m t) as [[] ?]. Qed.
Lemma read_message_never : never (read_message_from : prog T Error _).
Proof. intros t code t'. unfold read_message_from. by destruct (ch_read_message t) as [[] ?]. Qed.

#[local] Hint Resolve write_frame_never read_message_never : handoff.

Lemma handshake_never pid id l : never (handshake pid id l : prog T Error _).
Proof. unfold handshake. exits. Qed.
Lemma wait_for_begin_never show fuel hs : never (wait_for_begin show fuel hs : prog T Error _).
Proof. induction fuel as [|fuel IH]; simpl; exits. Qed.
Lemma announce_ready_never bg s : never (announce_ready bg s : prog T Error _).
Proof. unfold announce_ready. exits. Qed.

Lemma announce_and_bind_never sz pid seq a removed bg s path l :
  never (announce_and_bind (T := T) sz pid seq a removed bg s path l).
Proof.
  intros [t [d n]] code w'. unfold announce_and_bind.
  destruct (announce_ready bg s t) as [[[]|[e|c|]] t'] eqn:Hr; try done.
  - destruct (bind_after_ready _ _ _ _ _ _ _ _) as [[i|x] dn] eqn:Hb; [done|]. intros [= -> _].
    by destruct (bind_replacing_never _ _ _ _ _ _ _ _ _ _ Hb).
  - by destruct (announce_ready_never _ _ _ _ _ Hr).
Qed.
End role.

Lemma syscall_never {A} (m : sys A) : never m → never (syscall m).
Proof.
  intros Hm p code p'. unfold syscall. destruct (m _) as [[a|[e|c|]] k] eqn:Hr; try done.
  by destruct (Hm _ _ _ Hr).
Qed.

Lemma detect_role_never wt : never (detect_role wt).
Proof.
  assert (∀ fd, never (normalize_inherited_fd fd)) as Hn.
  { intros fd. pose proof @syscall_never. pose proof set_cloexec_never. pose proof clear_nonblocking_never.
    unfold normalize_inherited_fd. exits. }
  assert (∀ n i names map, never (adopt n i names map)) as Ha by (intros n; induction n; simpl; exits).
  pose proof @syscall_never. pose proof configure_never.
  unfold detect_role, read_inherited_listeners, remove_var. exits.
Qed.

(** ** Values that a program leaves alone *)
Definition keeps {W E A X} (f : W → X) (m : prog W E A) : Prop := ∀ w, f (m w).2 = f w.

Section keeps_rules.
Context {W E X : Type} (f : W → X).

Lemma keeps_bind {A B} (m : prog W E A) (k : A → prog W E B) :
  keeps f m → (∀ a, keeps f (k a)) → keeps f (m ≫= k).
Proof.
  intros Hm Hk w. unfold mbind, prog_bind. specialize (Hm w). destruct (m w) as [[a|e] w1]; [|done].
  simpl in Hm. by rewrite Hk.
Qed.
Lemma keeps_ret {A} (a : A) : keeps f (mret a : prog W E A).
Proof. done. Qed.
Lemma keeps_raise {A} (e : E) : keeps f (raise e : prog W E A).
Proof. done. Qed.
Lemma keeps_stuck {A} : keeps f (stuck : prog W E A).
Proof. done. Qed.
Lemma keeps_gets {A} (g : W → A) : keeps f (gets g : prog W E A).
Proof. done. Qed.
End keeps_rules.

#[export] Hint Resolve keeps_bind keeps_ret keeps_raise keeps_stuck keeps_gets : handoff.

Ltac keeps_step :=
  first
    [ progress intros
    | solve [eauto with handoff]
    | apply keeps_bind
    | match goal with
      | |- keeps _ (match ?x with _ => _ end) => destruct x
      | |- keeps _ (if ?x then _ else _) => destruct x
      end ].
Ltac keeps := repeat keeps_step.

(** *** [detect_role] removes variables of its own only *)
Definition scrubbed : list string :=
  [ENV_LISTEN_PID; ENV_LISTEN_FDS; ENV_LISTEN_FDNAMES; ENV_HANDOFF_ROLE; ENV_HANDOFF_SOCK_FD].

Lemma detect_role_keeps x wt : x ∉ scrubbed → keeps (var x) (detect_role wt).
Proof.
  intros Hx.
  assert (∀ A (m : sys A), keeps (var x) (syscall m)) as Hsys.
  { intros A m p. unfold syscall. by destruct (m (kern p)) as [[a|[e|c|]] k]. }
  assert (∀ fd, keeps (var x) (normalize_inherited_fd fd)) as Hn by (unfold normalize_inherited_fd; keeps).
  assert (∀ n i names map, keeps (var x) (adopt n i names map)) as Ha by (intros n; induction n; simpl; keeps).
  assert (∀ y, y ∈ scrubbed → keeps (var x) (remove_var y)) as Hr.
  { intros y Hy p. unfold remove_var, modify, var. simpl. apply lookup_delete_ne. by intros ->. }
  pose proof (Hr ENV_LISTEN_PID ltac:(set_solver)). pose proof (Hr ENV_LISTEN_FDS ltac:(set_solver)).
  pose proof (Hr ENV_LISTEN_FDNAMES ltac:(set_solver)). pose proof (Hr ENV_HANDOFF_ROLE ltac:(set_solver)).
  pose proof (Hr ENV_HANDOFF_SOCK_FD ltac:(set_solver)).
  unfold detect_role, read_inherited_listeners. keeps.
Qed.

(** ** The test primitive *)
Section primitive.
Context {T C : Type} `{ControlChannel T} `{Drainable C} `{!ChannelLaws T} (env : PEnv T C).
Abbreviation world := (PWorld T).
Implicit Types w : world.
Abbreviation vars := (Primitive.crash_env env).
Abbreviation P := (λ code w, crashed_with p_markers (vars w) code w).

Lemma prim_crash_here_keeps point : keeps vars (Primitive.crash_here env point).
Proof.
  intros w. unfold Primitive.crash_here.
  destruct (maybe_crash_run (E := string) (vars w) pmark point w) as [-> |(w' & -> & _ & [->|[path ->]])]; done.
Qed.

Lemma prim_crash_here_exits point : point ≠ EmptyString → exits P (Primitive.crash_here env point).
Proof.
  intros Hp w code w' Hr. pose proof (prim_crash_here_keeps point w) as Hk. rewrite Hr in Hk. simpl in Hk.
  rewrite Hk. by apply (maybe_crash_exits (E := string) p_markers (vars w) pmark point Hp ltac:(done) w).
Qed.

Lemma on_chan_keeps {A} ctx (m : prog (traced T) Error A) : keeps vars (on_chan ctx m).
Proof. intros w. unfold on_chan. by destruct (m _). Qed.

Lemma with_context_exit {A} ctx (r : result (exn Error) A) code :
  with_context ctx r = Err (Exit code) → r = Err (Exit code).
Proof. destruct r as [a|[e|c|]]; simpl; congruence. Qed.

Lemma on_chan_exits {A} ctx (m : prog (traced T) Error A) : never m → exits P (on_chan ctx m).
Proof.
  intros Hm w code w'. unfold on_chan. destruct (m _) as [r t] eqn:Hr. intros [= Hx _].
  apply with_context_exit in Hx as ->. by destruct (Hm _ _ _ Hr).
Qed.

Lemma marker_keeps name text : keeps vars (write_marker_text (T := T) name text).
Proof. intros w. unfold write_marker_text, modify. simpl. by destruct (Primitive.env_var "HANDOFF_MARKER_DIR" w). Qed.

Lemma ready_delay_keeps : keeps vars (ready_delay (T := T)).
Proof.
  intros w. unfold ready_delay, modify. simpl.
  destruct (Primitive.env_var "HANDOFF_READY_DELAY_MS" w ≫= _) as [ms|]; [|done]. by case_decide.
Qed.

Lemma acquire_lock_keeps ctx d : keeps vars (acquire_lock env ctx d).
Proof. intros w. unfold acquire_lock. by destruct (Lock.acquire _ _ _ _) as [[] dir]. Qed.
Lemma acquire_lock_exits ctx d : exits P (acquire_lock env ctx d).
Proof.
  intros w code w'. unfold acquire_lock. destruct (Lock.acquire _ _ _ _) as [r dir] eqn:Hr. intros [= Hx _].
  apply with_context_exit in Hx as ->. by destruct (lock_acquire_exits _ _ _ _ _ _ Hr).
Qed.

Lemma bind_here_keeps ctx s l : keeps vars (bind_here env ctx s l).
Proof. intros w. unfold bind_here. by destruct (bind_cold_start _ _ _ _ _ _ _ _) as [r [d n]]. Qed.
Lemma bind_here_exits ctx s l : exits P (bind_here env ctx s l).
Proof.
  intros w code w'. unfold bind_here. destruct (bind_cold_start _ _ _ _ _ _ _ _) as [r [d n]] eqn:Hr.
  intros [= Hx _]. apply with_context_exit in Hx as ->. by destruct (bind_replacing_never _ _ _ _ _ _ _ _ _ _ Hr).
Qed.

Lemma announce_here_keeps ctx bg sn s l : keeps vars (announce_here env ctx bg sn s l).
Proof. intros w. unfold announce_here. by destruct (announce_and_bind _ _ _ _ _ _ _ _ _ _) as [r [t [d n]]]. Qed.
Lemma announce_here_exits ctx bg sn s l : exits P (announce_here env ctx bg sn s l).
Proof.
  intros w code w'. unfold announce_here.
  destruct (announce_and_bind _ _ _ _ _ _ _ _ _ _) as [r [t [d n]]] eqn:Hr.
  intros [= Hx _]. apply with_context_exit in Hx as ->.
  by destruct (announce_and_bind_never _ _ _ _ _ _ _ _ _ _ _ _ Hr).
Qed.

(** [serve] marks its own exits. *)
Lemma call_serve_exits ctx i : exits P (call_serve env ctx i).
Proof.
  intros w code w'. unfold call_serve. destruct (serve _ _ _) as [r ow] eqn:Hr.
  intros Hx. apply pair_equal_spec in Hx as [Hx <-].
  assert (r = Err (Exit code)) as ->.
  { destruct r as [[[[]|e]|]|[e|c|]]; simpl in Hx; congruence. }
  destruct (serve_exits _ _ _ _ _ Hr) as (-> & point & Hat & Hp & Hne & Hm). split; [done|].
  exists point. split; [done|]. split; [done|]. split; [done|]. intros dir Hdir.
  specialize (Hm dir Hdir). simpl in *. apply last_Some in Hm as (ms & ->). by rewrite app_assoc, last_snoc.
Qed.
Lemma call_serve_keeps ctx i : keeps vars (call_serve env ctx i).
Proof. intros w. unfold call_serve. by destruct (serve _ _ _) as [r ow]. Qed.

Lemma on_proc_keeps {A} ctx (m : roleM A) :
  (∀ x, x ∉ scrubbed → keeps (var x) m) → keeps vars (on_proc (T := T) ctx m).
Proof.
  intros Hm w. unfold on_proc. pose proof (λ x Hx, Hm x Hx (p_proc w)) as Hk.
  destruct (m (p_proc w)) as [r p]. unfold Primitive.crash_env, Primitive.env_var. simpl in *.
  by rewrite !Hk by (apply (bool_decide_unpack _); by vm_compute).
Qed.
Lemma on_proc_exits {A} ctx (m : roleM A) : never m → exits P (on_proc (T := T) ctx m).
Proof.
  intros Hm w code w'. unfold on_proc. destruct (m _) as [r p] eqn:Hr. intros [= Hx _].
  apply with_context_exit in Hx as ->. by destruct (Hm _ _ _ Hr).
Qed.

#[local] Hint Resolve prim_crash_here_keeps prim_crash_here_exits on_chan_keeps on_chan_exits marker_keeps
  ready_delay_keeps acquire_lock_keeps acquire_lock_exits bind_here_keeps bind_here_exits announce_here_keeps
  announce_here_exits call_serve_exits call_serve_keeps handshake_never wait_for_begin_never : handoff.

Lemma main_exits : exits P (Primitive.main env).
Proof.
  pose proof (λ ctx wt, on_proc_exits ctx (detect_role wt) (detect_role_never wt)).
  unfold Primitive.main, run_successor, run_cold_start, write_marker, write_marker_pid, write_marker_text,
    ready_delay. exits.
Qed.

Lemma main_keeps : keeps vars (Primitive.main env).
Proof.
  pose proof (λ ctx wt, on_proc_keeps ctx (detect_role wt) (λ x Hx, detect_role_keeps x wt Hx)).
  unfold Primitive.main, run_successor, run_cold_start, write_marker, write_marker_pid. keeps.
  intros w. done.
Qed.
End primitive.

(** ** Properties *)

(** A process's variables as [std::env::var] reads them. *)
Definition readable (env : gmap string string) : gmap string string := omap Harness.to_str env.

(** A crash point was given to a process under a role, with the fixture's
    marker directory. *)
Definition given (f : Harness.Fixture) (env : gmap string string) (role : string) (o : option string) : Prop :=
  env !! "HANDOFF_CRASH_AT"%string = Some (default EmptyString o) ∧ Harness.textual o ∧
  env !! "HANDOFF_CRASH_ROLE"%string = Some role ∧ Harness.to_str role = Some role ∧
  env !! "HANDOFF_CRASH_MARKER_DIR"%string = Some (Harness.fixture_markers f) ∧
  Harness.to_str (Harness.fixture_markers f) = Some (Harness.fixture_markers f).

Lemma given_attributed {T C} `{ControlChannel T} `{Drainable C} `{!ChannelLaws T} (penv : PEnv T C) f env role o w
    (files : Probes.Files) out err code w' :
  given f env role o → proc_env (p_proc w) = readable env → Primitive.main penv w = (Err (Exit code), w') →
  ∃ point, o = Some point ∧
    ∀ expected, Probes.assert_crashed_at (Probes.mkExit (Probes.Exited code) out err role) f
      (written files (p_markers w')) expected = Ok tt ↔ expected = point.
Proof.
  intros (Hat & Ht & Hr & Hrt & Hm & Hmt) Hw Hrun.
  pose proof (main_exits penv w code w' Hrun) as (-> & point & Hp & _ & Hne & Hmark).
  pose proof (main_keeps penv w) as Hk. rewrite Hrun in Hk. simpl in Hk. rewrite Hk in Hp, Hmark.
  assert (∀ k, Primitive.env_var k w = env !! k ≫= Harness.to_str) as Hv.
  { intros k. unfold Primitive.env_var, var. rewrite Hw. apply lookup_omap. }
  unfold Primitive.crash_env in Hp, Hmark. rewrite !Hv in Hp. rewrite !Hv in Hmark. simpl in Hp, Hmark.
  rewrite Hat in Hp. simpl in Hp. rewrite Harness.to_str_default in Hp by done.
  destruct o as [p|]; [|by injection Hp as <-]. injection Hp as ->.
  exists point. split; [done|]. apply assert_crashed_run; [done| |].
  - specialize (Ht point eq_refl). unfold Harness.to_str in Ht. by destruct (SupervisorBin.utf8_valid _).
  - apply written_last. rewrite Hr, Hm in Hmark. simpl in Hmark. rewrite Hrt, Hmt in Hmark.
    by apply Hmark.
Qed.

(** C39: the same for the primitive.  Whether the harness cold-started it as
    the first incumbent or the test supervisor spawned it as the successor,
    if it ends at a crash point — of the library's incumbent, of its own
    start-up, or of its consumer's [drain] and [seal] — that is the one the test
    named for this role, and [assert_crashed_at] passes for that point and for
    no other.  (The markers' directory is one in which a file can be written.) *)
Theorem primitive_crash_is_attributed {T C} `{ControlChannel T} `{Drainable C} `{!ChannelLaws T}
    (penv : PEnv T C) (f : Harness.Fixture) (rust_log : option string) (pb : Harness.PrimitiveBuilder)
    (b : Harness.SupervisorBuilder) (parent : gmap string string) (spec : Supervisor.SpawnSpec)
    (listeners : list (string * Z)) (fd : Z) (w : PWorld T) (files : Probes.Files) (out err : string) :
  Harness.textual (Harness.crash_at pb) →
  Harness.textual (Harness.crash_at_supervisor b) ∧ Harness.textual (Harness.crash_at_successor b) →
  Harness.in_u64 (Harness.drain_grace_ms b) ∧ Harness.in_u64 (Harness.deadline_ms b) ∧
    Harness.in_u64 (Harness.ready_delay_ms b) →
  Harness.to_str (Harness.fixture_markers f) = Some (Harness.fixture_markers f) →
  let o_env := child_env parent (Harness.primitive_command f rust_log pb) in
  let s_env := child_env parent (Harness.supervisor_command f rust_log b) in
  Harness.test_spec s_env = Ok spec →
  let n_env := child_env s_env (Supervisor.spawn_command spec listeners fd) in
  let '(r, w') := Primitive.main penv w in
  let attributed (env : gmap string string) (role : string) (o : option string) :=
    proc_env (p_proc w) = readable env →
    match r with
    | Err (Exit code) => ∃ point, o = Some point ∧
        ∀ expected, Probes.assert_crashed_at (Probes.mkExit (Probes.Exited code) out err role) f
          (written files (p_markers w')) expected = Ok tt ↔ expected = point
    | _ => True
    end in
  attributed o_env "primitive"%string (Harness.crash_at pb) ∧
  attributed n_env "successor"%string (Harness.crash_at_successor b).
Proof.
  intros Ho Hp Hk Hm o_env s_env Hs n_env.
  assert (given f o_env "primitive" (Harness.crash_at pb)) as Hgo.
  { split_and!; try done; apply Harness.child_sees; try (apply (bool_decide_unpack _); by vm_compute);
      Harness.listed. }
  assert (given f n_env "successor" (Harness.crash_at_successor b)) as Hgn.
  { pose proof (Harness.fixture_reaches_successor f rust_log b parent Hp Hk spec listeners fd) as Hn.
    split_and!; try done; [..|apply Hp| |]; apply Hn; try done; Harness.listed. }
  destruct (Primitive.main penv w) as [r w'] eqn:Hrun. split; intros Hw;
    (destruct r as [x|[e|code|]]; [done|done| |done]); by eapply given_attributed.
Qed.

Module PrimitiveCrash.
Definition builder : Harness.SupervisorBuilder :=
  Harness.crash_successor_at "n-after-begin" Harness.supervisor_builder.
Definition s_env : gmap string string :=
  child_env Harness.HarnessDemo.parent (Harness.supervisor_command Harness.HarnessDemo.fixture None builder).
Definition spec : Supervisor.SpawnSpec :=
  match Harness.test_spec s_env with Ok spec => spec | Err _ => Supervisor.SpawnSpec_new "" end.
Definition n_env : gmap string string := child_env s_env (Supervisor.spawn_command spec [] 9).

(** The control socket is at [3]; the supervisor says [HelloAck] and [Begin]. *)
Definition kernel : Sock.kernel := mkKernel {[ 3 := mkFd 50 0 ]} {[ 50%nat := RoleDemo.pair_end ]} 64.
Definition penv : PEnv Script.script IncumbentSafety.Demo.app :=
  mkPEnv true 1000 108 0 BindDemo.answers (λ _, fs_ok) (λ _ d, d) (λ _, true) (λ _, 1) (λ _, 1%nat)
    (λ t, t) (λ _, "error"%string) (λ _, "id"%string) (Ok tt) (λ _, Script.says PrimitiveSafety.PrimitiveDemo.told)
    [] (IncumbentSafety.Demo.mkApp true [] []).
Definition start : PWorld Script.script :=
  mkPWorld (mkProcess 77 (readable n_env) kernel) (mkTraced (Script.says []) []) (mkLockDir None None ∅)
    BindDemo.start [] 0 0 [].
End PrimitiveCrash.

Lemma primitive_crash_is_attributed_witness :
  let '(r, w') := Primitive.main PrimitiveCrash.penv PrimitiveCrash.start in
  r = Err (Exit 99) ∧
  ∀ expected, Probes.assert_crashed_at (Probes.mkExit (Probes.Exited 99) "" "" "successor")
      Harness.HarnessDemo.fixture (written ∅ (p_markers w')) expected = Ok tt ↔ expected = "n-after-begin"%string.
Proof.
  assert (Harness.test_spec PrimitiveCrash.s_env = Ok PrimitiveCrash.spec) as Hs by (vm_compute; reflexivity).
  pose proof (primitive_crash_is_attributed PrimitiveCrash.penv Harness.HarnessDemo.fixture None
    Harness.cold_start_primitive PrimitiveCrash.builder Harness.HarnessDemo.parent PrimitiveCrash.spec [] 9
    PrimitiveCrash.start ∅ "" "" ltac:(intros p Hp; discriminate Hp)
    ltac:(split; intros p [= <-]; reflexivity) ltac:(split; [|split]; intros p [= <-]) eq_refl Hs) as H.
  assert ((Primitive.main PrimitiveCrash.penv PrimitiveCrash.start).1 = Err (Exit 99)) as Hr
    by (vm_compute; reflexivity).
  destruct (Primitive.main PrimitiveCrash.penv PrimitiveCrash.start) as [r w']. simpl in Hr. subst r.
  destruct H as [_ H]. specialize (H eq_refl). destruct H as (point & Hp & H).
  change (Some "n-after-begin"%string = Some point) in Hp. injection Hp as <-. split; [reflexivity|exact H].
Defined.
