(* ===== verification/TestDrainable.v ===== *)
(** * The test consumer: [TestDrainable] of [handoff-tests/src/bin/primitive.rs]

    The hooks the test primitive gives to [Incumbent::serve], as programs, and
    as a [Drainable] with the two crash points they pass. *)
From stdpp Require Import base tactics option list numbers strings gmap.
From S2P Require Import Prelude Errors Protocol Sock Fd Lock Channel Role Bind Crash Incumbent Primitive.
From S2P Require Harness IncumbentSafety.
From S2P Require Import Crashed CrashedPrimitive.
Local Open Scope Z_scope.

(** [AtomicU32] *)
Definition fetch_add_1 (z : Z) : Z := (z + 1) `mod` (u32_max + 1).

Record TestDrainable : Type := mkTestDrainable {
  seal_fails_once : bool;
  seal_delay_ms : Z;
  drain_delay_ms : Z;
  drain_count : Z;
  seal_count : Z;
  resume_count : Z
}.

Definition from_env (var : string → option string) : TestDrainable :=
  let ms key := default 0 (Z.of_N <$> (var key ≫= parse_unsigned (Z.to_N u64_max))) in
  mkTestDrainable (bool_decide (var "HANDOFF_SEAL_FAILS_ONCE"%string = Some "1"%string))
    (ms "HANDOFF_SEAL_DELAY_MS"%string) (ms "HANDOFF_DRAIN_DELAY_MS"%string) 0 0 0.

(** The consumer, the variables and the build it runs with, the markers it has
    written and the time it has slept. *)
Record Consumer : Type := mkConsumer {
  td : TestDrainable;
  td_var : string → option string;
  td_crash_points : bool;
  td_markers : list (string * string);
  td_slept : Z
}.

Definition set_td (d : TestDrainable) (c : Consumer) : Consumer :=
  mkConsumer d (td_var c) (td_crash_points c) (td_markers c) (td_slept c).
Definition td_mark (path text : string) (c : Consumer) : Consumer :=
  mkConsumer (td c) (td_var c) (td_crash_points c) (td_markers c ++ [(path, text)]) (td_slept c).
Definition td_sleep (ms : Z) (c : Consumer) : Consumer :=
  mkConsumer (td c) (td_var c) (td_crash_points c) (td_markers c) (td_slept c + ms).

Abbreviation hook := (prog Consumer Error).

Definition td_write_marker (name : string) : hook unit :=
  modify (λ c, match td_var c "HANDOFF_MARKER_DIR"%string with
               | Some dir => td_mark (path_join dir (name +:+ ".marker")%string) name c
               | None => c
               end).

Definition td_crash_env (c : Consumer) : CrashEnv :=
  mkCrashEnv (td_crash_points c) (td_var c "HANDOFF_CRASH_AT") (td_var c "HANDOFF_CRASH_MARKER_DIR")
    (td_var c "HANDOFF_CRASH_ROLE").
Definition td_crash_here (point : string) : hook unit := λ c, maybe_crash (td_crash_env c) td_mark point c.

(** ** The hooks *)
Definition td_drain (_deadline : Z) : hook DrainReport :=
  _ ← modify (λ c, let d := td c in
        set_td (mkTestDrainable (seal_fails_once d) (seal_delay_ms d) (drain_delay_ms d)
          (fetch_add_1 (drain_count d)) (seal_count d) (resume_count d)) c);
  _ ← td_write_marker "drain-called";
  _ ← td_crash_here primitive_points.O_INSIDE_DRAIN;
  delay ← gets (λ c, drain_delay_ms (td c));
  _ ← (if decide (0 < delay) then modify (td_sleep delay) else mret tt);
  mret (mkDrainReport 0 true).

(** [seal_fails_once.swap(false)] *)
Definition swap_fails : hook bool := λ c,
  let d := td c in
  (Ok (seal_fails_once d),
   set_td (mkTestDrainable false (seal_delay_ms d) (drain_delay_ms d) (drain_count d) (seal_count d)
     (resume_count d)) c).

Definition td_seal : hook SealReport :=
  _ ← modify (λ c, let d := td c in
        set_td (mkTestDrainable (seal_fails_once d) (seal_delay_ms d) (drain_delay_ms d) (drain_count d)
          (fetch_add_1 (seal_count d)) (resume_count d)) c);
  _ ← td_write_marker "seal-called";
  _ ← td_crash_here primitive_points.O_INSIDE_SEAL;
  fails ← swap_fails;
  if fails : bool then raise (Errors.Protocol "injected seal failure") else
  delay ← gets (λ c, seal_delay_ms (td c));
  _ ← (if decide (0 < delay) then modify (td_sleep delay) else mret tt);
  mret (mkSealReport [42] (repeat Byte.xab 32)).

Definition td_resume_after_abort : hook unit :=
  _ ← modify (λ c, let d := td c in
        set_td (mkTestDrainable (seal_fails_once d) (seal_delay_ms d) (drain_delay_ms d) (drain_count d)
          (seal_count d) (fetch_add_1 (resume_count d))) c);
  td_write_marker "resume-called".

Definition td_snapshot_state (_ : Consumer) : StateSnapshot := mkStateSnapshot 0 0 [].

(** What a hook does when its crash point does not fire: it returns. *)
Definition returned {A} (m : hook A) (c : Consumer) : Result A * Consumer :=
  match m (mkConsumer (td c) (td_var c) false (td_markers c) (td_slept c)) with
  | (Ok a, c') => (Ok a, c')
  | (Err (Raise e), c') => (Err e, c')
  | (Err _, c') => (Err (Errors.Protocol "unreachable"), c')
  end.

#[export] Instance test_drainable : Drainable Consumer := {|
  drain deadline := returned (td_drain deadline);
  seal := returned td_seal;
  resume_after_abort := returned td_resume_after_abort;
  snapshot_state := td_snapshot_state;
  drain_points := [primitive_points.O_INSIDE_DRAIN];
  seal_points := [primitive_points.O_INSIDE_SEAL];
  points_named := ltac:(repeat constructor; discriminate)
|}.

(** ** Lemmas *)

(** Each hook, run. *)
Lemma td_marker_td name c : td (td_write_marker name c).2 = td c.
Proof. unfold td_write_marker, modify. simpl. by destruct (td_var c _). Qed.

Definition counters (d : TestDrainable) : bool * Z * Z * Z :=
  (seal_fails_once d, drain_count d, seal_count d, resume_count d).

Lemma drain_run deadline c :
  ∃ c', drain deadline c = (Ok (mkDrainReport 0 true), c') ∧
    counters (td c') = (seal_fails_once (td c), fetch_add_1 (drain_count (td c)), seal_count (td c),
      resume_count (td c)).
Proof.
  unfold drain, test_drainable, returned, td_drain, td_write_marker, td_crash_here, maybe_crash, mbind,
    prog_bind, modify, gets. simpl.
  destruct (td_var c "HANDOFF_MARKER_DIR"%string); simpl; case_decide; simpl; by eexists.
Qed.

Lemma seal_run c :
  ∃ r c', seal c = (r, c') ∧ is_ok r = negb (seal_fails_once (td c)) ∧
    counters (td c') = (false, drain_count (td c), fetch_add_1 (seal_count (td c)), resume_count (td c)).
Proof.
  unfold seal, test_drainable, returned, td_seal, td_write_marker, td_crash_here, maybe_crash, swap_fails,
    mbind, prog_bind, modify, gets. simpl.
  destruct (td_var c "HANDOFF_MARKER_DIR"%string); simpl; destruct (seal_fails_once (td c)); simpl;
    try case_decide; simpl; by eexists _, _.
Qed.

Lemma resume_run c :
  ∃ c', resume_after_abort c = (Ok tt, c') ∧
    counters (td c') = (seal_fails_once (td c), drain_count (td c), seal_count (td c),
      fetch_add_1 (resume_count (td c))).
Proof.
  unfold resume_after_abort, test_drainable, returned, td_resume_after_abort, td_write_marker, mbind,
    prog_bind, modify. simpl.
  destruct (td_var c "HANDOFF_MARKER_DIR"%string); simpl; by eexists.
Qed.

(** The instance is the hooks: each ends the process exactly when its crash
    point is the one of the environment, and otherwise returns what the
    instance says, with the same counters, markers and sleep. *)
Definition same_but_build (c c' : Consumer) : Prop :=
  td c' = td c ∧ td_var c' = td_var c ∧ td_markers c' = td_markers c ∧ td_slept c' = td_slept c.

Definition hook_is {A} (points : list string) (m : hook A) (c : Consumer) (r : Result A * Consumer) : Prop :=
  if existsb (crashes_at (td_crash_env c)) points then (m c).1 = Err (Exit 99)
  else same_but_build r.2 (m c).2 ∧ (m c).1 = match r.1 with Ok a => Ok a | Err e => Err (Raise e) end.

Lemma td_crash_splits point c :
  if crashes_at (td_crash_env c) point then (td_crash_here point c).1 = Err (Exit 99)
  else td_crash_here point c = (Ok tt, c).
Proof.
  unfold td_crash_here, maybe_crash, crashes_at. generalize (td_crash_env c); intros e.
  destruct (crash_points e); simpl; [|done].
  destruct (HANDOFF_CRASH_AT e) as [want|]; simpl; [|done].
  destruct (decide (want = point)) as [->|Hne].
  - rewrite bool_decide_eq_true_2 by done. rewrite decide_False by auto.
    by destruct (HANDOFF_CRASH_MARKER_DIR e).
  - rewrite bool_decide_eq_false_2 by congruence. by rewrite decide_True.
Qed.

(** The same consumer in a build without crash points. *)
Definition without_points (c : Consumer) : Consumer :=
  mkConsumer (td c) (td_var c) false (td_markers c) (td_slept c).

Lemma td_marker_run name c :
  let c' := (td_write_marker name c).2 in
  td_crash_env c' = td_crash_env c ∧ (td_write_marker name (without_points c)).2 = without_points c'.
Proof.
  unfold td_write_marker, modify, td_crash_env. simpl. by destruct (td_var c "HANDOFF_MARKER_DIR"%string).
Qed.

(** The way both hooks with a crash point begin. *)
Lemma hook_begins {A} f name point (k : hook A) c :
  (td_crash_env (f c) = td_crash_env c ∧ f (without_points c) = without_points (f c)) →
  (∀ c, ∃ r, (k c).1 = match r with Ok a => Ok a | Err e => Err (Raise e) end ∧
             (k (without_points c)).1 = (k c).1 ∧ same_but_build (k (without_points c)).2 (k c).2) →
  let m := (_ ← modify f; _ ← td_write_marker name; _ ← td_crash_here point; k) in
  hook_is [point] m c (returned m c).
Proof.
  intros [Hv Hf] Hk m. unfold hook_is. simpl. rewrite orb_false_r.
  assert (∀ c, m c = match td_crash_here point (td_write_marker name (f c)).2 with
                     | (Ok _, c') => k c' | (Err e, c') => (Err e, c') end) as Hm by done.
  destruct (td_marker_run name (f c)) as [He Hc1]. set (c1 := (td_write_marker name (f c)).2) in *.
  unfold returned. change (mkConsumer (td c) (td_var c) false (td_markers c) (td_slept c)) with (without_points c).
  rewrite !Hm, Hf, Hc1. fold c1. pose proof (td_crash_splits point c1) as Hs. rewrite He, Hv in Hs.
  destruct (crashes_at (td_crash_env c) point).
  { revert Hs. destruct (td_crash_here point c1) as [x c2]. simpl. by intros ->. }
  rewrite Hs. pose proof (td_crash_splits point (without_points c1)) as Hs'. simpl in Hs'. rewrite Hs'.
  destruct (Hk c1) as (r & H1 & H2 & H3). rewrite H1. rewrite H1 in H2.
  destruct (k (without_points c1)) as [x c2]. simpl in *. subst x. by destruct r.
Qed.

Lemma instance_is_hooks deadline c :
  hook_is (drain_points Consumer) (td_drain deadline) c (drain deadline c) ∧
  hook_is (seal_points Consumer) td_seal c (seal c) ∧
  hook_is [] td_resume_after_abort c (resume_after_abort c).
Proof.
  split_and!.
  - apply hook_begins; [done|]. intros [d' v' b' ms' sl']. exists (Ok (mkDrainReport 0 true)).
    unfold mbind, prog_bind, gets, modify. simpl. by case_decide.
  - apply hook_begins; [done|]. intros [[[] ? ? ? ? ?] v' b' ms' sl'].
    + eexists (Err _). done.
    + exists (Ok (mkSealReport [42] (repeat Byte.xab 32))).
      unfold mbind, prog_bind, gets, modify, swap_fails. simpl. by case_decide.
  - unfold hook_is. simpl. unfold returned, td_resume_after_abort, td_write_marker, mbind, prog_bind, modify. simpl.
    by destruct (td_var c _).
Qed.

(** ** Invariants of a program, whatever it returns *)
Definition preserves {W E A} (I : W → Prop) (m : prog W E A) : Prop := ∀ w, I w → I (m w).2.

Section preserves_rules.
Context {W E : Type} (I : W → Prop).

Lemma preserves_bind {A B} (m : prog W E A) (k : A → prog W E B) :
  preserves I m → (∀ a, preserves I (k a)) → preserves I (m ≫= k).
Proof.
  intros Hm Hk w Hw. unfold mbind, prog_bind. specialize (Hm w Hw).
  destruct (m w) as [[a|e] w1]; [by apply Hk|done].
Qed.
Lemma preserves_attempt {A} (m : prog W E A) : preserves I m → preserves I (attempt m).
Proof. intros Hm w Hw. specialize (Hm w Hw). unfold attempt. by destruct (m w) as [[a|[e|c|]] w1]. Qed.
Lemma preserves_lift {A} (r : result E A) : preserves I (lift r).
Proof. intros w Hw. by destruct r. Qed.
Lemma preserves_pure {A} (r : W → result (exn E) A) : preserves I (λ w, (r w, w)).
Proof. by intros w Hw. Qed.
End preserves_rules.

#[export] Hint Resolve preserves_bind preserves_attempt preserves_lift : handoff.
#[export] Hint Extern 2 (preserves _ (mret _)) => apply preserves_pure : handoff.
#[export] Hint Extern 2 (preserves _ (raise _)) => apply preserves_pure : handoff.
#[export] Hint Extern 2 (preserves _ stuck) => apply preserves_pure : handoff.
#[export] Hint Extern 2 (preserves _ (gets _)) => apply preserves_pure : handoff.

Ltac preserves_step :=
  first
    [ progress intros
    | solve [eauto with handoff]
    | apply preserves_bind
    | apply preserves_attempt
    | match goal with
      | |- preserves _ (match ?x with _ => _ end) => destruct x
      | |- preserves _ (if ?x then _ else _) => destruct x
      end ].
Ltac preserves := repeat preserves_step.

(** ** The tally of a trace *)
Definition seal_result (e : event) : option bool := match e with EvSeal ok => Some ok | _ => None end.
Definition is_drain (e : event) : bool := match e with EvDrain _ _ => true | _ => false end.
Definition is_resume (e : event) : bool := match e with EvResume _ => true | _ => false end.
Definition count (P : event → bool) (tr : list event) : nat := length (List.filter P tr).
Definition wrapped (n : nat) : Z := Z.of_nat n `mod` (u32_max + 1).

(** The first seal fails if it was told to, and no other. *)
Definition seals (fails : bool) (n : nat) : list bool :=
  match n with O => [] | S n => negb fails :: repeat true n end.

Definition tallied (fails : bool) (tr : list event) (d : TestDrainable) : Prop :=
  let results := omap seal_result tr in
  results = seals fails (length results) ∧
  counters d = (fails && bool_decide (results = []), wrapped (count is_drain tr), wrapped (length results),
                wrapped (count is_resume tr)).

Lemma wrapped_S n : fetch_add_1 (wrapped n) = wrapped (S n).
Proof. unfold fetch_add_1, wrapped. rewrite Z.add_mod_idemp_l by (unfold u32_max; lia). f_equal. lia. Qed.

Lemma seals_snoc fails n : seals fails n ++ [negb (fails && bool_decide (n = 0%nat))] = seals fails (S n).
Proof.
  destruct n as [|n]; [by rewrite andb_true_r|]. rewrite bool_decide_eq_false_2 by done. rewrite andb_false_r.
  simpl. f_equal. change [true] with (repeat true 1). by rewrite <- repeat_app, Nat.add_1_r.
Qed.

Lemma count_snoc P tr e : count P (tr ++ [e]) = if P e then S (count P tr) else count P tr.
Proof. unfold count. rewrite List.filter_app, length_app. simpl. destruct (P e); simpl; lia. Qed.

Section serve.
Context {T : Type} `{ControlChannel T} `{!ChannelLaws T} (env : Env) (fails : bool).
Abbreviation world := (World T Consumer).
Implicit Types w : world.
Abbreviation I := (λ w : world, tallied fails (trace w) (td (consumer w))).

(** Events that no hook makes. *)
Definition neutral (e : event) : Prop := seal_result e = None ∧ is_drain e = false ∧ is_resume e = false.

Lemma tallied_neutral e tr d : neutral e → tallied fails tr d → tallied fails (tr ++ [e]) d.
Proof.
  intros (Hs & Hd & Hr) Ht. unfold tallied in *.
  rewrite omap_app, !count_snoc, Hd, Hr. simpl. rewrite Hs. simpl. by rewrite app_nil_r.
Qed.

Lemma emit_I e w : neutral e → I w → I (emit e w).
Proof. intros. by apply tallied_neutral. Qed.

Lemma modify_I (f : world → world) :
  (∀ w, td (consumer (f w)) = td (consumer w) ∧ trace (f w) = trace w) →
  preserves I (modify f : prog world Error unit).
Proof. intros Hf w Hw. simpl. by destruct (Hf w) as [-> ->]. Qed.
Lemma modify_emit_I e : neutral e → preserves I (modify (emit e) : prog world Error unit).
Proof. intros Hn w Hw. by apply emit_I. Qed.

Lemma inc_crash_I p : preserves I (Incumbent.crash_here env p).
Proof.
  intros w Hw. unfold Incumbent.crash_here.
  by destruct (maybe_crash_run (E := Error) (crash env) mark p w) as [-> |(w' & -> & _ & [->|[path ->]])].
Qed.
Lemma points_I points : preserves I (pass_points env points).
Proof.
  induction points as [|p points IH]; cbn [pass_points]; [apply preserves_pure|].
  apply preserves_bind; [apply inc_crash_I|done].
Qed.

(** The hooks. *)
Lemma call_drain_I d : preserves I (call_drain env d).
Proof.
  apply preserves_bind; [apply points_I|intros _]. intros w [Hs Hc]. unfold hook_returns.
  destruct (drain_run d (consumer w)) as (c' & -> & Hd). simpl. unfold tallied in *. simpl.
  rewrite omap_app, !count_snoc. simpl. rewrite app_nil_r. split; [done|]. injection Hc as H1 H2 H3 H4.
  by rewrite Hd, H1, H2, H3, H4, wrapped_S.
Qed.

Lemma call_resume_I : preserves I (call_resume (T := T)).
Proof.
  intros w [Hs Hc]. unfold call_resume, hook_returns.
  destruct (resume_run (consumer w)) as (c' & -> & Hd). simpl. unfold tallied in *. simpl.
  rewrite omap_app, !count_snoc. simpl. rewrite app_nil_r. split; [done|]. injection Hc as H1 H2 H3 H4.
  by rewrite Hd, H1, H2, H3, H4, wrapped_S.
Qed.

Lemma call_seal_I : preserves I (call_seal (T := T) env).
Proof.
  apply preserves_bind; [apply points_I|intros _]. intros w [Hs Hc]. unfold hook_returns.
  destruct (seal_run (consumer w)) as (r & c' & -> & Hr & Hd). injection Hc as H1 H2 H3 H4.
  set (results := omap seal_result (trace w)) in *.
  enough (tallied fails (trace w ++ [EvSeal (is_ok r)]) (td c')) as Ht by (by destruct r).
  unfold tallied. rewrite omap_app, !count_snoc. fold results. simpl. rewrite length_app, Nat.add_1_r.
  rewrite Hd, H2, H3, H4, wrapped_S, Hr, H1, <- seals_snoc, <- Hs. split.
  - do 3 f_equal. destruct results; [done|]. by rewrite !bool_decide_eq_false_2.
  - do 4 f_equal. rewrite bool_decide_eq_false_2, andb_false_r; [done|]. by destruct results.
Qed.

(** The commands without a hook. *)
Lemma inc_send_I v m : preserves I (send v m).
Proof.
  intros w Hw. unfold send. destruct (ch_write v m (stream w)) as [r t].
  enough (I (emit (EvSend m (is_ok r)) (set_stream t w))) by (by destruct r). by apply emit_I.
Qed.
Lemma inc_poll_I : preserves I poll.
Proof.
  intros w Hw. unfold poll. destruct (ch_poll (stream w)) as [[[[v m]|]|e] t]; simpl; [|done..]. by apply tallied_neutral.
Qed.
Lemma inc_timeout_I d : preserves I (set_read_timeout d).
Proof. intros w Hw. unfold set_read_timeout. by destruct (ch_set_read_timeout _ _). Qed.
Lemma take_lock_I : preserves I (take_lock env).
Proof. intros w Hw. unfold take_lock. destruct (lock w); [|done]. by apply tallied_neutral. Qed.
Lemma put_lock_I g : preserves I (put_lock env g).
Proof. intros w Hw. unfold put_lock. apply emit_I; [done|]. by destruct (lock w). Qed.
Lemma sleep_I d : preserves I (sleep env d).
Proof. intros w Hw. by apply tallied_neutral. Qed.
Lemma acquire_I : preserves I (acquire env).
Proof. intros w Hw. unfold acquire. by destruct (Lock.acquire _ _ _ _). Qed.

#[local] Hint Resolve call_drain_I call_resume_I call_seal_I inc_send_I inc_poll_I inc_timeout_I inc_crash_I
  take_lock_I put_lock_I sleep_I acquire_I : handoff.
#[local] Hint Extern 2 (preserves _ (modify (emit _))) => (apply modify_emit_I; done) : handoff.
#[local] Hint Extern 3 (preserves _ (modify _)) => (apply modify_I; done) : handoff.

Lemma undo_I : preserves I (undo_handoff env).
Proof. unfold undo_handoff. preserves. Qed.

Lemma heartbeats_I {A} v (work : prog world Error A) :
  preserves I work → preserves I (run_with_heartbeats env v work).
Proof.
  intros Hw. assert (∀ n, preserves I (heartbeat_loop env n v)) as Hl
    by (intros n; induction n as [|n IH]; simpl; preserves).
  unfold run_with_heartbeats. preserves.
Qed.

#[local] Hint Resolve undo_I heartbeats_I : handoff.

Lemma dispatch_I v m : preserves I (dispatch env v m).
Proof.
  unfold dispatch, on_prepare, on_seal_request, on_commit, on_resume_after_abort, on_abort, on_heartbeat,
    check_active. preserves.
Qed.

Lemma handle_session_I : preserves I (handle_session env).
Proof.
  assert (∀ fuel v, preserves I (run_session_loop env fuel v)) as Hl.
  { pose proof dispatch_I. intros fuel v. induction fuel as [|fuel IH]; simpl; preserves. }
  unfold handle_session, hello_exchange, Lock.io. preserves.
Qed.

Lemma recover_I : preserves I (recover env).
Proof.
  assert (∀ fuel dl, preserves I (retry_loop env fuel dl)) as Hl.
  { intros fuel dl. induction fuel as [|fuel IH]; simpl; preserves. }
  unfold recover, acquire_with_short_retry. preserves.
Qed.

Lemma serve_I accepts : preserves I (serve env accepts).
Proof.
  pose proof handle_session_I. pose proof recover_I. unfold serve. generalize ACCEPT_BACKOFF_MIN.
  induction accepts as [|c accepts IH]; intros backoff; cbn [serve_loop]; unfold finish; preserves.
Qed.
End serve.

(** ** Properties *)

(** The test consumer counts what the protocol asked of it, and fails
    exactly the seal it was told to.  Whatever peers connect and say, and
    whatever system calls fail, during [serve]: the three counters are the
    numbers of the hooks that were called (modulo 2^32), and of the calls of
    [seal] the first fails exactly if [HANDOFF_SEAL_FAILS_ONCE] was set and
    all the others succeed. *)
Theorem test_consumer_tallies {T} `{ControlChannel T} `{!ChannelLaws T} (env : Env) (var : string → option string)
    (accepts : list (result IoError (Connection T))) (w : World T Consumer) :
  td (consumer w) = from_env var → trace w = [] →
  let w' := (serve env accepts w).2 in
  let results := omap seal_result (trace w') in
  let d := td (consumer w') in
  results = seals (bool_decide (var "HANDOFF_SEAL_FAILS_ONCE"%string = Some "1"%string)) (length results) ∧
  drain_count d = wrapped (count is_drain (trace w')) ∧ seal_count d = wrapped (length results) ∧
  resume_count d = wrapped (count is_resume (trace w')).
Proof.
  intros Hc Ht w' results d.
  destruct (serve_I env (bool_decide (var "HANDOFF_SEAL_FAILS_ONCE"%string = Some "1"%string)) accepts w)
    as [Hs Hcount].
  - rewrite Ht, Hc. split; [done|]. unfold counters, from_env. simpl.
    by rewrite andb_true_r.
  - injection Hcount as _ H1 H2 H3. by split_and!.
Qed.

(** Two sessions with a failing first seal. *)
Lemma test_consumer_tallies_witness :
  let var key := if decide (key = "HANDOFF_SEAL_FAILS_ONCE"%string) then Some "1"%string else None in
  let c := mkConsumer (from_env var) var false [] 0 in
  let env := IncumbentSafety.Demo.env in
  let w := mkWorld (Some (mkDataDirLock 42 "/d" "/d/.handoff.pidfile"))
             (mkLockDir (Some 42) (Some (pid_text 42)) ∅) c (Script.says []) SessionState_default 0 0 [] [] in
  let w' := (serve env IncumbentSafety.Demo.two_sessions w).2 in
  omap seal_result (trace w') = [false; true] ∧ seal_count (td (consumer w')) = 2.
Proof.
  intros var c env w w'.
  destruct (test_consumer_tallies env var IncumbentSafety.Demo.two_sessions w eq_refl eq_refl)
    as (Hs & _ & Hn & _). fold w' in Hs, Hn.
  assert (length (omap seal_result (trace w')) = 2%nat) as Hl by (vm_compute; reflexivity).
  rewrite Hl in Hs, Hn. split; [exact Hs|exact Hn].
Defined.

(** The primitive with this consumer, cold-started by the harness, crashes
    inside [drain]: the marker names that point. *)
Example primitive_crashes_inside_drain :
  let builder := Harness.crash_primitive_at "o-inside-drain" Harness.cold_start_primitive in
  let env := child_env Harness.HarnessDemo.parent (Harness.primitive_command Harness.HarnessDemo.fixture None builder) in
  let consumer := mkConsumer (from_env (Harness.env_var env)) (Harness.env_var env) true [] 0 in
  let says := IncumbentSafety.Demo.connection [IncumbentSafety.Demo.hello_ack; IncumbentSafety.Demo.prepare] in
  let penv := mkPEnv true 1000 108 0 BindDemo.answers (λ _, fs_ok) (λ _ d, d) (λ _, true) (λ _, 1) (λ _, 0%nat)
    (λ t, t) (λ _, "error"%string) (λ _, "id"%string) (Ok tt) (λ _, Script.says []) [says] consumer in
  let start := mkPWorld (mkProcess 42 (readable env) (mkKernel ∅ ∅ 64)) (mkTraced (Script.says []) [])
    (mkLockDir None None ∅) BindDemo.start [] 0 0 [] in
  let '(r, w) := Primitive.main penv start in
  r = Err (Exit 99) ∧ snd <$> p_markers w = ["42"; "serving"; "o-inside-drain"]%string.
Proof. vm_compute. by split. Qed.
