(* ===== verification/System.v ===== *)
(** * One handoff: the three processes together

    The supervisor, the incumbent and the successor, each running its own
    program, with their channels, the flock and their deaths between them.  A
    step of the system is the next event of one of the three runs, when the
    other side and the kernel allow it; every interleaving is a path. *)
From stdpp Require Import base tactics option list numbers strings gmap.
From S2P Require Import Prelude Contract Errors Protocol Sock Frame Fd Lock Channel Role Crash StateJournal Supervisor SupervisorSafety Incumbent IncumbentSafety IncumbentAsked Bind Primitive PrimitiveSafety.
Local Open Scope Z_scope.

Abbreviation s_event := Supervisor.event.
Abbreviation o_event := Incumbent.event.
Abbreviation s_runs id := (runs (SupervisorSafety.contract_step id)).
Abbreviation o_runs := (runs IncumbentSafety.contract_step).
Abbreviation s_start := SupervisorSafety.contract_start.
Abbreviation o_start := IncumbentSafety.contract_start.

(** ** The state of the system *)
Inductive owner : Type := ByO | ByN.
#[export] Instance owner_eq_dec : EqDecision owner.
Proof. solve_decision. Defined.

(** What each process has done, the frames on their way ([so]: from the
    supervisor to the incumbent), the flock, and who lives. *)
Record global : Type := mkGlobal {
  s_done : list s_event; o_done : list o_event; n_done : list nevent;
  so : list Message; os : list Message; sn : list Message; ns : list Message;
  flock : option owner;
  o_alive : bool;
  n_alive : bool
}.

(** The incumbent has accepted the supervisor's connection; the successor does
    not exist. *)
Definition start : global := mkGlobal [] [] [] [] [] [] [] (Some ByO) true false.

(** A reader takes the oldest frame. *)
Definition pop (m : Message) (q : list Message) : option (list Message) :=
  match q with m' :: q => if decide (m' = m) then Some q else None | [] => None end.
(** A write that failed delivered no frame ([send_all] leaves a proper
    prefix). *)
Definition push (m : Message) (ok : bool) (q : list Message) : list Message :=
  if ok then q ++ [m] else q.
Definition free (p : owner) (f : option owner) : option owner :=
  if decide (f = Some p) then None else f.

Definition s_apply (e : s_event) (g : global) : option global :=
  let '(mkGlobal sd od nd so os sn ns f oa na) := g in
  let sd := sd ++ [e] in
  match e with
  | Supervisor.EvSend PO m ok => Some (mkGlobal sd od nd (push m ok so) os sn ns f oa na)
  | Supervisor.EvSend PN m ok => Some (mkGlobal sd od nd so os (push m ok sn) ns f oa na)
  | Supervisor.EvRecv PO m => os ← pop m os; Some (mkGlobal sd od nd so os sn ns f oa na)
  | Supervisor.EvRecv PN m => ns ← pop m ns; Some (mkGlobal sd od nd so os sn ns f oa na)
  | Supervisor.EvSpawn _ => Some (mkGlobal sd od nd so os sn ns f oa true)
  | Supervisor.EvKill _ => Some (mkGlobal sd od nd so os sn ns (free ByN f) oa false)
  | _ => Some (mkGlobal sd od nd so os sn ns f oa na)
  end.

Definition o_apply (e : o_event) (g : global) : option global :=
  let '(mkGlobal sd od nd so os sn ns f oa na) := g in
  let od := od ++ [e] in
  if negb oa then None else
  match e with
  | Incumbent.EvSend m ok => Some (mkGlobal sd od nd so (push m ok os) sn ns f oa na)
  | Incumbent.EvRecv m => so ← pop m so; Some (mkGlobal sd od nd so os sn ns f oa na)
  | Incumbent.EvLock =>
      if decide (f = None) then Some (mkGlobal sd od nd so os sn ns (Some ByO) oa na) else None
  | Incumbent.EvUnlock => Some (mkGlobal sd od nd so os sn ns (free ByO f) oa na)
  | _ => Some (mkGlobal sd od nd so os sn ns f oa na)
  end.

Definition n_apply (e : nevent) (g : global) : option global :=
  let '(mkGlobal sd od nd so os sn ns f oa na) := g in
  let nd := nd ++ [e] in
  if negb na then None else
  match e with
  | NvSend m ok => Some (mkGlobal sd od nd so os sn (push m ok ns) f oa na)
  | NvRecv m => sn ← pop m sn; Some (mkGlobal sd od nd so os sn ns f oa na)
  | NvLock => if decide (f = None) then Some (mkGlobal sd od nd so os sn ns (Some ByN) oa na) else None
  | NvUnlock => Some (mkGlobal sd od nd so os sn ns (free ByN f) oa na)
  | _ => Some (mkGlobal sd od nd so os sn ns f oa na)
  end.

Definition o_dies (g : global) : global :=
  let '(mkGlobal sd od nd so os sn ns f oa na) := g in
  mkGlobal sd od nd so os sn ns (free ByO f) false na.
Definition n_dies (g : global) : global :=
  let '(mkGlobal sd od nd so os sn ns f oa na) := g in
  mkGlobal sd od nd so os sn ns (free ByN f) oa false.

(** The supervisor's death is the end of its events. *)
Section steps.
Context (TS : list s_event) (TO : list o_event) (TN : list nevent).

Inductive gstep : global → global → Prop :=
| g_supervisor e g g' : s_done g ++ [e] `prefix_of` TS → s_apply e g = Some g' → gstep g g'
| g_incumbent e g g' : o_done g ++ [e] `prefix_of` TO → o_apply e g = Some g' → gstep g g'
| g_successor e g g' : n_done g ++ [e] `prefix_of` TN → n_apply e g = Some g' → gstep g g'
| g_incumbent_dies g : gstep g (o_dies g)
| g_successor_dies g : gstep g (n_dies g).

Definition reachable (g : global) : Prop := rtc gstep start g.

(** A schedule to run: whose turn it is. *)
Inductive turn : Type := TurnS | TurnO | TurnN.
Definition take_turn (t : turn) (g : global) : option global :=
  match t with
  | TurnS => e ← TS !! length (s_done g); s_apply e g
  | TurnO => e ← TO !! length (o_done g); o_apply e g
  | TurnN => e ← TN !! length (n_done g); n_apply e g
  end.
Fixpoint run_turns (ts : list turn) (g : global) : option global :=
  match ts with
  | [] => Some g
  | t :: ts => g ← take_turn t g; run_turns ts g
  end.
End steps.

(** ** What a trace has received and sent *)
Definition s_sent (p : Peer) (es : list s_event) : list Message :=
  omap (λ e, match e with Supervisor.EvSend q m true => if decide (q = p) then Some m else None | _ => None end) es.
Definition s_heard (p : Peer) (es : list s_event) : list Message :=
  omap (λ e, match e with Supervisor.EvRecv q m => if decide (q = p) then Some m else None | _ => None end) es.
Definition o_sent (es : list o_event) : list Message :=
  omap (λ e, match e with Incumbent.EvSend m true => Some m | _ => None end) es.
Definition o_heard (es : list o_event) : list Message :=
  omap (λ e, match e with Incumbent.EvRecv m => Some m | _ => None end) es.
Definition n_sent (es : list nevent) : list Message :=
  omap (λ e, match e with NvSend m true => Some m | _ => None end) es.
Definition n_heard (es : list nevent) : list Message :=
  omap (λ e, match e with NvRecv m => Some m | _ => None end) es.

Definition is_seal_request (m : Message) : bool := match m with SealRequest _ => true | _ => false end.
Definition seal_requests (ms : list Message) : nat := length (List.filter is_seal_request ms).

(** *** The supervisor asks for a seal once *)
Lemma one_seal_request id es c :
  s_runs id s_start es = Some c →
  (seal_requests (s_sent PO es) ≤ (if decide (rank (at_step c) < 5)%nat then 0 else 1))%nat.
Proof.
  revert c. induction es as [|e es IH] using rev_ind; intros c.
  { intros [= <-]. vm_compute. lia. }
  rewrite runs_app. destruct (s_runs id s_start es) as [c1|]; simpl; [|done].
  destruct (SupervisorSafety.contract_step id c1 e) as [c2|] eqn:He; simpl; [|done]. intros [= <-].
  specialize (IH c1 eq_refl). revert c1 e c2 He IH.
  enough (∀ c1 e c2, SupervisorSafety.contract_step id c1 e = Some c2 →
    (rank (at_step c1) ≤ rank (at_step c2))%nat ∧
    (seal_requests (s_sent PO [e]) ≤ (if decide (rank (at_step c1) < 5 ≤ rank (at_step c2))%nat then 1 else 0))%nat) as Hstep.
  { intros c1 e c2 He IH. destruct (Hstep _ _ _ He) as [H1 H2]. unfold s_sent, seal_requests in *.
    rewrite omap_app, List.filter_app, length_app. repeat case_decide; lia. }
  contract_cases; simpl; unfold seal_requests; simpl; repeat case_decide; simpl; try lia; try done;
    match goal with ok : bool |- _ => destruct ok end; simpl; lia.
Qed.

(** *** With one request, the incumbent resumes only with the flock *)
Definition o_calm (co : IncumbentSafety.contract) (b : bool) (k : nat) : Prop :=
  returned co = false → (k ≤ 1)%nat →
  reseal co = false ∧ stage co ≠ JustReturned ∧
  (b = true → locked co = true) ∧ (just_sealed co = true → b = false) ∧
  (k = 0%nat → locked co = true ∧ b = false ∧ just_sealed co = false).

Lemma o_calm_step co b k e co' b' :
  o_calm co b k → e ≠ Incumbent.EvAccept →
  IncumbentSafety.contract_step co e = Some co' → asked_step b e = Some b' →
  o_calm co' b' (k + seal_requests (o_heard [e])).
Proof.
  intros Hc He Hs Hb Hr Hk. destruct (contract_step_flags _ _ _ Hs) as (Hl & _ & Hsl & Hrt & Hret).
  pose proof (contract_step_reseal _ _ _ Hs) as Hrs.
  assert (returned co = false ∧ e ≠ Incumbent.EvReturn) as [Hr0 He'] by (rewrite <- not_true_iff_false in *; tauto).
  destruct (Hc Hr0 ltac:(lia)) as (H1 & H2 & H3 & H4 & H5). clear Hc.
  assert (stage co' ≠ JustReturned) as Hjr by (by rewrite Hrt).
  assert (just_sealed co' = true ↔ e = Incumbent.EvSeal true) as Hjs
    by (rewrite <- Hsl; unfold just_sealed; by destruct (stage co')).
  assert (e = Incumbent.EvSeal true ∨ e ≠ Incumbent.EvSeal true) as [->|Hne]
    by (destruct e as [| | | | |[]| | | |]; by auto).
  { simpl in *. rewrite Nat.add_0_r in *. destruct b; [|done]. simplify_eq. rewrite Hl, Hrs.
    split_and!; try done. intros Hk0. by destruct (H5 Hk0) as (_ & ? & _). }
  assert (just_sealed co' = false) as Hj by (apply not_true_iff_false; tauto).
  assert (e = Incumbent.EvUnlock → just_sealed co = true) as Hsealed.
  { intros ->. unfold IncumbentSafety.contract_step in Hs. case_match; [done|].
    destruct (locked co); [|done]. unfold may_release, just_sealed in *. by destruct (stage co). }
  unfold o_calm. rewrite Hj, Hrs, Hl. unfold seal_requests in *.
  destruct e as [|?|[]|? ?|? ?|[]|?| | |]; try done; simpl in *; rewrite ?Nat.add_0_r in *; simplify_eq;
    (split_and!; [try done|done|try done|try done|]); try done; try lia; try (intros Hk0; try lia; destruct (H5 ltac:(lia)) as (? & ? & ?); by split_and!).
  - destruct (H5 ltac:(lia)) as (-> & _). by rewrite H1.
  - intros _. destruct (H5 ltac:(lia)) as (? & _). done.
  - destruct b; by simplify_eq.
  - intros ->. by destruct (H5 eq_refl) as (_ & -> & _).
  - intros ->. by specialize (H4 (Hsealed eq_refl)).
  - intros Hk0. destruct (H5 Hk0) as (_ & _ & Hx). by rewrite (Hsealed eq_refl) in Hx.
Qed.

Lemma o_calm_runs es co b :
  o_runs o_start es = Some co → asking false es = Some b → Incumbent.EvAccept ∉ es →
  o_calm co b (seal_requests (o_heard es)).
Proof.
  revert co b. induction es as [|e es IH] using rev_ind; intros co b.
  { intros [= <-] [= <-] _ _ _. done. }
  rewrite !runs_app. destruct (o_runs o_start es) as [c1|]; simpl; [|done].
  destruct (asking false es) as [b1|]; simpl; [|by destruct (IncumbentSafety.contract_step c1 e)].
  destruct (IncumbentSafety.contract_step c1 e) as [c2|] eqn:He; simpl; [|done]. intros [= <-].
  destruct (asked_step b1 e) as [b2|] eqn:Hb; simpl; [|done]. intros [= <-] Hacc.
  assert (seal_requests (o_heard (es ++ [e])) = seal_requests (o_heard es) + seal_requests (o_heard [e]))%nat as ->.
  { unfold seal_requests, o_heard. by rewrite omap_app, List.filter_app, length_app. }
  eapply o_calm_step; [apply IH; [done|done|set_solver]|set_solver|done|done].
Qed.

(** *** What one event does to the child, and to the flock *)
Lemma s_child id c e c' :
  SupervisorSafety.contract_step id c e = Some c' →
  match e with
  | EvSpawn p => child c = NoKid ∧ child c' = Alive p
  | EvKill p => child c = Alive p ∧ child c' = Killed p
  | EvDisarm p => child c = Alive p ∧ child c' = Released p
  | _ => child c' = child c
  end.
Proof. revert c e c'. contract_cases; done. Qed.

Lemma n_flock s e s' :
  nstep s e = Some s' →
  n_holds s' = match e with NvLock => true | NvUnlock => false | _ => n_holds s end ∧
  (e = NvLock → n_holds s = false).
Proof. destruct s, e; simpl; intros; repeat case_match; simplify_eq/=; done. Qed.

Lemma pop_app m q q' : pop m q = Some q' → q = m :: q'.
Proof. destruct q as [|m' q]; simpl; [done|]. case_decide; naive_solver. Qed.
Lemma push_app m ok q : push m ok q = q ++ (if ok then [m] else []).
Proof. destruct ok; simpl; [done|by rewrite app_nil_r]. Qed.

(** ** The invariant *)
Section invariant.
Context (id : HandoffId) (TS : list s_event) (TO : list o_event) (TN : list nevent).
Hypothesis HS : is_Some (s_runs id s_start TS).
Hypothesis HO : is_Some (o_runs o_start TO).
Hypothesis HA : is_Some (asking false TO).
Hypothesis HOacc : Incumbent.EvAccept ∉ TO.
Hypothesis HN : is_Some (nruns NIdle TN).

(** A prefix of a run is accepted too. *)
Lemma runs_next {C E} (step : C → E → option C) c0 c T es e :
  is_Some (runs step c0 T) → es ++ [e] `prefix_of` T → runs step c0 es = Some c →
  ∃ c', step c e = Some c' ∧ runs step c0 (es ++ [e]) = Some c'.
Proof.
  intros [c1 HT] [rest ->] Hes. rewrite <- app_assoc in HT. simpl in HT.
  apply runs_split in HT as (c2 & c3 & H1 & H2 & _). rewrite Hes in H1. simplify_eq.
  exists c3. split; [done|]. by rewrite (runs_emit _ _ _ _ Hes).
Qed.

(** Each process keeps its contract. *)
Record accepted (g : global) (cs : SupervisorSafety.contract) (co : IncumbentSafety.contract) (b : bool)
    (s : nstate) : Prop := {
  a_s : s_runs id s_start (s_done g) = Some cs;
  a_o : o_runs o_start (o_done g) = Some co;
  a_asked : asking false (o_done g) = Some b;
  a_accept : Incumbent.EvAccept ∉ o_done g;
  a_n : nruns NIdle (n_done g) = Some s
}.

(** What was sent was received or is on its way. *)
Record wired (g : global) : Prop := {
  w_so : s_sent PO (s_done g) = o_heard (o_done g) ++ so g;
  w_os : o_sent (o_done g) = s_heard PO (s_done g) ++ os g;
  w_sn : s_sent PN (s_done g) = n_heard (n_done g) ++ sn g;
  w_ns : n_sent (n_done g) = s_heard PN (s_done g) ++ ns g
}.

(** The flock, and whose child the successor is. *)
Record owned (g : global) (cs : SupervisorSafety.contract) (co : IncumbentSafety.contract) (s : nstate)
    : Prop := {
  w_by_o : flock g = Some ByO ↔ o_alive g = true ∧ locked co = true;
  w_by_n : flock g = Some ByN ↔ n_alive g = true ∧ n_holds s = true;
  w_child : n_alive g = true → ∃ p, child cs = Alive p ∨ child cs = Released p;
  w_unborn : child cs = NoKid → n_holds s = false
}.

(** *** The channels *)
Ltac wire :=
  repeat match goal with ok : bool |- _ => destruct ok end;
  unfold s_sent, s_heard, o_sent, o_heard, n_sent, n_heard in *; simpl in *;
  rewrite ?omap_app; simpl; rewrite ?app_nil_r;
  try assumption;
  match goal with Hw : _ = _ ++ _ |- _ = _ => rewrite Hw, <- ?app_assoc; reflexivity end.

Lemma wired_start : wired start.
Proof. done. Qed.

Lemma wired_s e g g' : wired g → s_apply e g = Some g' → wired g'.
Proof.
  intros [Hso Hos Hsn Hns] Hg. destruct g as [sd od nd so os sn ns f oa na]; simpl in *.
  destruct e as [[] m ok|[] m| | | | | |[]]; simpl in Hg;
    try (destruct (pop m _) as [q|] eqn:Hq; [apply pop_app in Hq|done]); simplify_eq/=; split; simpl; wire.
Qed.
Lemma wired_o e g g' : wired g → o_apply e g = Some g' → wired g'.
Proof.
  intros [Hso Hos Hsn Hns] Hg. destruct g as [sd od nd so os sn ns f [] na]; simpl in *; [|done].
  destruct e as [?|?|m|m ok|? []|[]|[]| | |]; simpl in Hg; try case_decide;
    try (destruct (pop m _) as [q|] eqn:Hq; [apply pop_app in Hq|done]); simplify_eq/=; split; simpl; wire.
Qed.
Lemma wired_n e g g' : wired g → n_apply e g = Some g' → wired g'.
Proof.
  intros [Hso Hos Hsn Hns] Hg. destruct g as [sd od nd so os sn ns f oa []]; simpl in *; [|done].
  destruct e as [m|m ok| | | |]; simpl in Hg; try case_decide;
    try (destruct (pop m _) as [q|] eqn:Hq; [apply pop_app in Hq|done]); simplify_eq/=; split; simpl; wire.
Qed.

(** *** What a step leaves alone *)
Lemma s_apply_rest e g g' : s_apply e g = Some g' →
  s_done g' = s_done g ++ [e] ∧ o_done g' = o_done g ∧ n_done g' = n_done g ∧ o_alive g' = o_alive g ∧
  n_alive g' = match e with EvSpawn _ => true | EvKill _ => false | _ => n_alive g end ∧
  flock g' = match e with EvKill _ => free ByN (flock g) | _ => flock g end.
Proof.
  destruct g as [sd od nd so os sn ns f oa na]. intros Hg.
  destruct e as [[] m ok|[] m| | | | | |[]]; simpl in *; try (destruct (pop m _); [|done]); by simplify_eq/=.
Qed.
Lemma o_apply_rest e g g' : o_apply e g = Some g' →
  s_done g' = s_done g ∧ o_done g' = o_done g ++ [e] ∧ n_done g' = n_done g ∧ o_alive g = true ∧
  o_alive g' = true ∧ n_alive g' = n_alive g ∧ (e = Incumbent.EvLock → flock g = None) ∧
  flock g' = match e with
             | Incumbent.EvLock => Some ByO | Incumbent.EvUnlock => free ByO (flock g) | _ => flock g
             end.
Proof.
  destruct g as [sd od nd so os sn ns f [] na]; intros Hg; [|done].
  destruct e as [?|?|m|m ok|? []|[]|[]| | |]; simpl in *; try case_decide; try (destruct (pop m _); [|done]);
    by simplify_eq/=.
Qed.
Lemma n_apply_rest e g g' : n_apply e g = Some g' →
  s_done g' = s_done g ∧ o_done g' = o_done g ∧ n_done g' = n_done g ++ [e] ∧ o_alive g' = o_alive g ∧
  n_alive g = true ∧ n_alive g' = true ∧ (e = NvLock → flock g = None) ∧
  flock g' = match e with NvLock => Some ByN | NvUnlock => free ByN (flock g) | _ => flock g end.
Proof.
  destruct g as [sd od nd so os sn ns f oa []]; intros Hg; [|done].
  destruct e as [m|m ok| | | |]; simpl in *; try case_decide; try (destruct (pop m _); [|done]);
    by simplify_eq/=.
Qed.

Lemma free_ne p q f : p ≠ q → free p f = Some q ↔ f = Some q.
Proof. unfold free. case_decide; naive_solver. Qed.
Lemma free_eq p f : free p f ≠ Some p.
Proof. unfold free. case_decide; naive_solver. Qed.

(** *** The invariant is kept *)
Definition inv (g : global) : Prop :=
  wired g ∧ ∃ cs co b s, accepted g cs co b s ∧ owned g cs co s.

Lemma inv_start : inv start.
Proof.
  split; [done|]. exists s_start, o_start, false, NIdle. split; split; simpl; try done; set_solver.
Qed.

Lemma inv_s e g g' : inv g → s_done g ++ [e] `prefix_of` TS → s_apply e g = Some g' → inv g'.
Proof.
  intros (Hw & cs & co & b & s & [As Ao Ab Aa An] & [Oo On Oc Ou]) Hpre Hg.
  split; [by eapply wired_s|]. destruct (runs_next _ _ _ _ _ _ HS Hpre As) as (cs' & Hstep & Hrun).
  destruct (s_apply_rest _ _ _ Hg) as (Hs & Ho & Hn & Hoa & Hna & Hf).
  pose proof (s_child _ _ _ _ Hstep) as Hch.
  exists cs', co, b, s. split; [split; by rewrite ?Hs, ?Ho, ?Hn|].
  destruct e; try (split; rewrite ?Hoa, ?Hna, ?Hf, ?Hch; by auto).
  - destruct Hch as [Hch Hch']. split; rewrite ?Hoa, ?Hna, ?Hf, ?Hch'; [done| |by eauto|done].
    rewrite (Ou Hch), On. naive_solver.
  - destruct Hch as [Hch Hch']. split; rewrite ?Hoa, ?Hna, ?Hf, ?Hch'; [by rewrite free_ne| |done|done].
    split; [intros Hx; by apply free_eq in Hx|by intros []].
  - destruct Hch as [Hch Hch']. split; rewrite ?Hoa, ?Hna, ?Hf, ?Hch'; [done|done|by eauto|done].
Qed.

Lemma inv_o e g g' : inv g → o_done g ++ [e] `prefix_of` TO → o_apply e g = Some g' → inv g'.
Proof.
  intros (Hw & cs & co & b & s & [As Ao Ab Aa An] & [Oo On Oc Ou]) Hpre Hg.
  split; [by eapply wired_o|]. destruct (runs_next _ _ _ _ _ _ HO Hpre Ao) as (co' & Hstep & Hrun).
  destruct (runs_next _ _ _ _ _ _ HA Hpre Ab) as (b' & Hb & Hrunb).
  destruct (o_apply_rest _ _ _ Hg) as (Hs & Ho & Hn & Hoa & Hoa' & Hna & Hlk & Hf).
  destruct (contract_step_flags _ _ _ Hstep) as (Hl & _).
  exists cs, co', b', s. split.
  - split; rewrite ?Hs, ?Ho, ?Hn; try done. intros Hin. apply HOacc.
    destruct Hpre as [rest ->]. set_solver.
  - rewrite Hoa in Oo. split; rewrite ?Hna, ?Hoa', ?Hf, ?Hl; [| |done|done].
    + destruct e; try done. split; [intros Hx; by apply free_eq in Hx|by intros []].
    + destruct e; try done; [by rewrite free_ne|]. specialize (Hlk eq_refl). rewrite Hlk in On. naive_solver.
Qed.

Lemma inv_n e g g' : inv g → n_done g ++ [e] `prefix_of` TN → n_apply e g = Some g' → inv g'.
Proof.
  intros (Hw & cs & co & b & s & [As Ao Ab Aa An] & [Oo On Oc Ou]) Hpre Hg.
  split; [by eapply wired_n|]. destruct (runs_next _ _ _ _ _ _ HN Hpre An) as (s' & Hstep & Hrun).
  destruct (n_apply_rest _ _ _ Hg) as (Hs & Ho & Hn & Hoa & Hna & Hna' & Hlk & Hf).
  destruct (n_flock _ _ _ Hstep) as [Hh _].
  exists cs, co, b, s'. split; [split; by rewrite ?Hs, ?Ho, ?Hn|].
  rewrite Hna in On. destruct (Oc Hna) as (p & Hp).
  split; rewrite ?Hna', ?Hoa, ?Hf, ?Hh.
  - destruct e; rewrite ?free_ne by done; try done. specialize (Hlk eq_refl). rewrite Hlk in Oo. naive_solver.
  - destruct e; try done. split; [intros Hx; by apply free_eq in Hx|by intros []].
  - eauto.
  - intros Hno. destruct Hp; congruence.
Qed.

Lemma inv_dies g : inv g → inv (o_dies g) ∧ inv (n_dies g).
Proof.
  intros (Hw & cs & co & b & s & Ha & [Oo On Oc Ou]).
  destruct g as [sd od nd so os sn ns f oa na]. simpl in *.
  assert (∀ p q f', p ≠ q → free p f' = Some q ↔ f' = Some q) as Hne by apply free_ne.
  split; (split; [by destruct Hw|]); exists cs, co, b, s; (split; [by destruct Ha|]); split; simpl; try done.
  - split; [intros Hx; by apply free_eq in Hx|by intros []].
  - by rewrite Hne.
  - by rewrite Hne.
  - split; [intros Hx; by apply free_eq in Hx|by intros []].
Qed.

Lemma system_inv g : reachable TS TO TN g → inv g.
Proof.
  intros Hr. pose proof inv_start as Hi. revert Hr Hi. unfold reachable. generalize start. intros g0 Hr.
  induction Hr as [|g1 g2 g3 Hstep _ IH]; intros Hi; [done|]. apply IH.
  destruct Hstep as [e h h' Hp Hg|e h h' Hp Hg|e h h' Hp Hg|h|h].
  - by eapply inv_s.
  - by eapply inv_o.
  - by eapply inv_n.
  - by apply inv_dies.
  - by apply inv_dies.
Qed.

End invariant.

(** ** What the invariant gives *)
Lemma received_was_sent m g : wired g → m ∈ o_heard (o_done g) → m ∈ s_sent PO (s_done g).
Proof. intros [-> _ _ _] Hm. apply elem_of_app. by left. Qed.

Lemma s_sent_event p m es : m ∈ s_sent p es → Supervisor.EvSend p m true ∈ es.
Proof. intros (e & He & Hm)%list_elem_of_omap. destruct e as [q m' []| | | | | | |]; try done. case_decide; naive_solver. Qed.
Lemma s_heard_event p m es : Supervisor.EvRecv p m ∈ es → m ∈ s_heard p es.
Proof. intros He. apply list_elem_of_omap. eexists. split; [exact He|]. simpl. by rewrite decide_True. Qed.
Lemma o_heard_event m es : m ∈ o_heard es ↔ Incumbent.EvRecv m ∈ es.
Proof.
  unfold o_heard. rewrite list_elem_of_omap. split; [|by eauto].
  intros (e & He & Hm). destruct e; naive_solver.
Qed.

(** An incumbent that accepts writes has the flock, in a session in which it
    was asked to seal at most once. *)
Lemma session_locked es co b :
  o_runs o_start es = Some co → asking false es = Some b → Incumbent.EvAccept ∉ es →
  paused co = false → returned co = false → (seal_requests (o_heard es) ≤ 1)%nat → locked co = true.
Proof.
  revert co b. induction es as [|e es IH] using rev_ind; intros co b Ao Ab Hacc Hp Hr Hk.
  { simpl in Ao. by simplify_eq. }
  pose proof (o_calm_runs _ _ _ Ao Ab Hacc Hr Hk) as (Hrs & _).
  rewrite runs_app in Ao. rewrite runs_app in Ab. destruct (o_runs o_start es) as [c1|] eqn:H1; simpl in Ao; [|done].
  destruct (asking false es) as [b1|] eqn:Hb1; simpl in Ab; [|done].
  destruct (IncumbentSafety.contract_step c1 e) as [c2|] eqn:He; simpl in Ao; [|done]. simplify_eq Ao. intros ->.
  assert (seal_requests (o_heard es) ≤ 1)%nat as Hk1.
  { unfold seal_requests, o_heard in *. rewrite omap_app, List.filter_app, length_app in Hk. lia. }
  specialize (IH c1 b1 eq_refl eq_refl). destruct (contract_step_flags _ _ _ He) as (Hl & Hpa & _ & _ & Hre).
  assert (returned c1 = false) as Hr1.
  { destruct (returned c1) eqn:Hx; [|done]. rewrite (proj2 Hre) in Hr by (by left). done. }
  assert (EvAccept ∉ es) as Hacc1 by set_solver.
  destruct e as [|?|?|? ?|? []|[]|?| | |]; rewrite ?Hl; try congruence; try (apply IH; congruence || done).
  all: unfold IncumbentSafety.contract_step in He; case_match; try done; case_match eqn:Hor; simplify_eq/=.
  - rewrite Hrs, orb_false_r in Hor. done.
  - apply andb_true_iff in Hor as [_ Hj]. destruct (follows_flags _ _ H1) as (_ & Hp1 & _).
    destruct (o_calm_runs _ _ _ H1 Hb1 Hacc1 Hr1 Hk1) as (_ & Hnr & _).
    assert (stage c1 = JustSealed) as Hst by (unfold may_release in Hj; by destruct (stage c1)).
    apply (follows_stage _ _ H1) in Hst as [es' ->]. unfold is_paused in Hp1. rewrite foldl_app in Hp1. simpl in Hp1. congruence.
Qed.

(** This supervisor asks once. *)
Lemma asked_once id (sd : list s_event) cs heard q :
  s_runs id s_start sd = Some cs → s_sent PO sd = heard ++ q → (seal_requests heard ≤ 1)%nat.
Proof.
  intros As Hso. pose proof (one_seal_request id _ _ As) as Hone. rewrite Hso in Hone.
  unfold seal_requests in *. rewrite List.filter_app, length_app in Hone. case_decide; lia.
Qed.

Lemma o_active_locked id g cs co b s :
  wired g → accepted id g cs co b s → paused co = false → returned co = false → locked co = true.
Proof.
  intros Hw [As Ao Ab Aa An] Hp Hr. eapply session_locked; [done..|].
  eapply asked_once; [exact As|apply Hw].
Qed.

(** *** Reading the traces *)
Definition n_holding (es : list nevent) : bool :=
  foldl (λ h e, match e with NvLock => true | NvUnlock => false | _ => h end) false es.

Lemma n_holding_state es s : nruns NIdle es = Some s → n_holds s = n_holding es.
Proof.
  revert s. induction es as [|e es IH] using rev_ind; intros s.
  { by intros [= <-]. }
  rewrite runs_app. destruct (nruns NIdle es) as [s1|]; simpl; [|done].
  destruct (nstep s1 e) as [s2|] eqn:He; simpl; [|done]. intros [= <-].
  destruct (n_flock _ _ _ He) as [-> _]. unfold n_holding. rewrite foldl_app. simpl.
  specialize (IH s1 eq_refl). by destruct e.
Qed.

(** A session of the incumbent: what it does between two [accept]s. *)
Definition session_of (es TO : list o_event) : Prop :=
  Incumbent.EvAccept ∉ TO ∧ ∃ pre post, es = pre ++ Incumbent.EvAccept :: TO ++ post.

Lemma session_runs es TO c b :
  o_runs o_start es = Some c → asking false es = Some b → session_of es TO →
  is_Some (o_runs o_start TO) ∧ is_Some (asking false TO).
Proof.
  intros Hc Hb [_ (pre & post & ->)].
  apply runs_split in Hc as (c1 & c2 & _ & Hs & Hc). apply runs_split in Hb as (b1 & b2 & _ & Hs' & Hb).
  simpl in Hs, Hs'. unfold IncumbentSafety.contract_step in Hs. case_match; simplify_eq.
  rewrite runs_app in Hc. rewrite runs_app in Hb.
  split; [by destruct (o_runs o_start TO)|by destruct (asking false TO)].
Qed.

(** The successor was told to begin before it locked; once it serves it has
    the flock. *)
Definition n_begun (s : nstate) : bool :=
  match s with NIdle | NGreeted | NShook _ => false | _ => true end.

Lemma n_told es s :
  nruns NIdle es = Some s → NvLock ∈ es → ∃ i, NvRecv (Begin i) ∈ es.
Proof.
  intros Hs Hl. assert (n_begun s = true) as Hb.
  { eapply (stays (step := nstep) n_begun (λ e, match e with NvLock => true | _ => false end));
      [|exact Hs|right; by exists NvLock].
    intros c e c' He [Hc|Hc]; destruct c, e; simpl in *; repeat case_match; simplify_eq/=; done. }
  destruct (raised (step := nstep) n_begun
    (λ e, match e with NvRecv (Begin _) => true | _ => false end) NIdle es s) as (e & He & Hq); [|done..|].
  - intros c e c' He Hc. destruct c, e as [[]|[]| | | |]; simpl in *; repeat case_match; simplify_eq/=; auto.
  - destruct e as [[]| | | | |]; try done. eauto.
Qed.

Lemma n_serving es s : nruns NIdle es = Some s → NvServe ∈ es → n_holds s = true.
Proof.
  intros Hs Hl.
  assert (match s with NServing _ => true | _ => false end = true) as Hq; [|by destruct s].
  eapply (stays (step := nstep) (λ s, match s with NServing _ => true | _ => false end)
    (λ e, match e with NvServe => true | _ => false end)); [|exact Hs|right; by exists NvServe].
  intros c e c' He [Hc|Hc]; destruct c, e; simpl in *; repeat case_match; simplify_eq/=; done.
Qed.

(** The incumbent says [SealComplete] only after it gave the flock up. *)
Lemma o_sealed es c id revs fp ok :
  o_runs o_start es = Some c → Incumbent.EvSend (SealComplete id revs fp) ok ∈ es →
  Incumbent.EvUnlock ∈ es ∧ (Incumbent.EvSeal true ∈ es ∨ Incumbent.EvReturn ∈ es).
Proof.
  intros Hc (es1 & es2 & ->)%list_elem_of_split.
  apply runs_split in Hc as (c1 & c2 & H1 & Hs & _). unfold IncumbentSafety.contract_step in Hs.
  case_match; [done|]. destruct (locked c1) eqn:Hl; simpl in Hs; [done|]. destruct (follows_flags _ _ H1) as (Hh & _).
  rewrite Hl in Hh. unfold holds_flock in Hh.
  assert (Incumbent.EvUnlock ∈ es1) as Hu.
  { clear -Hh. induction es1 as [|e es IH] using rev_ind; [done|]. rewrite foldl_app in Hh. simpl in Hh.
    destruct e; try done; try (apply elem_of_app; left; by apply IH). set_solver. }
  split; [set_solver|]. apply list_elem_of_split in Hu as (es3 & es4 & ->).
  apply runs_split in H1 as (c3 & c4 & H3 & Hs3 & _). unfold IncumbentSafety.contract_step in Hs3.
  case_match; [done|]. case_match eqn:Hor; [|done]. apply andb_true_iff in Hor as [_ Hj].
  destruct (follows_stage _ _ H3) as [Hse Hre]. unfold may_release in Hj.
  destruct (stage c3); try done; [left; destruct (proj1 Hse eq_refl) as [es' ->]|
    right; destruct (proj1 Hre eq_refl) as [es' ->]]; set_solver.
Qed.

(** ** Properties *)

Definition incumbent_serves (g : global) : Prop :=
  o_alive g = true ∧ is_paused (o_done g) = false ∧ Incumbent.EvReturn ∉ o_done g.
Definition successor_holds (g : global) : Prop :=
  n_alive g = true ∧ n_holding (n_done g) = true.

(** One handoff between the library's supervisor, incumbent and a primitive. *)
Section handoff.
Context {T1 T2 T3 C2 C3 : Type}.
Context `{ControlChannel T1, !ChannelLaws T1, JournalCodec}.
Context `{ControlChannel T2, Drainable C2, !ChannelLaws T2}.
Context `{ControlChannel T3, Drainable C3, !ChannelLaws T3}.
Context (se : SEnv T1) (spec : SpawnSpec) (sw : Supervisor.World T1).
Context (oe : Env) (accepts : list (result IoError (Connection T2))) (ow : Incumbent.World T2 C2).
Context (ne : PEnv T3 C3) (succ : Successor) (data_dir control_socket : string) (nw : PWorld T3).

Definition supervisor_ready : Prop := valid_env se ∧ fresh sw ∧ Supervisor.in_flight sw = false.
Definition incumbent_ready : Prop :=
  others_fair oe ∧ time_flows oe ∧ valid_accepts accepts ∧ starts_with_lock oe ow.
Definition successor_ready : Prop :=
  fair ne (me nw) ∧ (∀ n, 0 ≤ e_delay ne n) ∧ valid_accepts (e_accepts ne) ∧
  bindable ne (me nw) control_socket nw ∧
  log (p_chan nw) = [] ∧ p_served nw = [] ∧ flock_holder (p_dir nw) ≠ Some (me nw).

Definition s_trace : list s_event := Supervisor.trace (perform_handoff se spec sw).2.
Definition o_trace : list o_event := Incumbent.trace (serve oe accepts ow).2.
Definition n_trace : list nevent := log (p_chan (run_successor ne succ data_dir control_socket nw).2).

Abbreviation id := (new_handoff_id se).

Lemma handoff_inv TO g :
  supervisor_ready → incumbent_ready → successor_ready → session_of o_trace TO →
  reachable s_trace TO n_trace g → inv id g.
Proof.
  intros (Hv & Hfr & Hfl) (Hof & Htf & Hac & Hst) (Hfair & Htime & Hacc & Hbind & Hlog & Hsv & Hno) Hses.
  destruct (handoff_runs se spec sw Hv Hfr Hfl) as (cs & Hs & _).
  destruct (serve_runs oe accepts ow Hof Htf Hac Hst) as (co & Ho & _).
  destruct (serve_asked oe accepts ow) as [b Hb]; [apply Hst|].
  destruct (session_runs _ _ _ _ Ho Hb Hses) as [Ho' Hb'].
  apply system_inv; [by exists cs|done|done|apply Hses|].
  apply (successor_runs ne (me nw)); try done. split; [by rewrite Hlog|]. split; [done|]. by split.
Qed.

(** What the invariant says of the flock. *)
Lemma inv_flock g :
  inv id g →
  (incumbent_serves g → flock g = Some ByO) ∧ (successor_holds g → flock g = Some ByN) ∧
  (n_alive g = true → NvServe ∈ n_done g → successor_holds g).
Proof.
  intros (Hw & cs & co & b & s & Ha & [Oo On Oc Ou]). pose proof Ha as [As Ao Ab Aa An].
  destruct (follows_flags _ _ Ao) as (_ & Hp & _ & Hr). split_and!.
  - intros (Hoa & Hpa & Hre). apply Oo. split; [done|].
    eapply o_active_locked; [exact Hw|exact Ha|congruence|]. destruct (returned co); [|done].
    by destruct Hre; apply Hr.
  - intros [Hna Hh]. apply On. split; [done|]. by rewrite (n_holding_state _ _ An).
  - intros Hna Hsv. split; [done|]. rewrite <- (n_holding_state _ _ An). by eapply n_serving.
Qed.

(** What it says of the verdicts. *)
Lemma inv_resumed g i :
  inv id g → Incumbent.EvRecv (ResumeAfterAbort i) ∈ o_done g →
  i = id ∧ n_alive g = false ∧ flock g ≠ Some ByN.
Proof.
  intros (Hw & cs & co & b & s & [As Ao Ab Aa An] & [Oo On Oc Ou]) Hi.
  apply o_heard_event, (received_was_sent _ _ Hw), s_sent_event in Hi.
  destruct (past_resume id _ cs As i true Hi) as (_ & p & Hp).
  assert (n_alive g = false) as Hna.
  { destruct (n_alive g); [|done]. destruct (Oc eq_refl) as (q & [Hq|Hq]); congruence. }
  split; [|split; [done|]].
  - apply list_elem_of_split in Hi as (es1 & es2 & Hes). rewrite Hes in As.
    by destruct (follows_order _ _ _ _ _ As).
  - rewrite On, Hna. by intros [].
Qed.

Lemma inv_committed g i :
  inv id g → Incumbent.EvRecv (Commit i) ∈ o_done g →
  i = id ∧ (∃ ls hz revs, NvSend (Ready id ls hz revs) true ∈ n_done g) ∧
  ∀ pid, Supervisor.EvKill pid ∉ s_done g.
Proof.
  intros (Hw & cs & co & b & s & [As Ao Ab Aa An] & _) Hi.
  apply o_heard_event, (received_was_sent _ _ Hw), s_sent_event in Hi.
  apply list_elem_of_split in Hi as (es1 & es2 & Hes). rewrite Hes in As.
  destruct (follows_order _ _ _ _ _ As) as (-> & (ls & hz & revs & Hr) & _ & Hk & _).
  split; [done|]. split.
  - exists ls, hz, revs. destruct Hw as [_ _ _ Hns].
    assert (Ready id ls hz revs ∈ n_sent (n_done g)) as Hin.
    { rewrite Hns. apply elem_of_app. left. apply s_heard_event. rewrite Hes. set_solver. }
    apply list_elem_of_omap in Hin as (e & He & Hm). destruct e as [|m []| | | |]; naive_solver.
  - intros pid Hin. apply (Hk pid). rewrite Hes in Hin. set_solver.
Qed.

Lemma inv_locked g :
  inv id g → NvLock ∈ n_done g →
  Incumbent.EvUnlock ∈ o_done g ∧ (Incumbent.EvSeal true ∈ o_done g ∨ Incumbent.EvReturn ∈ o_done g).
Proof.
  intros (Hw & cs & co & b & s & [As Ao Ab Aa An] & _) Hl. destruct Hw as [_ Hos Hsn _].
  destruct (n_told _ _ An Hl) as [i Hi].
  assert (Begin i ∈ s_sent PN (s_done g)) as Hb.
  { rewrite Hsn. apply elem_of_app. left. apply list_elem_of_omap. by eexists. }
  apply s_sent_event, list_elem_of_split in Hb as (es1 & es2 & Hes). rewrite Hes in As.
  destruct (follows_order _ _ _ _ _ As) as (_ & revs & fp & Hsc).
  assert (SealComplete id revs fp ∈ o_sent (o_done g)) as Hin.
  { rewrite Hos. apply elem_of_app. left. apply s_heard_event. rewrite Hes. set_solver. }
  apply list_elem_of_omap in Hin as (e & He & Hm).
  assert (e = Incumbent.EvSend (SealComplete id revs fp) true) as -> by (destruct e as [| | |m []| | | | | |]; naive_solver).
  by eapply o_sealed.
Qed.
End handoff.

(** *** Running a schedule *)
Section schedule.
Context (TS : list s_event) (TO : list o_event) (TN : list nevent).

Definition on_track (g : global) : Prop :=
  s_done g `prefix_of` TS ∧ o_done g `prefix_of` TO ∧ n_done g `prefix_of` TN.

Lemma prefix_next {A} (es T : list A) e :
  es `prefix_of` T → T !! length es = Some e → es ++ [e] `prefix_of` T.
Proof.
  intros [rest ->]. rewrite lookup_app_r, Nat.sub_diag by done. destruct rest as [|x rest]; [done|].
  intros [= ->]. exists rest. by rewrite <- app_assoc.
Qed.

Lemma take_turn_step t g g' :
  on_track g → take_turn TS TO TN t g = Some g' → gstep TS TO TN g g' ∧ on_track g'.
Proof.
  intros (Hs & Ho & Hn) Ht. destruct t; simpl in Ht; apply bind_Some in Ht as (e & He & Hg).
  - pose proof (prefix_next _ _ _ Hs He). destruct (s_apply_rest _ _ _ Hg) as (Es & Eo & En & _).
    split; [by eapply g_supervisor|]. unfold on_track. by rewrite Es, Eo, En.
  - pose proof (prefix_next _ _ _ Ho He). destruct (o_apply_rest _ _ _ Hg) as (Es & Eo & En & _).
    split; [by eapply g_incumbent|]. unfold on_track. by rewrite Es, Eo, En.
  - pose proof (prefix_next _ _ _ Hn He). destruct (n_apply_rest _ _ _ Hg) as (Es & Eo & En & _).
    split; [by eapply g_successor|]. unfold on_track. by rewrite Es, Eo, En.
Qed.

Lemma run_turns_reachable ts g : run_turns TS TO TN ts start = Some g → reachable TS TO TN g.
Proof.
  assert (∀ ts g0, on_track g0 → run_turns TS TO TN ts g0 = Some g → rtc (gstep TS TO TN) g0 g) as Hrun.
  { clear ts. intros ts. induction ts as [|t ts IH]; intros g0 Hg0; simpl; [intros [= ->]; constructor|].
    intros (g1 & H1 & H2)%bind_Some. destruct (take_turn_step _ _ _ Hg0 H1) as [Hstep Hg1].
    eapply rtc_l; [exact Hstep|by apply IH]. }
  apply Hrun. split_and!; apply prefix_nil.
Qed.
End schedule.

(** The three in conversation. *)
Module SystemDemo.
Definition id1 : HandoffId := mkHandoffId 1.
Definition hello (s : Side) (pid : Z) (b : list byte) : Message := Hello s pid b 1 1 Capabilities_default.
Definition o_says : list Message :=
  [hello Protocol.Incumbent 42 []; Heartbeat 2000; Drained 0 true; Heartbeat 4000; SealComplete id1 [7] []].
Definition n_says : list Message := [hello Protocol.Successor 77 test_build_id; Ready id1 [] true [43]].
Definition se : SEnv Script.script :=
  mkSEnv 5 true (Ok (Script.says o_says)) (Ok tt) (Ok (Script.says n_says)) (Ok 77) (Ok tt) id1
    (λ _, 1) (λ _, Ok 0%nat) (λ _, journal_ok) (λ t, t) (λ _, "an error"%string) (λ _, "id"%string) no_crash.
Definition to_o : list Message :=
  [HelloAck 1 id1; PrepareHandoff id1 77 299993 60000; SealRequest id1; Commit id1].
Definition accepts : list (result IoError (Connection Script.script)) := [Demo.connection to_o].
Abbreviation TS := (s_trace (H0 := SupervisorDemo.codec) se SupervisorDemo.spec SupervisorDemo.start).
Definition TO : list o_event := tail (o_trace Demo.env accepts Demo.start0).
Definition ne : PEnv Script.script Demo.app := PrimitiveDemo.env [].
Definition nw : PWorld Script.script := PrimitiveDemo.start [HelloAck 1 id1; Begin id1].
Abbreviation TN := (n_trace ne PrimitiveDemo.succ "/d" "/run/h.sock" nw).

(** Whoever can move, the successor first. *)
Fixpoint greedy (fuel : nat) (g : global) : list turn :=
  match fuel with
  | O => []
  | S fuel =>
      match take_turn TS TO TN TurnN g, take_turn TS TO TN TurnO g, take_turn TS TO TN TurnS g with
      | Some g, _, _ => TurnN :: greedy fuel g
      | _, Some g, _ => TurnO :: greedy fuel g
      | _, _, Some g => TurnS :: greedy fuel g
      | _, _, _ => []
      end
  end.
Definition last_state : global := default start (run_turns TS TO TN (greedy 100 start) start).

Lemma supervisor_ok : supervisor_ready se SupervisorDemo.start.
Proof. split; [by split|]. by split. Qed.
Lemma incumbent_ok : incumbent_ready Demo.env accepts Demo.start0.
Proof.
  split; [apply Demo.env_fair|]. split; [apply Demo.env_time|].
  split; [exact (Demo.connections_valid [to_o])|apply Demo.start_ok].
Qed.
Lemma successor_ok : successor_ready ne "/run/h.sock" nw.
Proof.
  split; [intros n d; reflexivity|]. split; [intros n; discriminate|]. split; [constructor|].
  split; [split; [discriminate|reflexivity]|]. split; [reflexivity|]. split; [reflexivity|discriminate].
Qed.
Lemma session_ok : session_of (o_trace Demo.env accepts Demo.start0) TO.
Proof.
  split.
  - assert (forallb (λ e, match e with Incumbent.EvAccept => false | _ => true end) TO = true) as Hb
      by (vm_compute; reflexivity).
    intros Hin%list_elem_of_In. rewrite forallb_forall in Hb. discriminate (Hb _ Hin).
  - exists [], []. vm_compute. reflexivity.
Qed.
Lemma last_reachable : reachable TS TO TN last_state.
Proof.
  apply (run_turns_reachable TS TO TN (greedy 100 start)). unfold last_state.
  destruct (run_turns TS TO TN (greedy 100 start) start) eqn:Hr; [done|].
  assert (is_Some (run_turns TS TO TN (greedy 100 start) start)) as [? Hs] by (vm_compute; by eexists). congruence.
Qed.
End SystemDemo.

(** C1: no split brain.  Run the library's supervisor, an incumbent and a
    successor together in any interleaving, with any of them dying at any
    point and any frame lost with a failed write: in every reachable state an
    incumbent that accepts writes (it lives, is not paused and has not
    returned) has the flock, a successor that took the lock and has not dropped
    it has the flock, and a successor serves only when it did; so the two never
    do it at the same time.  In particular the incumbent's resume after a
    second [SealRequest], which would break this, is out of the reach of this
    supervisor. *)
Theorem handoff_no_split_brain {T1 T2 T3 C2 C3}
    `{ControlChannel T1, !ChannelLaws T1, JournalCodec} `{ControlChannel T2, Drainable C2, !ChannelLaws T2}
    `{ControlChannel T3, Drainable C3, !ChannelLaws T3}
    (se : SEnv T1) spec sw (oe : Env) accepts (ow : Incumbent.World T2 C2)
    (ne : PEnv T3 C3) succ data_dir control_socket nw TO g :
  supervisor_ready se sw → incumbent_ready oe accepts ow → successor_ready ne control_socket nw →
  session_of (o_trace oe accepts ow) TO →
  reachable (s_trace se spec sw) TO (n_trace ne succ data_dir control_socket nw) g →
  (incumbent_serves g → flock g = Some ByO) ∧ (successor_holds g → flock g = Some ByN) ∧
  (n_alive g = true → NvServe ∈ n_done g → successor_holds g) ∧
  ¬ (incumbent_serves g ∧ successor_holds g).
Proof.
  intros Hs Ho Hn Hses Hr.
  pose proof (handoff_inv se spec sw oe accepts ow ne succ data_dir control_socket nw TO g Hs Ho Hn Hses Hr) as Hi.
  destruct (inv_flock se g Hi) as (H1' & H2' & H3'). split_and!; [done..|].
  intros [Hso Hsn]. rewrite (H1' Hso) in H2'. by specialize (H2' Hsn).
Qed.

(** The end of a committed handoff. *)
Lemma handoff_no_split_brain_witness :
  reachable SystemDemo.TS SystemDemo.TO SystemDemo.TN SystemDemo.last_state ∧
  successor_holds SystemDemo.last_state ∧ ¬ incumbent_serves SystemDemo.last_state.
Proof.
  split; [exact SystemDemo.last_reachable|].
  destruct (handoff_no_split_brain (H0 := SupervisorDemo.codec) SystemDemo.se SupervisorDemo.spec SupervisorDemo.start
    Demo.env SystemDemo.accepts Demo.start0 SystemDemo.ne PrimitiveDemo.succ "/d" "/run/h.sock" SystemDemo.nw
    SystemDemo.TO SystemDemo.last_state SystemDemo.supervisor_ok SystemDemo.incumbent_ok SystemDemo.successor_ok SystemDemo.session_ok SystemDemo.last_reachable)
    as (_ & _ & _ & Hno).
  assert (successor_holds SystemDemo.last_state) as Hn by (split; vm_compute; reflexivity).
  split; [exact Hn|]. intros Ho. exact (Hno (conj Ho Hn)).
Defined.

(** C10: the verdicts agree.  In every reachable state, once the incumbent
    received [ResumeAfterAbort] the successor is dead and does not have the
    flock; once it received [Commit], that successor's [Ready] for this handoff
    was sent, and the supervisor never kills it; and a successor that took the
    flock did so after the incumbent had given it up, having sealed or
    returned. *)
Theorem handoff_verdicts_agree {T1 T2 T3 C2 C3}
    `{ControlChannel T1, !ChannelLaws T1, JournalCodec} `{ControlChannel T2, Drainable C2, !ChannelLaws T2}
    `{ControlChannel T3, Drainable C3, !ChannelLaws T3}
    (se : SEnv T1) spec sw (oe : Env) accepts (ow : Incumbent.World T2 C2)
    (ne : PEnv T3 C3) succ data_dir control_socket nw TO g :
  supervisor_ready se sw → incumbent_ready oe accepts ow → successor_ready ne control_socket nw →
  session_of (o_trace oe accepts ow) TO →
  reachable (s_trace se spec sw) TO (n_trace ne succ data_dir control_socket nw) g →
  let id := new_handoff_id se in
  (∀ i, Incumbent.EvRecv (ResumeAfterAbort i) ∈ o_done g →
     i = id ∧ n_alive g = false ∧ flock g ≠ Some ByN) ∧
  (∀ i, Incumbent.EvRecv (Commit i) ∈ o_done g →
     i = id ∧ (∃ ls hz revs, NvSend (Ready id ls hz revs) true ∈ n_done g) ∧
     ∀ pid, Supervisor.EvKill pid ∉ s_done g) ∧
  (NvLock ∈ n_done g →
     Incumbent.EvUnlock ∈ o_done g ∧
     (Incumbent.EvSeal true ∈ o_done g ∨ Incumbent.EvReturn ∈ o_done g)).
Proof.
  intros Hs Ho Hn Hses Hr id.
  pose proof (handoff_inv se spec sw oe accepts ow ne succ data_dir control_socket nw TO g Hs Ho Hn Hses Hr) as Hi.
  split_and!; [intros i; by apply inv_resumed|intros i; by apply inv_committed|by apply (inv_locked se)].
Qed.

Lemma handoff_verdicts_agree_witness :
  reachable SystemDemo.TS SystemDemo.TO SystemDemo.TN SystemDemo.last_state ∧
  (∃ ls hz revs, NvSend (Ready SystemDemo.id1 ls hz revs) true ∈ n_done SystemDemo.last_state) ∧
  Incumbent.EvUnlock ∈ o_done SystemDemo.last_state.
Proof.
  split; [exact SystemDemo.last_reachable|].
  destruct (handoff_verdicts_agree (H0 := SupervisorDemo.codec) SystemDemo.se SupervisorDemo.spec SupervisorDemo.start
    Demo.env SystemDemo.accepts Demo.start0 SystemDemo.ne PrimitiveDemo.succ "/d" "/run/h.sock" SystemDemo.nw
    SystemDemo.TO SystemDemo.last_state SystemDemo.supervisor_ok SystemDemo.incumbent_ok SystemDemo.successor_ok SystemDemo.session_ok SystemDemo.last_reachable)
    as (_ & Hcommit & Hlock).
  assert (o_done SystemDemo.last_state !! 11%nat = Some (Incumbent.EvRecv (Commit SystemDemo.id1))) as Hc
    by (vm_compute; reflexivity).
  assert (n_done SystemDemo.last_state !! 3%nat = Some NvLock) as Hl by (vm_compute; reflexivity).
  destruct (Hcommit _ (list_elem_of_lookup_2 _ _ _ Hc)) as (_ & Hr & _).
  destruct (Hlock (list_elem_of_lookup_2 _ _ _ Hl)) as [Hu _].
  split; [exact Hr|exact Hu].
Defined.
