(* ===== verification/Handover.v ===== *)
(** * A handoff that completes

    The three liveness theorems put together: a supervisor, an incumbent and a
    successor that have one [Conversation] reach the end of the handoff, in
    the system where they hear only each other and share one flock. *)
From stdpp Require Import base tactics option list numbers strings gmap.
From S2P Require Import Prelude Contract Errors Protocol Sock Frame Fd Lock Channel Talking Role Crash StateJournal Incumbent IncumbentSafety IncumbentAsked IncumbentCommits Bind Primitive PrimitiveSafety PrimitiveCommits Supervisor SupervisorSafety SupervisorTime SupervisorCommits System.
Local Open Scope Z_scope.

(** ** Schedules as blocks of events *)

(** A step of some run, whichever run it is of. *)
Inductive fstep : global → global → Prop :=
| f_supervisor e g g' : s_apply e g = Some g' → fstep g g'
| f_incumbent e g g' : o_apply e g = Some g' → fstep g g'
| f_successor e g g' : n_apply e g = Some g' → fstep g g'.

Lemma fstep_grows g g' :
  rtc fstep g g' →
  s_done g `prefix_of` s_done g' ∧ o_done g `prefix_of` o_done g' ∧ n_done g `prefix_of` n_done g'.
Proof.
  induction 1 as [g|g1 g2 g3 Hstep _ (IHs & IHo & IHn)]; [done|].
  destruct Hstep as [e g g' Ha|e g g' Ha|e g g' Ha].
  - destruct (s_apply_rest _ _ _ Ha) as (Es & Eo & En & _). rewrite Es in IHs. rewrite Eo in IHo. rewrite En in IHn.
    split; [|done]. etrans; [|exact IHs]. by apply prefix_app_r.
  - destruct (o_apply_rest _ _ _ Ha) as (Es & Eo & En & _). rewrite Es in IHs. rewrite Eo in IHo. rewrite En in IHn.
    split_and!; [done| |done]. etrans; [|exact IHo]. by apply prefix_app_r.
  - destruct (n_apply_rest _ _ _ Ha) as (Es & Eo & En & _). rewrite Es in IHs. rewrite Eo in IHo. rewrite En in IHn.
    split_and!; [done..|]. etrans; [|exact IHn]. by apply prefix_app_r.
Qed.

(** A path whose end is within the three runs is a path of the system. *)
Lemma fstep_reaches TS TO TN g g' :
  rtc fstep g g' → s_done g' `prefix_of` TS → o_done g' `prefix_of` TO → n_done g' `prefix_of` TN →
  rtc (gstep TS TO TN) g g'.
Proof.
  intros Hr Hs Ho Hn. induction Hr as [g|g1 g2 g3 Hstep Hr IH]; [done|].
  eapply rtc_l; [|by apply IH]. destruct (fstep_grows _ _ Hr) as (Ps & Po & Pn). destruct Hstep as [e g g' Ha|e g g' Ha|e g g' Ha].
  - eapply g_supervisor; [|exact Ha]. rewrite <- (proj1 (s_apply_rest _ _ _ Ha)). by etrans.
  - eapply g_incumbent; [|exact Ha]. rewrite <- (proj1 (proj2 (o_apply_rest _ _ _ Ha))). by etrans.
  - eapply g_successor; [|exact Ha]. rewrite <- (proj1 (proj2 (proj2 (n_apply_rest _ _ _ Ha)))). by etrans.
Qed.

Abbreviation s_does := (runs (λ g e, s_apply e g)).
Abbreviation o_does := (runs (λ g e, o_apply e g)).
Abbreviation n_does := (runs (λ g e, n_apply e g)).

Lemma does_path {E} (ap : E → global → option global) g es g' :
  (∀ e g g', ap e g = Some g' → fstep g g') → runs (λ g e, ap e g) g es = Some g' → rtc fstep g g'.
Proof.
  intros Hf. revert g. induction es as [|e es IH]; intros g; simpl; [by intros [= ->]|].
  intros (g1 & H1 & H2)%bind_Some. eapply rtc_l; [by eapply Hf|by apply IH].
Qed.

(** *** Blocks *)

(** An event that only the supervisor sees. *)
Definition quiet (e : s_event) : bool :=
  match e with Supervisor.EvJournal _ _ | Supervisor.EvJournalClear | Supervisor.EvDisarm _ | Supervisor.EvClose _ => true | _ => false end.

Section blocks.
Context (sd : list s_event) (od : list o_event) (nd : list nevent) (so os sn ns : list Message)
  (f : option System.owner) (oa na : bool).

Lemma s_quiet es :
  forallb quiet es = true →
  s_does (mkGlobal sd od nd so os sn ns f oa na) es = Some (mkGlobal (sd ++ es) od nd so os sn ns f oa na).
Proof.
  revert sd. induction es as [|e es IH]; intros sd'; simpl; [by rewrite app_nil_r|].
  intros [He Hes]%andb_true_iff. destruct e; try done; simpl; rewrite IH by done; by rewrite <- app_assoc.
Qed.

Lemma o_says ms :
  o_does (mkGlobal sd od nd so os sn ns f true na) (map (λ m, Incumbent.EvSend m true) ms) =
    Some (mkGlobal sd (od ++ map (λ m, Incumbent.EvSend m true) ms) nd so (os ++ ms) sn ns f true na).
Proof.
  revert od os. induction ms as [|m ms IH]; intros od' os'; simpl; [by rewrite !app_nil_r|].
  rewrite IH. by rewrite <- !app_assoc.
Qed.

(** The whole queue. *)
Lemma s_hears_all ms :
  s_does (mkGlobal sd od nd so ms sn ns f oa na) (map (Supervisor.EvRecv PO) ms) =
    Some (mkGlobal (sd ++ map (Supervisor.EvRecv PO) ms) od nd so [] sn ns f oa na).
Proof using Type.
  enough (∀ os, os = [] → s_does (mkGlobal sd od nd so (ms ++ os) sn ns f oa na) (map (Supervisor.EvRecv PO) ms) =
    Some (mkGlobal (sd ++ map (Supervisor.EvRecv PO) ms) od nd so os sn ns f oa na)) as He
    by (rewrite <- (He [] eq_refl); by rewrite app_nil_r).
  intros q _. clear os. revert sd. induction ms as [|m ms IH]; intros sd'; simpl; [by rewrite app_nil_r|].
  rewrite decide_True by done. simpl. rewrite IH. by rewrite <- app_assoc.
Qed.
End blocks.

Section path.
Context {T1 : Type} (se : SEnv T1) (oe : Env) (c : Conversation) (d0 : Z) (k0 : nat).
Abbreviation jev ph := (jevents se (Supervisor.EvJournal ph true)).
Abbreviation beats1 := (beats oe d0 (drain_beats oe k0)).
Abbreviation beats2 := (beats oe (d1 oe d0 k0) (seal_beats oe k0)).

Lemma jevents_quiet e : quiet e = true → forallb quiet (jevents se e) = true.
Proof. intros He. unfold jevents. destruct (has_journal se); simpl; [by rewrite He|done]. Qed.

(** All that each of them does, to the end. *)
Definition s_all : list s_event := body_events se c ++ [Supervisor.EvClose PN; Supervisor.EvClose PO].
Definition o_all : list o_event := session_events oe c d0 k0 ++ [Incumbent.EvReturn].
Definition n_all : list nevent := successor_events c.
Definition completed : global := mkGlobal s_all o_all n_all [] [] [] [] (Some ByN) true true.

Hypothesis Hterse : terse c.
Hypothesis Hready : ready_chat c = [].
Hypothesis Hdrain : drain_chat c = beats1.
Hypothesis Hseal : seal_chat c = beats2.

Ltac s_one e := eapply rtc_l; [apply (f_supervisor e); simpl; rewrite ?decide_True by done; reflexivity|].
Ltac o_one e := eapply rtc_l; [apply (f_incumbent e); simpl; rewrite ?decide_True by done; reflexivity|].
Ltac n_one e := eapply rtc_l; [apply (f_successor e); simpl; rewrite ?decide_True by done; reflexivity|].
Ltac s_silent ph := etrans; [apply (does_path s_apply _ (jev ph)); [apply f_supervisor|apply s_quiet, jevents_quiet; done]|].

(** The state reached is the one announced. *)
Ltac arrived :=
  match goal with |- rtc _ ?a ?b => replace b with a; [constructor|] end;
  f_equal; repeat progress (simpl; rewrite <- ?app_assoc); reflexivity.

(** Up to the supervisor's [PrepareHandoff]. *)
Definition prepared : global :=
  mkGlobal (connect_events c ++ start_events c ++ jev Negotiating ++ [Supervisor.EvSend PO (prepare c) true])
    [Incumbent.EvSend (hello_o c) true] [NvSend (hello_n c) true]
    [HelloAck (v_o c) (c_id c); prepare c] [] [HelloAck (v_n c) (c_id c)] [] (Some ByO) true true.

Lemma path_prepared : rtc fstep System.start prepared.
Proof.
  unfold System.start. o_one (Incumbent.EvSend (hello_o c) true).
  s_one (Supervisor.EvRecv PO (hello_o c)). s_one (Supervisor.EvSend PO (HelloAck (v_o c) (c_id c)) true).
  s_one (Supervisor.EvSpawn (n_pid c)). n_one (NvSend (hello_n c) true).
  s_one (Supervisor.EvRecv PN (hello_n c)). s_one (Supervisor.EvSend PN (HelloAck (v_n c) (c_id c)) true).
  s_silent Negotiating. s_one (Supervisor.EvSend PO (prepare c) true). done.
Qed.

(** Drained, and asked to seal. *)
Definition asked : global :=
  mkGlobal (connect_events c ++ start_events c ++ jev Negotiating ++ drain_events se c ++
              [Supervisor.EvSend PO (SealRequest (c_id c)) true])
    (hello_events c ++ prepare_events oe c d0 k0) [NvSend (hello_n c) true]
    [SealRequest (c_id c)] [] [HelloAck (v_n c) (c_id c)] [] (Some ByO) true true.

Lemma path_asked : rtc fstep prepared asked.
Proof using Hterse Hdrain.
  destruct Hterse as (Hb & _). unfold prepared, asked, prepare_events, drain_events. rewrite Hb, Hdrain.
  o_one (Incumbent.EvRecv (HelloAck (v_o c) (c_id c))). o_one (Incumbent.EvRecv (prepare c)).
  etrans; [apply (does_path o_apply _ (map (λ m, Incumbent.EvSend m true) beats1)); [apply f_incumbent|apply o_says]|].
  o_one (Incumbent.EvDrain (drain_deadline c d0) true). o_one (Incumbent.EvSend (drained_report c) true).
  etrans; [apply (does_path s_apply _ (map (Supervisor.EvRecv PO) (beats1 ++ [drained_report c])));
    [apply f_supervisor|apply s_hears_all]|].
  s_silent Draining. s_one (Supervisor.EvSend PO (SealRequest (c_id c)) true).
  arrived.
Qed.

(** Sealed, the flock given up, and the successor told to begin. *)
Definition begun : global :=
  mkGlobal (connect_events c ++ start_events c ++ jev Negotiating ++ drain_events se c ++ seal_events c ++
              jev Sealing ++ Supervisor.EvSend PN (Begin (c_id c)) true :: jev AwaitingReady)
    (hello_events c ++ prepare_events oe c d0 k0 ++ sealing_events oe c d0 k0) [NvSend (hello_n c) true]
    [] [] [HelloAck (v_n c) (c_id c); Begin (c_id c)] [] None true true.

Lemma path_begun : rtc fstep asked begun.
Proof using Hterse Hseal.
  destruct Hterse as (_ & Hb & _). unfold asked, begun, sealing_events, seal_events. rewrite Hb, Hseal.
  o_one (Incumbent.EvRecv (SealRequest (c_id c))).
  etrans; [apply (does_path o_apply _ (map (λ m, Incumbent.EvSend m true) beats2)); [apply f_incumbent|apply o_says]|].
  o_one (Incumbent.EvSeal true). o_one Incumbent.EvUnlock. o_one (Incumbent.EvSend (complete c) true).
  etrans; [apply (does_path s_apply _ (map (Supervisor.EvRecv PO) (beats2 ++ [complete c])));
    [apply f_supervisor|apply s_hears_all]|].
  s_silent Sealing. s_one (Supervisor.EvSend PN (Begin (c_id c)) true). s_silent AwaitingReady.
  arrived.
Qed.

Lemma path_completed : rtc fstep begun completed.
Proof using Hterse Hready.
  destruct Hterse as (_ & _ & Hb & Hb'). unfold begun, completed, s_all, o_all, n_all.
  unfold body_events, session_events, successor_events, PrimitiveCommits.begin_events, begin_events, o_commit_events, to_n.
  rewrite Hb, Hb', Hready.
  n_one (NvRecv (HelloAck (v_n c) (c_id c))). n_one (NvRecv (Begin (c_id c))). n_one NvLock.
  n_one (NvSend (ready c) true). s_one (Supervisor.EvRecv PN (ready c)). s_one (Supervisor.EvDisarm (n_pid c)).
  s_one (Supervisor.EvSend PO (Commit (c_id c)) true). s_silent StateJournal.Committed.
  etrans; [apply (does_path s_apply _ (jevents se Supervisor.EvJournalClear)); [apply f_supervisor|apply s_quiet, jevents_quiet; done]|].
  s_one (Supervisor.EvClose PN). s_one (Supervisor.EvClose PO).
  o_one (Incumbent.EvRecv (Commit (c_id c))). o_one Incumbent.EvReturn. n_one NvBind. n_one NvServe.
  arrived.
Qed.
End path.

Lemma path_all {T1} (se : SEnv T1) oe c d0 k0 :
  terse c → ready_chat c = [] → drain_chat c = beats oe d0 (drain_beats oe k0) →
  seal_chat c = beats oe (d1 oe d0 k0) (seal_beats oe k0) →
  reachable (s_all se c) (o_all oe c d0 k0) (n_all c) (completed se oe c d0 k0).
Proof.
  intros Ht Hr Hd Hs. apply fstep_reaches; [|done..].
  etrans; [apply (path_prepared se)|]. etrans; [by apply path_asked|]. etrans; [by apply path_begun|].
  by apply path_completed.
Qed.

(** A session starts at the [accept] of its connection. *)
Lemma no_accept_in_session oe c d0 k0 : Incumbent.EvAccept ∉ o_all oe c d0 k0.
Proof.
  unfold o_all, session_events, hello_events, prepare_events, sealing_events, o_commit_events, echoes.
  rewrite !elem_of_app, !elem_of_cons, !elem_of_app, !elem_of_cons, !list_elem_of_bind.
  assert (∀ ms, Incumbent.EvAccept ∉ map (λ m, Incumbent.EvSend m true) ms) as Hsend
    by (intros ms (m & [=] & _)%list_elem_of_fmap).
  intros Hin. repeat match goal with
  | Hin : _ ∨ _ |- _ => destruct Hin as [Hin|Hin]
  | Hin : _ ∈ [] |- _ => by apply elem_of_nil in Hin
  | Hin : _ ∈ map _ _ |- _ => by apply Hsend in Hin
  | Hin : _ ∈ _ :: _ |- _ => apply elem_of_cons in Hin
  | Hin : ∃ _, _ |- _ => destruct Hin as (? & Hin & _)
  | Hin : _ = _ |- _ => discriminate
  end.
Qed.

(** ** The three runs *)
Section handover.
Context {T1 T2 T3 C2 C3 : Type} `{Talking T1} `{JournalCodec} `{Talking T2} `{Drainable C2} `{Talking T3} `{Drainable C3}.
Context (c : Conversation) (se : SEnv T1) (spec : SpawnSpec) (sw : Supervisor.World T1) (D : Z).
Context (oe : Env) (pre post : list (result IoError (Connection T2))) (conn : Connection T2).
Context (ow : Incumbent.World T2 C2) (cs1 cs2 : C2).
Context (ne : PEnv T3 C3) (succ : Role.Successor) (data_dir control_socket : string) (nw : PWorld T3).

(** The supervisor and its system work, and hear the incumbent's and the
    successor's part of the conversation. *)
Definition supervisor_in (t_o t_n : T1) : Prop :=
  fresh sw ∧ Supervisor.in_flight sw = false ∧ (∀ n, 0 ≤ Supervisor.delay se n ≤ D) ∧
  (∀ p, crashes_at (Supervisor.crash se) p = false) ∧
  (∀ n j fs, (StateJournal.write_atomic (journal_answers se n) j fs).1 = Ok tt) ∧
  agreed se D spec c t_o t_n [] [] sw.

(** The incumbent has the lock, turns [pre] away, and hears the supervisor's
    part on [conn]. *)
Definition incumbent_in (rest : list Message) : Prop :=
  (∀ p, crashes_at (Incumbent.crash oe) p = false) ∧ is_Some (Incumbent.lock ow) ∧
  Incumbent.trace ow = [] ∧ forallb (skipped oe) pre = true ∧
  led oe c conn rest (consumer ow) cs1 cs2 (Incumbent.clock ow) (Incumbent.calls ow).

(** The successor starts, and hears the supervisor's part for it. *)
Definition successor_in (rest : list Message) : Prop :=
  fair ne (Primitive.me nw) ∧ (∀ n, 0 ≤ e_delay ne n) ∧ valid_accepts (e_accepts ne) ∧ log (p_chan nw) = [] ∧
  told ne c rest control_socket (p_proc nw) (p_dir nw) (p_names nw) (p_calls nw) (p_chan nw).

Abbreviation TS := (s_trace se spec sw).
Abbreviation TO := (o_all oe c (Incumbent.clock ow) (Incumbent.calls ow)).
Abbreviation TN := (n_trace ne succ data_dir control_socket nw).

(** How it ends for each of them, and for the system. *)
Record handed_over : Prop := {
  ho_supervisor : (perform_handoff se spec sw).1 = Ok (mkOutcome (c_id c) true None (Some (n_pid c)));
  ho_incumbent : (serve oe (pre ++ Ok conn :: post) ow).1 = Ok (Returned (Ok tt));
  ho_released : flock_holder (fs (serve oe (pre ++ Ok conn :: post) ow).2) = None;
  ho_successor : let '(r, w') := run_successor ne succ data_dir control_socket nw in
    served_flock (Primitive.me nw) r w' ∧ (e_accepts ne = [] → r = Ok Accepting);
  ho_session : session_of (o_trace oe (pre ++ Ok conn :: post) ow) TO;
  ho_reached : reachable TS TO TN (completed se oe c (Incumbent.clock ow) (Incumbent.calls ow));
  ho_whole : completed se oe c (Incumbent.clock ow) (Incumbent.calls ow) =
    mkGlobal TS TO TN [] [] [] [] (Some ByN) true true
}.

Lemma handover_runs t_o t_n o_rest n_rest :
  terse c → ready_chat c = [] → supervisor_in t_o t_n → incumbent_in o_rest → successor_in n_rest → handed_over.
Proof.
  intros Hterse Hready (Hfr & Hfl & Hd & Hsc & Hj & Ha) (Hoc & [g Hg] & Hot & Hpre & Hled) (Hfair & Hnt & Hacc & Hl & Htold).
  destruct (commits_run se D Hd Hsc Hj spec c t_o t_n [] [] sw Ha Hfr Hfl) as (sw' & Hs & _ & Hst).
  destruct (hands_over_run oe c conn o_rest pre post g cs1 cs2 ow Hoc Hg Hpre Hled) as (ow' & Ho & _ & Hof & _ & Hotr).
  rewrite Hot in Hotr. simpl in Hotr.
  pose proof (serves_run ne c n_rest succ data_dir control_socket nw Hfair Hnt Hacc Hl Htold) as Hn.
  assert (s_trace se spec sw = s_all se c) as HTS.
  { unfold s_trace. rewrite Hs. simpl. rewrite Hst. by destruct Hfr as (_ & _ & _ & ->). }
  assert (n_trace ne succ data_dir control_socket nw = n_all c) as HTN.
  { unfold n_trace. by destruct (run_successor ne succ data_dir control_socket nw) as [r w']; destruct Hn. }
  split.
  - by rewrite Hs.
  - by rewrite Ho.
  - by rewrite Ho.
  - destruct (run_successor ne succ data_dir control_socket nw). by destruct Hn as (_ & ? & ?).
  - split; [apply no_accept_in_session|]. unfold o_trace. rewrite Ho. simpl. rewrite Hotr.
    exists (replicate (length pre) Incumbent.EvAccept), []. rewrite app_nil_r. unfold o_all.
    by rewrite app_comm_cons, replicate_cons_app, <- app_assoc.
  - rewrite HTS, HTN. destruct Hled. apply path_all; [done|done| |].
    + by rewrite l_drain_chat, (proj1 Hterse).
    + by rewrite l_seal_chat, (proj1 (proj2 Hterse)).
  - by rewrite HTS, HTN.
Qed.
End handover.

(** ** Every system that works has such a conversation

    What each side says is computed from the environments of the other two:
    the version both have, the deadline that is left when the supervisor asks,
    the reports of the consumer, a heartbeat for every interval it works. *)
Section exists_one.
Context {C2 C3 : Type} `{JournalCodec} `{Drainable C2} `{Drainable C3}.
Context (se : SEnv Script.script) (spec : SpawnSpec) (sw : Supervisor.World Script.script) (D : Z).
Context (oe : Env) (conn : Connection Script.script) (ow : Incumbent.World Script.script C2).
Context (dr : DrainReport) (sr : SealReport) (cs1 cs2 : C2).
Context (ne : PEnv Script.script C3) (succ : Role.Successor) (data_dir control_socket : string).
Context (nw : PWorld Script.script).

Definition the_conversation : Conversation :=
  let d := Incumbent.clock ow in let k := Incumbent.calls ow in
  mkConversation (new_handoff_id se)
    (Incumbent.me oe) (build_id oe) PROTO_MIN PROTO_MAX Capabilities_default
    (Primitive.me nw) test_build_id PROTO_MIN PROTO_MAX Capabilities_default PROTO_MAX PROTO_MAX
    (as_u64 (left_of (deadline spec) (elapsed se (Supervisor.calls sw) (prepare_calls se)))) (as_u64 (drain_grace spec))
    (open_conns_remaining dr) (accept_closed dr) (last_revision_per_shard sr) (data_dir_fingerprint sr)
    [] true [43] (beats oe d (drain_beats oe k)) (beats oe (d1 oe d k) (seal_beats oe k)) [] [] [] [] [].
Abbreviation c := the_conversation.

(** The channels between the three. *)
Definition o_channel : Script.script := Script.says (from_o c).
Definition n_channel : Script.script := Script.says (from_n c).
Definition se_wired : SEnv Script.script :=
  mkSEnv (own_pid se) (has_journal se) (Ok o_channel) (Ok tt) (Ok n_channel) (Ok (Primitive.me nw)) (Ok tt)
    (new_handoff_id se) (Supervisor.delay se) (peek se) (journal_answers se) (Supervisor.unix_ms se)
    (Supervisor.show_error se) (Supervisor.show_id se) (Supervisor.crash se).
Definition conn_wired : Connection Script.script :=
  mkConnection (conn_fd conn) (conn_kernel conn) (conn_peer_uid conn) (conn_write_timeout conn) (Script.says (to_o c)).
Definition nw_wired : PWorld Script.script := Primitive.set_chan (mkTraced (Script.says (to_n c)) []) nw.

(** The machine works, nothing is made to crash, the consumer drains and
    seals, and there is time. *)
Record works : Prop := {
  wk_supervisor : fresh sw ∧ Supervisor.in_flight sw = false ∧ (∀ n, 0 ≤ Supervisor.delay se n ≤ D) ∧
    ∀ n j fs, (StateJournal.write_atomic (journal_answers se n) j fs).1 = Ok tt;
  wk_no_crash : (∀ p, crashes_at (Supervisor.crash se) p = false) ∧
    (∀ p, crashes_at (Incumbent.crash oe) p = false) ∧
    (∀ p, crashes_at (crash_env ne nw) p = false);
  wk_time : D * Z.of_nat (length (drain_chat c)) < drain_grace spec + WIRE_SLACK ∧
    D * Z.of_nat (15 + length (drain_chat c) + length (seal_chat c)) < deadline spec + WIRE_SLACK;
  wk_incumbent : is_Some (Incumbent.lock ow) ∧ Incumbent.trace ow = [] ∧ prepare_session_stream oe conn = Ok tt;
  wk_consumer : drain (drain_deadline c (Incumbent.clock ow)) (consumer ow) = (Ok dr, cs1) ∧ seal cs1 = (Ok sr, cs2);
  wk_successor : fair ne (Primitive.me nw) ∧ (∀ n, 0 ≤ e_delay ne n) ∧ valid_accepts (e_accepts ne);
  wk_lock : e_fs ne (p_calls nw) = fs_ok ∧ flock_holder (e_others ne (p_calls nw) (p_dir nw)) = None;
  wk_bind : bind_works (e_sun_path_size ne) (Primitive.me nw) (e_seq ne) (e_bind ne) control_socket (p_names nw)
}.
Hypothesis Hworks : works.

Lemma beats_chat d n : chats (beats oe d n).
Proof. revert d. induction n as [|n IH]; intros d; constructor; [done|apply IH]. Qed.

Lemma works_supervisor : supervisor_in c se_wired spec sw D o_channel n_channel.
Proof.
  destruct (wk_supervisor Hworks) as (Hfr & Hfl & Hd & Hj). destruct (wk_no_crash Hworks) as [Hc _].
  destruct (wk_time Hworks) as [Ht1 Ht2].
  split; [done|]. split; [done|]. split; [exact Hd|]. split; [exact Hc|]. split; [exact Hj|].
  split; try done; try (repeat split; done).
  - split; [apply beats_chat|]. split; [apply beats_chat|constructor].
  - repeat constructor.
  - repeat constructor.
  - assert (pred (ready_calls se_wired c) ≤ 15 + length (drain_chat c) + length (seal_chat c))%nat as Hk.
    { unfold ready_calls, complete_calls, drained_calls, prepare_calls, jcalls. simpl. destruct (has_journal se); lia. }
    pose proof (elapsed_mono se_wired D Hd (Supervisor.calls sw) _ _ Hk).
    pose proof (elapsed_bound se_wired D Hd (Supervisor.calls sw) (15 + length (drain_chat c) + length (seal_chat c))). lia.
Qed.

Lemma drain_report_eta r : r = mkDrainReport (open_conns_remaining r) (accept_closed r).
Proof. by destruct r. Qed.
Lemma seal_report_eta r : r = mkSealReport (last_revision_per_shard r) (data_dir_fingerprint r).
Proof. by destruct r. Qed.

Lemma works_incumbent : incumbent_in c oe [] conn_wired ow cs1 cs2 [].
Proof.
  destruct (wk_no_crash Hworks) as (_ & Hc & _). destruct (wk_incumbent Hworks) as (Hl & Ht & Hp).
  destruct (wk_consumer Hworks) as [Hdr Hsl].
  split; [done|]. split; [done|]. split; [done|]. split; [done|].
  split; try done; try (repeat split; done).
  - rewrite Hdr, (drain_report_eta dr) at 1. done.
  - rewrite Hsl, (seal_report_eta sr) at 1. done.
  - by apply Forall_true.
Qed.

Lemma works_successor : successor_in c ne control_socket nw_wired [].
Proof.
  destruct (wk_no_crash Hworks) as (_ & _ & Hc). destruct (wk_successor Hworks) as (Hf & Ht & Ha).
  split; [done|]. split; [done|]. split; [done|]. split; [done|].
  split; try done; apply Hworks.
Qed.

Lemma works_hands_over :
  handed_over c se_wired spec sw oe [] [] conn_wired ow ne succ data_dir control_socket nw_wired.
Proof.
  eapply (handover_runs c se_wired spec sw D oe [] [] conn_wired ow cs1 cs2); [done..| | |].
  - apply works_supervisor.
  - apply works_incumbent.
  - apply works_successor.
Qed.
End exists_one.

(** The three of the examples. *)
Module HandoverDemo.
Definition conn : Connection Script.script :=
  mkConnection 9 (mkKernel {[ 9 := mkFd 0 FD_CLOEXEC ]} ∅ 1024) (Ok 1000) (Ok tt) (Script.says []).
Definition dr : DrainReport := mkDrainReport 0 true.
Definition sr : SealReport := mkSealReport [7] [].
Definition drained : Demo.app := Demo.mkApp false [] [].
Definition nw : PWorld Script.script := PrimitiveDemo.start [].
Abbreviation conversation :=
  (the_conversation SystemDemo.se SupervisorDemo.spec SupervisorDemo.start Demo.env Demo.start0 dr sr nw).
Lemma works_ok :
  works (H := SupervisorDemo.codec) SystemDemo.se SupervisorDemo.spec SupervisorDemo.start 1 Demo.env conn Demo.start0
    dr sr drained drained SystemDemo.ne "/run/h.sock" nw.
Proof.
  split; try (repeat split; done).
  - split; [intros n d; reflexivity|]. split; [intros n; discriminate|constructor].
  - split; [split; vm_compute; reflexivity|reflexivity|left; reflexivity|repeat split; reflexivity].
Qed.
End HandoverDemo.

(** ** Properties *)

(** C3: a handoff completes.  Let the supervisor, an incumbent with the lock
    and a spawned successor have one conversation: what the supervisor hears
    is what the two others say in it, on any channel that delivers it, and the
    other way round; the machine answers their calls, no crash point is named,
    the consumer drains and seals, and the frames come in time.  Then
    [perform_handoff] commits, [serve] returns [Ok] with the flock released, and
    the successor comes to serve with the flock; and the system, in which each
    of the three receives only what another has sent and takes the flock only
    when it is free, reaches the state in which all three have done everything
    they do: no frame is left, both live, and the flock is the successor's. *)
Theorem handoff_completes {T1 T2 T3 C2 C3} `{Talking T1} `{JournalCodec} `{Talking T2} `{Drainable C2}
    `{Talking T3} `{Drainable C3} (c : Conversation) (se : SEnv T1) spec sw D oe pre post conn
    (ow : Incumbent.World T2 C2) cs1 cs2 (ne : PEnv T3 C3) succ data_dir control_socket nw t_o t_n o_rest n_rest :
  terse c → ready_chat c = [] →
  supervisor_in c se spec sw D t_o t_n →
  incumbent_in c oe pre conn ow cs1 cs2 o_rest →
  successor_in c ne control_socket nw n_rest →
  (perform_handoff se spec sw).1 = Ok (mkOutcome (c_id c) true None (Some (n_pid c))) ∧
  (serve oe (pre ++ Ok conn :: post) ow).1 = Ok (Returned (Ok tt)) ∧
  flock_holder (fs (serve oe (pre ++ Ok conn :: post) ow).2) = None ∧
  (e_accepts ne = [] →
     (run_successor ne succ data_dir control_socket nw).1 = Ok Accepting ∧
     flock_holder (p_dir (run_successor ne succ data_dir control_socket nw).2) = Some (Primitive.me nw)) ∧
  ∃ TO, session_of (o_trace oe (pre ++ Ok conn :: post) ow) TO ∧
    let TS := s_trace se spec sw in let TN := n_trace ne succ data_dir control_socket nw in
    reachable TS TO TN (mkGlobal TS TO TN [] [] [] [] (Some ByN) true true) ∧ NvServe ∈ TN.
Proof.
  intros Hterse Hready Hs Ho Hn.
  destruct (handover_runs c se spec sw D oe pre post conn ow cs1 cs2 ne succ data_dir control_socket nw
    t_o t_n o_rest n_rest Hterse Hready Hs Ho Hn) as [Rs Ro Rf Rn Rses Rr Rw].
  split; [done|]. split; [done|]. split; [done|]. split.
  { intros Ha. destruct (run_successor ne succ data_dir control_socket nw) as [r w']. destruct Rn as [Hf Hr].
    specialize (Hr Ha). by subst r. }
  eexists. split; [exact Rses|]. cbv zeta. rewrite <- Rw. split; [exact Rr|].
  injection Rw as _ HTN. rewrite <- HTN. unfold n_all, successor_events. set_solver.
Qed.

Lemma handoff_completes_witness :
  let c := HandoverDemo.conversation in
  terse c ∧
  (perform_handoff (H0 := SupervisorDemo.codec)
     (se_wired SystemDemo.se SupervisorDemo.spec SupervisorDemo.start Demo.env Demo.start0 HandoverDemo.dr
        HandoverDemo.sr HandoverDemo.nw) SupervisorDemo.spec SupervisorDemo.start).1 =
    Ok (mkOutcome SystemDemo.id1 true None (Some 77)).
Proof.
  split; [repeat split|].
  destruct (handoff_completes (H1 := SupervisorDemo.codec) HandoverDemo.conversation
    (se_wired SystemDemo.se SupervisorDemo.spec SupervisorDemo.start Demo.env Demo.start0 HandoverDemo.dr
       HandoverDemo.sr HandoverDemo.nw) SupervisorDemo.spec SupervisorDemo.start 1 Demo.env [] []
    (conn_wired SystemDemo.se SupervisorDemo.spec SupervisorDemo.start Demo.env HandoverDemo.conn Demo.start0
       HandoverDemo.dr HandoverDemo.sr HandoverDemo.nw) Demo.start0 HandoverDemo.drained HandoverDemo.drained
    SystemDemo.ne PrimitiveDemo.succ "/d" "/run/h.sock"
    (nw_wired SystemDemo.se SupervisorDemo.spec SupervisorDemo.start Demo.env Demo.start0 HandoverDemo.dr
       HandoverDemo.sr HandoverDemo.nw) _ _ [] []
    ltac:(repeat split) eq_refl (works_supervisor _ _ _ _ _ _ _ _ _ _ _ _ _ _ HandoverDemo.works_ok)
    (works_incumbent _ _ _ _ _ _ _ _ _ _ _ _ _ _ HandoverDemo.works_ok)
    (works_successor _ _ _ _ _ _ _ _ _ _ _ _ _ _ HandoverDemo.works_ok)) as (Hs & _).
  exact Hs.
Defined.

(** C18: there is always such a handoff.  Take any supervisor, incumbent and
    successor on a machine that works ([works]: whatever the delays, the
    heartbeats, the consumer's reports and the paths are, within the
    deadlines): with channels that carry what each of them says to the other,
    computed from their environments, the handoff between them completes. *)
Theorem working_systems_hand_over {C2 C3} `{JournalCodec} `{Drainable C2} `{Drainable C3}
    (se : SEnv Script.script) spec sw D oe conn (ow : Incumbent.World Script.script C2) dr sr cs1 cs2
    (ne : PEnv Script.script C3) succ data_dir control_socket nw :
  works se spec sw D oe conn ow dr sr cs1 cs2 ne control_socket nw →
  let c := the_conversation se spec sw oe ow dr sr nw in
  handed_over c (se_wired se spec sw oe ow dr sr nw) spec sw oe [] [] (conn_wired se spec sw oe conn ow dr sr nw) ow
    ne succ data_dir control_socket (nw_wired se spec sw oe ow dr sr nw).
Proof. intros Hw c. by eapply works_hands_over. Qed.

Lemma working_systems_hand_over_witness :
  flock_holder (fs (serve Demo.env ([] ++ Ok (conn_wired SystemDemo.se SupervisorDemo.spec SupervisorDemo.start
    Demo.env HandoverDemo.conn Demo.start0 HandoverDemo.dr HandoverDemo.sr HandoverDemo.nw) :: [])
    Demo.start0).2) = None.
Proof.
  exact (ho_released _ _ _ _ _ _ _ _ _ _ _ _ _ _
    (working_systems_hand_over (H := SupervisorDemo.codec) SystemDemo.se SupervisorDemo.spec SupervisorDemo.start 1
      Demo.env HandoverDemo.conn Demo.start0 HandoverDemo.dr HandoverDemo.sr HandoverDemo.drained HandoverDemo.drained
      SystemDemo.ne PrimitiveDemo.succ "/d" "/run/h.sock" HandoverDemo.nw HandoverDemo.works_ok)).
Defined.
