(* ===== verification/Fleet.v ===== *)
(** * Any number of processes and handoffs

    [System] follows one handoff.  Here any number of primitives, started cold
    or spawned as successors, and any number of handoffs run together: the
    successor of one handoff is the incumbent of a later one, handoffs are
    retried after an abort, several supervisors may be at work at once, and
    every process may die at any time.  What a successor and a supervisor hear
    is not restricted at all; an incumbent hears, in a session with a
    supervisor, what that supervisor's run of [perform_handoff] said, and in a
    session with any other client anything but a [SealRequest]. *)
From stdpp Require Import base tactics option list numbers strings gmap functions.
From S2P Require Import Prelude Contract Errors Protocol Sock Frame Fd Lock Channel Role Crash StateJournal Supervisor SupervisorSafety Incumbent IncumbentSafety IncumbentAsked Bind Primitive PrimitiveSafety System.
Local Open Scope Z_scope.

(** ** Coming up: cold or as a successor *)
Inductive boot : Type := Out | Holds | Serves.

Definition boot_step (b : boot) (e : nevent) : option boot :=
  match b, e with
  | Out, NvLock => Some Holds
  | Out, (NvSend _ _ | NvRecv _) => Some Out
  | Holds, NvUnlock => Some Out
  | Holds, NvServe => Some Serves
  | Holds, (NvSend _ _ | NvRecv _ | NvBind) => Some Holds
  | _, _ => None
  end.
Abbreviation boots := (runs boot_step Out).

Definition boot_of (s : nstate) : boot :=
  match s with
  | NIdle | NGreeted | NShook _ | NTold _ | NGone => Out
  | NHeld _ | NSaid _ _ | NBound _ => Holds
  | NServing _ => Serves
  end.

Lemma nstep_boot s e s' : nstep s e = Some s' → boot_step (boot_of s) e = Some (boot_of s').
Proof. destruct s, e as [[]|[]| | | |]; simpl; intros; repeat case_match; by simplify_eq/=. Qed.

Lemma nruns_boots es s : nruns NIdle es = Some s → boots es = Some (boot_of s).
Proof.
  revert s. induction es as [|e es IH] using rev_ind; intros s; [by intros [= <-]|].
  rewrite !runs_app. destruct (nruns NIdle es) as [s1|]; simpl; [|done].
  destruct (nstep s1 e) as [s2|] eqn:He; simpl; [|done]. intros [= <-].
  rewrite (IH s1 eq_refl). simpl. by rewrite (nstep_boot _ _ _ He).
Qed.

Lemma cold_boots es : cold_log es → is_Some (boots es).
Proof. intros [->|[->| ->]]; by eexists. Qed.

Lemma serving_boots es b : boots es = Some b → NvServe ∈ es → b = Serves.
Proof.
  revert b. induction es as [|e es IH] using rev_ind; intros b; [by intros _ ?%elem_of_nil|].
  rewrite runs_app. destruct (boots es) as [b1|]; simpl; [|done].
  destruct (boot_step b1 e) as [b2|] eqn:He; simpl; [|done]. intros [= <-].
  rewrite elem_of_app, list_elem_of_singleton. intros [Hin|<-].
  - by rewrite (IH b1 eq_refl Hin) in He.
  - destruct b1; simpl in He; by simplify_eq.
Qed.

(** ** The state *)

(** A process: what it did before and in [serve], and the handoff whose
    supervisor it is talking to ([None]: no connection, or another client). *)
Record pstate : Type := mkP { booted : list nevent; ran : list o_event; alive : bool; conn : option nat }.
(** A handoff: what its supervisor did, the frames on their way to the
    incumbent, and whether an incumbent has accepted its connection. *)
Record hstate : Type := mkH { sup_done : list s_event; in_transit : list Message; taken : bool }.
Record fleet : Type := mkFleet { proc : nat → pstate; hand : nat → hstate; holder : option nat }.

Definition fleet_start : fleet := mkFleet (λ _, mkP [] [] true None) (λ _, mkH [] [] false) None.

Inductive move : Type :=
| Boot (p : nat) (e : nevent)
| Serve (p : nat) (e : o_event) (to : option nat)
| Supervise (h : nat) (e : s_event)
| Die (p : nat).

Definition release (p : nat) (f : option nat) : option nat := if decide (f = Some p) then None else f.
Definition set_proc (p : nat) (P : pstate) (f : option nat) (g : fleet) : fleet :=
  mkFleet (<[p := P]> (proc g)) (hand g) f.
Definition set_hand (h : nat) (H : hstate) (g : fleet) : fleet :=
  mkFleet (proc g) (<[h := H]> (hand g)) (holder g).

Definition n_takes (e : nevent) : bool := match e with NvLock => true | _ => false end.
Definition n_gives (e : nevent) : bool := match e with NvUnlock => true | _ => false end.
Definition o_takes (e : o_event) : bool := match e with Incumbent.EvLock => true | _ => false end.
Definition o_gives (e : o_event) : bool := match e with Incumbent.EvUnlock => true | _ => false end.

(** What the lock allows, and who has it then. *)
Definition flock_after (p : nat) (takes gives : bool) (f : option nat) : option (option nat) :=
  if takes then if decide (f = None) then Some (Some p) else None
  else if gives then Some (release p f) else Some f.

(** What the session allows: the new connection and the handoff's queue. *)
Definition hears_next (e : o_event) (to : option nat) (P : pstate) (g : fleet)
    : option (option nat * fleet) :=
  match e with
  | Incumbent.EvAccept =>
      match to with
      | None => Some (None, g)
      | Some h =>
          let H := hand g h in
          if taken H then None else Some (Some h, set_hand h (mkH (sup_done H) (in_transit H) true) g)
      end
  | Incumbent.EvRecv m =>
      match conn P with
      | None => if is_seal_request m then None else Some (None, g)
      | Some h =>
          let H := hand g h in
          q ← pop m (in_transit H); Some (Some h, set_hand h (mkH (sup_done H) q (taken H)) g)
      end
  | _ => Some (conn P, g)
  end.

Definition f_apply (mv : move) (g : fleet) : option fleet :=
  match mv with
  | Boot p e =>
      let P := proc g p in
      if negb (alive P) then None else
      f ← flock_after p (n_takes e) (n_gives e) (holder g);
      Some (set_proc p (mkP (booted P ++ [e]) (ran P) true (conn P)) f g)
  | Serve p e to =>
      let P := proc g p in
      if negb (alive P) || bool_decide (NvServe ∉ booted P) then None else
      f ← flock_after p (o_takes e) (o_gives e) (holder g);
      '(c, g) ← hears_next e to P g;
      Some (set_proc p (mkP (booted P) (ran P ++ [e]) true c) f g)
  | Supervise h e =>
      let H := hand g h in
      let q := match e with Supervisor.EvSend PO m ok => push m ok (in_transit H) | _ => in_transit H end in
      Some (set_hand h (mkH (sup_done H ++ [e]) q (taken H)) g)
  | Die p =>
      let P := proc g p in
      Some (set_proc p (mkP (booted P) (ran P) false (conn P)) (release p (holder g)) g)
  end.

(** The runs of the programs. *)
Section fleet.
Context (PRE : nat → list nevent) (MAIN : nat → list o_event) (TS : nat → list s_event).

Definition scripted (mv : move) (g : fleet) : Prop :=
  match mv with
  | Boot p e => booted (proc g p) ++ [e] `prefix_of` PRE p
  | Serve p e _ => ran (proc g p) ++ [e] `prefix_of` MAIN p
  | Supervise h e => sup_done (hand g h) ++ [e] `prefix_of` TS h
  | Die _ => True
  end.

Inductive fstep : fleet → fleet → Prop :=
| f_move mv g g' : scripted mv g → f_apply mv g = Some g' → fstep g g'.

Definition f_reachable (g : fleet) : Prop := rtc fstep fleet_start g.

(** A schedule to run. *)
Inductive fturn : Type := TBoot (p : nat) | TServe (p : nat) (to : option nat) | TSupervise (h : nat).
Definition f_move_of (t : fturn) (g : fleet) : option move :=
  match t with
  | TBoot p => e ← PRE p !! length (booted (proc g p)); Some (Boot p e)
  | TServe p to => e ← MAIN p !! length (ran (proc g p)); Some (Serve p e to)
  | TSupervise h => e ← TS h !! length (sup_done (hand g h)); Some (Supervise h e)
  end.
Definition f_turn (t : fturn) (g : fleet) : option fleet := mv ← f_move_of t g; f_apply mv g.
End fleet.

(** ** A session: what a process did since it last accepted *)
Definition since (es : list o_event) : list o_event :=
  foldl (λ acc e, match e with Incumbent.EvAccept => [] | _ => acc ++ [e] end) [] es.

Lemma since_snoc es e :
  since (es ++ [e]) = match e with Incumbent.EvAccept => [] | _ => since es ++ [e] end.
Proof. unfold since. by rewrite foldl_app. Qed.

Lemma since_accept es : Incumbent.EvAccept ∉ since es.
Proof.
  induction es as [|e es IH] using rev_ind; [by apply not_elem_of_nil|]. rewrite since_snoc.
  destruct e; try (by apply not_elem_of_nil); rewrite elem_of_app, list_elem_of_singleton; naive_solver.
Qed.

(** The contracts forget the earlier sessions. *)
Lemma since_runs es c : o_runs o_start es = Some c → o_runs o_start (since es) = Some c.
Proof.
  revert c. induction es as [|e es IH] using rev_ind; intros c; [done|]. rewrite since_snoc, runs_app.
  destruct (o_runs o_start es) as [c1|]; simpl; [|done].
  destruct (IncumbentSafety.contract_step c1 e) as [c2|] eqn:He; simpl; [|done]. intros [= <-].
  assert (o_runs o_start (since es ++ [e]) = Some c2) as Hs by (rewrite runs_app, (IH c1 eq_refl); simpl; by rewrite He).
  destruct e; try exact Hs. unfold IncumbentSafety.contract_step in He. case_match; by simplify_eq.
Qed.
Lemma since_asking es b : asking false es = Some b → asking false (since es) = Some b.
Proof.
  revert b. induction es as [|e es IH] using rev_ind; intros b; [done|]. rewrite since_snoc, runs_app.
  destruct (asking false es) as [b1|]; simpl; [|done].
  destruct (asked_step b1 e) as [b2|] eqn:He; simpl; [|done]. intros [= <-].
  destruct e; try (rewrite runs_app, (IH b1 eq_refl); simpl; simpl in He; by rewrite He).
  simpl in He. by simplify_eq.
Qed.

(** ** The invariant *)
Definition has_lock (b : boot) (co : IncumbentSafety.contract) : bool :=
  match b with Out => false | Holds => true | Serves => locked co end.

(** One process: its contracts, and the truth about the flock. *)
Record proc_ok (P : pstate) (mine : Prop) (b : boot) (co : IncumbentSafety.contract) (a : bool) : Prop := {
  p_boots : boots (booted P) = Some b;
  p_ran : o_runs o_start (ran P) = Some co;
  p_asked : asking false (ran P) = Some a;
  p_order : ran P ≠ [] → b = Serves;
  p_lock : mine ↔ alive P = true ∧ has_lock b co = true
}.

(** Its session: it heard what the handoff's supervisor said, in order, or no
    [SealRequest]. *)
Definition session_ok (P : pstate) (hand : nat → hstate) : Prop :=
  match conn P with
  | Some h =>
      taken (hand h) = true ∧
      s_sent PO (sup_done (hand h)) = o_heard (since (ran P)) ++ in_transit (hand h)
  | None => seal_requests (o_heard (since (ran P))) = 0%nat
  end.

Definition hand_ok (H : hstate) (ts : list s_event) : Prop :=
  sup_done H `prefix_of` ts ∧ (taken H = false → s_sent PO (sup_done H) = in_transit H).

Section invariant.
Context (PRE : nat → list nevent) (MAIN : nat → list o_event) (TS : nat → list s_event).

Record fleet_ok (g : fleet) : Prop := {
  f_proc p : ∃ b co a, proc_ok (proc g p) (holder g = Some p) b co a;
  f_session p : session_ok (proc g p) (hand g);
  f_alone p q h : conn (proc g p) = Some h → conn (proc g q) = Some h → p = q;
  f_hand h : hand_ok (hand g h) (TS h)
}.

Lemma fleet_start_ok : fleet_ok fleet_start.
Proof.
  split; simpl; try done.
  - intros p. exists Out, o_start, false. split; simpl; try done. split; [done|by intros []].
  - intros h. split; [apply prefix_nil|done].
Qed.

(** *** The lock *)
Lemma boot_lock b e b' :
  boot_step b e = Some b' → has_lock b' o_start = if n_takes e then true else if n_gives e then false else has_lock b o_start.
Proof. destruct b, e; simpl; intros; by simplify_eq/=. Qed.

(** Whoever takes the flock has it then, and nobody else gains or loses it. *)
Lemma flock_after_spec p takes gives f f' :
  flock_after p takes gives f = Some f' →
  (f' = Some p ↔ if takes then True else if gives then False else f = Some p) ∧
  ∀ q, q ≠ p → f' = Some q ↔ f = Some q.
Proof.
  unfold flock_after, release. intros Hf. destruct takes; [|destruct gives]; simplify_eq/=.
  - case_decide as Hn; simplify_eq. split; [by split|]. intros q Hq. split; congruence.
  - case_decide; (split; [split; [congruence|done]|]); intros q Hq; [|done]. split; congruence.
  - done.
Qed.

(** The other processes, when [p] moved. *)
Lemma others_ok g p P f H :
  fleet_ok g → (∀ q, q ≠ p → f = Some q ↔ holder g = Some q) →
  (∃ b co a, proc_ok P (f = Some p) b co a) → session_ok P H →
  (∀ q, q ≠ p → session_ok (proc g q) H) →
  (∀ q h, q ≠ p → conn P = Some h → conn (proc g q) ≠ Some h) →
  (∀ h, hand_ok (H h) (TS h)) →
  fleet_ok (mkFleet (<[p := P]> (proc g)) H f).
Proof.
  intros [Fp Fs Fa Fh] Hf HP HS Hq Hc HH. split; simpl; [| | |done].
  - intros q. destruct (decide (q = p)) as [->|Hne]; [by rewrite fn_lookup_insert|].
    rewrite fn_lookup_insert_ne by done. destruct (Fp q) as (b & co & a & [? ? ? ? Hl]).
    exists b, co, a. split; [done..|]. by rewrite Hf.
  - intros q. destruct (decide (q = p)) as [->|Hne]; [by rewrite fn_lookup_insert|].
    rewrite fn_lookup_insert_ne by done. by apply Hq.
  - intros q r h. destruct (decide (q = p)) as [->|Hne], (decide (r = p)) as [->|Hne'];
      rewrite ?fn_lookup_insert, ?(fn_lookup_insert_ne _ p q), ?(fn_lookup_insert_ne _ p r) by done; try done.
    + intros H1 H2. by destruct (Hc r h Hne' H1).
    + intros H1 H2. by destruct (Hc q h Hne H2).
    + apply Fa.
Qed.

Hypothesis boots_ok : ∀ p, is_Some (boots (PRE p)).
Hypothesis serves_ok : ∀ p, is_Some (o_runs o_start (MAIN p)) ∧ is_Some (asking false (MAIN p)).

(** A process comes up. *)
Lemma boot_ok p e g g' :
  fleet_ok g → booted (proc g p) ++ [e] `prefix_of` PRE p → f_apply (Boot p e) g = Some g' → fleet_ok g'.
Proof.
  intros Hg Hpre Hap. simpl in Hap. destruct (alive (proc g p)) eqn:Hal; [|done]. simpl in Hap.
  destruct (flock_after p (n_takes e) (n_gives e) (holder g)) as [f|] eqn:Hf; simplify_eq/=.
  destruct (f_proc g Hg p) as (b & co & a & [Hb Hr Ha Ho Hl]).
  destruct (runs_next _ _ _ _ _ _ (boots_ok p) Hpre Hb) as (b' & Hstep & Hb').
  destruct (flock_after_spec _ _ _ _ _ Hf) as [Hmine Hothers].
  assert (ran (proc g p) = []) as Hnil.
  { destruct (ran (proc g p)); [done|]. specialize (Ho ltac:(done)). by subst b. }
  rewrite Hnil in Hr, Ha. simplify_eq/=.
  apply others_ok; [done|done| | | | |].
  - exists b', o_start, false. split; simpl; try done; [by rewrite Hnil..|].
    rewrite (boot_lock _ _ _ Hstep), Hmine. destruct (n_takes e), (n_gives e); try (split; [done|by intros []]); try done.
    rewrite Hl, Hal. done.
  - exact (f_session g Hg p).
  - intros q _. exact (f_session g Hg q).
  - intros q h Hq H1 H2. by destruct Hq; eapply (f_alone g Hg).
  - exact (f_hand g Hg).
Qed.

(** A handoff's supervisor moves. *)
Lemma supervise_ok h e g g' :
  fleet_ok g → sup_done (hand g h) ++ [e] `prefix_of` TS h → f_apply (Supervise h e) g = Some g' → fleet_ok g'.
Proof.
  intros [Fp Fs Fa Fh] Hpre [= <-].
  set (H := mkH _ _ _).
  assert (∀ heard, s_sent PO (sup_done (hand g h)) = heard ++ in_transit (hand g h) →
    s_sent PO (sup_done H) = heard ++ in_transit H) as Hq.
  { intros heard Hh. unfold H. simpl. unfold s_sent in *. rewrite omap_app, Hh. simpl.
    destruct e as [[] m []| | | | | | |]; simpl; rewrite ?app_nil_r, ?app_assoc; done. }
  split; simpl; [done| |done|].
  - intros p. specialize (Fs p). unfold session_ok in *. destruct (conn (proc g p)) as [h'|]; [|done].
    destruct (decide (h' = h)) as [->|Hne]; [|by rewrite fn_lookup_insert_ne].
    rewrite fn_lookup_insert. destruct Fs as [Ht Hs]. split; [done|by apply Hq].
  - intros h'. destruct (decide (h' = h)) as [->|Hne]; [|by rewrite fn_lookup_insert_ne].
    rewrite fn_lookup_insert. destruct (Fh h) as [_ Ht]. split; [done|]. simpl. intros Hta.
    exact (Hq [] (Ht Hta)).
Qed.

(** A process dies. *)
Lemma die_ok p g : fleet_ok g → ∀ g', f_apply (Die p) g = Some g' → fleet_ok g'.
Proof.
  intros Hg g' [= <-]. destruct (f_proc g Hg p) as (b & co & a & [Hb Hr Ha Ho Hl]).
  apply others_ok; [done| | | | | |].
  - intros q Hq. unfold release. case_decide; [|done]. split; congruence.
  - exists b, co, a. split; simpl; try done. unfold release. case_decide; split; (done || by intros [] || congruence).
  - exact (f_session g Hg p).
  - intros q _. exact (f_session g Hg q).
  - intros q h Hq H1 H2. by destruct Hq; eapply (f_alone g Hg).
  - exact (f_hand g Hg).
Qed.

(** *** A process serves *)
Lemma session_others g p h H :
  fleet_ok g → (∀ q, q ≠ p → conn (proc g q) ≠ Some h) →
  ∀ q, q ≠ p → session_ok (proc g q) (<[h := H]> (hand g)).
Proof.
  intros Hg Hno q Hq. pose proof (f_session g Hg q) as Hs. unfold session_ok in *.
  specialize (Hno q Hq). destruct (conn (proc g q)) as [h'|]; [|done].
  rewrite fn_lookup_insert_ne by congruence. done.
Qed.

Lemma hand_insert g h H :
  fleet_ok g → hand_ok H (TS h) → ∀ h', hand_ok ((<[h := H]> (hand g)) h') (TS h').
Proof.
  intros Hg HH h'. destruct (decide (h' = h)) as [->|Hne]; [by rewrite fn_lookup_insert|].
  rewrite fn_lookup_insert_ne by done. apply (f_hand g Hg).
Qed.

Lemma since_quiet es e :
  match e with Incumbent.EvAccept | Incumbent.EvRecv _ => False | _ => True end →
  o_heard (since (es ++ [e])) = o_heard (since es).
Proof.
  rewrite since_snoc. unfold o_heard. destruct e; try done; intros _; rewrite omap_app; simpl;
    by rewrite app_nil_r.
Qed.
Lemma since_recv es m : o_heard (since (es ++ [Incumbent.EvRecv m])) = o_heard (since es) ++ [m].
Proof. rewrite since_snoc. unfold o_heard. by rewrite omap_app. Qed.

Lemma hears_next_spec p e to g c g1 bt al :
  fleet_ok g → hears_next e to (proc g p) g = Some (c, g1) →
  let P := mkP bt (ran (proc g p) ++ [e]) al c in
  proc g1 = proc g ∧ session_ok P (hand g1) ∧
  (∀ q, q ≠ p → session_ok (proc g q) (hand g1)) ∧
  (∀ q h, q ≠ p → conn P = Some h → conn (proc g q) ≠ Some h) ∧
  ∀ h, hand_ok (hand g1 h) (TS h).
Proof.
  intros Hg He P. pose proof (f_session g Hg p) as Hs.
  assert (∀ q h, q ≠ p → conn (proc g p) = Some h → conn (proc g q) ≠ Some h) as Halone.
  { intros q h Hq H1 H2. by destruct Hq; eapply (f_alone g Hg). }
  set (quiet := match e with Incumbent.EvAccept | Incumbent.EvRecv _ => False | _ => True end).
  assert (quiet ∨ ¬ quiet) as [Hq|Hq] by (unfold quiet; destruct e; auto).
  { assert (c = conn (proc g p) ∧ g1 = g) as [-> ->] by (destruct e; simpl in He; by simplify_eq).
    split; [done|]. split_and!; [|intros; apply (f_session _ Hg)|done|apply (f_hand _ Hg)].
    unfold session_ok in *. simpl. by rewrite since_quiet. }
  unfold quiet in Hq. destruct e as [| |m| | | | | | |]; try (by destruct Hq); simpl in He.
  - destruct to as [h|]; simplify_eq/=.
    2:{ split; [done|]. split_and!; [|intros; apply (f_session _ Hg)|done|apply (f_hand _ Hg)].
        unfold session_ok. simpl. by rewrite since_snoc. }
    destruct (taken (hand g h)) eqn:Ht; simplify_eq/=.
    assert (∀ q, conn (proc g q) ≠ Some h) as Hno.
    { intros q Hc. pose proof (f_session g Hg q) as Hsq. unfold session_ok in Hsq. rewrite Hc in Hsq.
      destruct Hsq. congruence. }
    destruct (f_hand g Hg h) as [Hpre Hin]. split; [done|]. split_and!.
    + unfold session_ok. simpl. rewrite fn_lookup_insert, since_snoc. split; [done|]. by apply Hin.
    + apply session_others; auto.
    + intros q h' Hq' [= <-]. apply Hno.
    + apply hand_insert; [done|]. by split.
  - unfold session_ok in Hs. destruct (conn (proc g p)) as [h|] eqn:Hc; simpl in He.
    2:{ destruct (is_seal_request m) eqn:Hm; simplify_eq/=. split; [done|].
        split_and!; [|intros; apply (f_session _ Hg)|done|apply (f_hand _ Hg)].
        unfold session_ok. simpl. rewrite since_recv. unfold seal_requests in *.
        rewrite List.filter_app, length_app, Hs. simpl. by rewrite Hm. }
    destruct (pop m (in_transit (hand g h))) as [q|] eqn:Hpop; simplify_eq/=. apply pop_app in Hpop.
    destruct Hs as [Ht Hs]. destruct (f_hand g Hg h) as [Hpre Hin]. split; [done|]. split_and!.
    + unfold session_ok. simpl. rewrite fn_lookup_insert, since_recv. split; [done|]. simpl.
      by rewrite Hs, Hpop, <- app_assoc.
    + apply session_others; [done|]. intros q' Hq'. by apply Halone.
    + intros q' h' Hq' [= <-]. by apply Halone.
    + apply hand_insert; [done|]. split; [done|]. simpl. congruence.
Qed.

Lemma serve_ok p e to g g' :
  fleet_ok g → ran (proc g p) ++ [e] `prefix_of` MAIN p → f_apply (Serve p e to) g = Some g' → fleet_ok g'.
Proof.
  intros Hg Hpre Hap. simpl in Hap. destruct (alive (proc g p)) eqn:Hal; [|done]. simpl in Hap.
  case_bool_decide as Hsv; [done|].
  destruct (flock_after p (o_takes e) (o_gives e) (holder g)) as [f|] eqn:Hf; simpl in Hap; [|done].
  destruct (hears_next e to (proc g p) g) as [[c g1]|] eqn:He; simplify_eq/=.
  destruct (hears_next_spec p e to g c g1 (booted (proc g p)) true Hg He) as (Hp1 & Hs & Hqs & Hc & Hh).
  destruct (f_proc g Hg p) as (b & co & a & [Hb Hr Ha Ho Hl]).
  destruct (serves_ok p) as [HM HA].
  destruct (runs_next _ _ _ _ _ _ HM Hpre Hr) as (co' & Hstep & Hr').
  destruct (runs_next _ _ _ _ _ _ HA Hpre Ha) as (a' & _ & Ha').
  destruct (flock_after_spec _ _ _ _ _ Hf) as [Hmine Hothers].
  assert (b = Serves) as ->.
  { eapply serving_boots; [exact Hb|]. destruct (decide (NvServe ∈ booted (proc g p))) as [Hin|Hin]; [exact Hin|]. tauto. }
  unfold set_proc. rewrite Hp1. apply others_ok; [done|done| |exact Hs|exact Hqs|exact Hc|exact Hh].
  exists Serves, co', a'. split; simpl; try done. rewrite Hmine.
  destruct (contract_step_flags _ _ _ Hstep) as (Hlk & _). rewrite Hlk.
  destruct e; simpl; try (by rewrite Hl, Hal); by split; [|intros []].
Qed.
End invariant.

(** ** The programs' runs *)
Section programs.
Context {T1 T2 C : Type}.
Context `{ControlChannel T1, !ChannelLaws T1, JournalCodec}.
Context `{ControlChannel T2, Drainable C, !ChannelLaws T2}.

(** [ts] is a run of [perform_handoff]; no run at all for a number that is not
    used. *)
Definition handoff_run (ts : list s_event) : Prop :=
  ts = [] ∨ ∃ (env : SEnv T1) spec w, supervisor_ready env w ∧ ts = s_trace env spec w.

(** [pre] and [main] are a run of the primitive, started cold or spawned. *)
Definition primitive_run (pre : list nevent) (main : list o_event) : Prop :=
  (pre = [] ∧ main = []) ∨
  ∃ (env : PEnv T2 C) data_dir control_socket w, successor_ready env control_socket w ∧
    ∃ w', (w' = (run_cold_start env data_dir control_socket w).2 ∨
           ∃ succ, w' = (run_successor env succ data_dir control_socket w).2) ∧
          pre = log (p_chan w') ∧ main = p_served w'.

Lemma handoff_run_ok ts : handoff_run ts → ∃ id, is_Some (s_runs id s_start ts).
Proof.
  intros [->|(env & spec & w & (Hv & Hf & Hfl) & ->)]; [by exists (mkHandoffId 0); eexists|].
  exists (new_handoff_id env). destruct (handoff_runs env spec w Hv Hf Hfl) as (c & Hc & _). by exists c.
Qed.

Lemma primitive_run_ok pre main :
  primitive_run pre main →
  is_Some (boots pre) ∧ is_Some (o_runs o_start main) ∧ is_Some (asking false main).
Proof.
  intros [[-> ->]|(env & dir & sock & w & (Hfair & Htime & Hacc & Hbind & Hlog & Hsv & Hno) & w' & Hrun & -> & ->)];
    [split_and!; by eexists|].
  destruct Hrun as [->|[succ ->]].
  - pose proof (run_cold_start_run env (me w) dir sock w Hfair Htime Hacc Hbind eq_refl Hlog Hsv Hno) as Hr.
    destruct (run_cold_start env dir sock w) as [r w']. destruct Hr as (Hl & Hok & _).
    split; [by apply cold_boots|exact Hok].
  - assert (at_ (me w) w NIdle) as Hat by (split; [by rewrite Hlog|split; [done|by split]]).
    destruct (successor_runs env (me w) succ dir sock w Hfair Htime Hacc Hbind Hat Hsv) as [[s Hs] Hok].
    split; [eexists; by eapply nruns_boots|exact Hok].
Qed.
End programs.

(** ** Who is in charge *)

(** A process that serves accepts writes unless its consumer is paused or
    [serve] returned; before that, one that took the lock opens the data. *)
Definition in_charge (g : fleet) (p : nat) : Prop :=
  let P := proc g p in
  alive P = true ∧
  if decide (NvServe ∈ booted P) then is_paused (ran P) = false ∧ Incumbent.EvReturn ∉ ran P
  else n_holding (booted P) = true.

Lemma boots_holding es b : boots es = Some b → b ≠ Serves → n_holding es = match b with Holds => true | _ => false end.
Proof.
  revert b. induction es as [|e es IH] using rev_ind; intros b; [by intros [= <-]|].
  rewrite runs_app. destruct (boots es) as [b1|]; simpl; [|done].
  destruct (boot_step b1 e) as [b2|] eqn:He; simpl; [|done]. intros [= <-] Hb.
  assert (b1 ≠ Serves) as Hb1 by (by destruct b1).
  specialize (IH b1 eq_refl Hb1). unfold n_holding in *. rewrite foldl_app. simpl. rewrite IH.
  destruct b1, e; simpl in He; by simplify_eq.
Qed.

Lemma boots_serving es b : boots es = Some b → b = Serves → NvServe ∈ es.
Proof.
  revert b. induction es as [|e es IH] using rev_ind; intros b; [by intros [= <-]|].
  rewrite runs_app. destruct (boots es) as [b1|]; simpl; [|done].
  destruct (boot_step b1 e) as [b2|] eqn:He; simpl; [|done]. intros [= <-] ->.
  rewrite elem_of_app, list_elem_of_singleton. destruct b1, e; simpl in He; simplify_eq; by right.
Qed.

Lemma in_charge_holds TS g p :
  (∀ h, ∃ id, is_Some (s_runs id s_start (TS h))) → fleet_ok TS g → in_charge g p → holder g = Some p.
Proof.
  intros HT Hg [Hal Hch]. destruct (f_proc _ _ Hg p) as (b & co & a & [Hb Hr Ha Ho Hl]).
  apply Hl. split; [done|]. case_decide as Hsv.
  2:{ assert (b ≠ Serves) as Hb' by (intros ->; by apply Hsv, (boots_serving _ _ Hb)).
      rewrite (boots_holding _ _ Hb Hb') in Hch. by destruct b. }
  rewrite (serving_boots _ _ Hb Hsv). simpl. destruct Hch as [Hpa Hret].
  destruct (follows_flags _ _ Hr) as (_ & Hp & _ & Hre).
  eapply session_locked; [by apply since_runs|by apply since_asking|apply since_accept|congruence| |].
  { destruct (returned co); [|done]. by destruct Hret; apply Hre. }
  pose proof (f_session _ _ Hg p) as Hs. unfold session_ok in Hs.
  destruct (conn (proc g p)) as [h|]; [|lia]. destruct Hs as [_ Hs].
  destruct (HT h) as (id & c & HTh). destruct (f_hand _ _ Hg h) as [[rest Hpre] _]. rewrite Hpre in HTh.
  rewrite runs_app in HTh. destruct (s_runs id s_start (sup_done (hand g h))) as [cs|] eqn:Hcs; [|done].
  by eapply asked_once.
Qed.

(** *** Running a schedule *)
Section schedule.
Context (PRE : nat → list nevent) (MAIN : nat → list o_event) (TS : nat → list s_event).

(** What a move adds to the three kinds of traces. *)
Definition new_boot (mv : move) (p : nat) : list nevent :=
  match mv with Boot q e => if decide (q = p) then [e] else [] | _ => [] end.
Definition new_ran (mv : move) (p : nat) : list o_event :=
  match mv with Serve q e _ => if decide (q = p) then [e] else [] | _ => [] end.
Definition new_sup (mv : move) (h : nat) : list s_event :=
  match mv with Supervise k e => if decide (k = h) then [e] else [] | _ => [] end.

Lemma set_proc_traces p P f g q :
  booted (proc (set_proc p P f g) q) = (if decide (p = q) then booted P else booted (proc g q)) ∧
  ran (proc (set_proc p P f g) q) = (if decide (p = q) then ran P else ran (proc g q)).
Proof.
  unfold set_proc. simpl. case_decide as Hd; [subst; by rewrite fn_lookup_insert|].
  by rewrite fn_lookup_insert_ne.
Qed.

Lemma hears_next_traces e to P g c g1 :
  hears_next e to P g = Some (c, g1) →
  proc g1 = proc g ∧ ∀ h, sup_done (hand g1 h) = sup_done (hand g h).
Proof.
  assert (∀ h0 H, sup_done H = sup_done (hand g h0) →
    proc (set_hand h0 H g) = proc g ∧ ∀ h, sup_done (hand (set_hand h0 H g) h) = sup_done (hand g h)) as Hset.
  { intros h0 H HH. split; [done|]. intros h. unfold set_hand. simpl.
    destruct (decide (h = h0)) as [->|]; [by rewrite fn_lookup_insert|by rewrite fn_lookup_insert_ne]. }
  destruct e; simpl; try (intros; by simplify_eq).
  - destruct to as [h|]; [|intros; by simplify_eq]. destruct (taken _); intros; simplify_eq. by apply Hset.
  - destruct (conn P) as [h|]; [|case_match; intros; by simplify_eq].
    destruct (pop _ _); simpl; intros; simplify_eq. by apply Hset.
Qed.

Lemma f_apply_traces mv g g' :
  f_apply mv g = Some g' →
  (∀ p, booted (proc g' p) = booted (proc g p) ++ new_boot mv p) ∧
  (∀ p, ran (proc g' p) = ran (proc g p) ++ new_ran mv p) ∧
  (∀ h, sup_done (hand g' h) = sup_done (hand g h) ++ new_sup mv h).
Proof.
  assert (∀ A (l : list A), l ++ [] = l) as Hnil by (intros; apply app_nil_r).
  destruct mv as [p e|p e to|h e|p]; simpl.
  - destruct (alive _); simpl; [|done]. destruct (flock_after _ _ _ _) as [f|]; simpl; [|done].
    intros [= <-]. split_and!; intros q; rewrite ?Hnil; [..|done];
      destruct (set_proc_traces p (mkP (booted (proc g p) ++ [e]) (ran (proc g p)) true (conn (proc g p))) f g q)
        as [Hb Hr]; rewrite ?Hb, ?Hr; case_decide; subst; rewrite ?Hnil; done.
  - destruct (_ || _); [done|]. destruct (flock_after _ _ _ _) as [f|]; simpl; [|done].
    destruct (hears_next e to (proc g p) g) as [[c g1]|] eqn:He; simpl; [|done]. intros [= <-].
    destruct (hears_next_traces _ _ _ _ _ _ He) as [Hp Hs].
    split_and!; intros q; rewrite ?Hnil; [| |apply Hs];
      destruct (set_proc_traces p (mkP (booted (proc g p)) (ran (proc g p) ++ [e]) true c) f g1 q)
        as [Hb Hr]; rewrite ?Hb, ?Hr, ?Hp; case_decide; subst; rewrite ?Hnil; done.
  - intros [= <-]. split_and!; intros q; rewrite ?Hnil; [done..|]. unfold set_hand. simpl.
    case_decide; [subst; by rewrite fn_lookup_insert|by rewrite Hnil, fn_lookup_insert_ne].
  - intros [= <-]. split_and!; intros q; rewrite ?Hnil; [..|done];
      destruct (set_proc_traces p (mkP (booted (proc g p)) (ran (proc g p)) false (conn (proc g p)))
        (release p (holder g)) g q) as [Hb Hr]; rewrite ?Hb, ?Hr; case_decide; by subst.
Qed.

Definition f_track (g : fleet) : Prop :=
  (∀ p, booted (proc g p) `prefix_of` PRE p) ∧ (∀ p, ran (proc g p) `prefix_of` MAIN p) ∧
  (∀ h, sup_done (hand g h) `prefix_of` TS h).

Lemma f_turn_step t g g' :
  f_track g → f_turn PRE MAIN TS t g = Some g' → fstep PRE MAIN TS g g' ∧ f_track g'.
Proof.
  intros (Hb & Hr & Hs) (mv & Hmv & Hap)%bind_Some.
  assert (scripted PRE MAIN TS mv g) as Hsc.
  { destruct t; simpl in Hmv; apply bind_Some in Hmv as (e & He & [= <-]); simpl; by apply prefix_next. }
  split; [by eapply f_move|]. destruct (f_apply_traces _ _ _ Hap) as (Eb & Er & Es). clear Hap.
  split_and!; intros q; rewrite ?Eb, ?Er, ?Es; destruct mv; simpl in *; rewrite ?app_nil_r; auto;
    case_decide; subst; rewrite ?app_nil_r; auto.
Qed.

Fixpoint f_run (ts : list fturn) (g : fleet) : option fleet :=
  match ts with
  | [] => Some g
  | t :: ts => g ← f_turn PRE MAIN TS t g; f_run ts g
  end.

Lemma f_run_reachable ts g : f_run ts fleet_start = Some g → f_reachable PRE MAIN TS g.
Proof.
  assert (∀ ts g0, f_track g0 → f_run ts g0 = Some g → rtc (fstep PRE MAIN TS) g0 g) as Hrun.
  { clear ts. intros ts. induction ts as [|t ts IH]; intros g0 Hg0; simpl; [intros [= ->]; constructor|].
    intros (g1 & H1 & H2)%bind_Some. destruct (f_turn_step _ _ _ Hg0 H1) as [Hstep Hg1].
    eapply rtc_l; [exact Hstep|by apply IH]. }
  apply Hrun. split_and!; intros; apply prefix_nil.
Qed.

(** Whoever can move first in a list of turns. *)
Fixpoint first_turn (ts : list fturn) (g : fleet) : option (fturn * fleet) :=
  match ts with
  | [] => None
  | t :: ts => match f_turn PRE MAIN TS t g with Some g => Some (t, g) | None => first_turn ts g end
  end.
Fixpoint f_greedy (fuel : nat) (ts : list fturn) (g : fleet) : list fturn :=
  match fuel with
  | O => []
  | S fuel => match first_turn ts g with Some (t, g) => t :: f_greedy fuel ts g | None => [] end
  end.
End schedule.

(** Two handoffs in a row: from 0, started cold, to 1, and from 1 to 2. *)
Module FleetDemo.
Definition se (i : N) : SEnv Script.script :=
  let id := mkHandoffId i in
  let o := [SystemDemo.hello Protocol.Incumbent 42 []; Drained 0 true; SealComplete id [7] []] in
  let n := [SystemDemo.hello Protocol.Successor 77 test_build_id; Ready id [] true [43]] in
  mkSEnv 5 true (Ok (Script.says o)) (Ok tt) (Ok (Script.says n)) (Ok 77) (Ok tt) id
    (λ _, 1) (λ _, Ok 0%nat) (λ _, journal_ok) (λ t, t) (λ _, "an error"%string) (λ _, "id"%string) no_crash.
Definition to_o (i : N) : list Message :=
  let id := mkHandoffId i in [HelloAck 1 id; PrepareHandoff id 77 299993 60000; SealRequest id; Commit id].
Definition to_n (i : N) : list Message := let id := mkHandoffId i in [HelloAck 1 id; Begin id].
Definition ne (accepts : list N) : PEnv Script.script Demo.app :=
  PrimitiveDemo.env ((λ i, Demo.connection (to_o i)) <$> accepts).

Abbreviation run0 := (run_cold_start (ne [1%N]) "/d" "/run/h.sock" (PrimitiveDemo.start [])).2.
Abbreviation run1 := (run_successor (ne [2%N]) PrimitiveDemo.succ "/d" "/run/h.sock" (PrimitiveDemo.start (to_n 1))).2.
Abbreviation run2 := (run_successor (ne []) PrimitiveDemo.succ "/d" "/run/h.sock" (PrimitiveDemo.start (to_n 2))).2.
Abbreviation PRE := (λ p : nat, match p with
  | 0%nat => log (p_chan run0) | 1%nat => log (p_chan run1) | 2%nat => log (p_chan run2) | _ => [] end).
Abbreviation MAIN := (λ p : nat, match p with
  | 0%nat => p_served run0 | 1%nat => p_served run1 | 2%nat => p_served run2 | _ => [] end).
Abbreviation TS := (λ h : nat, match h with
  | 0%nat => s_trace (H0 := SupervisorDemo.codec) (se 1) SupervisorDemo.spec SupervisorDemo.start
  | 1%nat => s_trace (H0 := SupervisorDemo.codec) (se 2) SupervisorDemo.spec SupervisorDemo.start
  | _ => [] end).

Definition turns : list fturn :=
  [TBoot 0; TBoot 1; TServe 0 (Some 0); TServe 1 (Some 1); TBoot 2; TServe 2 None; TSupervise 0; TSupervise 1]%nat.

Lemma primitives p : primitive_run (T2 := Script.script) (C := Demo.app) (PRE p) (MAIN p).
Proof.
  assert (∀ accepts ms, successor_ready (ne accepts) "/run/h.sock" (PrimitiveDemo.start ms)) as Hready.
  { intros accepts ms. split; [intros n d; reflexivity|]. split; [intros n; discriminate|].
    split; [|split; [split; [discriminate|reflexivity]|split; [reflexivity|split; [reflexivity|discriminate]]]].
    induction accepts as [|i accepts IH]; constructor; [exact I|exact IH]. }
  destruct p as [|[|[|p]]]; [right..|by left].
  - exists (ne [1%N]), "/d"%string, "/run/h.sock"%string, (PrimitiveDemo.start []). split; [apply Hready|].
    exists run0. split; [by left|by split].
  - exists (ne [2%N]), "/d"%string, "/run/h.sock"%string, (PrimitiveDemo.start (to_n 1)). split; [apply Hready|].
    exists run1. split; [right; by exists PrimitiveDemo.succ|by split].
  - exists (ne []), "/d"%string, "/run/h.sock"%string, (PrimitiveDemo.start (to_n 2)). split; [apply Hready|].
    exists run2. split; [right; by exists PrimitiveDemo.succ|by split].
Qed.

Lemma handoffs h : handoff_run (T1 := Script.script) (H0 := SupervisorDemo.codec) (TS h).
Proof.
  assert (∀ i, supervisor_ready (se i) SupervisorDemo.start) as Hready by (intros i; split; [by split|by split]).
  destruct h as [|[|h]]; [right; exists (se 1)|right; exists (se 2)|by left];
    exists SupervisorDemo.spec, SupervisorDemo.start; (split; [apply Hready|reflexivity]).
Qed.
End FleetDemo.

(** ** Properties *)

Lemma fleet_inv PRE MAIN TS g :
  (∀ p, is_Some (boots (PRE p))) → (∀ p, is_Some (o_runs o_start (MAIN p)) ∧ is_Some (asking false (MAIN p))) →
  f_reachable PRE MAIN TS g → fleet_ok TS g.
Proof.
  intros HP HM Hr. pose proof (fleet_start_ok TS) as Hi. revert Hr Hi. unfold f_reachable. generalize fleet_start.
  intros g0 Hr. induction Hr as [|g1 g2 g3 Hstep _ IH]; intros Hi; [done|]. apply IH.
  destruct Hstep as [[p e|p e to|h e|p] h1 h2 Hs Hap]; simpl in Hs.
  - by eapply (boot_ok PRE).
  - by eapply (serve_ok MAIN).
  - by eapply supervise_ok.
  - by eapply die_ok.
Qed.

(** C2: one process in charge, over any number of processes and handoffs.
    Take any number of runs of the primitive, started cold or spawned, and any
    number of runs of [perform_handoff]; let them interleave in any way, let
    every process die anywhere, let every incumbent be visited by any
    supervisors in turn and by other clients that do not ask for a seal, and
    let supervisors and successors hear anything at all.  In every reachable
    state a process that serves and is not paused has the flock, and so has a
    process that took it to start; hence there is at most one of them — also
    while several handoffs run at once, and after a chain of them. *)
Theorem fleet_one_in_charge {T1 T2 C} `{ControlChannel T1, !ChannelLaws T1, JournalCodec}
    `{ControlChannel T2, Drainable C, !ChannelLaws T2}
    (PRE : nat → list nevent) (MAIN : nat → list o_event) (TS : nat → list s_event) (g : fleet) :
  (∀ p, primitive_run (T2 := T2) (C := C) (PRE p) (MAIN p)) →
  (∀ h, handoff_run (T1 := T1) (TS h)) →
  f_reachable PRE MAIN TS g →
  (∀ p, in_charge g p → holder g = Some p) ∧
  (∀ p q, in_charge g p → in_charge g q → p = q).
Proof.
  intros HP HT Hr.
  assert (fleet_ok TS g) as Hok by (eapply fleet_inv; [intros p; apply (primitive_run_ok _ _ (HP p))..|exact Hr]).
  assert (∀ p, in_charge g p → holder g = Some p) as Hh.
  { intros p. apply (in_charge_holds TS); [|exact Hok]. intros h. apply (handoff_run_ok _ (HT h)). }
  split; [exact Hh|]. intros p q Hp%Hh Hq%Hh. congruence.
Qed.

(** After two handoffs in a row the third process is in charge, and the two
    that served before it are not. *)
Lemma fleet_one_in_charge_witness :
  ∃ g, f_reachable FleetDemo.PRE FleetDemo.MAIN FleetDemo.TS g ∧
    NvServe ∈ booted (proc g 0%nat) ∧ NvServe ∈ booted (proc g 1%nat) ∧ in_charge g 2%nat ∧ holder g = Some 2%nat ∧
    ¬ in_charge g 0%nat ∧ ¬ in_charge g 1%nat.
Proof.
  assert (match f_run FleetDemo.PRE FleetDemo.MAIN FleetDemo.TS
      (f_greedy FleetDemo.PRE FleetDemo.MAIN FleetDemo.TS 120 FleetDemo.turns fleet_start) fleet_start with
    | Some g => alive (proc g 2%nat) && bool_decide (NvServe ∈ booted (proc g 0%nat))
        && bool_decide (NvServe ∈ booted (proc g 1%nat)) && bool_decide (NvServe ∈ booted (proc g 2%nat))
        && negb (is_paused (ran (proc g 2%nat)))
        && forallb (λ e, match e with Incumbent.EvReturn => false | _ => true end) (ran (proc g 2%nat))
    | None => false
    end = true) as Hrun by (vm_compute; reflexivity).
  destruct (f_run _ _ _ _ _) as [g|] eqn:Hg in Hrun; [|discriminate Hrun].
  apply f_run_reachable in Hg.
  repeat (apply andb_true_iff in Hrun as [Hrun ?]). rewrite ?bool_decide_eq_true in *.
  destruct (fleet_one_in_charge (H0 := SupervisorDemo.codec) FleetDemo.PRE FleetDemo.MAIN FleetDemo.TS g
    FleetDemo.primitives FleetDemo.handoffs Hg) as [Hh Hone].
  assert (in_charge g 2%nat) as Hin2.
  { split; [exact Hrun|]. rewrite decide_True by assumption. split; [by apply negb_true_iff|].
    intros Hin%list_elem_of_In. pose proof (proj1 (forallb_forall _ _) ltac:(eassumption) _ Hin) as Hf.
    discriminate Hf. }
  exists g. split; [exact Hg|]. split; [assumption|]. split; [assumption|]. split; [exact Hin2|].
  split; [exact (Hh _ Hin2)|]. split; intros Hc; discriminate (Hone _ _ Hc Hin2).
Defined.
